(* ===== verification/_CoqProject ===== *)
-Q . S2P
Prelude.v
Mem.v
DynArray.v
Pangram.v
Asm.v
AsmLogic.v
AsmExercises.v
AsmTests.v
AsmPrograms.v
AsmProperties.v
BitCount.v
SigLog.v
Measure.v
IntArray.v
MergeSort.v
BlockingQueue.v
PosixSem.v
RingBuffer.v
ShmQueue.v
Stream.v
ForkJoin.v
MtSort.v
FizzBuzz.v
Counter.v
ShoutServer.v
ShoutIO.v
ShoutProofs.v
ShoutKqueue.v
KqueueProofs.v
UdpEcho.v
Hashmap.v
HashTable.v
HashmapProofs.v
HashmapSpec.v
HashmapMain.v
CString.v
ShellBasic.v
ShellBasicProofs.v
HeadacheShell.v
ShellPipes.v
ShellPipesProofs.v
