(* ===== verification/Prelude.v ===== *)
(** * A verification of the C programs of cs-primer-files

    The repository is a collection of small, independent C programs written
    for a course.  This library models those with logic of their own and
    proves what makes them right; where a program is wrong, it proves that
    too.  Paths below are under [src/].

    ** Parts

    Each file but the first two models one program (or one layer of it, or a
    group of small ones) and is independent of the others unless said
    otherwise.

    - [Prelude.v]: outcomes of a C computation ([res], [fault]), computations
      with state ([comp]) and their total correctness ([wp]), loops with fuel,
      machine integers, reachability, list lemmas and tactics.
    - [Mem.v]: the C heap: blocks of cells, [malloc], [calloc], [realloc],
      [free], loads, stores, [memcpy]; every access is checked.
    - [DynArray.v]: 02-computer-systems/02-introduction-to-c/04-dynamic-array/
      dynarray.c.  [DA_new], [DA_push], [DA_pop], [DA_set], [DA_get],
      [DA_size], [DA_free] and [main]; [DA] is the struct.
    - [Hashmap.v]: .../06-basic-hashmap/hashmap.c: [Hashmap_new],
      [Hashmap_set], [Hashmap_get], [Hashmap_delete], [Hashmap_free], the
      probing functions, [next_power_of_2], [djb2], [main].  [HashTable.v] is
      the table without pointers and its theory, [HashmapProofs.v] the proof
      that the functions implement it, [HashmapSpec.v] the properties of the
      map, [HashmapMain.v] the test program.
    - [Pangram.v]: .../03-fast-pangram/pangram.c ([Fast]) and
      .../04-x86-64-pangram/pangram.c ([X86]).
    - [Asm.v], [AsmLogic.v]: an x86-64 machine for the assembly exercises
      (registers, flags, memory of bytes, the instructions they use, system
      calls and calls of the C library as events, calls by a C program), and
      rules to run code on it, with the calling convention.
      [AsmExercises.v] has the functions of 02-computer-systems/
      03-low-level-programming and old/assembly that only compute,
      [AsmTests.v] the C programs that test or print them (tests.c,
      call_factorial.c, call_max_of_three.c, call_sum.c), [AsmPrograms.v]
      the programs that write or call the library (hello.asm, hola.asm,
      triangle.asm, echo.asm, power.asm, and the fib.asm of old/assembly),
      [AsmProperties.v] the properties.
    - [BitCount.v]: .../02-bitcount/bitcount.c; [bitcount] is a builtin of
      GCC, whose documented result [popcount] is also used by siglog.c.
    - [SigLog.v]: 05-operating-systems/02-programs-and-processes/
      02-signal-logger/siglog.c, whose handlers interrupt [main] and each
      other, and 01-signalbox/signalbox.c ([Box]).
    - [Measure.v]: what the measuring programs print: 05-operating-systems/
      01-introduction/01-cpu-timing/cputime.c ([Cputime]), the cputime.c of
      the multi-threaded merge sort ([Profile]), 03-byte-write/byte_write.c
      ([ByteWrite]); and 04-virtual-memory/01-basic-mmap/share.c ([Share]).
    - [IntArray.v], [MergeSort.v]: 03-algorithms-and-data-structures/
      04-divide-and-conquer-and-sorting/01-merge-sort/merge_sort.c: [merge],
      [sort], [main]; [IntArray.v] holds lemmas on sorted arrays.
    - [BlockingQueue.v]: bounded queues shared by threads, generic in the
      semaphores (class [QueueImpl] with its laws [QueueLaws]); a thread in a
      call runs a list of instructions.  [PosixSem.v] has the POSIX
      semaphores.  [RingBuffer.v] instantiates them with [ring_buffer_posix.c]
      and [ring_buffer_sysv.c] (05-operating-systems/
      03-threads-concurrency-and-scheduling/04-ring-buffer), [ShmQueue.v] with
      the queue of 05-operating-systems/04-virtual-memory/
      02-shared-memory-stream and its life under a name.  [Stream.v] puts
      server.c and client.c together: both [main]s, the bytes between them,
      the shared-memory objects and every instruction of the queue.
    - [ForkJoin.v], [MtSort.v]: .../02-multi-threaded-mergesort/mergesort.c as
      a fork-join program on shared memory, and the [main] of
      old/merge_sort_multi.c.
    - [FizzBuzz.v]: .../03-multi-threaded-fizzbuzz/fizzbuzz.c.
    - [Counter.v]: .../01-threaded-counter/counter.c.
    - [ShoutServer.v]: 04-computer-networks/
      01-introduction-to-network-programming/01-shout-server/shout_server.c,
      against an operating system that is a parameter: the set-up, sending
      and the epoll half.  [ShoutKqueue.v] is the kqueue half.  [ShoutIO.v]
      holds what both halves rely on: the streams read off the trace of the
      calls, the buffers, the set-up, and the class [Registry] of what a half
      registers with the kernel; [ShoutProofs.v] and [KqueueProofs.v] prove
      the invariants and properties of either half.
    - [UdpEcho.v]: .../02-http-header-server/test.c, a UDP server that works
      in the handler of a signal.
    - [CString.v]: lines in the heap: [strcmp], [strtok], [strsep], and the
      argument vectors that [execvp] reads.  On it, two shells of
      05-operating-systems/02-programs-and-processes, each with its theory in
      a file of proofs: [ShellBasic.v] (03-custom-shell-basic-execution/
      shell_basic.c: [handler], [handle_input], [parse_cmd],
      [handle_builtin], [run_cmd], [main]) and [ShellPipes.v]
      (04-custom-shell-pipes/shell_pipes.c: [sigint_handler], [run], [main]).
      [HeadacheShell.v] is the earlier version of the first,
      old/headache_shell.c, whose [parse_cmd] differs.

    ** How programs are modelled

    Sequential programs are functions in the monad [comp]: a state (the heap,
    or the heap and the trace of system calls), an outcome, and the first
    undefined behaviour or failed assertion as a [fault].  [wp m s Q] is total
    correctness: no fault, and enough fuel.  The fuel of a loop is computed
    from its data (the array length, the bytes left) or is an argument with a
    hypothesis that bounds it from below: the depth of the recursion of
    [Hashmap_set] (one more than the number of times the capacity may double),
    the iterations of one event of the server (hypothesis [bounded]).
    Concurrent programs are step relations or functions from a thread to the
    next state; every interleaving of their atomic steps is a schedule, and
    properties are invariants of the reachable states.  The shells are given
    what they read, when a SIGINT comes and how their children end as lists
    or functions in their state or arguments, all of which are quantified, as
    are the arrivals of signals in [SigLog.v] and the receipts in [Stream.v]; a
    long jump is a value that the frame jumped to interprets, and the fuel of
    their loops is the reads left or the room in a block.  [size_t], [int] and
    [char] are integers with their wrap-around or overflow written out.

    ** What is shown

    - Refinement of abstract specifications: the dynamic array is a list, the
      hash map a finite map (as long as no present key is set after a
      deletion and the hashes of the keys differ modulo a capacity), the ring
      buffers and the shared queue bounded FIFO queues in
      every interleaving, with processes that die inside calls for the latter.
    - Sorting: both merge sorts leave a sorted permutation, the second in
      every interleaving of its threads; both end.
    - Deadlock: a thread in a queue call is stuck only on a full or empty
      queue; the tests of the ring buffers never get stuck; the fizzbuzz
      threads lose no signal; the counter ends with the right count; the
      server and the client of the stream end, after a number of steps that is
      computed, with the same checksum, and the child and parent of share.c
      in the right order.
    - The server, with epoll and with kqueue, is free of undefined behaviour
      whatever the system answers; its heap belongs to open sockets; it echoes
      to each client a prefix of what it sent, unless a buffer needs three
      sends; with kqueue it leaks a socket when [calloc] fails.
    - The UDP server echoes every datagram once and in order and misses no
      signal; but one that comes before the handler is installed kills it, one
      of 1024 bytes overflows the buffer, and its socket blocks after all.
    - Signals: a total that siglog.c prints is the number of distinct signals
      caught so far, unless a signal comes while a handler runs, which may
      lose one.
    - The shells: the basic one does what an abstract session says, for every
      input and every timing of SIGINTs, and leaks nothing (at the command
      [quit] it exits with the line and its vector allocated).  The session
      includes what is wrong: a SIGINT at the prompt ends it as undefined
      where the implementation does not keep what a jump leaves indeterminate,
      a late SIGINT hides how a command ended, a blank line crashes it.  A
      first line given to the shell with pipes becomes connected processes in
      one group, each of which is waited for; a second line ends the shell
      unless the first group is still there, and so do a command of 256 words
      and some SIGINTs while processes are created.  The earlier version of
      the basic shell does the same as it, but overflows on lines of
      [10 * 2 ^ k] words.
    - The hash function [djb2] is a polynomial in base 33; two keys of equal
      hash modulo 8, one of which was deleted, make the map answer wrongly.
    - Assembly: pangram.asm agrees with the C function, fib.asm and
      factorial.asm recur within a stack that is computed, sum_to_n.asm,
      sum_to_n_2.asm, matrix.asm, binary_convert.asm, max_of_three.asm,
      cone.asm and sum.asm return what is said for every input, echo.asm and
      power.asm make the calls they should, the fib.asm of [old/] prints the
      first twenty Fibonacci numbers, triangle.asm fills its buffer exactly; each keeps the registers and the memory it has to.
    - Test programs: the [main] of most programs runs without a failed
      assertion.
    - Errors: what an unchecked [realloc] failure does, which letter the fast
      pangram tester ignores, how [do_send] and [Hashmap_set] go wrong.

    ** Assumptions

    [heap_ok] says that the allocator does not fail, where a program does not
    check it.  The operating system of the server satisfies [io_ok], and
    [os_ok] with epoll or [kq_ok] with kqueue: fresh descriptors, results
    within what was asked, events for what is registered.  A send to a closed
    connection fails, and its SIGPIPE is not modelled.  For the stream each
    receipt gets what was sent ([whole]), and the server's array has a NUL
    behind the name it gets.  For the pipeline theorem a child has not run its program
    before it is put in its group, and the shell gets no SIGINT between the
    creation of a process and the next [fork] or [waitpid] ([line_procs]);
    the model has both, and lemmas say what they do.  Whether a group outlives
    the processes of a line, because one of them left a process in it, is the
    parameter [lingers].  In the basic shell each SIGINT at the prompt says
    whether the implementation keeps the indeterminate variable and lets
    [getline] be jumped out of, and a SIGINT after a child has been waited for
    says what the failed second [waitid] leaves.  In [UdpEcho.v] a signal
    comes between the calls of the program, not during a [printf].  The GCC
    documentation is relied on for [__builtin_popcount] and for the shift of
    1 into the sign in [Pangram.v]; the numbers of error codes and flags are
    those of Linux, also in the kqueue half.  A hash function satisfies
    [HashSpec]: its result is a function of the bytes of the key.  Threads
    interleave at the granularity of the instructions listed; memory is
    sequentially consistent where the program synchronises by semaphores or
    mutexes.  An assembly function is called with the stack it needs mapped;
    [answer] is what the library and the kernel leave in the registers they
    may change, and they are taken to leave the program's memory alone.

    ** Not modelled

    Printing, except where it is the point (fizzbuzz, the shells, the
    measuring programs); [freeaddrinfo] and the messages on standard error of
    the server; the calls that open, bind and connect the sockets of the
    stream, which are taken to succeed; the work that cputime.c times, which
    prints nothing; stack_overflow.c, which depends on the addresses of the
    compiled program; http_header_server.c, which is empty; average.asm,
    which divides a sum of [atoi]s and passes it to [printf], and the C files
    that pass their arguments on to assembly; encodings and addresses
    of machine code, an instruction being addressed by its place; the files
    of [old/] that are the current programs but for names and comments. *)
From stdpp Require Export base tactics numbers list gmap fin_maps strings relations sorting.
From Stdlib Require Export ZArith Lia.

Declare Scope c_scope.
Delimit Scope c_scope with C.
#[local] Open Scope Z_scope.

(** ** Outcomes of a C computation *)

(** How an execution goes wrong.  All but [AssertFail] and [Exited] are
    undefined behaviours of C; the model stops at the first one. *)
Inductive fault :=
  | NullDeref | OutOfBounds | UseAfterFree | BadFree | UninitRead | BadCast
  | SignedOverflow | BadShift | DivByZero | Overlap | NotOwner | DeadFrame | InUse
  | Indeterminate
  | AssertFail
  | Exited (status : Z).

Inductive res (A : Type) :=
  | Ok (a : A)
  | Fault (f : fault)
  | OutOfFuel.
Arguments Ok {_} _.
Arguments Fault {_} _.
Arguments OutOfFuel {_}.

(** A computation over a state: it returns a value and the new state,
    faults, or runs out of the fuel that bounds its loops. *)
Definition comp (S A : Type) : Type := S → res (A * S).

#[export] Instance comp_ret S : MRet (comp S) := λ A a s, Ok (a, s).
#[export] Instance comp_bind S : MBind (comp S) := λ A B k m s,
  match m s with
  | Ok (a, s') => k a s'
  | Fault f => Fault f
  | OutOfFuel => OutOfFuel
  end.

Definition fail {S A} (f : fault) : comp S A := λ _, Fault f.
Definition out_of_fuel {S A} : comp S A := λ _, OutOfFuel.
Definition get {S} : comp S S := λ s, Ok (s, s).
Definition put {S} (s : S) : comp S unit := λ _, Ok (tt, s).
(** [assert] of <assert.h>. *)
Definition c_assert {S} (b : bool) : comp S unit :=
  if b then mret tt else fail AssertFail.

(** A C loop: [a] holds the loop's local variables; an iteration either
    continues with new ones or leaves the loop with a result. *)
Fixpoint loop {S A B} (fuel : nat) (body : A → comp S (A + B)) (a : A) : comp S B :=
  match fuel with
  | O => out_of_fuel
  | S n => r ← body a;
           match r with inl a' => loop n body a' | inr b => mret b end
  end.

(** Total correctness: the computation returns, and [Q] holds of the
    result and the final state. *)
Definition wp {S A} (m : comp S A) (s : S) (Q : A → S → Prop) : Prop :=
  match m s with Ok (a, s') => Q a s' | _ => False end.

(** The same, where a fault may be the outcome: [F] then holds of it. *)
Definition wpf {S A} (m : comp S A) (s : S) (Q : A → S → Prop) (F : fault → Prop) : Prop :=
  match m s with Ok (a, s') => Q a s' | Fault f => F f | OutOfFuel => False end.

(** ** Machine integers *)

Definition u32 (z : Z) : Z := z mod 2 ^ 32.
Definition u64 (z : Z) : Z := z mod 2 ^ 64.
Definition i32 (z : Z) : Z := (z + 2 ^ 31) mod 2 ^ 32 - 2 ^ 31.
Definition i8 (z : Z) : Z := (z + 2 ^ 7) mod 2 ^ 8 - 2 ^ 7.
Definition INT_MAX : Z := 2 ^ 31 - 1.
Definition INT_MIN : Z := - 2 ^ 31.

(** The bytes of a string literal, before its NUL. *)
Definition bytes_of (s : string) : list Z :=
  map (λ c, Z.of_N (Ascii.N_of_ascii c)) (String.list_ascii_of_string s).

(** ** Reachability *)

(** The states a step relation can reach from an initial one. *)
Definition reachable {S} (init : S → Prop) (step : S → S → Prop) (s : S) : Prop :=
  ∃ s0, init s0 ∧ rtc step s0 s.

(** ** Lemmas on computations *)

Section wp_rules.
Context {S : Type}.

Lemma wp_ret {A} (a : A) (s : S) Q : Q a s → wp (mret a) s Q.
Proof. done. Qed.

Lemma wp_bind {A B} (m : comp S A) (k : A → comp S B) s Q :
  wp m s (λ a s', wp (k a) s' Q) → wp (m ≫= k) s Q.
Proof. unfold wp, mbind, comp_bind. destruct (m s) as [[a s']|f|]; done. Qed.

Lemma wp_mono {A} (m : comp S A) s (Q Q' : A → S → Prop) :
  wp m s Q → (∀ a s', Q a s' → Q' a s') → wp m s Q'.
Proof. unfold wp. destruct (m s) as [[a s']|f|]; eauto. Qed.

Lemma wp_get s Q : Q s s → wp (@get S) s Q.
Proof. done. Qed.

Lemma wp_put s s' Q : Q tt s' → wp (@put S s') s Q.
Proof. done. Qed.

Lemma wp_assert b s Q : b = true → Q tt s → wp (@c_assert S b) s Q.
Proof. by intros ->. Qed.

Lemma wp_Ok {A} (m : comp S A) s Q :
  wp m s Q ↔ ∃ a s', m s = Ok (a, s') ∧ Q a s'.
Proof.
  unfold wp. split.
  - destruct (m s) as [[a s']|f|]; try done. eauto.
  - by intros (a & s' & -> & HQ).
Qed.

Lemma wpf_wp {A} (m : comp S A) s Q F : wp m s Q → wpf m s Q F.
Proof. unfold wp, wpf. by destruct (m s) as [[a s']|f|]. Qed.

Lemma wpf_no_fault {A} (m : comp S A) s Q : wpf m s Q (λ _, False) → wp m s Q.
Proof. unfold wp, wpf. by destruct (m s) as [[a s']|f|]. Qed.

Lemma wpf_bind {A B} (m : comp S A) (k : A → comp S B) s Q F :
  wpf m s (λ a s', wpf (k a) s' Q F) F → wpf (m ≫= k) s Q F.
Proof. unfold wpf, mbind, comp_bind. by destruct (m s) as [[a s']|f|]. Qed.

Lemma wpf_mono {A} (m : comp S A) s (Q Q' : A → S → Prop) (F F' : fault → Prop) :
  wpf m s Q F → (∀ a s', Q a s' → Q' a s') → (∀ f, F f → F' f) → wpf m s Q' F'.
Proof. unfold wpf. destruct (m s) as [[a s']|f|]; eauto. Qed.

(** The loop rule: an invariant, and a variant below the fuel. *)
Lemma wp_loop {A B} (I : A → S → Prop) (variant : A → S → nat)
    (body : A → comp S (A + B)) (Q : B → S → Prop) :
  (∀ a s, I a s → wp (body a) s (λ r s',
      match r with
      | inl a' => I a' s' ∧ (variant a' s' < variant a s)%nat
      | inr b => Q b s'
      end)) →
  ∀ fuel a s, I a s → (variant a s < fuel)%nat → wp (loop fuel body a) s Q.
Proof.
  intros Hbody fuel. induction fuel as [|n IH]; intros a s HI Hf; [lia|].
  simpl. apply wp_bind. eapply wp_mono; [by apply Hbody|].
  intros [a'|b] s'; simpl; [|by intros; apply wp_ret].
  intros [HI' Hv]. apply IH; [done|lia].
Qed.

Lemma wpf_loop {A B} (I : A → S → Prop) (variant : A → S → nat)
    (body : A → comp S (A + B)) (Q : B → S → Prop) (F : fault → Prop) :
  (∀ a s, I a s → wpf (body a) s (λ r s',
      match r with
      | inl a' => I a' s' ∧ (variant a' s' < variant a s)%nat
      | inr b => Q b s'
      end) F) →
  ∀ fuel a s, I a s → (variant a s < fuel)%nat → wpf (loop fuel body a) s Q F.
Proof.
  intros Hbody fuel. induction fuel as [|n IH]; intros a s HI Hf; [lia|].
  simpl. apply wpf_bind. eapply wpf_mono; [by apply Hbody| |done].
  intros [a'|b] s'; simpl; [|done]. intros [HI' Hv]. apply IH; [done|lia].
Qed.

(** More fuel never changes the result of a loop. *)
Lemma loop_fuel_mono {A B} (body : A → comp S (A + B)) n m a s r :
  loop n body a s = Ok r → (n ≤ m)%nat → loop m body a s = Ok r.
Proof.
  revert m a s. induction n as [|n IH]; intros m a s Hr Hm; [done|].
  destruct m as [|m]; [lia|].
  simpl in *. unfold mbind, comp_bind in *.
  destruct (body a s) as [[[a'|b] s']|f|]; try done. apply IH; [done|lia].
Qed.
End wp_rules.

Section reachability.
Context {S : Type} (init : S → Prop) (step : S → S → Prop).

Lemma reachable_init s : init s → reachable init step s.
Proof. intros H. by exists s. Qed.

Lemma reachable_step s s' : reachable init step s → step s s' → reachable init step s'.
Proof. intros (s0 & Hi & Hs) Hst. exists s0. split; [done|by eapply rtc_r]. Qed.

(** Rule induction: what holds initially and is kept by every step holds
    in every reachable state. *)
Lemma reachable_invariant (I : S → Prop) :
  (∀ s, init s → I s) → (∀ s s', I s → step s s' → I s') →
  ∀ s, reachable init step s → I s.
Proof.
  intros Hi Hst s (s0 & H0 & Hr). apply Hi in H0. clear Hi.
  induction Hr; eauto.
Qed.
End reachability.

(** ** Lemmas on lists *)

(** A sum over a list when one element changes. *)
Lemma sum_list_with_insert {A} (f : A → nat) (l : list A) i x y :
  l !! i = Some x →
  (sum_list_with f (<[i := y]> l) + f x = sum_list_with f l + f y)%nat.
Proof.
  revert i. induction l as [|z l IH]; intros [|i] Hi; simplify_eq/=; [lia|].
  specialize (IH _ Hi). lia.
Qed.

Lemma sum_list_with_elem {A} (f : A → nat) (l : list A) i x :
  l !! i = Some x → (f x ≤ sum_list_with f l)%nat.
Proof.
  revert i. induction l as [|z l IH]; intros [|i] Hi; simplify_eq/=; [lia|].
  specialize (IH _ Hi). lia.
Qed.

Lemma sum_list_with_zero {A} (f : A → nat) (l : list A) :
  (∀ x, x ∈ l → f x = 0%nat) → sum_list_with f l = 0%nat.
Proof.
  induction l as [|z l IH]; intros Hl; simpl; [done|].
  rewrite (Hl z), IH by set_solver. done.
Qed.

Lemma sum_list_with_add_le {A} (f g h : A → nat) (l : list A) :
  (∀ i x, l !! i = Some x → (f x + g x ≤ h x)%nat) →
  (sum_list_with f l + sum_list_with g l ≤ sum_list_with h l)%nat.
Proof.
  induction l as [|z l IH]; intros Hl; simpl; [lia|].
  specialize (IH (λ i, Hl (S i))). specialize (Hl 0%nat z eq_refl). lia.
Qed.

(** ** Lemmas on sets *)

Lemma difference_added `{Countable A} (X : gset A) x :
  x ∉ X → ({[x]} ∪ X) ∖ {[x]} = X.
Proof.
  intros Hx. apply set_eq. intros y.
  rewrite elem_of_difference, elem_of_union, elem_of_singleton. split.
  - by intros [[->|Hy] Hne].
  - intros Hy. split; [by right|]. by intros ->.
Qed.

(** ** Lemmas on machine integers *)

Lemma u64_small z : 0 ≤ z < 2 ^ 64 → u64 z = z.
Proof. apply Z.mod_small. Qed.

Lemma u32_small z : 0 ≤ z < 2 ^ 32 → u32 z = z.
Proof. apply Z.mod_small. Qed.

Lemma u64_range z : 0 ≤ u64 z < 2 ^ 64.
Proof. apply Z.mod_pos_bound. lia. Qed.

Lemma i32_small z : INT_MIN ≤ z ≤ INT_MAX → i32 z = z.
Proof. unfold i32, INT_MIN, INT_MAX. intros. rewrite Z.mod_small; lia. Qed.

Lemma i32_range z : INT_MIN ≤ i32 z ≤ INT_MAX.
Proof.
  unfold i32, INT_MIN, INT_MAX.
  pose proof (Z.mod_pos_bound (z + 2 ^ 31) (2 ^ 32) ltac:(lia)). lia.
Qed.

Lemma i8_small z : - 2 ^ 7 ≤ z < 2 ^ 7 → i8 z = z.
Proof. unfold i8. intros. rewrite Z.mod_small; lia. Qed.

(** ** Automation *)

Create Rewrite HintDb cint.
(** A number below a bit does not have it. *)
Lemma land_pow2_small z n k : 0 ≤ z < 2 ^ n → n ≤ k → Z.land z (2 ^ k) = 0.
Proof.
  intros Hz Hk. apply Z.bits_inj'. intros i Hi. rewrite Z.land_spec, Z.bits_0.
  destruct (decide (0 ≤ n)); [|rewrite Z.pow_neg_r in Hz by lia; lia].
  rewrite Z.pow2_bits_eqb by lia. destruct (Z.eqb_spec k i) as [<-|]; [|apply andb_false_r].
  rewrite andb_true_r. destruct (decide (z = 0)) as [->|Hnz]; [apply Z.bits_0|].
  apply Z.bits_above_log2; [lia|]. apply Z.lt_le_trans with n; [|done].
  apply Z.log2_lt_pow2; lia.
Qed.

#[export] Hint Rewrite u64_small u32_small i32_small i8_small
  using (unfold INT_MIN, INT_MAX in *; lia) : cint.

Create HintDb wp.
#[export] Hint Resolve wp_ret wp_get wp_put : wp.

(** Simplifies machine-integer wraps whose argument is in range. *)
Ltac cint := autorewrite with cint in *.

(** [lia] with the equations of division and modulo. *)
Ltac dlia := Z.to_euclidean_division_equations; lia.

(** Takes one step of a [wp] goal. *)
Ltac wp_step :=
  lazymatch goal with
  | |- wp (mbind _ _) _ _ => apply wp_bind
  | |- wp (mret _) _ _ => apply wp_ret
  | |- wp get _ _ => apply wp_get
  | |- wp (put _) _ _ => apply wp_put
  | |- wp (c_assert _) _ _ => apply wp_assert
  end; cbn beta.

(** Splits the comparisons the code branches on. *)
Ltac zcases :=
  repeat match goal with
  | H : (_ <? _) = true |- _ => apply Z.ltb_lt in H
  | H : (_ <? _) = false |- _ => apply Z.ltb_ge in H
  | H : (_ <=? _) = true |- _ => apply Z.leb_le in H
  | H : (_ <=? _) = false |- _ => apply Z.leb_gt in H
  | H : (_ =? _) = true |- _ => apply Z.eqb_eq in H
  | H : (_ =? _) = false |- _ => apply Z.eqb_neq in H
  end.
