(* ===== verification/Mem.v ===== *)
(** The C heap the components allocate from: blocks of cells, addressed by
    a block and an offset, with [malloc], [calloc], [realloc], [free],
    loads, stores and [memcpy] of <stdlib.h> and <string.h>.  Every access
    is checked: a null, dangling, out-of-bounds or uninitialised access is a
    fault.  An allocation may fail: [oom] answers, for each request in turn,
    whether the allocator returns NULL. *)
From S2P Require Import Prelude.
#[local] Open Scope Z_scope.

Inductive ptr := Null | Ptr (b : positive) (off : Z).

#[export] Instance ptr_eq_dec : EqDecision ptr.
Proof. solve_decision. Defined.

Definition is_null (p : ptr) : bool := match p with Null => true | Ptr _ _ => false end.

(** [p + n] in cells. *)
Definition ptr_add (p : ptr) (n : Z) : ptr :=
  match p with Null => Null | Ptr b i => Ptr b (i + n) end.

(** A cell is [None] while indeterminate. *)
Record heap (V : Type) := Heap {
  blocks : gmap positive (list (option V));
  next : positive;
  oom : positive → bool
}.
Arguments Heap {_} _ _ _.
Arguments blocks {_} _.
Arguments next {_} _.
Arguments oom {_} _ _.

Definition heap_empty {V} (o : positive → bool) : heap V := Heap ∅ 1%positive o.

Definition set_blocks {V} (h : heap V) (m : gmap positive (list (option V))) : heap V :=
  Heap m (next h) (oom h).

Section operations.
Context {V : Type}.
#[local] Abbreviation M := (comp (heap V)).

(** A new block holding [cells], or NULL when the allocator fails. *)
Definition alloc (cells : list (option V)) : M ptr := λ h,
  let h' := Heap (blocks h) (Pos.succ (next h)) (oom h) in
  if oom h (next h) then Ok (Null, h')
  else Ok (Ptr (next h) 0, set_blocks h' (<[next h := cells]> (blocks h))).

(** [malloc(bytes)] for cells of [sz] bytes. *)
Definition malloc (sz bytes : Z) : M ptr :=
  alloc (replicate (Z.to_nat (bytes / sz)) None).

(** [calloc(n, sz)]: cells set to [zero]; NULL when [n * sz] is not a size_t. *)
Definition calloc (zero : V) (n sz : Z) : M ptr :=
  if n * sz <? 2 ^ 64 then alloc (replicate (Z.to_nat n) (Some zero))
  else mret Null.

Definition free (p : ptr) : M unit := λ h,
  match p with
  | Null => Ok (tt, h)
  | Ptr b i =>
      match blocks h !! b with
      | Some _ => if i =? 0 then Ok (tt, set_blocks h (delete b (blocks h)))
                  else Fault BadFree
      | None => Fault BadFree
      end
  end.

(** The whole block a pointer to its start designates. *)
Definition block_of (p : ptr) : M (list (option V)) := λ h,
  match p with
  | Null => Fault NullDeref
  | Ptr b _ => match blocks h !! b with
               | Some l => Ok (l, h)
               | None => Fault UseAfterFree
               end
  end.

Definition load (p : ptr) : M V := λ h,
  match p with
  | Null => Fault NullDeref
  | Ptr b i =>
      match blocks h !! b with
      | None => Fault UseAfterFree
      | Some l =>
          if i <? 0 then Fault OutOfBounds else
          match l !! Z.to_nat i with
          | Some (Some v) => Ok (v, h)
          | Some None => Fault UninitRead
          | None => Fault OutOfBounds
          end
      end
  end.

(** Stores a cell, which may be indeterminate when copied by [memcpy]. *)
Definition store_cell (p : ptr) (c : option V) : M unit := λ h,
  match p with
  | Null => Fault NullDeref
  | Ptr b i =>
      match blocks h !! b with
      | None => Fault UseAfterFree
      | Some l =>
          if (0 <=? i) && (i <? Z.of_nat (length l))
          then Ok (tt, set_blocks h (<[b := <[Z.to_nat i := c]> l]> (blocks h)))
          else Fault OutOfBounds
      end
  end.

Definition store (p : ptr) (v : V) : M unit := store_cell p (Some v).

(** [memcpy(dst, src, n)] in cells: both ranges lie in live blocks and do
    not overlap. *)
Definition memcpy (dst src : ptr) (n : Z) : M unit := λ h,
  if n =? 0 then Ok (tt, h) else
  match dst, src with
  | Ptr d i, Ptr s j =>
      match blocks h !! d, blocks h !! s with
      | Some ld, Some ls =>
          if (0 <=? i) && (i + n <=? Z.of_nat (length ld))
             && (0 <=? j) && (j + n <=? Z.of_nat (length ls)) then
            if (d =? s)%positive && (i <? j + n) && (j <? i + n) then Fault Overlap
            else Ok (tt, set_blocks h
                   (<[d := take (Z.to_nat i) ld
                           ++ take (Z.to_nat n) (drop (Z.to_nat j) ls)
                           ++ drop (Z.to_nat (i + n)) ld]> (blocks h)))
          else Fault OutOfBounds
      | _, _ => Fault UseAfterFree
      end
  | _, _ => Fault NullDeref
  end.

(** [realloc(p, bytes)]: the old block is kept when the allocator fails;
    otherwise its contents move to a new block and it is freed. *)
Definition realloc (p : ptr) (sz bytes : Z) : M ptr :=
  match p with
  | Null => malloc sz bytes
  | Ptr b i =>
      if negb (i =? 0) then fail BadFree else
      old ← block_of p;
      let n := Z.to_nat (bytes / sz) in
      p' ← alloc (take n old ++ replicate (n - length old) None);
      if is_null p' then mret p' else _ ← free p; mret p'
  end.
End operations.

(** The allocator never returns NULL, and block numbers at or above [next]
    have not been handed out. *)
Record heap_ok {V} (h : heap V) : Prop := {
  heap_fresh : ∀ b, (next h ≤ b)%positive → blocks h !! b = None;
  heap_mem : ∀ b, oom h b = false
}.

(** The second half of [heap_ok], for programs whose allocations may fail. *)
Definition heap_wf {V} (h : heap V) : Prop :=
  ∀ b, (next h ≤ b)%positive → blocks h !! b = None.

Section rules.
Context {V : Type}.
Implicit Types (h : heap V) (l : list (option V)).

Lemma heap_empty_ok : heap_ok (V:=V) (heap_empty (λ _, false)).
Proof. by constructor. Qed.

Lemma heap_ok_insert h b l :
  heap_ok h → is_Some (blocks h !! b) → heap_ok (set_blocks h (<[b := l]> (blocks h))).
Proof.
  intros [Hf Hm] [l' Hb]. constructor; [|done]. intros b' Hb'. simpl.
  rewrite lookup_insert_ne; [by apply Hf|]. intros ->. rewrite Hf in Hb; done.
Qed.

Lemma heap_ok_delete h b : heap_ok h → heap_ok (set_blocks h (delete b (blocks h))).
Proof.
  intros [Hf Hm]. constructor; [|done]. intros b' Hb'. simpl.
  apply lookup_delete_None. right. by apply Hf.
Qed.

Lemma heap_live_lt h b l : heap_ok h → blocks h !! b = Some l → (b < next h)%positive.
Proof.
  intros [Hf _] Hb. destruct (decide (next h ≤ b)%positive) as [Hle|]; [|lia].
  rewrite Hf in Hb; done.
Qed.

Lemma wp_alloc cells h (Q : ptr → heap V → Prop) :
  heap_ok h →
  (∀ b h', b = next h → blocks h !! b = None →
     blocks h' = <[b := cells]> (blocks h) → heap_ok h' → Q (Ptr b 0) h') →
  wp (alloc cells) h Q.
Proof.
  intros [Hf Hm] HQ. unfold wp, alloc. rewrite Hm.
  apply HQ; try done; [by apply Hf|].
  constructor; [|done]. intros b Hb. simpl in *.
  rewrite lookup_insert_ne by lia. apply Hf. lia.
Qed.

Lemma heap_wf_insert h b l :
  heap_wf h → is_Some (blocks h !! b) → heap_wf (set_blocks h (<[b := l]> (blocks h))).
Proof.
  intros Hf [l' Hb] b' Hb'. simpl.
  rewrite lookup_insert_ne; [by apply Hf|]. intros ->. rewrite Hf in Hb; done.
Qed.

Lemma heap_wf_delete h b : heap_wf h → heap_wf (set_blocks h (delete b (blocks h))).
Proof. intros Hf b' Hb'. simpl. apply lookup_delete_None. right. by apply Hf. Qed.

(** An allocation that may fail. *)
Lemma wp_alloc_any cells h (Q : ptr → heap V → Prop) :
  heap_wf h →
  (∀ h', blocks h' = blocks h → heap_wf h' → Q Null h') →
  (∀ b h', blocks h !! b = None → blocks h' = <[b := cells]> (blocks h) → heap_wf h' →
     Q (Ptr b 0) h') →
  wp (alloc cells) h Q.
Proof.
  intros Hf HN HQ. unfold wp, alloc. destruct (oom h (next h)).
  - apply HN; [done|]. intros b Hb. apply Hf. simpl in Hb. lia.
  - apply HQ; [by apply Hf|done|]. intros b Hb. simpl in *.
    rewrite lookup_insert_ne by lia. apply Hf. lia.
Qed.

Lemma wp_free h b l (Q : unit → heap V → Prop) :
  blocks h !! b = Some l →
  Q tt (set_blocks h (delete b (blocks h))) → wp (free (Ptr b 0)) h Q.
Proof. intros Hb HQ. unfold wp, free. by rewrite Hb. Qed.

Lemma wp_load h b i l v (Q : V → heap V → Prop) :
  blocks h !! b = Some l → 0 ≤ i → l !! Z.to_nat i = Some (Some v) →
  Q v h → wp (load (Ptr b i)) h Q.
Proof.
  intros Hb Hi Hl HQ. unfold wp, load. rewrite Hb, Hl.
  by rewrite (proj2 (Z.ltb_ge i 0)).
Qed.

Lemma wp_store_cell h b i l c (Q : unit → heap V → Prop) :
  blocks h !! b = Some l → 0 ≤ i < Z.of_nat (length l) →
  Q tt (set_blocks h (<[b := <[Z.to_nat i := c]> l]> (blocks h))) →
  wp (store_cell (Ptr b i) c) h Q.
Proof.
  intros Hb Hi HQ. unfold wp, store_cell. rewrite Hb.
  by rewrite (proj2 (Z.leb_le 0 i)), (proj2 (Z.ltb_lt i _)) by lia.
Qed.

Lemma wp_store h b i l v (Q : unit → heap V → Prop) :
  blocks h !! b = Some l → 0 ≤ i < Z.of_nat (length l) →
  Q tt (set_blocks h (<[b := <[Z.to_nat i := Some v]> l]> (blocks h))) →
  wp (store (Ptr b i) v) h Q.
Proof. apply wp_store_cell. Qed.

Lemma wp_memcpy h d i s j n ld ls (Q : unit → heap V → Prop) :
  blocks h !! d = Some ld → blocks h !! s = Some ls → d ≠ s →
  0 ≤ n → 0 ≤ i → i + n ≤ Z.of_nat (length ld) →
  0 ≤ j → j + n ≤ Z.of_nat (length ls) →
  Q tt (set_blocks h (<[d := take (Z.to_nat i) ld
                             ++ take (Z.to_nat n) (drop (Z.to_nat j) ls)
                             ++ drop (Z.to_nat (i + n)) ld]> (blocks h))) →
  wp (memcpy (Ptr d i) (Ptr s j) n) h Q.
Proof.
  intros Hd Hs Hne Hn Hi Hi' Hj Hj' HQ. unfold wp, memcpy.
  destruct (Z.eqb_spec n 0) as [->|Hn0].
  { rewrite Z.add_0_r, take_0, app_nil_l, take_drop, (insert_id _ _ _ Hd) in HQ.
    by destruct h. }
  rewrite Hd, Hs.
  rewrite (proj2 (Z.leb_le 0 i)), (proj2 (Z.leb_le (i + n) _)),
    (proj2 (Z.leb_le 0 j)), (proj2 (Z.leb_le (j + n) _)) by lia.
  by rewrite (proj2 (Pos.eqb_neq d s)).
Qed.

Lemma wp_realloc h b l sz bytes (Q : ptr → heap V → Prop) :
  heap_ok h → blocks h !! b = Some l →
  (∀ b' h', b' ≠ b → blocks h !! b' = None →
     blocks h' = <[b' := take (Z.to_nat (bytes / sz)) l
                         ++ replicate (Z.to_nat (bytes / sz) - length l) None]>
                   (delete b (blocks h)) →
     heap_ok h' → Q (Ptr b' 0) h') →
  wp (realloc (Ptr b 0) sz bytes) h Q.
Proof.
  intros Hok Hb HQ. unfold realloc, block_of. simpl negb. cbn iota.
  apply wp_bind. unfold wp at 1. rewrite Hb.
  apply wp_bind, wp_alloc; [done|]. intros b' h' -> Hnone Hblk Hok'. simpl.
  assert (b ≠ next h) by (intros ->; congruence).
  apply wp_bind, (wp_free _ _ l); [by rewrite Hblk, lookup_insert_ne|].
  apply wp_ret, HQ; [done|done| |by apply heap_ok_delete].
  simpl. by rewrite Hblk, delete_insert_ne.
Qed.
End rules.
