(* ===== verification/DynArray.v ===== *)
(** The dynamic array of 02-introduction-to-c/04-dynamic-array/dynarray.c:
    a heap-allocated [struct DA] that owns a heap-allocated array of
    pointers, grown by a factor 1.5.  [is_da F h da l] says that in heap [h]
    the pointer [da] owns an array holding [l], and that [F] is the rest of
    the heap; every operation is specified against the list [l]. *)
From S2P Require Import Prelude Mem.
#[local] Open Scope Z_scope.

Definition STARTING_CAPACITY : Z := 8.

(** [struct DA]; [cap] and [size] are size_t. *)
Record DA := mkDA { cap : Z; size : Z; arr : ptr }.

(** What a heap cell holds: a [struct DA] or a [void *] (an address). *)
Inductive cell := CDa (d : DA) | CPtr (x : Z).

#[local] Abbreviation M := (comp (heap cell)).

Definition sizeof_DA : Z := 24.
Definition sizeof_ptr : Z := 8.
Definition NULL : Z := 0.

Definition load_da (p : ptr) : M DA :=
  c ← load p; match c with CDa d => mret d | CPtr _ => fail BadCast end.
Definition store_da (p : ptr) (d : DA) : M unit := store p (CDa d).
Definition load_ptr (p : ptr) : M Z :=
  c ← load p; match c with CPtr x => mret x | CDa _ => fail BadCast end.

(** Conversion of an integer to double: round to nearest, ties to even, on
    53 significant bits. *)
Definition round53 (z : Z) : Z :=
  let e := Z.log2 z - 52 in
  if e <=? 0 then z else
  let q := z / 2 ^ e in
  let r := z mod 2 ^ e in
  let half := 2 ^ (e - 1) in
  (if (half <? r) || ((half =? r) && Z.odd q) then q + 1 else q) * 2 ^ e.

(** [cap *= 1.5]: size_t to double, the double product, and back; the
    product of a double by 3 is rounded before it is halved, and halving is
    exact. *)
Definition mul_1_5 (cap : Z) : Z := round53 (3 * round53 cap) / 2.

(** The three field assignments and the second [malloc] of the source write
    the struct once, since nothing reads it in between. *)
Definition DA_new : M ptr :=
  da ← malloc sizeof_DA sizeof_DA;
  _ ← c_assert (negb (is_null da));
  a ← malloc sizeof_ptr (STARTING_CAPACITY * sizeof_ptr);
  _ ← store_da da (mkDA STARTING_CAPACITY 0 a);
  mret da.

(** The size_t is converted to int. *)
Definition DA_size (da : ptr) : M Z :=
  d ← load_da da; mret (i32 (size d)).

Definition DA_push (da : ptr) (x : Z) : M unit :=
  if is_null da then mret tt else
  d ← load_da da;
  _ ← (if size d =? cap d then
         let cap' := mul_1_5 (cap d) in
         a ← realloc (arr d) sizeof_ptr (u64 (cap' * sizeof_ptr));
         store_da da (mkDA cap' (size d) a)
       else mret tt);
  d ← load_da da;
  _ ← store (ptr_add (arr d) (size d)) (CPtr x);
  store_da da (mkDA (cap d) (u64 (size d + 1)) (arr d)).

Definition DA_pop (da : ptr) : M Z :=
  if is_null da then mret NULL else
  d ← load_da da;
  if size d =? 0 then mret NULL else
  _ ← store_da da (mkDA (cap d) (u64 (size d - 1)) (arr d));
  d ← load_da da;
  load_ptr (ptr_add (arr d) (size d)).

(** [i < da->size] compares [i], converted to size_t, with the size. *)
Definition DA_set (da : ptr) (x i : Z) : M unit :=
  if is_null da then mret tt else
  d ← load_da da;
  if (0 <=? i) && (u64 i <? size d) then store (ptr_add (arr d) i) (CPtr x)
  else mret tt.

Definition DA_get (da : ptr) (i : Z) : M Z :=
  if is_null da then mret NULL else
  d ← load_da da;
  if (0 <=? i) && (u64 i <? size d) then load_ptr (ptr_add (arr d) i)
  else mret NULL.

Definition DA_free (da : ptr) : M unit :=
  if is_null da then mret tt else
  d ← load_da da;
  _ ← free (arr d);
  _ ← store_da da (mkDA (cap d) (size d) Null);
  free da.

(** The [for] loops of [main], over [i = k, k+1, ..., k+n-1]. *)
Fixpoint for_up (n : nat) (k : Z) (body : Z → M unit) : M unit :=
  match n with
  | O => mret tt
  | S n => _ ← body k; for_up n (k + 1) body
  end.

(** The [main] of the file: its [assert]s, on the addresses [x], [y] and
    [elems] of the locals [x], [y] and [arr]. *)
Definition main (x y elems : Z) : M Z :=
  da ← DA_new;
  n ← DA_size da; _ ← c_assert (n =? 0);
  _ ← DA_push da x;
  _ ← DA_push da y;
  n ← DA_size da; _ ← c_assert (n =? 2);
  p ← DA_pop da; _ ← c_assert (p =? y);
  n ← DA_size da; _ ← c_assert (n =? 1);
  p ← DA_pop da; _ ← c_assert (p =? x);
  n ← DA_size da; _ ← c_assert (n =? 0);
  p ← DA_pop da; _ ← c_assert (p =? NULL);
  _ ← DA_push da x;
  _ ← DA_set da y 0;
  p ← DA_get da 0; _ ← c_assert (p =? y);
  _ ← DA_pop da;
  n ← DA_size da; _ ← c_assert (n =? 0);
  da2 ← DA_new;
  _ ← DA_push da2 x;
  let n := 100 * STARTING_CAPACITY in
  _ ← for_up (Z.to_nat n) 0 (λ i, DA_push da (elems + 4 * i));
  len ← DA_size da; _ ← c_assert (len =? n);
  _ ← for_up (Z.to_nat n) 0 (λ i, p ← DA_get da i; c_assert (p =? elems + 4 * i));
  _ ← for_up (Z.to_nat n) 0 (λ _, _ ← DA_pop da; mret tt);
  n ← DA_size da; _ ← c_assert (n =? 0);
  p ← DA_pop da2; _ ← c_assert (p =? x);
  _ ← DA_free da;
  _ ← DA_free da2;
  mret 0.

(** ** The abstract array *)

Inductive op := Push (x : Z) | Pop | SetAt (x i : Z) | GetAt (i : Z) | Size.
Inductive answer := AUnit | AVal (z : Z).

#[export] Instance answer_eq_dec : EqDecision answer.
Proof. solve_decision. Defined.

(** What the array promises: the same operations on a list. *)
Definition spec_op (o : op) (l : list Z) : answer * list Z :=
  match o with
  | Push x => (AUnit, l ++ [x])
  | Pop => (AVal (default NULL (last l)), take (length l - 1) l)
  | SetAt x i => (AUnit, if 0 <=? i then <[Z.to_nat i := x]> l else l)
  | GetAt i => (AVal (if 0 <=? i then default NULL (l !! Z.to_nat i) else NULL), l)
  | Size => (AVal (Z.of_nat (length l)), l)
  end.

Definition exec_op (da : ptr) (o : op) : M answer :=
  match o with
  | Push x => _ ← DA_push da x; mret AUnit
  | Pop => x ← DA_pop da; mret (AVal x)
  | SetAt x i => _ ← DA_set da x i; mret AUnit
  | GetAt i => x ← DA_get da i; mret (AVal x)
  | Size => n ← DA_size da; mret (AVal n)
  end.

Fixpoint spec_run (ops : list op) (l : list Z) : list answer * list Z :=
  match ops with
  | [] => ([], l)
  | o :: ops => let '(a, l') := spec_op o l in
                let '(aa, l'') := spec_run ops l' in (a :: aa, l'')
  end.

Fixpoint exec_run (da : ptr) (ops : list op) : M (list answer) :=
  match ops with
  | [] => mret []
  | o :: ops => a ← exec_op da o; aa ← exec_run da ops; mret (a :: aa)
  end.

(** A client that creates an array, uses it and frees it. *)
Definition session (ops : list op) : M (list answer) :=
  da ← DA_new; aa ← exec_run da ops; _ ← DA_free da; mret aa.

(** The array owns block [b], its struct, and block [a], its storage; the
    other blocks are [F].  The first [length l] cells of the storage hold
    [l]; the capacity is at least the initial one and never large enough for
    the arithmetic on it to wrap or round. *)
Definition is_da (F : gmap positive (list (option cell))) (h : heap cell)
    (da : ptr) (l : list Z) : Prop :=
  heap_ok h ∧ ∃ b a cells,
    da = Ptr b 0 ∧ a ≠ b ∧ F !! a = None ∧ F !! b = None ∧
    blocks h = <[b := [Some (CDa (mkDA (Z.of_nat (length cells)) (Z.of_nat (length l))
                                       (Ptr a 0)))]]>
                 (<[a := cells]> F) ∧
    8 ≤ Z.of_nat (length cells) < 2 ^ 32 ∧ (length l ≤ length cells)%nat ∧
    Z.of_nat (length l) < 2 ^ 31 ∧
    ∀ i x, l !! i = Some x → cells !! i = Some (Some (CPtr x)).

(** The indices the client passes are ints. *)
Definition op_ok (o : op) : Prop :=
  match o with SetAt _ i | GetAt i => i ≤ INT_MAX | _ => True end.

(** ** Proofs *)

Lemma round53_small z : 0 ≤ z < 2 ^ 53 → round53 z = z.
Proof.
  intros Hz. unfold round53.
  assert (Z.log2 z ≤ 52).
  { destruct (decide (z = 0)) as [->|]; [done|].
    pose proof (Z.log2_lt_pow2 z 53 ltac:(lia)). lia. }
  by rewrite (proj2 (Z.leb_le _ 0)) by lia.
Qed.

Lemma mul_1_5_small c : 0 ≤ c < 2 ^ 51 → mul_1_5 c = 3 * c / 2.
Proof. intros. unfold mul_1_5. rewrite !round53_small; rewrite ?round53_small; lia. Qed.

Lemma wp_load_da h b d (Q : DA → heap cell → Prop) :
  blocks h !! b = Some [Some (CDa d)] → Q d h → wp (load_da (Ptr b 0)) h Q.
Proof. intros Hb HQ. apply wp_bind. by eapply wp_load. Qed.

Lemma wp_store_da h b d d' (Q : unit → heap cell → Prop) :
  blocks h !! b = Some [Some (CDa d)] →
  Q tt (set_blocks h (<[b := [Some (CDa d')]]> (blocks h))) →
  wp (store_da (Ptr b 0) d') h Q.
Proof. intros Hb HQ. eapply wp_store; [done|simpl; lia|done]. Qed.

Section specs.
Context (F : gmap positive (list (option cell))).
Implicit Types (h : heap cell) (l : list Z).

Lemma is_da_ok h da l : is_da F h da l → heap_ok h.
Proof. by intros []. Qed.

Lemma DA_new_spec h :
  heap_ok h → blocks h = F → wp DA_new h (λ da h', is_da F h' da []).
Proof.
  intros Hok HF. unfold DA_new, malloc.
  wp_step. apply wp_alloc; [done|]. intros b h1 Eb Hb Hb1 Hok1.
  wp_step. apply wp_assert; [done|].
  wp_step. apply wp_alloc; [done|]. intros a h2 Ea Ha Hb2 Hok2.
  assert (a ≠ b) as Hne. { intros ->. rewrite Hb1, lookup_insert_eq in Ha. done. }
  rewrite Hb1 in Ha, Hb2. rewrite lookup_insert_ne in Ha by done.
  wp_step. eapply wp_store; [by rewrite Hb2; simplify_map_eq|simpl; lia|].
  apply wp_ret. split.
  { apply heap_ok_insert; [done|]. rewrite Hb2. eexists. by simplify_map_eq. }
  exists b, a, (replicate 8 None). rewrite HF in *. simpl set_blocks. cbn [blocks].
  rewrite Hb2, (insert_insert_ne _ a b), insert_insert_eq by done.
  rewrite length_replicate. split_and!; done || (simpl; lia).
Qed.

Lemma DA_size_spec h da l :
  is_da F h da l →
  wp (DA_size da) h (λ n h', n = Z.of_nat (length l) ∧ h' = h).
Proof.
  intros (Hok & b & a & cells & -> & ? & ? & ? & Hb & ? & ? & ? & ?).
  unfold DA_size. wp_step. eapply wp_load_da; [by rewrite Hb; simplify_map_eq|].
  wp_step. split; [|done]. simpl. apply i32_small. unfold INT_MIN, INT_MAX. lia.
Qed.

Lemma load_elem_spec h a cells l i x (Q : Z → heap cell → Prop) :
  blocks h !! a = Some cells → 0 ≤ i →
  (∀ j x, l !! j = Some x → cells !! j = Some (Some (CPtr x))) →
  l !! Z.to_nat i = Some x → Q x h → wp (load_ptr (ptr_add (Ptr a 0) i)) h Q.
Proof.
  intros Ha Hi Hl Hx HQ. apply wp_bind.
  eapply wp_load; [done|lia|by apply Hl|]. done.
Qed.

Lemma DA_get_spec h da l i :
  i ≤ INT_MAX → is_da F h da l →
  wp (DA_get da i) h (λ x h',
    x = (if 0 <=? i then default NULL (l !! Z.to_nat i) else NULL) ∧ h' = h).
Proof.
  intros Hi (Hok & b & a & cells & -> & ? & ? & ? & Hb & ? & ? & ? & Hl).
  unfold DA_get. simpl is_null. cbn iota.
  wp_step. eapply wp_load_da; [by rewrite Hb; simplify_map_eq|]. simpl.
  destruct (Z.leb_spec 0 i) as [Hi0|Hi0]; simpl; [|done].
  unfold INT_MAX in *. rewrite u64_small by lia.
  destruct (Z.ltb_spec i (Z.of_nat (length l))) as [Hlt|Hge]; simpl.
  - destruct (lookup_lt_is_Some_2 l (Z.to_nat i)) as [x Hx]; [lia|].
    eapply load_elem_spec; [by rewrite Hb; simplify_map_eq|done..|].
    by rewrite Hx.
  - by rewrite lookup_ge_None_2 by lia.
Qed.

Lemma DA_set_spec h da l x i :
  i ≤ INT_MAX → is_da F h da l →
  wp (DA_set da x i) h (λ _ h',
    is_da F h' da (if 0 <=? i then <[Z.to_nat i := x]> l else l)).
Proof.
  intros Hi Hda. pose proof Hda as
    (Hok & b & a & cells & -> & ? & ? & ? & Hb & ? & ? & ? & Hl).
  unfold DA_set. simpl is_null. cbn iota.
  wp_step. eapply wp_load_da; [by rewrite Hb; simplify_map_eq|]. simpl.
  destruct (Z.leb_spec 0 i) as [Hi0|Hi0]; simpl; [|done].
  unfold INT_MAX in *. rewrite u64_small by lia.
  destruct (Z.ltb_spec i (Z.of_nat (length l))) as [Hlt|Hge]; simpl.
  - eapply wp_store; [by rewrite Hb; simplify_map_eq|lia|].
    split. { apply heap_ok_insert; [done|]. rewrite Hb. simplify_map_eq. eauto. }
    exists b, a, (<[Z.to_nat i:=Some (CPtr x)]> cells).
    simpl. rewrite Hb, (insert_insert_ne _ a b), insert_insert_eq, !length_insert by done.
    split_and!; [done..|lia|lia|lia|lia|].
    intros j y. destruct (decide (Z.to_nat i = j)) as [<-|Hne].
    + rewrite !list_lookup_insert_eq by lia. congruence.
    + rewrite !list_lookup_insert_ne by done. apply Hl.
  - rewrite list_insert_ge by lia. done.
Qed.

(** Storing one more element and bumping the size, when there is room. *)
Lemma push_tail_spec h b a cells l x :
  heap_ok h → a ≠ b → F !! a = None → F !! b = None →
  blocks h = <[b := [Some (CDa (mkDA (Z.of_nat (length cells)) (Z.of_nat (length l))
                                     (Ptr a 0)))]]> (<[a := cells]> F) →
  8 ≤ Z.of_nat (length cells) < 2 ^ 32 → (length l < length cells)%nat →
  Z.of_nat (length l) < 2 ^ 31 - 1 →
  (∀ i x, l !! i = Some x → cells !! i = Some (Some (CPtr x))) →
  wp (d ← load_da (Ptr b 0);
      _ ← store (ptr_add (arr d) (size d)) (CPtr x);
      store_da (Ptr b 0) (mkDA (cap d) (u64 (size d + 1)) (arr d))) h
     (λ _ h', is_da F h' (Ptr b 0) (l ++ [x])).
Proof.
  intros Hok Hne Ha Hbn Hb Hcr Hlt Hl31 Hl.
  wp_step. eapply wp_load_da; [by rewrite Hb; simplify_map_eq|]. simpl.
  wp_step. eapply wp_store; [by rewrite Hb; simplify_map_eq|lia|].
  eapply wp_store_da; [by simpl; rewrite Hb; simplify_map_eq|].
  split.
  { apply heap_ok_insert; [|simpl; rewrite Hb; simplify_map_eq; eauto].
    apply heap_ok_insert; [done|]. rewrite Hb. simplify_map_eq. eauto. }
  exists b, a, (<[length l := Some (CPtr x)]> cells). simpl.
  rewrite Z.add_0_l, Nat2Z.id, Hb, (insert_insert_ne _ a b), !insert_insert_eq by done.
  rewrite length_insert, length_app. simpl. rewrite u64_small by lia.
  split_and!; [done..|by rewrite Nat2Z.inj_add|lia|lia|lia|lia|].
  intros j y. destruct (decide (j = length l)) as [->|Hj].
  - rewrite list_lookup_middle by done. rewrite list_lookup_insert_eq by lia. congruence.
  - rewrite list_lookup_insert_ne by done. intros Hy.
    apply Hl. rewrite lookup_app_l in Hy; [done|].
    apply lookup_lt_Some in Hy. rewrite length_app in Hy. simpl in Hy. lia.
Qed.

Lemma DA_push_spec h da l x :
  Z.of_nat (length l) < INT_MAX → is_da F h da l →
  wp (DA_push da x) h (λ _ h', is_da F h' da (l ++ [x])).
Proof.
  unfold INT_MAX.
  intros Hlen (Hok & b & a & cells & -> & Hne & Ha & Hbn & Hb & Hcr & Hle & ? & Hl).
  unfold DA_push. simpl is_null. cbn iota.
  wp_step. eapply wp_load_da; [by rewrite Hb; simplify_map_eq|]. simpl.
  destruct (Z.eqb_spec (Z.of_nat (length l)) (Z.of_nat (length cells))) as [Hfull|Hroom].
  2: { wp_step. wp_step. apply (push_tail_spec _ _ a cells); try done; lia. }
  rewrite mul_1_5_small by lia. remember (3 * Z.of_nat (length cells) / 2) as c' eqn:Hc'.
  unfold sizeof_ptr. assert (Z.of_nat (length cells) < c' < 2 ^ 32) by dlia. rewrite u64_small by lia.
  wp_step. wp_step. eapply wp_realloc; [done|by rewrite Hb; simplify_map_eq|].
  intros a' h1 Hna' Hfresh Hb1 Hok1. rewrite Z.div_mul in Hb1 by done.
  rewrite Hb in Hb1, Hfresh. rewrite delete_insert_ne, delete_insert_id in Hb1 by done.
  apply lookup_insert_None in Hfresh as [Hfresh Hnb].
  apply lookup_insert_None in Hfresh as [Hfresh Hna].
  rewrite take_ge in Hb1 by lia.
  remember (cells ++ replicate (Z.to_nat c' - length cells) None) as cells' eqn:Ec.
  assert (c' = Z.of_nat (length cells')) as Hlen'.
  { rewrite Ec, length_app, length_replicate. lia. }
  eapply wp_store_da; [by rewrite Hb1; simplify_map_eq|].
  apply (push_tail_spec _ b a' cells' l x); try done; try lia.
  { apply heap_ok_insert; [done|]. rewrite Hb1. simplify_map_eq. eauto. }
  { simpl. rewrite Hb1, (insert_insert_ne _ a' b), insert_insert_eq, Hlen' by done.
    reflexivity. }
  intros j y Hj. rewrite Ec, lookup_app_l; [by apply Hl|].
  apply lookup_lt_Some in Hj. lia.
Qed.

Lemma DA_pop_spec h da l :
  is_da F h da l →
  wp (DA_pop da) h (λ x h',
    x = default NULL (last l) ∧ is_da F h' da (take (length l - 1) l)).
Proof.
  intros Hda. pose proof Hda as
    (Hok & b & a & cells & -> & ? & ? & ? & Hb & ? & ? & ? & Hl).
  unfold DA_pop. simpl is_null. cbn iota.
  wp_step. eapply wp_load_da; [by rewrite Hb; simplify_map_eq|]. simpl.
  destruct (Z.eqb_spec (Z.of_nat (length l)) 0) as [Hz|Hnz].
  { wp_step. destruct l; [|done]. done. }
  wp_step. eapply wp_store_da; [by rewrite Hb; simplify_map_eq|].
  wp_step. eapply wp_load_da; [by simpl; rewrite lookup_insert_eq|]. simpl.
  rewrite u64_small by lia.
  destruct (lookup_lt_is_Some_2 l (length l - 1)) as [x Hx]; [lia|].
  eapply load_elem_spec; [by simpl; rewrite Hb; simplify_map_eq|lia|done| |].
  { by replace (Z.to_nat _) with (length l - 1)%nat by lia. }
  rewrite last_lookup. replace (pred (length l)) with (length l - 1)%nat by lia.
  rewrite Hx. split; [done|]. split.
  { apply heap_ok_insert; [done|]. rewrite Hb. simplify_map_eq. eauto. }
  exists b, a, cells. simpl. rewrite Hb, insert_insert_eq, length_take.
  split_and!; [done..| |lia|lia|lia|lia|].
  { repeat f_equal. lia. }
  intros j y [Hy _]%lookup_take_Some. by apply Hl.
Qed.

Lemma DA_free_spec h da l :
  is_da F h da l → wp (DA_free da) h (λ _ h', blocks h' = F).
Proof.
  intros (Hok & b & a & cells & -> & ? & ? & ? & Hb & _).
  unfold DA_free. simpl is_null. cbn iota.
  wp_step. eapply wp_load_da; [by rewrite Hb; simplify_map_eq|]. simpl.
  wp_step. eapply wp_free; [by rewrite Hb; simplify_map_eq|].
  wp_step. eapply wp_store_da; [by simpl; rewrite Hb; simplify_map_eq|].
  eapply wp_free; [by simpl; rewrite lookup_insert_eq|]. simpl.
  rewrite Hb. apply map_eq. intros k.
  destruct (decide (k = b)), (decide (k = a)); by simplify_map_eq.
Qed.

Lemma exec_op_spec h da l o :
  op_ok o → Z.of_nat (length l) < INT_MAX → is_da F h da l →
  wp (exec_op da o) h (λ r h', r = (spec_op o l).1 ∧ is_da F h' da (spec_op o l).2).
Proof.
  intros Ho Hl Hda. destruct o; simpl in *; apply wp_bind.
  - eapply wp_mono; [by apply DA_push_spec|]. done.
  - eapply wp_mono; [by apply DA_pop_spec|]. by intros ? ? [-> ?].
  - eapply wp_mono; [by apply DA_set_spec|]. done.
  - eapply wp_mono; [by apply DA_get_spec|]. by intros ? ? [-> ->].
  - eapply wp_mono; [by apply DA_size_spec|]. by intros ? ? [-> ->].
Qed.
End specs.

(** The length never exceeds the number of pushes, so it stays below
    INT_MAX when there are fewer operations than that. *)
Lemma spec_op_length o l : (length (spec_op o l).2 ≤ S (length l))%nat.
Proof.
  destruct o; simpl; rewrite ?length_app, ?length_take; simpl; try lia.
  case_match; rewrite ?length_insert; lia.
Qed.

Lemma exec_run_spec F ops h da l :
  Forall op_ok ops → Z.of_nat (length l + length ops) ≤ INT_MAX → is_da F h da l →
  wp (exec_run da ops) h (λ aa h',
    aa = (spec_run ops l).1 ∧ is_da F h' da (spec_run ops l).2).
Proof.
  revert h l. induction ops as [|o ops IH]; intros h l Hops Hn Hda; simpl.
  { by wp_step. }
  apply Forall_cons in Hops as [Ho Hops]. simpl in Hn.
  wp_step. eapply wp_mono; [apply (exec_op_spec F); try done; lia|].
  intros r h1 [-> Hda1].
  pose proof (spec_op_length o l).
  destruct (spec_op o l) as [a l1]; simpl in *.
  wp_step. eapply wp_mono; [apply IH; try done; lia|].
  intros aa h2 [-> Hda2]. wp_step.
  by destruct (spec_run ops l1).
Qed.

(** C6: refinement.  For every sequence of fewer than INT_MAX operations,
    creating an array, running the operations and freeing it returns without
    undefined behaviour, answers every operation as the list specification
    does (across every growth of the storage), and leaves the heap blocks
    exactly as they were: nothing leaks and nothing else is touched. *)
Theorem session_refines (h : heap cell) (ops : list op) :
  heap_ok h → Forall op_ok ops → Z.of_nat (length ops) ≤ INT_MAX →
  ∃ h', session ops h = Ok ((spec_run ops []).1, h') ∧ blocks h' = blocks h.
Proof.
  intros Hok Hops Hn.
  cut (wp (session ops) h (λ aa h', aa = (spec_run ops []).1 ∧ blocks h' = blocks h)).
  { rewrite wp_Ok. intros (aa & h' & -> & -> & ?). eauto. }
  unfold session. wp_step. eapply wp_mono; [by apply (DA_new_spec (blocks h))|].
  intros da h1 Hda.
  wp_step. eapply wp_mono; [by apply (exec_run_spec (blocks h) ops h1 da [])|].
  intros aa h2 [-> Hda2].
  wp_step. eapply wp_mono; [by eapply DA_free_spec|].
  intros ? h3 Hb. by wp_step.
Qed.

Lemma session_refines_witness :
  ∃ h', session [Push 5; Push 7; GetAt 1; SetAt 9 0; Pop; Pop; Pop; Size]
                (heap_empty (λ _, false))
        = Ok ([AUnit; AUnit; AVal 7; AUnit; AVal 7; AVal 9; AVal 0; AVal 0], h')
        ∧ blocks h' = ∅.
Proof.
  apply (session_refines (heap_empty (λ _, false))
    [Push 5; Push 7; GetAt 1; SetAt 9 0; Pop; Pop; Pop; Size]).
  - apply heap_empty_ok.
  - repeat constructor; done.
  - done.
Defined.

(** The allocator's failure is not handled.  When the array is full and
    [realloc] returns NULL, [DA_push] stores through the NULL pointer it has
    just written into [da->arr]. *)
Theorem push_realloc_failure h b d a cells x :
  blocks h !! b = Some [Some (CDa d)] → arr d = Ptr a 0 →
  blocks h !! a = Some cells → a ≠ b → size d = cap d →
  oom h (next h) = true →
  DA_push (Ptr b 0) x h = Fault NullDeref.
Proof.
  intros Hb Ha Hcells Hne Hfull Hoom.
  unfold DA_push, load_da, load, mbind, comp_bind, mret, comp_ret. simpl.
  rewrite Hb. simpl. rewrite Hfull, Z.eqb_refl, Ha. simpl.
  unfold mbind, comp_bind, block_of. rewrite Hcells. unfold alloc. rewrite Hoom. simpl.
  unfold store_da, store, store_cell. simpl. rewrite Hb. simpl.
  by rewrite lookup_insert_eq.
Qed.

(** The heap of an array filled to its initial capacity whose next
    allocation fails. *)
Definition full_heap : heap cell :=
  match (da ← DA_new; exec_run da (replicate 8 (Push 7))) (heap_empty (λ b, (2 <? b)%positive)) with
  | Ok (_, h) => h
  | _ => heap_empty (λ _, false)
  end.

Lemma push_realloc_failure_witness : DA_push (Ptr 1 0) 9 full_heap = Fault NullDeref.
Proof.
  eapply (push_realloc_failure full_heap 1 (mkDA 8 8 (Ptr 2 0)) 2);
    [vm_compute; reflexivity|reflexivity|vm_compute; reflexivity|done|reflexivity
    |vm_compute; reflexivity].
Defined.

(** The [main] of the file passes all its assertions, including 800
    pushes across thirteen growths beside a second array, and frees all it
    allocated. *)
Theorem main_runs : match main 100 200 1000 (heap_empty (λ _, false)) with
  Ok (0, h) => blocks h = ∅ | _ => False end.
Proof. vm_compute. reflexivity. Qed.
