(* ===== verification/Pangram.v ===== *)
(** The two C pangram testers: [Fast] is
    02-introduction-to-c/03-fast-pangram/pangram.c and [X86] is
    03-low-level-programming/04-x86-64-pangram/pangram.c.  A C string is the
    list of its bytes (0 to 255) up to and including the NUL; [None] is a
    read past the end of the buffer.  [covers n s] is the specification: the
    first [n] letters all occur in [s], in either case. *)
From S2P Require Import Prelude.
#[local] Open Scope Z_scope.

(** [1 << k] as an int, converted to uint32_t.  C leaves [1 << 31], which does
    not fit an int, undefined; GCC documents that it does not use this
    freedom of signed [<<], and the result is the wrapped one. *)
Definition bit32 (k : Z) : Z := u32 (i32 (Z.shiftl 1 k)).

(** [printf("%s", line)]: the bytes before the NUL. *)
Fixpoint c_str (s : list Z) : list Z :=
  match s with
  | [] => []
  | c :: s => if c =? 0 then [] else c :: c_str s
  end.

(** ** 03-fast-pangram/pangram.c *)
Module Fast.

Definition MASK : Z := 0x03fffffe.

(** The loop of [ispangram]: [s] is what is left of the string. *)
Fixpoint ispangram_loop (bits : Z) (s : list Z) : option bool :=
  match s with
  | [] => None
  | c :: s =>
      let ch := i8 c in
      if 0 =? ch then Some false
      else if ch <=? 64 then ispangram_loop bits s
      else
        let bits := Z.lor bits (bit32 (Z.land ch 0x1f)) in
        if MASK =? Z.land bits MASK then Some true else ispangram_loop bits s
  end.

Definition ispangram (s : list Z) : option bool := ispangram_loop 0 s.

(** [main]: the lines [getline] returns, each NUL-terminated, in; the bytes
    printed to stdout, out. *)
Fixpoint main (lines : list (list Z)) : option (list Z) :=
  match lines with
  | [] => Some []
  | line :: lines =>
      b ← ispangram line;
      out ← main lines;
      Some (if (b : bool) then c_str line ++ out else out)
  end.

End Fast.

(** ** 04-x86-64-pangram/pangram.c *)
Module X86.

Definition MASK : Z := 0x07fffffe.

Fixpoint ispangram_loop (bs : Z) (s : list Z) : option bool :=
  match s with
  | [] => None
  | b :: s =>
      let c := i8 b in
      if c =? 0 then Some (Z.land bs MASK =? MASK)
      else if c <? 64 then ispangram_loop bs s
      else ispangram_loop (Z.lor bs (bit32 (Z.land c 0x1f))) s
  end.

Definition ispangram (s : list Z) : option bool := ispangram_loop 0 s.

(** [main], as in [Fast]. *)
Fixpoint main (lines : list (list Z)) : option (list Z) :=
  match lines with
  | [] => Some []
  | line :: lines =>
      b ← ispangram line;
      out ← main lines;
      Some (if (b : bool) then c_str line ++ out else out)
  end.

End X86.

(** ** Specification *)

(** Byte [c] is the [k]-th letter, upper or lower case. *)
Definition is_letter (k c : Z) : bool := (c =? 64 + k) || (c =? 96 + k).

Definition occurs (s : list Z) (k : Z) : bool := existsb (is_letter k) s.

Definition covers (n : Z) (s : list Z) : bool := forallb (occurs s) (seqZ 1 n).

(** The bytes of a C string before its NUL. *)
Definition c_bytes (s : list Z) : Prop := Forall (λ c, 0 < c < 256) s.

(** The bits the loops have set so far are those of the letters seen. *)
Definition seen (bits : Z) (s : list Z) : Prop :=
  ∀ k, 1 ≤ k ≤ 26 → Z.testbit bits k = occurs s k.

(** The letters of [s] up to its end, whatever follows the NUL. *)
Definition terminated (s rest : list Z) : list Z := s ++ 0 :: rest.

(** ** Proofs *)

Lemma forallb_seqZ P m n :
  forallb P (seqZ m n) = true ↔ ∀ k, m ≤ k < m + n → P k = true.
Proof.
  rewrite forallb_forall. setoid_rewrite <-list_elem_of_In.
  by setoid_rewrite elem_of_seqZ.
Qed.

Lemma covers_true n s : covers n s = true ↔ ∀ k, 1 ≤ k < 1 + n → occurs s k = true.
Proof. apply forallb_seqZ. Qed.

Lemma covers_mono n s t : covers n s = true → covers n (s ++ t) = true.
Proof.
  rewrite !covers_true. intros H k Hk. unfold occurs.
  rewrite existsb_app. apply orb_true_intro. left. by apply H.
Qed.

Lemma bit32_spec j : 0 ≤ j < 32 → bit32 j = 2 ^ j.
Proof.
  intros Hj. assert (forallb (λ j, bit32 j =? 2 ^ j) (seqZ 0 32) = true) as H
    by (vm_compute; reflexivity).
  rewrite forallb_seqZ in H. apply Z.eqb_eq, H. lia.
Qed.

(** Above the first 64 bytes, the low five bits name the letter. *)
Lemma letter_bits c k : 0 < c < 256 → 1 ≤ k ≤ 26 →
  is_letter k c = (64 <=? i8 c) && (Z.land (i8 c) 0x1f =? k).
Proof.
  intros Hc Hk. set (P c k := Bool.eqb (is_letter k c)
    ((64 <=? i8 c) && (Z.land (i8 c) 0x1f =? k))).
  assert (forallb (λ c, forallb (P c) (seqZ 1 26)) (seqZ 1 255) = true) as H
    by (vm_compute; reflexivity).
  rewrite forallb_seqZ in H. specialize (H c ltac:(lia)). cbv beta in H.
  rewrite forallb_seqZ in H. apply Bool.eqb_prop, H. lia.
Qed.

Lemma letter_not_at c k : 0 < c < 256 → 1 ≤ k ≤ 26 → i8 c ≤ 64 → is_letter k c = false.
Proof.
  intros Hc Hk Hle. rewrite letter_bits by done.
  destruct (Z.leb_spec 64 (i8 c)); [|done]. replace (i8 c) with 64 by lia.
  apply Z.eqb_neq. change (Z.land 64 0x1f) with 0. lia.
Qed.

Lemma i8_nonzero c : 0 < c < 256 → i8 c ≠ 0.
Proof. unfold i8. intros. dlia. Qed.

Lemma occurs_snoc s c k : occurs (s ++ [c]) k = occurs s k || is_letter k c.
Proof. unfold occurs. rewrite existsb_app. simpl. by rewrite orb_false_r. Qed.

Lemma seen_skip bits s c :
  0 < c < 256 → i8 c ≤ 64 → seen bits s → seen bits (s ++ [c]).
Proof.
  intros Hc Hle Hs k Hk.
  by rewrite occurs_snoc, letter_not_at, orb_false_r, Hs by done.
Qed.

Lemma seen_mark bits s c :
  0 < c < 256 → 64 ≤ i8 c → seen bits s →
  seen (Z.lor bits (bit32 (Z.land (i8 c) 0x1f))) (s ++ [c]).
Proof.
  intros Hc Hge Hs k Hk.
  assert (0 ≤ Z.land (i8 c) 0x1f < 32) as Hj.
  { change 0x1f with (Z.ones 5). rewrite Z.land_ones by done.
    change 32 with (2 ^ 5). by apply Z.mod_pos_bound. }
  rewrite Z.lor_spec, bit32_spec, Z.pow2_bits_eqb, occurs_snoc, Hs, letter_bits by lia.
  by rewrite (proj2 (Z.leb_le 64 (i8 c))) by lia.
Qed.

(** The mask of the first [n] letters. *)
Lemma mask_covers bits s n : 0 ≤ n ≤ 26 → seen bits s →
  (Z.land bits (Z.shiftl (Z.ones n) 1) =? Z.shiftl (Z.ones n) 1) = covers n s.
Proof.
  intros Hn Hs. apply eq_true_iff_eq. rewrite Z.eqb_eq, covers_true.
  assert (∀ k, 0 ≤ k → Z.testbit (Z.shiftl (Z.ones n) 1) k = (1 <=? k) && (k <=? n)) as Hm.
  { intros k Hk. rewrite Z.shiftl_spec, Z.testbit_ones by lia.
    apply eq_true_iff_eq. rewrite !andb_true_iff. zify. lia. }
  split.
  - intros H k Hk. rewrite <-Hs by lia. apply (f_equal (λ z, Z.testbit z k)) in H.
    rewrite Z.land_spec, Hm in H by lia.
    rewrite (proj2 (Z.leb_le 1 k)), (proj2 (Z.leb_le k n)), andb_true_r in H by lia. done.
  - intros H. apply Z.bits_inj'. intros k Hk. rewrite Z.land_spec, Hm by done.
    destruct (Z.leb_spec 1 k), (Z.leb_spec k n); simpl; rewrite ?andb_false_r; try done.
    rewrite Hs, H by lia. done.
Qed.

Lemma fast_loop t rest bits s :
  c_bytes t → seen bits s → covers 25 s = false →
  Fast.ispangram_loop bits (terminated t rest) = Some (covers 25 (s ++ t)).
Proof.
  revert bits s. induction t as [|c t IH]; intros bits s Ht Hs Hc;
    unfold terminated; cbn [app Fast.ispangram_loop].
  { by rewrite app_nil_r, Hc. }
  fold (terminated t rest).
  apply Forall_cons in Ht as [Hb Ht].
  rewrite (proj2 (Z.eqb_neq 0 (i8 c))) by (pose proof (i8_nonzero c Hb); lia).
  replace (s ++ c :: t) with ((s ++ [c]) ++ t) by (by rewrite <-app_assoc).
  destruct (Z.leb_spec (i8 c) 64) as [Hle|Hgt].
  - apply IH; [done|by apply seen_skip|].
    assert (seen bits (s ++ [c])) as Hs' by (by apply seen_skip).
    rewrite <-(mask_covers bits) by (done || lia). by rewrite (mask_covers bits s).
  - assert (seen (Z.lor bits (bit32 (Z.land (i8 c) 0x1f))) (s ++ [c])) as Hs'
      by (apply seen_mark; done || lia).
    change Fast.MASK with (Z.shiftl (Z.ones 25) 1).
    rewrite Z.eqb_sym, (mask_covers _ (s ++ [c])) by (done || lia).
    destruct (covers 25 (s ++ [c])) eqn:E; [|by apply IH].
    by rewrite covers_mono.
Qed.

Lemma x86_loop t rest bits s :
  c_bytes t → seen bits s →
  X86.ispangram_loop bits (terminated t rest) = Some (covers 26 (s ++ t)).
Proof.
  revert bits s. induction t as [|c t IH]; intros bits s Ht Hs;
    unfold terminated; cbn [app X86.ispangram_loop].
  { rewrite app_nil_r. change X86.MASK with (Z.shiftl (Z.ones 26) 1).
    cbn [Z.eqb]. by rewrite (mask_covers _ s). }
  fold (terminated t rest).
  apply Forall_cons in Ht as [Hb Ht].
  rewrite (proj2 (Z.eqb_neq (i8 c) 0)) by (by apply i8_nonzero).
  replace (s ++ c :: t) with ((s ++ [c]) ++ t) by (by rewrite <-app_assoc).
  destruct (Z.ltb_spec (i8 c) 64) as [Hlt|Hge].
  - apply IH; [done|]. apply seen_skip; done || lia.
  - apply IH; [done|]. by apply seen_mark.
Qed.

Lemma seen_nil : seen 0 [].
Proof. intros k Hk. by rewrite Z.testbit_0_l. Qed.

(** C27: the pangram tester of 04-x86-64-pangram is exact: on every
    NUL-terminated string it returns true when each of the 26 letters occurs
    before the NUL, in either case and among any other bytes (control codes,
    punctuation, bytes above 127), and false otherwise; it never reads past
    the NUL. *)
Theorem x86_ispangram_correct (s rest : list Z) :
  c_bytes s → X86.ispangram (terminated s rest) = Some (covers 26 s).
Proof. intros Hs. by apply (x86_loop s rest 0 []), seen_nil. Qed.

Lemma x86_ispangram_correct_witness :
  X86.ispangram (terminated (7 :: 200 :: seqZ 97 26) [1; 2]) = Some true.
Proof.
  apply (x86_ispangram_correct (7 :: 200 :: seqZ 97 26) [1; 2]).
  repeat constructor.
Defined.

(** The program prints the lines that are pangrams, each up to its NUL. *)
Lemma c_str_terminated s rest : c_bytes s → c_str (terminated s rest) = s.
Proof.
  induction 1 as [|c s Hc Hs IH]; [done|]. unfold terminated in *. simpl.
  by rewrite (proj2 (Z.eqb_neq c 0)), IH by lia.
Qed.

Lemma x86_main_prints (lines : list (list Z * list Z)) :
  Forall (λ l, c_bytes l.1) lines →
  X86.main ((λ l, terminated l.1 l.2) <$> lines) =
    Some (concat (filter (λ s, covers 26 s = true) lines.*1)).
Proof.
  induction 1 as [|[s rest] lines Hs Hlines IH]; [done|].
  rewrite !fmap_cons. cbn [X86.main fst snd]. rewrite IH. unfold X86.ispangram.
  rewrite (x86_loop s rest 0 [] Hs seen_nil). simpl. rewrite filter_cons.
  destruct (covers 26 s); simpl; [|done]. by rewrite c_str_terminated.
Qed.

(** C28: the pangram tester of 03-fast-pangram tests the first 25 letters
    only: its mask stops at bit 25, so it returns true exactly when 'a' to
    'y' all occur, whether or not 'z' does. *)
Theorem fast_ispangram_ignores_z (s rest : list Z) :
  c_bytes s → Fast.ispangram (terminated s rest) = Some (covers 25 s).
Proof. intros Hs. by apply (fast_loop s rest 0 []); [|apply seen_nil|]. Qed.

Lemma fast_ispangram_ignores_z_witness :
  Fast.ispangram (terminated (seqZ 97 25) []) = Some true.
Proof.
  apply (fast_ispangram_ignores_z (seqZ 97 25) []). repeat constructor.
Defined.
