(* ===== verification/Asm.v ===== *)
(** The x86-64 machine of the assembly exercises
    (02-computer-systems/03-low-level-programming and old/assembly): the
    registers, the flags that the programs test, a memory of bytes, and the
    instructions they use, in the syntax of nasm.  A program is its list of
    lines, and the address of an instruction is its place in the list.
    Labels are looked up by name; a call of a name that has no label is a call
    of the C library.  The floating-point registers hold numbers of
    [spec_float], which follow IEEE 754.  A flag that an instruction leaves
    undefined, or that no program here tests after it, cannot be tested. *)
From S2P Require Import Prelude.
From Stdlib Require Import SpecFloat.
#[local] Open Scope Z_scope.

(** ** Words *)

Inductive width := W8 | W32 | W64.

Definition bits (w : width) : Z := match w with W8 => 8 | W32 => 32 | W64 => 64 end.
Definition nbytes (w : width) : nat := match w with W8 => 1 | W32 => 4 | W64 => 8 end.

Definition trunc (w : width) (z : Z) : Z := z mod 2 ^ bits w.
(** The signed number that a word stands for. *)
Definition signed (w : width) (z : Z) : Z :=
  (z + 2 ^ (bits w - 1)) mod 2 ^ bits w - 2 ^ (bits w - 1).
Definition fits (w : width) (z : Z) : bool :=
  (- 2 ^ (bits w - 1) <=? z) && (z <? 2 ^ (bits w - 1)).

(** ** Syntax *)

Inductive reg :=
  | RAX | RBX | RCX | RDX | RSI | RDI | RSP | RBP
  | R8 | R9 | R10 | R11 | R12 | R13 | R14 | R15.

Scheme Boolean Equality for reg.

(** [Mem base index scale disp] is [[base + index * scale + disp]]. *)
Inductive operand :=
  | R (r : reg)
  | I (z : Z)
  | Mem (base : option reg) (index : option reg) (scale disp : Z).

(** A floating-point register, or a number in memory. *)
Inductive foperand := X (r : nat) | FMem (base index : option reg) (scale disp : Z).

Inductive alu := Add | Sub | And | Or | Xor.
Inductive cond := E | NE | L | LE | G | GE.

Inductive instr :=
  | Mov (w : width) (d s : operand)
  | Op (o : alu) (w : width) (d s : operand)
  | Cmp (w : width) (a b : operand)
  | Test (w : width) (a b : operand)
  | Inc (w : width) (d : operand)
  | Dec (w : width) (d : operand)
  | Imul (w : width) (d : reg) (s : operand)
  | Shl (w : width) (d : operand) (n : Z)
  | Shr (w : width) (d : operand) (n : Z)
  | Bts (w : width) (d : operand) (s : operand)
  | Lea (w : width) (d : reg) (s : operand)
  | Movsxd (d : reg) (s : operand)
  | Cmov (c : cond) (w : width) (d : reg) (s : operand)
  | Push (s : operand)
  | Pop (d : reg)
  | Jmp (l : string)
  | J (c : cond) (l : string)
  | Call (l : string)
  | Ret
  | Syscall
  | Mulss (d : nat) (s : foperand)
  | Addsd (d : nat) (s : foperand)
  | Xorpd (d s : nat).

Inductive line := Lbl (l : string) | Ins (i : instr).
Definition program : Type := list line.

Coercion R : reg >-> operand.
Coercion I : Z >-> operand.
Coercion Ins : instr >-> line.

Declare Scope asm_scope.
Delimit Scope asm_scope with asm.
Notation "'asm:' x ; .. ; y 'end'" := (@cons line x .. (@cons line y (@nil line)) ..)
  (at level 0, x at level 99, y at level 99) : asm_scope.
#[global] Open Scope asm_scope.

(** ** State *)

Record flags := Flags { zf : bool; sf : bool; of_ : bool }.

(** What happens outside: bytes written to a descriptor, the exit with a
    status, a function of the C library called with its first arguments. *)
Inductive event :=
  | Write (fd : Z) (bytes : list Z) | Exit (status : Z) | Called (f : string) (args : list Z).

Record machine := Machine {
  pc : Z; regs : reg → Z; xmm : nat → spec_float;
  fl : option flags; mem : gmap Z Z; events : list event
}.

#[local] Abbreviation M := (comp machine).

Definition upd (r : reg) (v : Z) (f : reg → Z) (r' : reg) : Z :=
  if reg_beq r r' then v else f r'.

Definition set_pc (n : Z) (m : machine) : machine :=
  Machine n (regs m) (xmm m) (fl m) (mem m) (events m).
Definition set_regs (f : reg → Z) (m : machine) : machine :=
  Machine (pc m) f (xmm m) (fl m) (mem m) (events m).
Definition set_fl (x : option flags) (m : machine) : machine :=
  Machine (pc m) (regs m) (xmm m) x (mem m) (events m).
Definition set_mem (x : gmap Z Z) (m : machine) : machine :=
  Machine (pc m) (regs m) (xmm m) (fl m) x (events m).
Definition set_xmm (d : nat) (x : spec_float) (m : machine) : machine :=
  Machine (pc m) (regs m) (λ r, if (r =? d)%nat then x else xmm m r) (fl m) (mem m) (events m).
Definition add_event (e : event) (m : machine) : machine :=
  Machine (pc m) (regs m) (xmm m) (fl m) (mem m) (events m ++ [e]).

Definition modify (f : machine → machine) : M unit := λ m, Ok (tt, f m).

(** ** Memory *)

(** Little-endian; every byte must be mapped. *)
Fixpoint load (n : nat) (a : Z) (m : gmap Z Z) : option Z :=
  match n with
  | O => Some 0
  | S n => b ← m !! u64 a; v ← load n (a + 1) m; Some (b + 256 * v)
  end.

Fixpoint store (n : nat) (a v : Z) (m : gmap Z Z) : option (gmap Z Z) :=
  match n with
  | O => Some m
  | S n => _ ← m !! u64 a; store n (a + 1) (v / 256) (<[u64 a := v mod 256]> m)
  end.

Definition load_mem (w : width) (a : Z) : M Z := λ m,
  match load (nbytes w) a (mem m) with
  | Some v => Ok (v, m)
  | None => Fault OutOfBounds
  end.
Definition store_mem (w : width) (a v : Z) : M unit := λ m,
  match store (nbytes w) a v (mem m) with
  | Some x => Ok (tt, set_mem x m)
  | None => Fault OutOfBounds
  end.

(** ** Operands *)

Definition reg_of (r : option reg) (m : machine) : Z :=
  match r with Some r => regs m r | None => 0 end.
Definition address (base index : option reg) (scale disp : Z) : M Z := λ m,
  Ok (u64 (reg_of base m + reg_of index m * scale + disp), m).

Definition read (w : width) (o : operand) : M Z :=
  match o with
  | R r => λ m, Ok (trunc w (regs m r), m)
  | I z => mret (trunc w z)
  | Mem b i s d => a ← address b i s d; load_mem w a
  end.

(** A write of 32 bits clears the upper half of a register; one of 8 bits
    keeps the rest. *)
Definition write (w : width) (o : operand) (v : Z) : M unit :=
  match o with
  | R r => modify (λ m, set_regs (upd r (match w with
                                         | W8 => regs m r - trunc W8 (regs m r) + trunc W8 v
                                         | _ => trunc w v
                                         end) (regs m)) m)
  | I _ => fail BadCast
  | Mem b i s d => a ← address b i s d; store_mem w a (trunc w v)
  end.

(** ** Floating point *)

(** The number of the bits of a [float] (8 of exponent, 23 of mantissa) or of
    a [double] (11 and 52). *)
Definition float_of_bits (ebits mbits z : Z) : spec_float :=
  let m := z mod 2 ^ mbits in
  let e := (z / 2 ^ mbits) mod 2 ^ ebits in
  let s := Z.testbit z (ebits + mbits) in
  let bias := 2 ^ (ebits - 1) - 1 in
  if e =? 2 ^ ebits - 1 then if m =? 0 then S754_infinity s else S754_nan
  else if e =? 0 then
    match m with Z.pos p => S754_finite s p (1 - bias - mbits) | _ => S754_zero s end
  else
    match 2 ^ mbits + m with Z.pos p => S754_finite s p (e - bias - mbits) | _ => S754_nan end.

Definition float32 : Z → spec_float := float_of_bits 8 23.
Definition float64 : Z → spec_float := float_of_bits 11 52.

Definition mul32 : spec_float → spec_float → spec_float := SFmul 24 128.
Definition add64 : spec_float → spec_float → spec_float := SFadd 53 1024.

Definition fread (w : width) (o : foperand) : M spec_float :=
  match o with
  | X r => λ m, Ok (xmm m r, m)
  | FMem b i s d =>
      a ← address b i s d; v ← load_mem w a;
      mret (match w with W64 => float64 v | _ => float32 v end)
  end.

(** ** Flags *)

Definition result_flags (w : width) (v : Z) (overflow : bool) : M unit :=
  modify (set_fl (Some (Flags (trunc w v =? 0) (signed w v <? 0) overflow))).
Definition no_flags : M unit := modify (set_fl None).

Definition holds (c : cond) (f : flags) : bool :=
  match c with
  | E => zf f
  | NE => negb (zf f)
  | L => negb (eqb (sf f) (of_ f))
  | LE => zf f || negb (eqb (sf f) (of_ f))
  | G => negb (zf f) && eqb (sf f) (of_ f)
  | GE => eqb (sf f) (of_ f)
  end.

Definition test_cond (c : cond) : M bool := λ m,
  match fl m with Some f => Ok (holds c f, m) | None => Fault UninitRead end.

(** ** Instructions *)

Definition alu_value (o : alu) (a b : Z) : Z :=
  match o with
  | Add => a + b | Sub => a - b | And => Z.land a b | Or => Z.lor a b | Xor => Z.lxor a b
  end.

(** Signed overflow. *)
Definition alu_overflow (o : alu) (w : width) (a b : Z) : bool :=
  match o with
  | Add => negb (fits w (signed w a + signed w b))
  | Sub => negb (fits w (signed w a - signed w b))
  | _ => false
  end.

Definition alu_flags (o : alu) (w : width) (a b : Z) : M unit :=
  result_flags w (alu_value o a b) (alu_overflow o w a b).

(** The registers a function may change. *)
Definition caller_saved (r : reg) : bool :=
  match r with RBX | RSP | RBP | R12 | R13 | R14 | R15 => false | _ => true end.

Section execution.
(** The program, and what functions of the C library and the kernel leave in
    the registers they may change, as a function of all that has happened. *)
Context (prog : program) (answer : list event → reg → Z).

Definition is_label (l : string) (x : line) : bool :=
  match x with Lbl l' => bool_decide (l = l') | Ins _ => false end.

Fixpoint find_label (l : string) (p : program) (n : Z) : option Z :=
  match p with
  | [] => None
  | x :: p => if is_label l x then Some n else find_label l p (n + 1)
  end.

Definition jump (l : string) : M unit :=
  match find_label l prog 0 with
  | Some n => modify (set_pc n)
  | None => fail BadCast
  end.

Definition push (v : Z) : M unit :=
  sp ← read W64 RSP;
  write W64 RSP (sp - 8);;
  sp ← read W64 RSP;
  store_mem W64 sp v.

Definition pop : M Z :=
  sp ← read W64 RSP;
  v ← load_mem W64 sp;
  write W64 RSP (sp + 8);;
  mret v.

(** The bytes that [write] passes to the kernel. *)
Fixpoint bytes_at (n : nat) (a : Z) (m : gmap Z Z) : option (list Z) :=
  match n with
  | O => Some []
  | S n => b ← m !! u64 a; l ← bytes_at n (a + 1) m; Some (b :: l)
  end.

(** The system calls [write] and [exit]; [exit] does not return, and is
    followed by a return to where the machine stops. *)
Definition EXIT : Z := -1.

Definition syscall : M unit :=
  n ← read W64 RAX;
  fd ← read W64 RDI;
  if n =? 1 then
    a ← read W64 RSI;
    len ← read W64 RDX;
    m ← get;
    match bytes_at (Z.to_nat len) a (mem m) with
    | Some l =>
        modify (add_event (Write fd l));; m ← get;
        modify (set_regs (upd RCX (answer (events m) RCX)
                            (upd R11 (answer (events m) R11) (regs m))));;
        write W64 RAX len
    | None => fail OutOfBounds
    end
  else if n =? 60 then modify (add_event (Exit (trunc W8 fd)));; modify (set_pc EXIT)
  else fail BadCast.

(** A function of the C library: it returns where it is called.  (It may also
    change the xmm registers; no program uses one after such a call.) *)
Definition call_library (f : string) : M unit :=
  m ← get;
  modify (add_event (Called f [regs m RDI; regs m RSI; regs m RDX]));;
  m ← get;
  modify (set_regs (λ r, if caller_saved r then answer (events m) r else regs m r));;
  no_flags.

(** The effect of an instruction, [pc] being already at the next one. *)
Definition exec (i : instr) : M unit :=
  match i with
  | Mov w d s => v ← read w s; write w d v
  | Op o w d s =>
      a ← read w d; b ← read w s;
      write w d (alu_value o a b);; alu_flags o w a b
  | Cmp w a b => a ← read w a; b ← read w b; alu_flags Sub w a b
  | Test w a b => a ← read w a; b ← read w b; alu_flags And w a b
  | Inc w d => a ← read w d; write w d (a + 1);; alu_flags Add w a 1
  | Dec w d => a ← read w d; write w d (a - 1);; alu_flags Sub w a 1
  | Imul w d s => a ← read w d; b ← read w s; write w d (a * b);; no_flags
  | Shl w d n => a ← read w d; write w d (Z.shiftl a n);; no_flags
  | Shr w d n => a ← read w d; write w d (Z.shiftr a n);; no_flags
  | Bts w d s =>
      a ← read w d; b ← read w s;
      write w d (Z.setbit a (b mod bits w));; no_flags
  | Lea w d s =>
      match s with
      | Mem b i sc dd => a ← address b i sc dd; write w d a
      | _ => fail BadCast
      end
  | Movsxd d s => v ← read W32 s; write W64 d (signed W32 v)
  | Cmov c w d s =>
      v ← read w s; b ← test_cond c; a ← read w d;
      write w d (if b : bool then v else a)
  | Push s => v ← read W64 s; push v
  | Pop d => v ← pop; write W64 d v
  | Jmp l => jump l
  | J c l => b ← test_cond c; if b : bool then jump l else mret tt
  | Call l =>
      match find_label l prog 0 with
      | Some _ => m ← get; push (u64 (pc m));; jump l
      | None => call_library l
      end
  | Ret => v ← pop; modify (set_pc (signed W64 v))
  | Syscall => syscall
  | Mulss d s => b ← fread W32 s; modify (λ m, set_xmm d (mul32 (xmm m d) b) m)
  | Addsd d s => b ← fread W64 s; modify (λ m, set_xmm d (add64 (xmm m d) b) m)
  | Xorpd d s =>
      if (d =? s)%nat then modify (set_xmm d (S754_zero false)) else fail BadCast
  end.

(** One line of the program. *)
Definition step (m : machine) : res machine :=
  match (if pc m <? 0 then None else prog !! Z.to_nat (pc m)) with
  | None => Fault OutOfBounds
  | Some (Lbl _) => Ok (set_pc (pc m + 1) m)
  | Some (Ins i) =>
      match exec i (set_pc (pc m + 1) m) with
      | Ok (_, m) => Ok m
      | Fault f => Fault f
      | OutOfFuel => OutOfFuel
      end
  end.

(** Until the machine returns to its caller. *)
Fixpoint run (fuel : nat) (m : machine) : res machine :=
  if pc m =? EXIT then Ok m else
  match fuel with
  | O => OutOfFuel
  | S fuel => match step m with Ok m => run fuel m | r => r end
  end.
(** ** Calls from C *)

(** The registers of the first arguments of a function, numbers or
    addresses. *)
Definition arg_regs : list reg := [RDI; RSI; RDX; RCX; R8; R9].

Fixpoint set_args (rs : list reg) (args : list Z) (f : reg → Z) : reg → Z :=
  match rs, args with
  | r :: rs, a :: args => upd r (u64 a) (set_args rs args f)
  | _, _ => f
  end.

(** The compiled call of the program's first function: the arguments are
    put in registers, the address to return to is pushed, and the function
    runs until it returns there. *)
Definition enter_call (args : list Z) : M unit :=
  modify (λ m, set_pc 0 (set_regs (set_args arg_regs args (regs m)) m));;
  push (u64 EXIT).

Definition run_call (fuel : nat) : M unit := λ m,
  match run fuel m with
  | Ok m => Ok (tt, m)
  | Fault f => Fault f
  | OutOfFuel => OutOfFuel
  end.

Definition call_fun (args : list Z) (fuel : nat) : M unit :=
  enter_call args;; run_call fuel.

(** A call whose result is a word, an [int], or a number in [xmm0]. *)
Definition c_call64 (args : list Z) (fuel : nat) : M Z :=
  call_fun args fuel;; m ← get; mret (regs m RAX).

Definition c_call (args : list Z) (fuel : nat) : M Z :=
  call_fun args fuel;; m ← get; mret (i32 (regs m RAX)).

Definition c_callf (args : list Z) (fuel : nat) : M spec_float :=
  call_fun args fuel;; m ← get; mret (xmm m 0%nat).

(** [assert(f(args) == v)]. *)
Definition assert_call (args : list Z) (v : Z) (fuel : nat) : M unit :=
  r ← c_call args fuel;
  c_assert (r =? v).
End execution.
