(* ===== verification/AsmLogic.v ===== *)
(** Reasoning about the machine of [Asm.v]: what every step keeps, memory,
    flags, and runs that reach a state. *)
From S2P Require Import Prelude Asm.
From Stdlib Require Import SpecFloat.
#[local] Open Scope Z_scope.

(** ** Registers *)

Lemma reg_eq_spec r : reg_beq r r = true.
Proof. by destruct r. Qed.

Lemma reg_neq_spec r q : reg_beq r q = false ↔ r ≠ q.
Proof.
  split; [intros H ->; by rewrite reg_eq_spec in H|]. intros H. by destruct r, q.
Qed.

(** ** Words *)

Create Rewrite HintDb word.

Lemma bits_pos w : 0 < 2 ^ bits w.
Proof. by destruct w. Qed.

Lemma trunc_range w z : 0 ≤ trunc w z < 2 ^ bits w.
Proof. apply Z.mod_pos_bound, bits_pos. Qed.

Lemma trunc_range64 w z : 0 ≤ trunc w z < 2 ^ 64.
Proof. pose proof (trunc_range w z). destruct w; simpl in *; lia. Qed.

Lemma trunc_small w z : 0 ≤ z < 2 ^ bits w → trunc w z = z.
Proof. apply Z.mod_small. Qed.

Lemma trunc_trunc w z : trunc w (trunc w z) = trunc w z.
Proof. apply trunc_small, trunc_range. Qed.

Lemma signed_trunc w z : signed w (trunc w z) = signed w z.
Proof. unfold signed, trunc. by rewrite Zplus_mod_idemp_l. Qed.

Lemma xor_self w z : trunc w (Z.lxor z z) = 0.
Proof. by rewrite Z.lxor_nilpotent. Qed.

Lemma signed_range w z : - 2 ^ (bits w - 1) ≤ signed w z < 2 ^ (bits w - 1).
Proof. unfold signed. destruct w; simpl bits; dlia. Qed.

Lemma signed_small w z : - 2 ^ (bits w - 1) ≤ z < 2 ^ (bits w - 1) → signed w z = z.
Proof. unfold signed. destruct w; simpl bits; intros; dlia. Qed.

Lemma trunc_signed w z : trunc w (signed w z) = trunc w z.
Proof. unfold signed, trunc. destruct w; simpl bits; dlia. Qed.

(** Words are congruent when they are the same modulo [2 ^ bits w]. *)
Lemma trunc_add w a a' b b' :
  trunc w a = trunc w a' → trunc w b = trunc w b' → trunc w (a + b) = trunc w (a' + b').
Proof. unfold trunc. intros Ha Hb. by rewrite Zplus_mod, Ha, Hb, <-Zplus_mod. Qed.

Lemma trunc_mul w a a' b b' :
  trunc w a = trunc w a' → trunc w b = trunc w b' → trunc w (a * b) = trunc w (a' * b').
Proof. unfold trunc. intros Ha Hb. by rewrite Zmult_mod, Ha, Hb, <-Zmult_mod. Qed.

Lemma trunc_pow w a b n :
  trunc w a = trunc w b → trunc w (a ^ Z.of_nat n) = trunc w (b ^ Z.of_nat n).
Proof.
  intros Hab. induction n as [|n IH]; [done|].
  rewrite Nat2Z.inj_succ, !Z.pow_succ_r by lia. by apply trunc_mul.
Qed.

Lemma trunc_u64 w z : trunc w (u64 z) = trunc w z.
Proof. unfold trunc, u64. destruct w; simpl bits; dlia. Qed.

Lemma trunc_32_64 z : trunc W32 (trunc W64 z) = trunc W32 z.
Proof. apply (trunc_u64 W32). Qed.

Lemma trunc_shiftl w z n : 0 ≤ n → trunc w (Z.shiftl z n) = trunc w (2 ^ n * z).
Proof. intros Hn. rewrite Z.shiftl_mul_pow2 by done. f_equal. lia. Qed.

#[export] Hint Rewrite trunc_trunc signed_trunc trunc_signed trunc_u64 trunc_32_64 : word.

(** Congruence of two words built by additions and multiplications. *)
Ltac words :=
  autorewrite with word; try done;
  lazymatch goal with
  | |- trunc _ (_ + _) = trunc _ (_ + _) => apply trunc_add; words
  | |- trunc _ (_ * _) = trunc _ (_ * _) => apply trunc_mul; words
  | _ => idtac
  end.

Lemma fits_true w z : fits w z = true ↔ - 2 ^ (bits w - 1) ≤ z < 2 ^ (bits w - 1).
Proof. unfold fits. rewrite andb_true_iff, Z.leb_le, Z.ltb_lt. lia. Qed.

(** ** Well-formed machines *)

Record wf (m : machine) : Prop := {
  wf_regs : ∀ r, 0 ≤ regs m r < 2 ^ 64;
  wf_mem : map_Forall (λ _ b, 0 ≤ b < 256) (mem m);
  wf_pc : - 2 ^ 63 ≤ pc m
}.

Lemma load_range n : ∀ a m v,
  map_Forall (λ _ b, 0 ≤ b < 256) m → load n a m = Some v → 0 ≤ v < 256 ^ Z.of_nat n.
Proof.
  induction n as [|n IH]; intros a m v Hm Hl; simpl in Hl; [injection Hl as <-; simpl; lia|].
  destruct (m !! u64 a) as [b|] eqn:Hb; [|done]. simpl in Hl.
  destruct (load n (a + 1) m) as [v'|] eqn:Hv; [|done]. injection Hl as <-.
  apply IH in Hv; [|done]. apply Hm in Hb. simpl in Hb.
  rewrite Nat2Z.inj_succ, Z.pow_succ_r by lia. nia.
Qed.

Lemma store_bytes_range n : ∀ a v m m',
  map_Forall (λ _ b, 0 ≤ b < 256) m → store n a v m = Some m' →
  map_Forall (λ _ b, 0 ≤ b < 256) m'.
Proof.
  induction n as [|n IH]; intros a v m m' Hm Hs; simpl in Hs; [by injection Hs as <-|].
  destruct (m !! u64 a); [|done]. simpl in Hs. eapply IH; [|exact Hs].
  apply map_Forall_insert_2; [dlia|done].
Qed.

Section wf.
Context (prog : program) (answer : list event → reg → Z).
Hypothesis answer_range : ∀ es r, 0 ≤ answer es r < 2 ^ 64.

(** A computation keeps machines well formed, and its result satisfies [P]. *)
Definition keeps_wf {A} (P : A → Prop) (c : comp machine A) : Prop := ∀ m,
  wf m → match c m with Ok (a, m') => P a ∧ wf m' | _ => True end.

Lemma keeps_ret {A} (P : A → Prop) a : P a → keeps_wf P (mret a).
Proof. done. Qed.

Lemma keeps_bind {A B} (P : A → Prop) (Q : B → Prop) c k :
  keeps_wf P c → (∀ a, P a → keeps_wf Q (k a)) → keeps_wf Q (c ≫= k).
Proof.
  intros Hc Hk m Hm. unfold mbind, comp_bind. specialize (Hc m Hm).
  destruct (c m) as [[a m']|f|]; try done. destruct Hc as [Ha Hm']. by apply Hk.
Qed.

Lemma keeps_fail {A} (P : A → Prop) f : keeps_wf P (fail f).
Proof. done. Qed.

Lemma keeps_modify f : (∀ m, wf m → wf (f m)) → keeps_wf (λ _, True) (modify f).
Proof. intros Hf m Hm. by split; [|apply Hf]. Qed.

Lemma keeps_get (P : machine → Prop) : (∀ m, wf m → P m) → keeps_wf P get.
Proof. intros HP m Hm. by split; [apply HP|]. Qed.

Lemma wf_upd m r v : wf m → 0 ≤ v < 2 ^ 64 → wf (set_regs (upd r v (regs m)) m).
Proof.
  intros [Hr Hm Hp] Hv. constructor; [|done..]. intros r'. simpl. unfold upd. by case_match.
Qed.

Lemma wf_event m e : wf m → wf (add_event e m).
Proof. by intros [Hr Hm Hp]. Qed.

Lemma wf_set_fl m x : wf m → wf (set_fl x m).
Proof. by intros [Hr Hm Hp]. Qed.

Lemma keeps_load w a : keeps_wf (λ v, 0 ≤ v < 2 ^ bits w) (load_mem w a).
Proof.
  intros m Hm. unfold load_mem. destruct (load _ _ _) as [v|] eqn:Hl; [|done].
  apply load_range in Hl; [|apply Hm]. split; [|done].
  destruct w; simpl in *; lia.
Qed.

Lemma keeps_store w a v : keeps_wf (λ _, True) (store_mem w a v).
Proof.
  intros m Hm. unfold store_mem. destruct (store _ _ _ _) as [x|] eqn:Hs; [|done].
  split; [done|]. destruct Hm as [Hr Hm Hp]. constructor; [done| |done].
  by eapply store_bytes_range.
Qed.

Lemma keeps_address b i s d : keeps_wf (λ a, 0 ≤ a < 2 ^ 64) (address b i s d).
Proof. intros m Hm. split; [|done]. unfold u64. dlia. Qed.

Lemma keeps_read w o : keeps_wf (λ v, 0 ≤ v < 2 ^ bits w) (read w o).
Proof.
  destruct o as [r|z|b i s d]; simpl.
  - intros m Hm. split; [apply trunc_range|done].
  - apply keeps_ret, trunc_range.
  - eapply keeps_bind; [apply keeps_address|]. intros a _. apply keeps_load.
Qed.

Lemma keeps_write w o v : keeps_wf (λ _, True) (write w o v).
Proof.
  destruct o as [r|z|b i s d]; simpl.
  - apply keeps_modify. intros m Hm. apply wf_upd; [done|].
    pose proof (wf_regs m Hm r). pose proof (trunc_range64 w v).
    destruct w; [|done..]. unfold trunc in *. simpl bits in *. dlia.
  - apply keeps_fail.
  - eapply keeps_bind; [apply keeps_address|]. intros a _. apply keeps_store.
Qed.

Lemma keeps_flags o w a b : keeps_wf (λ _, True) (alu_flags o w a b).
Proof. apply keeps_modify. intros m. apply wf_set_fl. Qed.

Lemma keeps_no_flags : keeps_wf (λ _, True) no_flags.
Proof. apply keeps_modify. intros m. apply wf_set_fl. Qed.

Lemma keeps_weaken {A} (P Q : A → Prop) c :
  keeps_wf P c → (∀ a, P a → Q a) → keeps_wf Q c.
Proof. intros Hc HPQ m Hm. specialize (Hc m Hm). destruct (c m) as [[a m']|f|]; try done. destruct Hc. auto. Qed.

Lemma wf_set_xmm d x m : wf m → wf (set_xmm d x m).
Proof. by intros [Hr Hm Hp]. Qed.

Lemma wf_set_pc n m : wf m → - 2 ^ 63 ≤ n → wf (set_pc n m).
Proof. by intros [Hr Hm Hp] Hn. Qed.

Lemma keeps_cond c : keeps_wf (λ _, True) (test_cond c).
Proof. intros m Hm. unfold test_cond. by destruct (fl m). Qed.

Lemma keeps_fread w o : keeps_wf (λ _, True) (fread w o).
Proof.
  destruct o as [r|b i s d]; simpl; [done|].
  eapply keeps_bind; [apply keeps_address|]. intros a _.
  eapply keeps_bind; [apply keeps_load|]. done.
Qed.

Lemma find_label_range l p : ∀ n k, 0 ≤ n → find_label l p n = Some k → n ≤ k.
Proof.
  induction p as [|x p IH]; intros n k Hn Hf; simpl in Hf; [done|].
  case_match; [by injection Hf as ->|]. apply IH in Hf; lia.
Qed.

Lemma keeps_jump l : keeps_wf (λ _, True) (jump prog l).
Proof.
  unfold jump. destruct (find_label l prog 0) as [n|] eqn:Hf; [|apply keeps_fail].
  apply find_label_range in Hf; [|lia].
  apply keeps_modify. intros m Hm. apply wf_set_pc; [done|lia].
Qed.

(** The parts of an instruction, one after the other. *)
Ltac keeps :=
  repeat first
    [ apply keeps_fail | apply keeps_flags | apply keeps_no_flags | apply keeps_jump
    | apply keeps_write | apply keeps_store
    | eapply keeps_bind; [first [apply keeps_read | apply keeps_load | apply keeps_address
        | apply keeps_write | apply keeps_cond | apply keeps_fread
        | apply (keeps_get (λ _, True)); done]|intros ? ?] ].

Lemma keeps_push v : keeps_wf (λ _, True) (push v).
Proof. unfold push. keeps. Qed.

Lemma keeps_pop : keeps_wf (λ v, 0 ≤ v < 2 ^ 64) pop.
Proof. unfold pop. keeps. by apply keeps_ret. Qed.

Lemma wf_answers m f : wf m → (∀ r, 0 ≤ f r < 2 ^ 64) → wf (set_regs f m).
Proof. by intros [Hr Hm Hp] Hf. Qed.

Lemma keeps_syscall : keeps_wf (λ _, True) (syscall answer).
Proof.
  unfold syscall. do 2 (eapply keeps_bind; [apply keeps_read|intros ? _]).
  case_match; [|case_match; [|apply keeps_fail]].
  - do 2 (eapply keeps_bind; [apply keeps_read|intros ? _]).
    eapply keeps_bind; [by apply (keeps_get (λ _, True))|]. intros m0 _.
    case_match; [|apply keeps_fail].
    eapply keeps_bind; [apply keeps_modify; intros m; apply wf_event|]. intros _ _.
    eapply keeps_bind; [by apply (keeps_get wf)|]. intros m1 Hm1.
    eapply keeps_bind; [|intros _ _; apply keeps_write].
    apply keeps_modify. intros m Hm. apply wf_answers; [done|]. intros r. unfold upd.
    repeat case_match; auto. apply Hm1.
  - eapply keeps_bind; [apply keeps_modify; intros m; apply wf_event|]. intros _ _.
    apply keeps_modify. intros m Hm. by apply wf_set_pc.
Qed.

Lemma keeps_library f : keeps_wf (λ _, True) (call_library answer f).
Proof.
  unfold call_library. eapply keeps_bind; [by apply (keeps_get wf)|]. intros m0 Hm0.
  eapply keeps_bind; [apply keeps_modify; intros m; apply wf_event|]. intros _ _.
  eapply keeps_bind; [by apply (keeps_get wf)|]. intros m1 Hm1.
  eapply keeps_bind; [|intros _ _; apply keeps_no_flags].
  apply keeps_modify. intros m Hm. apply wf_answers; [done|]. intros r.
  case_match; [auto|apply Hm1].
Qed.

Lemma keeps_exec i : keeps_wf (λ _, True) (exec prog answer i).
Proof.
  destruct i; cbn [exec]; try apply keeps_syscall; keeps.
  - destruct s; keeps.
  - eapply keeps_bind; [apply keeps_pop|]. intros v _. apply keeps_write.
  - case_match; keeps. by apply keeps_ret.
  - case_match; [|apply keeps_library]. eapply keeps_bind; [by apply (keeps_get (λ _, True))|].
    intros m _. eapply keeps_bind; [apply keeps_push|]. intros _ _. apply keeps_jump.
  - eapply keeps_bind; [apply keeps_pop|]. intros v _. apply keeps_modify. intros m Hm.
    apply wf_set_pc; [done|]. apply (signed_range W64).
  - apply keeps_modify. intros m. apply wf_set_xmm.
  - apply keeps_modify. intros m. apply wf_set_xmm.
  - case_match; [|apply keeps_fail]. apply keeps_modify. intros m. apply wf_set_xmm.
Qed.
End wf.

Lemma step_wf prog answer m m' :
  (∀ es r, 0 ≤ answer es r < 2 ^ 64) → wf m → step prog answer m = Ok m' → wf m'.
Proof.
  intros Ha Hm. unfold step. destruct (pc m <? 0) eqn:Hp; [done|]. apply Z.ltb_ge in Hp.
  assert (wf (set_pc (pc m + 1) m)) as Hm1 by (apply wf_set_pc; [done|lia]).
  destruct (prog !! _) as [[l|i]|]; [by intros [= <-]| |done].
  pose proof (keeps_exec prog answer Ha i _ Hm1) as Hk.
  destruct (exec prog answer i _) as [[[] m1]|f|]; [|done..]. intros [= <-]. apply Hk.
Qed.

Lemma run_wf prog answer fuel : ∀ m m',
  (∀ es r, 0 ≤ answer es r < 2 ^ 64) → wf m → run prog answer fuel m = Ok m' → wf m'.
Proof.
  induction fuel as [|fuel IH]; intros m m' Ha Hm Hr; simpl in Hr;
    (case_match; [by injection Hr as <-|]); [done|].
  destruct (step prog answer m) as [m1|f|] eqn:Hs; [|done..].
  eapply IH; [done| |exact Hr]. by eapply step_wf.
Qed.

(** ** Flags *)

(** The comparisons of two words as signed numbers. *)
Definition compare (c : cond) (a b : Z) : bool :=
  match c with
  | E => a =? b | NE => negb (a =? b) | L => a <? b | LE => a <=? b | G => b <? a | GE => b <=? a
  end.

Lemma sub_flags w a b : 0 ≤ a < 2 ^ bits w → 0 ≤ b < 2 ^ bits w →
  (trunc w (a - b) =? 0) = (signed w a =? signed w b) ∧
  eqb (signed w (a - b) <? 0) (negb (fits w (signed w a - signed w b))) =
    (signed w b <=? signed w a).
Proof.
  intros Ha Hb. split.
  - apply eq_true_iff_eq. rewrite !Z.eqb_eq. unfold trunc, signed.
    destruct w; simpl bits in *; split; intros; dlia.
  - apply eq_true_iff_eq. rewrite eqb_true_iff, Z.leb_le.
    destruct (fits w (signed w a - signed w b)) eqn:Hf;
      [apply fits_true in Hf|apply not_true_iff_false in Hf; rewrite fits_true in Hf];
      destruct (Z.ltb_spec (signed w (a - b)) 0); cbn [negb];
      unfold signed in *; destruct w; simpl bits in *; split; intros; try done; dlia.
Qed.

(** A condition after [cmp a b] compares them, after [test a a] compares [a]
    with 0, and so after [dec a]. *)
Lemma holds_sub c w a b : 0 ≤ a < 2 ^ bits w → 0 ≤ b < 2 ^ bits w →
  holds c (Flags (trunc w (a - b) =? 0) (signed w (a - b) <? 0) (alu_overflow Sub w a b)) =
  compare c (signed w a) (signed w b).
Proof.
  intros Ha Hb. destruct (sub_flags w a b Ha Hb) as [Hz Hl]. cbn [alu_overflow].
  destruct c; simpl; rewrite ?Hz, ?Hl; try done;
    destruct (Z.leb_spec (signed w b) (signed w a)), (Z.eqb_spec (signed w a) (signed w b));
    simpl; lia.
Qed.

Lemma holds_test c w a : 0 ≤ a < 2 ^ bits w →
  holds c (Flags (trunc w (Z.land a a) =? 0) (signed w (Z.land a a) <? 0) false) =
  compare c (signed w a) 0.
Proof.
  intros Ha. rewrite Z.land_diag, trunc_small by done.
  assert ((a =? 0) = (signed w a =? 0)) as Hz.
  { apply eq_true_iff_eq. rewrite !Z.eqb_eq. unfold signed. destruct w; simpl bits in *; split; intros; dlia. }
  destruct c; simpl; rewrite ?Hz; try done;
    destruct (Z.ltb_spec (signed w a) 0), (Z.eqb_spec (signed w a) 0);
    simpl; lia.
Qed.

(** ** Memory *)

Definition mapped (lo hi : Z) (m : gmap Z Z) : Prop := ∀ x, lo ≤ x < hi → is_Some (m !! x).

(** [m'] is [m] but for the bytes from [lo] to [hi], and maps as much. *)
Definition changes (lo hi : Z) (m m' : gmap Z Z) : Prop :=
  (∀ x, ¬ (lo ≤ x < hi) → m' !! x = m !! x) ∧ ∀ x, is_Some (m !! x) → is_Some (m' !! x).

Lemma changes_refl lo hi m : changes lo hi m m.
Proof. done. Qed.

Lemma changes_trans lo hi m1 m2 m3 : changes lo hi m1 m2 → changes lo hi m2 m3 → changes lo hi m1 m3.
Proof.
  intros [H1 D1] [H2 D2]. split; [|auto]. intros x Hx. by rewrite H2, H1.
Qed.

Lemma changes_weaken lo hi lo' hi' m m' :
  changes lo hi m m' → lo' ≤ lo → hi ≤ hi' → changes lo' hi' m m'.
Proof. intros [H D] Hl Hh. split; [|done]. intros x Hx. apply H. lia. Qed.

Lemma mapped_sub lo hi lo' hi' m : mapped lo hi m → lo ≤ lo' → hi' ≤ hi → mapped lo' hi' m.
Proof. intros Hm Hl Hh x Hx. apply Hm. lia. Qed.

Lemma mapped_changes lo hi lo' hi' m m' :
  changes lo hi m m' → mapped lo' hi' m → mapped lo' hi' m'.
Proof. intros [_ D] Hm x Hx. auto. Qed.

Lemma load_ext n : ∀ a m m', 0 ≤ a → a + Z.of_nat n ≤ 2 ^ 64 →
  (∀ x, a ≤ x < a + Z.of_nat n → m' !! x = m !! x) → load n a m' = load n a m.
Proof.
  induction n as [|n IH]; intros a m m' Ha Hn Hx; simpl; [done|].
  rewrite u64_small, Hx by lia. destruct (m !! a); simpl; [|done].
  rewrite (IH (a + 1) m m'); [done|lia|lia|]. intros x Hr. apply Hx. lia.
Qed.

Lemma load_changes n a lo hi m m' :
  changes lo hi m m' → 0 ≤ a → a + Z.of_nat n ≤ 2 ^ 64 → a + Z.of_nat n ≤ lo ∨ hi ≤ a →
  load n a m' = load n a m.
Proof. intros [H _] Ha Hn Hd. apply load_ext; [done..|]. intros x Hx. apply H. lia. Qed.

Lemma store_ok n : ∀ a v m, 0 ≤ a → a + Z.of_nat n ≤ 2 ^ 64 → mapped a (a + Z.of_nat n) m →
  ∃ m', store n a v m = Some m' ∧ load n a m' = Some (v mod 256 ^ Z.of_nat n) ∧
    changes a (a + Z.of_nat n) m m'.
Proof.
  induction n as [|n IH]; intros a v m Ha Hn Hm; cbn [store load].
  { exists m. rewrite Z.mod_1_r. done. }
  rewrite u64_small by lia. destruct (Hm a ltac:(lia)) as [b Hb]. rewrite Hb. simpl mbind.
  assert (changes a (a + 1) m (<[a := v mod 256]> m)) as Hc1.
  { split; intros x Hx; [by rewrite lookup_insert_ne by lia|].
    destruct (decide (a = x)) as [->|]; [by rewrite lookup_insert_eq|by rewrite lookup_insert_ne]. }
  destruct (IH (a + 1) (v / 256) (<[a := v mod 256]> m)) as (m' & Hs & Hl & Hc); [lia|lia| |].
  { eapply mapped_changes; [exact Hc1|]. intros x Hx. apply Hm. lia. }
  exists m'. split; [done|]. split.
  - rewrite (proj1 Hc a), lookup_insert_eq by lia. simpl mbind. rewrite Hl. simpl. f_equal.
    rewrite Nat2Z.inj_succ, Z.pow_succ_r by lia. rewrite Z.rem_mul_r by lia. lia.
  - eapply changes_trans; [eapply changes_weaken; [exact Hc1|lia|lia]|].
    eapply changes_weaken; [exact Hc|lia|lia].
Qed.

(** The bytes [s] are in memory from the address [a] on. *)
Record string_at (a : Z) (s : list Z) (m : gmap Z Z) : Prop := {
  str_range : 0 ≤ a ∧ a + Z.of_nat (length s) ≤ 2 ^ 64;
  str_bytes : ∀ i b, s !! i = Some b → m !! (a + Z.of_nat i) = Some b
}.

(** The memory with the bytes [s] from [a] on. *)
Fixpoint put_bytes (a : Z) (s : list Z) (m : gmap Z Z) : gmap Z Z :=
  match s with [] => m | b :: s => <[a := b]> (put_bytes (a + 1) s m) end.

Lemma put_bytes_at a s m : 0 ≤ a → a + Z.of_nat (length s) ≤ 2 ^ 64 → string_at a s (put_bytes a s m).
Proof.
  intros H0 Hl. split; [done|]. clear H0 Hl. revert a.
  induction s as [|c s IH]; intros a i b Hi; [done|]. destruct i as [|i]; simpl in Hi |- *.
  - injection Hi as ->. by rewrite Z.add_0_r, lookup_insert_eq.
  - rewrite lookup_insert_ne by lia. rewrite <-(IH (a + 1) i b Hi). f_equal. lia.
Qed.

(** A byte stored at the end of a string. *)
Lemma string_snoc a s b m : string_at a s m → a + Z.of_nat (length s) < 2 ^ 64 →
  string_at a (s ++ [b]) (<[a + Z.of_nat (length s) := b]> m).
Proof.
  intros [Hr Hb] Hlt. split; [rewrite length_app; simpl; lia|]. intros i c Hi.
  destruct (decide (i < length s)%nat) as [Hi'|Hi'].
  - rewrite lookup_app_l in Hi by done. rewrite lookup_insert_ne by lia. by apply Hb.
  - pose proof (lookup_lt_Some _ _ _ Hi) as Hlt'. rewrite length_app in Hlt'. simpl in Hlt'.
    replace i with (length s) in * by lia. rewrite lookup_app_r, Nat.sub_diag in Hi by lia.
    injection Hi as ->. by rewrite lookup_insert_eq.
Qed.

Lemma bytes_at_string s : ∀ a m, string_at a s m → bytes_at (length s) a m = Some s.
Proof.
  induction s as [|b s IH]; intros a m [Hr Hb]; [done|]. simpl length in *. cbn [bytes_at].
  rewrite u64_small by lia. replace a with (a + Z.of_nat 0) at 1 by lia. rewrite (Hb 0%nat b) by done.
  simpl. rewrite (IH (a + 1)); [done|]. split; [lia|]. intros i c Hi. rewrite <-(Hb (S i) c Hi).
  f_equal. lia.
Qed.

Lemma string_at_changes a s lo hi m m' : changes lo hi m m' →
  a + Z.of_nat (length s) ≤ lo ∨ hi ≤ a → string_at a s m → string_at a s m'.
Proof.
  intros [Hc _] Hd [Hr Hb]. split; [done|]. intros i b Hi. pose proof (lookup_lt_Some _ _ _ Hi).
  rewrite Hc by lia. by apply Hb.
Qed.

Lemma load_byte a b s m : string_at a (b :: s) m → load 1 (u64 (a + 0 * 1 + 0)) m = Some b.
Proof.
  intros [Hr Hb]. simpl in Hr. replace (a + 0 * 1 + 0) with a by lia. cbn [load].
  rewrite !(u64_small a) by lia. replace a with (a + Z.of_nat 0) at 1 by lia.
  rewrite (Hb 0%nat b) by done. simpl. f_equal. lia.
Qed.

(** [inc] of the address of a string. *)
Lemma string_next a b s m : string_at a (b :: s) m → s ≠ [] →
  string_at (trunc W64 (trunc W64 a + 1)) s m.
Proof.
  intros [Hr Hb] Hs. simpl in Hr. destruct s as [|b' s]; [done|]. simpl in Hr.
  rewrite (trunc_small W64 a), (trunc_small W64 (a + 1)) by (simpl; lia).
  split; [simpl; lia|]. intros i c Hi. rewrite <-(Hb (S i)) by done. f_equal. lia.
Qed.

(** ** Runs *)

Section runs.
Context (prog : program) (answer : list event → reg → Z).

(** The machine comes to a state that satisfies [P]. *)
Inductive eventually (P : machine → Prop) (m : machine) : Prop :=
  | ev_here : P m → eventually P m
  | ev_step m' : step prog answer m = Ok m' → eventually P m' → eventually P m.

Lemma ev_trans P Q m : eventually P m → (∀ m', P m' → eventually Q m') → eventually Q m.
Proof. induction 1 as [m HP|m m' Hs _ IH]; intros HPQ; [auto|]. eapply ev_step; eauto. Qed.

Lemma ev_mono (P Q : machine → Prop) m : eventually P m → (∀ m', P m' → Q m') → eventually Q m.
Proof. intros Hm HPQ. eapply ev_trans; [exact Hm|]. intros m' HP. by apply ev_here, HPQ. Qed.

(** The run of a function called with [m]: it returns. *)
Definition returns (m : machine) (Q : machine → Prop) : Prop :=
  ∃ n m', run prog answer n m = Ok m' ∧ Q m'.

Lemma ev_returns (Q : machine → Prop) m : eventually (λ m', pc m' = EXIT ∧ Q m') m → returns m Q.
Proof.
  induction 1 as [m [Hpc HQ]|m m' Hs _ (n & m2 & Hr & HQ)].
  - exists 0%nat, m. split; [|done]. simpl. by rewrite Hpc.
  - destruct (decide (pc m = EXIT)) as [Hpc|Hpc].
    { unfold step in Hs. rewrite Hpc in Hs. done. }
    exists (S n), m2. split; [|done]. cbn [run]. rewrite (proj2 (Z.eqb_neq _ _)) by done.
    by rewrite Hs.
Qed.

(** More steps do not change the result. *)
Lemma run_more n k m m' :
  run prog answer n m = Ok m' → (n ≤ k)%nat → run prog answer k m = Ok m'.
Proof.
  revert k m. induction n as [|n IH]; intros k m Hr Hk.
  - simpl in Hr. destruct (pc m =? EXIT) eqn:Hp; [|done].
    destruct k; simpl; by rewrite Hp.
  - destruct k as [|k]; [lia|]. simpl in *. destruct (pc m =? EXIT); [done|].
    destruct (step prog answer m) as [m1|f|]; [|done..]. apply IH; [done|lia].
Qed.
End runs.

(** ** Symbolic execution *)

(** Runs the instructions between registers; what is left are the operations
    on words. *)
Ltac run_exec :=
  cbv beta iota zeta delta
    [exec read write modify address reg_of load_mem store_mem nbytes result_flags no_flags alu_flags
     alu_value alu_overflow test_cond fread
     set_pc set_regs set_fl set_mem set_xmm pc regs fl mem xmm events
     mbind comp_bind mret comp_ret get put upd reg_beq].

Section rules.
Context (prog : program) (answer : list event → reg → Z).
Context (k : Z) (f : reg → Z) (x : nat → spec_float) (c : option flags) (mm : gmap Z Z).
Context (es : list event) (P : machine → Prop).
#[local] Abbreviation ev := (eventually prog answer P).
#[local] Abbreviation here := (Machine k f x c mm es).
Context (Hk : (k <? 0) = false).

Lemma ev_label l : prog !! Z.to_nat k = Some (Lbl l) → ev (Machine (k + 1) f x c mm es) → ev here.
Proof. intros Hp. apply ev_step. unfold step. simpl pc. by rewrite Hk, Hp. Qed.

Lemma ev_ins i m' : prog !! Z.to_nat k = Some (Ins i) →
  exec prog answer i (Machine (k + 1) f x c mm es) = Ok (tt, m') → ev m' → ev here.
Proof.
  intros Hp He. apply ev_step. unfold step. simpl pc. rewrite Hk, Hp.
  unfold set_pc. simpl. by rewrite He.
Qed.

Lemma ev_jmp l n : prog !! Z.to_nat k = Some (Ins (Jmp l)) → find_label l prog 0 = Some n →
  ev (Machine n f x c mm es) → ev here.
Proof. intros Hp Hl. eapply ev_ins; [exact Hp|]. simpl. unfold jump. by rewrite Hl. Qed.

Lemma ev_jcc cc l n fs b : prog !! Z.to_nat k = Some (Ins (J cc l)) → find_label l prog 0 = Some n →
  c = Some fs → holds cc fs = b → ev (Machine (if b then n else k + 1) f x c mm es) → ev here.
Proof.
  intros Hp Hl Hc Hb. eapply ev_ins; [exact Hp|]. simpl. unfold jump, mbind, comp_bind, test_cond.
  simpl. rewrite Hc, Hl, Hb. by destruct b.
Qed.

(** The stack. *)
Lemma push_ok v sp k' : f RSP = sp → 8 ≤ sp < 2 ^ 64 → mapped (sp - 8) sp mm →
  ∃ mm', push v (Machine k' f x c mm es) = Ok (tt, Machine k' (upd RSP (sp - 8) f) x c mm' es) ∧
    load 8 (sp - 8) mm' = Some (v mod 2 ^ 64) ∧ changes (sp - 8) sp mm mm'.
Proof.
  intros Hsp H8 Hm. destruct (store_ok 8 (sp - 8) v mm) as (mm' & Hs & Hl & Hc); [lia|lia| |].
  { intros z Hz. apply Hm. lia. }
  exists mm'. split; [|split; [exact Hl|]].
  - unfold push. run_exec. rewrite Hsp, (trunc_small W64 sp) by (simpl; lia).
    rewrite trunc_trunc, (trunc_small W64 (sp - 8)) by (simpl; lia). by rewrite Hs.
  - by replace sp with (sp - 8 + Z.of_nat 8) at 2 by lia.
Qed.

Lemma ev_push r sp : prog !! Z.to_nat k = Some (Ins (Push (R r))) →
  f RSP = sp → 8 ≤ sp < 2 ^ 64 → mapped (sp - 8) sp mm →
  (∀ mm', load 8 (sp - 8) mm' = Some (trunc W64 (f r)) → changes (sp - 8) sp mm mm' →
     ev (Machine (k + 1) (upd RSP (sp - 8) f) x c mm' es)) → ev here.
Proof.
  intros Hp Hsp H8 Hm Hev. destruct (push_ok (trunc W64 (f r)) sp (k + 1) Hsp H8 Hm)
    as (mm' & He & Hl & Hc).
  eapply ev_ins; [exact Hp|exact He|]. apply Hev; [|done].
  rewrite Hl. f_equal. apply (trunc_trunc W64).
Qed.

Lemma ev_call l n sp : prog !! Z.to_nat k = Some (Ins (Call l)) → find_label l prog 0 = Some n →
  0 ≤ k < 2 ^ 62 → f RSP = sp → 8 ≤ sp < 2 ^ 64 → mapped (sp - 8) sp mm →
  (∀ mm', load 8 (sp - 8) mm' = Some (k + 1) → changes (sp - 8) sp mm mm' →
     ev (Machine n (upd RSP (sp - 8) f) x c mm' es)) → ev here.
Proof.
  intros Hp Hn Hk' Hsp H8 Hm Hev. destruct (push_ok (u64 (k + 1)) sp (k + 1) Hsp H8 Hm)
    as (mm' & He & Hl & Hc).
  eapply ev_ins; [exact Hp| |apply Hev; [|exact Hc]].
  - simpl. rewrite Hn. unfold mbind, comp_bind, get. simpl. rewrite He. unfold jump. by rewrite Hn.
  - rewrite Hl. f_equal. unfold u64. rewrite Z.mod_mod, Z.mod_small; lia.
Qed.

Lemma pop_ok sp v k' : f RSP = sp → 0 ≤ sp < 2 ^ 64 - 8 → load 8 sp mm = Some v →
  pop (Machine k' f x c mm es) = Ok (v, Machine k' (upd RSP (sp + 8) f) x c mm es).
Proof.
  intros Hsp H8 Hl. unfold pop. run_exec.
  rewrite Hsp, !(trunc_small W64 sp) by (simpl; lia). rewrite Hl.
  by rewrite (trunc_small W64 (sp + 8)) by (simpl; lia).
Qed.

Lemma ev_pop r sp v : prog !! Z.to_nat k = Some (Ins (Pop r)) →
  f RSP = sp → 0 ≤ sp < 2 ^ 64 - 8 → load 8 sp mm = Some v →
  ev (Machine (k + 1) (upd r (trunc W64 v) (upd RSP (sp + 8) f)) x c mm es) → ev here.
Proof.
  intros Hp Hsp H8 Hl. eapply ev_ins; [exact Hp|]. cbn [exec]. unfold mbind, comp_bind.
  by rewrite (pop_ok _ _ _ Hsp H8 Hl).
Qed.

(** The address returned to, as the place it stands for. *)
Lemma ev_ret sp v : prog !! Z.to_nat k = Some (Ins Ret) →
  f RSP = sp → 0 ≤ sp < 2 ^ 64 - 8 → load 8 sp mm = Some v →
  ev (Machine (signed W64 v) (upd RSP (sp + 8) f) x c mm es) → ev here.
Proof.
  intros Hp Hsp H8 Hl. eapply ev_ins; [exact Hp|]. cbn [exec]. unfold mbind, comp_bind.
  by rewrite (pop_ok _ _ _ Hsp H8 Hl).
Qed.
End rules.

(** ** Tactics *)

Ltac norm_pc :=
  match goal with
  | |- eventually _ _ _ (Machine ?k _ _ _ _ _) =>
      let k' := eval cbv in k in change k with k'
  end.

(** One line: a label, or an instruction that does not jump; [loads] rewrites
    with what is in memory. *)
Tactic Notation "ins" "with" tactic3(loads) :=
  first [ eapply ev_label; [reflexivity|reflexivity|]
        | eapply ev_ins; [reflexivity|reflexivity|run_exec; loads; reflexivity|] ]; norm_pc.
Ltac ins := ins with idtac.

(** A conditional jump, whose condition is [taken]; leaves its proof first. *)
Ltac jcc taken :=
  eapply ev_jcc with (b := taken); [reflexivity|reflexivity|reflexivity|reflexivity| |norm_pc].
(** The same after [cmp], [sub] or [dec] of the words [a] and [b], and after
    [test] of [a] with itself. *)
Ltac jcc_cmp taken :=
  jcc taken; [etransitivity; [apply holds_sub; first [apply trunc_range|done|by vm_compute]|];
              cbn [compare]; rewrite ?signed_trunc|].
Ltac jcc_test taken :=
  jcc taken; [etransitivity; [apply holds_test, trunc_range|];
              cbn [compare]; rewrite ?signed_trunc|].
Ltac jmp := eapply ev_jmp; [reflexivity|reflexivity|reflexivity|]; norm_pc.

(** ** Calls *)

(** A function is at its first line [k] and is to return to [ret]. *)
Record enters (k ret : Z) (m : machine) : Prop := {
  en_pc : pc m = k;
  en_sp : 0 ≤ regs m RSP < 2 ^ 64 - 8;
  en_ret : ∃ v, load 8 (regs m RSP) (mem m) = Some v ∧ signed W64 v = ret
}.

(** What a function leaves to its caller, having used the stack down to [lo]:
    the return address is popped, the registers it has to save are as they
    were, and no memory but its part of the stack has changed. *)
Record restores (lo : Z) (m m' : machine) : Prop := {
  re_sp : regs m' RSP = regs m RSP + 8;
  re_saved : ∀ r, caller_saved r = false → r ≠ RSP → regs m' r = regs m r;
  re_mem : changes lo (regs m RSP) (mem m) (mem m');
  re_events : events m' = events m
}.

(** The function has returned to [ret], with [Q] of its result in [rax]. *)
Definition returned (ret lo : Z) (m : machine) (Q : Z → Prop) (m' : machine) : Prop :=
  pc m' = ret ∧ restores lo m m' ∧ Q (regs m' RAX).

Lemma ev_return_to prog answer k f x c mm es m ret lo P :
  (k <? 0) = false → prog !! Z.to_nat k = Some (Ins Ret) →
  (∃ k', enters k' ret m) → f RSP = regs m RSP →
  (∀ r, caller_saved r = false → r ≠ RSP → f r = regs m r) →
  changes lo (regs m RSP) (mem m) mm → es = events m →
  (∀ m', pc m' = ret → restores lo m m' → regs m' RAX = f RAX → xmm m' = x → P m') →
  eventually prog answer P (Machine k f x c mm es).
Proof.
  intros Hk Hp (k' & [_ Hsp (v & Hv & Hret)]) Hf Hs Hm -> HP.
  eapply (ev_ret _ _ _ _ _ _ _ _ _ Hk _ v Hp Hf Hsp).
  - erewrite load_changes; [exact Hv|exact Hm|lia|lia|lia].
  - apply ev_here. rewrite Hret. apply HP; try done.
    constructor; simpl; unfold upd; try done. intros r Hr Hne. destruct r; try done; by apply Hs.
Qed.

Lemma ev_return prog answer k f x c mm es m ret lo Q :
  (k <? 0) = false → prog !! Z.to_nat k = Some (Ins Ret) →
  (∃ k', enters k' ret m) → f RSP = regs m RSP →
  (∀ r, caller_saved r = false → r ≠ RSP → f r = regs m r) →
  changes lo (regs m RSP) (mem m) mm → es = events m → Q (f RAX) →
  eventually prog answer (returned ret lo m Q) (Machine k f x c mm es).
Proof.
  intros Hk Hp Hm Hf Hs Hmm Hes HQ. eapply ev_return_to; try done.
  intros m' Hpc Hr Hax _. split; [done|]. split; [done|]. by rewrite Hax.
Qed.

(** The first line of a function, and the last. *)
Ltac enter Hm :=
  lazymatch type of Hm with
  | enters _ _ ?m =>
      destruct m as [k f x c mm es]; pose proof (en_pc _ _ _ Hm) as Hk; simpl in Hk; subst k;
      simpl regs; simpl mem
  end.
Ltac leave Hm :=
  eapply ev_return;
    [done|done|first [by eexists|exact Hm]|try done|try (by intros []; intros; try done)|try done|try done|].

(** A call of a function of the program, by its specification: [lo] is how
    far down the stack it goes. *)
Lemma ev_call_fun prog answer k f x c mm es P l n sp lo Q :
  prog !! Z.to_nat k = Some (Ins (Call l)) → find_label l prog 0 = Some n →
  0 ≤ k < 2 ^ 62 → f RSP = sp → 8 ≤ sp < 2 ^ 64 → lo ≤ sp - 8 → mapped (sp - 8) sp mm →
  (∀ f' mm', f' RSP = sp - 8 → (∀ q, q ≠ RSP → f' q = f q) → changes (sp - 8) sp mm mm' →
     let m0 := Machine n f' x c mm' es in
     enters n (k + 1) m0 → eventually prog answer (returned (k + 1) lo m0 Q) m0) →
  (∀ f' x' c' mm', f' RSP = sp →
     (∀ q, caller_saved q = false → q ≠ RSP → f' q = f q) →
     changes lo sp mm mm' → Q (f' RAX) →
     eventually prog answer P (Machine (k + 1) f' x' c' mm' es)) →
  eventually prog answer P (Machine k f x c mm es).
Proof.
  intros Hcall Hl Hk Hsp H8 Hlo Hmap Hcallee Hcont.
  eapply ev_call with (sp := sp); [lia|done|done|lia|done|lia|done|].
  intros mm2 Hld2 Hc2. eapply ev_trans; [apply Hcallee; [| |exact Hc2|]|].
  - done.
  - intros q Hq. unfold upd. by destruct q.
  - constructor; simpl; [done|unfold upd; simpl; lia|].
    exists (k + 1). split; [exact Hld2|]. apply signed_small. simpl. lia.
  - intros [k3 f3 x3 c3 mm3 es3] (Hpc & [Hsp3 Hsv Hc3 Hes] & HQ). simpl in *. subst k3 es3.
    unfold upd in Hsp3, Hc3; simpl in Hsp3, Hc3. apply Hcont; [lia| | |done].
    + intros q Hq Hqs. rewrite Hsv by done. unfold upd. by destruct q.
    + eapply changes_trans; eapply changes_weaken; [exact Hc2|..|exact Hc3|lia|lia]; lia.
Qed.

(** A register saved around a call: [push r], [call l], [pop r]. *)
Lemma ev_save_call prog answer k f x c mm es P r l n sp lo Q :
  prog !! Z.to_nat k = Some (Ins (Push (R r))) →
  prog !! Z.to_nat (k + 1) = Some (Ins (Call l)) →
  prog !! Z.to_nat (k + 1 + 1) = Some (Ins (Pop r)) →
  find_label l prog 0 = Some n → 0 ≤ k < 2 ^ 61 → r ≠ RAX → r ≠ RSP →
  f RSP = sp → 16 ≤ sp < 2 ^ 64 - 8 → lo ≤ sp - 16 → mapped (sp - 16) sp mm →
  (∀ f' mm', f' RSP = sp - 16 → (∀ q, q ≠ RSP → f' q = f q) → changes (sp - 16) sp mm mm' →
     let m0 := Machine n f' x c mm' es in
     enters n (k + 1 + 1) m0 → eventually prog answer (returned (k + 1 + 1) lo m0 Q) m0) →
  (∀ f' x' c' mm', f' RSP = sp → f' r = trunc W64 (f r) →
     (∀ q, caller_saved q = false → q ≠ RSP → q ≠ r → f' q = f q) →
     changes lo sp mm mm' → Q (f' RAX) →
     eventually prog answer P (Machine (k + 1 + 1 + 1) f' x' c' mm' es)) →
  eventually prog answer P (Machine k f x c mm es).
Proof.
  intros Hpush Hcall Hpop Hl Hk HrA Hrs Hsp H16 Hlo Hmap Hcallee Hcont.
  eapply ev_push with (sp := sp); [lia|done|done|lia|eapply mapped_sub; [done|lia|lia]|].
  intros mm1 Hld1 Hc1.
  eapply ev_call_fun with (sp := sp - 8) (lo := lo) (Q := Q); [done|done|lia|done|lia|lia| | |].
  { eapply mapped_changes; [exact Hc1|]. eapply mapped_sub; [done|lia|lia]. }
  - intros f' mm' Hsp' Hf' Hc'. apply Hcallee; [lia| |].
    + intros q Hq. rewrite Hf' by done. unfold upd. by destruct q.
    + eapply changes_trans; eapply changes_weaken; [exact Hc1|..|exact Hc'|lia|lia]; lia.
  - intros f3 x3 c3 mm3 Hsp3 Hsv Hc3 HQ.
    eapply ev_pop with (sp := sp - 8); [lia|done|lia|lia| |].
    { erewrite load_changes; [exact Hld1|exact Hc3|lia..]. }
    apply Hcont.
    + unfold upd. rewrite (proj2 (reg_neq_spec r RSP)) by done. simpl. lia.
    + unfold upd. rewrite reg_eq_spec. by autorewrite with word.
    + intros q Hq Hqs Hqr. unfold upd. rewrite (proj2 (reg_neq_spec r q)) by done.
      rewrite (proj2 (reg_neq_spec RSP q)) by done. rewrite Hsv by done. unfold upd. by destruct q.
    + eapply changes_trans; eapply changes_weaken; [exact Hc1|..|exact Hc3|lia|lia]; lia.
    + unfold upd. by rewrite (proj2 (reg_neq_spec r RAX)).
Qed.

(** A call of the C library leaves what it likes in the registers it may
    change. *)
Lemma ev_library prog answer k f x c mm es P name :
  (k <? 0) = false → prog !! Z.to_nat k = Some (Ins (Call name)) →
  find_label name prog 0 = None →
  (let e := Called name [f RDI; f RSI; f RDX] in
   eventually prog answer P (Machine (k + 1)
     (λ r, if caller_saved r then answer (es ++ [e]) r else f r) x None mm (es ++ [e]))) →
  eventually prog answer P (Machine k f x c mm es).
Proof. intros Hk Hp Hl. eapply ev_ins; [exact Hk|exact Hp|]. cbn [exec]. by rewrite Hl. Qed.

(** ** Calls from C *)

(** With enough fuel, the result does not depend on the fuel. *)
Definition settles {A} (c : nat → comp machine A) (m : machine) (Q : A → machine → Prop) : Prop :=
  ∃ n a m', (∀ fuel, (n ≤ fuel)%nat → c fuel m = Ok (a, m')) ∧ Q a m'.

Lemma settles_bind {A B} (c : nat → comp machine A) (k : A → nat → comp machine B) m Q :
  settles c m (λ a m', settles (k a) m' Q) → settles (λ fuel, a ← c fuel; k a fuel) m Q.
Proof.
  intros (n & a & m1 & Hc & n' & b & m2 & Hk & HQ). exists (n `max` n')%nat, b, m2.
  split; [|done]. intros fuel Hf. unfold mbind, comp_bind. rewrite Hc by lia. apply Hk. lia.
Qed.

Lemma settles_ok {A} (c : comp machine A) m a m' (Q : A → machine → Prop) :
  c m = Ok (a, m') → Q a m' → settles (λ _, c) m Q.
Proof. intros Hc HQ. by exists 0%nat, a, m'. Qed.

Lemma settles_wp {A} (c : nat → comp machine A) m Q :
  settles c m Q → ∃ n, ∀ fuel, (n ≤ fuel)%nat → wp (c fuel) m Q.
Proof. intros (n & a & m' & Hc & HQ). exists n. intros fuel Hf. unfold wp. by rewrite Hc. Qed.

Lemma set_args_rsp args f : set_args arg_regs args f RSP = f RSP.
Proof. by do 6 (destruct args as [|? args]; [done|]). Qed.

(** A C program calls the first function of [prog], by its specification [R]:
    what is left to the caller, and [R]. *)
Lemma call_fun_settles prog answer args m lo (R : machine → Prop) :
  let sp := regs m RSP in
  8 ≤ sp < 2 ^ 64 - 8 → lo ≤ sp - 8 → mapped (sp - 8) sp (mem m) →
  (∀ m0, enters 0 EXIT m0 → regs m0 = upd RSP (sp - 8) (set_args arg_regs args (regs m)) →
     xmm m0 = xmm m → changes (sp - 8) sp (mem m) (mem m0) →
     eventually prog answer (λ m', pc m' = EXIT ∧ restores lo m0 m' ∧ R m') m0) →
  settles (call_fun prog answer args) m (λ _ m', R m' ∧
    regs m' RSP = sp ∧ changes lo sp (mem m) (mem m') ∧ events m' = events m).
Proof.
  intros sp H8 Hlo Hmap Hf. destruct m as [k f x c mm es]. cbn [regs mem xmm] in sp, Hmap, Hf.
  destruct (push_ok (set_args arg_regs args f) x c mm es (u64 EXIT) sp 0) as (mm' & Hp & Hl & Hc);
    [apply set_args_rsp|lia|done|].
  set (m0 := Machine 0 (upd RSP (sp - 8) (set_args arg_regs args f)) x c mm' es).
  destruct (ev_returns prog answer (λ m', restores lo m0 m' ∧ R m') m0)
    as (n & m' & Hr & [Hsp _ Hch Hes] & HR).
  { apply Hf; [|done|done|done]. constructor; simpl; [done|unfold upd; simpl; lia|].
    exists (u64 EXIT mod 2 ^ 64). split; [exact Hl|done]. }
  unfold m0, upd in Hsp, Hch, Hes. simpl in Hsp, Hch, Hes. exists n, tt, m'. split.
  - intros fuel Hn. unfold call_fun, mbind, comp_bind.
    change (enter_call args _) with (push (u64 EXIT) (Machine 0 (set_args arg_regs args f) x c mm es)).
    rewrite Hp. unfold run_call. fold m0. by rewrite (run_more _ _ _ _ _ _ Hr Hn).
  - split; [done|]. split; [lia|]. split; [|done].
    eapply changes_trans; eapply changes_weaken; [exact Hc|..|exact Hch|lia|lia]; lia.
Qed.

(** Its result, read from the machine it leaves. *)
Lemma settles_result {A} prog answer args (res : machine → A) m (Q : A → machine → Prop) :
  settles (call_fun prog answer args) m (λ _ m', Q (res m') m') →
  settles (λ fuel, call_fun prog answer args fuel;; m ← get; mret (res m)) m Q.
Proof.
  intros (n & [] & m' & Hc & HQ). exists n, (res m'), m'. split; [|done].
  intros fuel Hf. unfold mbind, comp_bind. by rewrite Hc.
Qed.

(** Calls keep machines well formed. *)
Section calls_wf.
Context (answer : list event → reg → Z).
Hypothesis answer_range : ∀ es r, 0 ≤ answer es r < 2 ^ 64.

Lemma set_args_range rs args f :
  (∀ r, 0 ≤ f r < 2 ^ 64) → ∀ r, 0 ≤ set_args rs args f r < 2 ^ 64.
Proof.
  intros Hf. revert args. induction rs as [|q rs IH]; intros [|a args] r; simpl; try apply Hf.
  unfold upd. case_match; [apply u64_range|apply IH].
Qed.

Lemma keeps_call_fun p args fuel : keeps_wf (λ _, True) (call_fun p answer args fuel).
Proof.
  unfold call_fun. eapply keeps_bind; [unfold enter_call; eapply keeps_bind|].
  - apply keeps_modify. intros m Hm. apply wf_set_pc; [|done]. apply wf_answers; [done|].
    apply set_args_range, Hm.
  - intros _ _. apply keeps_push.
  - intros _ _ m Hm. unfold run_call. destruct (run p answer fuel m) as [m'|f|] eqn:Hr; [|done..].
    split; [done|]. by eapply run_wf.
Qed.

End calls_wf.
