(* ===== verification/AsmExercises.v ===== *)
(** The assembly exercises of 02-computer-systems/03-low-level-programming and
    old/assembly that only compute: their code, the C programs that test them,
    and what they return.  A theorem on a function holds for any contents of
    registers, flags and memory beyond what the calling convention promises,
    and says that the function keeps the convention ([restores]). *)
From S2P Require Import Prelude Asm AsmLogic Pangram.
From Stdlib Require Import SpecFloat.
#[local] Open Scope Z_scope.

(** ** The functions *)

(** 02-sum-to-n/sum_to_n.asm. *)
Definition sum_to_n : program := asm:
  Lbl "sum_to_n";
    Op Xor W32 RAX RAX;
  Lbl ".loop";
    Op Add W32 RAX RDI;
    Dec W32 RDI;
    J G ".loop";
  Lbl ".done";
    Ret
end.

(** 02-sum-to-n/sum_to_n_2.asm. *)
Definition sum_to_n_2 : program := asm:
  Lbl "sum_to_n";
    Lea W32 RAX (Mem (Some RDI) None 1 1);
    Imul W32 RAX RDI;
    Shr W32 RAX 1;
    Ret
end.

(** 03-matrix-access/matrix.asm. *)
Definition index : program := asm:
  Lbl "index";
    Imul W32 RDX RCX;
    Op Add W32 RDX R8;
    Shl W32 RDX 2;
    Mov W32 RAX (Mem (Some RDI) (Some RDX) 1 0);
    Ret
end.

(** 04-x86-64-pangram/pangram.asm. *)
Definition MASK : Z := 0x07fffffe.
Definition pangram : program := asm:
  Lbl "pangram";
    Op Xor W64 RAX RAX;
    Op Xor W64 RCX RCX;
  Lbl ".loop";
    Mov W8 RCX (Mem (Some RDI) None 1 0);
    Inc W64 RDI;
    Test W8 RCX RCX;
    J E ".not_pangram";
    Cmp W8 RCX 64;
    J LE ".loop";
    Bts W32 RAX RCX;
    Op And W32 RAX MASK;
    Cmp W32 RAX MASK;
    J NE ".loop";
    Mov W32 RAX 1;
    Ret;
  Lbl ".not_pangram";
    Op Xor W32 RAX RAX;
    Ret
end.

(** 05-binary-convert/binary_convert.asm. *)
Definition binary_convert : program := asm:
  Lbl "binary_convert";
    Op Xor W32 RAX RAX;
    Op Xor W32 RCX RCX;
  Lbl ".next";
    Mov W8 RCX (Mem (Some RDI) None 1 0);
    Test W8 RCX RCX;
    J E ".done";
    Op And W8 RCX 1;
    Shl W32 RAX 1;
    Op Or W32 RAX RCX;
    Inc W64 RDI;
    Jmp ".next";
  Lbl ".done";
    Ret
end.

(** 06-cone-volume/cone.asm, with its constants at [PI] and [THIRD]. *)
Definition volume (PI THIRD : Z) : program := asm:
  Lbl "volume";
    Mulss 0 (X 0);
    Mulss 0 (FMem None None 1 PI);
    Mulss 0 (X 1);
    Mulss 0 (FMem None None 1 THIRD);
    Ret
end.

(** 07-low-level-recursion/fib.asm. *)
Definition fib : program := asm:
  Lbl "fib";
    Mov W32 RAX RDI;
    Cmp W32 RDI 1;
    J LE ".return";
    Dec W32 RDI;
    Push RDI;
    Call "fib";
    Pop RDI;
    Mov W32 RCX RAX;
    Dec W32 RDI;
    Push RCX;
    Call "fib";
    Pop RCX;
    Op Add W32 RAX RCX;
  Lbl ".return";
    Ret
end.

(** old/assembly/factorial.asm. *)
Definition factorial : program := asm:
  Lbl "factorial";
    Cmp W64 RDI 1;
    J G ".L1";
    Mov W64 RAX 1;
    Ret;
  Lbl ".L1";
    Push RDI;
    Dec W64 RDI;
    Call "factorial";
    Pop RDI;
    Imul W64 RAX RDI;
    Ret
end.

(** old/assembly/max_of_three.asm. *)
Definition max_of_three : program := asm:
  Lbl "max_of_three";
    Mov W64 RAX RDI;
    Cmp W64 RAX RSI;
    Cmov L W64 RAX RSI;
    Cmp W64 RAX RDX;
    Cmov L W64 RAX RDX;
    Ret
end.

(** old/assembly/sum.asm. *)
Definition sum : program := asm:
  Lbl "sum";
    Xorpd 0 0;
  Lbl ".next";
    Test W64 RSI RSI;
    J E ".done";
    Addsd 0 (FMem (Some RDI) (Some RSI) 8 (-8));
    Dec W64 RSI;
    Jmp ".next";
  Lbl ".done";
    Ret
end.

Section functions.
Context (answer : list event → reg → Z).

(** ** sum_to_n *)

(** [dec] and [jg] on a positive number. *)
Lemma dec_signed w z : - 2 ^ (bits w - 1) < signed w z →
  signed w (trunc w z - 1) = signed w z - 1.
Proof. unfold signed, trunc. destruct w; simpl bits; intros; dlia. Qed.

Lemma sum_loop (n : nat) : ∀ f x c mm es m ret Q,
  (∃ k, enters k ret m) → signed W32 (f RDI) = Z.of_nat (S n) →
  (∀ r, r ≠ RAX → r ≠ RDI → f r = regs m r) → mm = mem m → es = events m →
  Q (trunc W32 (trunc W32 (f RAX) + Z.of_nat (S n) * (Z.of_nat (S n) + 1) / 2)) →
  eventually sum_to_n answer (returned ret (regs m RSP) m Q) (Machine 2 f x c mm es).
Proof.
  induction n as [|n IH]; intros f x c mm es m ret Q Hm Hn Hf Hmm Hes HQ; ins; ins; ins.
  - jcc_cmp false; [change (signed W32 1) with 1; lia|].
    ins. eapply ev_return; [done|done|exact Hm|by apply Hf| |by rewrite Hmm|done|].
    + intros r Hr _. destruct r; try done; by apply Hf.
    + simpl. eapply eq_ind; [exact HQ|]. unfold trunc, signed in *. simpl bits in *. dlia.
  - jcc_cmp true; [change (signed W32 1) with 1; lia|].
    apply IH; try done.
    + simpl. rewrite signed_trunc, dec_signed by (simpl; lia). lia.
    + intros r H1 H2. destruct r; try done; by apply Hf.
    + simpl. eapply eq_ind; [exact HQ|]. rewrite trunc_trunc.
      assert (∀ k, 0 ≤ k → (k + 1) * (k + 1 + 1) / 2 = (k + 1) + k * (k + 1) / 2) as Hsum.
      { intros k Hk. replace ((k + 1) * (k + 1 + 1)) with (k * (k + 1) + (k + 1) * 2) by lia.
        rewrite Z.div_add by lia. lia. }
      replace (Z.of_nat (S (S n))) with (Z.of_nat (S n) + 1) by lia. rewrite Hsum by lia.
      set (t := Z.of_nat (S n) * (Z.of_nat (S n) + 1) / 2). clearbody t.
      unfold trunc, signed in *. simpl bits in *. dlia.
Qed.

(** What [sum_to_n] returns: for [n <= 0] the loop runs once. *)
Definition triangular (n : Z) : Z := if n <=? 0 then n else n * (n + 1) / 2.

Lemma sum_to_n_run m ret : enters 0 ret m →
  eventually sum_to_n answer
    (returned ret (regs m RSP) m (λ v, v = trunc W32 (triangular (signed W32 (regs m RDI))))) m.
Proof.
  intros Hm. enter Hm. ins. ins. unfold triangular. destruct (Z.leb_spec (signed W32 (f RDI)) 0) as [Hn|Hn].
  - ins. ins. ins. jcc_cmp false; [change (signed W32 1) with 1; lia|].
    ins. leave Hm. simpl. rewrite xor_self. unfold trunc, signed in *. simpl bits in *. dlia.
  - destruct (Z.to_nat (signed W32 (f RDI))) as [|n] eqn:Hnat; [lia|].
    eapply (sum_loop n _ _ _ _ _ (Machine 0 f x c mm es)); [by eexists| | |done|done|].
    + simpl. lia.
    + intros r H1 H2. by destruct r.
    + simpl. rewrite xor_self. replace (Z.of_nat (S n)) with (signed W32 (f RDI)) by lia. done.
Qed.

Lemma sum_to_n_2_run m ret : enters 0 ret m →
  eventually sum_to_n_2 answer
    (returned ret (regs m RSP) m
       (λ v, let n := signed W32 (regs m RDI) in v = trunc W32 (n * (n + 1)) / 2)) m.
Proof.
  intros Hm. enter Hm. ins. ins. ins. ins. leave Hm. simpl.
  assert (∀ a, 0 ≤ a < 2 ^ 32 → trunc W32 (Z.shiftr a 1) = a / 2) as Hshr.
  { intros a Ha. rewrite Z.shiftr_div_pow2 by lia. apply trunc_small. simpl. dlia. }
  rewrite (trunc_trunc W32), Hshr by apply (trunc_range W32). f_equal.
  replace (f RDI + 0 * 1) with (f RDI) by lia. rewrite Z.mul_comm. words.
Qed.

(** ** index *)

Lemma index_run m ret v : enters 0 ret m →
  let i := trunc W32 (signed W32 (regs m RDX) * signed W32 (regs m RCX) + signed W32 (regs m R8)) in
  load 4 (u64 (regs m RDI + trunc W32 (4 * i))) (mem m) = Some v →
  eventually index answer (returned ret (regs m RSP) m (λ r, r = trunc W32 v)) m.
Proof.
  intros Hm i Hv. enter Hm. ins. ins. ins. ins. cbn [regs mem] in i, Hv.
  assert (∀ z, trunc W32 z = i → u64 (f RDI + trunc W32 (Z.shiftl z 2) * 1 + 0) =
    u64 (f RDI + trunc W32 (4 * i))) as Hi.
  { intros z <-. f_equal. rewrite Z.mul_1_r, Z.add_0_r. f_equal.
    rewrite trunc_shiftl by done. words. }
  ins with (rewrite Hi, Hv by (subst i; words)).
  leave Hm. simpl. words.
Qed.

(** ** max_of_three *)

(** [cmp] and [cmovl]. *)
Lemma cmov_max a b : 0 ≤ a < 2 ^ 64 → 0 ≤ b < 2 ^ 64 →
  signed W64 (trunc W64
    (if holds L (Flags (trunc W64 (a - b) =? 0) (signed W64 (a - b) <? 0)
                   (negb (fits W64 (signed W64 a - signed W64 b)))) then b else a)) =
  signed W64 a `max` signed W64 b.
Proof.
  intros Ha Hb. change (negb (fits _ _)) with (alu_overflow Sub W64 a b).
  rewrite signed_trunc, (holds_sub L W64 a b) by done. cbn [compare].
  destruct (Z.ltb_spec (signed W64 a) (signed W64 b)); lia.
Qed.

Lemma max_of_three_run m ret : enters 0 ret m →
  eventually max_of_three answer
    (returned ret (regs m RSP) m
       (λ v, signed W64 v = (signed W64 (regs m RDI) `max` signed W64 (regs m RSI)) `max`
               signed W64 (regs m RDX))) m.
Proof.
  intros Hm. enter Hm. ins. ins. ins. ins. ins. ins. leave Hm. cbn [regs].
  rewrite (cmov_max (trunc W64 _) (trunc W64 _)) by apply (trunc_range W64).
  rewrite signed_trunc, cmov_max by apply (trunc_range W64). by autorewrite with word.
Qed.

(** ** binary_convert *)

(** The number that the low bits of the bytes are the digits of. *)
Definition binary_value (v : Z) (s : list Z) : Z := foldl (λ v b, 2 * v + b mod 2) v s.

(** A byte moved into the low byte of a register that holds one, and its low
    bit appended to a number. *)
Lemma byte_set c b : 0 ≤ c < 256 → 0 ≤ b < 256 → c - trunc W8 c + trunc W8 b = b.
Proof. intros Hc Hb. rewrite !(trunc_small W8) by (simpl; lia). lia. Qed.

Lemma low_bit b : 0 ≤ b < 256 →
  b - trunc W8 b + trunc W8 (Z.land (trunc W8 b) (trunc W8 1)) = b mod 2.
Proof.
  intros Hb. rewrite (trunc_small W8 b) by (simpl; lia).
  change (trunc W8 1) with (Z.ones 1). rewrite Z.land_ones by lia.
  change (2 ^ 1) with 2. rewrite trunc_small by (simpl bits; dlia). lia.
Qed.

Lemma append_bit v d : 0 ≤ d < 2 →
  trunc W32 (Z.lor (trunc W32 (trunc W32 (Z.shiftl (trunc W32 (trunc W32 v)) 1))) d) =
    trunc W32 (2 * v + d).
Proof.
  intros Hd. rewrite trunc_shiftl by lia. change (2 ^ 1) with 2. rewrite !trunc_trunc.
  assert (Z.lor (trunc W32 (2 * trunc W32 v)) d = trunc W32 (2 * trunc W32 v) + d) as ->.
  { symmetry. apply Z.add_nocarry_lor.
    assert (d = 0 ∨ d = Z.ones 1) as [-> | ->] by (change (Z.ones 1) with 1; lia); [apply Z.land_0_r|].
    rewrite Z.land_ones by lia. unfold trunc. simpl bits. dlia. }
  words.
Qed.

Lemma binary_loop (rest s : list Z) : ∀ v f x c mm es m ret Q,
  (∃ k, enters k ret m) → c_bytes s → string_at (f RDI) (terminated s rest) mm →
  f RAX = trunc W32 v → 0 ≤ f RCX < 256 →
  (∀ r, caller_saved r = false → f r = regs m r) → mm = mem m → es = events m →
  Q (trunc W32 (binary_value v s)) →
  eventually binary_convert answer (returned ret (regs m RSP) m Q) (Machine 3 f x c mm es).
Proof.
  induction s as [|b s IH]; intros v f x c mm es m ret Q Hm Hs Hstr Hv Hc Hf Hmm Hes HQ;
    unfold terminated in Hstr; simpl app in Hstr; ins.
  - ins with (rewrite (load_byte _ _ _ _ Hstr), byte_set by lia). ins.
    jcc_test true; [done|]. ins.
    leave Hm; [by apply Hf|by intros [] ? ?; try done; apply Hf|by rewrite Hmm|].
    simpl. by rewrite Hv.
  - apply Forall_cons in Hs as [Hb Hs].
    ins with (rewrite (load_byte _ _ _ _ Hstr), byte_set by lia). ins.
    jcc_test false; [by apply Z.eqb_neq, i8_nonzero|].
    ins with (rewrite low_bit by lia). ins. ins. ins. jmp.
    eapply (IH (2 * v + b mod 2)); try done; simpl.
    + eapply string_next; [exact Hstr|by destruct s].
    + rewrite Hv, (trunc_small W32 (b mod 2)) by (simpl; dlia). apply append_bit. dlia.
    + dlia.
    + intros []; try done; apply Hf.
Qed.

Lemma binary_convert_run s rest m ret : enters 0 ret m →
  c_bytes s → string_at (regs m RDI) (terminated s rest) (mem m) →
  eventually binary_convert answer
    (returned ret (regs m RSP) m (λ v, v = trunc W32 (binary_value 0 s))) m.
Proof.
  intros Hm Hs Hstr. enter Hm. ins. ins. ins.
  eapply (binary_loop rest s 0 _ _ _ _ _ (Machine 0 f x c mm es)); try done; simpl; try (by rewrite xor_self).
  - by eexists.
  - by intros [].
Qed.

(** ** pangram *)

Lemma lor_range n a b : 0 ≤ n → 0 ≤ a < 2 ^ n → 0 ≤ b < 2 ^ n → 0 ≤ Z.lor a b < 2 ^ n.
Proof.
  intros Hn Ha Hb. split; [by apply Z.lor_nonneg; lia|].
  assert (Z.lor a b = Z.lor a b mod 2 ^ n) as ->; [|by apply Z.mod_pos_bound; lia].
  rewrite <-Z.land_ones, Z.land_lor_distr_l, !Z.land_ones, !Z.mod_small by lia. done.
Qed.

(** [bts] by a letter sets the bit that the C program sets. *)
Lemma set_letter a b : 0 ≤ a < 2 ^ 32 → 0 < b < 256 → 64 < i8 b →
  trunc W32 (Z.setbit (trunc W32 a) (trunc W32 b mod bits W32)) =
    Z.lor a (bit32 (Z.land (i8 b) 0x1f)).
Proof.
  intros Ha Hb Hi. assert (i8 b = b) as Heq by (unfold i8 in *; dlia). rewrite Heq.
  rewrite (trunc_small W32 a), (trunc_small W32 b) by (simpl; lia). change 0x1f with (Z.ones 5).
  rewrite Z.land_ones by done. change (bits W32) with (2 ^ 5).
  assert (0 ≤ b mod 2 ^ 5 < 32) as Hr by (by apply Z.mod_pos_bound).
  rewrite bit32_spec by done. unfold Z.setbit. rewrite Z.shiftl_1_l.
  apply trunc_small, lor_range; [done|done|]. split; [lia|]. apply Z.pow_lt_mono_r; [done|done|apply Hr].
Qed.

(** The bits set, as compared with the mask. *)
Lemma and_mask a : 0 ≤ Z.land a MASK < 2 ^ 27.
Proof.
  change MASK with (Z.land MASK (Z.ones 27)). rewrite Z.land_assoc, Z.land_ones by done.
  by apply Z.mod_pos_bound.
Qed.

Lemma trunc_and_mask a : trunc W32 (Z.land (trunc W32 a) (trunc W32 MASK)) = Z.land a MASK.
Proof.
  assert (trunc W32 a = Z.land a (Z.ones 32)) as -> by by rewrite Z.land_ones.
  change (trunc W32 MASK) with MASK. rewrite <-Z.land_assoc.
  change (Z.land (Z.ones 32) MASK) with MASK. apply trunc_small.
  pose proof (and_mask a). simpl. lia.
Qed.

Lemma seen_masked a s : seen a s → seen (Z.land a MASK) s.
Proof.
  intros Hs k Hk. rewrite Z.land_spec, Hs by done.
  assert (forallb (λ k, Z.testbit MASK k) (seqZ 1 26) = true) as Hm by by vm_compute.
  rewrite forallb_seqZ in Hm. by rewrite Hm, andb_true_r by lia.
Qed.

Lemma mask_all a s : seen a s → (signed W32 (Z.land a MASK) =? signed W32 MASK) = covers 26 s.
Proof.
  intros Hs. rewrite !(signed_small W32) by (pose proof (and_mask a); unfold MASK in *; simpl; lia).
  by apply (mask_covers a s 26).
Qed.

Lemma pangram_loop (rest t : list Z) : ∀ s f x c mm es m ret Q,
  (∃ k, enters k ret m) → c_bytes t → string_at (f RDI) (terminated t rest) mm →
  seen (f RAX) s → covers 26 s = false → 0 ≤ f RAX < 2 ^ 32 → 0 ≤ f RCX < 256 →
  (∀ r, caller_saved r = false → f r = regs m r) → mm = mem m → es = events m →
  Q (Z.b2z (covers 26 (s ++ t))) →
  eventually pangram answer (returned ret (regs m RSP) m Q) (Machine 3 f x c mm es).
Proof.
  induction t as [|b t IH];
    intros s f x c mm es m ret Q Hm Ht Hstr Hseen Hcov Hbits Hc Hf Hmm Hes HQ;
    unfold terminated in Hstr; simpl app in Hstr; ins.
  - ins with (rewrite (load_byte _ _ _ _ Hstr), byte_set by lia). ins. ins.
    jcc_test true; [done|]. ins. ins.
    leave Hm; [by apply Hf|by intros [] ? ?; try done; apply Hf|by rewrite Hmm|].
    simpl. rewrite xor_self. by rewrite app_nil_r, Hcov in HQ.
  - apply Forall_cons in Ht as [Hb Ht].
    replace (s ++ b :: t) with ((s ++ [b]) ++ t) in HQ by (by rewrite <-app_assoc).
    ins with (rewrite (load_byte _ _ _ _ Hstr), byte_set by lia). ins. ins.
    jcc_test false; [by apply Z.eqb_neq, i8_nonzero|]. ins.
    destruct (Z.leb_spec (i8 b) 64) as [Hle|Hgt].
    + jcc_cmp true; [by apply Z.leb_le|].
      assert (seen (f RAX) (s ++ [b])) as Hseen' by (by apply seen_skip).
      eapply (IH (s ++ [b])); try done; simpl.
      * eapply string_next; [exact Hstr|by destruct t].
      * by rewrite <-(mask_all _ _ Hseen'), (mask_all _ _ Hseen).
      * lia.
      * intros []; try done; apply Hf.
    + jcc_cmp false; [by apply Z.leb_gt|].
      assert (seen (Z.lor (f RAX) (bit32 (Z.land (i8 b) 0x1f))) (s ++ [b])) as Hseen'
        by (apply seen_mark; [done|lia|done]).
      ins with (rewrite set_letter by done). ins with (rewrite trunc_and_mask). ins.
      destruct (covers 26 (s ++ [b])) eqn:Hcov'.
      * jcc_cmp false; [by rewrite mask_all with (s := s ++ [b]), Hcov'|]. ins.
        leave Hm; [by apply Hf|by intros [] ? ?; try done; apply Hf|by rewrite Hmm|].
        simpl. by rewrite covers_mono in HQ.
      * jcc_cmp true; [by rewrite mask_all with (s := s ++ [b]), Hcov'|].
        eapply (IH (s ++ [b])); try done; simpl.
        -- eapply string_next; [exact Hstr|by destruct t].
        -- by apply seen_masked.
        -- pose proof (and_mask (Z.lor (f RAX) (bit32 (Z.land (i8 b) 0x1f)))). unfold MASK in *. lia.
        -- lia.
        -- intros []; try done; apply Hf.
Qed.

Lemma pangram_run s rest m ret : enters 0 ret m →
  c_bytes s → string_at (regs m RDI) (terminated s rest) (mem m) →
  eventually pangram answer
    (returned ret (regs m RSP) m (λ v, v = Z.b2z (covers 26 s))) m.
Proof.
  intros Hm Hs Hstr. enter Hm. ins. ins. ins.
  eapply (pangram_loop rest s [] _ _ _ _ _ (Machine 0 f x c mm es)); try done; simpl;
    rewrite ?xor_self.
  - by eexists.
  - apply seen_nil.
  - done.
  - done.
  - by intros [].
Qed.

(** ** fib *)

Fixpoint fibonacci (n : nat) : Z :=
  match n with
  | O => 0
  | S k => match k with O => 1 | S j => fibonacci k + fibonacci j end
  end.

(** A call of [fib] with [n] uses 16 bytes of stack for each level below it. *)
Lemma fib_rec (n : nat) : ∀ f x c mm es ret lo m,
  m = Machine 0 f x c mm es → enters 0 ret m → signed W32 (f RDI) = Z.of_nat n →
  0 ≤ lo ≤ f RSP - 16 * Z.of_nat (n - 1) → mapped lo (f RSP) mm →
  eventually fib answer (returned ret lo m (λ v, v = trunc W32 (fibonacci n))) m.
Proof.
  induction (lt_wf n) as [n _ IH]. intros f x c mm es ret lo m -> Hm Hn Hlo Hmap.
  ins. ins. ins. destruct (decide (n ≤ 1)%nat) as [Hle|Hgt].
  { jcc_cmp true; [change (signed W32 1) with 1; lia|]. ins. leave Hm. simpl.
    assert (trunc W32 (trunc W32 (f RDI)) = trunc W32 (Z.of_nat n)) as -> by (rewrite <-Hn; words).
    destruct n as [|[|n]]; done || lia. }
  jcc_cmp false; [change (signed W32 1) with 1; lia|]. ins.
  pose proof (en_sp _ _ _ Hm) as Hsp. simpl in Hsp.
  eapply (ev_save_call _ _ _ _ _ _ _ _ _ RDI "fib" 0 (f RSP) lo
    (λ v, v = trunc W32 (fibonacci (n - 1)))); try done;
    [lia|lia|eapply mapped_sub; [exact Hmap|lia|lia]|..].
  - intros f' mm' Hsp' Hf' Hc' m0 Hm0. eapply (IH (n - 1)%nat); try done; try lia.
    + rewrite Hf' by done. simpl. rewrite signed_trunc, dec_signed by (simpl; lia). lia.
    + eapply mapped_changes; [exact Hc'|]. eapply mapped_sub; [done|lia|lia].
  - intros f1 x1 c1 mm1 Hsp1 Hdi1 Hf1 Hc1 Hax1. simpl in Hdi1, Hf1. norm_pc. ins. ins.
    assert (mapped lo (f RSP) mm1) as Hmap1 by (eapply mapped_changes; [exact Hc1|done]).
    eapply (ev_save_call _ _ _ _ _ _ _ _ _ RCX "fib" 0 (f RSP) lo
      (λ v, v = trunc W32 (fibonacci (n - 2)))); try done;
      [lia|lia|eapply mapped_sub; [exact Hmap1|lia|lia]|..].
    + intros f' mm' Hsp' Hf' Hc' m0 Hm0. eapply (IH (n - 2)%nat); try done; try lia.
      * rewrite Hf' by done. simpl. rewrite signed_trunc, Hdi1, trunc_32_64, trunc_trunc.
        assert (signed W32 (trunc W32 (f RDI) - 1) = signed W32 (f RDI) - 1) as Hd
          by (apply dec_signed; simpl; lia).
        rewrite dec_signed; rewrite Hd; simpl; lia.
      * eapply mapped_changes; [exact Hc'|]. eapply mapped_sub; [done|lia|lia].
    + intros f2 x2 c2 mm2 Hsp2 Hcx2 Hf2 Hc2 Hax2. simpl in Hcx2, Hf2. norm_pc. ins. ins.
      leave Hm.
      * intros r Hr Hne. destruct r; try done; cbn [regs]; rewrite Hf2, Hf1 by done; done.
      * eapply changes_trans; [exact Hc1|exact Hc2].
      * cbn [regs]. destruct n as [|[|n]]; [lia|lia|]. simpl in *. rewrite Hax2, Hcx2, Hax1.
        rewrite Z.add_comm, !Nat.sub_0_r. words.
Qed.

(** [factorial] recurs on the signed number. *)
Fixpoint fact (n : nat) : Z := match n with O => 1 | S k => Z.of_nat n * fact k end.

Lemma factorial_rec (n : nat) : ∀ f x c mm es ret lo m,
  m = Machine 0 f x c mm es → enters 0 ret m → signed W64 (f RDI) = Z.of_nat n →
  0 ≤ lo ≤ f RSP - 16 * Z.of_nat (n - 1) → mapped lo (f RSP) mm →
  eventually factorial answer (returned ret lo m (λ v, v = trunc W64 (fact n))) m.
Proof.
  induction n as [|n IH]; intros f x c mm es ret lo m -> Hm Hn Hlo Hmap; ins; ins.
  { jcc_cmp false; [change (signed W64 1) with 1; lia|]. ins. by leave Hm. }
  destruct (decide (n = 0)%nat) as [->|Hgt].
  { jcc_cmp false; [change (signed W64 1) with 1; lia|]. ins. by leave Hm. }
  jcc_cmp true; [change (signed W64 1) with 1; lia|]. ins.
  pose proof (en_sp _ _ _ Hm) as Hsp. simpl in Hsp.
  eapply ev_push with (sp := f RSP); [done|done|done|lia|eapply mapped_sub; [exact Hmap|lia|lia]|].
  intros mm1 Hld1 Hc1. norm_pc. ins.
  assert (mapped lo (f RSP) mm1) as Hmap1 by (eapply mapped_changes; [exact Hc1|done]).
  eapply (ev_call_fun _ _ _ _ _ _ _ _ _ "factorial" 0 (f RSP - 8) lo
    (λ v, v = trunc W64 (fact n))); try done;
    [lia|lia|eapply mapped_sub; [exact Hmap1|lia|lia]|..].
  - intros f' mm' Hsp' Hf' Hc' m0 Hm0. eapply (IH f'); try done.
    + rewrite Hf' by done. simpl. unfold upd. simpl.
      rewrite signed_trunc, dec_signed by (simpl; lia). lia.
    + lia.
    + eapply mapped_changes; [exact Hc'|]. eapply mapped_sub; [exact Hmap1|lia|lia].
  - intros f2 x2 c2 mm2 Hsp2 Hf2 Hc2 Hax2.
    eapply ev_pop with (sp := f RSP - 8); [done|done|done|lia| |].
    { erewrite load_changes; [exact Hld1|exact Hc2|lia..]. }
    norm_pc. ins. leave Hm.
    + simpl. unfold upd. simpl. lia.
    + intros r Hr Hne. destruct r; try done; cbn [regs]; unfold upd; simpl; rewrite Hf2 by done; done.
    + simpl. eapply changes_trans; eapply changes_weaken; [exact Hc1|..|exact Hc2|lia|lia]; lia.
    + cbn [regs]. unfold upd. cbn [reg_beq]. rewrite Hax2, !trunc_trunc.
      change (fact (S n)) with (Z.of_nat (S n) * fact n). rewrite <-Hn.
      rewrite Z.mul_comm. words.
Qed.

(** ** volume and sum *)

Lemma volume_run PI THIRD vp vt m ret : enters 0 ret m →
  load 4 (u64 PI) (mem m) = Some vp → load 4 (u64 THIRD) (mem m) = Some vt →
  eventually (volume PI THIRD) answer
    (λ m', pc m' = ret ∧ restores (regs m RSP) m m' ∧
       xmm m' 0%nat = mul32 (mul32 (mul32 (mul32 (xmm m 0%nat) (xmm m 0%nat)) (float32 vp))
                        (xmm m 1%nat)) (float32 vt)) m.
Proof.
  intros Hm Hp Ht. enter Hm. cbn [mem] in Hp, Ht.
  assert (∀ a, u64 (0 + 0 * 1 + a) = u64 a) as Hu by (intros; f_equal; lia).
  ins. ins. ins with (rewrite Hu, Hp). ins. ins with (rewrite Hu, Ht).
  eapply ev_return_to with (m := Machine 0 f x c mm es); try done; [by eexists|].
  intros m' Hpc Hr _ Hx. split; [done|]. split; [done|]. by rewrite Hx.
Qed.

(** An array of words of 8 bytes. *)
Definition words_at (a : Z) (l : list Z) (m : gmap Z Z) : Prop :=
  ∀ i z, l !! i = Some z → load 8 (u64 (a + 8 * Z.of_nat i)) m = Some z.

(** The last number is added first. *)
Definition float_sum (acc : spec_float) (l : list Z) : spec_float :=
  foldl add64 acc (float64 <$> reverse l).

Lemma sum_loop_run l : ∀ f x c mm es m ret,
  (∃ k, enters k ret m) → words_at (f RDI) l mm → f RSI = Z.of_nat (length l) →
  f RSI < 2 ^ 64 → (∀ r, caller_saved r = false → f r = regs m r) → mm = mem m → es = events m →
  eventually sum answer
    (λ m', pc m' = ret ∧ restores (regs m RSP) m m' ∧ xmm m' 0%nat = float_sum (x 0%nat) l)
    (Machine 2 f x c mm es).
Proof.
  induction l as [|z l IH] using rev_ind; intros f x c mm es m ret Hm Hl Hn Hlt Hf Hmm Hes; ins; ins.
  - jcc_test true; [by rewrite Hn|]. ins.
    eapply ev_return_to with (m := m); try done; [by apply Hf|by intros [] ? ?; try done; apply Hf|by rewrite Hmm|].
    intros m' Hpc Hr _ Hx. split; [done|]. split; [done|]. by rewrite Hx.
  - rewrite length_app in Hn. simpl in Hn. jcc_test false.
    { apply Z.eqb_neq. unfold signed. simpl bits. dlia. }
    assert (load 8 (u64 (f RDI + f RSI * 8 + -8)) mm = Some z) as Hz.
    { rewrite <-(Hl (length l) z) by (by rewrite lookup_app_r, Nat.sub_diag by lia).
      f_equal. f_equal. lia. }
    ins with (rewrite Hz). ins. jmp.
    eapply ev_mono; [eapply (IH _ _ _ _ _ m ret); try done; simpl|].
    + intros i y Hy. apply Hl. by apply lookup_app_l_Some.
    + rewrite (trunc_small W64 (f RSI)), trunc_small by (simpl; lia). lia.
    + apply trunc_range.
    + intros []; try done; apply Hf.
    + intros m' (Hpc & Hr & Hx). split; [done|]. split; [done|]. rewrite Hx. simpl.
      unfold float_sum. by rewrite reverse_snoc.
Qed.

Lemma sum_run l m ret : enters 0 ret m →
  words_at (regs m RDI) l (mem m) → regs m RSI = Z.of_nat (length l) → regs m RSI < 2 ^ 64 →
  eventually sum answer
    (λ m', pc m' = ret ∧ restores (regs m RSP) m m' ∧
       xmm m' 0%nat = float_sum (S754_zero false) l) m.
Proof.
  intros Hm Hl Hn Hlt. enter Hm. ins. ins with (change (0 =? 0)%nat with true; run_exec).
  apply (sum_loop_run l f (λ r, if (r =? 0)%nat then S754_zero false else x r) c mm es
    (Machine 0 f x c mm es) ret); try done. by eexists.
Qed.

(** [fib] of a negative number is the number. *)
Definition fib_value (n : Z) : Z := if n <? 0 then n else fibonacci (Z.to_nat n).

Lemma fib_run m lo ret : enters 0 ret m →
  let n := signed W32 (regs m RDI) in
  0 ≤ lo ≤ regs m RSP - 16 * Z.max 0 (n - 1) → mapped lo (regs m RSP) (mem m) →
  eventually fib answer (returned ret lo m (λ v, v = trunc W32 (fib_value n))) m.
Proof.
  intros Hm n Hlo Hmap. unfold fib_value. destruct (Z.ltb_spec n 0) as [Hn|Hn].
  - enter Hm. subst n. cbn [regs] in Hn |- *. ins. ins. ins.
    jcc_cmp true; [change (signed W32 1) with 1; lia|]. ins. leave Hm. simpl. words.
  - destruct m as [k f x c mm es]. pose proof (en_pc _ _ _ Hm) as Hk. simpl in *. subst k.
    apply (fib_rec _ f x c mm es); try done; [subst n|]; lia.
Qed.

Lemma factorial_run m lo ret : enters 0 ret m →
  let n := signed W64 (regs m RDI) in
  0 ≤ lo ≤ regs m RSP - 16 * Z.max 0 (n - 1) → mapped lo (regs m RSP) (mem m) →
  eventually factorial answer (returned ret lo m (λ v, v = trunc W64 (fact (Z.to_nat n)))) m.
Proof.
  intros Hm n Hlo Hmap. destruct (Z.ltb_spec n 0) as [Hn|Hn].
  - rewrite Z2Nat.nonpos by lia. enter Hm. subst n. cbn [regs] in Hn |- *. ins. ins.
    jcc_cmp false; [change (signed W64 1) with 1; lia|]. ins. by leave Hm.
  - destruct m as [k f x c mm es]. pose proof (en_pc _ _ _ Hm) as Hk. simpl in *. subst k.
    apply (factorial_rec _ f x c mm es); try done; [subst n|]; lia.
Qed.
End functions.
