(* ===== verification/AsmTests.v ===== *)
(** What the functions of [AsmExercises.v] return to a C program, and the
    [main] of the programs that test them: tests.c in the directories of
    02-computer-systems/03-low-level-programming.  A call is [c_call]: the
    arguments in registers, the return address on the stack, and the function
    run until it returns.  The strings of a program are at addresses [lit]
    that the linker chooses. *)
From S2P Require Import Prelude Asm AsmLogic Pangram AsmExercises.
From Stdlib Require Import SpecFloat.
#[local] Open Scope Z_scope.

(** ** The test programs *)

Section programs.
Context (answer : list event → reg → Z).

#[local] Abbreviation M := (comp machine).

(** 02-sum-to-n/tests.c, linked with either version of the function. *)
Definition sum_to_n_main (p : program) (fuel : nat) : M unit :=
  let sum_to_n_is n v := assert_call p answer [n] v fuel in
  sum_to_n_is 0 0;;
  sum_to_n_is 1 1;;
  sum_to_n_is 3 6;;
  sum_to_n_is 10 55;;
  sum_to_n_is 1000 500500.

(** 07-low-level-recursion/tests.c. *)
Definition fib_main (fuel : nat) : M unit :=
  let fib_is n v := assert_call fib answer [n] v fuel in
  fib_is 0 0;;
  fib_is 1 1;;
  fib_is 2 1;;
  fib_is 3 2;;
  fib_is 10 55;;
  fib_is 12 144.

(** 04-x86-64-pangram/tests.c. *)
Context (lit : list Z → Z).

Definition pangram_main (fuel : nat) : M unit :=
  let pangram_is s v := assert_call pangram answer [lit s] v fuel in
  pangram_is (bytes_of "") 0;;
  pangram_is (bytes_of "abcdefghijklmnopqrstuvwxyz") 1;;
  pangram_is (bytes_of "the quick brown fox jumps over teh lazy dog") 1;;
  pangram_is (bytes_of "abc, def! ghi... jkl25; mnopqrstuvwxyz") 1;;
  pangram_is (bytes_of "abcdefghijklmnopqrstuvwxy") 0;;
  pangram_is (bytes_of "ABCdefGHIjklMNOpqrSTUvwxYZ") 1;;
  pangram_is (bytes_of "!bcdefghijklmnopqrstuvwxyz") 0;;
  pangram_is (1 :: bytes_of "bcdefghijklmnopqrstuvwxyz") 0;;
  pangram_is (7 :: bytes_of "abcdefghijklmnopqrstuvwxyz") 1.

(** 05-binary-convert/tests.c. *)
Definition binary_convert_main (fuel : nat) : M unit :=
  let binary_convert_is s v := assert_call binary_convert answer [lit s] v fuel in
  binary_convert_is (bytes_of "0") 0;;
  binary_convert_is (bytes_of "1") 1;;
  binary_convert_is (bytes_of "110") 6;;
  binary_convert_is (bytes_of "1111") 15;;
  binary_convert_is (bytes_of "10101101") 173.

(** 03-matrix-access/tests.c; the arrays are in the frame of [main], where the
    compiler puts them. *)
Context (matrix1 matrix2 matrix3 : Z).

Fixpoint store_array (w : width) (a : Z) (l : list Z) : M unit :=
  match l with
  | [] => mret tt
  | v :: l => store_mem w a (trunc w v);; store_array w (a + Z.of_nat (nbytes w)) l
  end.

Definition matrix_main (fuel : nat) : M unit :=
  let index_is m rows cols rindex cindex v :=
    assert_call index answer [m; rows; cols; rindex; cindex] v fuel in
  store_array W32 matrix1 [1; 2; 3; 4];;
  index_is matrix1 1 4 0 2 3;;
  store_array W32 matrix2 [1; 2; 3; 4];;
  index_is matrix2 4 1 1 0 2;;
  store_array W32 matrix3 [1; 2; 3; 4; 5; 6];;
  index_is matrix3 2 3 1 2 6.

(** 06-cone-volume/tests.c; [PI] and [THIRD] are the addresses of the
    constants of cone.asm.  A literal [n / d] is rounded to a [float] or to a
    [double]. *)
Context (PI THIRD : Z).

Definition lit32 (n d : Z) : spec_float :=
  SFdiv 24 128 (binary_normalize 24 128 n 0 false) (binary_normalize 24 128 d 0 false).
Definition lit64 (n d : Z) : spec_float :=
  SFdiv 53 1024 (binary_normalize 53 1024 n 0 false) (binary_normalize 53 1024 d 0 false).

(** A [float] as a [double]. *)
Definition widen (x : spec_float) : spec_float :=
  match x with
  | S754_finite s m e => binary_normalize 53 1024 (if s then Z.neg m else Z.pos m) e s
  | _ => x
  end.

Definition float_near (a b : spec_float) : bool :=
  SFltb (widen (SFabs (SFsub 24 128 a b))) (lit64 1 100).

Definition assert_volume (v radius height : spec_float) (fuel : nat) : M unit :=
  modify (λ m, set_xmm 1 height (set_xmm 0 radius m));;
  r ← c_callf (volume PI THIRD) answer [] fuel;
  c_assert (float_near v r).

Definition cone_main (fuel : nat) : M unit :=
  assert_volume (lit32 0 1) (lit32 0 1) (lit32 0 1) fuel;;
  assert_volume (lit32 209 100) (lit32 1 1) (lit32 2 1) fuel;;
  assert_volume (lit32 17423 100) (lit32 55 10) (lit32 55 10) fuel;;
  assert_volume (lit32 905 100) (lit32 1234 1000) (lit32 5678 1000) fuel.

(** The programs of old/assembly print what a function returns; the result
    is what is printed. *)

(** call_factorial.c. *)
Definition factorial_main (fuel : nat) : M (list Z) :=
  mapM (λ n, c_call64 factorial answer [n] fuel) [1; 2; 3; 4; 5; 6; 7; 8].

(** call_max_of_three.c; [%ld] prints a signed number. *)
Definition max_of_three_main (fuel : nat) : M (list Z) :=
  mapM (λ l, r ← c_call64 max_of_three answer l fuel; mret (signed W64 r))
    [[1; 2; 3]; [1; 2; -3]; [1; -2; -3]; [-1; -2; -3]].

(** call_sum.c: the doubles 1.0, 2.1, 3.3 and 4.5 at [test]. *)
Context (test : Z).

Definition test_words : list Z :=
  [0x3ff0000000000000; 0x4000cccccccccccd; 0x400a666666666666; 0x4012000000000000].

Definition sum_main (fuel : nat) : M (list spec_float) :=
  store_array W64 test test_words;;
  mapM (λ n, c_callf sum answer [test; n] fuel) [0; 1; 2; 3; 4].
End programs.

(** ** Rules *)

(** An assertion on a call, and the ones that follow. *)
Lemma assert_call_settles prog answer args v m lo Q :
  let sp := regs m RSP in
  8 ≤ sp < 2 ^ 64 - 8 → lo ≤ sp - 8 → mapped (sp - 8) sp (mem m) →
  (∀ m0, enters 0 EXIT m0 → regs m0 = upd RSP (sp - 8) (set_args arg_regs args (regs m)) →
     changes (sp - 8) sp (mem m) (mem m0) →
     eventually prog answer (returned EXIT lo m0 (λ r, i32 r = v)) m0) →
  (∀ m', regs m' RSP = sp → changes lo sp (mem m) (mem m') → events m' = events m → Q m') →
  settles (assert_call prog answer args v) m (λ _, Q).
Proof.
  intros sp H8 Hlo Hmap Hf HQ. apply (settles_bind _ (λ r _, c_assert (r =? v))).
  apply (settles_result _ _ _ (λ m, i32 (regs m RAX))).
  destruct (call_fun_settles prog answer args m lo (λ m', i32 (regs m' RAX) = v) H8 Hlo Hmap)
    as (n & [] & m' & Hc & Hr & Hsp & Hch & Hes).
  { intros m0 Hm0 Hr0 _ Hc0. by apply Hf. }
  exists n, tt, m'. split; [done|]. eapply settles_ok; [|by apply HQ].
  by rewrite Hr, Z.eqb_refl.
Qed.

Lemma settles_seq {A} (c : nat → comp machine unit) (k : nat → comp machine A) m Q :
  settles c m (λ _ m', settles k m' Q) → settles (λ fuel, c fuel;; k fuel) m Q.
Proof. apply (settles_bind c (λ _, k)). Qed.

(** What the programs need of the machine they start with, and keep: [n]
    bytes of stack. *)
Definition stack (n : Z) (m : machine) : Prop :=
  0 ≤ regs m RSP - n ∧ regs m RSP < 2 ^ 64 - 8 ∧ mapped (regs m RSP - n) (regs m RSP) (mem m).

Lemma stack_keeps n m m' lo hi : stack n m → regs m' RSP = regs m RSP →
  changes lo hi (mem m) (mem m') → stack n m'.
Proof.
  intros (H1 & H2 & H3) Hsp Hc. unfold stack. rewrite Hsp. split; [done|]. split; [done|].
  by eapply mapped_changes.
Qed.

(** A function of one [int] between [lo] and [hi] that uses [n] bytes of
    stack and returns [F] of it. *)
Definition int_function (p : program) (answer : list event → reg → Z) (n lo hi : Z)
    (F : Z → Z) : Prop := ∀ m, let a := signed W32 (regs m RDI) in
  enters 0 EXIT m → lo ≤ a ≤ hi → stack n m →
  eventually p answer (returned EXIT (regs m RSP - n) m (λ r, r = trunc W32 (F a))) m.

Lemma assert_int_settles p answer n lo hi F (a v : Z) m (Q : machine → Prop) :
  int_function p answer n lo hi F → 0 ≤ n → - 2 ^ 31 ≤ lo → hi < 2 ^ 31 →
  lo ≤ a ≤ hi → i32 (trunc W32 (F a)) = v → stack (n + 8) m →
  (∀ m', stack (n + 8) m' → events m' = events m → Q m') →
  settles (assert_call p answer [a] v) m (λ _, Q).
Proof.
  intros Hf Hn Hlo Hhi Ha Hv Hst HQ. pose proof Hst as (H1 & H2 & H3).
  apply (assert_call_settles _ _ _ _ _ (regs m RSP - (n + 8)));
    [lia|lia|eapply mapped_sub; [done|lia|lia]|..].
  - intros m0 Hm0 Hr Hc.
    assert (signed W32 (regs m0 RDI) = a) as Hsa.
    { rewrite Hr. simpl. unfold upd. simpl. unfold u64, signed. simpl bits. dlia. }
    assert (regs m0 RSP = regs m RSP - 8) as Hsp by (by rewrite Hr).
    eapply ev_mono; [apply Hf; [done|lia|]|].
    + unfold stack. rewrite Hsp. split; [lia|]. split; [lia|].
      eapply mapped_changes; [exact Hc|]. eapply mapped_sub; [done|lia|lia].
    + intros m' (Hpc & Hre & Hax). split; [done|]. split; [|by rewrite Hax, Hsa].
      rewrite Hsp in Hre. by replace (regs m RSP - (n + 8)) with (regs m RSP - 8 - n) by lia.
  - intros m' Hsp Hc Hes. apply HQ; [|done]. by eapply stack_keeps.
Qed.

(** ** What the functions return *)

Section functions.
Context (answer : list event → reg → Z).

Lemma half_product n : trunc W32 (n * (n + 1)) / 2 = (n * (n + 1) / 2) mod 2 ^ 31.
Proof.
  assert (∃ t, n * (n + 1) = t * 2) as (t & ->).
  { destruct (Z.Even_or_Odd n) as [[k ->]|[k ->]];
      [exists (k * (2 * k + 1))|exists ((2 * k + 1) * (k + 1))]; lia. }
  rewrite Z.div_mul by done. unfold trunc. simpl bits. dlia.
Qed.

(** An [int] holds a number that is its own remainder. *)
Lemma i32_fits t : 0 ≤ t → i32 (trunc W32 t) = t ↔ t ≤ INT_MAX.
Proof.
  intros Ht. unfold i32, trunc, INT_MAX. simpl bits. split; intros; dlia.
Qed.

(** Sums that an [int] holds. *)
Lemma triangular_fits n : 0 ≤ n < 2 ^ 31 → n * (n + 1) / 2 ≤ INT_MAX ↔ n ≤ 65535.
Proof.
  intros Hn. unfold INT_MAX. split; intros H.
  - apply Z.nlt_ge. intros Hlt.
    assert (65536 * 65537 / 2 ≤ n * (n + 1) / 2) by (apply Z.div_le_mono; nia).
    change (65536 * 65537 / 2) with 2147516416 in *. lia.
  - assert (n * (n + 1) / 2 ≤ 65535 * 65536 / 2) by (apply Z.div_le_mono; nia).
    change (65535 * 65536 / 2) with 2147450880 in *. lia.
Qed.

Lemma sum_to_n_int : int_function sum_to_n answer 0 (-2 ^ 31) (2 ^ 31 - 1) triangular.
Proof. intros m a Hm _ _. rewrite Z.sub_0_r. by apply sum_to_n_run. Qed.

Lemma sum_to_n_2_int :
  int_function sum_to_n_2 answer 0 (-2 ^ 31) (2 ^ 31 - 1) (λ n, (n * (n + 1) / 2) mod 2 ^ 31).
Proof.
  intros m a Hm _ _. rewrite Z.sub_0_r. eapply ev_mono; [by apply sum_to_n_2_run|].
  intros m' (Hpc & Hr & Hax). split; [done|]. split; [done|]. cbv zeta in Hax.
  rewrite Hax, half_product. symmetry. apply trunc_small. simpl. dlia.
Qed.

Lemma fib_int : int_function fib answer 176 (-2 ^ 31) 12 fib_value.
Proof.
  intros m a Hm Ha (H1 & H2 & H3). apply fib_run; [done|lia|done].
Qed.

(** ** The programs pass *)

(** One assertion. *)
Ltac test spec :=
  try (apply settles_seq);
  eapply assert_int_settles;
    [apply spec|done|done|done|done|by vm_compute|eassumption|intros ? ? ?].

Lemma sum_to_n_main_passes m : stack (0 + 8) m →
  settles (sum_to_n_main answer sum_to_n) m (λ _ m', events m' = events m) ∧
  settles (sum_to_n_main answer sum_to_n_2) m (λ _ m', events m' = events m).
Proof.
  intros Hst. split; unfold sum_to_n_main; cbv zeta.
  - do 5 test sum_to_n_int. congruence.
  - do 5 test sum_to_n_2_int. congruence.
Qed.

Lemma fib_main_passes m : stack (176 + 8) m →
  settles (fib_main answer) m (λ _ m', events m' = events m).
Proof. intros Hst. unfold fib_main. cbv zeta. do 6 test fib_int. congruence. Qed.

(** *** Strings *)

(** The literals [l] are in memory, apart from the stack that a call uses. *)
Definition literals (lit : list Z → Z) (l : list (list Z)) (m : machine) : Prop :=
  ∀ s, s ∈ l → string_at (lit s) (terminated s []) (mem m) ∧
    (lit s + Z.of_nat (length s) + 1 ≤ regs m RSP - 8 ∨ regs m RSP ≤ lit s).

Lemma literals_keep lit l m m' : literals lit l m → regs m' RSP = regs m RSP →
  changes (regs m RSP - 8) (regs m RSP) (mem m) (mem m') → literals lit l m'.
Proof.
  intros Hl Hsp Hc s Hs. destruct (Hl s Hs) as [Hstr Hd]. rewrite Hsp. split; [|done].
  eapply string_at_changes; [exact Hc| |exact Hstr]. unfold terminated. rewrite length_app. simpl. lia.
Qed.

(** A function that reads a string and returns [F] of it. *)
Definition string_function (p : program) (F : list Z → Z) : Prop := ∀ m s,
  enters 0 EXIT m → c_bytes s → string_at (regs m RDI) (terminated s []) (mem m) →
  eventually p answer (returned EXIT (regs m RSP) m (λ r, r = F s)) m.

Lemma assert_string_settles p F lit l s v m (Q : machine → Prop) :
  string_function p F → stack (0 + 8) m → literals lit l m → s ∈ l →
  forallb (λ c, (0 <? c) && (c <? 256)) s = true → i32 (F s) = v →
  (∀ m', stack (0 + 8) m' → literals lit l m' → events m' = events m → Q m') →
  settles (assert_call p answer [lit s] v) m (λ _, Q).
Proof.
  intros Hf Hst Hlit Hs Hb Hv HQ. pose proof Hst as (H1 & H2 & H3).
  apply (assert_call_settles _ _ _ _ _ (regs m RSP - 8)); [lia|lia|done|..].
  - intros m0 Hm0 Hr Hc. destruct (Hlit s Hs) as [Hstr Hd].
    assert (regs m0 RSP = regs m RSP - 8) as Hsp by (by rewrite Hr).
    eapply ev_mono; [apply (Hf m0 s Hm0)|].
    + apply Forall_forall. intros c Hc'. rewrite forallb_forall in Hb.
      apply list_elem_of_In in Hc'. specialize (Hb c Hc'). lia.
    + rewrite Hr. unfold upd. simpl. unfold upd. simpl. pose proof (str_range _ _ _ Hstr) as Hrange.
      unfold terminated in Hrange. rewrite length_app in Hrange. simpl in Hrange.
      rewrite u64_small by lia. eapply string_at_changes; [exact Hc| |exact Hstr].
      unfold terminated. rewrite length_app. simpl. lia.
    + intros m' (Hpc & Hre & Hax). split; [done|]. split; [by rewrite Hsp in Hre|by rewrite Hax].
  - intros m' Hsp Hc Hes. apply HQ; [by eapply stack_keeps|by eapply literals_keep|done].
Qed.

Lemma pangram_string : string_function pangram (λ s, Z.b2z (covers 26 s)).
Proof. intros m s Hm Hs Hstr. by eapply pangram_run. Qed.

Lemma binary_convert_string : string_function binary_convert (λ s, trunc W32 (binary_value 0 s)).
Proof. intros m s Hm Hs Hstr. by eapply binary_convert_run. Qed.

Ltac test_string spec :=
  try (apply settles_seq);
  eapply assert_string_settles;
    [apply spec|eassumption|eassumption
    |repeat first [apply list_elem_of_here | apply list_elem_of_further]
    |by vm_compute|by vm_compute|intros ? ? ? ?].

Definition pangram_literals : list (list Z) :=
  [bytes_of ""; bytes_of "abcdefghijklmnopqrstuvwxyz";
   bytes_of "the quick brown fox jumps over teh lazy dog";
   bytes_of "abc, def! ghi... jkl25; mnopqrstuvwxyz"; bytes_of "abcdefghijklmnopqrstuvwxy";
   bytes_of "ABCdefGHIjklMNOpqrSTUvwxYZ"; bytes_of "!bcdefghijklmnopqrstuvwxyz";
   1 :: bytes_of "bcdefghijklmnopqrstuvwxyz"; 7 :: bytes_of "abcdefghijklmnopqrstuvwxyz"].

Lemma pangram_main_passes lit m : stack (0 + 8) m → literals lit pangram_literals m →
  settles (pangram_main answer lit) m (λ _ m', events m' = events m).
Proof.
  intros Hst Hlit. unfold pangram_main. cbv zeta. do 9 test_string pangram_string. congruence.
Qed.

Definition binary_literals : list (list Z) :=
  bytes_of <$> ["0"; "1"; "110"; "1111"; "10101101"]%string.

Lemma binary_convert_main_passes lit m : stack (0 + 8) m → literals lit binary_literals m →
  settles (binary_convert_main answer lit) m (λ _ m', events m' = events m).
Proof.
  intros Hst Hlit. unfold binary_convert_main. cbv zeta.
  do 5 test_string binary_convert_string. congruence.
Qed.

(** *** Matrices *)

(** An array of [n] elements can be stored at [a], above the stack. *)
Definition frame (w : width) (a n : Z) (m : machine) : Prop :=
  let size := Z.of_nat (nbytes w) * n in
  regs m RSP ≤ a ∧ a + size ≤ 2 ^ 64 ∧ mapped a (a + size) (mem m).

Definition array_at (w : width) (a : Z) (l : list Z) (m : gmap Z Z) : Prop :=
  ∀ i v, l !! i = Some v →
    load (nbytes w) (a + Z.of_nat (nbytes w) * Z.of_nat i) m = Some (trunc w v).

Lemma bits_bytes w : 2 ^ bits w = 256 ^ Z.of_nat (nbytes w).
Proof. by destruct w. Qed.

Lemma store_array_ok w l : ∀ a m, let size := Z.of_nat (nbytes w) * Z.of_nat (length l) in
  0 ≤ a → a + size ≤ 2 ^ 64 → mapped a (a + size) (mem m) →
  ∃ m', store_array w a l m = Ok (tt, m') ∧ regs m' = regs m ∧ events m' = events m ∧
    changes a (a + size) (mem m) (mem m') ∧ array_at w a l (mem m').
Proof.
  induction l as [|v l IH]; intros a m size Ha Hl Hm; [by exists m|].
  assert (size = Z.of_nat (nbytes w) + Z.of_nat (nbytes w) * Z.of_nat (length l)) as Hsize
    by (subst size; simpl length; lia).
  clearbody size. subst size.
  destruct (store_ok (nbytes w) a (trunc w v) (mem m)) as (x & Hs & Hx & Hc);
    [lia|lia|eapply mapped_sub; [exact Hm|lia|lia]|].
  destruct (IH (a + Z.of_nat (nbytes w)) (set_mem x m)) as (m' & Hm' & Hr & He & Hc' & Hi);
    [lia|lia| |].
  { eapply mapped_changes; [exact Hc|]. eapply mapped_sub; [exact Hm|lia|lia]. }
  exists m'. split; [|split; [done|split; [done|split]]].
  - simpl. unfold mbind, comp_bind, store_mem. by rewrite Hs.
  - eapply changes_trans; [eapply changes_weaken; [exact Hc|lia|lia]|].
    eapply changes_weaken; [exact Hc'|lia|lia].
  - intros [|i] z Hz; simpl in Hz.
    + injection Hz as <-. rewrite Z.mul_0_r, Z.add_0_r.
      erewrite load_changes; [|exact Hc'|lia|lia|lia].
      simpl mem. rewrite Hx. f_equal. rewrite <-bits_bytes. apply (trunc_trunc w).
    + rewrite <-(Hi i z Hz). f_equal. lia.
Qed.

(** The stack and the frames of [m] are those of [m']. *)
Definition same_frames (m m' : machine) : Prop :=
  regs m' RSP = regs m RSP ∧ ∀ x, is_Some (mem m !! x) → is_Some (mem m' !! x).

Lemma same_frames_changes lo hi m m' :
  regs m' RSP = regs m RSP → changes lo hi (mem m) (mem m') → same_frames m m'.
Proof. by intros Hsp [_ Hd]. Qed.

Lemma stack_same n m m' : same_frames m m' → stack n m → stack n m'.
Proof.
  intros [Hsp Hd] (H1 & H2 & H3). unfold stack. rewrite Hsp. split; [done|]. split; [done|].
  intros x Hx. by apply Hd, H3.
Qed.

Lemma frame_same w a n m m' : same_frames m m' → frame w a n m → frame w a n m'.
Proof.
  intros [Hsp Hd] (H1 & H2 & H3). unfold frame. rewrite Hsp. split; [done|]. split; [done|].
  intros x Hx. by apply Hd, H3.
Qed.

Lemma store_settles {A} w a l m (k : nat → comp machine A) Q :
  stack (0 + 8) m → frame w a (Z.of_nat (length l)) m →
  (∀ m', same_frames m m' → array_at w a l (mem m') → events m' = events m → settles k m' Q) →
  settles (λ fuel, store_array w a l;; k fuel) m Q.
Proof.
  intros (H1 & H2 & H3) (F1 & F2 & F3) Hk.
  destruct (store_array_ok w l a m) as (m' & Hm & Hr & He & Hc & Hi); [lia|done|done|].
  apply settles_seq. eapply settles_ok; [exact Hm|]. apply Hk; [|done|done].
  eapply same_frames_changes; [by rewrite Hr|exact Hc].
Qed.

Lemma assert_index_settles a l rows cols rindex cindex v m (Q : machine → Prop) i :
  array_at W32 a l (mem m) → stack (0 + 8) m → frame W32 a (Z.of_nat (length l)) m →
  trunc W32 (signed W32 cols * signed W32 rindex + signed W32 cindex) = Z.of_nat i →
  l !! i = Some v → (Z.of_nat (length l) <? 2 ^ 30) = true → i32 (trunc W32 (trunc W32 v)) = v →
  (∀ m', same_frames m m' → events m' = events m → Q m') →
  settles (assert_call index answer [a; rows; cols; rindex; cindex] v) m (λ _, Q).
Proof.
  intros Hints (H1 & H2 & H3) (F1 & F2 & F3) Hi Hv Hlen Hvv HQ. simpl in F2, F3. apply Z.ltb_lt in Hlen.
  apply (assert_call_settles _ _ _ _ _ (regs m RSP - 8)); [lia|lia|done|..].
  - intros m0 Hm0 Hr Hc. pose proof (lookup_lt_Some _ _ _ Hv) as Hlt.
    assert (regs m0 RSP = regs m RSP - 8) as Hsp by (by rewrite Hr).
    assert (∀ z, signed W32 (u64 z) = signed W32 z) as Hs64.
    { intros z. unfold signed, u64. simpl bits. dlia. }
    eapply ev_mono; [apply (index_run _ _ _ (trunc W32 v) Hm0)|].
    + rewrite Hr. unfold upd. cbn [set_args arg_regs reg_beq]. unfold upd. cbn [reg_beq].
      rewrite !Hs64, Hi. rewrite (u64_small a) by lia.
      rewrite (trunc_small W32 (4 * Z.of_nat i)) by (simpl; lia). rewrite u64_small by lia.
      erewrite load_changes; [by apply Hints|exact Hc|lia|lia|lia].
    + intros m' (Hpc & Hre & Hax). split; [done|]. split; [by rewrite Hsp in Hre|by rewrite Hax].
  - intros m' Hsp Hc Hes. apply HQ; [|done]. by eapply same_frames_changes.
Qed.

#[local] Hint Resolve stack_same frame_same : core.

(** One array and its assertion. *)
Ltac test_index i :=
  apply store_settles; [by eauto 12|by eauto 12|intros ? ? ? ?];
  try apply settles_seq;
  eapply (assert_index_settles _ _ _ _ _ _ _ _ _ i);
    [eassumption|by eauto 12|by eauto 12|reflexivity|reflexivity|reflexivity|reflexivity|intros ? ? ?].

Lemma matrix_main_passes matrix1 matrix2 matrix3 m : stack (0 + 8) m →
  frame W32 matrix1 4 m → frame W32 matrix2 4 m → frame W32 matrix3 6 m →
  settles (matrix_main answer matrix1 matrix2 matrix3) m (λ _ m', events m' = events m).
Proof.
  intros Hst F1 F2 F3. unfold matrix_main. cbv zeta.
  test_index 2%nat. test_index 1%nat. test_index 5%nat. congruence.
Qed.

(** *** Programs that print *)

Lemma settles_mapM {A B} (f : A → nat → comp machine B) (g : A → B) (P : A → Prop)
    (Inv : machine → Prop) l m :
  (∀ a m, P a → Inv m → settles (f a) m (λ v m', v = g a ∧ Inv m')) → Forall P l → Inv m →
  settles (λ fuel, mapM (λ a, f a fuel) l) m (λ v m', v = g <$> l ∧ Inv m').
Proof.
  intros Hf Hl. revert m. induction Hl as [|a l Ha Hl IH]; intros m Hm.
  { by exists 0%nat, [], m. }
  apply (settles_bind (f a) (λ y fuel, k ← mapM (λ a, f a fuel) l; mret (y :: k))).
  destruct (Hf a m Ha Hm) as (n & v & m1 & Hc & -> & Hm1). exists n, (g a), m1. split; [done|].
  apply (settles_bind (λ fuel, mapM (λ a, f a fuel) l) (λ k _, mret (g a :: k))).
  destruct (IH m1 Hm1) as (n2 & w & m2 & Hc2 & -> & Hm2). exists n2, (g <$> l), m2.
  split; [done|]. by eapply settles_ok.
Qed.

(** A call that uses [n] bytes of stack and the return address. *)
Lemma call_settles p args n m (R : machine → Prop) :
  stack (n + 8) m → 0 ≤ n →
  (∀ m0, enters 0 EXIT m0 → regs m0 = upd RSP (regs m RSP - 8) (set_args arg_regs args (regs m)) →
     xmm m0 = xmm m → changes (regs m RSP - 8) (regs m RSP) (mem m) (mem m0) → stack n m0 →
     eventually p answer (λ m', pc m' = EXIT ∧ restores (regs m0 RSP - n) m0 m' ∧ R m') m0) →
  settles (call_fun p answer args) m (λ _ m', R m' ∧ stack (n + 8) m' ∧
    changes (regs m RSP - (n + 8)) (regs m RSP) (mem m) (mem m') ∧ regs m' RSP = regs m RSP).
Proof.
  intros Hst Hn Hf. pose proof Hst as (H1 & H2 & H3).
  destruct (call_fun_settles p answer args m (regs m RSP - (n + 8)) R)
    as (k & [] & m' & Hc & HR & Hsp & Hch & Hes);
    [lia|lia|eapply mapped_sub; [exact H3|lia|lia]| |].
  - intros m0 Hm0 Hr Hx Hc.
    replace (regs m RSP - (n + 8)) with (regs m0 RSP - n) by (rewrite Hr; unfold upd; simpl; lia).
    apply Hf; try done. unfold stack. rewrite Hr. unfold upd. simpl. split; [lia|]. split; [lia|].
    eapply mapped_changes; [exact Hc|]. eapply mapped_sub; [exact H3|lia|lia].
  - exists k, tt, m'. split; [done|]. split; [done|]. split; [by eapply stack_keeps|done].
Qed.

Lemma factorial_main_prints m : stack (112 + 8) m →
  settles (factorial_main answer) m (λ l _, l = [1; 2; 6; 24; 120; 720; 5040; 40320]).
Proof.
  intros Hst. unfold factorial_main.
  destruct (settles_mapM (λ n, c_call64 factorial answer [n]) (λ n, trunc W64 (fact (Z.to_nat n)))
    (λ n, 0 ≤ n ≤ 8) (stack (112 + 8)) [1; 2; 3; 4; 5; 6; 7; 8] m)
    as (k & l & m' & Hc & -> & _); [|repeat (apply Forall_cons_2; [lia|]); apply Forall_nil_2|done|by eexists k, _, m'].
  clear. intros n m Hn Hst. apply (settles_result _ _ _ (λ m, regs m RAX)).
  destruct (call_settles factorial [n] 112 m (λ m', regs m' RAX = trunc W64 (fact (Z.to_nat n))) Hst)
    as (k & [] & m' & Hc & HR & Hs & _); [done| |by exists k, tt, m'].
  intros m0 Hm0 Hr _ _ Hst0.
  assert (signed W64 (regs m0 RDI) = n) as Hsn.
  { rewrite Hr. simpl. unfold upd. simpl. unfold u64, signed. simpl bits. dlia. }
  rewrite <-Hsn. destruct Hst0 as (H1 & H2 & H3). apply factorial_run; [done|lia|done].
Qed.

Lemma max_of_three_main_prints m : stack (0 + 8) m →
  settles (max_of_three_main answer) m (λ l _, l = [3; 2; 1; -1]).
Proof.
  intros Hst. unfold max_of_three_main.
  destruct (settles_mapM (λ l fuel, r ← c_call64 max_of_three answer l fuel; mret (signed W64 r))
    (λ l, foldr Z.max (- 2 ^ 63) l) (λ l, length l = 3%nat ∧ Forall (λ z, - 2 ^ 63 ≤ z < 2 ^ 63) l)
    (stack (0 + 8)) [[1; 2; 3]; [1; 2; -3]; [1; -2; -3]; [-1; -2; -3]] m)
    as (k & l & m' & Hc & -> & _); [|by repeat first [constructor|lia]|done|by eexists k, _, m'].
  clear. intros l m [Hlen Hl] Hst.
  destruct l as [|a [|b [|c [|? l]]]]; try done.
  apply Forall_cons in Hl as [Ha Hl]. apply Forall_cons in Hl as [Hb Hl].
  apply Forall_cons in Hl as [Hc _].
  apply (settles_bind _ (λ r _, mret (signed W64 r))), (settles_result _ _ _ (λ m, regs m RAX)).
  destruct (call_settles max_of_three [a; b; c] 0 m
    (λ m', signed W64 (regs m' RAX) = (a `max` b) `max` c) Hst)
    as (k & [] & m' & Hc' & HR & Hs & _); [done| |].
  - intros m0 Hm0 Hr _ _ _. rewrite Z.sub_0_r.
    assert (∀ z, - 2 ^ 63 ≤ z < 2 ^ 63 → signed W64 (u64 z) = z) as Hs64.
    { intros z Hz. unfold u64, signed. simpl bits. dlia. }
    eapply ev_mono; [by apply max_of_three_run|].
    rewrite Hr. simpl. unfold upd. simpl. rewrite !Hs64 by done. done.
  - exists k, tt, m'. split; [done|]. eapply settles_ok; [done|]. split; [|done].
    rewrite HR. simpl. lia.
Qed.

(** The words of the array are the doubles of the literals. *)
Definition test_doubles : list spec_float := [lit64 1 1; lit64 21 10; lit64 33 10; lit64 45 10].

Lemma test_words_double : float64 <$> test_words = test_doubles.
Proof. by vm_compute. Qed.

Lemma words_at_take a l n m lo hi m' : array_at W64 a l m → changes lo hi m m' → hi ≤ a →
  0 ≤ a → a + 8 * Z.of_nat (length l) ≤ 2 ^ 64 → Forall (λ z, trunc W64 z = z) l →
  words_at a (take n l) m'.
Proof.
  intros Hl Hc Hhi Ha Hlen Hf i z Hz. apply lookup_take_Some in Hz as [Hz Hi].
  pose proof (lookup_lt_Some _ _ _ Hz). rewrite u64_small by lia.
  erewrite load_changes; [|exact Hc|lia|lia|lia].
  etransitivity; [exact (Hl i z Hz)|]. f_equal. eapply Forall_lookup_1 in Hf; done.
Qed.

(** The sums that call_sum.c prints: the last number of each prefix is added
    first. *)
Definition double_sum (n : nat) : spec_float :=
  foldl add64 (S754_zero false) (reverse (take n test_doubles)).

Lemma sum_call test n m : 0 ≤ n ≤ 4 → stack (0 + 8) m → regs m RSP ≤ test →
  test + 32 ≤ 2 ^ 64 → array_at W64 test test_words (mem m) →
  settles (c_callf sum answer [test; n]) m (λ v m', v = double_sum (Z.to_nat n) ∧
    stack (0 + 8) m' ∧ regs m' RSP ≤ test ∧ array_at W64 test test_words (mem m')).
Proof.
  intros Hn Hst Hsp Ht Hl. pose proof Hst as (H1 & H2 & H3).
  apply (settles_result _ _ _ (λ m, xmm m 0%nat)).
  destruct (call_settles sum [test; n] 0 m (λ m', xmm m' 0%nat = double_sum (Z.to_nat n)) Hst)
    as (k & [] & m' & Hc & HR & Hs & Hch & Hsp'); [done| |].
  - intros m0 Hm0 Hr _ Hc0 _. rewrite Z.sub_0_r.
    assert (regs m0 RDI = test ∧ regs m0 RSI = n) as [Hdi Hsi].
    { rewrite Hr. simpl. unfold upd. simpl. rewrite !u64_small by lia. done. }
    assert (length (take (Z.to_nat n) test_words) = Z.to_nat n) as Hlen
      by (rewrite length_take; simpl; lia).
    eapply ev_mono; [apply (sum_run _ (take (Z.to_nat n) test_words)); [done|..]|].
    + rewrite Hdi. eapply words_at_take; [exact Hl|exact Hc0|lia|lia|simpl; lia|].
      repeat (apply Forall_cons_2; [done|]). apply Forall_nil_2.
    + rewrite Hsi, Hlen. lia.
    + lia.
    + intros m' (Hpc & Hre & Hx). split; [done|]. split; [done|]. rewrite Hx.
      unfold float_sum, double_sum. by rewrite fmap_reverse, fmap_take, test_words_double.
  - exists k, tt, m'. split; [done|]. split; [done|]. split; [done|]. split; [lia|].
    intros i z Hz. pose proof (lookup_lt_Some _ _ _ Hz) as Hlt. simpl in Hlt.
    rewrite <-(Hl i z Hz). eapply load_changes; [exact Hch|simpl; lia..].
Qed.

Lemma sum_main_prints test m : stack (0 + 8) m → frame W64 test 4 m →
  settles (sum_main answer test) m (λ l _, l = double_sum <$> seq 0 5).
Proof.
  intros Hst Hfr. unfold sum_main.
  apply store_settles; [done|done|]. intros m1 Hsame Hl _.
  apply (stack_same _ _ _ Hsame) in Hst. apply (frame_same _ _ _ _ _ Hsame) in Hfr.
  destruct Hfr as (F1 & F2 & _). simpl in F2.
  destruct (settles_mapM (λ n, c_callf sum answer [test; n]) (λ n, double_sum (Z.to_nat n))
    (λ n, 0 ≤ n ≤ 4) (λ m, stack (0 + 8) m ∧ regs m RSP ≤ test ∧ array_at W64 test test_words (mem m))
    [0; 1; 2; 3; 4] m1) as (k & l & m' & Hc & -> & _);
    [|repeat (apply Forall_cons_2; [lia|]); apply Forall_nil_2|done|by eexists k, _, m'].
  intros n m2 Hn (Hst2 & Hsp2 & Hl2). by apply sum_call.
Qed.

(** *** cone.asm *)

(** The constants of cone.asm, apart from the stack that a call uses. *)
Definition constants (PI THIRD : Z) (m : machine) : Prop :=
  ∀ a v, (a, v) ∈ [(PI, 0x40490fdb); (THIRD, 0x3eaaaaab)] →
    0 ≤ a ≤ 2 ^ 64 - 4 ∧ load 4 a (mem m) = Some v ∧ (a + 4 ≤ regs m RSP - 8 ∨ regs m RSP ≤ a).

Lemma constants_keep PI THIRD m m' : constants PI THIRD m → regs m' RSP = regs m RSP →
  changes (regs m RSP - 8) (regs m RSP) (mem m) (mem m') → constants PI THIRD m'.
Proof.
  intros Hcs Hsp Hc a v Ha. destruct (Hcs a v Ha) as (H1 & H2 & H3). split; [done|].
  split; [|by rewrite Hsp]. rewrite <-H2. eapply load_changes; [exact Hc|lia..].
Qed.

(** The volume, rounded after each multiplication. *)
Definition cone_volume (radius height : spec_float) : spec_float :=
  mul32 (mul32 (mul32 (mul32 radius radius) (float32 0x40490fdb)) height) (float32 0x3eaaaaab).

Lemma assert_volume_settles PI THIRD v radius height m (Q : machine → Prop) :
  stack (0 + 8) m → constants PI THIRD m → float_near v (cone_volume radius height) = true →
  (∀ m', stack (0 + 8) m' → constants PI THIRD m' → Q m') →
  settles (assert_volume answer PI THIRD v radius height) m (λ _, Q).
Proof.
  intros Hst Hcs Hv HQ. set (m1 := set_xmm 1 height (set_xmm 0 radius m)).
  assert (stack (0 + 8) m1) as Hst1 by done. assert (constants PI THIRD m1) as Hcs1 by done.
  apply (settles_bind (λ _, modify _) (λ _ fuel, r ← c_callf _ _ _ fuel; c_assert _)).
  eapply (settles_ok _ _ _ m1); [done|].
  apply (settles_bind _ (λ r _, c_assert (float_near v r))), (settles_result _ _ _ (λ m, xmm m 0%nat)).
  destruct (call_settles (volume PI THIRD) [] 0 m1 (λ m', xmm m' 0%nat = cone_volume radius height) Hst1)
    as (k & [] & m' & Hc & HR & Hs & Hch & Hsp'); [done| |].
  - intros m0 Hm0 Hr Hx Hc0 _. rewrite Z.sub_0_r.
    assert (∀ a v, (a, v) ∈ [(PI, 0x40490fdb); (THIRD, 0x3eaaaaab)] →
      load 4 (u64 a) (mem m0) = Some v) as Hld.
    { intros a w Ha. destruct (Hcs1 a w Ha) as (A1 & A2 & A3). rewrite u64_small by lia.
      rewrite <-A2. eapply load_changes; [exact Hc0|lia..]. }
    eapply ev_mono; [apply volume_run; [done| |]|].
    + apply Hld. apply list_elem_of_here.
    + apply Hld. apply list_elem_of_further, list_elem_of_here.
    + intros m' (Hpc & Hre & Hxx). split; [done|]. split; [done|]. by rewrite Hxx, Hx.
  - exists k, tt, m'. split; [done|]. rewrite HR, Hv. eapply settles_ok; [done|].
    apply HQ; [done|]. eapply constants_keep; [exact Hcs1|done|exact Hch].
Qed.

Lemma cone_main_passes PI THIRD m : stack (0 + 8) m → constants PI THIRD m →
  settles (cone_main answer PI THIRD) m (λ _ _, True).
Proof.
  intros Hst Hcs. unfold cone_main.
  do 3 (apply settles_seq; eapply assert_volume_settles; [done|done|by vm_compute|intros ? ? ?]).
  eapply assert_volume_settles; [done|done|by vm_compute|done].
Qed.
End functions.
