(* ===== verification/AsmPrograms.v ===== *)
(** The assembly programs that call the kernel or the C library:
    01-assembly-hello-world/hello.asm of 02-computer-systems/
    03-low-level-programming, and triangle.asm, echo.asm, hola.asm,
    power.asm and fib.asm of old/assembly.  A program is judged by its [events]: what it
    writes, and the functions it calls with which arguments.  The addresses of
    its data are parameters; what a function of the library returns is
    [answer]. *)
From S2P Require Import Prelude Asm AsmLogic AsmExercises.
From Stdlib Require Import SpecFloat.
#[local] Open Scope Z_scope.

(** ** The programs *)

(** hello.asm. *)
Definition hello (message : Z) : program := asm:
  Lbl "_start";
    Mov W64 RAX 1;
    Mov W64 RDI 1;
    Mov W64 RSI message;
    Mov W64 RDX 13;
    Syscall;
    Mov W64 RAX 60;
    Op Xor W64 RDI RDI;
    Syscall
end.
Definition hello_message : list Z := bytes_of "Hello, world" ++ [10].

(** hola.asm. *)
Definition hola (message : Z) : program := asm:
  Lbl "main";
    Mov W64 RDI message;
    Call "puts";
    Ret
end.

(** triangle.asm. *)
Definition max_lines : Z := 10.
Definition buffer_size : Z := 65.
Definition triangle (buffer : Z) : program := asm:
  Lbl "_start";
    Mov W64 RAX buffer;
    Mov W64 RBX 1;
    Op Xor W64 RCX RCX;
  Lbl "write_line";
    Mov W8 (Mem (Some RAX) None 1 0) 42;
    Inc W64 RAX;
    Inc W64 RCX;
    Cmp W64 RCX RBX;
    J L "write_line";
  Lbl "line_end";
    Mov W8 (Mem (Some RAX) None 1 0) 10;
    Inc W64 RAX;
    Op Xor W64 RCX RCX;
    Inc W64 RBX;
    Cmp W64 RBX max_lines;
    J LE "write_line";
  Lbl "write_buffer";
    Mov W64 RAX 1;
    Mov W64 RDI 1;
    Mov W64 RSI buffer;
    Mov W64 RDX buffer_size;
    Syscall;
    Mov W64 RAX 60;
    Mov W64 RDI 0;
    Syscall
end.

(** fib.asm of old/assembly, which prints a table. *)
Definition max : Z := 20.
Definition fib_table (format : Z) : program := asm:
  Lbl "main";
    Push RBX;
    Mov W64 RSI 0;
    Op Xor W64 RDX RDX;
    Mov W64 RBX 1;
  Lbl "print";
    Push RSI;
    Push RDX;
    Op Xor W64 RAX RAX;
    Mov W64 RDI format;
    Call "printf";
    Pop RDX;
    Pop RSI;
  Lbl "print_done";
    Mov W64 R8 RDX;
    Mov W64 RDX RBX;
    Op Add W64 RBX R8;
    Inc W64 RSI;
    Cmp W64 RSI max;
    J L "print";
    Pop RBX;
    Ret
end.

(** echo.asm. *)
Definition echo : program := asm:
  Lbl "echo";
  Lbl ".start";
    Push RBX;
    Mov W64 RBX RDI;
  Lbl ".loop";
    Mov W64 RDI (Mem (Some RSI) None 1 0);
    Push RSI;
    Call "puts";
    Pop RSI;
    Op Add W64 RSI 8;
    Dec W64 RBX;
    J NE ".loop";
  Lbl ".done";
    Pop RBX;
    Ret
end.

(** power.asm. *)
Definition power (format err_msg_1 err_msg_2 : Z) : program := asm:
  Lbl "power";
    Push RBX;
    Push R12;
    Push R13;
    Cmp W64 RDI 3;
    J NE ".err_1";
    Mov W64 R13 RSI;
    Mov W64 RDI (Mem (Some R13) None 1 16);
    Call "atoi";
    Cmp W32 RAX 0;
    J L ".err_2";
    Mov W32 R12 RAX;
    Mov W64 RDI (Mem (Some R13) None 1 8);
    Call "atoi";
    Mov W32 RBX RAX;
    Mov W64 R13 1;
  Lbl ".loop";
    Test W64 R12 R12;
    J E ".print_ret";
    Imul W32 R13 RBX;
    Dec W32 R12;
    Jmp ".loop";
  Lbl ".print_ret";
    Op Xor W32 RAX RAX;
    Mov W64 RDI format;
    Movsxd RSI R13;
    Call "printf";
    Jmp ".done";
  Lbl ".err_1";
    Mov W64 RDI err_msg_1;
    Jmp ".print_err";
  Lbl ".err_2";
    Mov W64 RDI err_msg_2;
  Lbl ".print_err";
    Call "puts";
    Jmp ".done";
  Lbl ".done";
    Pop R13;
    Pop R12;
    Pop RBX;
    Ret
end.

Section programs.
Context (answer : list event → reg → Z).

(** ** hello and hola *)

Lemma ev_write prog k f x c mm es P a s :
  (k <? 0) = false → prog !! Z.to_nat k = Some (Ins Syscall) →
  f RAX = 1 → f RDI = 1 → f RSI = a → f RDX = Z.of_nat (length s) →
  0 ≤ a < 2 ^ 64 → Z.of_nat (length s) < 2 ^ 64 → string_at a s mm →
  (∀ f', (∀ r, r ≠ RAX → r ≠ RCX → r ≠ R11 → f' r = f r) →
     eventually prog answer P (Machine (k + 1) f' x c mm (es ++ [Write 1 s]))) →
  eventually prog answer P (Machine k f x c mm es).
Proof.
  intros Hk Hp Hax Hdi Hsi Hdx Ha Hl Hs Hf.
  eapply ev_ins; [exact Hk|exact Hp|cbn [exec]; unfold syscall; run_exec|].
  - rewrite Hax. change (trunc W64 1 =? 1) with true. run_exec.
    rewrite Hdx, Hsi, Hdi, !(trunc_small W64 (Z.of_nat _)), Nat2Z.id by (simpl; lia).
    rewrite (trunc_small W64 a), (bytes_at_string s a mm Hs) by (simpl; lia). reflexivity.
  - apply Hf. intros [] H1 H2 H3; done.
Qed.

Lemma ev_exit prog k f x c mm es (P : machine → Prop) :
  (k <? 0) = false → prog !! Z.to_nat k = Some (Ins Syscall) →
  f RAX = 60 → f RDI = 0 → P (Machine EXIT f x c mm (es ++ [Exit 0])) →
  eventually prog answer P (Machine k f x c mm es).
Proof.
  intros Hk Hp Hax Hdi HP.
  eapply ev_ins; [exact Hk|exact Hp|cbn [exec]; unfold syscall; run_exec|].
  - rewrite Hax, Hdi. reflexivity.
  - by apply ev_here.
Qed.

Lemma hello_run message m : pc m = 0 → 0 ≤ message < 2 ^ 64 →
  string_at message hello_message (mem m) →
  eventually (hello message) answer
    (λ m', pc m' = EXIT ∧ events m' = events m ++ [Write 1 hello_message; Exit 0]) m.
Proof.
  intros Hpc Hr Hs. destruct m as [k f x c mm es]. cbn [pc mem events] in *. subst k.
  ins. ins. ins. ins. ins.
  eapply (ev_write _ 5 _ _ _ _ _ _ message hello_message); try done.
  { simpl. rewrite !(trunc_small W64 message) by (simpl; lia). done. }
  intros f' Hf'. norm_pc. ins. ins. eapply ev_exit; [done|done|done|by apply xor_self|].
  simpl. by rewrite <-app_assoc.
Qed.

(** A function that calls the library: what it leaves to its caller, and the
    calls [es] it makes. *)
Definition leaves (ret lo : Z) (m : machine) (es : list event) (m' : machine) : Prop :=
  pc m' = ret ∧
  restores lo (Machine (pc m) (regs m) (xmm m) (fl m) (mem m) (events m ++ es)) m'.

(** A call whose first argument is [a], the others being what they may. *)
Definition call_with (name : string) (a : Z) (e : event) : Prop :=
  ∃ b c, e = Called name [a; b; c].

Lemma ev_leave prog k f x c mm es m ret lo l (P : machine → Prop) :
  (k <? 0) = false → prog !! Z.to_nat k = Some (Ins Ret) →
  (∃ k', enters k' ret m) → f RSP = regs m RSP →
  (∀ r, caller_saved r = false → r ≠ RSP → f r = regs m r) →
  changes lo (regs m RSP) (mem m) mm → es = events m ++ l →
  (∀ m', leaves ret lo m l m' → P m') →
  eventually prog answer P (Machine k f x c mm es).
Proof.
  intros Hk Hp (k' & [Hpc Hsp Hret]) Hf Hs Hm -> HP.
  eapply ev_return_to with (m := Machine (pc m) (regs m) (xmm m) (fl m) (mem m) (events m ++ l))
    (ret := ret); try done; [by exists k'|].
  intros m' Hpc' Hre _ _. by apply HP.
Qed.

Lemma hola_run message m ret : enters 0 ret m → 0 ≤ message < 2 ^ 64 →
  eventually (hola message) answer
    (λ m', ∃ e, call_with "puts" message e ∧ leaves ret (regs m RSP) m [e] m') m.
Proof.
  intros Hm Hr. enter Hm. ins. ins.
  eapply ev_library; [done|done|done|]. cbv zeta. norm_pc.
  eapply ev_leave with (m := Machine 0 f x c mm es); try done; [by eexists|by intros []|].
  intros m' Hm'. eexists. split; [|exact Hm']. simpl.
  rewrite !(trunc_small W64 message) by (simpl; lia). by eexists _, _.
Qed.

(** ** echo *)

(** The addresses [ps] are an array at [a], apart from the bytes from [lo] to
    [hi]. *)
Record pointers_at (a : Z) (ps : list Z) (lo hi : Z) (m : gmap Z Z) : Prop := {
  ptr_range : 0 ≤ a ∧ a + 8 * Z.of_nat (length ps) < 2 ^ 64;
  ptr_apart : a + 8 * Z.of_nat (length ps) ≤ lo ∨ hi ≤ a;
  ptr_load : ∀ i p, ps !! i = Some p → load 8 (a + 8 * Z.of_nat i) m = Some p
}.

Lemma pointers_keep a ps lo hi m m' :
  pointers_at a ps lo hi m → changes lo hi m m' → pointers_at a ps lo hi m'.
Proof.
  intros [Hr Ha Hl] Hc. split; [done|done|]. intros i p Hi. rewrite <-(Hl i p Hi).
  pose proof (lookup_lt_Some _ _ _ Hi). eapply load_changes; [exact Hc|lia..].
Qed.

Lemma pointers_sub a ps lo hi lo' hi' m :
  pointers_at a ps lo hi m → lo ≤ lo' → hi' ≤ hi → pointers_at a ps lo' hi' m.
Proof. intros [Hr Ha Hl] H1 H2. split; [done|lia|done]. Qed.

Lemma pointers_tail a p ps lo hi m :
  pointers_at a (p :: ps) lo hi m → pointers_at (a + 8) ps lo hi m.
Proof.
  intros [Hr Ha Hl]. simpl length in *. split; [lia|lia|]. intros i q Hi.
  rewrite <-(Hl (S i) q Hi). f_equal. lia.
Qed.

(** An iteration, up to the jump. *)
Lemma echo_body p ps f x c mm es sp (P : machine → Prop) :
  f RSP = sp → 8 ≤ sp < 2 ^ 64 - 8 → mapped (sp - 8) sp mm →
  f RBX = Z.of_nat (length (p :: ps)) → pointers_at (f RSI) (p :: ps) (sp - 8) sp mm →
  0 ≤ p < 2 ^ 64 →
  (∀ f' fs mm' e, call_with "puts" p e → f' RSP = sp → f' RSI = f RSI + 8 →
     f' RBX = Z.of_nat (length ps) →
     (∀ r, caller_saved r = false → r ≠ RBX → r ≠ RSP → f' r = f r) →
     changes (sp - 8) sp mm mm' → holds NE fs = negb (length ps =? 0)%nat →
     eventually echo answer P (Machine 11 f' x (Some fs) mm' (es ++ [e]))) →
  eventually echo answer P (Machine 4 f x c mm es).
Proof.
  intros Hsp H8 Hmap Hbx Hps Hp0 HP. pose proof (ptr_load _ _ _ _ _ Hps 0%nat p eq_refl) as Hp.
  pose proof (ptr_range _ _ _ _ _ Hps) as Hr. simpl length in Hr, Hbx.
  assert (∀ a, 0 ≤ a < 2 ^ 64 → u64 (a + 0 * 1 + 0) = a + 8 * Z.of_nat 0) as Hu
    by (intros a Ha; rewrite u64_small; lia).
  assert (trunc W64 (trunc W64 (Z.of_nat (S (length ps))) - 1) = Z.of_nat (length ps)) as Hdec.
  { rewrite (trunc_small W64 (Z.of_nat (S _))), trunc_small by (simpl; lia). lia. }
  ins. ins with (rewrite Hu, Hp by lia).
  eapply ev_push with (sp := sp); [done|done|done|lia|done|]. intros mm1 Hl1 Hc1. norm_pc.
  eapply ev_library; [done|done|done|]. cbv zeta. norm_pc.
  eapply ev_pop with (sp := sp - 8); [done|done|done|lia|exact Hl1|]. norm_pc.
  ins. ins. apply HP; cbn [upd reg_beq caller_saved]; try done.
  - simpl. rewrite !(trunc_small W64 p) by done. by eexists _, _.
  - simpl. unfold upd. simpl. lia.
  - unfold upd. cbn [reg_beq]. rewrite !(trunc_small W64 (f RSI)) by (simpl; lia).
    change (trunc W64 8) with 8. apply trunc_small. simpl. lia.
  - cbn [caller_saved]. by rewrite Hbx, Hdec.
  - intros r H1 H2 H3. destruct r; try done.
  - cbn [caller_saved holds zf]. rewrite Hbx, Hdec. by destruct (length ps).
Qed.

Lemma echo_loop ps : ∀ p f x c mm es sp,
  f RSP = sp → 8 ≤ sp < 2 ^ 64 - 8 → mapped (sp - 8) sp mm → Forall (λ p, 0 ≤ p < 2 ^ 64) (p :: ps) →
  f RBX = Z.of_nat (length (p :: ps)) → pointers_at (f RSI) (p :: ps) (sp - 8) sp mm →
  eventually echo answer
    (λ m', pc m' = 12 ∧ regs m' RSP = sp ∧
       (∀ r, caller_saved r = false → r ≠ RBX → r ≠ RSP → regs m' r = f r) ∧
       changes (sp - 8) sp mm (mem m') ∧
       ∃ l, Forall2 (call_with "puts") (p :: ps) l ∧ events m' = es ++ l)
    (Machine 4 f x c mm es).
Proof.
  induction ps as [|q ps IH]; intros p f x c mm es sp Hsp H8 Hmap Hf Hbx Hps;
    apply Forall_cons in Hf as [Hp Hf]; eapply echo_body; try done;
    intros f' fs mm' e He Hsp' Hsi' Hbx' Hf' Hc' Hfs.
  - eapply ev_jcc with (b := false); [done|done|done|done|exact Hfs|norm_pc].
    apply ev_here. simpl. split; [done|]. split; [done|]. split; [done|]. split; [done|].
    exists [e]. by repeat constructor.
  - eapply ev_jcc with (b := true); [done|done|done|done|exact Hfs|norm_pc].
    eapply ev_mono; [eapply (IH q f'); try done|].
    + eapply mapped_changes; [exact Hc'|done].
    + rewrite Hsi'. eapply pointers_keep; [by eapply pointers_tail|done].
    + intros m' (Hpc & Hr & Hsv & Hc2 & l & Hl & He'). split; [done|]. split; [done|].
      split; [intros r H1 H2 H3; by rewrite Hsv, Hf'|]. split; [by eapply changes_trans|].
      exists (e :: l). split; [by constructor|]. by rewrite He', <-app_assoc.
Qed.

(** echo.asm calls [puts] with each argument, in order. *)
Lemma echo_run p ps m ret : enters 0 ret m → 0 ≤ regs m RBX < 2 ^ 64 → 16 ≤ regs m RSP →
  mapped (regs m RSP - 16) (regs m RSP) (mem m) → Forall (λ p, 0 ≤ p < 2 ^ 64) (p :: ps) →
  regs m RDI = Z.of_nat (length (p :: ps)) →
  pointers_at (regs m RSI) (p :: ps) (regs m RSP - 16) (regs m RSP) (mem m) →
  eventually echo answer
    (λ m', ∃ l, Forall2 (call_with "puts") (p :: ps) l ∧ leaves ret (regs m RSP - 16) m l m') m.
Proof.
  intros Hm Hbx H16 Hmap Hps Hdi Hptr. enter Hm. cbn [regs mem] in *. pose proof (en_sp _ _ _ Hm) as Hsp.
  cbn [regs] in Hsp. pose proof (ptr_range _ _ _ _ _ Hptr) as Hr.
  ins. ins. eapply ev_push with (sp := f RSP); [done|done|done|lia|eapply mapped_sub; [done|lia|lia]|].
  intros mm1 Hl1 Hc1. norm_pc. ins.
  eapply ev_trans; [apply (echo_loop ps p _ _ _ _ _ (f RSP - 8)); try done|].
  - lia.
  - eapply mapped_changes; [exact Hc1|]. eapply mapped_sub; [exact Hmap|lia|lia].
  - simpl. rewrite Hdi, trunc_trunc, trunc_small; [done|simpl length in *; simpl; lia].
  - eapply (pointers_sub _ _ (f RSP - 16) (f RSP)); [|lia|lia].
    eapply pointers_keep; [exact Hptr|]. eapply changes_weaken; [exact Hc1|lia|lia].
  - intros [k3 f3 x3 c3 mm3 es3] (Hpc & Hsp3 & Hsv & Hc3 & l & Hl & He). simpl in *. subst k3 es3.
    ins. eapply ev_pop with (sp := f RSP - 8); [done|done|exact Hsp3|lia| |].
    { erewrite load_changes; [exact Hl1|exact Hc3|lia..]. }
    norm_pc. eapply ev_leave with (m := Machine 0 f x c mm es) (lo := f RSP - 16);
      [done|done|by eexists| | | |done|].
    + simpl. unfold upd. simpl. lia.
    + intros r Hr' Hne. unfold upd. destruct r; try done; cbn [reg_beq]; try (rewrite Hsv by done; done).
      rewrite !(trunc_small W64) by (rewrite ?(trunc_small W64) by done; done). done.
    + simpl. eapply changes_trans; eapply changes_weaken; [exact Hc1|..|exact Hc3|lia|lia]; lia.
    + intros m' Hm'. by exists l.
Qed.

(** ** power *)

Section power.
Context (format err_msg_1 err_msg_2 : Z).
Context (Hformat : 0 ≤ format < 2 ^ 64) (Herr1 : 0 ≤ err_msg_1 < 2 ^ 64)
  (Herr2 : 0 ≤ err_msg_2 < 2 ^ 64).
#[local] Abbreviation prog := (power format err_msg_1 err_msg_2).

(** The three registers on the stack below [sp]. *)
Definition saved (sp : Z) (m : machine) (mm : gmap Z Z) : Prop :=
  load 8 (sp - 8) mm = Some (regs m RBX) ∧ load 8 (sp - 16) mm = Some (regs m R12) ∧
  load 8 (sp - 24) mm = Some (regs m R13).

Lemma power_enter f x c mm es sp (P : machine → Prop) :
  let m := Machine 0 f x c mm es in
  f RSP = sp → 24 ≤ sp < 2 ^ 64 - 8 → mapped (sp - 24) sp mm → (∀ r, 0 ≤ f r < 2 ^ 64) →
  (∀ f' mm', f' RSP = sp - 24 → (∀ r, r ≠ RSP → f' r = f r) → saved sp m mm' →
     changes (sp - 24) sp mm mm' → eventually prog answer P (Machine 4 f' x c mm' es)) →
  eventually prog answer P m.
Proof.
  intros m Hsp H24 Hmap Hf HP. subst m. ins.
  eapply ev_push with (sp := sp); [done|done|done|lia|eapply mapped_sub; [done|lia|lia]|].
  intros mm1 Hl1 Hc1. norm_pc.
  eapply ev_push with (sp := sp - 8); [done|done|done|lia| |].
  { eapply mapped_changes; [exact Hc1|]. eapply mapped_sub; [done|lia|lia]. }
  intros mm2 Hl2 Hc2. norm_pc.
  assert (changes (sp - 16) sp mm mm2) as Hc12.
  { eapply changes_trans; eapply changes_weaken; [exact Hc1|..|exact Hc2|lia|lia]; lia. }
  eapply ev_push with (sp := sp - 16); [done|done| |lia| |].
  { unfold upd. simpl. lia. }
  { eapply mapped_changes; [exact Hc12|]. eapply mapped_sub; [done|lia|lia]. }
  intros mm3 Hl3 Hc3. norm_pc. unfold upd in Hl1, Hl2, Hl3. cbn [reg_beq] in Hl1, Hl2, Hl3.
  rewrite trunc_small in Hl1, Hl2, Hl3 by apply Hf.
  apply HP.
  - unfold upd. simpl. lia.
  - intros r Hr. unfold upd. by destruct r.
  - replace (sp - 8 - 8) with (sp - 16) in * by lia. replace (sp - 16 - 8) with (sp - 24) in * by lia.
    split; [|split; [|exact Hl3]]; cbn [regs].
    + rewrite <-Hl1. erewrite load_changes; [eapply load_changes; [exact Hc2|lia..]|exact Hc3|lia..].
    + rewrite <-Hl2. eapply load_changes; [exact Hc3|lia..].
  - eapply changes_trans; eapply changes_weaken; [exact Hc12|..|exact Hc3|lia|lia]; lia.
Qed.

(** After the pushes: [m] is the machine that entered. *)
Record framed (m : machine) (f : reg → Z) (mm : gmap Z Z) : Prop := {
  fr_sp : f RSP = regs m RSP - 24;
  fr_saved : saved (regs m RSP) m mm;
  fr_regs : ∀ r, caller_saved r = false → r ≠ RBX → r ≠ R12 → r ≠ R13 → r ≠ RSP → f r = regs m r;
  fr_mem : changes (regs m RSP - 24) (regs m RSP) (mem m) mm
}.

Lemma framed_regs m f f' mm : framed m f mm →
  (∀ r, caller_saved r = false → r ≠ RBX → r ≠ R12 → r ≠ R13 → f' r = f r) → framed m f' mm.
Proof.
  intros [H1 H2 H3 H4] Hf. split; [by rewrite Hf|done| |done].
  intros r A B C D E. rewrite Hf by done. by apply H3.
Qed.

(** [r13d] is multiplied by [ebx] as often as [r12d] says. *)
Lemma power_loop n : ∀ f x c mm es,
  f R12 = Z.of_nat n → Z.of_nat n < 2 ^ 31 →
  eventually prog answer
    (λ m', pc m' = 22 ∧ mem m' = mm ∧ events m' = es ∧
       trunc W32 (regs m' R13) = trunc W32 (f R13 * f RBX ^ Z.of_nat n) ∧
       ∀ r, r ≠ R12 → r ≠ R13 → regs m' r = f r)
    (Machine 16 f x c mm es).
Proof.
  induction n as [|n IH]; intros f x c mm es Hn Hlt; ins; ins.
  - jcc_test true; [by rewrite Hn|]. apply ev_here. simpl. rewrite Z.mul_1_r. done.
  - jcc_test false.
    { apply Z.eqb_neq. rewrite Hn, signed_small by (simpl; lia). lia. }
    ins. ins. jmp. eapply ev_mono; [eapply IH; [|lia]|].
    + simpl. rewrite Hn, (trunc_small W32 (Z.of_nat _)), trunc_small by (simpl; lia). lia.
    + intros m' (Hpc & Hmm & Hes & Hv & Hr). simpl in Hv, Hr. split; [done|]. split; [done|].
      split; [done|]. split.
      * rewrite Hv, Nat2Z.inj_succ, Z.pow_succ_r by lia. rewrite Z.mul_assoc. words.
      * intros r H1 H2. rewrite Hr by done. by destruct r.
Qed.
(** The calls that power.asm makes, after [es]: with other than two arguments
    it complains; it reads the exponent, the second one, complains if it is
    negative, and otherwise reads the base and prints the power. *)
Inductive power_calls (argc base exponent : Z) (es : list event) : list event → Prop :=
  | calls_usage e : argc ≠ 3 → call_with "puts" err_msg_1 e → power_calls argc base exponent es [e]
  | calls_negative e1 e2 :
      argc = 3 → call_with "atoi" exponent e1 → signed W32 (answer (es ++ [e1]) RAX) < 0 →
      call_with "puts" err_msg_2 e2 → power_calls argc base exponent es [e1; e2]
  | calls_print e1 e2 n b d :
      argc = 3 → call_with "atoi" exponent e1 → n = signed W32 (answer (es ++ [e1]) RAX) → 0 ≤ n →
      call_with "atoi" base e2 → b = answer (es ++ [e1; e2]) RAX →
      power_calls argc base exponent es
        [e1; e2; Called "printf" [format; u64 (signed W32 (b ^ n)); d]].

Section body.
Context (m : machine) (ret : Z) (Hm : ∃ k, enters k ret m) (H24 : 24 ≤ regs m RSP)
  (Hw : ∀ r, 0 ≤ regs m r < 2 ^ 64).

Lemma power_leave f x c mm es l (P : machine → Prop) : framed m f mm → es = events m ++ l →
  (∀ m', leaves ret (regs m RSP - 24) m l m' → P m') →
  eventually prog answer P (Machine 36 f x c mm es).
Proof.
  intros [Hf (L1 & L2 & L3) Hsv Hc] -> HP. destruct Hm as (k & Hk).
  pose proof (en_sp _ _ _ Hk) as Hs. set (sp := regs m RSP) in *. ins.
  eapply ev_pop with (sp := sp - 24); [done|done|exact Hf|lia|exact L3|]. norm_pc.
  eapply ev_pop with (sp := sp - 16); [done|done|unfold upd; simpl; lia|lia|exact L2|]. norm_pc.
  eapply ev_pop with (sp := sp - 8); [done|done|unfold upd; simpl; lia|lia|exact L1|]. norm_pc.
  eapply ev_leave with (m := m) (lo := sp - 24) (ret := ret);
    [done|done|by eexists| | |exact Hc|done|exact HP].
  - unfold upd. simpl. subst sp. lia.
  - intros r Hr Hne. destruct r; try done; cbn [upd reg_beq]; unfold upd; cbn [reg_beq];
      rewrite ?(trunc_small W64) by apply Hw; try done; by apply Hsv.
Qed.

(** A message, and the end. *)
Lemma power_puts f x c mm es l msg : framed m f mm → es = events m ++ l → f RDI = msg →
  eventually prog answer
    (λ m', ∃ e, call_with "puts" msg e ∧ leaves ret (regs m RSP - 24) m (l ++ [e]) m')
    (Machine 33 f x c mm es).
Proof.
  intros Hf Hes Hmsg. ins. eapply ev_library; [done|done|done|]. cbv zeta. norm_pc. jmp.
  eapply power_leave; [|by rewrite Hes, <-app_assoc|].
  - eapply framed_regs; [exact Hf|]. intros r Hr _ _ _. by rewrite Hr.
  - intros m' Hm'. eexists. split; [|exact Hm']. rewrite Hmsg. by eexists _, _.
Qed.

(** The result is printed. *)
Lemma power_print f x c mm es l : framed m f mm → es = events m ++ l →
  eventually prog answer
    (λ m', ∃ d, leaves ret (regs m RSP - 24) m
       (l ++ [Called "printf" [format; u64 (signed W32 (f R13)); d]]) m')
    (Machine 22 f x c mm es).
Proof.
  intros Hf Hes. ins. ins. ins. ins. eapply ev_library; [done|done|done|]. cbv zeta. norm_pc. jmp.
  eapply power_leave; [|by rewrite Hes, <-app_assoc|].
  - eapply framed_regs; [exact Hf|]. intros r Hr _ _ _. by destruct r.
  - intros m' Hm'. eexists. simpl in Hm'.
    rewrite !(trunc_small W64 format), signed_trunc in Hm' by done. exact Hm'.
Qed.

Lemma power_compute f x c mm es l b n : framed m f mm → es = events m ++ l →
  f R12 = Z.of_nat n → Z.of_nat n < 2 ^ 31 → f R13 = 1 → trunc W32 (f RBX) = trunc W32 b →
  eventually prog answer
    (λ m', ∃ d, leaves ret (regs m RSP - 24) m
       (l ++ [Called "printf" [format; u64 (signed W32 (b ^ Z.of_nat n)); d]]) m')
    (Machine 16 f x c mm es).
Proof.
  intros Hf Hes Hn Hlt H13 Hb. eapply ev_trans; [by eapply power_loop|].
  intros [k' f' x' c' mm' es'] (Hpc & Hmm & Hes' & Hv & Hr). simpl in *. subst k' mm' es'.
  assert (signed W32 (f' R13) = signed W32 (b ^ Z.of_nat n)) as <-.
  { rewrite <-(signed_trunc W32 (f' R13)), Hv, H13, Z.mul_1_l, <-(signed_trunc W32 (b ^ _)).
    f_equal. by apply trunc_pow. }
  apply power_print; [|done]. eapply framed_regs; [exact Hf|]. intros r _ _ H1 H2. by apply Hr.
Qed.

(** The base is read. *)
Lemma power_base f x c mm es l base n : framed m f mm → es = events m ++ l →
  load 8 (u64 (f R13 + 0 * 1 + 8)) mm = Some base → 0 ≤ base < 2 ^ 64 →
  n = signed W32 (f RAX) → 0 ≤ n →
  eventually prog answer
    (λ m', ∃ e b d, call_with "atoi" base e ∧ b = answer (events m ++ l ++ [e]) RAX ∧
       leaves ret (regs m RSP - 24) m
         (l ++ [e; Called "printf" [format; u64 (signed W32 (b ^ n)); d]]) m')
    (Machine 11 f x c mm es).
Proof.
  intros Hf Hes Hl Hb Hn Hn0. ins. ins with (rewrite Hl).
  eapply ev_library; [done|done|done|]. cbv zeta. norm_pc. ins. ins.
  match goal with |- eventually _ _ _ (Machine _ _ _ _ _ (_ ++ [?e])) => set (e2 := e) end.
  pose proof (signed_range W32 (f RAX)) as Hr. rewrite <-Hn in Hr. simpl in Hr.
  replace n with (Z.of_nat (Z.to_nat n)) by lia.
  eapply ev_mono; [eapply (power_compute _ _ _ _ _ (l ++ [e2]) (answer (es ++ [e2]) RAX) (Z.to_nat n))|].
  - eapply framed_regs; [exact Hf|]. by intros [].
  - by rewrite Hes, <-app_assoc.
  - simpl. rewrite trunc_trunc, Z2Nat.id, Hn by lia. unfold trunc, signed in *. simpl bits in *. dlia.
  - lia.
  - done.
  - simpl. by rewrite !trunc_trunc.
  - intros m' (d & Hm'). exists e2, (answer (es ++ [e2]) RAX), d. split; [|split].
    + unfold e2. simpl. rewrite !(trunc_small W64 base) by done. by eexists _, _.
    + by rewrite Hes, <-app_assoc.
    + by rewrite <-app_assoc in Hm'.
Qed.

(** The exponent is read. *)
Lemma power_exponent f x c mm es base exponent a0 : framed m f mm → es = events m →
  pointers_at (f RSI) [a0; base; exponent] (regs m RSP - 24) (regs m RSP) mm →
  0 ≤ base < 2 ^ 64 → 0 ≤ exponent < 2 ^ 64 →
  eventually prog answer
    (λ m', ∃ l, power_calls 3 base exponent (events m) l ∧ leaves ret (regs m RSP - 24) m l m')
    (Machine 6 f x c mm es).
Proof.
  intros Hf Hes Hps Hb He. pose proof (ptr_range _ _ _ _ _ Hps) as Hr. simpl in Hr.
  pose proof (ptr_load _ _ _ _ _ Hps 2%nat exponent eq_refl) as Lx.
  pose proof (ptr_load _ _ _ _ _ Hps 1%nat base eq_refl) as Lb.
  assert (trunc W64 (trunc W64 (f RSI)) = f RSI) as Hsi
    by (rewrite trunc_trunc; apply trunc_small; simpl; lia).
  assert (∀ d i, d = 8 * Z.of_nat i → (i ≤ 2)%nat →
    u64 (f RSI + 0 * 1 + d) = f RSI + 8 * Z.of_nat i) as Hu by (intros d i -> Hi; rewrite u64_small; lia).
  ins with (rewrite Hsi). ins with (rewrite (Hu 16 2%nat), Lx by lia).
  eapply ev_library; [done|done|done|]. cbv zeta. norm_pc. ins.
  match goal with |- eventually _ _ _ (Machine _ _ _ _ _ (_ ++ [?e])) => set (e1 := e) end.
  assert (call_with "atoi" exponent e1) as He1.
  { unfold e1. simpl. rewrite !(trunc_small W64 exponent) by done. by eexists _, _. }
  clearbody e1. destruct (Z.ltb_spec (signed W32 (answer (es ++ [e1]) RAX)) 0) as [Hneg|Hpos].
  - jcc_cmp true; [by apply Z.ltb_lt|]. ins. ins.
    eapply ev_mono; [eapply (power_puts _ _ _ _ _ [e1]); [|by rewrite Hes|reflexivity]|].
    + eapply framed_regs; [exact Hf|]. by intros [].
    + intros m' (e2 & He2 & Hm'). exists [e1; e2]. split; [|done]. subst es.
      eapply calls_negative; try done. simpl in He2. by rewrite !(trunc_small W64 err_msg_2) in He2 by done.
  - jcc_cmp false; [by apply Z.ltb_ge|].
    eapply ev_mono; [eapply (power_base _ _ _ _ _ [e1] base); try done|].
    + eapply framed_regs; [exact Hf|]. by intros [].
    + by rewrite Hes.
    + cbn [caller_saved]. rewrite (Hu 8 1%nat) by lia. exact Lb.
    + intros m' (e2 & b & d & He2 & Hbb & Hm'). eexists. split; [|exact Hm']. subst es.
      by eapply calls_print.
Qed.

Lemma power_body f x c mm es argc base exponent a0 :
  framed m f mm → es = events m → f RDI = argc → 0 ≤ argc < 2 ^ 31 →
  (argc = 3 → pointers_at (f RSI) [a0; base; exponent] (regs m RSP - 24) (regs m RSP) mm ∧
     0 ≤ base < 2 ^ 64 ∧ 0 ≤ exponent < 2 ^ 64) →
  eventually prog answer
    (λ m', ∃ l, power_calls argc base exponent (events m) l ∧ leaves ret (regs m RSP - 24) m l m')
    (Machine 4 f x c mm es).
Proof.
  intros Hf Hes Hdi Hargc Hptr. ins.
  assert (signed W64 (f RDI) = argc) as Hsd by (rewrite Hdi; apply signed_small; simpl; lia).
  destruct (decide (argc = 3)) as [->|Hne].
  - jcc_cmp false; [by rewrite Hsd|]. destruct (Hptr eq_refl) as (Hps & Hb & He).
    by eapply power_exponent.
  - jcc_cmp true.
    { rewrite Hsd. change (signed W64 3) with 3. by apply negb_true_iff, Z.eqb_neq. }
    ins. ins. jmp.
    eapply ev_mono; [eapply (power_puts _ _ _ _ _ []); [|by rewrite Hes, app_nil_r|reflexivity]|].
    + eapply framed_regs; [exact Hf|]. by intros [].
    + intros m' (e & He & Hm'). exists [e]. split; [|done]. apply calls_usage; [done|].
      simpl in He. by rewrite !(trunc_small W64 err_msg_1) in He by done.
Qed.
End body.

(** power.asm makes the calls of [power_calls] and keeps the convention. *)
Lemma power_run m ret argc base exponent a0 :
  enters 0 ret m → 24 ≤ regs m RSP → mapped (regs m RSP - 24) (regs m RSP) (mem m) →
  (∀ r, 0 ≤ regs m r < 2 ^ 64) → regs m RDI = argc → 0 ≤ argc < 2 ^ 31 →
  (argc = 3 →
     pointers_at (regs m RSI) [a0; base; exponent] (regs m RSP - 24) (regs m RSP) (mem m) ∧
     0 ≤ base < 2 ^ 64 ∧ 0 ≤ exponent < 2 ^ 64) →
  eventually prog answer
    (λ m', ∃ l, power_calls argc base exponent (events m) l ∧ leaves ret (regs m RSP - 24) m l m') m.
Proof.
  intros Hm H24 Hmap Hw Hdi Hargc Hptr. pose proof (en_sp _ _ _ Hm) as Hsp.
  pose proof (en_pc _ _ _ Hm) as Hpc. destruct m as [k f x c mm es]. simpl in Hpc. subst k.
  cbn [regs mem] in *.
  eapply power_enter with (sp := f RSP); [done|lia|done|done|].
  intros f' mm' Hsp' Hf' Hsv Hc.
  eapply (power_body (Machine 0 f x c mm es) ret); [by eexists|done|done| |done| |exact Hargc|].
  - constructor; cbn [regs mem]; [done|done| |done]. intros r _ _ _ _ Hr. by apply Hf'.
  - by rewrite Hf'.
  - intros H3. destruct (Hptr H3) as (Hps & Hb). split; [|exact Hb].
    rewrite Hf' by done. by eapply pointers_keep.
Qed.
End power.

(** ** fib *)

(** [inc] of a small counter. *)
Lemma counter_next z : 0 ≤ z < 2 ^ 32 → trunc W64 (trunc W64 z + 1) = z + 1.
Proof. intros Hz. rewrite (trunc_small W64 z), trunc_small; simpl; lia. Qed.

Section fib_table.
Context (format : Z) (Hformat : 0 ≤ format < 2 ^ 64).
#[local] Abbreviation prog := (fib_table format).

Definition fib_row (i : nat) : event :=
  Called "printf" [format; Z.of_nat i; fibonacci i].

(** A row: [rsi], [rdx] and [rbx] hold the index, its number and the next. *)
Lemma fib_row_run i f x c mm es sp (P : machine → Prop) :
  f RSP = sp → 16 ≤ sp < 2 ^ 64 - 8 → mapped (sp - 16) sp mm →
  f RSI = Z.of_nat i → f RDX = fibonacci i → f RBX = fibonacci (S i) → Z.of_nat i < max →
  (∀ f' c' mm', f' RSP = sp → f' RSI = Z.of_nat (S i) → f' RDX = fibonacci (S i) →
     f' RBX = fibonacci (S (S i)) →
     (∀ r, caller_saved r = false → r ≠ RBX → r ≠ RSP → f' r = f r) →
     changes (sp - 16) sp mm mm' →
     eventually prog answer P
       (Machine (if Z.of_nat (S i) <? max then 5 else 20) f' x c' mm' (es ++ [fib_row i]))) →
  eventually prog answer P (Machine 5 f x c mm es).
Proof.
  intros Hsp H16 Hmap Hsi Hdx Hbx Hi HP. unfold max in *.
  assert (∀ k, (k ≤ 21)%nat → 0 ≤ fibonacci k < 2 ^ 32) as Hfib.
  { intros k Hk. do 22 (destruct k as [|k]; [by vm_compute|]). lia. }
  ins. eapply ev_push with (sp := sp); [done|done|done|lia|eapply mapped_sub; [done|lia|lia]|].
  intros mm1 Hl1 Hc1. norm_pc.
  eapply ev_push with (sp := sp - 8); [done|done|done|lia| |].
  { eapply mapped_changes; [exact Hc1|]. eapply mapped_sub; [done|lia|lia]. }
  intros mm2 Hl2 Hc2. norm_pc. ins. ins.
  eapply ev_library; [done|done|done|]. cbv zeta. norm_pc.
  eapply ev_pop with (sp := sp - 8 - 8); [done|done|done|lia|exact Hl2|]. norm_pc.
  eapply ev_pop with (sp := sp - 8); [done|done|unfold upd; simpl; lia|lia| |].
  { erewrite load_changes; [exact Hl1|exact Hc2|lia..]. }
  norm_pc. ins. ins. ins. ins. ins. ins.
  pose proof (Hfib i ltac:(lia)) as Hfi. pose proof (Hfib (S i) ltac:(lia)) as Hfs.
  pose proof (Hfib (S (S i)) ltac:(lia)) as Hfss.
  change (fibonacci (S (S i))) with (fibonacci (S i) + fibonacci i) in *.
  rewrite !trunc_trunc, Hsi, Hdx, (trunc_small W64 format), counter_next by (done || lia).
  eapply ev_jcc with (b := Z.of_nat (S i) <? 20); [done|done|done|done| |].
  { etransitivity; [apply (holds_sub L W64); [simpl; lia|done]|]. cbn [compare].
    rewrite ?signed_trunc, !signed_small by (simpl; lia). f_equal. lia. }
  apply HP; unfold upd; cbn [reg_beq caller_saved].
  - lia.
  - lia.
  - by rewrite Hbx, ?trunc_trunc, trunc_small by (cbn [bits]; lia).
  - by rewrite Hbx, ?trunc_trunc, ?(trunc_small W64 (fibonacci _)), trunc_small by (cbn [bits]; lia).
  - intros r H1 H2 H3. by destruct r.
  - eapply changes_trans; eapply changes_weaken; [exact Hc1|..|exact Hc2|lia|lia]; lia.
Qed.

Lemma fib_rows j : ∀ i f x c mm es sp,
  f RSP = sp → 16 ≤ sp < 2 ^ 64 - 8 → mapped (sp - 16) sp mm →
  f RSI = Z.of_nat i → f RDX = fibonacci i → f RBX = fibonacci (S i) →
  Z.of_nat (i + S j) = max →
  eventually prog answer
    (λ m', pc m' = 20 ∧ regs m' RSP = sp ∧
       (∀ r, caller_saved r = false → r ≠ RBX → r ≠ RSP → regs m' r = f r) ∧
       changes (sp - 16) sp mm (mem m') ∧ events m' = es ++ (fib_row <$> seq i (S j)))
    (Machine 5 f x c mm es).
Proof.
  induction j as [|j IH]; intros i f x c mm es sp Hsp H16 Hmap Hsi Hdx Hbx Hj;
    eapply fib_row_run; try done; try lia; intros f' c' mm' Hsp' Hsi' Hdx' Hbx' Hf' Hc'.
  - rewrite (proj2 (Z.ltb_ge _ _)) by lia. by apply ev_here.
  - rewrite (proj2 (Z.ltb_lt _ _)) by lia.
    eapply ev_mono; [eapply (IH (S i) f'); try done; [by eapply mapped_changes|lia]|].
    intros m' (Hpc & Hr & Hsv & Hc2 & He). split; [done|]. split; [done|].
    split; [intros r H1 H2 H3; by rewrite Hsv, Hf'|]. split; [by eapply changes_trans|].
    by rewrite He, <-app_assoc.
Qed.

(** fib.asm prints the first twenty Fibonacci numbers, and leaves the stack
    and the registers to its caller as it found them. *)
Lemma fib_table_run m ret : enters 0 ret m → 0 ≤ regs m RBX < 2 ^ 64 → 24 ≤ regs m RSP →
  mapped (regs m RSP - 24) (regs m RSP) (mem m) →
  eventually prog answer (leaves ret (regs m RSP - 24) m (fib_row <$> seq 0 20)) m.
Proof.
  intros Hm Hbx H24 Hmap. enter Hm. cbn [regs mem] in *. pose proof (en_sp _ _ _ Hm) as Hsp.
  cbn [regs] in Hsp.
  ins. eapply ev_push with (sp := f RSP); [done|done|done|lia|eapply mapped_sub; [done|lia|lia]|].
  intros mm1 Hl1 Hc1. norm_pc. ins. ins. ins.
  eapply ev_trans; [apply (fib_rows 19 0 _ _ _ _ _ (f RSP - 8)); try done|].
  - lia.
  - eapply mapped_changes; [exact Hc1|]. eapply mapped_sub; [exact Hmap|lia|lia].
  - apply xor_self.
  - intros [k3 f3 x3 c3 mm3 es3] (Hpc & Hsp3 & Hsv & Hc3 & He). simpl in *. subst k3 es3.
    eapply ev_pop with (sp := f RSP - 8); [done|done|exact Hsp3|lia| |].
    { erewrite load_changes; [exact Hl1|exact Hc3|lia..]. }
    norm_pc. eapply ev_leave with (m := Machine 0 f x c mm es) (lo := f RSP - 24);
      [done|done|by eexists| | | |done|done].
    + simpl. unfold upd. simpl. lia.
    + intros r Hr' Hne. unfold upd. destruct r; try done; cbn [reg_beq]; try (rewrite Hsv by done; done).
      rewrite !(trunc_small W64) by (rewrite ?(trunc_small W64) by done; done). done.
    + simpl. eapply changes_trans; eapply changes_weaken; [exact Hc1|..|exact Hc3|lia|lia]; lia.
Qed.
End fib_table.

(** ** triangle *)

(** A line of [n] stars, and what the program writes. *)
Definition star_line (n : nat) : list Z := replicate n 42 ++ [10].
Definition triangle_text : list Z := concat (star_line <$> seq 1 10).

Section triangle.
Context (buffer : Z) (Hbuffer : 0 ≤ buffer) (Hend : buffer + buffer_size < 2 ^ 64).
#[local] Abbreviation prog := (triangle buffer).

(** The text [t] is in the buffer, and [rax] is after it. *)
Record drawn (t : list Z) (f : reg → Z) (mm : gmap Z Z) : Prop := {
  dr_text : string_at buffer t mm;
  dr_room : mapped buffer (buffer + buffer_size) mm;
  dr_rax : f RAX = buffer + Z.of_nat (length t)
}.

(** A byte is appended. *)
Lemma ev_putc b k t f x c mm es P :
  (k <? 0) = false → (k + 1 <? 0) = false →
  prog !! Z.to_nat k = Some (Ins (Mov W8 (Mem (Some RAX) None 1 0) (I b))) →
  prog !! Z.to_nat (k + 1) = Some (Ins (Inc W64 RAX)) →
  0 ≤ b < 256 → drawn t f mm → Z.of_nat (length t) < buffer_size →
  (∀ f' c' mm', drawn (t ++ [b]) f' mm' → (∀ r, r ≠ RAX → f' r = f r) →
     eventually prog answer P (Machine (k + 1 + 1) f' x c' mm' es)) →
  eventually prog answer P (Machine k f x c mm es).
Proof.
  intros Hk Hk1 Hp Hp1 Hb [Ht Hm Ha] Hlt HP. unfold buffer_size in *.
  assert (u64 (u64 (f RAX + 0 * 1 + 0)) = buffer + Z.of_nat (length t)) as Hu
    by (rewrite Ha, !u64_small; rewrite ?u64_small; lia).
  destruct (Hm (buffer + Z.of_nat (length t))) as [b0 Hb0]; [lia|].
  eapply ev_ins; [exact Hk|exact Hp|run_exec; cbn [store]; rewrite Hu, Hb0; reflexivity|].
  eapply ev_ins; [exact Hk1|exact Hp1|run_exec; reflexivity|].
  apply HP.
  - constructor.
    + rewrite !(trunc_small W8) by (rewrite ?(trunc_small W8) by (simpl; lia); simpl; lia).
      rewrite (Z.mod_small b) by lia. by apply string_snoc; [|lia].
    + intros z Hz. destruct (decide (buffer + Z.of_nat (length t) = z)) as [->|Hne];
        [rewrite lookup_insert_eq; by eexists|rewrite lookup_insert_ne by done; by apply Hm].
    + simpl. rewrite Ha, length_app, (trunc_small W64 (buffer + Z.of_nat (length t))) by (simpl; lia).
      rewrite trunc_small; simpl; lia.
  - by intros [].
Qed.

Lemma stars_loop j : ∀ t f x c mm es P,
  drawn t f mm → f RCX + Z.of_nat (S j) = f RBX → 0 ≤ f RCX → f RBX ≤ max_lines →
  Z.of_nat (length t + S j) ≤ buffer_size →
  (∀ f' c' mm', drawn (t ++ replicate (S j) 42) f' mm' → (∀ r, r ≠ RAX → r ≠ RCX → f' r = f r) →
     eventually prog answer P (Machine 10 f' x c' mm' es)) →
  eventually prog answer P (Machine 4 f x c mm es).
Proof.
  induction j as [|j IH]; intros t f x c mm es P Hd Hj H0 Hn Hlen HP; unfold max_lines in *; ins;
    (eapply ev_putc; [done|done|done|done|done|exact Hd|unfold buffer_size in *; lia|]);
    intros f1 c1 mm1 Hd1 Hf1; norm_pc;
    (ins with (rewrite (Hf1 RCX), counter_next by (done || lia))); ins.
  - jcc_cmp false.
    { rewrite Hf1, !signed_small by (done || (simpl; lia)). apply Z.ltb_ge. lia. }
    apply HP; [by destruct Hd1|]. intros r H1 H2. rewrite <-(Hf1 r) by done. by destruct r.
  - jcc_cmp true.
    { rewrite Hf1, !signed_small by (done || (simpl; lia)). apply Z.ltb_lt. lia. }
    eapply (IH (t ++ [42])); simpl; rewrite ?(Hf1 RBX) by done.
    + by destruct Hd1.
    + lia.
    + lia.
    + done.
    + rewrite length_app. simpl. lia.
    + intros f' c' mm' Hd' Hf'. apply HP.
      * by rewrite <-app_assoc in Hd'.
      * intros r H1 H2. rewrite Hf' by done. rewrite <-(Hf1 r) by done. by destruct r.
Qed.

(** The lines from [n] on. *)
Lemma lines_loop j : ∀ n t f x c mm es P,
  drawn t f mm → f RCX = 0 → f RBX = Z.of_nat (S n) → Z.of_nat (S n + j) = max_lines →
  Z.of_nat (length (t ++ concat (star_line <$> seq (S n) (S j)))) = buffer_size →
  (∀ f' c' mm', string_at buffer (t ++ concat (star_line <$> seq (S n) (S j))) mm' →
     eventually prog answer P (Machine 17 f' x c' mm' es)) →
  eventually prog answer P (Machine 4 f x c mm es).
Proof.
  induction j as [|j IH]; intros n t f x c mm es P Hd H0 Hn Hj Hlen HP; unfold max_lines in *;
    pose proof Hlen as Hlen0;
    cbn [seq fmap list_fmap concat] in Hlen, HP; unfold star_line in Hlen at 1; unfold star_line in HP at 1;
    rewrite !length_app, length_replicate in Hlen; simpl length in Hlen;
    (eapply (stars_loop n); [exact Hd|lia|lia|unfold max_lines; lia|lia|]);
    intros f1 c1 mm1 Hd1 Hf1; ins;
    (eapply ev_putc; [done|done|done|done|done|exact Hd1|rewrite length_app, length_replicate; lia|]);
    intros f2 c2 mm2 Hd2 Hf2; norm_pc; ins;
    (ins with (rewrite (Hf2 RBX), (Hf1 RBX), counter_next by (done || lia))); ins.
  - jcc_cmp false.
    { rewrite Hn, !signed_small by (done || (simpl; lia)). apply Z.leb_gt.
      unfold max_lines. lia. }
    apply HP. rewrite app_nil_r, app_assoc. by destruct Hd2.
  - jcc_cmp true.
    { rewrite Hn, !signed_small by (done || (simpl; lia)). apply Z.leb_le. unfold max_lines. lia. }
    eapply (IH (S n) ((t ++ replicate (S n) 42) ++ [10])); simpl.
    + by destruct Hd2.
    + apply xor_self.
    + lia.
    + unfold max_lines. lia.
    + rewrite <-Hlen0. cbn [seq fmap list_fmap concat]. unfold star_line.
      simpl. by rewrite <-!app_assoc.
    + intros f' c' mm' Hs. apply HP.
      eapply (eq_ind _ (λ t, string_at buffer t mm')); [exact Hs|].
      unfold star_line. simpl. by rewrite <-!app_assoc.
Qed.

Lemma triangle_run m : pc m = 0 → mapped buffer (buffer + buffer_size) (mem m) →
  eventually prog answer
    (λ m', pc m' = EXIT ∧ events m' = events m ++ [Write 1 triangle_text; Exit 0]) m.
Proof.
  intros Hpc Hmap. destruct m as [k f x c mm es]. cbn [pc mem events] in *. subst k.
  ins. ins. ins. ins. unfold buffer_size in *.
  eapply (lines_loop 9 0 []); simpl.
  - constructor; [split; [simpl; lia|done]|done|].
    simpl. rewrite trunc_trunc, trunc_small; simpl; lia.
  - apply xor_self.
  - done.
  - done.
  - done.
  - intros f1 c1 mm1 Hs. ins. ins. ins. ins. ins.
    eapply (ev_write _ 22 _ _ _ _ _ _ buffer triangle_text); try done; [|lia|].
    { simpl. rewrite trunc_trunc, trunc_small; [done|simpl; lia]. }
    intros f2 Hf2. norm_pc. ins. ins. eapply ev_exit; [done|done|done|done|].
    simpl. by rewrite <-app_assoc.
Qed.
End triangle.
End programs.
