(* ===== verification/AsmProperties.v ===== *)
(** The properties of the assembly exercises: what pangram.asm, fib.asm and
    the two versions of sum_to_n return, what power.asm prints, and that the C
    programs that test the functions pass. *)
From S2P Require Import Prelude Asm AsmLogic Pangram AsmExercises AsmTests AsmPrograms.
From Stdlib Require Import SpecFloat.
#[local] Open Scope Z_scope.

Lemma called prog answer m lo Q :
  eventually prog answer (returned EXIT lo m Q) m →
  returns prog answer m (λ m', restores lo m m' ∧ Q (regs m' RAX)).
Proof. apply (ev_returns prog answer (λ m', restores lo m m' ∧ Q (regs m' RAX))). Qed.

(** A machine at the entry of a function called with [args], for examples: 256
    bytes of stack below address 4096, its return address, and the memory
    [data]. *)
Definition example (args : list Z) (data : gmap Z Z) : machine :=
  Machine 0 (upd RSP 4088 (set_args arg_regs args (λ _, 0))) (λ _, S754_zero false) None
    (put_bytes 3840 (replicate 248 0) (put_bytes 4088 (replicate 8 255) data)) [].

Lemma put_bytes_other a s m x : x < a ∨ a + Z.of_nat (length s) ≤ x → put_bytes a s m !! x = m !! x.
Proof.
  revert a. induction s as [|b s IH]; intros a Hx; [done|]. simpl in *.
  rewrite lookup_insert_ne by lia. apply IH. lia.
Qed.

Lemma put_bytes_mapped a s m : 0 ≤ a → a + Z.of_nat (length s) ≤ 2 ^ 64 →
  mapped a (a + Z.of_nat (length s)) (put_bytes a s m).
Proof.
  intros Ha Hl x Hx. destruct (put_bytes_at a s m Ha Hl) as [_ Hb].
  destruct (lookup_lt_is_Some_2 s (Z.to_nat (x - a))) as [b Hs]; [lia|].
  exists b. rewrite <-(Hb _ _ Hs). f_equal. lia.
Qed.

Lemma example_enters args data : enters 0 EXIT (example args data).
Proof.
  constructor; [done|by unfold example, upd|]. exists (2 ^ 64 - 1). split; [|done].
  change (regs (example args data) RSP) with 4088. cbn [mem example].
  etransitivity; [apply (load_ext 8 4088 (put_bytes 4088 (replicate 8 255) ∅)); [done|done|]
                 |by vm_compute].
  intros x Hx. rewrite put_bytes_other by (simpl; lia).
  destruct (put_bytes_at 4088 (replicate 8 255) data) as [_ H1]; [done|done|].
  destruct (put_bytes_at 4088 (replicate 8 255) ∅) as [_ H2]; [done|done|].
  replace x with (4088 + Z.of_nat (Z.to_nat (x - 4088))) by lia.
  rewrite (H1 _ 255), (H2 _ 255); [done| |]; apply lookup_replicate_2; lia.
Qed.

Lemma example_stack args data : mapped 3840 4088 (mem (example args data)).
Proof. apply (put_bytes_mapped 3840 (replicate 248 0)); done. Qed.

Lemma example_data args data s a : data = put_bytes a s ∅ → 4096 ≤ a →
  a + Z.of_nat (length s) ≤ 2 ^ 64 → string_at a s (mem (example args data)).
Proof.
  intros -> Ha Hl. destruct (put_bytes_at a s ∅) as [Hr Hb]; [lia|done|]. split; [done|].
  intros i b Hi. cbn [mem example]. pose proof (lookup_lt_Some _ _ _ Hi).
  rewrite !put_bytes_other by (simpl; lia). by apply Hb.
Qed.

(** C10: pangram.asm is pangram.c: called with a NUL-terminated string in
    memory, the assembly function returns 1 when the C function of the same
    directory returns true and 0 when it returns false, whatever is in the
    registers and in the rest of the memory; it leaves the registers it has to
    and all memory as they were.  It stops reading at the last missing letter,
    compares signed bytes with '@' inclusively and clears the bits outside
    its mask at each step, all of which make no difference. *)
Theorem pangram_asm_is_c (answer : list event → reg → Z) (m : machine) (s rest : list Z) :
  enters 0 EXIT m → c_bytes s → string_at (regs m RDI) (terminated s rest) (mem m) →
  returns pangram answer m (λ m', restores (regs m RSP) m m' ∧
    X86.ispangram (terminated s rest) = Some (regs m' RAX =? 1) ∧
    regs m' RAX = Z.b2z (regs m' RAX =? 1)).
Proof.
  intros Hm Hs Hstr. destruct (called pangram answer m _ _ (pangram_run answer s rest m _ Hm Hs Hstr))
    as (n & m' & Hr & Hre & Hax).
  exists n, m'. split; [done|]. split; [done|]. rewrite Hax. unfold X86.ispangram.
  rewrite (x86_loop s rest 0 [] Hs seen_nil). simpl app. by destruct (covers 26 s).
Qed.

Lemma pangram_asm_is_c_witness :
  ∃ n m', run pangram (λ _ _, 0) n
    (example [5000] (put_bytes 5000 (terminated (seqZ 97 26) [1]) ∅)) = Ok m' ∧ regs m' RAX = 1.
Proof.
  destruct (pangram_asm_is_c (λ _ _, 0) (example [5000] (put_bytes 5000 (terminated (seqZ 97 26) [1]) ∅))
    (seqZ 97 26) [1]) as (n & m' & Hr & _ & Hp & Hax).
  - apply example_enters.
  - repeat constructor.
  - by apply example_data.
  - exists n, m'. split; [done|].
    assert (X86.ispangram (terminated (seqZ 97 26) [1]) = Some true) as Ht by by vm_compute.
    rewrite Ht in Hp. injection Hp as Hp. by rewrite Hax, <-Hp.
Defined.

(** C11: fib.asm computes the Fibonacci numbers modulo 2^32 (and returns a
    negative argument unchanged): it returns, with the registers that a
    function has to keep and the memory above its stack as they were, having
    pushed at most 16 bytes for each level of its double recursion. *)
Theorem fib_asm (answer : list event → reg → Z) (m : machine) (lo : Z) :
  let n := signed W32 (regs m RDI) in
  enters 0 EXIT m → 0 ≤ lo ≤ regs m RSP - 16 * Z.max 0 (n - 1) →
  mapped lo (regs m RSP) (mem m) →
  returns fib answer m (λ m', restores lo m m' ∧
    regs m' RAX = trunc W32 (if n <? 0 then n else fibonacci (Z.to_nat n))).
Proof.
  intros n Hm Hlo Hmap. apply (called fib answer m lo (λ v, v = trunc W32 (fib_value n))).
  by apply fib_run.
Qed.

Lemma fib_asm_witness :
  ∃ n m', run fib (λ _ _, 0) n (example [10] ∅) = Ok m' ∧ regs m' RAX = 55.
Proof.
  destruct (fib_asm (λ _ _, 0) (example [10] ∅) 3840) as (n & m' & Hr & _ & Hax).
  - apply example_enters.
  - done.
  - apply example_stack.
  - exists n, m'. by split.
Defined.

(** C39: the two versions of sum_to_n: for every int n both return.  The loop
    of sum_to_n.asm gives n (n + 1) / 2 modulo 2^32 when n is positive and n
    itself otherwise; the closed form of sum_to_n_2.asm, which shifts the
    product after it was cut to 32 bits, gives n (n + 1) / 2 modulo 2^31.  As
    ints both are the sum for n from 0 to 65535 and neither is for a greater
    n. *)
Theorem sum_to_n_versions (answer : list event → reg → Z) (m : machine) :
  let n := signed W32 (regs m RDI) in
  let sum := n * (n + 1) / 2 in
  enters 0 EXIT m →
  returns sum_to_n answer m (λ m', restores (regs m RSP) m m' ∧
    regs m' RAX = trunc W32 (if n <=? 0 then n else sum) ∧
    (0 ≤ n → (i32 (regs m' RAX) = sum ↔ n ≤ 65535))) ∧
  returns sum_to_n_2 answer m (λ m', restores (regs m RSP) m m' ∧
    regs m' RAX = sum mod 2 ^ 31 ∧
    (0 ≤ n → (i32 (regs m' RAX) = sum ↔ n ≤ 65535))).
Proof.
  intros n sum Hm. pose proof (signed_range W32 (regs m RDI)) as Hn. fold n in Hn. simpl in Hn.
  split.
  - destruct (called _ _ _ _ _ (sum_to_n_run answer m EXIT Hm)) as (k & m' & Hr & Hre & Hax).
    exists k, m'. split; [done|]. split; [done|]. fold n in Hax. unfold triangular in Hax.
    split; [exact Hax|]. intros H0. rewrite Hax, <-triangular_fits by lia. fold sum.
    assert (0 ≤ sum) by (apply Z.div_pos; nia).
    destruct (Z.leb_spec n 0); [|by apply i32_fits].
    assert (sum = n) as Heq by (unfold sum; by replace n with 0 by lia).
    rewrite <-Heq at 1. by apply i32_fits.
  - destruct (called _ _ _ _ _ (sum_to_n_2_run answer m EXIT Hm)) as (k & m' & Hr & Hre & Hax).
    exists k, m'. split; [done|]. split; [done|]. fold n in Hax. cbv zeta in Hax.
    rewrite half_product in Hax. fold sum in Hax.
    split; [exact Hax|]. intros H0. rewrite Hax, <-triangular_fits by lia. fold sum.
    assert (0 ≤ sum) by (apply Z.div_pos; nia). clearbody sum.
    unfold INT_MAX. rewrite i32_small by (unfold INT_MIN, INT_MAX; dlia). split; intros; dlia.
Qed.

Lemma sum_to_n_versions_witness :
  (∃ k m', run sum_to_n (λ _ _, 0) k (example [65536] ∅) = Ok m' ∧ regs m' RAX = 2147516416) ∧
  ∃ k m', run sum_to_n_2 (λ _ _, 0) k (example [65536] ∅) = Ok m' ∧ regs m' RAX = 32768.
Proof.
  destruct (sum_to_n_versions (λ _ _, 0) (example [65536] ∅)) as
    [(k & m' & Hr & _ & Hax & _) (k2 & m2 & Hr2 & _ & Hax2 & _)]; [apply example_enters|].
  split; [by exists k, m'|by exists k2, m2].
Defined.

(** C12: power.asm, on every branch: with other than two arguments it puts the
    usage message; it converts the second argument with atoi and puts the
    other message if the result, as an int, is negative; otherwise it converts
    the first one and prints, as an int, the low 32 bits of the power.  In
    each case it returns, makes no other call, and keeps the registers it has
    to and all memory but 24 bytes of its stack. *)
Theorem power_asm (answer : list event → reg → Z) (format err_msg_1 err_msg_2 : Z)
    (m : machine) (argc a0 base exponent : Z) :
  0 ≤ format < 2 ^ 64 → 0 ≤ err_msg_1 < 2 ^ 64 → 0 ≤ err_msg_2 < 2 ^ 64 →
  enters 0 EXIT m → 24 ≤ regs m RSP → mapped (regs m RSP - 24) (regs m RSP) (mem m) →
  (∀ r, 0 ≤ regs m r < 2 ^ 64) → regs m RDI = argc → 0 ≤ argc < 2 ^ 31 →
  (argc = 3 →
     pointers_at (regs m RSI) [a0; base; exponent] (regs m RSP - 24) (regs m RSP) (mem m) ∧
     0 ≤ base < 2 ^ 64 ∧ 0 ≤ exponent < 2 ^ 64) →
  returns (power format err_msg_1 err_msg_2) answer m (λ m', ∃ l,
    power_calls answer format err_msg_1 err_msg_2 argc base exponent (events m) l ∧
    events m' = events m ++ l ∧
    regs m' RSP = regs m RSP + 8 ∧
    (∀ r, caller_saved r = false → r ≠ RSP → regs m' r = regs m r) ∧
    changes (regs m RSP - 24) (regs m RSP) (mem m) (mem m')).
Proof.
  intros Hf H1 H2 Hm H24 Hmap Hw Hdi Hargc Hptr. apply ev_returns.
  eapply ev_mono; [by apply (power_run answer format err_msg_1 err_msg_2 Hf H1 H2 m EXIT argc base exponent a0)|].
  intros m' (l & Hl & Hpc & [Hsp Hsv Hc Hes]). split; [done|]. by exists l.
Qed.

(** The example has three arguments at 5000. *)
Definition example_argv : list Z :=
  [0x88; 0x13; 0; 0; 0; 0; 0; 0; 0x70; 0x17; 0; 0; 0; 0; 0; 0; 0x58; 0x1b; 0; 0; 0; 0; 0; 0].

Lemma example_load n args data x : 4096 ≤ x → x + Z.of_nat n ≤ 2 ^ 64 →
  load n x (mem (example args data)) = load n x data.
Proof.
  intros Hx Hn. apply load_ext; [lia|done|]. intros y Hy. cbn [mem example].
  by rewrite !put_bytes_other by (simpl; lia).
Qed.

Lemma power_asm_witness :
  ∃ k m' a b c d e,
    run (power 8000 8016 8032) (λ es _, if (length es =? 1)%nat then 10 else 2) k
      (example [3; 5000] (put_bytes 5000 example_argv ∅)) = Ok m' ∧
    events m' = [Called "atoi" [7000; a; b]; Called "atoi" [6000; c; d];
                 Called "printf" [8000; 1024; e]].
Proof.
  destruct (power_asm (λ es _, if (length es =? 1)%nat then 10 else 2) 8000 8016 8032
    (example [3; 5000] (put_bytes 5000 example_argv ∅)) 3 5000 6000 7000)
    as (k & m' & Hr & l & Hl & Hes & _); try done.
  - apply example_enters.
  - eapply mapped_sub; [apply example_stack|done|done].
  - intros r. unfold example, upd. cbn [regs]. case_match; [done|]. by apply set_args_range.
  - intros _. split; [|done]. constructor; [done|right; done|].
    intros [|[|[|i]]] p [= <-]; rewrite example_load by done; by vm_compute.
  - exists k, m'. destruct Hl as [e Hne _|e1 e2 _ _ Hneg _|e1 e2 n b d _ He1 -> _ He2 ->]; [done|done|].
    destruct He1 as (a1 & b1 & ->), He2 as (a2 & b2 & ->). exists a1, b1, a2, b2, d. by split.
Defined.

(** *** The test programs *)

(** What the test programs find in the machine: a stack, their literals, room
    for the matrices in the frame of [main], and the constants of cone.asm. *)
Record test_machine (lit : list Z → Z) (matrix1 matrix2 matrix3 PI THIRD : Z) (m : machine) : Prop := {
  tm_stack : stack 184 m;
  tm_literals : literals lit (pangram_literals ++ binary_literals) m;
  tm_matrix1 : frame W32 matrix1 4 m;
  tm_matrix2 : frame W32 matrix2 4 m;
  tm_matrix3 : frame W32 matrix3 6 m;
  tm_constants : constants PI THIRD m
}.

(** The tests.c of the six exercises; the first is linked with either
    version of the function. *)
Definition tests (answer : list event → reg → Z) (lit : list Z → Z)
    (matrix1 matrix2 matrix3 PI THIRD : Z) : list (nat → comp machine unit) :=
  [sum_to_n_main answer sum_to_n; sum_to_n_main answer sum_to_n_2;
   matrix_main answer matrix1 matrix2 matrix3; pangram_main answer lit;
   binary_convert_main answer lit; cone_main answer PI THIRD; fib_main answer].

Lemma stack_sub n k m : stack n m → 0 ≤ k ≤ n → stack k m.
Proof.
  intros (H1 & H2 & H3) Hk. split; [lia|]. split; [lia|]. eapply mapped_sub; [exact H3|lia|lia].
Qed.

Lemma settles_True {A} (c : nat → comp machine A) m (Q : A → machine → Prop) :
  settles c m Q → settles c m (λ _ _, True).
Proof. intros (n & a & m' & Hc & _). by exists n, a, m'. Qed.

(** C40: the C programs that test the assembly functions pass: each tests.c of
    the six exercises, given enough steps, ends without a failed assertion,
    whatever the registers hold when it starts and wherever the linker and the
    compiler put its strings, its constants and its arrays.  The one of
    02-sum-to-n passes with either version of the function. *)
Theorem assembly_tests_pass (answer : list event → reg → Z) (lit : list Z → Z)
    (matrix1 matrix2 matrix3 PI THIRD : Z) (m : machine) :
  test_machine lit matrix1 matrix2 matrix3 PI THIRD m →
  Forall (λ main : nat → comp machine unit,
    ∃ n, ∀ fuel, (n ≤ fuel)%nat → wp (main fuel) m (λ _ _, True))
    (tests answer lit matrix1 matrix2 matrix3 PI THIRD).
Proof.
  intros [Hst Hlit H1 H2 H3 Hcs].
  assert (stack (0 + 8) m) as Hst8 by (eapply stack_sub; [exact Hst|done]).
  assert (∀ l, l ⊆ pangram_literals ++ binary_literals → literals lit l m) as Hl.
  { intros l Hsub s Hs. by apply Hlit, Hsub. }
  repeat apply Forall_cons_2; [..|by apply Forall_nil_2]; eapply settles_wp, settles_True.
  - by apply sum_to_n_main_passes.
  - by apply sum_to_n_main_passes.
  - by apply matrix_main_passes.
  - apply pangram_main_passes; [done|]. apply Hl. intros s Hs. apply elem_of_app. by left.
  - apply binary_convert_main_passes; [done|]. apply Hl. intros s Hs. apply elem_of_app. by right.
  - by apply cone_main_passes.
  - by apply fib_main_passes.
Qed.

(** An example of such a machine: literals at multiples of 64 from 5120 on,
    arrays and constants from 8192 on. *)
Fixpoint layout (a : Z) (ss : list (list Z)) (m : gmap Z Z) : gmap Z Z :=
  match ss with
  | [] => m
  | s :: ss => put_bytes a (terminated s []) (layout (a + 64) ss m)
  end.

Definition short (s : list Z) : Prop := (length s < 64)%nat.

Lemma layout_other ss : ∀ a m x, Forall short ss →
  x < a ∨ a + 64 * Z.of_nat (length ss) ≤ x → layout a ss m !! x = m !! x.
Proof.
  induction ss as [|s ss IH]; intros a m x Hs Hx; [done|].
  apply Forall_cons in Hs as [Hs Hss]. unfold short in Hs. simpl length in Hx. simpl.
  rewrite put_bytes_other by (unfold terminated; rewrite length_app; simpl; lia).
  apply IH; [done|lia].
Qed.

Lemma layout_at ss : ∀ a m i s, Forall short ss → 0 ≤ a →
  a + 64 * Z.of_nat (length ss) ≤ 2 ^ 64 → ss !! i = Some s →
  string_at (a + 64 * Z.of_nat i) (terminated s []) (layout a ss m).
Proof.
  induction ss as [|t ss IH]; intros a m i s Hs Ha Hl Hi; [done|].
  apply Forall_cons in Hs as [Ht Hss]. unfold short in Ht. simpl length in Hl.
  assert (length (terminated t []) = S (length t)) as Hlen
    by (unfold terminated; rewrite length_app; simpl; lia).
  destruct i as [|i]; simpl in Hi |- *.
  - injection Hi as ->. rewrite Z.add_0_r. apply put_bytes_at; lia.
  - destruct (IH (a + 64) m i s Hss) as [Hr Hb]; [lia|lia|done|].
    replace (a + 64 * Z.of_nat (S i)) with (a + 64 + 64 * Z.of_nat i) by lia.
    split; [done|]. intros j b Hj. rewrite put_bytes_other by lia. by apply Hb.
Qed.

Definition example_lit (s : list Z) : Z :=
  match list_find (λ t, t = s) (pangram_literals ++ binary_literals) with
  | Some (i, _) => 5120 + 64 * Z.of_nat i
  | None => 0
  end.

Definition example_constants : list Z :=
  replicate 56 0 ++ [0xdb; 0x0f; 0x49; 0x40; 0xab; 0xaa; 0xaa; 0x3e].

Definition example_memory : gmap Z Z :=
  layout 5120 (pangram_literals ++ binary_literals) (put_bytes 8192 example_constants ∅).

Lemma example_short : Forall short (pangram_literals ++ binary_literals).
Proof.
  assert (forallb (λ s, (length s <? 64)%nat) (pangram_literals ++ binary_literals) = true) as H
    by by vm_compute.
  rewrite forallb_forall in H. apply Forall_forall. intros s Hs.
  apply Nat.ltb_lt, H, list_elem_of_In, Hs.
Qed.

Lemma example_memory_high x : 8192 ≤ x →
  mem (example [] example_memory) !! x = put_bytes 8192 example_constants ∅ !! x.
Proof.
  intros Hx. cbn [mem example]. rewrite !put_bytes_other by (simpl; lia).
  apply layout_other; [apply example_short|simpl; lia].
Qed.

Lemma example_test_machine :
  test_machine example_lit 8192 8208 8224 8248 8252 (example [] example_memory).
Proof.
  assert (mapped 8192 8256 (mem (example [] example_memory))) as Hmap.
  { intros x Hx. rewrite example_memory_high by lia.
    by apply (put_bytes_mapped 8192 example_constants). }
  constructor.
  - split; [done|]. split; [done|]. eapply mapped_sub; [apply example_stack|done|done].
  - intros s Hs. unfold example_lit.
    destruct (list_find _ _) as [[i t]|] eqn:Hf.
    + apply list_find_Some in Hf as (Hi & -> & _). pose proof (lookup_lt_Some _ _ _ Hi) as Hlt.
      change (length _) with 14%nat in Hlt. split; [|right; change (regs _ RSP) with 4088; lia].
      destruct (layout_at (pangram_literals ++ binary_literals) 5120
        (put_bytes 8192 example_constants ∅) i s) as [Hr Hb];
        [apply example_short|done|done|done|]. split; [done|].
      intros j b Hj. cbn [mem example]. rewrite !put_bytes_other by (simpl; lia). by apply Hb.
    + apply list_find_None in Hf. rewrite Forall_forall in Hf. by destruct (Hf s Hs).
  - split; [done|]. split; [done|]. eapply mapped_sub; [exact Hmap|done|done].
  - split; [done|]. split; [done|]. eapply mapped_sub; [exact Hmap|done|done].
  - split; [done|]. split; [done|]. eapply mapped_sub; [exact Hmap|done|done].
  - intros a v Ha.
    assert (a = 8248 ∨ a = 8252) as Hcases by (repeat (apply elem_of_cons in Ha as [[= -> _]|Ha];
      [lia|]); by apply elem_of_nil in Ha).
    split; [lia|]. split; [|right; change (regs _ RSP) with 4088; lia].
    etransitivity; [apply (load_ext 4 a (put_bytes 8192 example_constants ∅)); [lia|lia|]|].
    + intros x Hx. apply example_memory_high. lia.
    + repeat (apply elem_of_cons in Ha as [[= -> ->]|Ha]; [by vm_compute|]).
      by apply elem_of_nil in Ha.
Qed.

Lemma assembly_tests_pass_witness :
  Forall (λ main : nat → comp machine unit,
    ∃ n, ∀ fuel, (n ≤ fuel)%nat → wp (main fuel) (example [] example_memory) (λ _ _, True))
    (tests (λ _ _, 0) example_lit 8192 8208 8224 8248 8252).
Proof. apply assembly_tests_pass, example_test_machine. Defined.
