(* ===== verification/BitCount.v ===== *)
(** Counting one bits (02-computer-systems/02-introduction-to-c/02-bitcount/
    bitcount.c): [bitcount] is one call of a builtin of the compiler, whose
    documented result is [popcount]; [main] repeats its assertions and prints
    durations. *)
From S2P Require Import Prelude.
#[local] Open Scope Z_scope.

(** ** The program *)

(** The places of the one bits of an [unsigned int]. *)
Definition ones (n : Z) : list Z := filter (λ i, Z.testbit n i = true) (seqZ 0 32).

(** [__builtin_popcount], which GCC documents: the number of one bits of its
    argument, an [unsigned int]. *)
Definition popcount (n : Z) : Z := Z.of_nat (length (ones n)).

Definition bitcount (n : Z) : Z := popcount (u32 n).

(** The assertions in the innermost loop of [main]. *)
Definition assertions {S} : comp S unit :=
  c_assert (bitcount 0 =? 0);;
  c_assert (bitcount 1 =? 1);;
  c_assert (bitcount 3 =? 2);;
  c_assert (bitcount 8 =? 1);;
  c_assert (bitcount 0xffffffff =? 32).

Definition UINT64_MAX : Z := 2 ^ 64 - 1.

(** A loop that counts from 0 to [n]; its counter is not used. *)
Fixpoint for_count {S} (n : nat) (body : comp S unit) : comp S unit :=
  match n with O => mret tt | Datatypes.S n => body;; for_count n body end.

(** The [float] nearest to an integer, the even one of two, as an integer: it
    has 24 binary digits. *)
Definition to_float (z : Z) : Z :=
  let e := Z.log2 (Z.abs z) - 23 in
  if e <=? 0 then z else
  let '(q, r, half) := (z / 2 ^ e, z mod 2 ^ e, 2 ^ (e - 1)) in
  (if (r <? half) || ((r =? half) && Z.even q) then q else q + 1) * 2 ^ e.

Inductive line := Elapsed (i d : Z) | Okay.

Section main.
(** What the calls of [clock] return; the state is how many there were, and
    what has been printed. *)
Context (clock : nat → Z).
#[local] Abbreviation M := (comp (nat * list line)).

Definition read_clock : M Z := λ '(n, out), Ok (to_float (clock n), (Datatypes.S n, out)).
Definition print (l : line) : M unit := λ '(n, out), Ok (tt, (n, out ++ [l])).

Definition main_round (i : Z) : M unit :=
  start_time ← read_clock;
  let n := Z.to_nat UINT64_MAX in
  for_count n (for_count n (for_count n (for_count n assertions)));;
  end_time ← read_clock;
  print (Elapsed i (end_time - start_time)).

Fixpoint main_rounds (rounds : list Z) : M unit :=
  match rounds with [] => mret tt | i :: rounds => main_round i;; main_rounds rounds end.

Definition main : M unit := main_rounds (seqZ 0 10);; print Okay.
End main.

(** ** Lemmas *)

Lemma elem_of_ones n i : i ∈ ones n ↔ 0 ≤ i < 32 ∧ Z.testbit n i = true.
Proof. unfold ones. rewrite list_elem_of_filter, elem_of_seqZ. rewrite Z.add_0_l. tauto. Qed.

Lemma NoDup_ones n : NoDup (ones n).
Proof. apply NoDup_filter, NoDup_seqZ. Qed.

(** The bits that are set are a set of that size. *)
Lemma popcount_size n (X : gset Z) :
  (∀ i, 0 ≤ i < 32 → Z.testbit n i = true ↔ i ∈ X) → (∀ i, i ∈ X → 0 ≤ i < 32) →
  popcount n = Z.of_nat (size X).
Proof.
  intros Hn HX. unfold popcount. f_equal.
  rewrite <-(size_list_to_set (C:=gset Z)) by apply NoDup_ones. f_equal.
  apply set_eq. intros i. rewrite elem_of_list_to_set, elem_of_ones. split.
  - intros [Hi Hb]. by apply Hn.
  - intros Hi. split; [by apply HX|]. by apply Hn; [apply HX|].
Qed.

(** ** The properties *)

(** The assertions of [main] hold, however often they are repeated. *)
Lemma assertions_hold {S} (s : S) : assertions s = Ok (tt, s).
Proof. reflexivity. Qed.

Lemma for_count_keeps {S} n (body : comp S unit) :
  (∀ s, body s = Ok (tt, s)) → ∀ s, for_count n body s = Ok (tt, s).
Proof.
  intros Hbody. induction n as [|n IH]; intros s; [done|]. cbn [for_count].
  unfold mbind, comp_bind. by rewrite Hbody.
Qed.

(** The whole program: it ends, no assertion fails, and it prints for each
    round the difference of the clock's values as [float]s, then the last
    line. *)
Theorem bitcount_main clock :
  main clock (0%nat, []) = Ok (tt, (20%nat,
    map (λ i, Elapsed i (to_float (clock (Z.to_nat (2 * i + 1))) - to_float (clock (Z.to_nat (2 * i)))))
      (seqZ 0 10) ++ [Okay])).
Proof.
  assert (∀ n s, for_count (S := nat * list line) n
    (for_count n (for_count n (for_count n assertions))) s = Ok (tt, s)) as Hloops.
  { intros n. repeat apply for_count_keeps. apply assertions_hold. }
  assert (∀ i n out, main_round clock i (n, out) =
    Ok (tt, (S (S n), out ++ [Elapsed i (to_float (clock (S n)) - to_float (clock n))]))) as Hround.
  { intros i n out. unfold main_round, mbind, comp_bind. cbn [read_clock].
    rewrite Hloops. done. }
  unfold main. change (seqZ 0 10) with [0; 1; 2; 3; 4; 5; 6; 7; 8; 9]. cbn [main_rounds].
  unfold mbind, comp_bind. by rewrite !Hround.
Qed.

(** The cast of the clock to [float]: above 2^24 ticks a duration is only
    right up to half a unit of the last of 24 digits. *)
Theorem to_float_error z :
  Z.abs (to_float z - z) ≤ if Z.log2 (Z.abs z) <=? 23 then 0 else 2 ^ (Z.log2 (Z.abs z) - 24).
Proof.
  unfold to_float. destruct (Z.leb_spec (Z.log2 (Z.abs z)) 23) as [Hle|Hgt].
  { rewrite (proj2 (Z.leb_le _ 0)) by lia. lia. }
  rewrite (proj2 (Z.leb_gt _ 0)) by lia. set (e := Z.log2 (Z.abs z) - 23).
  replace (Z.log2 (Z.abs z) - 24) with (e - 1) by lia.
  assert (2 ^ e = 2 * 2 ^ (e - 1)) as He
    by (rewrite <-Z.pow_succ_r by lia; f_equal; lia).
  pose proof (Z.pow_pos_nonneg 2 (e - 1) ltac:(lia) ltac:(lia)).
  pose proof (Z.div_mod z (2 ^ e) ltac:(lia)). pose proof (Z.mod_pos_bound z (2 ^ e) ltac:(lia)).
  destruct (Z.ltb_spec (z mod 2 ^ e) (2 ^ (e - 1))); [cbn [orb]; lia|].
  destruct (Z.eqb_spec (z mod 2 ^ e) (2 ^ (e - 1))); [|cbn [orb andb]; lia].
  destruct (Z.even _); cbn [orb andb]; lia.
Qed.
