(* ===== verification/SigLog.v ===== *)
(** The signal programs of 05-operating-systems/02-programs-and-processes: the
    logger (02-signal-logger/siglog.c), whose handler may be interrupted by
    other signals and leaves by a long jump after a SIGSEGV, and the box
    (01-signalbox/signalbox.c).  A schedule is a list of actions: a signal
    arrives, or the innermost handler, or else [main], goes one step on. *)
From S2P Require Import Prelude BitCount.
#[local] Open Scope Z_scope.

(** ** siglog.c *)

Definition SIGKILL : Z := 9.
Definition SIGSEGV : Z := 11.
Definition SIGSTOP : Z := 19.
Definition NSIG : Z := 65.

(** What is printed: the line of the handler, or a number by [main]. *)
Inductive line := Caught (sig total : Z) | Number (n : Z).

(** The steps of [handle]: [handled] is read, written and read again. *)
Inductive point := Entry | Assign (v : Z) | Report | Leave.
#[export] Instance point_eq_dec : EqDecision point.
Proof. solve_decision. Defined.
Record frame := Frame { sig : Z; at_point : point }.

(** The places in [main]: before the first [sigsetjmp]; at the test of the
    loop; at [*p = 5]; in the loop that sleeps. *)
Inductive place := Setup | Test (ret : Z) | Deref | Spin.

(** [handled] and [handle]'s static [i]; the running handlers, innermost
    first; where [main] is; what was printed. *)
Record state := State {
  handled : Z; i : Z; frames : list frame; pc : place; out : list line
}.

Definition start : state := State 0 1 [] Setup [].

(** [1 << sig], an [int].  Here the shift into the sign, which GCC defines
    ([Pangram.v] relies on that), is a fault as in C: the theorems then say
    that no signal they allow comes to it. *)
Definition shift_one (sig : Z) : res Z :=
  if (sig <? 0) || (32 <=? sig) then Fault BadShift
  else if INT_MAX <? Z.shiftl 1 sig then Fault SignedOverflow
  else Ok (Z.shiftl 1 sig).

(** A step of the handler [f], called on top of [rest].  [signal] blocks the
    signal while its handler runs; [siglongjmp] goes to [main], abandons every
    handler and restores the mask. *)
Definition handle (f : frame) (rest : list frame) (s : state) : res state :=
  match at_point f with
  | Entry =>
      match shift_one (sig f) with
      | Ok b => Ok (State (handled s) (i s)
                      (Frame (sig f) (Assign (Z.lor (handled s) (u64 b))) :: rest) (pc s) (out s))
      | Fault e => Fault e
      | OutOfFuel => OutOfFuel
      end
  | Assign v => Ok (State v (i s) (Frame (sig f) Report :: rest) (pc s) (out s))
  | Report => Ok (State (handled s) (i s) (Frame (sig f) Leave :: rest) (pc s)
                    (out s ++ [Caught (sig f) (popcount (u32 (handled s)))]))
  | Leave =>
      if sig f =? SIGSEGV then
        match pc s with
        | Setup => Fault DeadFrame
        | _ => if i s =? INT_MAX then Fault SignedOverflow
               else Ok (State (handled s) (i s + 1) [] (Test (i s)) (out s))
        end
      else Ok (State (handled s) (i s) rest (pc s) (out s))
  end.

(** A step of [main], after the signals were registered. *)
Definition main_step (s : state) : state :=
  let go fs p o := State (handled s) (i s) fs p o in
  match pc s with
  | Setup => go [] (Test 0) (out s)
  | Test ret => if ret <? 10 then go [] Deref (out s ++ [Number ret]) else go [] Spin (out s)
  | Deref => go [Frame SIGSEGV Entry] Deref (out s)
  | Spin => s
  end.

Inductive action := Arrive (sig : Z) | Step.

(** Whether a signal can be caught now. *)
Definition deliverable (nested : bool) (n : Z) (s : state) : bool :=
  (1 <=? n) && (n <? NSIG) && negb (n =? SIGKILL) && negb (n =? SIGSTOP) &&
  forallb (λ f, negb (sig f =? n)) (frames s) &&
  (nested || match frames s with [] => true | _ => false end).

(** [nested] tells whether signals may come while a handler runs. *)
Definition exec (nested : bool) (a : action) (s : state) : option (res state) :=
  match a with
  | Arrive n =>
      if deliverable nested n s
      then Some (Ok (State (handled s) (i s) (Frame n Entry :: frames s) (pc s) (out s)))
      else None
  | Step => Some (match frames s with
                  | f :: rest => handle f rest s
                  | [] => Ok (main_step s)
                  end)
  end.

Fixpoint run (nested : bool) (acts : list action) (s : state) : option (res state) :=
  match acts with
  | [] => Some (Ok s)
  | a :: acts => match exec nested a s with
                 | Some (Ok s) => run nested acts s
                 | r => r
                 end
  end.

(** ** signalbox.c *)

Module Box.
(** [main] clears the flag, draws, is about to pause, sleeps in [pause]. *)
Inductive place := Clear | Draw | Pausing | Asleep.
Record state := State { resized : bool; pc : place; boxes : nat }.

Definition sigaction_handler (s : state) : state := State true (pc s) (boxes s).

Inductive action := Winch | Step.

(** A SIGWINCH runs the handler, and [pause] returns if it was asleep. *)
Definition exec (a : action) (s : state) : option state :=
  match a, pc s with
  | Winch, Asleep => Some (State (resized (sigaction_handler s)) Clear (boxes s))
  | Winch, _ => Some (sigaction_handler s)
  | Step, Clear => Some (State false Draw (boxes s))
  | Step, Draw => Some (State (resized s) Pausing (S (boxes s)))
  | Step, Pausing => Some (State (resized s) Asleep (boxes s))
  | Step, Asleep => None
  end.

Definition run (acts : list action) : option state :=
  foldl (λ o a, o ≫= exec a) (Some (State false Clear 0)) acts.

(** A signal between the drawing and the pause is not seen: the program sleeps
    with the flag set and one box drawn. *)
Example resize_missed :
  run [Step; Step; Winch; Step] = Some (State true Asleep 1) ∧
  run [Step; Step; Winch; Step; Step] = None.
Proof. done. Qed.
End Box.

(** ** What the logger printed *)

(** The signals and the numbers, in order. *)
Definition signals (o : list line) : list Z :=
  omap (λ l, match l with Caught n _ => Some n | Number _ => None end) o.
Definition numbers (o : list line) : list Z :=
  omap (λ l, match l with Number n => Some n | Caught _ _ => None end) o.

(** Every total is the number of distinct signals up to its line. *)
Definition totals_ok (o : list line) : Prop :=
  ∀ k n total, o !! k = Some (Caught n total) →
    total = Z.of_nat (size (list_to_set (signals (take (S k) o)) : gset Z)).

(** The actions of a schedule whose signals can be shifted and are not
    SIGSEGV. *)
Definition mild (a : action) : Prop :=
  match a with Arrive n => n < 31 ∧ n ≠ SIGSEGV | Step => True end.

Definition arrivals (acts : list action) : nat :=
  sum_list_with (λ a, match a with Arrive _ => 1 | Step => 0 end)%nat acts.

Definition steps (acts : list action) : nat :=
  sum_list_with (λ a, match a with Arrive _ => 0 | Step => 1 end)%nat acts.

(** ** Lemmas *)

Lemma signals_app o1 o2 : signals (o1 ++ o2) = signals o1 ++ signals o2.
Proof. apply omap_app. Qed.

Lemma numbers_app o1 o2 : numbers (o1 ++ o2) = numbers o1 ++ numbers o2.
Proof. apply omap_app. Qed.

Lemma shift_one_Ok n b : shift_one n = Ok b → 0 ≤ n < 31 ∧ b = 2 ^ n.
Proof.
  unfold shift_one. destruct ((n <? 0) || (32 <=? n)) eqn:E; [done|].
  apply orb_false_iff in E as [H1 H2]. zcases. rewrite Z.shiftl_1_l.
  destruct (Z.ltb_spec INT_MAX (2 ^ n)); [done|]. intros [= <-]. split; [|done].
  split; [lia|]. destruct (decide (n < 31)) as [|Hge]; [done|].
  assert (n = 31) as -> by lia. done.
Qed.

Lemma shift_one_small n : 0 ≤ n < 31 → shift_one n = Ok (2 ^ n).
Proof.
  intros Hn. unfold shift_one. rewrite (proj2 (Z.ltb_ge n 0)), (proj2 (Z.leb_gt 32 n)) by lia.
  simpl. rewrite Z.shiftl_1_l. rewrite (proj2 (Z.ltb_ge _ _)); [done|].
  unfold INT_MAX. assert (2 ^ n ≤ 2 ^ 30) by (apply Z.pow_le_mono_r; lia). lia.
Qed.

(** A run by its last action. *)
Lemma run_app nested acts1 acts2 s :
  run nested (acts1 ++ acts2) s =
  match run nested acts1 s with Some (Ok s') => run nested acts2 s' | r => r end.
Proof.
  revert s. induction acts1 as [|a acts1 IH]; intros s; [done|]. simpl.
  destruct (exec nested a s) as [[s'|f|]|]; done || apply IH.
Qed.

(** Rule induction on runs. *)
Lemma run_invariant nested (P : action → Prop) (I : state → Prop) acts s r :
  (∀ a s r, P a → I s → exec nested a s = Some r → ∃ s', r = Ok s' ∧ I s') →
  I s → Forall P acts → run nested acts s = Some r → ∃ s', r = Ok s' ∧ I s'.
Proof.
  intros Hstep. revert s. induction acts as [|a acts IH]; intros s HI HP Hr; simpl in Hr.
  { simplify_eq. by exists s. }
  apply Forall_cons in HP as [Ha HP].
  destruct (exec nested a s) as [r'|] eqn:E; [|done].
  destruct (Hstep _ _ _ Ha HI E) as (s' & -> & HI'). by apply (IH s').
Qed.

(** *** The totals *)

(** The signals of a set are the bits of [h]. *)
Definition bits (h : Z) (X : gset Z) : Prop :=
  (∀ n, 0 ≤ n → Z.testbit h n = bool_decide (n ∈ X)) ∧ (∀ n, n ∈ X → 0 ≤ n < 31).

Lemma bits_popcount h X : bits h X → popcount (u32 h) = Z.of_nat (size X).
Proof.
  intros [Hb HX]. apply popcount_size.
  - intros n Hn. unfold u32. rewrite Z.mod_pow2_bits_low, Hb by lia. by rewrite bool_decide_eq_true.
  - intros n Hn. specialize (HX n Hn). lia.
Qed.

Lemma bits_add h X n :
  bits h X → 0 ≤ n < 31 → bits (Z.lor h (u64 (2 ^ n))) ({[n]} ∪ X).
Proof.
  intros [Hb HX] Hn.
  assert (0 < 2 ^ n ≤ 2 ^ 30) by (split; [lia|apply Z.pow_le_mono_r; lia]).
  rewrite u64_small by lia. split.
  - intros m Hm. rewrite Z.lor_spec, Hb, Z.pow2_bits_eqb by lia.
    apply eq_true_iff_eq.
    rewrite orb_true_iff, !bool_decide_eq_true, Z.eqb_eq, elem_of_union, elem_of_singleton.
    split; intros [?|?]; auto.
  - intros m [->%elem_of_singleton|Hm]%elem_of_union; [done|by apply HX].
Qed.

(** The handler that runs, if any, between its reading and its printing. *)
Definition log_inv (s : state) : Prop :=
  let X : gset Z := list_to_set (signals (out s)) in
  totals_ok (out s) ∧
  match frames s with
  | [] => bits (handled s) X
  | [Frame n Entry] | [Frame n Leave] => bits (handled s) X
  | [Frame n (Assign v)] => 0 ≤ n < 31 ∧ bits (handled s) X ∧ v = Z.lor (handled s) (u64 (2 ^ n))
  | [Frame n Report] => bits (handled s) ({[n]} ∪ X)
  | _ => False
  end.

Lemma totals_ok_number o n : totals_ok o → totals_ok (o ++ [Number n]).
Proof.
  intros Ho k m total Hk. apply lookup_snoc_Some in Hk as [[Hk Ho']|[_ [=]]].
  rewrite take_app_le by lia. by apply (Ho k m).
Qed.

Lemma totals_ok_caught o n :
  totals_ok o →
  totals_ok (o ++ [Caught n (Z.of_nat (size ({[n]} ∪ list_to_set (signals o) : gset Z)))]).
Proof.
  intros Ho k m total Hk. apply lookup_snoc_Some in Hk as [[Hk Ho']|[-> [= -> <-]]].
  - rewrite take_app_le by lia. by apply (Ho k m).
  - rewrite take_ge by (rewrite length_app; simpl; lia).
    rewrite signals_app, list_to_set_app_L. simpl.
    by rewrite union_empty_r_L, (union_comm_L _ {[m]}).
Qed.

Lemma log_inv_step a s r s' :
  log_inv s → exec false a s = Some r → r = Ok s' → log_inv s'.
Proof.
  intros [Ht Hf] He ->. destruct a as [n|]; simpl in He.
  - destruct (deliverable false n s) eqn:Hd; [|done]. simplify_eq. split; [done|].
    unfold deliverable in Hd. destruct (frames s); [done|].
    by rewrite andb_false_r in Hd.
  - destruct (frames s) as [|[n p] rest] eqn:Efs.
    + unfold main_step in He. destruct (pc s) as [|ret| |]; simplify_eq; try by split.
      * destruct (ret <? 10); simplify_eq; split; simpl; try done.
        -- by apply totals_ok_number.
        -- by rewrite signals_app, app_nil_r.
      * split; [done|]. by rewrite Efs.
    + destruct rest; [|by destruct p]. unfold handle in He. simpl in He. destruct p as [|v| |].
      * destruct (shift_one n) as [b|f|] eqn:Hb; simplify_eq.
        apply shift_one_Ok in Hb as [Hn ->]. by split.
      * simplify_eq. split; [done|]. simpl. destruct Hf as (Hn & Hb & ->). by apply bits_add.
      * simplify_eq. split; simpl.
        -- rewrite (bits_popcount _ _ Hf). by apply totals_ok_caught.
        -- rewrite signals_app, list_to_set_app_L. simpl.
           by rewrite union_empty_r_L, union_comm_L.
      * destruct (n =? SIGSEGV); [|by simplify_eq].
        destruct (pc s); try done; destruct (i s =? INT_MAX); by simplify_eq.
Qed.

Lemma bits_0 : bits 0 ∅.
Proof.
  split; [|done]. intros n Hn. rewrite Z.bits_0. symmetry. by apply bool_decide_eq_false_2.
Qed.

Lemma run_log_inv acts s s' :
  log_inv s → run false acts s = Some (Ok s') → log_inv s'.
Proof.
  revert s. induction acts as [|a acts IH]; intros s HI Hr; simpl in Hr; [by simplify_eq|].
  destruct (exec false a s) as [[s1|f|]|] eqn:E; try done.
  eapply IH; [|done]. by eapply log_inv_step.
Qed.

(** *** The numbers *)

(** The numbers printed below [k]. *)
Definition upto (k : Z) (s : state) : Prop := numbers (out s) = seqZ 0 k.

(** The running handlers by their signals. *)
Definition running (s : state) : list Z := sig <$> frames s.

(** The handler of a SIGSEGV runs only while [main] is at its store; [i] is one
    more than the number of long jumps. *)
Definition main_inv (s : state) : Prop :=
  Forall (λ n, 0 ≤ n < 31) (running s) ∧
  match pc s with
  | Setup => i s = 1 ∧ upto 0 s ∧ SIGSEGV ∉ running s
  | Test ret => 0 ≤ ret ≤ 10 ∧ i s = ret + 1 ∧ upto ret s ∧ SIGSEGV ∉ running s
  | Deref => 1 ≤ i s ≤ 10 ∧ upto (i s) s
  | Spin => upto 10 s ∧ SIGSEGV ∉ running s
  end.

Lemma main_inv_same s s' :
  main_inv s → running s' = running s → pc s' = pc s → i s' = i s →
  numbers (out s') = numbers (out s) → main_inv s'.
Proof. unfold main_inv, upto. by intros HI -> -> -> ->. Qed.

Lemma upto_snoc k s h i' fs p :
  upto k s → 0 ≤ k → upto (k + 1) (State h i' fs p (out s ++ [Number k])).
Proof.
  unfold upto. intros Hk Hpos. simpl. rewrite numbers_app, Hk. simpl.
  by rewrite seqZ_app by lia.
Qed.

(** What a handler that is not at its end leaves as it is, and its end. *)
Lemma handle_spec f rest s :
  0 ≤ sig f < 31 → (at_point f = Leave → sig f ≠ SIGSEGV) →
  ∃ s', handle f rest s = Ok s' ∧ pc s' = pc s ∧ i s' = i s ∧
    numbers (out s') = numbers (out s) ∧
    running s' = (if decide (at_point f = Leave) then [] else [sig f]) ++ (sig <$> rest).
Proof.
  intros Hn Hl. unfold handle. destruct (at_point f) eqn:Hp.
  - rewrite shift_one_small by done. eexists. split; [done|]. by repeat split.
  - eexists. split; [done|]. by repeat split.
  - eexists. split; [done|]. do 2 (split; [done|]). simpl. by rewrite numbers_app, app_nil_r.
  - rewrite (proj2 (Z.eqb_neq _ _)) by (by apply Hl). eexists. split; [done|]. by repeat split.
Qed.

Lemma main_inv_step nested a s r :
  mild a → main_inv s → exec nested a s = Some r → ∃ s', r = Ok s' ∧ main_inv s'.
Proof.
  intros Ha HI He. pose proof HI as [Hsig Hpc]. destruct a as [n|]; simpl in He.
  - destruct (deliverable nested n s) eqn:Hd; [|done]. simplify_eq.
    eexists. split; [done|]. destruct Ha as [Hn Hseg].
    unfold deliverable in Hd. rewrite !andb_true_iff in Hd.
    destruct Hd as [[[[[H1 _] _] _] _] _]. apply Z.leb_le in H1.
    split; [apply Forall_cons; split; [simpl; lia|done]|].
    unfold upto, running in *. simpl.
    assert (SIGSEGV ∉ sig <$> frames s → SIGSEGV ∉ n :: (sig <$> frames s)) as Hni.
    { intros H [?|?]%elem_of_cons; [congruence|done]. }
    destruct (pc s); intuition auto.
  - unfold running in Hsig. destruct (frames s) as [|f rest] eqn:Hfs.
    + unfold main_step in He. destruct (pc s) as [|ret| |] eqn:Hpc'.
      * simplify_eq. eexists. split; [done|]. split; [constructor|].
        destruct Hpc as (Hi & Hu & _). split; [lia|]. split; [simpl; lia|]. split; [done|].
        apply not_elem_of_nil.
      * destruct Hpc as (Hr & Hi & Hu & _). destruct (Z.ltb_spec ret 10); simplify_eq;
          (eexists; split; [done|]; split; [constructor|]); simpl.
        -- split; [lia|]. pose proof (upto_snoc ret s (handled s) (i s) [] Deref Hu) as Hs.
           rewrite <-Hi in Hs. apply Hs. lia.
        -- assert (ret = 10) as -> by lia. split; [done|apply not_elem_of_nil].
      * simplify_eq. eexists. split; [done|]. by split; [repeat constructor|].
      * simplify_eq. eexists. split; [done|]. done.
    + rewrite fmap_cons in Hsig. apply Forall_cons in Hsig as [Hf Hrest].
      destruct (decide (at_point f = Leave ∧ sig f = SIGSEGV)) as [[Hl Hs]|Hn].
      * assert (pc s = Deref) as Hd.
        { destruct (pc s); try done; exfalso; unfold running in Hpc; rewrite Hfs in Hpc;
            rewrite fmap_cons, elem_of_cons, Hs in Hpc; intuition. }
        rewrite Hd in Hpc. destruct Hpc as [Hi Hu].
        unfold handle in He. rewrite Hl, Hs, Hd in He. simpl in He.
        rewrite (proj2 (Z.eqb_neq _ _)) in He by (unfold INT_MAX; lia). simplify_eq.
        eexists. split; [done|]. split; [constructor|]. simpl.
        split; [lia|]. split; [done|]. split; [done|]. apply not_elem_of_nil.
      * destruct (handle_spec f rest s) as (s' & Hh & H1 & H2 & H3 & H4); [done|tauto|].
        rewrite Hh in He. simplify_eq. exists s'. split; [done|].
        assert (running s' ⊆ running s) as Hsub.
        { rewrite H4. unfold running. rewrite Hfs, fmap_cons. case_decide; simpl;
            [by apply list_subseteq_cons|done]. }
        split.
        -- rewrite Forall_forall in Hrest |- *. intros z Hz. apply Hsub in Hz.
           unfold running in Hz. rewrite Hfs, fmap_cons, elem_of_cons in Hz.
           destruct Hz as [->|Hz]; [done|by apply Hrest].
        -- unfold upto in *. rewrite H1, H2, H3. destruct (pc s); intuition auto.
Qed.

(** *** How long it takes *)

(** The steps a handler still has to go. *)
Definition left_of (f : frame) : nat :=
  match at_point f with Entry => 4 | Assign _ => 3 | Report => 2 | Leave => 1 end.

(** The steps until [main] sleeps, if no more signals arrive. *)
Definition todo (s : state) : nat :=
  let rounds ret := (6 * Z.to_nat (10 - ret) + 1)%nat in
  sum_list_with left_of (frames s) +
  match pc s with
  | Setup => 1 + rounds 0
  | Test ret => rounds ret
  | Deref => (if decide (SIGSEGV ∈ running s) then 0 else 5) + rounds (i s)
  | Spin => 0
  end.

Lemma todo_step nested a s s' :
  mild a → main_inv s → exec nested a s = Some (Ok s') →
  (pc s = Spin → pc s' = Spin) ∧
  match a with
  | Arrive _ => (todo s' ≤ todo s + 4)%nat
  | Step => pc s' = Spin ∨ (todo s' < todo s)%nat
  end.
Proof.
  intros Ha [Hsig Hpc] He. destruct a as [n|]; simpl in He.
  - destruct (deliverable nested n s); [|done]. simplify_eq. split; [done|].
    destruct Ha as [_ Hn]. unfold todo, running. cbn [frames pc i sum_list_with].
    change (left_of (Frame n Entry)) with 4%nat. destruct (pc s); try lia.
    destruct (decide (SIGSEGV ∈ sig <$> Frame n Entry :: frames s)) as [Hin|Hin],
      (decide (SIGSEGV ∈ sig <$> frames s)) as [Hin'|Hin']; try lia.
    destruct Hin. by right.
  - unfold running in *. destruct (frames s) as [|f rest] eqn:Hfs.
    + unfold main_step in He. unfold todo, running. rewrite Hfs. simpl.
      destruct (pc s) as [|ret| |] eqn:Hpc'.
      * simplify_eq. simpl. split; [done|right]. lia.
      * destruct Hpc as (Hr & Hi & _ & _).
        destruct (Z.ltb_spec ret 10); simplify_eq.
        -- simpl. rewrite Hi. split; [done|right]. lia.
        -- split; [done|by left].
      * simplify_eq. simpl. split; [done|right]. lia.
      * simplify_eq. split; [done|by left].
    + rewrite fmap_cons in Hsig. apply Forall_cons in Hsig as [Hf Hrest].
      destruct (decide (at_point f = Leave ∧ sig f = SIGSEGV)) as [[Hl Hs]|Hn].
      * unfold handle in He. rewrite Hl, Hs in He. simpl in He.
        assert (SIGSEGV ∈ sig <$> f :: rest) as Hin by (rewrite <-Hs; by left).
        destruct (pc s) eqn:Hd; [done|exfalso; tauto| |exfalso; tauto].
        destruct (i s =? INT_MAX); simplify_eq. split; [done|right].
        unfold todo, running. rewrite Hd, Hfs, (decide_True _ _ Hin). simpl.
        unfold left_of at 1. rewrite Hl. lia.
      * destruct (handle_spec f rest s) as (s1 & Hh & H1 & H2 & H3 & H4); [done|tauto|].
        pose proof Hh as Hh'. rewrite Hh in He. simplify_eq. split; [congruence|right].
        unfold todo. rewrite H1, H2, H4. unfold running. rewrite Hfs.
        assert (sum_list_with left_of (frames s') < sum_list_with left_of (f :: rest))%nat as Hlt.
        { unfold handle in Hh'. cbn [sum_list_with]. unfold left_of at 2.
          destruct (at_point f) eqn:Hp; [rewrite shift_one_small in Hh' by done| | |
            rewrite (proj2 (Z.eqb_neq _ _)) in Hh' by tauto]; simplify_eq;
            cbn [frames sum_list_with left_of at_point]; lia. }
        destruct (pc s); try lia.
        assert (SIGSEGV ∈ sig <$> f :: rest → SIGSEGV ∈
          (if decide (at_point f = Leave) then [] else [sig f]) ++ (sig <$> rest)) as Hin.
        { rewrite fmap_cons, elem_of_app, elem_of_cons. intros [Hs|?]; [left|by right].
          rewrite decide_False by (intros ?; by apply Hn). by apply list_elem_of_singleton. }
        destruct (decide (SIGSEGV ∈ sig <$> f :: rest)), (decide (SIGSEGV ∈ _ ++ _));
          tauto || lia.
Qed.

Lemma run_settles nested acts s s' :
  Forall mild acts → main_inv s → run nested acts s = Some (Ok s') →
  (pc s = Spin → pc s' = Spin) ∧
  (pc s' = Spin ∨ (todo s' + steps acts ≤ todo s + 4 * arrivals acts)%nat).
Proof.
  intros Hm. revert s. induction acts as [|a acts IH]; intros s HI Hr; simpl in Hr.
  { simplify_eq. split; [done|]. right. unfold steps, arrivals. simpl. lia. }
  apply Forall_cons in Hm as [Ha Hm].
  destruct (exec nested a s) as [[s1|f|]|] eqn:E; try done.
  destruct (main_inv_step _ _ _ _ Ha HI E) as (s2 & [= <-] & HI1).
  destruct (todo_step _ _ _ _ Ha HI E) as [Hspin Ht].
  destruct (IH Hm s1 HI1 Hr) as [Hspin' Hto]. split; [auto|].
  destruct Hto as [Hto|Hto]; [by left|]. unfold steps, arrivals in *. simpl.
  destruct a; [right; lia|]. destruct Ht as [Ht|Ht]; [left; auto|right; lia].
Qed.

Lemma main_inv_start : main_inv start.
Proof. split; [constructor|]. simpl. split; [done|]. split; [done|]. apply not_elem_of_nil. Qed.

Lemma log_inv_start : log_inv start.
Proof. split; [by intros k n total|]. apply bits_0. Qed.

Lemma todo_pos s : pc s ≠ Spin → (0 < todo s)%nat.
Proof. unfold todo. destruct (pc s); lia || done. Qed.

(** ** The properties *)

(** C25: siglog: as long as no signal comes while a handler runs, the total of
    every line that [handle] prints is the number of distinct signals caught
    up to that line. *)
Theorem siglog_totals acts s :
  run false acts start = Some (Ok s) → totals_ok (out s).
Proof. intros Hr. by apply (run_log_inv acts start s log_inv_start). Qed.

Lemma siglog_totals_witness :
  totals_ok [Caught 17 1; Number 0; Caught 17 1; Caught 11 2].
Proof.
  apply (siglog_totals ([Arrive 17] ++ replicate 6 Step ++ [Arrive 17] ++ replicate 9 Step)
    (State (2 ^ 17 + 2 ^ 11) 2 [] (Test 1) [Caught 17 1; Number 0; Caught 17 1; Caught 11 2])).
  by vm_compute.
Defined.

(** C26: siglog: with signals below 31 other than SIGSEGV, at any moment, also
    inside handlers, there is no undefined behaviour, and [main] survives its
    own SIGSEGVs: it prints 0, 1, 2, ... in order, and after 62 steps and 4
    more for each signal it has printed all of 0 to 9 and sleeps for ever. *)
Theorem siglog_main_counts nested acts r :
  Forall mild acts → run nested acts start = Some r →
  ∃ s, r = Ok s ∧ numbers (out s) `prefix_of` seqZ 0 10 ∧
    ((62 + 4 * arrivals acts ≤ steps acts)%nat → pc s = Spin ∧ numbers (out s) = seqZ 0 10).
Proof.
  intros Hm Hr.
  destruct (run_invariant nested mild main_inv acts start r) as (s & -> & HI);
    [intros; by eapply main_inv_step|apply main_inv_start|done|done|].
  exists s. split; [done|]. split.
  - assert (∃ k, 0 ≤ k ≤ 10 ∧ upto k s) as (k & Hk & ->).
    { destruct HI as [_ Hpc]. destruct (pc s) as [|ret| |];
        [exists 0|exists ret|exists (i s)|exists 10]; (split; [lia|tauto]). }
    replace 10 with (k + (10 - k)) by lia. rewrite seqZ_app by lia. by apply prefix_app_r.
  - intros Hlen.
    destruct (run_settles _ _ _ _ Hm main_inv_start Hr) as [_ Hto].
    assert (pc s = Spin) as Hs.
    { destruct Hto as [|Hto]; [done|]. change (todo start) with 62%nat in Hto.
      pose proof (todo_pos s). destruct (pc s); [..|done]; exfalso; lia || naive_solver lia. }
    split; [done|]. destruct HI as [_ Hpc]. rewrite Hs in Hpc. apply Hpc.
Qed.

(** A SIGCHLD inside the handler of the first SIGSEGV. *)
Lemma siglog_main_counts_witness :
  let acts := replicate 4 Step ++ [Arrive 17] ++ replicate 63 Step in
  ∃ r, run true acts start = Some r ∧
  ∃ s, r = Ok s ∧ numbers (out s) `prefix_of` seqZ 0 10 ∧
    ((62 + 4 * arrivals acts ≤ steps acts)%nat → pc s = Spin ∧ numbers (out s) = seqZ 0 10).
Proof.
  intros acts. eexists. split; [vm_compute; reflexivity|].
  apply (siglog_main_counts true acts); [|vm_compute; reflexivity].
  subst acts. rewrite !Forall_app. split; [by repeat constructor|].
  split; [by repeat constructor|by repeat constructor].
Defined.

(** The handler is not atomic: a SIGINT between the reading and the writing of
    [handled] is lost, and both signals are reported as the first. *)
Example siglog_lost_signal :
  let acts := [Arrive 17; Step; Arrive 2] ++ replicate 7 Step in
  option_map (λ r, match r with Ok s => out s | _ => [] end) (run true acts start) =
    Some [Caught 2 1; Caught 17 1].
Proof. by vm_compute. Qed.

(** [1 << sig] is an [int]: every real-time signal, and SIGSYS, is undefined
    behaviour. *)
Lemma siglog_high_signal nested s n :
  31 ≤ n → deliverable nested n s = true →
  run nested [Arrive n; Step] s =
    Some (Fault (if n =? 31 then SignedOverflow else BadShift)).
Proof.
  intros Hn Hd. unfold run, exec. rewrite Hd. unfold handle. cbn [frames at_point sig].
  unfold shift_one. rewrite (proj2 (Z.ltb_ge n 0)) by lia. simpl orb.
  destruct (Z.eqb_spec n 31) as [->|Hne]; [done|]. by rewrite (proj2 (Z.leb_le 32 n)) by lia.
Qed.
