(* ===== verification/Measure.v ===== *)
(** The programs that measure the system: processor time
    (05-operating-systems/01-introduction/01-cpu-timing/cputime.c, and the
    profiling of the multi-threaded merge sort in its own cputime.c), the
    blocks of a growing file (03-byte-write/byte_write.c), and a page shared
    with a child (04-virtual-memory/01-basic-mmap/share.c).  What the system
    answers is a parameter; the modules compute what is printed. *)
From S2P Require Import Prelude.
#[local] Open Scope Z_scope.

(** ** cputime.c *)

Module Cputime.

(** What [times] and [getcpu] answer at one point: clock ticks since some
    point of the past, user and system ticks of the process, the processor. *)
Record reading := Reading { rtime : Z; tms_utime : Z; tms_stime : Z; cpu : Z }.

Record profile_info := Info {
  title : string; rtime_start : Z; utime_start : Z; stime_start : Z
}.

(** The prefix of a line, with the digit of its colour; a title; the three
    durations in ticks and the ticks per second they are divided by. *)
Inductive event :=
  | Prefix (digit pid cpu : Z) | Title (s : string) | Log (real user sys tics : Z).

Section programs.
(** [getpid()], [sysconf(_SC_CLK_TCK)], and the readings in their order. *)
Context (pid tics : Z) (clock : nat → reading).

Definition log_prefix (r : reading) : event := Prefix (48 + Z.rem pid 7 + 1) pid (cpu r).

(** [n] readings have been taken. *)
Definition profile_start (t : string) (n : nat) : profile_info * list event * nat :=
  let r := clock n in
  (Info t (rtime r) (tms_utime r) (tms_stime r), [log_prefix r; Title t], S n).

Definition profile_log (t : profile_info) (n : nat) : list event * nat :=
  let r := clock n in
  ([log_prefix r; Log (rtime r - rtime_start t) (tms_utime r - utime_start t)
                      (tms_stime r - stime_start t) tics], S n).

(** A title and what is done under it, which prints nothing. *)
Definition profile (t : string) (n : nat) : list event * nat :=
  let '(info, out, n) := profile_start t n in
  let '(out', n) := profile_log info n in
  (out ++ out', n).

Definition main : list event * nat :=
  let '(out1, n) := profile "profile doing a bunch of floating point muls" 0 in
  let '(out2, n) := profile "profile doing a bunch of mallocs" n in
  let '(out3, n) := profile "profile sleeping" n in
  (out1 ++ out2 ++ out3, n).
End programs.

(** On clocks that do not go back, no duration is negative, and the colour is
    one of the digits 1 to 7. *)
Theorem main_prints_durations pid tics clock :
  0 ≤ pid →
  (∀ n, rtime (clock n) ≤ rtime (clock (S n)) ∧ tms_utime (clock n) ≤ tms_utime (clock (S n)) ∧
        tms_stime (clock n) ≤ tms_stime (clock (S n))) →
  ∀ e, e ∈ (main pid tics clock).1 →
    match e with
    | Prefix digit _ _ => 49 ≤ digit ≤ 55
    | Title _ => True
    | Log real user sys _ => 0 ≤ real ∧ 0 ≤ user ∧ 0 ≤ sys
    end.
Proof.
  intros Hp Hc e. pose proof (Z.rem_bound_pos pid 7 Hp ltac:(lia)).
  pose proof (Hc 0%nat). pose proof (Hc 2%nat). pose proof (Hc 4%nat).
  simpl. rewrite !elem_of_cons, elem_of_nil.
  intuition (subst; cbn [log_prefix]; lia || done).
Qed.
End Cputime.

(** ** The cputime.c of the merge sort *)

Module Profile.

Record timeval := Timeval { tv_sec : Z; tv_usec : Z }.
(** What [gettimeofday] and [getrusage] answer. *)
Record reading := Reading { wall : timeval; ru_utime : timeval; ru_stime : timeval }.
(** [struct profile_times]. *)
Record profile_times := Times {
  wall_clock_usec : Z; user_cpu_usec : Z; kernel_cpu_usec : Z
}.

Definition TOTAL_USEC (tv : timeval) : Z := 1000000 * tv_sec tv + tv_usec tv.

(** [ebx] of the processor's leaf 1. *)
Definition getcpuid (ebx : Z) : Z := Z.shiftr ebx 24.

Definition profile_start (r : reading) : profile_times :=
  Times (u64 (TOTAL_USEC (wall r))) (u64 (TOTAL_USEC (ru_utime r))) (u64 (TOTAL_USEC (ru_stime r))).

(** The three differences that are printed. *)
Definition profile_log (t : profile_times) (r : reading) : profile_times :=
  Times (u64 (TOTAL_USEC (wall r) - wall_clock_usec t))
        (u64 (TOTAL_USEC (ru_utime r) - user_cpu_usec t))
        (u64 (TOTAL_USEC (ru_stime r) - kernel_cpu_usec t)).

Lemma u64_diff a b : u64 (a - u64 b) = u64 (a - b).
Proof. unfold u64. by rewrite Zminus_mod_idemp_r. Qed.

(** A clock that is set back between the two readings makes the difference of
    its times wrap around; otherwise it is the time that has passed. *)
Theorem profile_elapsed r1 r2 :
  - 2 ^ 63 ≤ TOTAL_USEC (wall r2) - TOTAL_USEC (wall r1) < 2 ^ 63 →
  let d := TOTAL_USEC (wall r2) - TOTAL_USEC (wall r1) in
  wall_clock_usec (profile_log (profile_start r1) r2) = if d <? 0 then 2 ^ 64 + d else d.
Proof.
  intros Hd d. unfold profile_log, profile_start. cbn [wall_clock_usec]. rewrite u64_diff.
  fold d in Hd |- *. unfold u64. destruct (Z.ltb_spec d 0); dlia.
Qed.

(** The number of a processor has eight bits. *)
Lemma getcpuid_range ebx : 0 ≤ ebx < 2 ^ 32 → 0 ≤ getcpuid ebx < 256.
Proof. intros H. unfold getcpuid. rewrite Z.shiftr_div_pow2 by lia. dlia. Qed.
End Profile.

(** ** byte_write.c *)

Module ByteWrite.

Definition MAX_BYTES : Z := Z.shiftl 1 20.

(** A line: the size, the blocks and the disk usage. *)
Definition line : Type := Z * Z * Z.

Section programs.
(** Whether [fopen], [setvbuf], [fclose] and [remove] succeed; whether the
    write of byte [i] does, and the size and blocks [fstat] gives then. *)
Context (fopen setvbuf fclose remove : bool) (fwrite : Z → bool) (fstat : Z → option (Z * Z)).

(** What is printed, and the status of the exit; [error] is 1. *)
Definition error (out : list line) : list line * Z := (out, 1).

Fixpoint write_bytes (n : nat) (i blks : Z) (out : list line)
    (k : list line → list line * Z) : list line * Z :=
  match n with
  | O => k out
  | S n =>
      if negb (fwrite i) then error out else
      match fstat i with
      | None => error out
      | Some (st_size, st_blocks) =>
          if negb (blks =? st_blocks)
          then write_bytes n (i + 1) st_blocks (out ++ [(st_size, st_blocks, Z.shiftl st_blocks 9)]) k
          else write_bytes n (i + 1) blks out k
      end
  end.

Definition main : list line * Z :=
  if negb fopen || negb setvbuf then error [] else
  write_bytes (Z.to_nat MAX_BYTES) 0 0 [] (λ out,
    if negb fclose || negb remove then error out else (out, 0)).

(** The line for byte [i], where the blocks were [prev] before. *)
Definition line_of (prev i : Z) : option line :=
  '(size, blocks) ← fstat i;
  if decide (blocks = prev) then None else Some (size, blocks, 512 * blocks).

Definition blocks_before (i : Z) : Z :=
  if decide (i = 0) then 0 else from_option snd 0 (fstat (i - 1)).

Lemma write_bytes_lines n : ∀ i out k,
  0 ≤ i → (∀ j, 0 ≤ j < i + Z.of_nat n → fwrite j = true ∧ is_Some (fstat j)) →
  write_bytes n i (blocks_before i) out k =
    k (out ++ omap (λ j, line_of (blocks_before j) j) (seqZ i (Z.of_nat n))).
Proof.
  induction n as [|n IH]; intros i out k Hi Hok; cbn [write_bytes].
  { simpl. by rewrite app_nil_r. }
  destruct (Hok i ltac:(lia)) as [Hw [[size blocks] Hf]]. rewrite Hw, Hf. cbn [negb].
  assert (blocks_before (i + 1) = blocks) as Hnext.
  { unfold blocks_before. rewrite decide_False by lia. by rewrite Z.add_simpl_r, Hf. }
  rewrite seqZ_cons by lia. cbn [omap list_omap]. unfold line_of at 1. rewrite Hf. simpl.
  replace (Z.pred (Z.of_nat (S n))) with (Z.of_nat n) by lia. rewrite <-Z.add_1_r.
  destruct (Z.eqb_spec (blocks_before i) blocks) as [Heq|Hne].
  - rewrite decide_True by done. cbn [negb]. rewrite Heq, <-Hnext at 1. apply IH; [lia|].
    intros j Hj. apply Hok. lia.
  - rewrite decide_False by done. cbn [negb].
    rewrite Z.shiftl_mul_pow2, (Z.mul_comm blocks) by lia. change (2 ^ 9) with 512.
    rewrite <-Hnext at 1. rewrite IH; [by rewrite <-app_assoc|lia|].
    intros j Hj. apply Hok. lia.
Qed.

(** When no call fails, a line is printed for just those bytes after which
    the file has another number of blocks than before, and the program
    returns 0. *)
Theorem main_prints_growth :
  fopen = true → setvbuf = true → fclose = true → remove = true →
  (∀ i, 0 ≤ i < 2 ^ 20 → fwrite i = true ∧ is_Some (fstat i)) →
  main = (omap (λ i, line_of (blocks_before i) i) (seqZ 0 (2 ^ 20)), 0).
Proof.
  intros Ho Hs Hc Hr Hok. unfold main. rewrite Ho, Hs, Hc, Hr. cbn [negb orb].
  change 0 with (blocks_before 0) at 2. rewrite write_bytes_lines; [|lia|].
  - unfold MAX_BYTES. rewrite Z.shiftl_mul_pow2, Z2Nat.id by lia. by rewrite Z.mul_1_l.
  - intros j Hj. apply Hok. unfold MAX_BYTES in Hj.
    rewrite Z.shiftl_mul_pow2, Z2Nat.id in Hj by lia. lia.
Qed.
End programs.
End ByteWrite.

(** ** share.c *)

Module Share.

(** The place of the parent, before the call named, and of the child. *)
Inductive pplace := PMmap | PStore | PFork | PWait | PRead | PDone (status : Z).
Inductive cplace := CStore | CPrint | CDone.
Inductive event := Child_written (n : Z) | Parent_reads (n : Z).

(** [addr] is the shared integer, once it is mapped. *)
Record state := State {
  addr : option Z; parent : pplace; child : option cplace; out : list event
}.

Section programs.
(** Whether [mmap] and [fork] succeed; the child's [rand()]. *)
Context (mmap fork : bool) (rand : Z).

Definition parent_step (s : state) : option state :=
  match parent s with
  | PMmap => Some (if mmap then State (Some 0) PStore (child s) (out s)
                   else State None (PDone 1) (child s) (out s))
  | PStore => Some (State (Some 0) PFork (child s) (out s))
  | PFork => Some (State (addr s) PWait (if fork then Some CStore else None) (out s))
  | PWait => match child s with
             | Some CDone | None => Some (State (addr s) PRead (child s) (out s))
             | Some _ => None
             end
  | PRead => match addr s with
             | Some n => Some (State None (PDone 0) (child s) (out s ++ [Parent_reads n]))
             | None => None
             end
  | PDone _ => None
  end.

Definition child_step (s : state) : option state :=
  match child s with
  | Some CStore => Some (State (Some rand) (parent s) (Some CPrint) (out s))
  | Some CPrint =>
      match addr s with
      | Some n => Some (State (addr s) (parent s) (Some CDone) (out s ++ [Child_written n]))
      | None => None
      end
  | Some CDone | None => None
  end.

Inductive step : state → state → Prop :=
  | step_parent s s' : parent_step s = Some s' → step s s'
  | step_child s s' : child_step s = Some s' → step s s'.

Definition start : state := State None PMmap None [].

(** The states that can be reached. *)
Inductive reached : state → Prop :=
  | at_start : reached start
  | mapped p : mmap = true → p = PStore ∨ p = PFork → reached (State (Some 0) p None [])
  | forked : mmap = true → fork = true → reached (State (Some 0) PWait (Some CStore) [])
  | stored : mmap = true → fork = true → reached (State (Some rand) PWait (Some CPrint) [])
  | ended p : mmap = true → fork = true → p = PWait ∨ p = PRead →
      reached (State (Some rand) p (Some CDone) [Child_written rand])
  | alone p : mmap = true → fork = false → p = PWait ∨ p = PRead →
      reached (State (Some 0) p None [])
  | done_forked : mmap = true → fork = true →
      reached (State None (PDone 0) (Some CDone) [Child_written rand; Parent_reads rand])
  | done_alone : mmap = true → fork = false →
      reached (State None (PDone 0) None [Parent_reads 0])
  | unmapped : mmap = false → reached (State None (PDone 1) None []).

Lemma step_reached s s' : reached s → step s s' → reached s'.
Proof.
  intros Hr Hst; inversion Hst as [t t' Ht|t t' Ht]; subst; clear Hst; destruct Hr as [|p Hm Hp| | |p Hm Hf Hp|p Hm Hf Hp| | |];
    unfold parent_step, child_step, start in Ht; simpl in Ht;
    try (destruct Hp as [-> | ->]); try done; try (destruct fork eqn:Hf'); simplify_eq/=;
    try (destruct mmap eqn:Hm'; simplify_eq); constructor; solve [auto].
Qed.

(** Whatever the order of the two processes: the parent never reads before
    the child has written, and prints the number of the child; when [fork]
    fails it prints the 0 it stored itself, and when [mmap] fails it returns 1.
    No state on the way is stuck. *)
Theorem parent_reads_child s :
  reachable (λ s, s = start) step s →
  match parent s with
  | PDone r =>
      if mmap then r = 0 ∧ out s = if fork then [Child_written rand; Parent_reads rand]
                                   else [Parent_reads 0]
      else r = 1 ∧ out s = []
  | _ => ∃ s', step s s'
  end.
Proof.
  intros Hs. apply (reachable_invariant _ _ reached) in Hs.
  - destruct Hs as [|p Hm Hp|Hm Hf|Hm Hf|p Hm Hf Hp|p Hm Hf Hp|Hm Hf|Hm Hf|Hm]; simpl;
      try (destruct Hp as [-> | ->]); rewrite ?Hm, ?Hf; try done;
      try (by eexists; apply step_parent); by eexists; apply step_child.
  - intros ? ->. constructor.
  - intros t t' Ht Hst. by eapply step_reached.
Qed.
End programs.
End Share.
