(* ===== verification/IntArray.v ===== *)
(** Arrays of ints in the heap, shared by the two merge sorts: [holds h b l]
    says that block [b] is the initialised array [l]; loads, stores and
    copies of whole ranges are specified on the lists. *)
From S2P Require Import Prelude Mem.
#[local] Open Scope Z_scope.

(** The elements [a, a+1, ..., b-1] of a list. *)
Definition slice (a b : nat) (l : list Z) : list Z := take (b - a) (drop a l).

(** A block that holds the ints [l], all initialised. *)
Definition holds (h : heap Z) (b : positive) (l : list Z) : Prop :=
  blocks h !! b = Some (Some <$> l).

(** The heap with block [b] rewritten to [l]. *)
Definition upd (h : heap Z) (b : positive) (l : list Z) : heap Z :=
  set_blocks h (<[b := Some <$> l]> (blocks h)).

(** The merge of two lists: the head of the first when it comes [first]. *)
Fixpoint mrg (first : Z → Z → bool) (l1 : list Z) : list Z → list Z :=
  fix aux l2 :=
    match l1, l2 with
    | [], _ => l2
    | _, [] => l1
    | x :: l1', y :: l2' => if first x y then x :: mrg first l1' l2 else y :: aux l2'
    end.

(** ** Proofs *)

(** Merging. *)
Section merging.
Context (first : Z → Z → bool).

Lemma mrg_nil_l l : mrg first [] l = l.
Proof. by destruct l. Qed.

Lemma mrg_nil_r l : mrg first l [] = l.
Proof. by destruct l. Qed.

Lemma mrg_cons x l1 y l2 :
  mrg first (x :: l1) (y :: l2) =
  if first x y then x :: mrg first l1 (y :: l2) else y :: mrg first (x :: l1) l2.
Proof. done. Qed.

Lemma mrg_perm l1 l2 : mrg first l1 l2 ≡ₚ l1 ++ l2.
Proof.
  revert l2. induction l1 as [|x l1 IH1]; intros l2; [by rewrite mrg_nil_l|].
  induction l2 as [|y l2 IH2]; [by rewrite mrg_nil_r, app_nil_r|].
  rewrite mrg_cons. destruct (first x y).
  - by rewrite IH1.
  - rewrite IH2. by rewrite (Permutation_middle (x :: l1) l2 y).
Qed.

Lemma mrg_length l1 l2 : length (mrg first l1 l2) = (length l1 + length l2)%nat.
Proof. by rewrite mrg_perm, length_app. Qed.

(** The choice of the head agrees with the order. *)
Hypothesis Hfirst : ∀ x y, if first x y then x ≤ y else y ≤ x.

Lemma mrg_sorted l1 l2 :
  StronglySorted Z.le l1 → StronglySorted Z.le l2 → StronglySorted Z.le (mrg first l1 l2).
Proof.
  revert l2. induction l1 as [|x l1 IH1]; intros l2 H1 H2; [by rewrite mrg_nil_l|].
  induction l2 as [|y l2 IH2]; [by rewrite mrg_nil_r|].
  rewrite mrg_cons. apply StronglySorted_inv in H1 as [H1 Hx].
  apply StronglySorted_inv in H2 as [H2 Hy].
  pose proof (Hfirst x y) as Hxy. destruct (first x y); constructor.
  - apply IH1; [done|by constructor].
  - rewrite mrg_perm. apply Forall_app. split; [done|].
    constructor; [lia|]. eapply Forall_impl; [done|]. intros. lia.
  - apply IH2; done || by constructor.
  - rewrite mrg_perm. apply Forall_app. split; [|done].
    constructor; [lia|]. eapply Forall_impl; [done|]. intros. lia.
Qed.
End merging.

Lemma slice_cons a b l x : (a < b)%nat → l !! a = Some x →
  slice a b l = x :: slice (S a) b l.
Proof.
  intros Hab Hx. unfold slice. erewrite drop_S by done.
  by replace (b - a)%nat with (S (b - S a)) by lia.
Qed.

Lemma slice_nil a b l : (b ≤ a)%nat → slice a b l = [].
Proof. intros. unfold slice. by replace (b - a)%nat with 0%nat by lia. Qed.

Lemma length_slice a b l : (b ≤ length l)%nat → length (slice a b l) = (b - a)%nat.
Proof. intros. unfold slice. rewrite length_take, length_drop. lia. Qed.

Lemma slice_app a b c l : (a ≤ b)%nat → (b ≤ c)%nat →
  slice a b l ++ slice b c l = slice a c l.
Proof.
  intros Hab Hbc. unfold slice.
  replace (c - a)%nat with ((b - a) + (c - b))%nat by lia.
  rewrite <-(take_take_drop (drop a l)), drop_drop.
  by replace (a + (b - a))%nat with b by lia.
Qed.

Lemma wp_load_int h b l i x (Q : Z → heap Z → Prop) :
  holds h b l → l !! i = Some x → Q x h → wp (load (ptr_add (Ptr b 0) (Z.of_nat i))) h Q.
Proof.
  intros Hb Hx HQ. eapply wp_load; [done|lia| |done].
  by rewrite Z.add_0_l, Nat2Z.id, list_lookup_fmap, Hx.
Qed.

Lemma wp_store_int h b l i x (Q : unit → heap Z → Prop) :
  holds h b l → (i < length l)%nat →
  Q tt (upd h b (<[i := x]> l)) →
  wp (store (ptr_add (Ptr b 0) (Z.of_nat i)) x) h Q.
Proof.
  intros Hb Hi HQ. eapply wp_store; [done|rewrite length_fmap; lia|].
  by rewrite Z.add_0_l, Nat2Z.id, <-list_fmap_insert.
Qed.

Lemma wp_memcpy_int h d s ld ls i j n (Q : unit → heap Z → Prop) :
  holds h d ld → holds h s ls → d ≠ s →
  (i + n ≤ length ld)%nat → (j + n ≤ length ls)%nat →
  Q tt (upd h d (take i ld ++ slice j (j + n) ls ++ drop (i + n) ld)) →
  wp (memcpy (ptr_add (Ptr d 0) (Z.of_nat i)) (ptr_add (Ptr s 0) (Z.of_nat j)) (Z.of_nat n))
     h Q.
Proof.
  intros Hd Hs Hne Hi Hj HQ.
  eapply wp_memcpy; [done..|lia|lia|rewrite length_fmap; lia|lia|rewrite length_fmap; lia|].
  rewrite !Z.add_0_l, <-Nat2Z.inj_add, !Nat2Z.id.
  unfold upd, slice in HQ. replace (j + n - j)%nat with n in HQ by lia.
  by rewrite !fmap_app, !fmap_take, !fmap_drop in HQ.
Qed.


Lemma take_slice s e l : (s ≤ e)%nat → take s l ++ slice s e l = take e l.
Proof.
  intros Hse. pose proof (slice_app 0 s e l ltac:(lia) Hse) as Happ.
  unfold slice in Happ at 1 3. by rewrite !Nat.sub_0_r, !drop_0 in Happ.
Qed.

Lemma take_min_length (n : nat) (l : list Z) : take (n `min` length l) l = take n l.
Proof.
  destruct (Nat.min_spec n (length l)) as [[_ ->]|[? ->]]; [done|].
  by rewrite !take_ge.
Qed.

Lemma drop_min_length (n : nat) (l : list Z) : drop (n `min` length l) l = drop n l.
Proof.
  destruct (Nat.min_spec n (length l)) as [[_ ->]|[? ->]]; [done|].
  by rewrite !drop_ge.
Qed.

Lemma StronglySorted_lookup_le (R : relation Z) `{!Reflexive R} (l : list Z) i j x y :
  StronglySorted R l → l !! i = Some x → l !! j = Some y → (i ≤ j)%nat → R x y.
Proof.
  intros Hs. revert i j. induction Hs as [|z l Hs IH Hz]; intros i j Hi Hj Hij; [done|].
  destruct i as [|i], j as [|j]; simplify_eq/=; [done| |lia|].
  - rewrite Forall_lookup in Hz. by eapply Hz.
  - eapply IH; [done..|lia].
Qed.

(** Writing the first element not yet written of a partly written array. *)
Lemma insert_app_drop (p d : list Z) i x :
  length p = i → (i < length d)%nat →
  <[i := x]> (p ++ drop i d) = (p ++ [x]) ++ drop (S i) d.
Proof.
  intros Hp Hi. destruct (lookup_lt_is_Some_2 d i Hi) as [y Hy].
  rewrite (drop_S d y i Hy), insert_app_r_alt, Hp, Nat.sub_diag by lia.
  simpl. by rewrite <-app_assoc.
Qed.

Lemma upd_upd h b l l' : upd (upd h b l) b l' = upd h b l'.
Proof. unfold upd, set_blocks. simpl. by rewrite insert_insert_eq. Qed.

Lemma upd_comm h b b' l l' : b ≠ b' → upd (upd h b l) b' l' = upd (upd h b' l') b l.
Proof. intros. unfold upd, set_blocks. simpl. by rewrite insert_insert_ne. Qed.

Lemma upd_id h b l : holds h b l → upd h b l = h.
Proof. intros Hb. unfold upd. rewrite insert_id by done. by destruct h. Qed.

Lemma holds_upd_eq h b l : holds (upd h b l) b l.
Proof. unfold holds, upd. simpl. apply lookup_insert_eq. Qed.

Lemma holds_upd_ne h b b' l l' : b ≠ b' → holds h b l → holds (upd h b' l') b l.
Proof. unfold holds, upd. simpl. intros. by rewrite lookup_insert_ne. Qed.

Lemma heap_ok_upd h b l l' : heap_ok h → holds h b l → heap_ok (upd h b l').
Proof. intros Hok Hb. apply heap_ok_insert; [done|]. by eexists. Qed.

Create HintDb ints.
#[export] Hint Resolve holds_upd_eq holds_upd_ne heap_ok_upd : ints.
