(* ===== verification/MergeSort.v ===== *)
(** The bottom-up merge sort of 04-divide-and-conquer-and-sorting/
    01-merge-sort/merge_sort.c (and of its older copy old/merge_sort.c): a
    sort of [len] ints that merges runs of doubling width back and forth
    between the caller's array and a scratch array, and copies the result
    back when it ended in the scratch one.  [merge] is specified by the list
    function [mrg]; [runs w l] says that the consecutive chunks of width [w]
    of [l] are sorted. *)
From S2P Require Import Prelude Mem IntArray.
#[local] Open Scope Z_scope.

#[local] Abbreviation M := (comp (heap Z)).

Definition sizeof_int : Z := 4.

(** [while (s < m && s2 < e) dst[i++] = ...], with locals [i], [s], [s2]. *)
Definition merge_step (src dst : ptr) (m e : Z) (v : Z * Z * Z)
    : M ((Z * Z * Z) + (Z * Z * Z)) :=
  let '(i, s, s2) := v in
  if (s <? m) && (s2 <? e) then
    x ← load (ptr_add src s);
    y ← load (ptr_add src s2);
    if x <? y then
      x ← load (ptr_add src s);
      _ ← store (ptr_add dst i) x;
      mret (inl (u64 (i + 1), u64 (s + 1), s2))
    else
      y ← load (ptr_add src s2);
      _ ← store (ptr_add dst i) y;
      mret (inl (u64 (i + 1), s, u64 (s2 + 1)))
  else mret (inr (i, s, s2)).

Definition merge (src dst : ptr) (s m e : Z) : M unit :=
  v ← loop (S (Z.to_nat (e - s))) (merge_step src dst m e) (s, s, m);
  let '(i, s, s2) := v in
  if s <? m then memcpy (ptr_add dst i) (ptr_add src s) (m - s)
  else if s2 <? e then memcpy (ptr_add dst i) (ptr_add src s2) (e - s2)
  else mret tt.

(** The inner [for] of [sort]: one pass over the array with width [sz]. *)
Definition pass_step (arr wk : ptr) (len sz : Z) (s : Z) : M (Z + unit) :=
  if s <? len then
    let m := u64 (s + Z.shiftr sz 1) in
    let e := u64 (s + sz) in
    _ ← merge arr wk s (if m <? len then m else len) (if e <? len then e else len);
    mret (inl (u64 (s + sz)))
  else mret (inr tt).

(** The outer [for]: a pass, and the swap of the two arrays. *)
Definition sort_step (len : Z) (v : Z * ptr * ptr) : M ((Z * ptr * ptr) + (Z * ptr * ptr)) :=
  let '(sz, arr, wk) := v in
  if sz <? u64 (Z.shiftl len 1) then
    _ ← loop (S (Z.to_nat len)) (pass_step arr wk len sz) 0;
    mret (inl (u64 (Z.shiftl sz 1), wk, arr))
  else mret (inr (sz, arr, wk)).

(** [sz] is a power of two, so 64 doublings exhaust size_t. *)
Definition sort_fuel : nat := 64.

Definition sort (arr : ptr) (len : Z) : M unit :=
  wk ← calloc 0 len sizeof_int;
  _ ← c_assert (negb (is_null wk));
  v ← loop sort_fuel (sort_step len) (2, arr, wk);
  let '(sz, arr, wk) := v in
  wk ← (if Z.land 0x5555555555555555 sz =? 0 then mret wk
        else let '(arr, wk) := (wk, arr) in
             _ ← memcpy arr wk len; mret wk);
  free wk.

Definition LEN : Z := 0xfffffff.

(** [for (int i = 0; i < len; ++i) arr[i] = rand();], where [rand i] is the
    result of the [i]-th call of [rand]. *)
Definition fill_step (rand : Z → Z) (arr : ptr) (len i : Z) : M (Z + unit) :=
  if i <? len then _ ← store (ptr_add arr i) (rand i); mret (inl (i + 1))
  else mret (inr tt).

(** [for (int i = 1; i < len; ++i) assert(arr[i - 1] <= arr[i]);] *)
Definition check_step (arr : ptr) (len i : Z) : M (Z + unit) :=
  if i <? len then
    x ← load (ptr_add arr (i - 1));
    y ← load (ptr_add arr i);
    _ ← c_assert (x <=? y);
    mret (inl (i + 1))
  else mret (inr tt).

(** [main], on an array of [len] ints; the file has [len = LEN]. *)
Definition main (rand : Z → Z) (len : Z) : M Z :=
  arr ← calloc 0 len sizeof_int;
  _ ← c_assert (negb (is_null arr));
  _ ← loop (S (Z.to_nat len)) (fill_step rand arr len) 0;
  _ ← sort arr len;
  _ ← loop (S (Z.to_nat len)) (check_step arr len) 1;
  _ ← free arr;
  mret 0.

(** ** Specification *)

(** The merge of two lists: the head of the second on ties. *)
#[local] Abbreviation mrg := (IntArray.mrg Z.ltb).

Definition runs (w : nat) (l : list Z) : Prop :=
  ∀ k, StronglySorted Z.le (take w (drop (k * w) l)).

(** ** Proofs *)


(** The merge loop at locals [i], [s], [s2]: [dst] holds the first part [p]
    of the merge, and the rest is the merge of what is left of the parts. *)
Definition merging (h0 : heap Z) (b : positive) (l d : list Z) (s0 m e : nat)
    (v : Z * Z * Z) (h : heap Z) : Prop :=
  ∃ (i s s2 : nat) p,
    v = (Z.of_nat i, Z.of_nat s, Z.of_nat s2) ∧
    (s0 ≤ s ≤ m)%nat ∧ (m ≤ s2 ≤ e)%nat ∧ i = (s + (s2 - m))%nat ∧
    length p = (i - s0)%nat ∧
    p ++ mrg (slice s m l) (slice s2 e l) = mrg (slice s0 m l) (slice m e l) ∧
    h = upd h0 b (take s0 d ++ p ++ drop i d).

Section merge_spec.
Context (h0 : heap Z) (a b : positive) (l d : list Z) (s0 m e : nat).
Hypothesis (Ha : holds h0 a l) (Hb : holds h0 b d) (Hab : a ≠ b).
Hypothesis (Hlen : length d = length l) (Hmax : Z.of_nat (length l) < 2 ^ 62).
Hypothesis (Hse : (s0 ≤ m ≤ e)%nat) (Hel : (e ≤ length l)%nat).

Lemma merge_step_spec v h :
  merging h0 b l d s0 m e v h →
  wp (merge_step (Ptr a 0) (Ptr b 0) (Z.of_nat m) (Z.of_nat e) v) h (λ r h',
    match r with
    | inl v' => merging h0 b l d s0 m e v' h' ∧ 0 ≤ v'.1.1 ∧ v'.1.1 = v.1.1 + 1 ∧
                v.1.1 < Z.of_nat e
    | inr v' => v' = v ∧ h' = h ∧ (v.1.2 = Z.of_nat m ∨ v.2 = Z.of_nat e)
    end).
Proof.
  intros (i & s & s2 & p & -> & Hs & Hs2 & Hi & Hp & Hmrg & ->).
  unfold merge_step.
  destruct (Z.ltb_spec (Z.of_nat s) (Z.of_nat m)) as [Hsm|]; simpl;
    [|wp_step; split; [done|split; [done|left; simpl; lia]]].
  destruct (Z.ltb_spec (Z.of_nat s2) (Z.of_nat e)) as [Hs2e|]; simpl;
    [|wp_step; split; [done|split; [done|right; simpl; lia]]].
  destruct (lookup_lt_is_Some_2 l s ltac:(lia)) as [x Hx].
  destruct (lookup_lt_is_Some_2 l s2 ltac:(lia)) as [y Hy].
  assert (length (take s0 d ++ p) = i) as Hpl.
  { rewrite length_app, length_take. lia. }
  rewrite app_assoc.
  assert (holds (upd h0 b ((take s0 d ++ p) ++ drop i d)) a l) as Ha' by auto with ints.
  wp_step. eapply wp_load_int; [done..|].
  wp_step. eapply wp_load_int; [done..|].
  rewrite !u64_small by lia.
  rewrite (slice_cons s m l x), (slice_cons s2 e l y), mrg_cons in Hmrg by (done || lia).
  destruct (x <? y).
  - wp_step. eapply wp_load_int; [done..|].
    wp_step. eapply wp_store_int; [apply holds_upd_eq|..].
    { rewrite length_app, length_drop, Hpl. lia. }
    rewrite upd_upd, insert_app_drop by (done || lia).
    wp_step. simpl. split_and!; [|lia..].
    exists (S i), (S s), s2, (p ++ [x]). rewrite length_app. simpl.
    split_and!; try lia; [repeat f_equal; lia| |by rewrite <-!app_assoc].
    rewrite <-Hmrg, <-app_assoc. simpl. by rewrite (slice_cons s2 e l y) by (done || lia).
  - wp_step. eapply wp_load_int; [done..|].
    wp_step. eapply wp_store_int; [apply holds_upd_eq|..].
    { rewrite length_app, length_drop, Hpl. lia. }
    rewrite upd_upd, insert_app_drop by (done || lia).
    wp_step. simpl. split_and!; [|lia..].
    exists (S i), s, (S s2), (p ++ [y]). rewrite length_app. simpl.
    split_and!; try lia; [repeat f_equal; lia| |by rewrite <-!app_assoc].
    rewrite <-Hmrg, <-app_assoc. simpl. by rewrite (slice_cons s m l x) by (done || lia).
Qed.

Lemma merge_loop_spec :
  wp (loop (S (Z.to_nat (Z.of_nat e - Z.of_nat s0)))
        (merge_step (Ptr a 0) (Ptr b 0) (Z.of_nat m) (Z.of_nat e))
        (Z.of_nat s0, Z.of_nat s0, Z.of_nat m)) h0
     (λ v h, merging h0 b l d s0 m e v h ∧ (v.1.2 = Z.of_nat m ∨ v.2 = Z.of_nat e)).
Proof.
  eapply (wp_loop (merging h0 b l d s0 m e) (λ v _, Z.to_nat (Z.of_nat e - v.1.1)));
    [| |simpl; lia].
  - intros v h Hv. eapply wp_mono; [by apply merge_step_spec|].
    intros [v'|v'] h'; simpl; [|by intros (-> & -> & ?)].
    intros (? & ? & ? & ?). split; [done|lia].
  - exists s0, s0, m, []. split_and!; try done; try lia; [simpl; lia|].
    simpl. by rewrite take_drop, upd_id.
Qed.

Lemma merge_spec :
  wp (merge (Ptr a 0) (Ptr b 0) (Z.of_nat s0) (Z.of_nat m) (Z.of_nat e)) h0 (λ _ h',
    h' = upd h0 b (take s0 d ++ mrg (slice s0 m l) (slice m e l) ++ drop e d)).
Proof.
  unfold merge. wp_step. eapply wp_mono; [apply merge_loop_spec|].
  intros v h [(i & s & s2 & p & -> & Hs & Hs2 & Hi & Hp & Hmrg & ->) Hend]. simpl in Hend.
  assert (length (take s0 d ++ p) = i) as Hpl.
  { rewrite length_app, length_take. lia. }
  rewrite <-Hmrg, !app_assoc.
  assert (holds (upd h0 b ((take s0 d ++ p) ++ drop i d)) a l) as Ha' by auto with ints.
  assert (∀ j k, (j ≤ k ≤ length l)%nat → (i + (k - j) = e)%nat →
    wp (memcpy (ptr_add (Ptr b 0) (Z.of_nat i)) (ptr_add (Ptr a 0) (Z.of_nat j))
               (Z.of_nat (k - j)))
       (upd h0 b ((take s0 d ++ p) ++ drop i d)) (λ _ h', h' =
       upd h0 b (((take s0 d ++ p) ++ slice j k l) ++ drop e d))) as Hcopy.
  { intros j k Hj Hn. eapply wp_memcpy_int; [apply holds_upd_eq|done|done| |lia|].
    { rewrite length_app, length_drop. lia. }
    rewrite upd_upd, take_app_length', drop_app_ge, Hpl, drop_drop by lia.
    replace (i + (i + (k - j) - i))%nat with e by lia.
    replace (j + (k - j))%nat with k by lia. by rewrite app_assoc. }
  destruct (Z.ltb_spec (Z.of_nat s) (Z.of_nat m)).
  { rewrite <-Nat2Z.inj_sub, (slice_nil s2), mrg_nil_r by lia. apply Hcopy; lia. }
  rewrite (slice_nil s m), mrg_nil_l by lia.
  destruct (Z.ltb_spec (Z.of_nat s2) (Z.of_nat e)).
  { rewrite <-Nat2Z.inj_sub by lia. apply Hcopy; lia. }
  wp_step. rewrite slice_nil, app_nil_r by lia. by replace i with e by lia.
Qed.
End merge_spec.

(** ** Runs *)

Lemma runs_sorted w l : runs w l → (length l ≤ w)%nat → StronglySorted Z.le l.
Proof. intros H Hw. specialize (H 0%nat). simpl in H. by rewrite drop_0, take_ge in H. Qed.

Lemma runs_1 l : runs 1 l.
Proof. intros k. destruct (drop (k * 1) l) as [|x t]; simpl; repeat constructor. Qed.

Lemma runs_nil w : runs w [].
Proof. intros k. rewrite drop_nil, take_nil. constructor. Qed.

(** A sorted chunk, the last one possibly short, after whole chunks. *)
Lemma runs_snoc w p q j :
  (0 < w)%nat → runs w p → length p = (j * w)%nat → StronglySorted Z.le q →
  (length q ≤ w)%nat → runs w (p ++ q).
Proof.
  intros Hw Hp Hlen Hq Hqw k. destruct (lt_eq_lt_dec k j) as [[Hk| ->]|Hk].
  - rewrite drop_app_le by nia. rewrite take_app_le; [apply Hp|].
    rewrite length_drop. nia.
  - rewrite drop_app_ge, Hlen, Nat.sub_diag, drop_0, take_ge by lia. done.
  - rewrite drop_ge, take_nil by (rewrite length_app; nia). constructor.
Qed.

Lemma StronglySorted_slice w l i s m :
  runs w l → s = (i * w)%nat → m = ((s + w) `min` length l)%nat →
  StronglySorted Z.le (slice s m l).
Proof.
  intros Hl -> ->. specialize (Hl i). unfold slice.
  destruct (decide (i * w ≤ length l)%nat).
  - replace (take (_ - _) _) with (take w (drop (i * w) l)); [done|].
    destruct (decide (i * w + w ≤ length l)%nat).
    + f_equal. lia.
    + rewrite !take_ge; try done; rewrite length_drop; lia.
  - rewrite drop_ge, take_nil by lia. constructor.
Qed.

(** ** A pass *)

(** After [j] merges of a pass of width [2 w], the target's first part [p]
    is a permutation of the source's, sorted in chunks. *)
Definition passing (h0 : heap Z) (b : positive) (l d : list Z) (w : nat)
    (s : Z) (h : heap Z) : Prop :=
  ∃ j p, s = Z.of_nat (j * (2 * w)) ∧ (j * (2 * w) < length l + 2 * w)%nat ∧
    length p = ((j * (2 * w)) `min` length l)%nat ∧ p ≡ₚ take (j * (2 * w)) l ∧
    runs (2 * w) p ∧ h = upd h0 b (p ++ drop (j * (2 * w)) d).

Section pass_spec.
Context (h0 : heap Z) (a b : positive) (l d : list Z) (w : nat).
Hypothesis (Ha : holds h0 a l) (Hb : holds h0 b d) (Hab : a ≠ b).
Hypothesis (Hlen : length d = length l) (Hmax : Z.of_nat (length l) < 2 ^ 62).
Hypothesis (Hw : (0 < w)%nat) (Hwl : (w < length l)%nat) (Hruns : runs w l).

Lemma pass_step_spec s h :
  passing h0 b l d w s h →
  wp (pass_step (Ptr a 0) (Ptr b 0) (Z.of_nat (length l)) (Z.of_nat (2 * w)) s) h (λ r h',
    match r with
    | inl s' => passing h0 b l d w s' h' ∧ s < s' ∧ s < Z.of_nat (length l)
    | inr _ => h' = h ∧ Z.of_nat (length l) ≤ s
    end).
Proof.
  intros (j & p & -> & Hj & Hp & Hperm & Hrun & ->). unfold pass_step.
  destruct (Z.ltb_spec (Z.of_nat (j * (2 * w))) (Z.of_nat (length l))) as [Hlt|];
    [|by wp_step].
  rewrite Z.shiftr_div_pow2, !u64_small by dlia.
  set (s := (j * (2 * w))%nat) in *.
  set (m := ((s + w) `min` length l)%nat). set (e := ((s + 2 * w) `min` length l)%nat).
  replace (if Z.of_nat s + Z.of_nat (2 * w) / 2 ^ 1 <? _ then _ else _) with (Z.of_nat m)
    by (case_match; zcases; dlia).
  replace (if Z.of_nat s + Z.of_nat (2 * w) <? _ then _ else _) with (Z.of_nat e)
    by (case_match; zcases; lia).
  assert (take s (p ++ drop s d) = p) as Htake by (by rewrite take_app_length' by lia).
  assert (S j * (2 * w) = s + 2 * w)%nat as Hs' by lia.
  wp_step. eapply wp_mono.
  { apply (merge_spec _ a b l (p ++ drop s d)); auto with ints; try lia.
    rewrite length_app, length_drop. lia. }
  intros _ h' ->. wp_step. split; [|lia].
  rewrite upd_upd, Htake, drop_app_ge, drop_drop, Hp by lia.
  assert (length (slice s m l) + length (slice m e l) = e - s)%nat as Hl2
    by (rewrite !length_slice by lia; lia).
  exists (S j), (p ++ mrg (slice s m l) (slice m e l)). rewrite Hs'.
  split_and!; [lia|lia| | | |].
  - rewrite length_app, mrg_length. lia.
  - rewrite mrg_perm, slice_app, Hperm, take_slice by lia.
    by rewrite <-(take_min_length (s + 2 * w)).
  - apply (runs_snoc _ _ _ j); [lia|done|lia| |rewrite mrg_length; lia].
    apply mrg_sorted; [by intros x y; destruct (Z.ltb_spec x y); lia|by apply (StronglySorted_slice w _ (2 * j)); [|lia|]|].
    destruct (decide (s + w ≤ length l)%nat).
    + apply (StronglySorted_slice w _ (2 * j + 1)); [done|lia|lia].
    + rewrite slice_nil by lia. constructor.
  - rewrite <-app_assoc. do 3 f_equal.
    rewrite <-(drop_min_length (s + 2 * w)), Hlen. f_equal. lia.
Qed.

Lemma pass_spec :
  wp (loop (S (Z.to_nat (Z.of_nat (length l))))
        (pass_step (Ptr a 0) (Ptr b 0) (Z.of_nat (length l)) (Z.of_nat (2 * w))) 0) h0
     (λ _ h', ∃ p, h' = upd h0 b p ∧ p ≡ₚ l ∧ runs (2 * w) p).
Proof.
  eapply (wp_loop (passing h0 b l d w) (λ s _, Z.to_nat (Z.of_nat (length l) - s)));
    [| |lia].
  - intros s h Hs. eapply wp_mono; [by apply pass_step_spec|].
    intros [s'|[]] h'; simpl.
    + intros (? & ? & ?). split; [done|lia].
    + intros [-> Hge]. destruct Hs as (j & p & -> & Hj & Hp & Hperm & Hrun & ->).
      exists p. rewrite take_ge in Hperm by lia.
      by rewrite drop_ge, app_nil_r by lia.
  - exists 0%nat, []. split_and!; [done|simpl; lia|done|done|apply runs_nil|].
    simpl. by rewrite drop_0, upd_id.
Qed.
End pass_spec.

(** ** The sort *)

(** After [k] passes over the arrays [a] and [w]: [x] holds the data, [y] is
    the target of the next pass, and the arrays have swapped [k] times. *)
Definition sorting (h1 : heap Z) (a w : positive) (l : list Z)
    (v : Z * ptr * ptr) (h : heap Z) : Prop :=
  ∃ k x y cur d, v = (2 ^ Z.of_nat (S k), Ptr x 0, Ptr y 0) ∧ (k ≤ 61)%nat ∧
    (x, y) = (if Nat.even k then (a, w) else (w, a)) ∧
    h = upd (upd h1 x cur) y d ∧ length d = length l ∧ cur ≡ₚ l ∧ runs (2 ^ k) cur.

(** The mask of the parity test has the even bits. *)
Lemma parity_mask k : (k ≤ 62)%nat →
  (Z.land 0x5555555555555555 (2 ^ Z.of_nat (S k)) =? 0) = Nat.even k.
Proof.
  intros Hk. assert (forallb (λ k, Bool.eqb (Z.land 0x5555555555555555 (2 ^ (k + 1)) =? 0)
    (Z.even k)) (seqZ 0 63) = true) as H by (vm_compute; reflexivity).
  rewrite forallb_forall in H.
  specialize (H (Z.of_nat k)). rewrite <-list_elem_of_In, elem_of_seqZ in H.
  specialize (H ltac:(lia)). apply Bool.eqb_prop in H.
  rewrite Nat2Z.inj_succ. unfold Z.succ. rewrite H. clear.
  induction k as [|k IH]; [done|].
  by rewrite Nat2Z.inj_succ, Z.even_succ, Nat.even_succ, <-Z.negb_even, <-Nat.negb_even, IH.
Qed.

Section sort_spec.
Context (h1 : heap Z) (a w : positive) (l : list Z).
Hypothesis (Haw : a ≠ w) (Hmax : Z.of_nat (length l) ≤ 2 ^ 61).

Lemma sort_step_spec v h :
  sorting h1 a w l v h →
  wp (sort_step (Z.of_nat (length l)) v) h (λ r h',
    match r with
    | inl v' => sorting h1 a w l v' h' ∧ Z.log2 v'.1.1 = Z.log2 v.1.1 + 1 ∧ Z.log2 v.1.1 < 64
    | inr v' => v' = v ∧ h' = h ∧ 2 * Z.of_nat (length l) ≤ v.1.1
    end).
Proof.
  intros (k & x & y & cur & d & -> & Hk & Hxy & -> & Hd & Hperm & Hruns).
  unfold sort_step. rewrite Z.shiftl_mul_pow2, (u64_small (_ * 2 ^ 1)) by lia.
  destruct (Z.ltb_spec (2 ^ Z.of_nat (S k)) (Z.of_nat (length l) * 2 ^ 1)) as [Hlt|];
    [|wp_step; split_and!; simpl; lia || done].
  assert (x ≠ y) as Hne by (destruct (Nat.even k); congruence).
  assert (length cur = length l) as Hc by (by rewrite Hperm).
  assert (2 ^ Z.of_nat (S k) = Z.of_nat (2 * 2 ^ k)) as H2
    by (rewrite <-Nat.pow_succ_r', Nat2Z.inj_pow; done).
  assert (k ≤ 60)%nat as Hk60.
  { apply Nat.lt_succ_r, Nat2Z.inj_lt. apply (Z.pow_lt_mono_r_iff 2); [lia..|].
    rewrite Nat2Z.inj_succ, Z.pow_succ_r in Hlt by lia. lia. }
  wp_step. rewrite <-Hc, H2. eapply wp_mono.
  { apply (pass_spec _ x y cur d (2 ^ k)); auto with ints; try lia. }
  intros _ h' (p & -> & Hp & Hrp). wp_step.
  rewrite Z.shiftl_mul_pow2, <-H2 by done.
  assert (0 ≤ 2 ^ (Z.of_nat (S k) + 1) < 2 ^ 64)
    by (split; [apply Z.pow_nonneg|apply Z.pow_lt_mono_r]; lia).
  rewrite <-(Z.pow_add_r 2 _ 1), u64_small by lia.
  replace (Z.of_nat (S k) + 1) with (Z.of_nat (S (S k))) by lia.
  split; [|simpl fst; rewrite !Z.log2_pow2; lia].
  exists (S k), y, x, p, cur. split_and!; [done|lia| | |lia|by rewrite Hp|done].
  - rewrite Nat.even_succ, <-Nat.negb_even. destruct (Nat.even k); simplify_eq/=; done.
  - by rewrite upd_upd, upd_comm by done.
Qed.

Lemma sort_loop_spec :
  holds h1 a l → holds h1 w (replicate (length l) 0) →
  wp (loop sort_fuel (sort_step (Z.of_nat (length l))) (2, Ptr a 0, Ptr w 0)) h1
     (λ v h, sorting h1 a w l v h ∧ 2 * Z.of_nat (length l) ≤ v.1.1).
Proof.
  intros Ha Hw.
  eapply (wp_loop (sorting h1 a w l) (λ v _, Z.to_nat (64 - Z.log2 v.1.1)));
    [| |unfold sort_fuel; simpl; lia].
  - intros v h Hv. eapply wp_mono; [by apply sort_step_spec|].
    intros [v'|v'] h'; simpl; [|by intros (-> & -> & ?)].
    intros (? & ? & ?). split; [done|lia].
  - exists 0%nat, a, w, l, (replicate (length l) 0).
    split_and!; [done|lia|done| |by rewrite length_replicate|done|apply runs_1].
    by rewrite (upd_id h1 a), upd_id.
Qed.
End sort_spec.

Lemma sort_wp (h : heap Z) (a : positive) (l : list Z) :
  heap_ok h → holds h a l → Z.of_nat (length l) ≤ 2 ^ 61 →
  wp (sort (Ptr a 0) (Z.of_nat (length l))) h (λ _ h', ∃ l',
    blocks h' = <[a := Some <$> l']> (blocks h) ∧ l' ≡ₚ l ∧ StronglySorted Z.le l').
Proof.
  intros Hok Ha Hmax.
  unfold sort, calloc, sizeof_int. rewrite (proj2 (Z.ltb_lt _ (2 ^ 64))) by lia.
  wp_step. apply wp_alloc; [done|]. intros w h1 _ Hw Hb1 Hok1.
  assert (a ≠ w) as Haw by (intros ->; unfold holds in Ha; congruence).
  wp_step. apply wp_assert; [done|].
  assert (holds h1 a l) as Ha1 by (by unfold holds; rewrite Hb1, lookup_insert_ne).
  wp_step. eapply wp_mono; [apply (sort_loop_spec h1 a w l); try done|].
  { unfold holds. by rewrite Hb1, lookup_insert_eq, fmap_replicate, Nat2Z.id. }
  intros v h2 [(k & x & y & cur & d & -> & Hk & Hxy & -> & Hd & Hperm & Hruns) Hend].
  simpl in Hend. rewrite parity_mask by lia.
  assert (length cur = length l) as Hc by (by rewrite Hperm).
  assert (StronglySorted Z.le cur) as Hsort.
  { apply (runs_sorted (2 ^ k)); [done|]. rewrite Hc.
    rewrite Nat2Z.inj_succ, Z.pow_succ_r in Hend by lia.
    apply Nat2Z.inj_le. rewrite Nat2Z.inj_pow. simpl Z.of_nat at 2. lia. }
  destruct (Nat.even k); simplify_eq.
  - wp_step. wp_step. eapply wp_free; [apply holds_upd_eq|].
    exists cur. split; [|done]. simpl. rewrite delete_insert_eq, delete_insert_ne, Hb1 by done.
    by rewrite delete_insert_eq, delete_id.
  - wp_step. wp_step. eapply (wp_memcpy_int _ a w d cur 0 0 (length l));
      [apply holds_upd_eq|auto with ints|done|lia|lia|].
    wp_step. eapply wp_free; [rewrite upd_upd; simpl; rewrite lookup_insert_ne by done;
      apply holds_upd_eq|].
    exists cur. split; [|done]. rewrite upd_upd. simpl.
    unfold slice. rewrite Nat.sub_0_r, drop_0, !take_ge, drop_ge, app_nil_r by lia.
    rewrite delete_insert_ne, delete_insert_eq, Hb1, delete_insert_eq, delete_id by done.
    done.
Qed.

(** Filling the array with the stream [rand]. *)
Lemma fill_spec rand h a l :
  holds h a l →
  wp (loop (S (Z.to_nat (Z.of_nat (length l)))) (fill_step rand (Ptr a 0) (Z.of_nat (length l))) 0)
     h (λ _ h', ∃ l', length l' = length l ∧ h' = upd h a l').
Proof.
  intros Ha.
  eapply (wp_loop (λ i h', 0 ≤ i ∧ ∃ l', length l' = length l ∧ h' = upd h a l')
    (λ i _, Z.to_nat (Z.of_nat (length l) - i))); [| |lia].
  - intros i h' (Hi & l' & Hl' & ->). unfold fill_step.
    destruct (Z.ltb_spec i (Z.of_nat (length l))); [|wp_step; eauto].
    wp_step. rewrite <-(Z2Nat.id i) at 1 by done.
    eapply wp_store_int; [apply holds_upd_eq|lia|].
    wp_step. split; [|lia]. split; [lia|].
    eexists. by rewrite upd_upd, length_insert.
  - split; [done|]. exists l. by rewrite upd_id.
Qed.

(** The assertions on a sorted array. *)
Lemma check_spec h a l :
  holds h a l → StronglySorted Z.le l →
  wp (loop (S (Z.to_nat (Z.of_nat (length l)))) (check_step (Ptr a 0) (Z.of_nat (length l))) 1)
     h (λ _ h', h' = h).
Proof.
  intros Ha Hs.
  eapply (wp_loop (λ i h', 1 ≤ i ∧ h' = h) (λ i _, Z.to_nat (Z.of_nat (length l) - i)));
    [|done|lia].
  intros i h' [Hi ->]. unfold check_step.
  destruct (Z.ltb_spec i (Z.of_nat (length l))); [|by wp_step].
  destruct (lookup_lt_is_Some_2 l (Z.to_nat (i - 1)) ltac:(lia)) as [x Hx].
  destruct (lookup_lt_is_Some_2 l (Z.to_nat i) ltac:(lia)) as [y Hy].
  wp_step. rewrite <-(Z2Nat.id (i - 1)) by lia. eapply wp_load_int; [done..|].
  wp_step. rewrite <-(Z2Nat.id i) at 1 by lia. eapply wp_load_int; [done..|].
  wp_step. apply wp_assert.
  { apply Z.leb_le. eapply (StronglySorted_lookup_le Z.le l); [done|exact Hx|exact Hy|lia]. }
  wp_step. split; [split; [lia|done]|lia].
Qed.

(** C13: [sort] sorts.  On an array of [len] ints (up to 2^61 of them, more
    than any address space holds) with an allocator that succeeds, [sort]
    returns without undefined behaviour, the array holds a sorted permutation
    of its initial contents, whichever of the two arrays the last pass wrote,
    and no other block of the heap has changed: the scratch array is freed. *)
Theorem sort_correct (h : heap Z) (a : positive) (l : list Z) :
  heap_ok h → holds h a l → Z.of_nat (length l) ≤ 2 ^ 61 →
  ∃ h' l', sort (Ptr a 0) (Z.of_nat (length l)) h = Ok (tt, h') ∧
    blocks h' = <[a := Some <$> l']> (blocks h) ∧ l' ≡ₚ l ∧ StronglySorted Z.le l'.
Proof.
  intros Hok Ha Hmax. pose proof (sort_wp h a l Hok Ha Hmax) as H.
  rewrite wp_Ok in H. destruct H as ([] & h' & -> & l' & ?). eauto.
Qed.

Lemma sort_correct_witness :
  ∃ h' l', sort (Ptr 1 0) 5 (upd (Heap ∅ 2 (λ _, false)) 1 [3; -1; 4; -1; 2]) = Ok (tt, h') ∧
    blocks h' = {[1%positive := Some <$> l']} ∧
    l' ≡ₚ [3; -1; 4; -1; 2] ∧ StronglySorted Z.le l'.
Proof.
  destruct (sort_correct (upd (Heap ∅ 2 (λ _, false)) 1 [3; -1; 4; -1; 2]) 1
              [3; -1; 4; -1; 2]) as (h' & l' & H1 & H2 & H3).
  - constructor; [|done]. intros b Hb. simpl in *. by rewrite lookup_insert_ne by lia.
  - apply holds_upd_eq.
  - done.
  - exists h', l'. by rewrite H2.
Defined.

Example sort_runs :
  match sort (Ptr 1 0) 5 (upd (Heap ∅ 2 (λ _, false)) 1 [3; -1; 4; -1; 2]) with
  | Ok (_, h') => blocks h' = {[1%positive := Some <$> [-1; -1; 2; 3; 4]]}
  | _ => False end.
Proof. vm_compute. reflexivity. Qed.

(** The test in [main] never fails: whatever [rand] returns, for any
    length up to 2^61 (the file uses 0xfffffff), [main] passes every
    [assert(arr[i - 1] <= arr[i])], returns 0 and frees what it allocated. *)
Theorem main_asserts_hold (rand : Z → Z) (len : Z) (h : heap Z) :
  heap_ok h → 0 ≤ len ≤ 2 ^ 61 →
  ∃ h', main rand len h = Ok (0, h') ∧ blocks h' = blocks h.
Proof.
  intros Hok Hlen.
  cut (wp (main rand len) h (λ r h', r = 0 ∧ blocks h' = blocks h)).
  { rewrite wp_Ok. intros (r & h' & -> & -> & ?). eauto. }
  unfold main, calloc, sizeof_int. rewrite (proj2 (Z.ltb_lt _ (2 ^ 64))) by lia.
  wp_step. apply wp_alloc; [done|]. intros a h1 _ Hnone Hb1 Hok1.
  wp_step. apply wp_assert; [done|].
  set (l0 := replicate (Z.to_nat len) 0).
  assert (holds h1 a l0) as Ha.
  { unfold holds, l0. by rewrite Hb1, lookup_insert_eq, fmap_replicate. }
  assert (len = Z.of_nat (length l0)) as El by (unfold l0; rewrite length_replicate; lia).
  rewrite El. wp_step. eapply wp_mono; [by apply fill_spec|].
  intros _ h2 (l1 & Hl1 & ->).
  rewrite <-Hl1. wp_step. eapply wp_mono; [apply sort_wp; eauto with ints; lia|].
  intros _ h3 (l2 & Hb3 & Hp & Hs). simpl in Hb3. rewrite insert_insert_eq, Hb1, insert_insert_eq in Hb3.
  assert (holds h3 a l2) as Ha3 by (unfold holds; by rewrite Hb3, lookup_insert_eq).
  rewrite <-(Permutation_length Hp).
  wp_step. eapply wp_mono; [by apply check_spec|]. intros _ h4 ->.
  wp_step. eapply wp_free; [exact Ha3|]. wp_step. split; [done|].
  simpl. by rewrite Hb3, delete_insert_id.
Qed.

Lemma main_asserts_hold_witness :
  ∃ h', main (λ i, (i * 7919) mod 101) LEN (heap_empty (λ _, false)) = Ok (0, h') ∧
        blocks h' = ∅.
Proof.
  apply (main_asserts_hold (λ i, (i * 7919) mod 101) LEN (heap_empty (λ _, false))).
  - apply heap_empty_ok.
  - unfold LEN. lia.
Defined.
