(* ===== verification/BlockingQueue.v ===== *)
(** The blocking queue behind the two ring buffers and the shared-memory
    queue: a bounded buffer guarded by two mutexes and two counting
    semaphores, used by any number of threads at once.  The three programs
    differ in their semaphores (POSIX, System V) and in their mutexes (plain,
    or robust and shared by processes that may die); the interface [QueueImpl]
    states what the queue needs of them, and the theorems are proved once
    against it.  A call is a list of atomic instructions; a thread is at some
    instruction of a call; a step of the system runs one instruction of one
    thread, starts a call, or (where processes can die) kills a thread where
    it stands. *)
From S2P Require Import Prelude.
#[local] Open Scope Z_scope.

(** ** Interface *)

Inductive sem := Element | Space.
Inductive mutex := MHead | MTail.

#[export] Instance sem_eq_dec : EqDecision sem.
Proof. solve_decision. Defined.
#[export] Instance mutex_eq_dec : EqDecision mutex.
Proof. solve_decision. Defined.

(** The instructions of a call; [I] are the semaphore operations. *)
Inductive instr (I : Type) :=
  | SemOp (i : I)
  | Lock (m : mutex)      (** pthread_mutex_lock, and the recovery if robust *)
  | StoreTail             (** buffer[tail] = e *)
  | BumpTail              (** tail = (tail + 1) % capacity *)
  | LoadHead              (** e = buffer[head] *)
  | BumpHead              (** head = (head + 1) % capacity *)
  | Unlock (m : mutex).
Arguments SemOp {_} _.
Arguments Lock {_} _.
Arguments StoreTail {_}.
Arguments BumpTail {_}.
Arguments LoadHead {_}.
Arguments BumpHead {_}.
Arguments Unlock {_} _.

(** What a program provides: its semaphores of state [T] and operations [I],
    the instructions of [put] and [take], what its buffer first holds, and
    whether its threads can die and its mutexes survive the death of their
    owner.  A semaphore operation blocks ([None]), ends the program or
    changes the semaphores. *)
Class QueueImpl (T I : Type) := {
  sem_exec : I → T → option (res T);
  sem_val : sem → T → Z;
  sem_start : Z → T;
  sem_max : Z;
  fresh_cell : option Z;
  put_code : list (instr I);
  take_code : list (instr I);
  robust : bool
}.

(** What the queue relies on: both calls wait on one semaphore, update the
    buffer under one mutex, and post the other semaphore; a wait blocks
    exactly at zero; a post adds one below the maximum. *)
Class QueueLaws (T I : Type) `{QueueImpl T I} := {
  wait : sem → I;
  post : sem → I;
  put_shape : put_code = [SemOp (wait Space); Lock MTail; StoreTail; BumpTail;
                          Unlock MTail; SemOp (post Element)];
  take_shape : take_code = [SemOp (wait Element); Lock MHead; LoadHead; BumpHead;
                            Unlock MHead; SemOp (post Space)];
  wait_blocks : ∀ x s, sem_val x s = 0 → sem_exec (wait x) s = None;
  wait_takes : ∀ x s, 0 < sem_val x s → ∃ s', sem_exec (wait x) s = Some (Ok s') ∧
    ∀ y, sem_val y s' = sem_val y s - (if decide (x = y) then 1 else 0);
  post_adds : ∀ x s, 0 ≤ sem_val x s < sem_max → ∃ s', sem_exec (post x) s = Some (Ok s') ∧
    ∀ y, sem_val y s' = sem_val y s + (if decide (x = y) then 1 else 0);
  start_vals : ∀ c, 0 ≤ c ≤ sem_max →
    sem_val Element (sem_start c) = 0 ∧ sem_val Space (sem_start c) = c
}.

(** ** The system *)

(** [struct blocking_queue].  [put_log] and [take_log] are history: the
    values whose [tail] (resp. [head]) update has been done, in order. *)
Record queue (T : Type) := Queue {
  buffer : list (option Z);
  capacity : Z;
  head : Z;
  tail : Z;
  mutex_head : option nat;
  mutex_tail : option nat;
  sems : T;
  put_log : list Z;
  take_log : list Z
}.
Arguments Queue {_} _ _ _ _ _ _ _ _ _.
Arguments buffer {_} _.
Arguments capacity {_} _.
Arguments head {_} _.
Arguments tail {_} _.
Arguments mutex_head {_} _.
Arguments mutex_tail {_} _.
Arguments sems {_} _.
Arguments put_log {_} _.
Arguments take_log {_} _.

Inductive call := Put (e : Z) | Take.

(** A thread: the call it is in, the index of its next instruction, the
    local [e], and whether it is alive. *)
Record thread := Thread { in_call : option call; pc : nat; reg : Z; alive : bool }.

Definition idle : thread := Thread None 0 0 true.

Record system (T : Type) := System { q : queue T; threads : list thread }.
Arguments System {_} _ _.
Arguments q {_} _.
Arguments threads {_} _.

(** A configuration, or the undefined behaviour that ended it. *)
Inductive config (T : Type) := Running (s : system T) | Broken (f : fault).
Arguments Running {_} _.
Arguments Broken {_} _.

(** What the scheduler picks. *)
Inductive action := Start (t : nat) (c : call) | Step (t : nat) | Die (t : nat).

(** Calls made one after the other, up to the first that fails. *)
Fixpoint all_ok (rs : list (res unit)) : res unit :=
  match rs with
  | [] => Ok tt
  | Ok _ :: rs => all_ok rs
  | r :: _ => r
  end.

Section system.
Context {T I : Type} `{QueueImpl T I}.

(** [blocking_queue_init]. *)
Definition queue_init (cap : Z) : queue T :=
  Queue (replicate (Z.to_nat cap) fresh_cell) cap 0 0 None None (sem_start cap) [] [].

Definition code (c : call) : list (instr I) :=
  match c with Put _ => put_code | Take => take_code end.

Definition owner (m : mutex) (qu : queue T) : option nat :=
  match m with MHead => mutex_head qu | MTail => mutex_tail qu end.

Definition set_owner (m : mutex) (o : option nat) (qu : queue T) : queue T :=
  match m with
  | MHead => Queue (buffer qu) (capacity qu) (head qu) (tail qu) o (mutex_tail qu)
                   (sems qu) (put_log qu) (take_log qu)
  | MTail => Queue (buffer qu) (capacity qu) (head qu) (tail qu) (mutex_head qu) o
                   (sems qu) (put_log qu) (take_log qu)
  end.

Definition set_sems (x : T) (qu : queue T) : queue T :=
  Queue (buffer qu) (capacity qu) (head qu) (tail qu) (mutex_head qu) (mutex_tail qu)
        x (put_log qu) (take_log qu).

(** Whether the owner of a mutex has died holding it. *)
Definition owner_dead (ths : list thread) (o : nat) : bool :=
  match ths !! o with Some th => negb (alive th) | None => false end.

(** One instruction of thread [t], whose local is [e]: [None] when it
    blocks, and otherwise the queue and the local after it. *)
Definition exec_instr (t : nat) (ths : list thread) (i : instr I) (qu : queue T) (e : Z)
    : option (res (queue T * Z)) :=
  match i with
  | SemOp i => match sem_exec i (sems qu) with
               | Some (Ok x) => Some (Ok (set_sems x qu, e))
               | Some (Fault f) => Some (Fault f)
               | Some OutOfFuel | None => None
               end
  | Lock m => match owner m qu with
              | None => Some (Ok (set_owner m (Some t) qu, e))
              | Some o => if robust && owner_dead ths o
                          then Some (Ok (set_owner m (Some t) qu, e)) else None
              end
  | Unlock m => if decide (owner m qu = Some t) then Some (Ok (set_owner m None qu, e))
                else Some (Fault (if robust then Exited 1 else NotOwner))
  | StoreTail =>
      if tail qu <? Z.of_nat (length (buffer qu)) then
        Some (Ok (Queue (<[Z.to_nat (tail qu) := Some e]> (buffer qu)) (capacity qu)
                    (head qu) (tail qu) (mutex_head qu) (mutex_tail qu) (sems qu)
                    (put_log qu) (take_log qu), e))
      else Some (Fault OutOfBounds)
  | LoadHead =>
      match buffer qu !! Z.to_nat (head qu) with
      | Some (Some x) => Some (Ok (qu, x))
      | Some None => Some (Fault UninitRead)
      | None => Some (Fault OutOfBounds)
      end
  | BumpTail =>
      if capacity qu =? 0 then Some (Fault DivByZero) else
      Some (Ok (Queue (buffer qu) (capacity qu) (head qu)
                  (u64 (tail qu + 1) mod capacity qu) (mutex_head qu) (mutex_tail qu)
                  (sems qu) (put_log qu ++ [e]) (take_log qu), e))
  | BumpHead =>
      if capacity qu =? 0 then Some (Fault DivByZero) else
      Some (Ok (Queue (buffer qu) (capacity qu) (u64 (head qu + 1) mod capacity qu)
                  (tail qu) (mutex_head qu) (mutex_tail qu) (sems qu)
                  (put_log qu) (take_log qu ++ [e]), e))
  end.

(** The thread after an instruction: at the next one, or out of the call. *)
Definition advance (c : call) (th : thread) (e : Z) : thread :=
  if (S (pc th) <? length (code c))%nat then Thread (Some c) (S (pc th)) e (alive th)
  else Thread None 0 e (alive th).

Definition exec (a : action) (s : system T) : option (config T) :=
  match a with
  | Start t c =>
      match threads s !! t with
      | Some (Thread None _ r true) =>
          let e := match c with Put e => e | Take => r end in
          Some (Running (System (q s) (<[t := Thread (Some c) 0 e true]> (threads s))))
      | _ => None
      end
  | Step t =>
      match threads s !! t with
      | Some (Thread (Some c) k r true as th) =>
          match code c !! k with
          | Some i =>
              match exec_instr t (threads s) i (q s) r with
              | Some (Ok (qu, e)) =>
                  Some (Running (System qu (<[t := advance c th e]> (threads s))))
              | Some (Fault f) => Some (Broken f)
              | Some OutOfFuel => None
              | None => None
              end
          | None => None
          end
      | _ => None
      end
  | Die t =>
      match threads s !! t with
      | Some (Thread c k r true) =>
          if robust then
            Some (Running (System (q s) (<[t := Thread c k r false]> (threads s))))
          else None
      | _ => None
      end
  end.

Definition step (c c' : config T) : Prop :=
  ∃ s a, c = Running s ∧ exec a s = Some c'.

(** The steps in which thread [t] only starts the calls that [role t] allows. *)
Definition follows (role : nat → call → Prop) (a : action) : Prop :=
  match a with Start t c => role t c | _ => True end.

Definition step_of (role : nat → call → Prop) (c c' : config T) : Prop :=
  ∃ s a, c = Running s ∧ follows role a ∧ exec a s = Some c'.

(** What destroying a mutex, or a semaphore that threads wait on by [i],
    asks for: that the mutex is free and that no thread is blocked. *)
Definition mutex_destroy (m : mutex) (s : system T) : res unit :=
  match owner m (q s) with None => Ok tt | Some _ => Fault InUse end.

Definition blocked_on (i : instr I → bool) (s : system T) (th : thread) : bool :=
  match in_call th with
  | None => false
  | Some c => match code c !! pc th with
              | Some (SemOp x as ins) =>
                  i ins && match sem_exec x (sems (q s)) with None => true | Some _ => false end
              | _ => false
              end
  end.

(** [n] idle threads sharing a queue of capacity [cap]. *)
Definition start (cap : Z) (n : nat) (c : config T) : Prop :=
  c = Running (System (queue_init cap) (replicate n idle)).

(** Runs a schedule. *)
Fixpoint run (acts : list action) (s : system T) : option (config T) :=
  match acts with
  | [] => Some (Running s)
  | a :: acts => match exec a s with
                 | Some (Running s') => run acts s'
                 | r => r
                 end
  end.

(** What the queue holds: stored and not yet taken. *)
Definition contents (qu : queue T) : list Z := drop (length (take_log qu)) (put_log qu).

(** ** The abstract queue: a bounded first-in first-out list *)

Inductive event := Enq (e : Z) | Deq (x : Z).

Inductive fifo_step (cap : Z) : option event → list Z → list Z → Prop :=
  | fifo_silent l : fifo_step cap None l l
  | fifo_enq e l : Z.of_nat (length l) < cap → fifo_step cap (Some (Enq e)) l (l ++ [e])
  | fifo_deq x l : fifo_step cap (Some (Deq x)) (x :: l) l.

(** The effect of an action on the abstract queue: a [put] of [e] takes
    effect when it advances [tail], and a [take] when it advances [head],
    having loaded the value it will return. *)
Definition event_of (a : action) (s : system T) : option event :=
  match a with
  | Step t =>
      match threads s !! t with
      | Some (Thread (Some c) k r _) =>
          match code c !! k, c with
          | Some BumpTail, Put e => Some (Enq e)
          | Some BumpHead, Take => Some (Deq r)
          | _, _ => None
          end
      | _ => None
      end
  | _ => None
  end.

(** The abstract queue's operations, and the events of a schedule. *)
Definition fifo (cap : Z) (ev : event) (l : list Z) : option (list Z) :=
  match ev, l with
  | Enq e, _ => if Z.of_nat (length l) <? cap then Some (l ++ [e]) else None
  | Deq x, y :: l' => if x =? y then Some l' else None
  | Deq _, [] => None
  end.

Fixpoint fifo_run (cap : Z) (evs : list event) (l : list Z) : option (list Z) :=
  match evs with
  | [] => Some l
  | ev :: evs => match fifo cap ev l with Some l' => fifo_run cap evs l' | None => None end
  end.

Fixpoint events (acts : list action) (s : system T) : list event :=
  match acts with
  | [] => []
  | a :: acts => match event_of a s with Some ev => [ev] | None => [] end ++
                 match exec a s with Some (Running s') => events acts s' | _ => [] end
  end.

(** How many threads died in a call. *)
Definition died_in_call (th : thread) : nat :=
  match in_call th with Some _ => if alive th then 0 else 1 | None => 0 end.

Definition deaths (s : system T) : nat := sum_list_with died_in_call (threads s).

(** A live thread in a call. *)
Definition busy (th : thread) : Prop := alive th = true ∧ in_call th ≠ None.

(** Thread [t] is blocked in its [put] (resp. [take]) on the semaphore. *)
Definition waits_on (x : sem) (th : thread) : Prop :=
  pc th = O ∧ match x with
              | Space => ∃ e, in_call th = Some (Put e)
              | Element => in_call th = Some Take
              end.

(** ** The invariant *)

Definition put_between (lo hi : nat) (th : thread) : nat :=
  match in_call th with
  | Some (Put _) => if (lo <=? pc th)%nat && (pc th <=? hi)%nat then 1 else 0
  | _ => 0
  end.

Definition take_between (lo hi : nat) (th : thread) : nat :=
  match in_call th with
  | Some Take => if (lo <=? pc th)%nat && (pc th <=? hi)%nat then 1 else 0
  | _ => 0
  end.

Definition holds_mutex (m : mutex) (th : thread) : Prop :=
  (2 ≤ pc th ≤ 4)%nat ∧
  match m with MTail => ∃ e, in_call th = Some (Put e) | MHead => in_call th = Some Take end.

(** The mutex a call takes. *)
Definition crit (c : call) : mutex := match c with Put _ => MTail | Take => MHead end.

(** The threads, live and dead, that hold a token of a semaphore account for
    every slot; the slots between [head] and [tail] hold what was put and not
    taken; live threads inside a critical section own its mutex. *)
Record Inv (cap : Z) (s : system T) : Prop := {
  inv_cap : capacity (q s) = cap;
  inv_len : Z.of_nat (length (buffer (q s))) = cap;
  inv_pc : ∀ t th, threads s !! t = Some th → (pc th ≤ 5)%nat;
  inv_el_pos : 0 ≤ sem_val Element (sems (q s));
  inv_sp_pos : 0 ≤ sem_val Space (sems (q s));
  inv_full :
    sem_val Element (sems (q s)) + Z.of_nat (sum_list_with (put_between 4 5) (threads s))
    + Z.of_nat (sum_list_with (take_between 1 3) (threads s))
    = Z.of_nat (length (put_log (q s))) - Z.of_nat (length (take_log (q s)));
  inv_free :
    sem_val Space (sems (q s)) + Z.of_nat (sum_list_with (put_between 1 3) (threads s))
    + Z.of_nat (sum_list_with (take_between 4 5) (threads s))
    + (Z.of_nat (length (put_log (q s))) - Z.of_nat (length (take_log (q s)))) = cap;
  inv_tail : tail (q s) = Z.of_nat (length (put_log (q s))) mod cap;
  inv_head : head (q s) = Z.of_nat (length (take_log (q s))) mod cap;
  inv_buf : ∀ i x, (length (take_log (q s)) ≤ i)%nat → put_log (q s) !! i = Some x →
    buffer (q s) !! Z.to_nat (Z.of_nat i mod cap) = Some (Some x);
  inv_take : take_log (q s) = take (length (take_log (q s))) (put_log (q s));
  inv_mutex : ∀ m t th, threads s !! t = Some th → alive th = true →
    (holds_mutex m th ↔ owner m (q s) = Some t);
  inv_owner : ∀ m t, owner m (q s) = Some t →
    ∃ th, threads s !! t = Some th ∧ holds_mutex m th;
  inv_robust : ∀ t th, threads s !! t = Some th → alive th = false → robust = true;
  inv_arg : ∀ t th e, threads s !! t = Some th → in_call th = Some (Put e) → reg th = e;
  inv_stored : ∀ t th e, threads s !! t = Some th → alive th = true →
    in_call th = Some (Put e) → pc th = 3%nat →
    buffer (q s) !! Z.to_nat (tail (q s)) = Some (Some (reg th));
  inv_loaded : ∀ t th, threads s !! t = Some th → alive th = true →
    in_call th = Some Take → pc th = 3%nat →
    put_log (q s) !! length (take_log (q s)) = Some (reg th)
}.
End system.

(** ** Proofs *)

(** Evaluates the token counts of threads at known instructions. *)
Ltac bq_count :=
  try match goal with c : call |- _ => destruct c end;
  unfold put_between, take_between; simpl; rewrite ?length_app; simpl; lia.

Section invariant.
Context {T I : Type} `{QueueLaws T I}.
Context (cap : Z) (Hcap : 0 < cap) (Hmax : cap ≤ sem_max) (H63 : cap < 2 ^ 63).
Implicit Types (s : system T) (qu : queue T) (th : thread).

Lemma inv_init n : Inv cap (System (queue_init cap) (replicate n idle)).
Proof.
  destruct (start_vals cap) as [Hel Hsp]; [lia|].
  assert (∀ t th, replicate n idle !! t = Some th → th = idle) as Hidle.
  { intros t th Ht. by apply lookup_replicate in Ht as [-> _]. }
  assert (∀ f, f idle = 0%nat → sum_list_with f (replicate n idle) = 0%nat) as Hsum.
  { intros f Hf. apply sum_list_with_zero. intros x Hx.
    apply elem_of_replicate in Hx as [-> _]. done. }
  constructor; simpl; rewrite ?Hel, ?Hsp, ?Hsum; try done; try lia.
  - rewrite length_replicate. lia.
  - intros t th Ht. apply Hidle in Ht as ->. simpl. lia.
  - intros m t th Ht Ha. apply Hidle in Ht as ->. destruct m; simpl; split; try done;
      intros [? ?]; simpl in *; lia.
  - intros [] t Ho; done.
  - intros t th Ht. by apply Hidle in Ht as ->.
  - intros t th e Ht. by apply Hidle in Ht as ->.
  - intros t th e Ht. by apply Hidle in Ht as ->.
  - intros t th Ht. by apply Hidle in Ht as ->.
Qed.

(** What a step of thread [t], from [th] to [th'] and to the queue [qu'],
    must satisfy to keep the invariant. *)
Lemma inv_update s t th th' qu' :
  Inv cap s → threads s !! t = Some th → alive th = true → alive th' = true →
  capacity qu' = capacity (q s) → length (buffer qu') = length (buffer (q s)) →
  (pc th' ≤ 5)%nat →
  0 ≤ sem_val Element (sems qu') → 0 ≤ sem_val Space (sems qu') →
  sem_val Element (sems qu') + Z.of_nat (put_between 4 5 th') + Z.of_nat (take_between 1 3 th')
    - (Z.of_nat (length (put_log qu')) - Z.of_nat (length (take_log qu'))) =
  sem_val Element (sems (q s)) + Z.of_nat (put_between 4 5 th) + Z.of_nat (take_between 1 3 th)
    - (Z.of_nat (length (put_log (q s))) - Z.of_nat (length (take_log (q s)))) →
  sem_val Space (sems qu') + Z.of_nat (put_between 1 3 th') + Z.of_nat (take_between 4 5 th')
    + (Z.of_nat (length (put_log qu')) - Z.of_nat (length (take_log qu'))) =
  sem_val Space (sems (q s)) + Z.of_nat (put_between 1 3 th) + Z.of_nat (take_between 4 5 th)
    + (Z.of_nat (length (put_log (q s))) - Z.of_nat (length (take_log (q s)))) →
  tail qu' = Z.of_nat (length (put_log qu')) mod cap →
  head qu' = Z.of_nat (length (take_log qu')) mod cap →
  (∀ i x, (length (take_log qu') ≤ i)%nat → put_log qu' !! i = Some x →
     buffer qu' !! Z.to_nat (Z.of_nat i mod cap) = Some (Some x)) →
  take_log qu' = take (length (take_log qu')) (put_log qu') →
  (∀ m, holds_mutex m th' ↔ owner m qu' = Some t) →
  (∀ m t', t' ≠ t → owner m qu' = Some t' → owner m (q s) = Some t') →
  (∀ m t' th'', t' ≠ t → threads s !! t' = Some th'' → alive th'' = true →
     owner m (q s) = Some t' → owner m qu' = Some t') →
  (∀ e, in_call th' = Some (Put e) → reg th' = e) →
  (∀ e, in_call th' = Some (Put e) → pc th' = 3%nat →
     buffer qu' !! Z.to_nat (tail qu') = Some (Some (reg th'))) →
  (in_call th' = Some Take → pc th' = 3%nat →
     put_log qu' !! length (take_log qu') = Some (reg th')) →
  (∀ t', t' ≠ t → owner MTail (q s) = Some t' →
     buffer qu' !! Z.to_nat (tail qu') = buffer (q s) !! Z.to_nat (tail (q s))) →
  (∀ t', t' ≠ t → owner MHead (q s) = Some t' →
     length (take_log qu') = length (take_log (q s)) ∧
     ∀ i x, put_log (q s) !! i = Some x → put_log qu' !! i = Some x) →
  Inv cap (System qu' (<[t := th']> (threads s))).
Proof.
  intros Hinv Ht Hal Hal' Hc Hl Hpc Hel Hsp Hfull Hfree Htail Hhead Hbuf Htake
    Hm Hm1 Hm2 Harg Hst Hld Hst' Hld'.
  pose proof (sum_list_with_insert (put_between 4 5) _ _ _ th' Ht).
  pose proof (sum_list_with_insert (put_between 1 3) _ _ _ th' Ht).
  pose proof (sum_list_with_insert (take_between 4 5) _ _ _ th' Ht).
  pose proof (sum_list_with_insert (take_between 1 3) _ _ _ th' Ht).
  pose proof (inv_full _ _ Hinv). pose proof (inv_free _ _ Hinv).
  constructor; cbn [q threads]; try done; try lia.
  - rewrite Hc. apply Hinv.
  - rewrite Hl. apply Hinv.
  - intros t' x [(<- & <- & _)|[Hne Hx]]%list_lookup_insert_Some; [done|].
    by eapply (inv_pc _ _ Hinv).
  - intros m t' x [(<- & <- & _)|[Hne Hx]]%list_lookup_insert_Some Hax; [done|].
    rewrite (inv_mutex _ _ Hinv m t' x) by done. split; eauto.
  - intros m t' Ho. destruct (decide (t' = t)) as [->|Hne].
    + exists th'. split; [|by apply Hm].
      apply list_lookup_insert_eq. by eapply lookup_lt_Some.
    + rewrite list_lookup_insert_ne by done. apply (inv_owner _ _ Hinv), Hm1; done.
  - intros t' x [(<- & <- & _)|[Hne Hx]]%list_lookup_insert_Some; [intros; congruence|].
    by apply (inv_robust _ _ Hinv t').
  - intros t' x e [(<- & <- & _)|[Hne Hx]]%list_lookup_insert_Some Hcx; [by apply Harg|].
    by apply (inv_arg _ _ Hinv t' x).
  - intros t' x e [(<- & <- & _)|[Hne Hx]]%list_lookup_insert_Some Hax Hcx Hpx.
    { by eapply Hst. }
    rewrite (Hst' t'); [by apply (inv_stored _ _ Hinv t' x e)|done|].
    apply (inv_mutex _ _ Hinv MTail t' x); [done..|]. split; [lia|eauto].
  - intros t' x [(<- & <- & _)|[Hne Hx]]%list_lookup_insert_Some Hax Hcx Hpx.
    { by apply Hld. }
    assert (owner MHead (q s) = Some t') as Ho.
    { apply (inv_mutex _ _ Hinv MHead t' x); [done..|]. split; [lia|done]. }
    destruct (Hld' t' (not_eq_sym Hne) Ho) as [-> Hlog].
    by apply Hlog, (inv_loaded _ _ Hinv t' x).
Qed.

(** Facts the cases share. *)

Lemma inv_owner_unique s m t t' th :
  Inv cap s → owner m (q s) = Some t → threads s !! t' = Some th → alive th = true →
  holds_mutex m th → t' = t.
Proof.
  intros Hinv Ho Ht Ha Hh. apply (inv_mutex _ _ Hinv m t' th) in Hh; congruence.
Qed.

Lemma inv_counts s t th :
  Inv cap s → threads s !! t = Some th →
  Z.of_nat (put_between 4 5 th) + Z.of_nat (take_between 1 3 th)
    + sem_val Element (sems (q s))
    ≤ Z.of_nat (length (put_log (q s))) - Z.of_nat (length (take_log (q s))) ∧
  Z.of_nat (put_between 1 3 th) + Z.of_nat (take_between 4 5 th)
    + sem_val Space (sems (q s))
    ≤ cap - (Z.of_nat (length (put_log (q s))) - Z.of_nat (length (take_log (q s)))).
Proof.
  intros Hinv Ht.
  pose proof (sum_list_with_elem (put_between 4 5) _ _ _ Ht).
  pose proof (sum_list_with_elem (put_between 1 3) _ _ _ Ht).
  pose proof (sum_list_with_elem (take_between 4 5) _ _ _ Ht).
  pose proof (sum_list_with_elem (take_between 1 3) _ _ _ Ht).
  pose proof (inv_full _ _ Hinv). pose proof (inv_free _ _ Hinv). lia.
Qed.

(** Two slots fewer than [cap] apart are distinct. *)
Lemma slot_ne i j : Z.of_nat i < Z.of_nat j < Z.of_nat i + cap →
  Z.to_nat (Z.of_nat j mod cap) ≠ Z.to_nat (Z.of_nat i mod cap).
Proof.
  intros Hij Heq.
  pose proof (Z.mod_pos_bound (Z.of_nat i) cap Hcap).
  pose proof (Z.mod_pos_bound (Z.of_nat j) cap Hcap).
  assert (Z.of_nat j mod cap = Z.of_nat i mod cap) as Hm by lia.
  pose proof (Z.div_mod (Z.of_nat i) cap ltac:(lia)).
  pose proof (Z.div_mod (Z.of_nat j) cap ltac:(lia)).
  generalize dependent (Z.of_nat i / cap). generalize dependent (Z.of_nat j / cap).
  intros a Hj b Hi. assert (Z.of_nat j - Z.of_nat i = cap * (a - b)) by lia.
  clear Heq Hi Hj. destruct (Z.lt_trichotomy a b) as [|[|]]; nia.
Qed.

Lemma bump_mod i : (u64 (Z.of_nat i mod cap + 1)) mod cap = Z.of_nat (S i) mod cap.
Proof.
  pose proof (Z.mod_pos_bound (Z.of_nat i) cap Hcap).
  rewrite u64_small, Nat2Z.inj_succ by lia. by rewrite Z.add_mod_idemp_l by lia.
Qed.

(** Steps that leave the queue alone but for its semaphores. *)
Lemma inv_sem_step s t th th' x :
  Inv cap s → threads s !! t = Some th → alive th = true → alive th' = true →
  (pc th' ≤ 5)%nat → pc th' ≠ 3%nat →
  0 ≤ sem_val Element x → 0 ≤ sem_val Space x →
  sem_val Element x + Z.of_nat (put_between 4 5 th') + Z.of_nat (take_between 1 3 th') =
  sem_val Element (sems (q s)) + Z.of_nat (put_between 4 5 th) + Z.of_nat (take_between 1 3 th) →
  sem_val Space x + Z.of_nat (put_between 1 3 th') + Z.of_nat (take_between 4 5 th') =
  sem_val Space (sems (q s)) + Z.of_nat (put_between 1 3 th) + Z.of_nat (take_between 4 5 th) →
  (∀ m, ¬ holds_mutex m th) → (∀ m, ¬ holds_mutex m th') →
  (∀ e, in_call th' = Some (Put e) → reg th' = e) →
  Inv cap (System (set_sems x (q s)) (<[t := th']> (threads s))).
Proof.
  intros Hinv Ht Ha Ha' Hpc Hpc3 Hel Hsp Hf1 Hf2 Hm Hm' Harg.
  apply (inv_update s t th); cbn [set_sems]; try done; try (by apply Hinv); try (simpl; lia); try bq_count.
  - intros m. split; [by intros ?%Hm'|]. intros Ho.
    destruct (Hm m). apply (inv_mutex _ _ Hinv m t th); [done..|]. by destruct m.
Qed.

Lemma holds_crit m c k r a :
  holds_mutex m (Thread (Some c) k r a) ↔ (2 ≤ k ≤ 4)%nat ∧ m = crit c.
Proof.
  unfold holds_mutex. simpl.
  destruct m, c; split; intros [? Hx]; split; try done; try (by destruct Hx); eauto.
Qed.

(** A call's [e] is the local of its thread. *)
Lemma inv_arg_call s t c k r a e :
  Inv cap s → threads s !! t = Some (Thread (Some c) k r a) → Some c = Some (Put e) → r = e.
Proof. intros Hinv Ht. by apply (inv_arg _ _ Hinv t _ e Ht). Qed.

(** Locking a mutex that is free or, when robust, whose owner is dead. *)
Lemma inv_lock_step s t c r :
  Inv cap s → threads s !! t = Some (Thread (Some c) 1 r true) →
  (∀ o, owner (crit c) (q s) = Some o → owner_dead (threads s) o = true) →
  Inv cap (System (set_owner (crit c) (Some t) (q s))
                  (<[t := Thread (Some c) 2 r true]> (threads s))).
Proof.
  intros Hinv Ht Hdead.
  assert (∀ m, ¬ holds_mutex m (Thread (Some c) 1 r true)) as Hno
    by (intros m; rewrite holds_crit; lia).
  apply (inv_update s t (Thread (Some c) 1 r true)); try done;
    try (destruct c; by apply Hinv); try bq_count.
  - intros m. rewrite holds_crit. destruct (decide (m = crit c)) as [->|Hne].
    + split; [by destruct c|split; [simpl; lia|done]].
    + split; [by intros [_ ?]|]. intros Ho. destruct (Hno m).
      apply (inv_mutex _ _ Hinv m t _ Ht); [done|]. by destruct m, c.
  - intros m t' Hne Ho. destruct (decide (m = crit c)) as [->|Hm].
    + destruct c; simpl in Ho; congruence.
    + by destruct m, c.
  - intros m t' th'' Hne Ht' Ha Ho. destruct (decide (m = crit c)) as [->|Hm].
    + apply Hdead in Ho. unfold owner_dead in Ho. by rewrite Ht', Ha in Ho.
    + by destruct m, c.
  - intros e. by eapply inv_arg_call.
  - intros t' Hne Ho. by destruct c.
  - intros t' Hne Ho. by destruct c.
Qed.

(** Unlocking. *)
Lemma inv_unlock_step s t c r :
  Inv cap s → threads s !! t = Some (Thread (Some c) 4 r true) →
  owner (crit c) (q s) = Some t ∧
  Inv cap (System (set_owner (crit c) None (q s))
                  (<[t := Thread (Some c) 5 r true]> (threads s))).
Proof.
  intros Hinv Ht.
  assert (owner (crit c) (q s) = Some t) as Hown.
  { apply (inv_mutex _ _ Hinv (crit c) t _ Ht); [done|]. rewrite holds_crit. split; [lia|done]. }
  split; [done|].
  apply (inv_update s t (Thread (Some c) 4 r true)); try done;
    try (destruct c; by apply Hinv); try bq_count.
  - intros m. rewrite holds_crit. split; [lia|]. intros Ho.
    destruct (decide (m = crit c)) as [->|Hm]; [by destruct c|].
    assert (owner m (q s) = Some t) as Hom by (by destruct m, c).
    apply (inv_mutex _ _ Hinv m t _ Ht) in Hom; [|done].
    by apply holds_crit in Hom as [_ ?].
  - intros m t' Hne Ho. by destruct m, c.
  - intros m t' th'' Hne Ht' Ha Ho. destruct (decide (m = crit c)) as [->|Hm]; [congruence|].
    by destruct m, c.
  - intros e. by eapply inv_arg_call.
  - intros t' Hne Ho. by destruct c.
  - intros t' Hne Ho. by destruct c.
Qed.

(** The thread in the critical section is the only one there. *)
Lemma inv_inside s t c k r :
  Inv cap s → threads s !! t = Some (Thread (Some c) k r true) → (2 ≤ k ≤ 4)%nat →
  owner (crit c) (q s) = Some t ∧
  ∀ k' r', (2 ≤ k' ≤ 4)%nat →
    (∀ m, holds_mutex m (Thread (Some c) k' r' true) ↔ owner m (q s) = Some t).
Proof.
  intros Hinv Ht Hk. assert (∀ m, holds_mutex m (Thread (Some c) k r true) ↔
    owner m (q s) = Some t) as Hm by (intros m; by apply (inv_mutex _ _ Hinv m t _ Ht)).
  split; [apply Hm, holds_crit; by split|].
  intros k' r' Hk' m. rewrite <-Hm, !holds_crit. tauto.
Qed.

Lemma inv_store_step s t e r :
  Inv cap s → threads s !! t = Some (Thread (Some (Put e)) 2 r true) →
  ∃ qu, exec_instr t (threads s) StoreTail (q s) r = Some (Ok (qu, r)) ∧
    Inv cap (System qu (<[t := Thread (Some (Put e)) 3 r true]> (threads s))).
Proof.
  intros Hinv Ht. destruct (inv_inside _ _ _ _ _ Hinv Ht ltac:(lia)) as [Hown Hm].
  destruct (inv_counts _ _ _ Hinv Ht) as [_ Hroom]. simpl in Hroom.
  pose proof (inv_sp_pos _ _ Hinv). pose proof (inv_tail _ _ Hinv) as Htail.
  pose proof (inv_len _ _ Hinv) as Hlen.
  pose proof (Z.mod_pos_bound (Z.of_nat (length (put_log (q s)))) cap Hcap).
  unfold exec_instr. rewrite (proj2 (Z.ltb_lt _ _)) by lia.
  eexists. split; [done|].
  apply (inv_update s t (Thread (Some (Put e)) 2 r true)); simpl; try done;
    try (by apply Hinv); try apply (Hm 3%nat r); try lia; try bq_count.
  - by rewrite length_insert.
  - intros i x Hi Hx. rewrite list_lookup_insert_ne; [by apply Hinv|].
    rewrite Htail. apply slot_ne.
    apply lookup_lt_Some in Hx. unfold put_between, take_between in Hroom. simpl in Hroom. lia.
  - intros e'. by eapply inv_arg_call.
  - intros _ _ _. apply list_lookup_insert_eq. lia.
  - intros t' Hne Ho. simpl in Hown. congruence.
Qed.

Lemma inv_bump_tail_step s t e r :
  Inv cap s → threads s !! t = Some (Thread (Some (Put e)) 3 r true) →
  ∃ qu, exec_instr t (threads s) BumpTail (q s) r = Some (Ok (qu, r)) ∧
    put_log qu = put_log (q s) ++ [e] ∧ take_log qu = take_log (q s) ∧
    Inv cap (System qu (<[t := Thread (Some (Put e)) 4 r true]> (threads s))).
Proof.
  intros Hinv Ht. destruct (inv_inside _ _ _ _ _ Hinv Ht ltac:(lia)) as [Hown Hm].
  assert (r = e) as -> by (by eapply inv_arg_call).
  pose proof (inv_tail _ _ Hinv) as Htail.
  pose proof (inv_stored _ _ Hinv t _ e Ht eq_refl eq_refl eq_refl) as Hst. simpl in Hst.
  destruct (inv_counts _ _ _ Hinv Ht) as [Hle _].
  pose proof (inv_el_pos _ _ Hinv).
  unfold exec_instr. rewrite (inv_cap _ _ Hinv), (proj2 (Z.eqb_neq cap 0)) by lia.
  eexists. do 3 (split; [done|]).
  apply (inv_update s t (Thread (Some (Put e)) 3 e true)); simpl; try done;
    try (by apply Hinv); try apply (Hm 4%nat e); try lia; try bq_count.
  - symmetry. by apply inv_cap.
  - rewrite length_app, Htail, bump_mod. simpl. by rewrite Nat.add_1_r.
  - intros i x Hi Hx. destruct (decide (i = length (put_log (q s)))) as [->|Hne].
    + rewrite list_lookup_middle in Hx by done. simplify_eq. by rewrite <-Htail.
    + apply Hinv; [done|]. rewrite lookup_app_l in Hx; [done|].
      apply lookup_lt_Some in Hx. rewrite length_app in Hx. simpl in Hx. lia.
  - rewrite take_app_le by lia. apply Hinv.
  - intros e' [= ->]. done.
  - intros t' Hne Ho. simpl in Hown. congruence.
  - intros t' Hne Ho. split; [done|]. intros i x Hx. by apply lookup_app_l_Some.
Qed.

Lemma inv_load_step s t r :
  Inv cap s → threads s !! t = Some (Thread (Some Take) 2 r true) →
  ∃ x, exec_instr t (threads s) LoadHead (q s) r = Some (Ok (q s, x)) ∧
    Inv cap (System (q s) (<[t := Thread (Some Take) 3 x true]> (threads s))).
Proof.
  intros Hinv Ht. destruct (inv_inside _ _ _ _ _ Hinv Ht ltac:(lia)) as [Hown Hm].
  destruct (inv_counts _ _ _ Hinv Ht) as [Hsome _].
  pose proof (inv_el_pos _ _ Hinv). unfold put_between, take_between in Hsome. simpl in Hsome.
  destruct (lookup_lt_is_Some_2 (put_log (q s)) (length (take_log (q s)))) as [x Hx]; [lia|].
  exists x. unfold exec_instr.
  rewrite (inv_head _ _ Hinv), (inv_buf _ _ Hinv _ x) by done. split; [done|].
  apply (inv_update s t (Thread (Some Take) 2 r true)); simpl; try done;
    try (by apply Hinv); try apply (Hm 3%nat x); try lia; try bq_count.
Qed.

Lemma inv_bump_head_step s t r :
  Inv cap s → threads s !! t = Some (Thread (Some Take) 3 r true) →
  ∃ qu, exec_instr t (threads s) BumpHead (q s) r = Some (Ok (qu, r)) ∧
    put_log qu = put_log (q s) ∧ take_log qu = take_log (q s) ++ [r] ∧
    Inv cap (System qu (<[t := Thread (Some Take) 4 r true]> (threads s))).
Proof.
  intros Hinv Ht. destruct (inv_inside _ _ _ _ _ Hinv Ht ltac:(lia)) as [Hown Hm].
  pose proof (inv_head _ _ Hinv) as Hhead.
  pose proof (inv_loaded _ _ Hinv t _ Ht eq_refl eq_refl eq_refl) as Hld. simpl in Hld.
  unfold exec_instr. rewrite (inv_cap _ _ Hinv), (proj2 (Z.eqb_neq cap 0)) by lia.
  eexists. do 3 (split; [done|]).
  apply (inv_update s t (Thread (Some Take) 3 r true)); simpl; try done;
    try (by apply Hinv); try apply (Hm 4%nat r); try lia; try bq_count.
  - symmetry. by apply inv_cap.
  - rewrite length_app, Hhead, bump_mod. simpl. by rewrite Nat.add_1_r.
  - intros i x Hi Hx. rewrite length_app in Hi. apply Hinv; [lia|done].
  - rewrite length_app. simpl. rewrite Nat.add_1_r, (take_S_r _ _ r) by done.
    by rewrite <-(inv_take _ _ Hinv).
  - intros t' Hne Ho. simpl in Hown. congruence.
Qed.

Lemma advance_next c k r r' a :
  (k < 5)%nat → advance c (Thread (Some c) k r a) r' = Thread (Some c) (S k) r' a.
Proof.
  intros Hk. unfold advance, code. simpl.
  rewrite put_shape, take_shape. simpl.
  replace (length (match c with Put _ => _ | Take => _ end)) with 6%nat by (by destruct c).
  by rewrite (proj2 (Nat.ltb_lt _ _)) by lia.
Qed.

Lemma advance_last c r r' a : advance c (Thread (Some c) 5 r a) r' = Thread None 0 r' a.
Proof. unfold advance, code. rewrite put_shape, take_shape. by destruct c. Qed.

(** A semaphore wait that succeeds, and a post. *)
Lemma inv_wait_step s t c r o :
  Inv cap s → threads s !! t = Some (Thread (Some c) 0 r true) →
  sem_exec (wait (match c with Put _ => Space | Take => Element end)) (sems (q s)) = Some o →
  ∃ x, o = Ok x ∧ Inv cap (System (set_sems x (q s)) (<[t := Thread (Some c) 1 r true]> (threads s))).
Proof.
  intros Hinv Ht Ho. set (w := match c with Put _ => Space | Take => Element end) in *.
  assert (∀ y, 0 ≤ sem_val y (sems (q s))) as Hpos
    by (intros []; apply Hinv).
  destruct (decide (sem_val w (sems (q s)) = 0)) as [Hz|Hnz].
  { by rewrite wait_blocks in Ho. }
  specialize (Hpos w) as Hw. destruct (wait_takes w (sems (q s))) as (x & Hx & Hval); [lia|].
  rewrite Hx in Ho. injection Ho as <-. exists x. split; [done|]. pose proof (Hpos Element). pose proof (Hpos Space).
  apply (inv_sem_step s t (Thread (Some c) 0 r true)); try done; rewrite ?Hval; try (simpl; lia).
  all: subst w; try (destruct c; simpl in *; lia); try bq_count.
  - intros m. rewrite holds_crit. lia.
  - intros m. rewrite holds_crit. lia.
  - intros e. by eapply inv_arg_call.
Qed.

Lemma inv_post_step s t c r :
  Inv cap s → threads s !! t = Some (Thread (Some c) 5 r true) →
  ∃ x, sem_exec (post (match c with Put _ => Element | Take => Space end)) (sems (q s)) =
    Some (Ok x) ∧
  Inv cap (System (set_sems x (q s)) (<[t := Thread None 0 r true]> (threads s))).
Proof.
  intros Hinv Ht. set (w := match c with Put _ => Element | Take => Space end).
  pose proof (inv_el_pos _ _ Hinv). pose proof (inv_sp_pos _ _ Hinv).
  destruct (inv_counts _ _ _ Hinv Ht) as [Hc1 Hc2].
  destruct (post_adds w (sems (q s))) as (x & Hx & Hval).
  { unfold put_between, take_between in *. subst w. destruct c; simpl in *; lia. }
  exists x. split; [done|].
  apply (inv_sem_step s t (Thread (Some c) 5 r true)); try done; rewrite ?Hval; try (simpl; lia).
  all: subst w; try (destruct c; simpl in *; lia); try bq_count.
  - intros m. rewrite holds_crit. lia.
  - intros m [? _]. simpl in *. lia.
Qed.

Lemma inv_start_step s t c k r :
  Inv cap s → threads s !! t = Some (Thread None k r true) →
  Inv cap (System (q s) (<[t := Thread (Some c) 0
             (match c with Put e => e | Take => r end) true]> (threads s))).
Proof.
  intros Hinv Ht. replace (q s) with (set_sems (sems (q s)) (q s)) at 1 by (by destruct (q s)).
  apply (inv_sem_step s t (Thread None k r true)); try done; try apply Hinv; try bq_count; try (simpl; lia).
  - intros [] [_ Hm]; simpl in Hm; [done|by destruct Hm].
  - intros m. rewrite holds_crit. lia.
  - intros e [= ->]. done.
Qed.

Lemma inv_die_step s t c k r :
  Inv cap s → robust = true → threads s !! t = Some (Thread c k r true) →
  Inv cap (System (q s) (<[t := Thread c k r false]> (threads s))).
Proof.
  intros Hinv Hrob Ht.
  assert (∀ f, f (Thread c k r false) = f (Thread c k r true) →
    sum_list_with f (<[t := Thread c k r false]> (threads s)) = sum_list_with f (threads s)) as Hsum.
  { intros f Hf. pose proof (sum_list_with_insert f _ _ _ (Thread c k r false) Ht). lia. }
  constructor; cbn [q threads]; rewrite ?Hsum by done; try by apply Hinv.
  - intros t' x [(<- & <- & _)|[Hne Hx]]%list_lookup_insert_Some.
    + apply (inv_pc _ _ Hinv t _ Ht).
    + by apply (inv_pc _ _ Hinv t').
  - intros m t' x [(<- & <- & _)|[Hne Hx]]%list_lookup_insert_Some Hax; [done|].
    by apply Hinv.
  - intros m t' Ho. destruct (inv_owner _ _ Hinv m t' Ho) as (x & Hx & Hh).
    destruct (decide (t' = t)) as [->|Hne].
    + eexists. split; [apply list_lookup_insert_eq; by eapply lookup_lt_Some|].
      by simplify_eq.
    + exists x. by rewrite list_lookup_insert_ne.
  - done.
  - intros t' x e [(<- & <- & _)|[Hne Hx]]%list_lookup_insert_Some Hcx.
    + by apply (inv_arg _ _ Hinv t _ e Ht).
    + by apply (inv_arg _ _ Hinv t' x e).
  - intros t' x e [(<- & <- & _)|[Hne Hx]]%list_lookup_insert_Some; [done|].
    by apply (inv_stored _ _ Hinv t').
  - intros t' x [(<- & <- & _)|[Hne Hx]]%list_lookup_insert_Some; [done|].
    by apply (inv_loaded _ _ Hinv t').
Qed.

Lemma contents_length s :
  Inv cap s → Z.of_nat (length (contents (q s))) =
  Z.of_nat (length (put_log (q s))) - Z.of_nat (length (take_log (q s))).
Proof.
  intros Hinv. unfold contents. rewrite length_drop.
  pose proof (inv_full _ _ Hinv). pose proof (inv_el_pos _ _ Hinv). lia.
Qed.

(** An instruction of a live thread runs, keeps the invariant and acts on
    the contents as the bounded queue does. *)
Lemma step_inv s t c k r i o :
  Inv cap s → threads s !! t = Some (Thread (Some c) k r true) → code c !! k = Some i →
  exec_instr t (threads s) i (q s) r = Some o →
  ∃ qu e, o = Ok (qu, e) ∧
    Inv cap (System qu (<[t := advance c (Thread (Some c) k r true) e]> (threads s))) ∧
    fifo_step cap (event_of (Step t) s) (contents (q s)) (contents qu).
Proof.
  intros Hinv Ht Hi Ho. pose proof (inv_pc _ _ Hinv t _ Ht) as Hk. simpl in Hk.
  unfold event_of. rewrite Ht, Hi.
  assert (code c = match c with Put _ => _ | Take => _ end) as Hcode
    by (unfold code; rewrite put_shape, take_shape; reflexivity).
  rewrite Hcode in Hi. clear Hcode.
  destruct k as [|[|[|[|[|[|k]]]]]]; [..|lia].
  - destruct c as [e|]; simpl in Hi; simplify_eq; simpl in Ho;
      (destruct (sem_exec _ (sems (q s))) as [o'|] eqn:Hx; [|done]);
      apply (inv_wait_step _ _ _ _ _ Hinv Ht) in Hx as (x & -> & Hinv'); simplify_eq;
      (do 2 eexists; split; [done|]; rewrite advance_next by lia; split;
       [done|constructor]).
  - assert (i = Lock (crit c)) as -> by (by destruct c; simpl in Hi; simplify_eq/=).
    assert (o = Ok (set_owner (crit c) (Some t) (q s), r) ∧
      ∀ o', owner (crit c) (q s) = Some o' → owner_dead (threads s) o' = true) as [-> Hd].
    { simpl in Ho. destruct (owner (crit c) (q s)) as [o'|]; [|by simplify_eq].
      destruct (robust && owner_dead (threads s) o') eqn:E; simplify_eq.
      apply andb_true_iff in E as [_ E]. split; [done|]. intros ? [= <-]. done. }
    do 2 eexists. split; [done|]. rewrite advance_next by lia.
    split; [by apply inv_lock_step|]. destruct c; constructor.
  - destruct c as [e|]; simpl in Hi; simplify_eq.
    + destruct (inv_store_step _ _ _ _ Hinv Ht) as (qu & Hx & Hinv').
      rewrite Hx in Ho. injection Ho as <-.
      do 2 eexists. split; [done|]. rewrite advance_next by lia. split; [done|].
      simpl in Hx. case_match; simplify_eq. constructor.
    + destruct (inv_load_step _ _ _ Hinv Ht) as (x & Hx & Hinv').
      rewrite Hx in Ho. injection Ho as <-. do 2 eexists. split; [done|]. rewrite advance_next by lia. split; [done|constructor].
  - pose proof (contents_length _ Hinv) as Hlen. destruct c as [e|]; simpl in Hi; simplify_eq.
    + destruct (inv_bump_tail_step _ _ _ _ Hinv Ht) as (qu & Hx & Hp & Htk & Hinv').
      rewrite Hx in Ho. injection Ho as <-.
      do 2 eexists. split; [done|]. rewrite advance_next by lia. split; [done|].
      destruct (inv_counts _ _ _ Hinv Ht) as [Hn1 Hn2].
      pose proof (inv_el_pos _ _ Hinv). pose proof (inv_sp_pos _ _ Hinv).
      assert (contents qu = contents (q s) ++ [e]) as ->
        by (unfold contents; rewrite Hp, Htk, drop_app_le by lia; done).
      constructor. unfold put_between, take_between in *. simpl in *. lia.
    + destruct (inv_bump_head_step _ _ _ Hinv Ht) as (qu & Hx & Hp & Htk & Hinv').
      rewrite Hx in Ho. injection Ho as <-.
      do 2 eexists. split; [done|]. rewrite advance_next by lia. split; [done|].
      pose proof (inv_loaded _ _ Hinv t _ Ht eq_refl eq_refl eq_refl) as Hld. simpl in Hld.
      unfold contents. rewrite Hp, Htk, length_app, Nat.add_1_r, (drop_S _ _ _ Hld).
      constructor.
  - assert (i = Unlock (crit c)) as -> by (by destruct c; simpl in Hi; simplify_eq/=).
    destruct (inv_unlock_step _ _ _ _ Hinv Ht) as [Hown Hinv'].
    simpl in Ho. case_decide; [|done]. simplify_eq.
    do 2 eexists. split; [done|]. rewrite advance_next by lia.
    split; [done|]. destruct c; constructor.
  - destruct (inv_post_step _ _ _ _ Hinv Ht) as (x & Hx & Hinv').
    destruct c as [e|]; simpl in Hi; simplify_eq; simpl in Ho; rewrite Hx in Ho; simplify_eq;
      (do 2 eexists; split; [done|]; rewrite advance_last; split; [done|constructor]).
Qed.

(** Every action keeps the invariant and refines the bounded queue. *)
Lemma exec_inv s a c' :
  Inv cap s → exec a s = Some c' →
  ∃ s', c' = Running s' ∧ Inv cap s' ∧
    fifo_step cap (event_of a s) (contents (q s)) (contents (q s')).
Proof.
  intros Hinv. destruct a as [t c|t|t]; simpl.
  - destruct (threads s !! t) as [[[c'' |] k r []]|] eqn:Ht; try done. intros [= <-].
    eexists. split; [done|]. split; [by eapply inv_start_step|constructor].
  - destruct (threads s !! t) as [[[c|] k r []]|] eqn:Ht; try done.
    destruct (code c !! k) as [i|] eqn:Hi; [|done].
    destruct (exec_instr t (threads s) i (q s) r) as [o|] eqn:Ho; [|done].
    destruct (step_inv _ _ _ _ _ _ _ Hinv Ht Hi Ho) as (qu & e & -> & Hinv' & Hf).
    intros [= <-]. eexists. split; [done|]. split; [done|].
    unfold event_of in Hf. by rewrite Ht, Hi in Hf.
  - destruct (threads s !! t) as [[c k r []]|] eqn:Ht; try done.
    destruct robust eqn:Hr; [|done]. intros [= <-].
    eexists. split; [done|]. split; [by eapply inv_die_step|constructor].
Qed.

(** A step inside a call, in detail: where the thread goes, and what happens
    to the histories. *)
Lemma exec_step_logs s t c k r c' :
  Inv cap s → threads s !! t = Some (Thread (Some c) k r true) → exec (Step t) s = Some c' →
  ∃ s' e, c' = Running s' ∧ Inv cap s' ∧
    threads s' = <[t := if (k <? 5)%nat then Thread (Some c) (S k) e true
                        else Thread None 0 e true]> (threads s) ∧
    put_log (q s') = put_log (q s) ++
      match c with Put x => if decide (k = 3%nat) then [x] else [] | Take => [] end ∧
    take_log (q s') = take_log (q s) ++
      match c with Put _ => [] | Take => if decide (k = 3%nat) then [r] else [] end ∧
    (k ≠ 2%nat → e = r).
Proof.
  intros Hinv Ht He. pose proof (exec_inv _ _ _ Hinv He) as (s' & -> & Hinv' & _).
  simpl in He. rewrite Ht in He. pose proof (inv_pc _ _ Hinv t _ Ht) as Hk. simpl in Hk.
  destruct (code c !! k) as [i|] eqn:Hi; [|done].
  destruct (exec_instr t (threads s) i (q s) r) as [[[qu e]|f|]|] eqn:Ho; try done.
  injection He as <-. exists (System qu (<[t := advance c (Thread (Some c) k r true) e]> (threads s))), e.
  split; [done|]. split; [done|].
  assert (code c = match c with Put _ => _ | Take => _ end) as Hcode
    by (unfold code; rewrite put_shape, take_shape; reflexivity).
  simpl. split.
  { unfold advance. simpl. rewrite Hcode. f_equal.
    destruct c; simpl; by destruct (Nat.ltb_spec (S k) 6), (Nat.ltb_spec k 5); try lia. }
  rewrite Hcode in Hi.
  assert (∀ x, c = Put x → r = x) as Harg.
  { intros x ->. by apply (inv_arg _ _ Hinv t _ x Ht). }
  destruct k as [|[|[|[|[|[|k]]]]]]; [..|lia]; destruct c as [x|]; simpl in Hi; simplify_eq;
    simpl in Ho; repeat case_match; simplify_eq; simpl; rewrite ?app_nil_r;
    try (specialize (Harg _ eq_refl); subst); try done; by destruct m.
Qed.

Lemma reachable_inv n c :
  reachable (start cap n) step c → ∃ s, c = Running s ∧ Inv cap s.
Proof.
  apply (reachable_invariant _ _ (λ c, ∃ s, c = Running s ∧ Inv cap s)).
  - intros c' ->. eexists. split; [done|apply inv_init].
  - intros c1 c2 (s & -> & Hinv) (s' & a & [= <-] & Ha).
    destruct (exec_inv _ _ _ Hinv Ha) as (s' & -> & Hinv' & _). eauto.
Qed.

(** A live thread past its first instruction can always take a step, unless
    it waits for a mutex whose owner can, and is itself past the first. *)
Lemma progress_inside s t c k r :
  Inv cap s → threads s !! t = Some (Thread (Some c) k r true) → (2 ≤ k)%nat →
  ∃ c', exec (Step t) s = Some c'.
Proof.
  intros Hinv Ht Hk. pose proof (inv_pc _ _ Hinv t _ Ht) as Hk5. simpl in Hk5.
  assert (∃ i, code c !! k = Some i ∧ is_Some (exec_instr t (threads s) i (q s) r))
    as (i & Hi & o & Ho).
  { unfold code. rewrite put_shape, take_shape.
    destruct k as [|[|[|[|[|[|k]]]]]]; try lia; destruct c as [e|]; simpl;
      try (eexists; split; [done|simpl; repeat case_match; by eexists]);
      destruct (inv_post_step _ _ _ _ Hinv Ht) as (x & Hx & _);
      (eexists; split; [done|]); simpl; rewrite Hx; by eexists. }
  destruct (step_inv _ _ _ _ _ _ _ Hinv Ht Hi Ho) as (qu & e & -> & _).
  eexists. simpl. rewrite Ht, Hi, Ho. done.
Qed.

Lemma progress_lock s t c r :
  Inv cap s → threads s !! t = Some (Thread (Some c) 1 r true) →
  ∃ t' c', exec (Step t') s = Some c'.
Proof.
  intros Hinv Ht.
  assert (code c !! 1%nat = Some (Lock (crit c))) as Hi
    by (unfold code; rewrite put_shape, take_shape; by destruct c).
  destruct (owner (crit c) (q s)) as [o|] eqn:Hown.
  - destruct (inv_owner _ _ Hinv _ _ Hown) as (th & Hth & Hh).
    destruct th as [co ko ro ao]. destruct ao.
    + destruct co as [co|]; [|destruct Hh as [_ Hh]; destruct (crit c); [done|by destruct Hh]].
      destruct Hh as [Hko _]. simpl in Hko.
      destruct (progress_inside s o co ko ro) as [c' Hc']; [done..|lia|]. eauto.
    + pose proof (inv_robust _ _ Hinv o _ Hth eq_refl) as Hrob.
      exists t. eexists. simpl. rewrite Ht, Hi. simpl. rewrite Hown, Hrob.
      unfold owner_dead. rewrite Hth. simpl. done.
  - exists t. eexists. simpl. rewrite Ht, Hi. simpl. by rewrite Hown.
Qed.

(** If no thread can take a step then every live call waits on a semaphore
    that is zero. *)
Lemma stuck_waiting s t th :
  Inv cap s → (∀ t' c', exec (Step t') s ≠ Some c') →
  threads s !! t = Some th → busy th →
  ∃ x, waits_on x th ∧ sem_val x (sems (q s)) = 0.
Proof.
  intros Hinv Hstuck Ht [Ha Hc]. destruct th as [[c|] k r a]; [|done]. simpl in Ha. subst a.
  destruct k as [|[|k]].
  - set (w := match c with Put _ => Space | Take => Element end).
    exists w. split; [split; [done|subst w; destruct c; simpl; eauto]|].
    destruct (decide (sem_val w (sems (q s)) = 0)) as [|Hnz]; [done|]. exfalso.
    destruct (wait_takes w (sems (q s))) as (x & Hx & _).
    { pose proof (inv_el_pos _ _ Hinv). pose proof (inv_sp_pos _ _ Hinv).
      destruct w; lia. }
    assert (code c !! 0%nat = Some (SemOp (wait w))) as Hi
      by (unfold code; rewrite put_shape, take_shape; by destruct c).
    eapply (Hstuck t). simpl. rewrite Ht, Hi. simpl. by rewrite Hx.
  - destruct (progress_lock s t c r Hinv Ht) as (t' & c' & Hc'). by destruct (Hstuck t' c').
  - destruct (progress_inside s t c (S (S k)) r Hinv Ht ltac:(lia)) as [c' Hc'].
    by destruct (Hstuck t c').
Qed.

Lemma fifo_step_run ev evs l l' :
  fifo_step cap ev l l' →
  fifo_run cap (match ev with Some ev => [ev] | None => [] end ++ evs) l = fifo_run cap evs l'.
Proof.
  destruct 1 as [l|e l Hl|x l]; simpl; [done|..].
  - by rewrite (proj2 (Z.ltb_lt _ _) Hl).
  - by rewrite Z.eqb_refl.
Qed.

(** A schedule never breaks the system, and its events are a run of the
    bounded queue. *)
Lemma run_refines acts s c :
  Inv cap s → run acts s = Some c →
  ∃ s', c = Running s' ∧ Inv cap s' ∧
    fifo_run cap (events acts s) (contents (q s)) = Some (contents (q s')).
Proof.
  revert s. induction acts as [|a acts IH]; intros s Hinv Hrun; simpl in Hrun |- *.
  { injection Hrun as <-. eauto. }
  destruct (exec a s) as [c1|] eqn:Ha; [|done].
  destruct (exec_inv _ _ _ Hinv Ha) as (s1 & -> & Hinv1 & Hf).
  destruct (IH s1 Hinv1 Hrun) as (s' & -> & Hinv' & Hr).
  exists s'. split; [done|]. split; [done|]. by rewrite (fifo_step_run _ _ _ _ Hf).
Qed.

(** If no thread can take a step, a call that waits to put finds the queue
    full, and one that waits to take finds it empty, but for one slot per
    thread that died in a call. *)
Lemma stuck_bound s t th :
  Inv cap s → (∀ t' c', exec (Step t') s ≠ Some c') →
  threads s !! t = Some th → busy th →
  (waits_on Space th ∧ cap - Z.of_nat (deaths s) ≤ Z.of_nat (length (contents (q s))) ≤ cap) ∨
  (waits_on Element th ∧ Z.of_nat (length (contents (q s))) ≤ Z.of_nat (deaths s)).
Proof.
  intros Hinv Hstuck Ht Hb.
  assert (∀ i x lo hi, (1 ≤ lo)%nat → threads s !! i = Some x → alive x = true →
    put_between lo hi x = 0%nat ∧ take_between lo hi x = 0%nat) as Hzero.
  { intros i x lo hi Hlo Hi Ha. unfold put_between, take_between.
    destruct (in_call x) as [c|] eqn:Hc; [|done].
    destruct (stuck_waiting _ _ _ Hinv Hstuck Hi) as (w & [Hpc _] & _); [by split; [|rewrite Hc]|].
    rewrite Hpc. destruct lo as [|lo]; [lia|]. simpl. by destruct c. }
  assert (∀ lo hi lo' hi', (1 ≤ lo)%nat → (1 ≤ lo')%nat →
    (sum_list_with (put_between lo hi) (threads s) +
     sum_list_with (take_between lo' hi') (threads s) ≤ deaths s)%nat) as Hsum.
  { intros lo hi lo' hi' Hlo Hlo'. apply sum_list_with_add_le. intros i x Hi.
    unfold died_in_call. destruct (alive x) eqn:Ha.
    - destruct (Hzero i x lo hi) as [-> _]; [done..|].
      destruct (Hzero i x lo' hi') as [_ ->]; [done..|]. lia.
    - unfold put_between, take_between. destruct (in_call x) as [[]|]; try lia; case_match; lia. }
  pose proof (contents_length _ Hinv).
  pose proof (inv_full _ _ Hinv). pose proof (inv_free _ _ Hinv).
  pose proof (inv_sp_pos _ _ Hinv). pose proof (inv_el_pos _ _ Hinv).
  pose proof (Hsum 4 5 1 3)%nat. pose proof (Hsum 1 3 4 5)%nat.
  destruct (stuck_waiting _ _ _ Hinv Hstuck Ht Hb) as ([] & Hw & Hz); [right|left];
    (split; [done|]); lia.
Qed.

(** Threads stay in their roles, and their number does not change. *)
Definition in_role (role : nat → call → Prop) (n : nat) (s : system T) : Prop :=
  length (threads s) = n ∧
  ∀ t th c, threads s !! t = Some th → in_call th = Some c → role t c.

Lemma in_role_update role n s t th qu :
  in_role role n s → (∀ c, in_call th = Some c → role t c) →
  in_role role n (System qu (<[t := th]> (threads s))).
Proof.
  intros [Hn Hr] Hth. split; simpl; [by rewrite length_insert|].
  intros t' th' c [(<- & <- & _)|[_ Ht']]%list_lookup_insert_Some; [auto|]. by apply Hr.
Qed.

Lemma exec_in_role role n s a s' :
  in_role role n s → follows role a → exec a s = Some (Running s') → in_role role n s'.
Proof.
  intros Hin Ha. pose proof Hin as [_ Hr]. destruct a as [t c|t|t]; simpl in Ha |- *.
  - destruct (threads s !! t) as [[[] k r []]|]; try done. intros [= <-].
    apply in_role_update; [done|]. by intros ? [= <-].
  - destruct (threads s !! t) as [[[c|] k r []]|] eqn:Ht; try done.
    specialize (Hr t _ c Ht eq_refl).
    destruct (code c !! k) as [i|]; [|done].
    destruct (exec_instr t (threads s) i (q s) r) as [[[qu e]|f|]|]; try done.
    intros [= <-]. apply in_role_update; [done|].
    unfold advance. intros c' Hc. case_match; by simplify_eq/=.
  - destruct (threads s !! t) as [[c k r []]|] eqn:Ht; try done.
    case_match; [|done]. intros [= <-]. apply in_role_update; [done|].
    intros c'. by apply (Hr t _ c' Ht).
Qed.

Lemma reachable_of role n c :
  reachable (start cap n) (step_of role) c →
  ∃ s, c = Running s ∧ Inv cap s ∧ in_role role n s.
Proof.
  apply (reachable_invariant _ _ (λ c, ∃ s, c = Running s ∧ Inv cap s ∧ in_role role n s)).
  - intros c' ->. eexists. split; [done|]. split; [apply inv_init|].
    split; simpl; [apply length_replicate|].
    intros t th c'' Ht. by apply lookup_replicate in Ht as [-> _].
  - intros c1 c2 (s & -> & Hinv & Hin) (s' & a & [= <-] & Hrole & Ha).
    destruct (exec_inv _ _ _ Hinv Ha) as (s' & -> & Hinv' & _).
    exists s'. split; [done|]. split; [done|]. by eapply exec_in_role.
Qed.

(** Threads that keep calling, one of which only puts and one of which only
    takes, are never deadlocked. *)
Lemma roles_live role n p k s :
  robust = false → (p < n)%nat → (k < n)%nat →
  (∀ t, (t < n)%nat → ∃ c, role t c) →
  (∀ c, role p c → ∃ e, c = Put e) → (∀ c, role k c → c = Take) →
  Inv cap s → in_role role n s →
  ∃ a s', follows role a ∧ exec a s = Some (Running s').
Proof.
  intros Hrob Hp Hk Hall Hput Htake Hinv [Hlen Hrole].
  assert (∀ t, (t < n)%nat → ∃ th, threads s !! t = Some th ∧ alive th = true) as Hth.
  { intros t Ht. destruct (lookup_lt_is_Some_2 (threads s) t) as [th Hth]; [lia|].
    exists th. split; [done|]. destruct (alive th) eqn:Ha; [done|].
    pose proof (inv_robust _ _ Hinv t th Hth Ha). congruence. }
  destruct (decide (Exists (λ t, is_Some (exec (Step t) s)) (seq 0 n))) as [Hex|Hno].
  { apply Exists_exists in Hex as (t & _ & c' & Ha).
    destruct (exec_inv _ _ _ Hinv Ha) as (s' & -> & _). by exists (Step t), s'. }
  assert (∀ t c', exec (Step t) s ≠ Some c') as Hstuck.
  { intros t c' Ha. apply Hno, Exists_exists. exists t. split; [|by eexists].
    apply elem_of_seq. simpl in Ha. destruct (threads s !! t) eqn:E; [|done].
    apply lookup_lt_Some in E. lia. }
  assert (∀ t th, threads s !! t = Some th → alive th = true → in_call th = None →
    (t < n)%nat → ∃ a s', follows role a ∧ exec a s = Some (Running s')) as Hidle.
  { intros t [c0 k0 r0 a0] Ht Ha Hc Htn. simpl in Ha, Hc. subst.
    destruct (Hall t Htn) as [c Hrc]. exists (Start t c). eexists. split; [done|].
    simpl. by rewrite Ht. }
  destruct (Hth p Hp) as (thp & Htp & Hap), (Hth k Hk) as (thk & Htk & Hak).
  destruct (in_call thp) as [cp|] eqn:Hcp; [|by apply (Hidle p thp)].
  destruct (in_call thk) as [ck|] eqn:Hck; [|by apply (Hidle k thk)].
  assert (busy thp) as Hbp by (split; congruence).
  assert (busy thk) as Hbk by (split; congruence).
  destruct (Hput cp) as [e ->]; [by eapply Hrole|].
  rewrite (Htake ck) in Hck by (by eapply Hrole).
  pose proof (stuck_bound _ _ _ Hinv Hstuck Htp Hbp) as Hsp.
  pose proof (stuck_bound _ _ _ Hinv Hstuck Htk Hbk) as Hsk.
  unfold waits_on in Hsp, Hsk. rewrite Hcp in Hsp. rewrite Hck in Hsk.
  assert (deaths s = 0%nat) as Hd.
  { apply sum_list_with_zero. intros th [t Ht]%list_elem_of_lookup.
    unfold died_in_call. destruct (in_call th); [|done].
    destruct (Hth t) as (th' & Ht' & Ha'); [apply lookup_lt_Some in Ht; lia|].
    simplify_eq. by rewrite Ha'. }
  rewrite Hd in Hsp, Hsk.
  destruct Hsp as [[_ Hsp]|[[_ Hsp] _]]; [|done].
  destruct Hsk as [[[_ [e' Hsk]] _]|[_ Hsk]]; [done|]. lia.
Qed.

Lemma no_deaths s : Inv cap s → robust = false → deaths s = 0%nat.
Proof.
  intros Hinv Hr. apply sum_list_with_zero. intros th [t Ht]%list_elem_of_lookup.
  unfold died_in_call. destruct (in_call th); [|done]. destruct (alive th) eqn:Ha; [done|].
  pose proof (inv_robust _ _ Hinv t th Ht Ha). congruence.
Qed.

(** The same for the schedules of a fresh queue. *)

Lemma schedule_fifo n acts c :
  run acts (System (queue_init cap) (replicate n idle)) = Some c →
  ∃ s, c = Running s ∧
    fifo_run cap (events acts (System (queue_init cap) (replicate n idle))) [] =
      Some (contents (q s)).
Proof.
  intros Hrun. destruct (run_refines _ _ _ (inv_init n) Hrun) as (s & -> & _ & Hf). eauto.
Qed.

Lemma schedule_stuck n acts s t th :
  run acts (System (queue_init cap) (replicate n idle)) = Some (Running s) →
  (∀ t' c', exec (Step t') s ≠ Some c') → threads s !! t = Some th → busy th →
  (waits_on Space th ∧ cap - Z.of_nat (deaths s) ≤ Z.of_nat (length (contents (q s))) ≤ cap) ∨
  (waits_on Element th ∧ Z.of_nat (length (contents (q s))) ≤ Z.of_nat (deaths s)).
Proof.
  intros Hrun. destruct (run_refines _ _ _ (inv_init n) Hrun) as (s' & [= <-] & Hinv & _).
  by apply stuck_bound.
Qed.

Lemma schedule_stuck_alive n acts s t th :
  robust = false →
  run acts (System (queue_init cap) (replicate n idle)) = Some (Running s) →
  (∀ t' c', exec (Step t') s ≠ Some c') → threads s !! t = Some th → in_call th ≠ None →
  (waits_on Space th ∧ Z.of_nat (length (contents (q s))) = cap) ∨
  (waits_on Element th ∧ contents (q s) = []).
Proof.
  intros Hrob Hrun Hstuck Ht Hc.
  destruct (run_refines _ _ _ (inv_init n) Hrun) as (s' & [= <-] & Hinv & _).
  assert (busy th) as Hb.
  { split; [|done]. destruct (alive th) eqn:Ha; [done|].
    pose proof (inv_robust _ _ Hinv t th Ht Ha). congruence. }
  pose proof (no_deaths _ Hinv Hrob) as Hd.
  destruct (stuck_bound _ _ _ Hinv Hstuck Ht Hb) as [[Hw Hl]|[Hw Hl]]; rewrite Hd in Hl.
  - left. split; [done|lia].
  - right. split; [done|]. apply nil_length_inv. lia.
Qed.

Lemma reachable_live role n p k c :
  robust = false → (p < n)%nat → (k < n)%nat →
  (∀ t, (t < n)%nat → ∃ c, role t c) →
  (∀ c, role p c → ∃ e, c = Put e) → (∀ c, role k c → c = Take) →
  reachable (λ c, c = Running (System (queue_init cap) (replicate n idle))) (step_of role) c →
  ∃ s a s', c = Running s ∧ follows role a ∧ exec a s = Some (Running s').
Proof.
  intros Hrob Hp Hk Hall Hput Htake Hr.
  destruct (reachable_of _ _ _ Hr) as (s & -> & Hinv & Hin).
  destruct (roles_live role n p k s) as (a & s' & Ha & Hs'); try done. eauto 8.
Qed.
End invariant.
