(* ===== verification/PosixSem.v ===== *)
(** POSIX counting semaphores of <semaphore.h>, as the POSIX ring buffer and
    the shared-memory queue use them: one for the elements of a queue and one
    for its free slots.  The two programs differ in what they do when
    [sem_post] fails, which is the argument [overflow]. *)
From S2P Require Import Prelude BlockingQueue.
#[local] Open Scope Z_scope.

(** A [sem_t] is its value, or [None] before a successful [sem_init]. *)
Record sem_state := Sems { sem_element : option Z; sem_space : option Z }.

Definition SEM_VALUE_MAX : Z := INT_MAX.

(** [sem_init]: its value is an [unsigned int]; one above the maximum is
    refused with EINVAL. *)
Definition sem_init (value : Z) : option Z :=
  if u32 value <=? SEM_VALUE_MAX then Some (u32 value) else None.

Inductive sem_call := sem_wait (x : sem) | sem_post (x : sem).

Definition sem_get (x : sem) (s : sem_state) : option Z :=
  match x with Element => sem_element s | Space => sem_space s end.

Definition sem_set (x : sem) (v : Z) (s : sem_state) : sem_state :=
  match x with
  | Element => Sems (Some v) (sem_space s)
  | Space => Sems (sem_element s) (Some v)
  end.

(** [sem_wait] blocks at zero; [sem_post] at the maximum fails with
    EOVERFLOW. *)
Definition exec_sem (overflow : sem_state → res sem_state) (i : sem_call) (s : sem_state)
    : option (res sem_state) :=
  match i with
  | sem_wait x => match sem_get x s with
                  | None => Some (Fault UninitRead)
                  | Some v => if 0 <? v then Some (Ok (sem_set x (v - 1) s)) else None
                  end
  | sem_post x => match sem_get x s with
                  | None => Some (Fault UninitRead)
                  | Some v => Some (if v <? SEM_VALUE_MAX then Ok (sem_set x (v + 1) s)
                                    else overflow s)
                  end
  end.

Definition sem_value (x : sem) (s : sem_state) : Z := default (-1) (sem_get x s).

Lemma sem_value_set x y v s :
  sem_value y (sem_set x v s) = if decide (x = y) then v else sem_value y s.
Proof. by destruct x, y. Qed.

Section laws.
Context (overflow : sem_state → res sem_state).

Lemma exec_wait_zero x s : sem_value x s = 0 → exec_sem overflow (sem_wait x) s = None.
Proof.
  unfold sem_value. simpl. destruct (sem_get x s) as [v|]; simpl; [|done].
  intros ->. done.
Qed.

Lemma exec_wait_pos x s : 0 < sem_value x s →
  ∃ s', exec_sem overflow (sem_wait x) s = Some (Ok s') ∧
    ∀ y, sem_value y s' = sem_value y s - (if decide (x = y) then 1 else 0).
Proof.
  intros Hv. assert (sem_get x s = Some (sem_value x s)) as Hx.
  { unfold sem_value in *. destruct (sem_get x s); simpl in *; [done|lia]. }
  simpl. rewrite Hx, (proj2 (Z.ltb_lt _ _) Hv). eexists. split; [done|]. intros y.
  rewrite sem_value_set. case_decide; subst; lia.
Qed.

Lemma exec_post x s : 0 ≤ sem_value x s < SEM_VALUE_MAX →
  ∃ s', exec_sem overflow (sem_post x) s = Some (Ok s') ∧
    ∀ y, sem_value y s' = sem_value y s + (if decide (x = y) then 1 else 0).
Proof.
  intros Hv. assert (sem_get x s = Some (sem_value x s)) as Hx.
  { unfold sem_value in *. destruct (sem_get x s); simpl in *; [done|lia]. }
  simpl. rewrite Hx, (proj2 (Z.ltb_lt _ _)) by lia. eexists. split; [done|]. intros y.
  rewrite sem_value_set. case_decide; subst; lia.
Qed.
End laws.

Lemma sem_init_ok c : 0 ≤ c ≤ SEM_VALUE_MAX → sem_init c = Some c.
Proof.
  intros Hc. unfold sem_init, SEM_VALUE_MAX, INT_MAX in *.
  by rewrite u32_small, (proj2 (Z.leb_le _ _)) by lia.
Qed.
