(* ===== verification/RingBuffer.v ===== *)
(** The two ring buffers: [ring_buffer_posix.c] (module [Posix]: POSIX
    semaphores) and [ring_buffer_sysv.c] (module [SysV]: a System V semaphore
    set).  Each gives its semaphore operations and the instructions of its
    [blocking_queue_put] and [blocking_queue_take] as an instance of the
    interface of BlockingQueue, discharges the interface's laws, and inherits
    the theorems: every schedule of any number of threads is a run of a
    bounded first-in first-out queue without undefined behaviour, and the
    threads deadlock only on a full or an empty queue.
    [malloc] is taken to succeed, no call is interrupted by a signal (the
    programs install no handler), and the [printf] in the critical sections,
    which only reads, is left out. *)
From S2P Require Import Prelude BlockingQueue PosixSem.
#[local] Open Scope Z_scope.

Module Posix.

Definition blocking_queue_put : list (instr sem_call) :=
  [SemOp (sem_wait Space); Lock MTail; StoreTail; BumpTail; Unlock MTail;
   SemOp (sem_post Element)].

Definition blocking_queue_take : list (instr sem_call) :=
  [SemOp (sem_wait Element); Lock MHead; LoadHead; BumpHead; Unlock MHead;
   SemOp (sem_post Space)].

(** The result of [sem_post] is not looked at. *)
#[global] Instance impl : QueueImpl sem_state sem_call := {
  sem_exec := exec_sem Ok;
  sem_val := sem_value;
  sem_start c := Sems (sem_init 0) (sem_init c);
  sem_max := SEM_VALUE_MAX;
  fresh_cell := None;
  put_code := blocking_queue_put;
  take_code := blocking_queue_take;
  robust := false
}.

Definition blocking_queue_init (capacity : Z) : queue sem_state :=
  Queue (replicate (Z.to_nat capacity) None) capacity 0 0 None None
        (Sems (sem_init 0) (sem_init capacity)) [] [].

Definition sem_destroy (x : sem) (s : system sem_state) : res unit :=
  if existsb (blocked_on (λ i, match i with SemOp (sem_wait y) => bool_decide (x = y) | _ => false end) s)
       (threads s)
  then Fault InUse else Ok tt.

(** The buffer is then freed: the queue is gone. *)
Definition blocking_queue_destroy (s : system sem_state) : res unit :=
  all_ok [sem_destroy Space s; sem_destroy Element s; mutex_destroy MTail s; mutex_destroy MHead s].

(** [n] threads on a queue of capacity [capacity]. *)
Definition threads_start (capacity : Z) (n : nat) : system sem_state :=
  System (blocking_queue_init capacity) (replicate n idle).

(** One call of thread [t], run to its end. *)
Definition call_alone (t : nat) (c : call) : list action :=
  Start t c :: replicate (length (code (T:=sem_state) c)) (Step t).

(** The basic test of [main]: twice, five puts and five takes. *)
Definition basic_test : list action :=
  let puts := flat_map (λ i, call_alone 0 (Put i)) [0; 1; 2; 3; 4] in
  let takes := flat_map (λ _, call_alone 0 Take) [0; 1; 2; 3; 4] in
  puts ++ takes ++ puts ++ takes.

(** An iteration of [producer], whose counter is an [int], and of
    [consumer]. *)
Definition producer (i : Z) : res (call * Z) :=
  if i =? INT_MAX then Fault SignedOverflow else Ok (Put (Z.rem i 100), i + 1).
Definition consumer : call := Take.

(** The calls of the concurrent test of [main]: of its [n + m] threads the
    first [n] produce and the others consume. *)
Definition concurrent_test (n m : nat) (t : nat) (c : call) : Prop :=
  if (t <? n)%nat then ∃ i i', 0 ≤ i ∧ producer i = Ok (c, i')
  else (t < n + m)%nat ∧ c = consumer.

End Posix.

Module SysV.

Definition SEMVMX : Z := 32767.

(** [struct sembuf]; the flags are 0 in every call. *)
Record sembuf := Sembuf { sem_num : nat; sem_op : Z }.

(** [semctl(id, num, SETVAL, v)] on the values of a set: [v] is read as an
    [int]; one out of range is refused with ERANGE, which the caller does not
    look at. *)
Definition semctl_setval (num : nat) (v : Z) (vals : list Z) : list Z :=
  if (0 <=? i32 v) && (i32 v <=? SEMVMX) then <[num := i32 v]> vals else vals.

(** [semop] with one operation: it blocks while the value would become
    negative (or is not zero, for operation 0); a number out of the set or a
    value above the maximum is an error, which the caller does not look at. *)
Definition semop (i : sembuf) (vals : list Z) : option (res (list Z)) :=
  match vals !! sem_num i with
  | None => Some (Ok vals)
  | Some v =>
      if sem_op i <? 0 then
        if 0 <=? v + sem_op i then Some (Ok (<[sem_num i := v + sem_op i]> vals)) else None
      else if sem_op i =? 0 then if v =? 0 then Some (Ok vals) else None
      else if v + sem_op i <=? SEMVMX then Some (Ok (<[sem_num i := v + sem_op i]> vals))
      else Some (Ok vals)
  end.

Definition blocking_queue_put : list (instr sembuf) :=
  [SemOp (Sembuf 1 (-1)); Lock MTail; StoreTail; BumpTail; Unlock MTail;
   SemOp (Sembuf 0 1)].

Definition blocking_queue_take : list (instr sembuf) :=
  [SemOp (Sembuf 0 (-1)); Lock MHead; LoadHead; BumpHead; Unlock MHead;
   SemOp (Sembuf 1 1)].

(** The number of a semaphore in the set. *)
Definition num_of (x : sem) : nat := match x with Element => 0 | Space => 1 end.

(** A new set of two semaphores is zero. *)
Definition sem_set_init (capacity : Z) : list Z :=
  semctl_setval 1 capacity (semctl_setval 0 0 [0; 0]).

#[global] Instance impl : QueueImpl (list Z) sembuf := {
  sem_exec := semop;
  sem_val x vals := default (-1) (vals !! num_of x);
  sem_start := sem_set_init;
  sem_max := SEMVMX;
  fresh_cell := None;
  put_code := blocking_queue_put;
  take_code := blocking_queue_take;
  robust := false
}.

Definition blocking_queue_init (capacity : Z) : queue (list Z) :=
  Queue (replicate (Z.to_nat capacity) None) capacity 0 0 None None
        (sem_set_init capacity) [] [].

(** The removal of the semaphores ends the waits on them; the buffer is
    freed at the end. *)
Definition blocking_queue_destroy (s : system (list Z)) : res unit :=
  all_ok [mutex_destroy MTail s; mutex_destroy MHead s].

Definition threads_start (capacity : Z) (n : nat) : system (list Z) :=
  System (blocking_queue_init capacity) (replicate n idle).

Definition call_alone (t : nat) (c : call) : list action :=
  Start t c :: replicate (length (code (T:=list Z) c)) (Step t).

(** The basic test of [main]. *)
Definition basic_test : list action :=
  let puts := flat_map (λ i, call_alone 0 (Put i)) [0; 1; 2; 3; 4] in
  let takes := flat_map (λ _, call_alone 0 Take) [0; 1; 2; 3; 4] in
  puts ++ takes ++ puts ++ takes.

Definition producer (i : Z) : res (call * Z) :=
  if i =? INT_MAX then Fault SignedOverflow else Ok (Put (Z.rem i 100), i + 1).
Definition consumer : call := Take.

Definition concurrent_test (n m : nat) (t : nat) (c : call) : Prop :=
  if (t <? n)%nat then ∃ i i', 0 ≤ i ∧ producer i = Ok (c, i')
  else (t < n + m)%nat ∧ c = consumer.

End SysV.

(** ** POSIX semaphores *)

#[export] Instance posix_laws : QueueLaws sem_state sem_call.
Proof.
  refine {| wait := sem_wait; post := sem_post |}; try done.
  - apply exec_wait_zero.
  - apply exec_wait_pos.
  - apply exec_post.
  - intros c Hc. unfold sem_start. simpl. by rewrite (sem_init_ok c) by done.
Defined.

Lemma posix_start cap n :
  Posix.threads_start cap n = System (queue_init cap) (replicate n idle).
Proof. done. Qed.

(** ** System V semaphores *)

Lemma sysv_insert x y v (vals : list Z) w :
  vals !! SysV.num_of x = Some w →
  default (-1) (<[SysV.num_of x := v]> vals !! SysV.num_of y) =
  if decide (x = y) then v else default (-1) (vals !! SysV.num_of y).
Proof.
  intros Hx. apply lookup_lt_Some in Hx. case_decide as E.
  - subst. by rewrite list_lookup_insert_eq.
  - rewrite list_lookup_insert_ne; [done|]. by destruct x, y.
Qed.

#[export] Instance sysv_laws : QueueLaws (list Z) SysV.sembuf.
Proof.
  refine {| wait := λ x, SysV.Sembuf (SysV.num_of x) (-1);
            post := λ x, SysV.Sembuf (SysV.num_of x) 1 |}; try done;
    cbn [sem_exec sem_val sem_start sem_max SysV.impl]; unfold SysV.semop; cbn -[SysV.num_of].
  - intros x vals Hv. destruct (vals !! SysV.num_of x) as [v|]; simpl in *; [|done].
    by rewrite (proj2 (Z.leb_gt _ _)) by lia.
  - intros x vals Hv. destruct (vals !! SysV.num_of x) as [v|] eqn:E; simpl in *; [|lia].
    rewrite (proj2 (Z.leb_le _ _)) by lia. eexists. split; [done|]. intros y.
    rewrite (sysv_insert _ _ _ _ _ E). case_decide; [subst; rewrite E; simpl|]; lia.
  - intros x vals Hv. destruct (vals !! SysV.num_of x) as [v|] eqn:E; simpl in *; [|lia].
    rewrite (proj2 (Z.leb_le _ _)) by lia. eexists. split; [done|]. intros y.
    rewrite (sysv_insert _ _ _ _ _ E). case_decide; [subst; rewrite E; simpl|]; lia.
  - intros c Hc. unfold SysV.sem_set_init, SysV.semctl_setval, SysV.SEMVMX in *.
    rewrite (i32_small c) by (unfold INT_MIN, INT_MAX; lia).
    rewrite !(proj2 (Z.leb_le _ _)) by lia. done.
Defined.

Lemma sysv_start cap n :
  SysV.threads_start cap n = System (queue_init cap) (replicate n idle).
Proof. done. Qed.

(** ** The properties *)

(** C14: [ring_buffer_posix.c]: whatever the scheduler does with any number of
    threads calling [blocking_queue_put] and [blocking_queue_take], no access
    is out of bounds or to an uninitialised cell, no mutex is unlocked by a
    thread that does not own it, and the values go through the buffer as
    through a first-in first-out queue that never holds more than [capacity]:
    each [take] gets the oldest value put and not yet taken. *)
Theorem posix_fifo cap n acts c :
  0 < cap ≤ SEM_VALUE_MAX →
  run acts (Posix.threads_start cap n) = Some c →
  ∃ s, c = Running s ∧
    fifo_run cap (events acts (Posix.threads_start cap n)) [] = Some (contents (q s)).
Proof.
  intros Hcap. rewrite posix_start. apply (schedule_fifo (H0:=posix_laws) cap); simpl; [lia..|].
  unfold SEM_VALUE_MAX, INT_MAX in *. lia.
Qed.

(** Two producers and a consumer interleaved: the second [put] is inside its
    critical section while the first value is taken. *)
Definition posix_schedule : list action :=
  [Start 0 (Put 7); Start 1 (Put 8); Start 2 Take] ++ replicate 6 (Step 0) ++
  replicate 3 (Step 1) ++ replicate 6 (Step 2) ++ replicate 3 (Step 1).

Lemma posix_fifo_witness :
  ∃ c, run posix_schedule (Posix.threads_start 2 3) = Some c ∧
  ∃ s, c = Running s ∧
    fifo_run 2 (events posix_schedule (Posix.threads_start 2 3)) [] = Some (contents (q s)).
Proof.
  eexists. split; [vm_compute; reflexivity|].
  apply posix_fifo; [by vm_compute|]. vm_compute. reflexivity.
Defined.

(** C36: [ring_buffer_posix.c]: the threads deadlock only as the queue means
    them to: when none can take a step, a thread inside a call is either a
    [put] that waits on a full queue or a [take] that waits on an empty one;
    no thread ever waits forever for a mutex. *)
Theorem posix_no_deadlock cap n acts s t th :
  0 < cap ≤ SEM_VALUE_MAX →
  run acts (Posix.threads_start cap n) = Some (Running s) →
  (∀ t' c', exec (Step t') s ≠ Some c') →
  threads s !! t = Some th → in_call th ≠ None →
  (waits_on Space th ∧ Z.of_nat (length (contents (q s))) = cap) ∨
  (waits_on Element th ∧ contents (q s) = []).
Proof.
  intros Hcap. rewrite posix_start. apply (schedule_stuck_alive (H0:=posix_laws) cap); simpl; try done; [lia..|].
  unfold SEM_VALUE_MAX, INT_MAX in *. lia.
Qed.

(** A take on an empty queue, alone. *)
Lemma posix_no_deadlock_witness :
  ∃ s, run [Start 0 Take] (Posix.threads_start 1 1) = Some (Running s) ∧
  ((waits_on Space (Thread (Some Take) 0 0 true) ∧ Z.of_nat (length (contents (q s))) = 1) ∨
   (waits_on Element (Thread (Some Take) 0 0 true) ∧ contents (q s) = [])).
Proof.
  eexists. split; [vm_compute; reflexivity|].
  apply (posix_no_deadlock 1 1 [Start 0%nat Take] _ 0 (Thread (Some Take) 0 0 true));
    [done|reflexivity| |reflexivity|done].
  intros [|t'] c'; [by vm_compute|]. by destruct t'.
Defined.

(** [main] of [ring_buffer_posix.c]: its basic test returns, its takes
    give back what its puts stored, in order, and the queue can then be
    destroyed. *)
Theorem posix_basic_test :
  ∃ s, run Posix.basic_test (Posix.threads_start 8 1) = Some (Running s) ∧
    take_log (q s) = [0; 1; 2; 3; 4; 0; 1; 2; 3; 4] ∧
    contents (q s) = [] ∧ threads s = [Thread None 0 4 true] ∧
    Posix.blocking_queue_destroy s = Ok tt.
Proof. eexists. split; [vm_compute; reflexivity|]. by vm_compute. Qed.

(** [main] of [ring_buffer_posix.c]: its concurrent test, with any
    positive numbers of producers and of consumers, never gets stuck: in every
    state it can reach, some thread can run its next instruction or start its
    next call. *)
Theorem posix_concurrent_test_live cap n m c :
  0 < cap ≤ SEM_VALUE_MAX → (0 < n)%nat → (0 < m)%nat →
  reachable (λ c, c = Running (Posix.threads_start cap (n + m)))
            (step_of (Posix.concurrent_test n m)) c →
  ∃ s a s', c = Running s ∧ follows (Posix.concurrent_test n m) a ∧
    exec a s = Some (Running s').
Proof.
  intros Hcap Hn Hm. rewrite posix_start.
  apply (reachable_live (H0:=posix_laws) cap) with (p:=0%nat) (k:=n); simpl; try done; try lia.
  { unfold SEM_VALUE_MAX, INT_MAX in *. lia. }
  - intros t Ht. unfold Posix.concurrent_test. destruct (Nat.ltb_spec t n).
    + eexists (Put 0), 0, 1. by vm_compute.
    + by exists Posix.consumer.
  - intros c'. unfold Posix.concurrent_test. rewrite (proj2 (Nat.ltb_lt _ _)) by lia.
    intros (i & i' & _ & Hp). unfold Posix.producer in Hp. case_match; simplify_eq. eauto.
  - intros c'. unfold Posix.concurrent_test. rewrite (proj2 (Nat.ltb_ge _ _)) by lia.
    by intros [_ ->].
Qed.

Lemma posix_concurrent_test_live_witness :
  ∃ s a s', Running (Posix.threads_start 4 4) = Running s ∧
    follows (Posix.concurrent_test 2 2) a ∧ exec a s = Some (Running s').
Proof.
  apply (posix_concurrent_test_live 4 2 2); [done|lia|lia|].
  by apply reachable_init.
Defined.

(** C17: [ring_buffer_sysv.c]: as for the POSIX program: every schedule is a
    run of the bounded first-in first-out queue, without undefined behaviour
    and without a semaphore operation that fails unnoticed. *)
Theorem sysv_fifo cap n acts c :
  0 < cap ≤ SysV.SEMVMX →
  run acts (SysV.threads_start cap n) = Some c →
  ∃ s, c = Running s ∧
    fifo_run cap (events acts (SysV.threads_start cap n)) [] = Some (contents (q s)).
Proof.
  intros Hcap. rewrite sysv_start. apply (schedule_fifo (H0:=sysv_laws) cap); simpl; [lia..|].
  unfold SysV.SEMVMX in *. lia.
Qed.

(** A full queue of one slot: the second put waits for the take. *)
Definition sysv_schedule : list action :=
  SysV.call_alone 0 (Put 7) ++ [Start 0 (Put 8); Start 1 Take] ++
  replicate 6 (Step 1) ++ replicate 6 (Step 0).

Lemma sysv_fifo_witness :
  ∃ c, run sysv_schedule (SysV.threads_start 1 2) = Some c ∧
  ∃ s, c = Running s ∧
    fifo_run 1 (events sysv_schedule (SysV.threads_start 1 2)) [] = Some (contents (q s)).
Proof.
  eexists. split; [vm_compute; reflexivity|].
  apply sysv_fifo; [by vm_compute|]. vm_compute. reflexivity.
Defined.

(** [ring_buffer_sysv.c]: when no thread can take a step, a thread inside
    a call waits to put on a full queue or to take from an empty one. *)
Theorem sysv_no_deadlock cap n acts s t th :
  0 < cap ≤ SysV.SEMVMX →
  run acts (SysV.threads_start cap n) = Some (Running s) →
  (∀ t' c', exec (Step t') s ≠ Some c') →
  threads s !! t = Some th → in_call th ≠ None →
  (waits_on Space th ∧ Z.of_nat (length (contents (q s))) = cap) ∨
  (waits_on Element th ∧ contents (q s) = []).
Proof.
  intros Hcap. rewrite sysv_start.
  apply (schedule_stuck_alive (H0:=sysv_laws) cap); simpl; try done; [lia..|].
  unfold SysV.SEMVMX in *. lia.
Qed.

(** A second put on a full queue of one slot, alone. *)
Lemma sysv_no_deadlock_witness :
  ∃ s, run (SysV.call_alone 0 (Put 7) ++ [Start 0 (Put 8)]) (SysV.threads_start 1 1) =
    Some (Running s) ∧
  ((waits_on Space (Thread (Some (Put 8)) 0 8 true) ∧
    Z.of_nat (length (contents (q s))) = 1) ∨
   (waits_on Element (Thread (Some (Put 8)) 0 8 true) ∧ contents (q s) = [])).
Proof.
  eexists. split; [vm_compute; reflexivity|].
  apply (sysv_no_deadlock 1 1 (SysV.call_alone 0 (Put 7) ++ [Start 0%nat (Put 8)]) _ 0
           (Thread (Some (Put 8)) 0 8 true));
    [done|vm_compute; reflexivity| |reflexivity|done].
  intros [|t'] c'; [by vm_compute|]. by destruct t'.
Defined.

(** [main] of [ring_buffer_sysv.c]: its basic test returns, its takes
    give back what its puts stored, in order, and the queue can then be
    destroyed. *)
Theorem sysv_basic_test :
  ∃ s, run SysV.basic_test (SysV.threads_start 8 1) = Some (Running s) ∧
    take_log (q s) = [0; 1; 2; 3; 4; 0; 1; 2; 3; 4] ∧
    contents (q s) = [] ∧ threads s = [Thread None 0 4 true] ∧
    SysV.blocking_queue_destroy s = Ok tt.
Proof. eexists. split; [vm_compute; reflexivity|]. by vm_compute. Qed.

(** [main] of [ring_buffer_sysv.c]: its concurrent test, with any
    positive numbers of producers and of consumers, never gets stuck. *)
Theorem sysv_concurrent_test_live cap n m c :
  0 < cap ≤ SysV.SEMVMX → (0 < n)%nat → (0 < m)%nat →
  reachable (λ c, c = Running (SysV.threads_start cap (n + m)))
            (step_of (SysV.concurrent_test n m)) c →
  ∃ s a s', c = Running s ∧ follows (SysV.concurrent_test n m) a ∧
    exec a s = Some (Running s').
Proof.
  intros Hcap Hn Hm. rewrite sysv_start.
  apply (reachable_live (H0:=sysv_laws) cap) with (p:=0%nat) (k:=n); simpl; try done; try lia.
  { unfold SysV.SEMVMX in *. lia. }
  - intros t Ht. unfold SysV.concurrent_test. destruct (Nat.ltb_spec t n).
    + eexists (Put 0), 0, 1. by vm_compute.
    + by exists SysV.consumer.
  - intros c'. unfold SysV.concurrent_test. rewrite (proj2 (Nat.ltb_lt _ _)) by lia.
    intros (i & i' & _ & Hp). unfold SysV.producer in Hp. case_match; simplify_eq. eauto.
  - intros c'. unfold SysV.concurrent_test. rewrite (proj2 (Nat.ltb_ge _ _)) by lia.
    by intros [_ ->].
Qed.

Lemma sysv_concurrent_test_live_witness :
  ∃ s a s', Running (SysV.threads_start 4 4) = Running s ∧
    follows (SysV.concurrent_test 2 2) a ∧ exec a s = Some (Running s').
Proof.
  apply (sysv_concurrent_test_live 4 2 2); [done|lia|lia|].
  by apply reachable_init.
Defined.
