(* ===== verification/ShmQueue.v ===== *)
(** The shared-memory queue ([shm_blocking_queue.c]) and the loops of the two
    programs that stream integers through it ([client.c], [server.c]).  The queue is
    the interface of BlockingQueue with robust mutexes: its threads are
    processes, any of which may die at any instruction.  The operations on
    the shared-memory object itself (create, connect, destroy) are computations
    on the names and objects of the system; a call of the operating system
    that fails makes the program print the message of [exit_err_on] and exit. *)
From S2P Require Import Prelude BlockingQueue PosixSem.
#[local] Open Scope Z_scope.

(** ** Semaphores, put and take *)

Definition shm_blocking_queue_put : list (instr sem_call) :=
  [SemOp (sem_wait Space); Lock MTail; StoreTail; BumpTail; Unlock MTail;
   SemOp (sem_post Element)].

Definition shm_blocking_queue_take : list (instr sem_call) :=
  [SemOp (sem_wait Element); Lock MHead; LoadHead; BumpHead; Unlock MHead;
   SemOp (sem_post Space)].

(** A process whose [sem_post] fails exits.  [ftruncate] zeroes the buffer. *)
#[export] Instance shm_impl : QueueImpl sem_state sem_call := {
  sem_exec := exec_sem (λ _, Fault (Exited 1));
  sem_val := sem_value;
  sem_start c := Sems (sem_init 0) (sem_init c);
  sem_max := SEM_VALUE_MAX;
  fresh_cell := Some 0;
  put_code := shm_blocking_queue_put;
  take_code := shm_blocking_queue_take;
  robust := true
}.

(** ** The shared-memory objects *)

Record shm := Shm {
  names : gmap string positive;
  objects : gmap positive (queue sem_state);
  next_object : positive
}.

Section objects.
(** [sizeof(shm_blocking_queue)], and whether the call of the operating
    system that is guarded by a message fails for a reason of its own. *)
Context (sizeof_queue : Z) (fails : string → bool).
#[local] Abbreviation M := (comp shm).

Definition exit_err_on (expression : bool) (message : string) : M unit :=
  if expression || fails message then fail (Exited 1) else mret tt.

(** The cells of a mapping of [len] bytes after the structure. *)
Definition cells_of (len : Z) : nat := Z.to_nat ((len - sizeof_queue) / 8).

Definition object_at (shm_fname : string) : M positive := λ s,
  match names s !! shm_fname with
  | Some id => Ok (id, s)
  | None => Fault (Exited 1)
  end.

Definition shm_blocking_queue_init (shm_fname : string) (capacity : Z) : M unit :=
  s ← get;
  exit_err_on (bool_decide (is_Some (names s !! shm_fname))) "init 0";;
  let len := u64 (sizeof_queue + u64 (8 * capacity)) in
  exit_err_on false "init 1";;
  exit_err_on false "init 2";;
  exit_err_on false "init 3";;
  exit_err_on false "init 4";;
  exit_err_on false "init 5";;
  exit_err_on false "init 6";;
  exit_err_on false "init 7";;
  exit_err_on false "init 8";;
  exit_err_on (bool_decide (sem_init 0 = None)) "init 9";;
  exit_err_on (bool_decide (sem_init capacity = None)) "init 10";;
  exit_err_on false "init 11";;
  put (Shm (<[shm_fname := next_object s]> (names s))
           (<[next_object s :=
                Queue (replicate (cells_of len) (Some 0)) capacity 0 0 None None
                      (Sems (sem_init 0) (sem_init capacity)) [] []]> (objects s))
           (Pos.succ (next_object s))).

(** A mutex that is locked, by a process alive or dead, is not destroyed. *)
Definition locked (m : mutex) (id : positive) (s : shm) : bool :=
  match objects s !! id with
  | Some qu => bool_decide (is_Some (owner m qu))
  | None => false
  end.

(** The semaphores and mutexes of the object are destroyed, and with them
    the queue, and its name is removed.  ([sem_destroy] does not report a
    process that waits.) *)
Definition shm_blocking_queue_destroy (shm_fname : string) : M unit :=
  exit_err_on false "destroy 0";;
  id ← object_at shm_fname;
  s ← get;
  exit_err_on false "destroy 1";;
  exit_err_on false "destroy 2";;
  exit_err_on false "destroy 3";;
  exit_err_on false "destroy 4";;
  exit_err_on false "destroy 5";;
  exit_err_on (locked MTail id s) "destroy 6";;
  exit_err_on (locked MHead id s) "destroy 7";;
  exit_err_on false "destroy 8";;
  exit_err_on false "destroy 9";;
  put (Shm (delete shm_fname (names s)) (delete id (objects s)) (next_object s)).

(** Returns the object, as [*sbq]. *)
Definition shm_blocking_queue_connect (shm_fname : string) : M positive :=
  exit_err_on false "connect 0";;
  id ← object_at shm_fname;
  exit_err_on false "connect 1";;
  exit_err_on false "connect 2";;
  exit_err_on false "connect 3";;
  mret id.

Definition shm_blocking_queue_disconnect (sbq : positive) : M unit :=
  exit_err_on false "disconnect 0".
End objects.

(** ** The stream of integers *)

(** The server's loop: the values of [rand] it puts, cast to pointers, and
    its checksum. *)
Fixpoint server_loop (rands : list Z) (checksum : Z) : list Z * Z :=
  match rands with
  | [] => ([], checksum)
  | n :: rands => let '(sent, c) := server_loop rands (Z.lxor checksum n) in
                  (u64 n :: sent, c)
  end.

(** The client's loop: the checksum of what it takes, cast to [int]. *)
Fixpoint client_loop (taken : list Z) (checksum : Z) : Z :=
  match taken with
  | [] => checksum
  | e :: taken => client_loop taken (Z.lxor checksum (i32 e))
  end.

(** What a schedule puts, and what it takes. *)
Definition enqs (evs : list event) : list Z :=
  omap (λ ev, match ev with Enq e => Some e | Deq _ => None end) evs.
Definition deqs (evs : list event) : list Z :=
  omap (λ ev, match ev with Deq e => Some e | Enq _ => None end) evs.

Definition processes_start (capacity : Z) (n : nat) : system sem_state :=
  System (queue_init capacity) (replicate n idle).

(** ** The laws of the interface *)

#[export] Instance shm_laws : QueueLaws sem_state sem_call.
Proof.
  refine {| wait := sem_wait; post := sem_post |}; try done.
  - apply exec_wait_zero.
  - apply exec_wait_pos.
  - apply exec_post.
  - intros c Hc. unfold sem_start. simpl. by rewrite (sem_init_ok c) by done.
Defined.

(** ** Lemmas *)

(** A run of the abstract queue: what was in it and was put is what was
    taken and is in it. *)
Lemma fifo_run_order cap evs l l' :
  fifo_run cap evs l = Some l' → l ++ enqs evs = deqs evs ++ l'.
Proof.
  revert l. induction evs as [|[e|x] evs IH]; intros l Hr; simpl in Hr |- *.
  - injection Hr as <-. by rewrite app_nil_r.
  - destruct (_ <? _); [|done]. apply IH in Hr. by rewrite <-app_assoc in Hr.
  - destruct l as [|y l]; [done|]. destruct (Z.eqb_spec x y); [|done]. subst.
    apply IH in Hr. simpl. by rewrite Hr.
Qed.

Lemma server_sent rands c : (server_loop rands c).1 = map u64 rands.
Proof.
  revert c. induction rands as [|n rands IH]; intros c; simpl; [done|].
  specialize (IH (Z.lxor c n)). destruct (server_loop _ _). simpl in *. by rewrite IH.
Qed.

(** The cast of an [int] to a pointer and back. *)
Lemma i32_u64 n : INT_MIN ≤ n ≤ INT_MAX → i32 (u64 n) = n.
Proof. intros Hn. unfold i32, u64, INT_MIN, INT_MAX in *. dlia. Qed.

Lemma checksums_agree rands c :
  (∀ n, n ∈ rands → INT_MIN ≤ n ≤ INT_MAX) →
  client_loop (map u64 rands) c = (server_loop rands c).2.
Proof.
  revert c. induction rands as [|n rands IH]; intros c Hr; simpl; [done|].
  rewrite i32_u64 by (apply Hr; left).
  specialize (IH (Z.lxor c n)). destruct (server_loop rands (Z.lxor c n)). simpl in *.
  apply IH. intros m Hm. apply Hr. by right.
Qed.

Lemma wp_exit_err_on fails expression message (s : shm) (Q : unit → shm → Prop) :
  expression = false → fails message = false → Q tt s →
  wp (exit_err_on fails expression message) s Q.
Proof. intros -> Hf HQ. unfold exit_err_on. rewrite Hf. by apply wp_ret. Qed.

Lemma wp_object_at fname id s Q :
  names s !! fname = Some id → Q id s → wp (object_at fname) s Q.
Proof. intros Hn HQ. unfold wp, object_at. by rewrite Hn. Qed.

Lemma cells_of_length sz c :
  0 ≤ sz → 0 ≤ c → sz + 8 * c < 2 ^ 64 →
  cells_of sz (u64 (sz + u64 (8 * c))) = Z.to_nat c.
Proof.
  intros Hsz Hc Hb. unfold cells_of. rewrite !u64_small by (rewrite ?u64_small; lia).
  f_equal. replace (sz + 8 * c - sz) with (c * 8) by lia. by apply Z.div_mul.
Qed.

(** ** The properties *)

(** A locked mutex, which a process that died may have left, makes
    [shm_blocking_queue_destroy] exit. *)
Lemma locked_destroy_exits fname id m s :
  names s !! fname = Some id → locked m id s = true →
  shm_blocking_queue_destroy (λ _, false) fname s = Fault (Exited 1).
Proof.
  intros Hn Hl. unfold shm_blocking_queue_destroy, exit_err_on, object_at, mbind, comp_bind, get. simpl.
  rewrite Hn. simpl. destruct m; [|by rewrite Hl].
  destruct (locked MTail id s); [done|]. simpl. by rewrite Hl.
Qed.

(** C15: [shm_blocking_queue_put] and [_take]: whatever the scheduler does,
    and whichever processes die at whatever instruction, nothing is accessed
    out of bounds, no process exits on an error, and the values go through the
    shared buffer first in, first out, with at most [capacity] in it.  A
    process that dies inside a [put] has put its value or not at all. *)
Theorem shm_fifo_despite_deaths cap n acts c :
  0 < cap ≤ SEM_VALUE_MAX →
  run acts (processes_start cap n) = Some c →
  ∃ s, c = Running s ∧
    fifo_run cap (events acts (processes_start cap n)) [] = Some (contents (q s)).
Proof.
  intros Hcap. apply (schedule_fifo (H0:=shm_laws) cap); simpl; [lia..|].
  unfold SEM_VALUE_MAX, INT_MAX in *. lia.
Qed.

(** A process dies holding [mutex_tail], after its store and before it
    advances [tail]; the next put recovers the mutex and reuses the slot. *)
Definition death_schedule : list action :=
  [Start 0 (Put 7); Step 0; Step 0; Step 0; Die 0; Start 1 (Put 8)] ++
  replicate 6 (Step 1) ++ [Start 2 Take] ++ replicate 6 (Step 2).

Lemma shm_fifo_despite_deaths_witness :
  ∃ c, run death_schedule (processes_start 2 3) = Some c ∧
  ∃ s, c = Running s ∧
    fifo_run 2 (events death_schedule (processes_start 2 3)) [] = Some (contents (q s)).
Proof.
  eexists. split; [vm_compute; reflexivity|].
  apply shm_fifo_despite_deaths; [by vm_compute|]. vm_compute. reflexivity.
Defined.

(** C16: a death costs the shared queue at most one slot and never a mutex:
    when no process can take a step, each one alive in a call waits on a
    semaphore; a [put] waits only if the queue is full up to one slot per
    process that died in a call, and a [take] only if it holds no more values
    than that. *)
Theorem shm_deaths_cost_one_slot cap n acts s t th :
  0 < cap ≤ SEM_VALUE_MAX →
  run acts (processes_start cap n) = Some (Running s) →
  (∀ t' c', exec (Step t') s ≠ Some c') → threads s !! t = Some th → busy th →
  (waits_on Space th ∧ cap - Z.of_nat (deaths s) ≤ Z.of_nat (length (contents (q s))) ≤ cap) ∨
  (waits_on Element th ∧ Z.of_nat (length (contents (q s))) ≤ Z.of_nat (deaths s)).
Proof.
  intros Hcap. apply (schedule_stuck (H0:=shm_laws) cap); simpl; [lia..|].
  unfold SEM_VALUE_MAX, INT_MAX in *. lia.
Qed.

(** The death has taken the only slot: the next put waits on an empty queue. *)
Lemma shm_deaths_cost_one_slot_witness :
  ∃ s, run [Start 0 (Put 7); Step 0; Step 0; Die 0; Start 1 (Put 8)] (processes_start 1 2) =
    Some (Running s) ∧
  ((waits_on Space (Thread (Some (Put 8)) 0 8 true) ∧
    1 - Z.of_nat (deaths s) ≤ Z.of_nat (length (contents (q s))) ≤ 1) ∨
   (waits_on Element (Thread (Some (Put 8)) 0 8 true) ∧
    Z.of_nat (length (contents (q s))) ≤ Z.of_nat (deaths s))).
Proof.
  eexists. split; [vm_compute; reflexivity|].
  apply (shm_deaths_cost_one_slot 1 2
    [Start 0%nat (Put 7); Step 0%nat; Step 0%nat; Die 0%nat; Start 1%nat (Put 8)] _ 1
    (Thread (Some (Put 8)) 0 8 true));
    [done|vm_compute; reflexivity| |reflexivity|by split].
  intros [|[|t']] c'; [by vm_compute..|]. by destruct t'.
Defined.

(** The life of a shared queue: [shm_blocking_queue_init] under a new name
    makes an object that [shm_blocking_queue_connect] finds, and that is the
    empty queue of that capacity; initialising the name again exits; after
    [shm_blocking_queue_destroy] connecting exits. *)
Theorem shm_lifecycle sz fname cap s :
  let fails := λ _, false in
  0 ≤ sz → 0 ≤ cap ≤ SEM_VALUE_MAX → sz + 8 * cap < 2 ^ 64 → names s !! fname = None →
  wp (shm_blocking_queue_init sz fails fname cap;;
      id ← shm_blocking_queue_connect fails fname;
      s1 ← get;
      shm_blocking_queue_disconnect fails id;;
      shm_blocking_queue_destroy fails fname;;
      mret (id, s1)) s
    (λ '(id, s1) s2,
      objects s1 !! id = Some (queue_init cap) ∧
      shm_blocking_queue_init sz fails fname cap s1 = Fault (Exited 1) ∧
      shm_blocking_queue_connect fails fname s2 = Fault (Exited 1)).
Proof.
  intros fails Hsz Hcap Hb Hn.
  assert (sem_init cap = Some cap ∧ sem_init 0 = Some 0) as [Hi Hi0]
    by (split; apply sem_init_ok; unfold SEM_VALUE_MAX, INT_MAX in *; lia).
  unfold shm_blocking_queue_init at 1, shm_blocking_queue_connect at 1,
    shm_blocking_queue_disconnect, shm_blocking_queue_destroy.
  rewrite Hi, Hi0, cells_of_length by lia.
  repeat first [ wp_step
    | apply wp_exit_err_on;
      [first [done | by unfold locked; simpl; rewrite lookup_insert_eq
             | apply bool_decide_eq_false_2; rewrite ?Hn; by try intros []]|done|]
    | eapply wp_object_at; [apply lookup_insert_eq|] ].
  simpl. split; [|split].
  - rewrite lookup_insert_eq. unfold queue_init. simpl. by rewrite Hi, Hi0.
  - unfold shm_blocking_queue_init, exit_err_on, mbind, comp_bind, get. simpl.
    by rewrite bool_decide_eq_true_2 by (rewrite lookup_insert_eq; eauto).
  - unfold shm_blocking_queue_connect, object_at, exit_err_on, mbind, comp_bind. simpl.
    by rewrite delete_insert_eq, lookup_delete_eq.
Qed.

Lemma shm_lifecycle_witness :
  wp (shm_blocking_queue_init 168 (λ _, false) "mmap-stream" 4096;;
      id ← shm_blocking_queue_connect (λ _, false) "mmap-stream";
      s1 ← get;
      shm_blocking_queue_disconnect (λ _, false) id;;
      shm_blocking_queue_destroy (λ _, false) "mmap-stream";;
      mret (id, s1)) (Shm ∅ ∅ 1)
    (λ '(id, s1) s2,
      objects s1 !! id = Some (queue_init 4096) ∧
      shm_blocking_queue_init 168 (λ _, false) "mmap-stream" 4096 s1 = Fault (Exited 1) ∧
      shm_blocking_queue_connect (λ _, false) "mmap-stream" s2 = Fault (Exited 1)).
Proof. apply (shm_lifecycle 168 "mmap-stream" 4096 (Shm ∅ ∅ 1)); done. Defined.

(** [server.c] and [client.c]: if what the queue is given is what the
    server's loop sends, and the client has taken as many values, then the
    client's checksum is the server's, in every interleaving. *)
Theorem stream_checksums_agree cap n acts c rands :
  0 < cap ≤ SEM_VALUE_MAX → (∀ x, x ∈ rands → INT_MIN ≤ x ≤ INT_MAX) →
  run acts (processes_start cap n) = Some c →
  let evs := events acts (processes_start cap n) in
  enqs evs = (server_loop rands 0).1 → length (deqs evs) = length rands →
  client_loop (deqs evs) 0 = (server_loop rands 0).2.
Proof.
  intros Hcap Hr Hrun evs Henq Hdeq.
  destruct (schedule_fifo (H0:=shm_laws) cap) with (n:=n) (acts:=acts) (c:=c)
    as (s & -> & Hf); [simpl; lia..|unfold SEM_VALUE_MAX, INT_MAX in *; lia|done|].
  apply fifo_run_order in Hf. change (enqs evs = deqs evs ++ contents (q s)) in Hf.
  rewrite server_sent in Henq. rewrite Henq in Hf.
  assert (contents (q s) = []) as Hc.
  { apply (f_equal length) in Hf. rewrite length_app, length_map in Hf.
    apply nil_length_inv. lia. }
  rewrite Hc, app_nil_r in Hf. rewrite <-Hf. by apply checksums_agree.
Qed.

(** The server sends 5 and -3 through one slot while the client takes. *)
Definition stream_schedule : list action :=
  [Start 0 (Put (u64 5))] ++ replicate 6 (Step 0) ++
  [Start 0 (Put (u64 (-3))); Start 1 Take] ++ replicate 6 (Step 1) ++
  replicate 6 (Step 0) ++ [Start 1 Take] ++ replicate 6 (Step 1).

Lemma stream_checksums_agree_witness :
  ∃ c, run stream_schedule (processes_start 1 2) = Some c ∧
  client_loop (deqs (events stream_schedule (processes_start 1 2))) 0 =
    (server_loop [5; -3] 0).2.
Proof.
  eexists. split; [vm_compute; reflexivity|].
  eapply (stream_checksums_agree 1 2); [done| |vm_compute; reflexivity|by vm_compute|done].
  intros x Hx. repeat (apply elem_of_cons in Hx as [->|Hx]; [by vm_compute|]).
  by apply elem_of_nil in Hx.
Defined.
