(* ===== verification/Stream.v ===== *)
(** The stream of integers from [server.c] to [client.c] (05-operating-systems/
    04-virtual-memory/02-shared-memory-stream): both programs, the socket
    between them, the shared-memory objects and the queue in one system.  A
    step is one call of the server or of the client, or one instruction of
    their [put] and [take]; an action picks who goes on and, for the server,
    how many bytes its [recv] may get.  What uninitialised arrays hold is a
    parameter.  The calls that set up the sockets are taken to succeed. *)
From S2P Require Import Prelude BlockingQueue PosixSem ShmQueue.
From Stdlib Require Ascii.
#[local] Open Scope Z_scope.

(** ** Bytes *)

(** An [int] in memory, and back. *)
Definition int_bytes (n : Z) : list Z :=
  [u32 n mod 256; (u32 n / 256) mod 256; (u32 n / 65536) mod 256; (u32 n / 16777216) mod 256].

Definition int_of (l : list Z) : Z :=
  match l with
  | [a; b; c; d] => i32 (a + 256 * b + 65536 * c + 16777216 * d)
  | _ => 0
  end.

(** The string at the start of an array; [None] when it has no NUL. *)
Fixpoint c_string (l : list Z) : option (list Z) :=
  match l with
  | [] => None
  | c :: l => if c =? 0 then Some [] else cons c <$> c_string l
  end.

Definition name_bytes (s : string) : list Z :=
  map (λ a, Z.of_N (Ascii.N_of_ascii a)) (String.list_ascii_of_string s).
Definition bytes_name (l : list Z) : string :=
  String.string_of_list_ascii (map (λ c, Ascii.ascii_of_N (Z.to_N c)) l).

(** [recv] into an array: the first bytes are replaced. *)
Definition overwrite (a l : list Z) : list Z := l ++ drop (length l) a.

(** ** The programs *)

Definition SIZE : Z := Z.shiftl 1 20.
Definition SHM_FNAME : string := "mmap-stream".
Definition capacity : Z := 4096.
(** [SIZE / sizeof(int)]. *)
Definition max : Z := SIZE / 4.

(** Where each process is: before the call named, in the loop ([i] done), or
    inside the call of its [i]th iteration; [SGone] and [CGone] are exits. *)
Inductive splace :=
  | SAccept | SRecvMax | SRecvName | SConnect | STest (i : Z) | SPut (i : Z)
  | SDisconnect | SSend | SClose | SGone.
Inductive cplace :=
  | CInit | CConnectQueue | CConnect | CSendMax | CSendName | CTest (i : Z) | CTake (i : Z)
  | CRecvEnd | CDisconnect | CDestroy | CDone | CGone.

(** The locals of [main] in [server.c]; [rands] counts the calls of [rand]. *)
Record slocals := SLocals {
  s_max : list Z; shm_fname : list Z; s_sbq : positive; s_checksum : Z; rands : nat
}.

(** The locals of [main] in [client.c]. *)
Record clocals := CLocals { c_sbq : positive; c_checksum : Z }.

(** The system: shared memory, the threads of the queue (0 is the server, 1
    the client), the two processes, the bytes on the way, and whether a
    connection waits to be accepted. *)
Record world := World {
  mem : shm;
  threads : list thread;
  server : splace; sloc : slocals;
  client : cplace; cloc : clocals;
  to_server : list Z; to_client : list Z; pending : bool
}.

Section programs.
(** [sizeof(shm_blocking_queue)]; the values of [rand]; [SHM_FNAME], the
    capacity and [max] of the client. *)
Context (sizeof_queue : Z) (rand : nat → Z) (fname : string) (cap max : Z).

(** A call on shared memory: it succeeds, or exits the process. *)
Definition shm_call {A} (m : comp shm A) (w : world) (ok : A → shm → world) (gone : world)
    : option (res world) :=
  Some match m (mem w) with
       | Ok (a, s) => Ok (ok a s)
       | Fault (Exited _) => Ok gone
       | Fault f => Fault f
       | OutOfFuel => OutOfFuel
       end.

(** An action of the queue at [id]. *)
Definition queue_action (id : positive) (a : action) (w : world)
    (k : shm → list thread → world) : option (res world) :=
  match objects (mem w) !! id with
  | None => Some (Fault UseAfterFree)
  | Some qu =>
      match exec a (System qu (threads w)) with
      | None => None
      | Some (Broken f) => Some (Fault f)
      | Some (Running s) =>
          Some (Ok (k (Shm (names (mem w)) (<[id := q s]> (objects (mem w)))
                           (next_object (mem w))) (BlockingQueue.threads s)))
      end
  end.

Definition in_call_of (t : nat) (w : world) : bool :=
  match threads w !! t with
  | Some th => match in_call th with Some _ => true | None => false end
  | None => false
  end.

(** [main] of [server.c], where [recv] gets at most [k] bytes. *)
Definition server_step (k : nat) (w : world) : option (res world) :=
  let l := sloc w in
  let go p l ts tc pend :=
    World (mem w) (threads w) p l (client w) (cloc w) ts tc pend in
  let recv len (next : list Z → world) :=
    match to_server w, client w with
    | [], (CDisconnect | CDestroy | CDone | CGone) => Some (Ok (next []))
    | [], _ => None
    | _, _ => Some (Ok (next (take (Nat.min (Nat.max 1 k) len) (to_server w))))
    end in
  match server w with
  | SAccept =>
      if pending w then Some (Ok (go SRecvMax l (to_server w) (to_client w) false)) else None
  | SRecvMax =>
      recv 4%nat (λ d, go SRecvName
        (SLocals (overwrite (s_max l) d) (shm_fname l) (s_sbq l) (s_checksum l) (rands l))
        (drop (length d) (to_server w)) (to_client w) (pending w))
  | SRecvName =>
      recv 4096%nat (λ d, go SConnect
        (SLocals (s_max l) (overwrite (shm_fname l) d) (s_sbq l) (s_checksum l) (rands l))
        (drop (length d) (to_server w)) (to_client w) (pending w))
  | SConnect =>
      match c_string (shm_fname l) with
      | None => Some (Fault OutOfBounds)
      | Some name =>
          shm_call (shm_blocking_queue_connect (λ _, false) (bytes_name name)) w
            (λ id s, World s (threads w) (STest 0)
               (SLocals (s_max l) (shm_fname l) id 0 (rands l))
               (client w) (cloc w) (to_server w) (to_client w) (pending w))
            (go SGone l (to_server w) (to_client w) (pending w))
      end
  | STest i =>
      if i <? int_of (s_max l) then
        let n := rand (rands l) in
        queue_action (s_sbq l) (Start 0 (Put (u64 n))) w (λ s ths,
          World s ths (SPut i)
            (SLocals (s_max l) (shm_fname l) (s_sbq l) (Z.lxor (s_checksum l) n) (S (rands l)))
            (client w) (cloc w) (to_server w) (to_client w) (pending w))
      else Some (Ok (go SDisconnect l (to_server w) (to_client w) (pending w)))
  | SPut i =>
      if in_call_of 0 w then
        queue_action (s_sbq l) (Step 0) w (λ s ths,
          World s ths (SPut i) l (client w) (cloc w) (to_server w) (to_client w) (pending w))
      else Some (Ok (go (STest (i + 1)) l (to_server w) (to_client w) (pending w)))
  | SDisconnect =>
      shm_call (shm_blocking_queue_disconnect (λ _, false) (s_sbq l)) w
        (λ _ s, World s (threads w) SSend l (client w) (cloc w)
                  (to_server w) (to_client w) (pending w))
        (go SGone l (to_server w) (to_client w) (pending w))
  | SSend => Some (Ok (go SClose l (to_server w) (to_client w ++ name_bytes "end") (pending w)))
  | SClose => Some (Ok (go SAccept l (to_server w) (to_client w) (pending w)))
  | SGone => None
  end.

(** [main] of [client.c]. *)
Definition client_step (w : world) : option (res world) :=
  let l := cloc w in
  let go s p l ts tc pend :=
    World s (threads w) (server w) (sloc w) p l ts tc pend in
  let stay p := go (mem w) p l (to_server w) (to_client w) (pending w) in
  match client w with
  | CInit =>
      shm_call (shm_blocking_queue_init sizeof_queue (λ _, false) fname cap) w
        (λ _ s, go s CConnectQueue l (to_server w) (to_client w) (pending w)) (stay CGone)
  | CConnectQueue =>
      shm_call (shm_blocking_queue_connect (λ _, false) fname) w
        (λ id s, go s CConnect (CLocals id (c_checksum l))
                   (to_server w) (to_client w) (pending w)) (stay CGone)
  | CConnect => Some (Ok (go (mem w) CSendMax l (to_server w) (to_client w) true))
  | CSendMax => Some (Ok (go (mem w) CSendName l (to_server w ++ int_bytes max)
                            (to_client w) (pending w)))
  | CSendName => Some (Ok (go (mem w) (CTest 0) (CLocals (c_sbq l) 0)
                             (to_server w ++ name_bytes fname) (to_client w) (pending w)))
  | CTest i =>
      if i <? max then
        queue_action (c_sbq l) (Start 1 Take) w (λ s ths,
          World s ths (server w) (sloc w) (CTake i) l (to_server w) (to_client w) (pending w))
      else Some (Ok (stay CRecvEnd))
  | CTake i =>
      if in_call_of 1 w then
        queue_action (c_sbq l) (Step 1) w (λ s ths,
          World s ths (server w) (sloc w) (CTake i) l (to_server w) (to_client w) (pending w))
      else
        match threads w !! 1%nat with
        | None => None
        | Some th =>
            Some (Ok (go (mem w) (CTest (i + 1))
                        (CLocals (c_sbq l) (Z.lxor (c_checksum l) (i32 (reg th))))
                        (to_server w) (to_client w) (pending w)))
        end
  | CRecvEnd =>
      match to_client w, server w with
      | [], SGone => Some (Ok (stay CDisconnect))
      | [], _ => None
      | _ :: _, _ => Some (Ok (go (mem w) CDisconnect l (to_server w) [] (pending w)))
      end
  | CDisconnect =>
      shm_call (shm_blocking_queue_disconnect (λ _, false) (c_sbq l)) w
        (λ _ s, go s CDestroy l (to_server w) (to_client w) (pending w)) (stay CGone)
  | CDestroy =>
      shm_call (shm_blocking_queue_destroy (λ _, false) fname) w
        (λ _ s, go s CDone l (to_server w) (to_client w) (pending w)) (stay CGone)
  | CDone | CGone => None
  end.

Inductive action := Server (k : nat) | Client.

Definition exec (a : action) (w : world) : option (res world) :=
  match a with Server k => server_step k w | Client => client_step w end.

Fixpoint run (acts : list action) (w : world) : option (res world) :=
  match acts with
  | [] => Some (Ok w)
  | a :: acts => match exec a w with
                 | Some (Ok w) => run acts w
                 | r => r
                 end
  end.

(** Both processes at the start of their [main], the server listening; the
    arrays hold [m0] and [name0]. *)
Definition start (m0 name0 : list Z) : world :=
  World (Shm ∅ ∅ 1) [idle; idle] SAccept (SLocals m0 name0 1 0 0)
    CInit (CLocals 1 0) [] [] false.
End programs.

(** ** Lemmas on bytes *)

Lemma int_bytes_roundtrip n : INT_MIN ≤ n ≤ INT_MAX → int_of (int_bytes n) = n.
Proof.
  intros Hn. unfold int_of, int_bytes.
  pose proof (Z.mod_pos_bound n (2 ^ 32) ltac:(lia)) as Hu. fold (u32 n) in Hu.
  replace (u32 n / 65536) with (u32 n / 256 / 256) by (by rewrite Z.div_div).
  replace (u32 n / 16777216) with (u32 n / 256 / 256 / 256) by (by rewrite !Z.div_div).
  replace (_ + _ + _ + _) with (u32 n) by dlia.
  unfold i32, u32, INT_MIN, INT_MAX in *. dlia.
Qed.

Lemma name_bytes_range s c : c ∈ name_bytes s → 0 ≤ c < 256.
Proof.
  unfold name_bytes. intros (a & -> & _)%list_elem_of_fmap.
  pose proof (Ascii.N_ascii_bounded a). lia.
Qed.

Lemma bytes_name_roundtrip s : bytes_name (name_bytes s) = s.
Proof.
  unfold bytes_name, name_bytes. rewrite map_map.
  rewrite (map_ext _ (λ a, a)) by (intros a; by rewrite N2Z.id, Ascii.ascii_N_embedding).
  rewrite map_id. apply String.string_of_list_ascii_of_string.
Qed.

Lemma name_bytes_roundtrip l :
  (∀ c, c ∈ l → 0 ≤ c < 256) → name_bytes (bytes_name l) = l.
Proof.
  intros Hl. unfold bytes_name, name_bytes. rewrite String.list_ascii_of_string_of_list_ascii.
  rewrite map_map. rewrite <-(map_id l) at 2. apply map_ext_in. intros c Hc%list_elem_of_In.
  specialize (Hl c Hc). rewrite Ascii.N_ascii_embedding by lia. lia.
Qed.

(** The string after a receipt: up to a NUL that was there. *)
Lemma c_string_app l c r :
  (0 ∉ l) → c_string (l ++ c :: r) =
    if c =? 0 then Some l else (λ m, l ++ c :: m) <$> c_string r.
Proof.
  induction l as [|x l IH]; intros Hl; simpl; [done|].
  apply not_elem_of_cons in Hl as [Hx Hl]. rewrite (proj2 (Z.eqb_neq x 0)) by done.
  rewrite IH by done. destruct (c =? 0); [done|]. by destruct (c_string r).
Qed.

(** ** The invariant *)

Section proofs.
Context (sz : Z) (rand : nat → Z) (fname : string) (cap max : Z) (name0 : list Z).
Context (Hsz : 0 ≤ sz) (Hcap : 0 < cap ≤ SEM_VALUE_MAX) (Hb : sz + 8 * cap < 2 ^ 64).
Context (Hmax : 0 ≤ max ≤ INT_MAX) (Hrand : ∀ i, INT_MIN ≤ rand i ≤ INT_MAX).
Context (Hname : 0 ∉ name_bytes fname) (Hlen : (0 < length (name_bytes fname) < 4096)%nat).
(** The array of the server has a NUL after the bytes of the name. *)
Context (Hnul : name0 !! length (name_bytes fname) = Some 0).

(** The first values put; the checksum of the first numbers, and of what was
    taken. *)
Definition vals (n : nat) : list Z := map (λ i, u64 (rand i)) (seq 0 n).
Definition sum_of (n : nat) : Z := (server_loop (map rand (seq 0 n)) 0).2.
Definition sum_taken (tl : list Z) : Z := client_loop tl 0.

(** A thread between two calls, in the [i]th put, in the [i]th take. *)
Definition resting (th : thread) : Prop := alive th = true ∧ in_call th = None.

Definition putting (i : nat) (th : thread) (pl : list Z) : Prop :=
  alive th = true ∧
  match in_call th with
  | None => pl = vals (S i)
  | Some c => c = Put (u64 (rand i)) ∧ pl = vals (if (pc th <=? 3)%nat then i else S i)
  end.

Definition taking (i : nat) (c : Z) (th : thread) (tl : list Z) : Prop :=
  alive th = true ∧
  match in_call th with
  | Some (Put _) => False
  | Some Take => if (pc th <=? 3)%nat then length tl = i ∧ sum_taken tl = c
                 else length tl = S i ∧ sum_taken tl = Z.lxor c (i32 (reg th))
  | None => length tl = S i ∧ sum_taken tl = Z.lxor c (i32 (reg th))
  end.

(** How far the client is. *)
Definition crank (p : cplace) : nat :=
  match p with
  | CInit => 0 | CConnectQueue => 1 | CConnect => 2 | CSendMax => 3 | CSendName => 4
  | CTest _ | CTake _ => 5 | CRecvEnd => 6 | CDisconnect => 7 | CDestroy => 8
  | CDone => 9 | CGone => 10
  end.

(** What the client has sent by then. *)
Definition sent (cr : nat) : list Z :=
  (if (4 <=? cr)%nat then int_bytes max else []) ++
  (if (5 <=? cr)%nat then name_bytes fname else []).

(** The server between its last put and its next connection. *)
Definition served (l : slocals) (ts : list Z) (th : thread) (pl : list Z) : Prop :=
  ts = [] ∧ s_checksum l = sum_of (Z.to_nat max) ∧ resting th ∧ pl = vals (Z.to_nat max).

(** The server at each of its places: its locals, its thread, the bytes on
    the way, the pending connection and what it has put. *)
Definition server_ok (p : splace) (l : slocals) (cr : nat) (ts tc : list Z) (pend : bool)
    (th : thread) (pl : list Z) : Prop :=
  let early := tc = [] ∧ (cr ≤ 6)%nat in
  let fresh := shm_fname l = name0 ∧ rands l = 0%nat ∧ resting th ∧ pl = [] in
  let in_loop n := early ∧ (5 ≤ cr)%nat ∧ pend = false ∧ ts = [] ∧ s_max l = int_bytes max ∧
    s_sbq l = 1%positive ∧ rands l = n ∧ s_checksum l = sum_of n in
  match p with
  | SAccept =>
      (early ∧ fresh ∧ length (s_max l) = 4%nat ∧ ts = sent cr ∧ pend = (3 <=? cr)%nat) ∨
      ((5 ≤ cr)%nat ∧ pend = false ∧ (tc = [] → (7 ≤ cr)%nat) ∧ served l ts th pl)
  | SRecvMax => early ∧ fresh ∧ length (s_max l) = 4%nat ∧ (3 ≤ cr)%nat ∧ ts = sent cr ∧
      pend = false
  | SRecvName => early ∧ fresh ∧ s_max l = int_bytes max ∧ (4 ≤ cr)%nat ∧
      ts = drop 4 (sent cr) ∧ pend = false
  | SConnect => early ∧ shm_fname l = overwrite name0 (name_bytes fname) ∧ rands l = 0%nat ∧
      resting th ∧ pl = [] ∧ s_max l = int_bytes max ∧ (5 ≤ cr)%nat ∧ ts = [] ∧ pend = false
  | STest i => in_loop (Z.to_nat i) ∧ 0 ≤ i ≤ max ∧ resting th ∧ pl = vals (Z.to_nat i)
  | SPut i => in_loop (S (Z.to_nat i)) ∧ 0 ≤ i < max ∧ putting (Z.to_nat i) th pl
  | SDisconnect | SSend => early ∧ (5 ≤ cr)%nat ∧ pend = false ∧ served l ts th pl
  | SClose => (5 ≤ cr)%nat ∧ pend = false ∧ (tc = [] → (7 ≤ cr)%nat) ∧ served l ts th pl
  | SGone => False
  end.

(** The client at each of its places: its locals, its thread and what it has
    taken. *)
Definition client_ok (p : cplace) (l : clocals) (th : thread) (tl : list Z) : Prop :=
  match p with
  | CConnectQueue => resting th ∧ tl = []
  | CConnect | CSendMax | CSendName => c_sbq l = 1%positive ∧ resting th ∧ tl = []
  | CTest i => c_sbq l = 1%positive ∧ 0 ≤ i ≤ max ∧ resting th ∧ length tl = Z.to_nat i ∧
      c_checksum l = sum_taken tl
  | CTake i => c_sbq l = 1%positive ∧ 0 ≤ i < max ∧
      taking (Z.to_nat i) (c_checksum l) th tl
  | CRecvEnd | CDisconnect | CDestroy => c_sbq l = 1%positive ∧ resting th ∧
      length tl = Z.to_nat max ∧ c_checksum l = sum_taken tl
  | CInit | CDone | CGone => False
  end.

(** Before the client's first call, while the object exists, and after its
    last call. *)
Inductive SysInv : world → Prop :=
  | inv_before l cl :
      length (s_max l) = 4%nat → shm_fname l = name0 → rands l = 0%nat →
      SysInv (World (Shm ∅ ∅ 1) [idle; idle] SAccept l CInit cl [] [] false)
  | inv_during qu nxt th0 th1 p l cp cl ts tc pend :
      Inv cap (System qu [th0; th1]) →
      server_ok p l (crank cp) ts tc pend th0 (put_log qu) →
      client_ok cp cl th1 (take_log qu) →
      SysInv (World (Shm {[fname := 1%positive]} {[1%positive := qu]} nxt) [th0; th1]
                p l cp cl ts tc pend)
  | inv_after nxt ths p l cl ts tc :
      p = SClose ∨ p = SAccept →
      s_checksum l = sum_of (Z.to_nat max) → c_checksum cl = sum_of (Z.to_nat max) →
      SysInv (World (Shm ∅ ∅ nxt) ths p l CDone cl ts tc false).

(** The steps each process has yet to make. *)
Definition call_work (th : thread) : nat :=
  match in_call th with Some _ => 6 - pc th | None => 0 end.

Definition loop_work (i : Z) : nat := 8 * Z.to_nat (max - i) + 4.

Definition server_work (p : splace) (cr : nat) (pend : bool) (th : thread) : nat :=
  match p with
  | SAccept => if pend || (cr <? 3)%nat then loop_work 0 + 4 else 0
  | SRecvMax => loop_work 0 + 3 | SRecvName => loop_work 0 + 2 | SConnect => loop_work 0 + 1
  | STest i => loop_work i
  | SPut i => call_work th + 1 + loop_work (i + 1)
  | SDisconnect => 3 | SSend => 2 | SClose => 1 | SGone => 0
  end.

Definition client_work (p : cplace) (th : thread) : nat :=
  match p with
  | CInit => loop_work 0 + 5 | CConnectQueue => loop_work 0 + 4 | CConnect => loop_work 0 + 3
  | CSendMax => loop_work 0 + 2 | CSendName => loop_work 0 + 1
  | CTest i => loop_work i
  | CTake i => call_work th + 1 + loop_work (i + 1)
  | CRecvEnd => 3 | CDisconnect => 2 | CDestroy => 1 | CDone | CGone => 0
  end.

#[local] Arguments loop_work : simpl never.
#[local] Arguments call_work : simpl never.

Definition nth_thread (t : nat) (w : world) : thread := default idle (threads w !! t).

Definition work (w : world) : nat :=
  server_work (server w) (crank (client w)) (pending w) (nth_thread 0 w) +
  client_work (client w) (nth_thread 1 w).

Lemma loop_work_step i : i < max → loop_work i = (8 + loop_work (i + 1))%nat.
Proof. unfold loop_work. lia. Qed.

Lemma loop_work_end : loop_work max = 4%nat.
Proof. unfold loop_work. lia. Qed.

Lemma call_work_none th : in_call th = None → call_work th = 0%nat.
Proof. unfold call_work. by intros ->. Qed.

Lemma call_work_advance c k r e a :
  (k ≤ 5)%nat →
  call_work (Thread (Some c) k r a) =
    S (call_work (advance (I:=sem_call) c (Thread (Some c) k r a) e)).
Proof.
  intros Hk. unfold call_work, advance. simpl.
  assert (length (code (I:=sem_call) c) = 6%nat) as -> by (by destruct c). 
  destruct (Nat.ltb_spec (S k) 6); simpl; lia.
Qed.

Lemma vals_S n : vals (S n) = vals n ++ [u64 (rand n)].
Proof. unfold vals. by rewrite seq_S, map_app. Qed.

Lemma length_vals n : length (vals n) = n.
Proof. unfold vals. by rewrite length_map, length_seq. Qed.

Lemma sum_taken_snoc l x : sum_taken (l ++ [x]) = Z.lxor (sum_taken l) (i32 x).
Proof.
  unfold sum_taken. generalize 0. induction l as [|y l IH]; intros c; simpl; [done|apply IH].
Qed.

Lemma sum_taken_vals n : sum_taken (vals n) = sum_of n.
Proof.
  unfold sum_taken, sum_of, vals. rewrite <-map_map with (f:=rand).
  apply checksums_agree. intros m (i & -> & _)%list_elem_of_fmap. apply Hrand.
Qed.

Lemma sum_of_S n : sum_of (S n) = Z.lxor (sum_of n) (rand n).
Proof.
  rewrite <-!sum_taken_vals, vals_S, sum_taken_snoc, i32_u64; [done|apply Hrand].
Qed.

#[local] Abbreviation Inv := (Inv cap).
#[local] Abbreviation System := (System (T:=sem_state)).

Lemma sem_max_ok : cap ≤ sem_max ∧ cap < 2 ^ 63.
Proof. unfold sem_max. simpl. unfold SEM_VALUE_MAX, INT_MAX in *. lia. Qed.

(** An instruction of the server's put, of the client's take. *)
Lemma step_put i qu th0 th1 c' :
  Inv (System qu [th0; th1]) → putting i th0 (put_log qu) → in_call th0 ≠ None →
  BlockingQueue.exec (Step 0) (System qu [th0; th1]) = Some c' →
  ∃ qu' th0', c' = Running (System qu' [th0'; th1]) ∧ Inv (System qu' [th0'; th1]) ∧
    putting i th0' (put_log qu') ∧ take_log qu' = take_log qu ∧
    call_work th0 = S (call_work th0').
Proof.
  destruct sem_max_ok as [Hsm H63]. intros Hinv Hp Hc He.
  destruct th0 as [[c|] k r a]; [|done]. destruct Hp as [Ha [Hcall Hpl]]. simpl in Ha, Hcall, Hpl.
  subst a c.
  destruct (exec_step_logs (H0:=shm_laws) cap ltac:(lia) Hsm H63 _ 0 _ _ _ _ Hinv eq_refl He)
    as ([qu' ths] & e & -> & Hinv' & Hth & Hpl' & Htl' & _). simpl in Hth, Hpl', Htl'. subst ths.
  pose proof (inv_pc _ _ Hinv 0 _ eq_refl) as Hk. simpl in Hk.
  rewrite app_nil_r in Htl'. do 2 eexists. split; [done|]. split; [done|].
  split; [|split; [done|by apply call_work_advance]].
  rewrite Hpl', Hpl. split; [by destruct (k <? 5)%nat|].
  destruct (Nat.ltb_spec k 5) as [H5|H5]; simpl.
  - split; [done|]. destruct k as [|[|[|[|[|k]]]]]; simpl; rewrite ?app_nil_r; try lia; try done.
    by rewrite vals_S.
  - assert (k = 5%nat) as -> by lia. simpl. by rewrite app_nil_r.
Qed.

Lemma step_take i c qu th0 th1 c' :
  Inv (System qu [th0; th1]) → taking i c th1 (take_log qu) → in_call th1 ≠ None →
  BlockingQueue.exec (Step 1) (System qu [th0; th1]) = Some c' →
  ∃ qu' th1', c' = Running (System qu' [th0; th1']) ∧ Inv (System qu' [th0; th1']) ∧
    taking i c th1' (take_log qu') ∧ put_log qu' = put_log qu ∧
    call_work th1 = S (call_work th1').
Proof.
  destruct sem_max_ok as [Hsm H63]. intros Hinv Hp Hc He.
  destruct th1 as [[[]|] k r a]; [by destruct Hp| |done].
  destruct Hp as [Ha Htl]. simpl in Ha, Htl. subst a.
  destruct (exec_step_logs (H0:=shm_laws) cap ltac:(lia) Hsm H63 _ 1 _ _ _ _ Hinv eq_refl He)
    as ([qu' ths] & e & -> & Hinv' & Hth & Hpl' & Htl' & Hr). simpl in Hth, Hpl', Htl'. subst ths.
  pose proof (inv_pc _ _ Hinv 1 _ eq_refl) as Hk. simpl in Hk.
  rewrite app_nil_r in Hpl'. do 2 eexists. split; [done|]. split; [done|].
  split; [|split; [done|by apply call_work_advance]].
  rewrite Htl'. split; [by destruct (k <? 5)%nat|].
  destruct (Nat.ltb_spec k 5) as [H5|H5]; simpl.
  - destruct k as [|[|[|[|[|k]]]]]; simpl in *; rewrite ?app_nil_r; try lia; try done.
    + rewrite Hr by done. destruct Htl as [<- <-]. rewrite length_app, sum_taken_snoc. simpl.
      split; [lia|done].
    + by rewrite Hr.
  - assert (k = 5%nat) as -> by lia. simpl. rewrite app_nil_r, Hr by done. done.
Qed.

(** The start of a call. *)
Lemma start_put i qu th0 th1 :
  Inv (System qu [th0; th1]) → resting th0 → put_log qu = vals i →
  ∃ th0', BlockingQueue.exec (Start 0 (Put (u64 (rand i)))) (System qu [th0; th1]) =
      Some (Running (System qu [th0'; th1])) ∧
    Inv (System qu [th0'; th1]) ∧ putting i th0' (put_log qu) ∧ call_work th0' = 6%nat.
Proof.
  destruct sem_max_ok as [Hsm H63]. intros Hinv [Ha Hc] Hpl.
  destruct th0 as [c k r a]. simpl in Ha, Hc. subst a c. eexists. split; [done|].
  split; [|by repeat split].
  destruct (exec_inv (H0:=shm_laws) cap ltac:(lia) Hsm H63 _ (Start 0 (Put (u64 (rand i)))) _
    Hinv eq_refl) as (s' & [= <-] & Hinv' & _). done.
Qed.

Lemma start_take i qu th0 th1 :
  Inv (System qu [th0; th1]) → resting th1 → length (take_log qu) = i →
  ∃ th1', BlockingQueue.exec (Start 1 Take) (System qu [th0; th1]) =
      Some (Running (System qu [th0; th1'])) ∧
    Inv (System qu [th0; th1']) ∧ taking i (sum_taken (take_log qu)) th1' (take_log qu) ∧
    call_work th1' = 6%nat.
Proof.
  destruct sem_max_ok as [Hsm H63]. intros Hinv [Ha Hc] Htl.
  destruct th1 as [c k r a]. simpl in Ha, Hc. subst a c. eexists. split; [done|].
  split; [|by repeat split].
  destruct (exec_inv (H0:=shm_laws) cap ltac:(lia) Hsm H63 _ (Start 1 Take) _
    Hinv eq_refl) as (s' & [= <-] & Hinv' & _). done.
Qed.

(** Processes that are in no call hold no mutex. *)
Lemma resting_unlocked qu th0 th1 m :
  Inv (System qu [th0; th1]) → resting th0 → resting th1 → owner m qu = None.
Proof.
  intros Hinv [_ H0] [_ H1]. destruct (owner m qu) as [t|] eqn:Ho; [|done].
  destruct (inv_owner _ _ Hinv m t Ho) as (th & Ht & _ & Hm).
  destruct t as [|[|t]]; simplify_eq/=; destruct m; [|destruct Hm as [? Hm]| |destruct Hm as [? Hm]]; congruence.
Qed.

(** *** The server's steps *)

(** The calls on the object. *)
Lemma connect_ok qu nxt :
  shm_blocking_queue_connect (λ _, false) fname
    (Shm {[fname := 1%positive]} {[1%positive := qu]} nxt) =
  Ok (1%positive, Shm {[fname := 1%positive]} {[1%positive := qu]} nxt).
Proof.
  unfold shm_blocking_queue_connect, exit_err_on, object_at, mbind, comp_bind. simpl.
  by rewrite lookup_singleton_eq.
Qed.

Lemma destroy_ok qu nxt : (∀ m, owner m qu = None) →
  shm_blocking_queue_destroy (λ _, false) fname
    (Shm {[fname := 1%positive]} {[1%positive := qu]} nxt) = Ok (tt, Shm ∅ ∅ nxt).
Proof.
  intros Ho. unfold shm_blocking_queue_destroy, exit_err_on, object_at, locked, mbind, comp_bind. simpl.
  rewrite lookup_singleton_eq. simpl. rewrite lookup_singleton_eq.
  pose proof (Ho MHead) as Hh. pose proof (Ho MTail) as Ht. simpl in Hh, Ht. rewrite Hh, Ht. simpl. by rewrite !delete_singleton_eq.
Qed.

Lemma init_ok :
  ∃ nxt, shm_blocking_queue_init sz (λ _, false) fname cap (Shm ∅ ∅ 1) =
    Ok (tt, Shm {[fname := 1%positive]} {[1%positive := queue_init cap]} nxt).
Proof.
  assert (sem_init cap = Some cap ∧ sem_init 0 = Some 0) as [Hi Hi0]
    by (split; apply sem_init_ok; unfold SEM_VALUE_MAX, INT_MAX in *; lia).
  unfold shm_blocking_queue_init, exit_err_on, mbind, comp_bind, get, put. simpl.
  rewrite cells_of_length, Hi, Hi0 by lia. simpl. eexists. f_equal. f_equal.
  unfold queue_init. simpl. by rewrite Hi, Hi0.
Qed.

(** An action of the queue on the only object. *)
Lemma queue_action_ok a qu nxt ths w k s :
  mem w = Shm {[fname := 1%positive]} {[1%positive := qu]} nxt → threads w = ths →
  BlockingQueue.exec a (System qu ths) = Some (Running s) →
  queue_action 1 a w k =
    Some (Ok (k (Shm {[fname := 1%positive]} {[1%positive := q s]} nxt)
                (BlockingQueue.threads s))).
Proof.
  intros Hm Ht He. unfold queue_action. rewrite Hm, Ht. simpl.
  rewrite lookup_singleton_eq, He. by rewrite insert_singleton_eq.
Qed.

Lemma queue_action_inv a qu nxt ths w k r :
  mem w = Shm {[fname := 1%positive]} {[1%positive := qu]} nxt → threads w = ths →
  queue_action 1 a w k = Some r → is_Some (BlockingQueue.exec a (System qu ths)).
Proof.
  intros Hm Ht. unfold queue_action. rewrite Hm, Ht. simpl. rewrite lookup_singleton_eq.
  destruct (BlockingQueue.exec a (System qu ths)); [eauto|done].
Qed.

Lemma length_overwrite a l : (length l ≤ length a)%nat → length (overwrite a l) = length a.
Proof. intros Hl. unfold overwrite. rewrite length_app, length_drop. lia. Qed.

(** The receipts: whole messages, whatever is behind them. *)
Lemma recv_max a : length a = 4%nat → overwrite a (int_bytes max) = int_bytes max.
Proof.
  intros Ha. unfold overwrite. rewrite (drop_ge a); [apply app_nil_r|]. simpl. lia.
Qed.

Lemma recv_name :
  c_string (overwrite name0 (name_bytes fname)) = Some (name_bytes fname).
Proof.
  unfold overwrite. rewrite (drop_S _ _ _ Hnul). by rewrite c_string_app.
Qed.

(** A state while the object exists. *)
Definition during qu nxt th0 th1 p l cp cl ts tc pend : world :=
  World (Shm {[fname := 1%positive]} {[1%positive := qu]} nxt) [th0; th1] p l cp cl ts tc pend.

(** A step that leaves [n] keeps the invariant and is one step less to make. *)
Definition kept (n : nat) (o : option (res world)) : Prop :=
  ∀ r, o = Some r → ∃ w, r = Ok w ∧ SysInv w ∧ n = S (work w).

Lemma kept_during n qu nxt th0 th1 p l cp cl ts tc pend :
  Inv (System qu [th0; th1]) → server_ok p l (crank cp) ts tc pend th0 (put_log qu) →
  client_ok cp cl th1 (take_log qu) →
  n = S (server_work p (crank cp) pend th0 + client_work cp th1) →
  kept n (Some (Ok (during qu nxt th0 th1 p l cp cl ts tc pend))).
Proof. intros Hq Hs Hc Hn r [= <-]. eexists. split; [done|]. split; [by apply inv_during|done]. Qed.

(** Counts the work on both sides of a step. *)
Ltac work_lia :=
  unfold work, nth_thread; cbn; rewrite ?loop_work_end, ?orb_true_r, ?orb_false_r; try lia.

Section server.
Context (k : nat) (qu : queue sem_state) (nxt : positive) (th0 th1 : thread).
Context (l : slocals) (cp : cplace) (cl : clocals) (ts tc : list Z) (pend : bool).
Context (Hk : (4096 ≤ k)%nat) (Hq : Inv (System qu [th0; th1])).
Context (Hc : client_ok cp cl th1 (take_log qu)).
#[local] Abbreviation at_ p := (during qu nxt th0 th1 p l cp cl ts tc pend).
#[local] Abbreviation ok p := (server_ok p l (crank cp) ts tc pend th0 (put_log qu)).

Lemma server_recv_max_kept : ok SRecvMax → kept (work (at_ SRecvMax)) (server_step rand k (at_ SRecvMax)).
Proof.
  intros ([-> Hcr] & Hf & Hl & Hcr3 & Hts & ->). unfold server_step. simpl.
  destruct (Nat.leb_spec 4 (crank cp)) as [H4|H4].
  2: { unfold sent in Hts. rewrite (proj2 (Nat.leb_gt 4 _)), (proj2 (Nat.leb_gt 5 _)) in Hts by lia.
       subst ts. destruct cp; simpl in *; by try lia. }
  assert (ts = int_bytes max ++ drop 4 (sent (crank cp))) as ->.
  { rewrite Hts. unfold sent. by rewrite (proj2 (Nat.leb_le 4 _)). }
  replace (Nat.min (Nat.max 1 k) 4) with 4%nat by lia. simpl.
  apply kept_during; [done| |done|work_lia]. cbn [server_ok].
  split; [done|]. split; [done|]. split; [by apply recv_max|]. done.
Qed.

Lemma server_recv_name_kept : ok SRecvName → kept (work (at_ SRecvName)) (server_step rand k (at_ SRecvName)).
Proof.
  intros ([-> Hcr] & Hf & Hl & Hcr4 & Hts & ->). unfold server_step. simpl.
  destruct (Nat.leb_spec 5 (crank cp)) as [H5|H5].
  2: { unfold sent in Hts. rewrite (proj2 (Nat.leb_le 4 _)), (proj2 (Nat.leb_gt 5 _)) in Hts by lia.
       simpl in Hts. subst ts. destruct cp; simpl in *; by try lia. }
  assert (ts = name_bytes fname) as ->.
  { rewrite Hts. unfold sent. by rewrite (proj2 (Nat.leb_le 4 _)), (proj2 (Nat.leb_le 5 _)). }
  destruct (name_bytes fname) as [|x nm] eqn:Hnm; [simpl in Hlen; lia|]. rewrite <-Hnm in *.
  rewrite take_ge by lia. apply kept_during; [done| |done|work_lia]. cbn [server_ok].
  destruct Hf as (Hsn & Hra & Hre & Hpl). rewrite drop_all. simpl. by rewrite Hsn.
Qed.

Lemma server_connect_kept : ok SConnect → kept (work (at_ SConnect)) (server_step rand k (at_ SConnect)).
Proof.
  intros (Hea & Hsn & Hra & Hre & Hpl & Hl & H5 & -> & ->). unfold server_step. simpl.
  rewrite Hsn, recv_name, bytes_name_roundtrip. unfold shm_call. simpl.
  rewrite connect_ok. apply kept_during; [done| |done|work_lia].
  split; [by repeat split; try apply Hea|]. split; [lia|done].
Qed.

Lemma server_test_kept i : ok (STest i) → kept (work (at_ (STest i))) (server_step rand k (at_ (STest i))).
Proof.
  intros ((Hea & H5 & -> & -> & Hl & Hsb & Hra & Hcs) & Hi & Hre & Hpl).
  unfold server_step. cbn [server sloc during].
  rewrite Hl, int_bytes_roundtrip by (unfold INT_MIN; lia).
  destruct (Z.ltb_spec i max) as [Hlt|Hge].
  - rewrite Hsb, Hra.
    destruct (start_put (Z.to_nat i) qu th0 th1 Hq Hre Hpl) as (th0' & Hx & Hq' & Hpt & Hcw).
    erewrite queue_action_ok; [|done|done|exact Hx]. apply kept_during; [done| |done|].
    2: { work_lia. rewrite Hcw, (loop_work_step i) by done. lia. }
    split; [|split; [lia|done]]. repeat split; try apply Hea; try done.
    simpl. by rewrite sum_of_S, Hcs.
  - assert (i = max) as -> by lia. apply kept_during; [done| |done|work_lia].
    by repeat split; try apply Hea; try apply Hre.
Qed.

Lemma server_put_kept i : ok (SPut i) → kept (work (at_ (SPut i))) (server_step rand k (at_ (SPut i))).
Proof.
  intros ((Hea & H5 & -> & -> & Hl & Hsb & Hra & Hcs) & Hi & Hpt).
  unfold server_step, in_call_of. simpl. destruct (in_call th0) as [c|] eqn:Hic.
  - rewrite Hsb. intros r He.
    pose proof He as Hx. eapply queue_action_inv in Hx as [c' Hx]; [|done|done].
    destruct (step_put _ _ _ _ _ Hq Hpt ltac:(congruence) Hx) as (qu' & th0' & -> & Hq' & Hpt' & Htl & Hcw).
    erewrite queue_action_ok in He; [|done|done|exact Hx]. revert r He.
    apply kept_during; [done| |simpl; by rewrite Htl|work_lia].
    by repeat split; try apply Hea; try apply Hi; try apply Hpt'.
  - apply kept_during; [done| |done|work_lia; rewrite call_work_none by done; lia].
    destruct Hpt as [Ha Hpt]. rewrite Hic in Hpt. cbn [server_ok].
    replace (Z.to_nat (i + 1)) with (S (Z.to_nat i)) by lia.
    repeat split; try apply Hea; done || lia.
Qed.

Lemma server_kept p : ok p → kept (work (at_ p)) (server_step rand k (at_ p)).
Proof.
  intros Hs. destruct p as [| | | |i|i| | | |].
  - unfold server_step. simpl. destruct pend eqn:Hp; [|done].
    apply kept_during; [done| |done|work_lia].
    destruct Hs as [(He & Hf & Hl & Hts & Hp3)|(_ & Hp3 & _)]; [|congruence].
    symmetry in Hp3. apply Nat.leb_le in Hp3.
    by repeat split; try apply He; try apply Hf.
  - by apply server_recv_max_kept.
  - by apply server_recv_name_kept.
  - by apply server_connect_kept.
  - by apply server_test_kept.
  - by apply server_put_kept.
  - destruct Hs as (Hea & H5 & Hp & Hsv). unfold server_step, shm_call. simpl.
    apply kept_during; [done| |done|work_lia]. by repeat split; try apply Hea; try apply Hsv.
  - destruct Hs as ([Htc H6] & H5 & Hp & Hsv). unfold server_step. simpl.
    apply kept_during; [done| |done|work_lia]. rewrite Htc. by repeat split; try apply Hsv.
  - destruct Hs as (H5 & Hp & Htc & Hsv). unfold server_step. simpl.
    apply kept_during; [done| |done|]; [by right|]. rewrite Hp. work_lia.
    by rewrite (proj2 (Nat.leb_gt (crank cp) 2)) by lia.
  - done.
Qed.
End server.

Lemma server_step_kept k w : (4096 ≤ k)%nat → SysInv w → kept (work w) (server_step rand k w).
Proof.
  intros Hk Hinv. destruct Hinv as [l cl Hm Hn Hr|qu nxt th0 th1 p l cp cl ts tc pend Hq Hs Hc|
    nxt ths p l cl ts tc Hp Hs Hc]; [done|by apply server_kept|].
  destruct Hp as [-> | ->]; [|done]. intros r [= <-]. eexists. split; [done|].
  split; [apply inv_after; auto|done].
Qed.

(** *** The client's steps *)

(** What the server may rely on when the client goes on: nothing changes but
    its rank, or it connects, sends, or takes the final message. *)
Lemma server_ok_rank p l cr cr' ts tc pend th pl :
  server_ok p l cr ts tc pend th pl → (cr ≤ cr')%nat → (cr' ≤ 6)%nat →
  sent cr' = sent cr → (3 <=? cr')%nat = (3 <=? cr)%nat →
  server_ok p l cr' ts tc pend th pl.
Proof.
  intros Hs Hle H6 Hsent H3. destruct p; cbn [server_ok] in *; rewrite ?Hsent, ?H3 in *;
    intuition lia.
Qed.

Lemma server_ok_connect p l ts tc pend th pl :
  server_ok p l 2 ts tc pend th pl → server_ok p l 3 ts tc true th pl.
Proof. destruct p; cbn [server_ok]; intuition (lia || auto). Qed.

Lemma server_ok_max p l ts tc pend th pl :
  server_ok p l 3 ts tc pend th pl → server_ok p l 4 (ts ++ int_bytes max) tc pend th pl.
Proof.
  destruct p; cbn [server_ok]; try (intuition lia).
  - intros [(? & ? & ? & -> & ->)|(? & _)]; [left|lia]. intuition lia.
  - intros (? & ? & ? & ? & -> & ->). intuition lia.
Qed.

Lemma server_ok_name p l ts tc pend th pl :
  server_ok p l 4 ts tc pend th pl → server_ok p l 5 (ts ++ name_bytes fname) tc pend th pl.
Proof.
  destruct p; cbn [server_ok]; try (intuition lia).
  - intros [(? & ? & ? & -> & ->)|(? & _)]; [left|lia]. intuition lia.
  - intros (? & ? & ? & ? & -> & ->). intuition lia.
  - intros (? & ? & ? & ? & -> & ->). intuition lia.
Qed.

(** The final message means that the server is done. *)
Lemma server_ok_end p l cr ts tc pend th pl :
  server_ok p l cr ts tc pend th pl → tc ≠ [] ∨ (7 ≤ cr)%nat →
  (p = SClose ∨ p = SAccept) ∧ pend = false ∧ served l ts th pl ∧
  ∀ cr' tc', (7 ≤ cr')%nat → server_ok p l cr' ts tc' pend th pl.
Proof.
  intros Hs Htc. destruct p; cbn [server_ok] in *;
    try (exfalso; destruct Htc; intuition (lia || congruence)).
  - destruct Hs as [(He & _)|(H5 & Hp & _ & Hsv)]; [destruct Htc; intuition (lia || congruence)|].
    split; [auto|]. split; [done|]. split; [done|]. intros cr' tc' Hcr. right.
    intuition lia.
  - destruct Hs as (H5 & Hp & _ & Hsv). split; [auto|]. split; [done|]. split; [done|].
    intros cr' tc' Hcr. intuition lia.
Qed.

Section client.
Context (qu : queue sem_state) (nxt : positive) (th0 th1 : thread).
Context (p : splace) (l : slocals) (cl : clocals) (ts tc : list Z) (pend : bool).
Context (Hq : Inv (System qu [th0; th1])).
#[local] Abbreviation at_ cp := (during qu nxt th0 th1 p l cp cl ts tc pend).
#[local] Abbreviation sok cp := (server_ok p l (crank cp) ts tc pend th0 (put_log qu)).
#[local] Abbreviation cok cp := (client_ok cp cl th1 (take_log qu)).

Lemma client_test_kept i :
  sok (CTest i) → cok (CTest i) → kept (work (at_ (CTest i))) (client_step sz fname cap max (at_ (CTest i))).
Proof.
  intros Hs (Hsb & Hi & Hre & Hl & Hcs). unfold client_step. simpl.
  destruct (Z.ltb_spec i max) as [Hlt|Hge].
  - rewrite Hsb. destruct (start_take (Z.to_nat i) qu th0 th1 Hq Hre Hl) as (th1' & Hx & Hq' & Ht & Hcw).
    erewrite queue_action_ok; [|done|done|exact Hx]. apply kept_during; [done|done|..].
    + split; [done|]. split; [lia|]. simpl. by rewrite Hcs.
    + work_lia. rewrite Hcw, (loop_work_step i) by done. lia.
  - assert (i = max) as -> by lia. apply kept_during; [done| | |destruct p; work_lia].
    + by eapply server_ok_rank; [exact Hs|simpl; lia|simpl; lia|..].
    + by repeat split; try apply Hre.
Qed.

Lemma client_take_kept i :
  sok (CTake i) → cok (CTake i) → kept (work (at_ (CTake i))) (client_step sz fname cap max (at_ (CTake i))).
Proof.
  intros Hs (Hsb & Hi & Ht). unfold client_step, in_call_of. simpl.
  destruct (in_call th1) as [c|] eqn:Hic.
  - rewrite Hsb. intros r He.
    pose proof He as Hx. eapply queue_action_inv in Hx as [c' Hx]; [|done|done].
    destruct (step_take _ _ _ _ _ _ Hq Ht ltac:(congruence) Hx)
      as (qu' & th1' & -> & Hq' & Ht' & Hpl & Hcw).
    erewrite queue_action_ok in He; [|done|done|exact Hx]. revert r He.
    apply kept_during; [done|simpl; by rewrite Hpl| |work_lia].
    by repeat split; try apply Hi; try apply Ht'.
  - destruct Ht as [Ha Ht]. rewrite Hic in Ht. destruct Ht as [Hl Hcs].
    apply kept_during; [done|done| |work_lia; rewrite call_work_none by done; lia].
    cbn [client_ok c_sbq c_checksum].
    replace (Z.to_nat (i + 1)) with (S (Z.to_nat i)) by lia.
    repeat split; done || lia.
Qed.

Lemma client_kept cp :
  sok cp → cok cp → kept (work (at_ cp)) (client_step sz fname cap max (at_ cp)).
Proof.
  intros Hs Hc. destruct cp as [| | | | |i|i| | | | |]; try done.
  - destruct Hc as [Hre Htl]. unfold client_step, shm_call. simpl. rewrite connect_ok.
    apply kept_during; [done| |by repeat split; try apply Hre|destruct p; work_lia].
    by eapply server_ok_rank; [exact Hs|simpl; lia|simpl; lia|..].
  - apply kept_during; [done|eapply server_ok_connect; exact Hs|done|destruct p; work_lia].
  - apply kept_during; [done|eapply server_ok_max; exact Hs|done|destruct p; work_lia].
  - destruct Hc as (Hsb & Hre & Htl). apply kept_during;
      [done|eapply server_ok_name; exact Hs| |destruct p; work_lia].
    rewrite Htl. simpl. repeat split; try apply Hre; done || lia.
  - by apply client_test_kept.
  - by apply client_take_kept.
  - unfold client_step. simpl. destruct tc as [|x tc'] eqn:Htc.
    { by destruct p. }
    destruct (server_ok_end _ _ _ _ _ _ _ _ Hs) as (_ & _ & _ & Hs'); [by left|].
    apply kept_during; [done|apply Hs'; simpl; lia|done|destruct p; work_lia].
  - destruct (server_ok_end _ _ _ _ _ _ _ _ Hs) as (_ & _ & _ & Hs'); [right; simpl; lia|].
    unfold client_step, shm_call. simpl.
    apply kept_during; [done|apply Hs'; simpl; lia|done|destruct p; work_lia].
  - destruct (server_ok_end _ _ _ _ _ _ _ _ Hs) as (Hp & Hpe & Hsv & _); [right; simpl; lia|].
    unfold client_step, shm_call. simpl. rewrite destroy_ok
      by (intros m; by apply (resting_unlocked qu th0 th1 m Hq); [apply Hsv|apply Hc]).
    intros r [= <-]. eexists. split; [done|]. rewrite Hpe.
    split; [|destruct Hp as [-> | ->]; work_lia].
    apply inv_after; [done|apply Hsv|].
    simpl. destruct Hc as (_ & _ & Hl & ->). destruct Hsv as (_ & _ & _ & Hpl).
    pose proof (inv_take _ _ Hq) as Htk. simpl in Htk.
    rewrite Hpl, Hl, take_ge in Htk by (rewrite length_vals; lia).
    by rewrite Htk, sum_taken_vals.
Qed.
End client.

Lemma client_step_kept w : SysInv w → kept (work w) (client_step sz fname cap max w).
Proof.
  intros [l cl Hm Hn Hr|qu nxt th0 th1 p l cp cl ts tc pend Hq Hs Hc|
    nxt ths p l cl ts tc Hp Hs Hc]; [|by apply client_kept|done].
  destruct init_ok as [nxt Hi]. unfold client_step, shm_call. simpl. rewrite Hi.
  destruct sem_max_ok as [Hsm H63].
  intros r [= <-]. eexists. split; [done|]. split; [|work_lia].
  apply inv_during.
  - apply (inv_init (H0:=shm_laws) cap ltac:(lia) Hsm 2).
  - left. cbn [crank]. split; [split; [done|lia]|]. by repeat split.
  - by repeat split.
Qed.

(** *** Progress *)

(** The whole receipts. *)
Definition whole (a : action) : Prop :=
  match a with Server k => (4096 ≤ k)%nat | Client => True end.

#[local] Abbreviation exec := (exec sz rand fname cap max).
#[local] Abbreviation can_go w := (∃ a, whole a ∧ is_Some (exec a w)).

Lemma server_goes w : is_Some (server_step rand 4096 w) → can_go w.
Proof. exists (Server 4096). split; [simpl; lia|done]. Qed.

Lemma client_goes w : is_Some (client_step sz fname cap max w) → can_go w.
Proof. by exists Client. Qed.

(** A call that cannot go on waits for the other process. *)
Lemma both_blocked qu th0 th1 t th :
  Inv (System qu [th0; th1]) → alive th0 = true → alive th1 = true →
  BlockingQueue.exec (Step 0) (System qu [th0; th1]) = None →
  BlockingQueue.exec (Step 1) (System qu [th0; th1]) = None →
  [th0; th1] !! t = Some th → in_call th ≠ None →
  (waits_on Space th ∧ Z.of_nat (length (contents qu)) = cap) ∨
  (waits_on Element th ∧ contents qu = []).
Proof.
  destruct sem_max_ok as [Hsm H63]. intros Hinv Ha0 Ha1 H0 H1 Ht Hc.
  assert (alive th = true) as Ha.
  { destruct t as [|[|t]]; simpl in Ht; [by simplify_eq..|by rewrite lookup_nil in Ht]. }
  assert (deaths (System qu [th0; th1]) = 0%nat) as Hd.
  { unfold deaths, died_in_call. simpl. rewrite Ha0, Ha1. by destruct (in_call th0), (in_call th1). }
  destruct (stuck_bound (H0:=shm_laws) cap ltac:(lia) Hsm H63 _ t th Hinv) as [[Hw Hl]|[Hw Hl]];
    [|done|done|rewrite Hd in Hl; simpl in Hl..].
  - intros [|[|t']] c'; [by rewrite H0|by rewrite H1|done].
  - left. split; [done|lia].
  - right. split; [done|]. apply nil_length_inv. lia.
Qed.

(** The server goes on, or is between two connections, or blocked in a put. *)
Lemma server_progress qu nxt th0 th1 p l cp cl ts tc pend :
  Inv (System qu [th0; th1]) → server_ok p l (crank cp) ts tc pend th0 (put_log qu) →
  (5 ≤ crank cp)%nat →
  can_go (during qu nxt th0 th1 p l cp cl ts tc pend) ∨
  ((∃ i, p = SPut i ∧ in_call th0 ≠ None ∧ 0 ≤ i < max ∧ putting (Z.to_nat i) th0 (put_log qu)) ∨
   p = SAccept ∧ in_call th0 = None ∧ put_log qu = vals (Z.to_nat max) ∧
     (tc = [] → (7 ≤ crank cp)%nat)) ∧
  BlockingQueue.exec (Step 0) (System qu [th0; th1]) = None.
Proof.
  intros Hq Hs H5. destruct p as [| | | |i|i| | | |]; try done; try (left; apply server_goes; by eexists).
  - destruct Hs as [(He & Hf & Hl & Hts & Hp)|(_ & Hp & Htc & Hsv)].
    + left. apply server_goes. rewrite (proj2 (Nat.leb_le 3 _)) in Hp by lia. subst pend. by eexists.
    + right. destruct Hsv as (_ & _ & [Ha Hc] & Hpl). split; [by right|].
      simpl. destruct th0 as [c k r a]. simpl in Hc. by subst c.
  - left. apply server_goes. destruct Hs as (_ & _ & _ & _ & Hts & _).
    unfold sent in Hts. rewrite (proj2 (Nat.leb_le 4 _)) in Hts by lia. subst ts. by eexists.
  - left. apply server_goes. destruct Hs as (_ & _ & _ & _ & Hts & _).
    unfold sent in Hts. rewrite (proj2 (Nat.leb_le 4 _)), (proj2 (Nat.leb_le 5 _)) in Hts by lia.
    simpl in Hts. destruct (name_bytes fname) as [|x nm]; [simpl in Hlen; lia|].
    subst ts. by eexists.
  - left. apply server_goes. destruct Hs as (_ & Hsn & _). unfold server_step. simpl.
    rewrite Hsn, recv_name. by eexists.
  - left. apply server_goes. destruct Hs as ((_ & _ & _ & _ & _ & Hsb & Hra & _) & Hi & Hre & Hpl).
    unfold server_step. cbn [server sloc during]. case_match; [|by eexists].
    rewrite Hsb, Hra.
    destruct (start_put (Z.to_nat i) qu th0 th1 Hq Hre Hpl) as (th0' & Hx & _).
    erewrite queue_action_ok; [by eexists|done|done|exact Hx].
  - destruct Hs as ((_ & _ & _ & _ & _ & Hsb & _) & Hi & Hpt).
    destruct (BlockingQueue.exec (Step 0) (System qu [th0; th1])) as [c'|] eqn:Hx.
    + left. apply server_goes. unfold server_step, in_call_of. simpl.
      destruct (in_call th0) eqn:Hc; [|by eexists]. rewrite Hsb.
      destruct (step_put _ _ _ _ _ Hq Hpt ltac:(congruence) Hx) as (qu' & th0' & -> & _).
      erewrite queue_action_ok; [by eexists|done|done|exact Hx].
    + destruct (in_call th0) eqn:Hc.
      * right. split; [|done]. left. by exists i.
      * left. apply server_goes. unfold server_step, in_call_of. simpl. rewrite Hc. by eexists.
Qed.

Lemma length_contents qu th0 th1 :
  Inv (System qu [th0; th1]) →
  Z.of_nat (length (contents qu)) =
    Z.of_nat (length (put_log qu)) - Z.of_nat (length (take_log qu)).
Proof.
  exact (contents_length cap (System qu [th0; th1])).
Qed.

(** A take that cannot go on, while the server cannot. *)
Lemma take_progress qu nxt th0 th1 p l i cl ts tc pend :
  Inv (System qu [th0; th1]) → server_ok p l 5 ts tc pend th0 (put_log qu) →
  client_ok (CTake i) cl th1 (take_log qu) →
  can_go (during qu nxt th0 th1 p l (CTake i) cl ts tc pend).
Proof.
  intros Hq Hs Hc.
  destruct (server_progress qu nxt th0 th1 p l (CTake i) cl ts tc pend Hq Hs)
    as [Hgo|[Hsv H0]]; [simpl; lia|exact Hgo|].
  destruct Hc as (Hsb & Hi & Ht).
  destruct (in_call th1) as [c|] eqn:Hic.
  2: { apply client_goes. unfold client_step, in_call_of. simpl. rewrite Hic. by eexists. }
  destruct (BlockingQueue.exec (Step 1) (System qu [th0; th1])) as [c'|] eqn:H1.
  { apply client_goes. unfold client_step, in_call_of. simpl. rewrite Hic, Hsb.
    destruct (step_take _ _ _ _ _ _ Hq Ht ltac:(congruence) H1) as (qu' & th1' & -> & _).
    erewrite queue_action_ok; [by eexists|done|done|exact H1]. }
  exfalso. pose proof Ht as [Ha1 Htl]. rewrite Hic in Htl. destruct c as [e|]; [done|].
  assert (alive th0 = true) as Ha0.
  { destruct Hsv as [(j & -> & _ & _ & Hp)|(-> & _)]; [apply Hp|].
    destruct Hs as [(_ & Hf & _)|(_ & _ & _ & Hsv)]; [apply Hf|apply Hsv]. }
  pose proof (both_blocked qu th0 th1) as Hbl.
  destruct (Hbl 1%nat th1) as [[[_ [e He]] _]|[[Hpc _] Hempty]]; [done..|congruence|congruence|].
  rewrite Hpc in Htl. simpl in Htl. destruct Htl as [Htl _].
  destruct Hsv as [(j & -> & Hc0 & Hj & Hp)|(-> & Hc0 & Hpl & _)].
  - destruct (Hbl 0%nat th0) as [[_ Hfull]|[[_ Hw] _]]; [done..| |].
    + rewrite Hempty in Hfull. simpl in Hfull. lia.
    + destruct Hp as [_ Hp]. rewrite Hw in Hp. by destruct Hp.
  - pose proof (length_contents _ _ _ Hq) as Hl. rewrite Hempty, Hpl, length_vals in Hl.
    simpl in Hl. lia.
Qed.

(** The client waits for the final message only while the server goes on. *)
Lemma recv_end_progress qu nxt th0 th1 p l cl ts tc pend :
  Inv (System qu [th0; th1]) → server_ok p l 6 ts tc pend th0 (put_log qu) →
  client_ok CRecvEnd cl th1 (take_log qu) →
  can_go (during qu nxt th0 th1 p l CRecvEnd cl ts tc pend).
Proof.
  intros Hq Hs Hc. destruct tc as [|x tc]; [|apply client_goes; by eexists].
  destruct (server_progress qu nxt th0 th1 p l CRecvEnd cl ts [] pend Hq Hs)
    as [Hgo|[Hsv H0]]; [simpl; lia|exact Hgo|].
  exfalso. destruct Hc as (Hsb & [Ha1 Hic] & Htl & _).
  destruct Hsv as [(j & -> & Hc0 & Hj & [Ha0 Hp])|(-> & _ & _ & H7)];
    [|specialize (H7 eq_refl); simpl in H7; lia].
  pose proof (both_blocked qu th0 th1 0 th0 Hq Ha0 Ha1 H0) as Hbl.
  destruct Hbl as [[_ Hfull]|[[_ Hw] _]]; [|done|done| |].
  - destruct th1 as [c k r a]. simpl in Hic. by subst c.
  - pose proof (length_contents _ _ _ Hq) as Hl. destruct (in_call th0) as [c|]; [|done].
    destruct Hp as [_ Hp]. rewrite Hp, length_vals, Htl in Hl. case_match; lia.
  - rewrite Hw in Hp. by destruct Hp.
Qed.

Lemma progress w : SysInv w → work w ≠ 0%nat → can_go w.
Proof.
  intros [l cl Hm Hn Hr|qu nxt th0 th1 p l cp cl ts tc pend Hq Hs Hc|
    nxt ths p l cl ts tc Hp _ _] Hw.
  - apply client_goes. unfold client_step, shm_call. by eexists.
  - destruct cp as [| | | | |i|i| | | | |]; try done; try (apply client_goes; by eexists).
    + apply client_goes. destruct Hc as (Hsb & Hi & Hre & Hl & _).
      unfold client_step. simpl. case_match; [|by eexists]. rewrite Hsb.
      destruct (start_take (Z.to_nat i) qu th0 th1 Hq Hre Hl) as (th1' & Hx & _).
      erewrite queue_action_ok; [by eexists|done|done|exact Hx].
    + by apply take_progress.
    + by apply recv_end_progress.
  - destruct Hp as [-> | ->]; [apply server_goes; by eexists|done].
Qed.

Lemma step_kept a w : whole a → SysInv w → kept (work w) (exec a w).
Proof. destruct a; [apply server_step_kept|intros _; apply client_step_kept]. Qed.

Lemma run_kept acts w r :
  Forall whole acts → SysInv w → run sz rand fname cap max acts w = Some r →
  ∃ w', r = Ok w' ∧ SysInv w' ∧ (length acts + work w' = work w)%nat.
Proof.
  intros Hacts. revert w. induction Hacts as [|a acts Ha _ IH]; intros w Hw Hr; simpl in Hr |- *.
  { injection Hr as <-. eauto. }
  destruct (exec a w) as [r1|] eqn:Hx; [|done].
  destruct (step_kept a w Ha Hw r1 Hx) as (w1 & -> & Hw1 & Hn).
  destruct (IH w1 Hw1 Hr) as (w' & -> & Hw' & Hl). exists w'. split; [done|]. split; [done|]. lia.
Qed.

(** Where there is nothing left to do, everything has arrived. *)
Lemma all_done w :
  SysInv w → work w = 0%nat →
  client w = CDone ∧ server w = SAccept ∧ names (mem w) = ∅ ∧ objects (mem w) = ∅ ∧
  c_checksum (cloc w) = sum_of (Z.to_nat max) ∧ s_checksum (sloc w) = sum_of (Z.to_nat max).
Proof.
  intros [l cl Hm Hn Hr|qu nxt th0 th1 p l cp cl ts tc pend Hq Hs Hc|
    nxt ths p l cl ts tc Hp Hsc Hcc] Hw; unfold work, client_work, loop_work in Hw; simpl in Hw.
  - lia.
  - exfalso. destruct cp; simpl in Hw; try lia; done.
  - by destruct Hp as [-> | ->].
Qed.
End proofs.

(** ** The properties *)

(** C18: [server.c] with [client.c]: whatever the order of their steps, down to
    the instructions of [put] and [take], and provided that each [recv] gets
    what was sent and that the server's array has a NUL behind the name, no
    step faults, no process exits on an error, the two are never stuck, and
    after exactly [16 max + 17] steps the client has ended, the server waits
    for the next connection, the shared-memory object is gone, and both have
    the checksum of the first [max] values of [rand]. *)
Theorem stream_works sz rand fname cap max m0 name0 acts r :
  0 ≤ sz → 0 < cap ≤ SEM_VALUE_MAX → sz + 8 * cap < 2 ^ 64 → 0 ≤ max ≤ INT_MAX →
  (∀ i, INT_MIN ≤ rand i ≤ INT_MAX) →
  (0 ∉ name_bytes fname) → (0 < length (name_bytes fname) < 4096)%nat →
  length m0 = 4%nat → name0 !! length (name_bytes fname) = Some 0 →
  Forall whole acts →
  run sz rand fname cap max acts (start m0 name0) = Some r →
  let steps := (16 * Z.to_nat max + 17)%nat in
  let checksum := (server_loop (map rand (seq 0 (Z.to_nat max))) 0).2 in
  ∃ w, r = Ok w ∧ (length acts ≤ steps)%nat ∧
    ((length acts < steps)%nat → ∃ a, whole a ∧ is_Some (exec sz rand fname cap max a w)) ∧
    (length acts = steps →
      client w = CDone ∧ server w = SAccept ∧ names (mem w) = ∅ ∧ objects (mem w) = ∅ ∧
      c_checksum (cloc w) = checksum ∧ s_checksum (sloc w) = checksum).
Proof.
  intros Hsz Hcap Hb Hmax Hrand Hname Hlen Hm0 Hnul Hacts Hr steps checksum.
  assert (SysInv rand fname cap max name0 (start m0 name0)) as Hstart by by apply inv_before.
  apply (run_kept sz rand fname cap max name0) in Hr as (w & -> & Hinv & Hwork); try done.
  replace (work max (start m0 name0)) with steps in Hwork
    by (unfold steps, work, loop_work, start; cbn; unfold loop_work; lia).
  exists w. split; [done|]. split; [lia|]. split; intros Hl.
  - apply (progress sz rand fname cap max name0); try done. lia.
  - apply (all_done rand fname cap max name0); [done|done|lia].
Qed.

(** One integer through one slot; the client waits for it. *)
Definition stream_actions : list action :=
  replicate 6 Client ++ replicate 16 (Server 4096) ++ replicate 11 Client.

Lemma stream_works_witness :
  let first := start [9; 9; 9; 9] (replicate 12 0) in
  ∃ r, run 168 (λ _, 7) SHM_FNAME 1 1 stream_actions first = Some r ∧
  ∃ w, r = Ok w ∧ (length stream_actions ≤ 33)%nat ∧
    ((length stream_actions < 33)%nat →
       ∃ a, whole a ∧ is_Some (exec 168 (λ _, 7) SHM_FNAME 1 1 a w)) ∧
    (length stream_actions = 33%nat →
      client w = CDone ∧ server w = SAccept ∧ names (mem w) = ∅ ∧ objects (mem w) = ∅ ∧
      c_checksum (cloc w) = 7 ∧ s_checksum (sloc w) = 7).
Proof.
  intros first. eexists. split; [vm_compute; reflexivity|].
  apply (stream_works 168 (λ _, 7) SHM_FNAME 1 1 [9; 9; 9; 9] (replicate 12 0) stream_actions);
    try (by vm_compute).
  - refine (bool_decide_unpack _ _). by vm_compute.
  - split; vm_compute; lia.
  - unfold stream_actions. rewrite !Forall_app.
    repeat split; apply Forall_replicate; simpl; lia.
Defined.

(** The client sends the name without its NUL.  When the array holds something
    else behind it, the server looks for a longer name, which no object has,
    and exits; it has put nothing. *)
Theorem unterminated_name_exits rand fname name0 more k w id :
  (0 ∉ name_bytes fname) →
  shm_fname (sloc w) = overwrite name0 (name_bytes fname) →
  c_string (drop (length (name_bytes fname)) name0) = Some more → more ≠ [] →
  (∀ c, c ∈ more → 0 ≤ c < 256) →
  server w = SConnect → names (mem w) = {[fname := id]} →
  server_step rand k w =
    Some (Ok (World (mem w) (threads w) SGone (sloc w) (client w) (cloc w)
                (to_server w) (to_client w) (pending w))).
Proof.
  intros Hnul Hsn Hmore Hne Hrange Hp Hn. unfold server_step. rewrite Hp, Hsn.
  destruct more as [|c more]; [done|]. unfold overwrite.
  destruct (drop (length (name_bytes fname)) name0) as [|c' rest]; [done|]. simpl in Hmore.
  rewrite c_string_app by done. destruct (c' =? 0); [done|].
  apply fmap_Some in Hmore as (more' & Hrest & [= <- <-]). rewrite Hrest. simpl.
  unfold shm_call, shm_blocking_queue_connect, exit_err_on, object_at, mbind, comp_bind. simpl.
  rewrite Hn, lookup_singleton_ne; [done|].
  intros Heq. apply (f_equal name_bytes) in Heq. rewrite name_bytes_roundtrip in Heq.
  - apply (f_equal length) in Heq. rewrite length_app in Heq. simpl in Heq. lia.
  - intros x [Hx|Hx]%elem_of_app; [by eapply name_bytes_range|by apply Hrange].
Qed.

(** The constants of [client.c] are in the ranges of [stream_works]. *)
Lemma main_in_range sz :
  0 ≤ sz < 2 ^ 32 →
  0 < capacity ≤ SEM_VALUE_MAX ∧ sz + 8 * capacity < 2 ^ 64 ∧ max = 2 ^ 18 ∧
  (0 ∉ name_bytes SHM_FNAME) ∧ length (name_bytes SHM_FNAME) = 11%nat.
Proof.
  intros Hsz. split; [by vm_compute|]. split; [unfold capacity; lia|]. split; [done|].
  split; [|done]. refine (bool_decide_unpack _ _). by vm_compute.
Qed.
