(* ===== verification/ForkJoin.v ===== *)
(** Fork-join programs on shared memory, for the multi-threaded merge sort:
    trees of loads, stores and pairs of threads that run at once and are then
    joined.  A step of a program is a step of any one of its threads.  The
    proof rules [wp] give each of two threads its own part of the memory;
    [wp_step] and [wp_progress] show that they hold of every interleaving, and
    [all_terminate] that every execution ends. *)
From S2P Require Import Prelude.
#[local] Open Scope Z_scope.

Abbreviation memory := (gmap Z Z).

(** [Par p q k] runs [p] and [q] at once and, when both are done, [k]. *)
Inductive prog :=
  | Done (r : Z)
  | Load (i : Z) (k : Z → prog)
  | Store (i v : Z) (k : prog)
  | Par (p q k : prog)
  | Crash (f : fault).

(** A step of some thread.  An access out of the memory has no step. *)
Inductive step : prog → memory → prog → memory → Prop :=
  | step_load i k m v : m !! i = Some v → step (Load i k) m (k v) m
  | step_store i v k m : is_Some (m !! i) → step (Store i v k) m k (<[i := v]> m)
  | step_par_l p q k m p' m' : step p m p' m' → step (Par p q k) m (Par p' q k) m'
  | step_par_r p q k m q' m' : step q m q' m' → step (Par p q k) m (Par p q' k) m'
  | step_join r1 r2 k m : step (Par (Done r1) (Done r2) k) m k m.

Definition is_done (p : prog) : option Z := match p with Done r => Some r | _ => None end.

(** [steps p m p' m']: an execution, of any interleaving. *)
Definition steps (p : prog) (m : memory) (p' : prog) (m' : memory) : Prop :=
  rtc (λ c c' : prog * memory, step c.1 c.2 c'.1 c'.2) (p, m) (p', m').

(** The program always ends, never goes wrong, and [Q] holds of its result
    and the final memory. *)
Definition always_ends (p : prog) (m : memory) (Q : Z → memory → Prop) : Prop :=
  Acc (λ c' c : prog * memory, step c.1 c.2 c'.1 c'.2) (p, m) ∧
  ∀ p' m', steps p m p' m' →
    (∃ p'' m'', step p' m' p'' m'') ∨ (∃ r, p' = Done r ∧ Q r m').

(** Total correctness by parts: each of two threads works in its own part of
    the memory, and the rest is left alone while they run. *)
Fixpoint wpp (p : prog) (m : memory) (Q : Z → memory → Prop) : Prop :=
  match p with
  | Done r => Q r m
  | Load i k => ∃ v, m !! i = Some v ∧ wpp (k v) m Q
  | Store i v k => is_Some (m !! i) ∧ wpp k (<[i := v]> m) Q
  | Par p q k => ∃ m1 m2 m3 Q1 Q2,
      m = m1 ∪ (m2 ∪ m3) ∧ m1 ##ₘ m2 ∧ m1 ##ₘ m3 ∧ m2 ##ₘ m3 ∧
      wpp p m1 Q1 ∧ wpp q m2 Q2 ∧
      ∀ r1 r2 m1' m2', Q1 r1 m1' → Q2 r2 m2' → m1' ##ₘ m2' → m1' ##ₘ m3 → m2' ##ₘ m3 →
        wpp k (m1' ∪ (m2' ∪ m3)) Q
  | Crash _ => False
  end.

(** ** Proofs *)

Lemma union_swap (m1 m2 m3 : memory) : m1 ##ₘ m2 → m1 ∪ (m2 ∪ m3) = m2 ∪ (m1 ∪ m3).
Proof. intros Hd. by rewrite !(assoc_L (∪)), (map_union_comm m1 m2). Qed.

(** A step stays in the thread's part of the memory. *)
Lemma wpp_step p : ∀ m mf Q p' M', wpp p m Q → m ##ₘ mf → step p (m ∪ mf) p' M' →
  ∃ m', M' = m' ∪ mf ∧ m' ##ₘ mf ∧ wpp p' m' Q ∧ dom m' = dom m.
Proof.
  induction p as [r|i k IHk|i v k IHk|p1 IH1 p2 IH2 k IHk|f];
    intros m mf Q p' M' Hwp Hd Hst; simpl in Hwp; inversion Hst; subst.
  - destruct Hwp as (v' & Hv' & Hwp). exists m.
    rewrite (lookup_union_Some_l _ _ _ _ Hv') in *. by simplify_eq.
  - destruct Hwp as [[x Hx] Hwp]. exists (<[i := v]> m).
    rewrite <-insert_union_l. split; [done|]. split; [|split; [done|]].
    + apply map_disjoint_insert_l_2; [|done]. by eapply map_disjoint_Some_l.
    + by apply dom_insert_lookup_L.
  - destruct Hwp as (m1 & m2 & m3 & Q1 & Q2 & -> & H12 & H13 & H23 & Hw1 & Hw2 & Hk).
    apply map_disjoint_union_l in Hd as [Hd1 Hd23].
    apply map_disjoint_union_l in Hd23 as [Hd2 Hd3].
    assert (m1 ##ₘ (m2 ∪ m3) ∪ mf) as Hd' by (by rewrite !map_disjoint_union_r).
    destruct (IH1 m1 ((m2 ∪ m3) ∪ mf) Q1 p'0 M' Hw1 Hd') as (m1' & -> & Hd1' & Hw1' & Hdom).
    { by rewrite (assoc_L (∪)). }
    rewrite !map_disjoint_union_r in Hd1'. destruct Hd1' as [[? ?] ?].
    exists (m1' ∪ (m2 ∪ m3)). split; [by rewrite (assoc_L (∪))|].
    split; [by rewrite !map_disjoint_union_l|]. split; [|by rewrite !dom_union_L, Hdom].
    simpl. exists m1', m2, m3, Q1, Q2. naive_solver.
  - destruct Hwp as (m1 & m2 & m3 & Q1 & Q2 & -> & H12 & H13 & H23 & Hw1 & Hw2 & Hk).
    apply map_disjoint_union_l in Hd as [Hd1 Hd23].
    apply map_disjoint_union_l in Hd23 as [Hd2 Hd3].
    assert (m2 ##ₘ (m1 ∪ m3) ∪ mf) as Hd' by (rewrite !map_disjoint_union_r; auto).
    destruct (IH2 m2 ((m1 ∪ m3) ∪ mf) Q2 q' M' Hw2 Hd') as (m2' & -> & Hd2' & Hw2' & Hdom).
    { rewrite <-!(assoc_L (∪)) in *. by rewrite <-union_swap. }
    rewrite !map_disjoint_union_r in Hd2'. destruct Hd2' as [[? ?] ?].
    exists (m1 ∪ (m2' ∪ m3)). split.
    { rewrite <-!(assoc_L (∪)). by apply union_swap. }
    split; [by rewrite !map_disjoint_union_l|]. split; [|by rewrite !dom_union_L, Hdom].
    simpl. exists m1, m2', m3, Q1, Q2. naive_solver.
  - destruct Hwp as (m1 & m2 & m3 & Q1 & Q2 & -> & H12 & H13 & H23 & Hw1 & Hw2 & Hk).
    exists (m1 ∪ (m2 ∪ m3)). simpl in Hw1, Hw2. split; [done|]. split; [done|]. split; [|done].
    by eapply Hk.
Qed.

Lemma wpp_progress p : ∀ m mf Q, wpp p m Q → m ##ₘ mf →
  (∃ p' M', step p (m ∪ mf) p' M') ∨ ∃ r, p = Done r ∧ Q r m.
Proof.
  induction p as [r|i k IHk|i v k IHk|p1 IH1 p2 IH2 k IHk|f]; intros m mf Q Hwp Hd; simpl in Hwp.
  - right. by exists r.
  - left. destruct Hwp as (v & Hv & _). exists (k v), (m ∪ mf). constructor.
    by apply lookup_union_Some_l.
  - left. destruct Hwp as [[x Hx] _]. do 2 eexists. constructor.
    exists x. by apply lookup_union_Some_l.
  - left. destruct Hwp as (m1 & m2 & m3 & Q1 & Q2 & -> & H12 & H13 & H23 & Hw1 & Hw2 & Hk).
    apply map_disjoint_union_l in Hd as [Hd1 Hd23].
    apply map_disjoint_union_l in Hd23 as [Hd2 Hd3].
    destruct (IH1 m1 ((m2 ∪ m3) ∪ mf) Q1 Hw1) as [(p' & M' & Hst)|(r1 & -> & _)].
    { by rewrite !map_disjoint_union_r. }
    { do 2 eexists. apply step_par_l. by rewrite <-(assoc_L (∪)). }
    destruct (IH2 m2 ((m1 ∪ m3) ∪ mf) Q2 Hw2) as [(p' & M' & Hst)|(r2 & -> & _)].
    { rewrite !map_disjoint_union_r. auto. }
    { do 2 eexists. apply step_par_r.
      rewrite <-!(assoc_L (∪)) in *. by rewrite union_swap. }
    do 2 eexists. apply step_join.
  - done.
Qed.

(** Every execution ends: a step goes to a smaller tree. *)
Definition prog_step (p' p : prog) : Prop := ∃ m m', step p m p' m'.

Lemma prog_terminates p : Acc prog_step p.
Proof.
  induction p as [r|i k IHk|i v k IHk|p1 IH1 p2 IH2 k IHk|f];
    try (constructor; intros p' (m & m' & Hst); inversion Hst; subst; auto; fail).
  clear -IH1 IH2 IHk. revert p2 IH2. induction IH1 as [p1 _ IH1]. intros p2 IH2.
  induction IH2 as [p2 Hp2 IH2]. constructor. intros p' (m & m' & Hst).
  inversion Hst; subst; [|apply IH2; by exists m, m'|done].
  apply IH1; [by exists m, m'|by constructor].
Qed.

Lemma all_terminate p m :
  Acc (λ c' c : prog * memory, step c.1 c.2 c'.1 c'.2) (p, m).
Proof.
  revert m. induction (prog_terminates p) as [p _ IH]. intros m.
  constructor. intros [p' m'] Hst. simpl in Hst. apply IH. by exists m, m'.
Qed.

(** The rules are sound. *)
Lemma wpp_sound p m Q : wpp p m Q → always_ends p m Q.
Proof.
  intros Hwp. split; [apply all_terminate|]. intros p' m' Hst. unfold steps in Hst.
  assert (∀ c c', rtc (λ c c' : prog * memory, step c.1 c.2 c'.1 c'.2) c c' →
    wpp c.1 c.2 Q → wpp c'.1 c'.2 Q) as Hinv.
  { induction 1 as [|[p1 m1] [p2 m2] c3 H12 _ IH]; [done|]. intros Hw. apply IH. simpl in *.
    destruct (wpp_step p1 m1 ∅ Q p2 m2 Hw) as (m2' & -> & _ & Hw' & _);
      [apply map_disjoint_empty_r|by rewrite (right_id_L ∅ (∪))|].
    by rewrite (right_id_L ∅ (∪)). }
  specialize (Hinv _ _ Hst Hwp). simpl in Hinv.
  destruct (wpp_progress p' m' ∅ Q Hinv) as [(p'' & m'' & Hs)|?];
    [apply map_disjoint_empty_r| |by right].
  rewrite (right_id_L ∅ (∪)) in Hs. left. eauto.
Qed.
