(* ===== verification/MtSort.v ===== *)
(** The multi-threaded merge sort (03-threads-concurrency-and-scheduling/
    02-multi-threaded-mergesort/mergesort.c): a fork-join program on the array
    of ints, in which [sort] forks a thread for the left part, sorts the right
    part itself, joins and merges.  The continuation [k] of each function is
    what its thread does next.  The buffer of [merge] is private to its thread
    and is a list.  Which processors there are, and which calls of [malloc] and
    [pthread_create] fail, is up to the system the program runs on. *)
From S2P Require Import Prelude ForkJoin IntArray.
#[local] Open Scope Z_scope.

(** ** The program *)

(** The processors the threads may run on; whether [malloc] fails for a size
    and [pthread_create] for a thread that sorts for that many. *)
Record platform := Platform {
  cpus : list bool; malloc_fails : Z → bool; create_fails : Z → bool
}.

(** The first loop of [merge], with [cnt] iterations left: [x] is the part of
    the buffer that is written. *)
Fixpoint merge_copy (cnt : nat) (arr n border left right : Z) (x : list Z)
    (k : list Z → prog) : prog :=
  match cnt with
  | O => k x
  | S cnt =>
      let from_left := Load (arr + left) (λ v,
        merge_copy cnt arr n border (left + 1) right (x ++ [v]) k) in
      let from_right := Load (arr + right) (λ v,
        merge_copy cnt arr n border left (right + 1) (x ++ [v]) k) in
      if right =? n then from_left
      else if left =? border then from_right
      else Load (arr + right) (λ r, Load (arr + left) (λ l,
             if r <? l then from_right else from_left))
  end.

(** The second loop: [arr[i] = x[i]]. *)
Fixpoint merge_back (arr i : Z) (x : list Z) (k : prog) : prog :=
  match x with
  | [] => k
  | v :: x => Store (arr + i) v (merge_back arr (i + 1) x k)
  end.

(** The result of [malloc] is not checked; [n] is not 0, so the first store
    to the buffer follows. *)
Definition merge (os : platform) (arr n border : Z) (k : prog) : prog :=
  if malloc_fails os (u64 (n * 4)) then Crash NullDeref else
  merge_copy (Z.to_nat n) arr n border 0 border [] (λ x, merge_back arr 0 x k).

(** [struct context]; the count is an [int]. *)
Record context := Context { ctx_arr : Z; ctx_n : Z; ctx_cupno : Z }.

(** The loop of [mt_sort] that picks a processor out of [set], with [mod]
    counting down at every processor. *)
Fixpoint pick_cpu (set : list bool) (cupno mod_ : Z) : Z :=
  match set with
  | [] => cupno
  | b :: set => if b && (mod_ =? 0) then cupno else pick_cpu set (cupno + 1) (u64 (mod_ - 1))
  end.

Definition cpu_count (set : list bool) : Z := Z.of_nat (length (filter Is_true set)).

(** [ctx->n = n] converts a [size_t] to an [int]. *)
Definition mt_context (set : list bool) (arr n tcnt : Z) : context :=
  Context arr (i32 n) (pick_cpu set 0 (tcnt mod cpu_count set)).

(** [CPU_ISSET] does not set anything: the set that [routine] asks for is
    empty, and [pthread_setaffinity_np] fails. *)
Definition affinity (ctx : context) (set : list bool) : list bool := map (λ _, false) set.

Section sort.
Context (os : platform).

(** [fuel] bounds the depth of the recursion; [sort ctx->arr ctx->n] in
    [routine] converts the [int] back to a [size_t].  When [pthread_create]
    fails, [mt_sort] returns a [tid] that was never set. *)
Fixpoint sort (fuel : nat) (arr n tcnt : Z) (k : prog) : prog :=
  match fuel with
  | O => Crash AssertFail
  | S fuel =>
      if n <? 2 then k else
      let border := if 2 <? tcnt then n / tcnt else Z.shiftr n 1 in
      let rest := sort fuel (arr + border) (n - border) (if 2 <? tcnt then tcnt - 1 else 1) in
      if 1 <? tcnt then
        if malloc_fails os 16 then Crash NullDeref else
        if cpu_count (cpus os) =? 0 then Crash DivByZero else
        let ctx := mt_context (cpus os) arr border tcnt in
        if create_fails os tcnt then Crash UninitRead else
        Par (sort fuel (ctx_arr ctx) (u64 (ctx_n ctx)) 1 (Done 0)) (rest (Done 0))
            (merge os arr n border k)
      else sort fuel arr border 1 (rest (merge os arr n border k))
  end.

Definition sort_fuel (n tcnt : Z) : nat := S (Z.to_nat n + Z.to_nat tcnt).

(** [for (int i = 0; i < n; i++) arr[i] = rand();] *)
Fixpoint fill (rands : list Z) (arr i : Z) (k : prog) : prog :=
  match rands with
  | [] => k
  | v :: rands => Store (arr + i) v (fill rands arr (i + 1) k)
  end.

(** The check of [main]: it returns 1 at the first pair out of order. *)
Fixpoint check (cnt : nat) (arr i : Z) : prog :=
  match cnt with
  | O => Done 0
  | S cnt => Load (arr + i) (λ a, Load (arr + (i + 1)) (λ b,
               if b <? a then Done 1 else check cnt arr (i + 1)))
  end.

(** [main] on the array at address [arr], with the numbers that [rand] gives;
    the file has [n = 1 << 24] of them. *)
Definition main (arr : Z) (rands : list Z) : prog :=
  let n := Z.of_nat (length rands) in
  if malloc_fails os (u64 (n * 4)) then Crash NullDeref else
  fill rands arr 0 (sort (sort_fuel n 4) arr n 4 (check (Nat.pred (length rands)) arr 0)).

(** The earlier version ([old/merge_sort_multi.c]) differs in [main]: it asks
    for zeros, sorts [LEN] numbers by 8 threads, and asserts the order. *)
Definition LEN : Z := 0xfffffff.

Fixpoint check_asserts (cnt : nat) (arr i : Z) : prog :=
  match cnt with
  | O => Done 0
  | S cnt => Load (arr + (i - 1)) (λ a, Load (arr + i) (λ b,
               if a <=? b then check_asserts cnt arr (i + 1) else Crash AssertFail))
  end.

Definition main_multi (arr : Z) (rands : list Z) : prog :=
  let n := Z.of_nat (length rands) in
  if malloc_fails os (u64 (n * 4)) then Crash AssertFail else
  fill rands arr 0 (sort (sort_fuel n 8) arr n 8
                      (check_asserts (Nat.pred (length rands)) arr 1)).
End sort.

(** ** Specification *)

(** A system on which there is a processor and no call fails. *)
Definition sound (os : platform) : Prop :=
  0 < cpu_count (cpus os) ∧ (∀ z, malloc_fails os z = false) ∧ (∀ t, create_fails os t = false).

Definition processors (cpus : list bool) : platform := Platform cpus (λ _, false) (λ _, false).

(** The merge of two lists: the head of the first on ties. *)
#[local] Abbreviation mrg := (IntArray.mrg (λ x y, negb (y <? x))).

(** ** Proofs *)

(** The array [l] at address [a], and the rest [mf] of the memory. *)
Definition at_ (a : Z) (l : list Z) (mf : memory) : memory := map_seqZ a l ∪ mf.

Lemma wpp_load a l mf i x k Q :
  l !! i = Some x → wpp (k x) (at_ a l mf) Q →
  wpp (Load (a + Z.of_nat i) k) (at_ a l mf) Q.
Proof.
  intros Hx HQ. simpl. exists x. split; [|done].
  by apply lookup_union_Some_l, lookup_map_seqZ_Some_inv.
Qed.

Lemma wpp_store a l mf i v k Q :
  (i < length l)%nat → wpp k (at_ a (<[i := v]> l) mf) Q →
  wpp (Store (a + Z.of_nat i) v k) (at_ a l mf) Q.
Proof.
  intros Hi HQ. simpl. split.
  - apply lookup_union_is_Some. left. apply lookup_map_seqZ_is_Some. lia.
  - unfold at_. rewrite insert_union_l, <-map_seqZ_insert by done. done.
Qed.

(** The copying loop computes the merge of the two parts. *)
Lemma wpp_merge_copy a l mf k Q cnt : ∀ (b i j : nat) x,
  (i ≤ b ≤ j)%nat → (j ≤ length l)%nat → cnt = ((b - i) + (length l - j))%nat →
  wpp (k (x ++ mrg (slice i b l) (slice j (length l) l))) (at_ a l mf) Q →
  wpp (merge_copy cnt a (Z.of_nat (length l)) (Z.of_nat b) (Z.of_nat i) (Z.of_nat j) x k)
      (at_ a l mf) Q.
Proof.
  induction cnt as [|cnt IH]; intros b i j x Hi Hj Hcnt HQ; cbn [merge_copy].
  { rewrite !slice_nil, mrg_nil_l, app_nil_r in HQ by lia. done. }
  assert (∀ v, (i < b)%nat → l !! i = Some v →
    mrg (slice i b l) (slice j (length l) l) =
      v :: mrg (slice (S i) b l) (slice j (length l) l) →
    wpp (Load (a + Z.of_nat i) (λ v, merge_copy cnt a (Z.of_nat (length l)) (Z.of_nat b)
           (Z.of_nat i + 1) (Z.of_nat j) (x ++ [v]) k)) (at_ a l mf) Q) as Hleft.
  { intros v Hib Hv Hm. eapply wpp_load; [done|]. rewrite Z.add_1_r, <-Nat2Z.inj_succ.
    apply IH; [lia|lia|lia|]. rewrite Hm in HQ. by rewrite <-app_assoc. }
  assert (∀ v, (j < length l)%nat → l !! j = Some v →
    mrg (slice i b l) (slice j (length l) l) =
      v :: mrg (slice i b l) (slice (S j) (length l) l) →
    wpp (Load (a + Z.of_nat j) (λ v, merge_copy cnt a (Z.of_nat (length l)) (Z.of_nat b)
           (Z.of_nat i) (Z.of_nat j + 1) (x ++ [v]) k)) (at_ a l mf) Q) as Hright.
  { intros v Hjl Hv Hm. eapply wpp_load; [done|]. rewrite Z.add_1_r, <-Nat2Z.inj_succ.
    apply IH; [lia|lia|lia|]. rewrite Hm in HQ. by rewrite <-app_assoc. }
  destruct (Z.eqb_spec (Z.of_nat j) (Z.of_nat (length l))) as [Hjn|Hjn].
  { destruct (lookup_lt_is_Some_2 l i ltac:(lia)) as [v Hv]. apply (Hleft v); [lia|done|].
    by rewrite (slice_nil j), !mrg_nil_r, (slice_cons _ _ _ v) by (done || lia). }
  destruct (lookup_lt_is_Some_2 l j ltac:(lia)) as [y Hy].
  destruct (Z.eqb_spec (Z.of_nat i) (Z.of_nat b)) as [Hib|Hib].
  { apply (Hright y); [lia|done|].
    by rewrite (slice_nil i), !mrg_nil_l, (slice_cons _ _ _ y) by (done || lia). }
  destruct (lookup_lt_is_Some_2 l i ltac:(lia)) as [v Hv].
  eapply wpp_load; [done|]. eapply wpp_load; [done|].
  assert (mrg (slice i b l) (slice j (length l) l) =
    if y <? v then y :: mrg (slice i b l) (slice (S j) (length l) l)
    else v :: mrg (slice (S i) b l) (slice j (length l) l)) as Hm.
  { rewrite (slice_cons i b l v), (slice_cons j _ l y), mrg_cons by (done || lia).
    cbn beta. by destruct (y <? v). }
  destruct (y <? v); [by apply (Hright y); [lia|..]|by apply (Hleft v); [lia|..]].
Qed.

Lemma wpp_merge_back a mf k Q x : ∀ p q,
  length q = length x →
  wpp k (at_ a (p ++ x) mf) Q →
  wpp (merge_back a (Z.of_nat (length p)) x k) (at_ a (p ++ q) mf) Q.
Proof.
  induction x as [|v x IH]; intros p q Hq HQ; simpl.
  { apply nil_length_inv in Hq as ->. done. }
  destruct q as [|w q]; [done|]. apply wpp_store; [rewrite length_app; simpl; lia|].
  rewrite insert_app_r_alt, Nat.sub_diag by lia. simpl.
  rewrite (cons_middle v p q), (app_assoc p [v] q).
  replace (Z.of_nat (length p) + 1) with (Z.of_nat (length (p ++ [v])))
    by (rewrite length_app; simpl; lia).
  apply IH; [by simplify_eq/=|]. by rewrite <-app_assoc.
Qed.

Lemma wpp_merge os a l1 l2 mf k Q :
  (∀ z, malloc_fails os z = false) → wpp k (at_ a (mrg l1 l2) mf) Q →
  wpp (merge os a (Z.of_nat (length (l1 ++ l2))) (Z.of_nat (length l1)) k) (at_ a (l1 ++ l2) mf) Q.
Proof.
  intros Hmem HQ. unfold merge. rewrite Hmem.
  apply (wpp_merge_copy a (l1 ++ l2) mf _ Q _ (length l1) 0 (length l1) []);
    [lia|rewrite length_app; lia|rewrite length_app; lia|].
  assert (slice 0 (length l1) (l1 ++ l2) = l1) as ->.
  { unfold slice. by rewrite Nat.sub_0_r, drop_0, take_app_length. }
  assert (slice (length l1) (length (l1 ++ l2)) (l1 ++ l2) = l2) as ->.
  { unfold slice. rewrite drop_app_length, take_ge; [done|]. rewrite length_app. lia. }
  apply (wpp_merge_back a mf k Q _ []); [|done]. by rewrite mrg_perm.
Qed.

Lemma at_app a l1 l2 mf : at_ a (l1 ++ l2) mf = at_ a l1 (at_ (a + Z.of_nat (length l1)) l2 mf).
Proof. unfold at_. by rewrite map_seqZ_app, (assoc_L (∪)). Qed.

Lemma at_app_r a l1 l2 mf :
  at_ a (l1 ++ l2) mf = at_ (a + Z.of_nat (length l1)) l2 (at_ a l1 mf).
Proof. rewrite at_app. unfold at_. apply union_swap, map_seqZ_app_disjoint. Qed.

Lemma at_empty a l : at_ a l ∅ = map_seqZ a l.
Proof. apply map_union_empty. Qed.

(** Disjointness only depends on where the arrays lie. *)
Lemma map_seqZ_disjoint_length a l l' (mf : memory) :
  length l = length l' → map_seqZ a l ##ₘ mf → map_seqZ a l' ##ₘ mf.
Proof.
  intros Hlen Hd. apply map_disjoint_spec. intros i x y Hx Hy.
  assert (is_Some (map_seqZ (M:=memory) a l !! i)) as [z Hz].
  { apply lookup_map_seqZ_is_Some. rewrite Hlen. apply (lookup_map_seqZ_is_Some (M:=gmap Z)).
    eauto. }
  by eapply (proj1 (map_disjoint_spec _ _) Hd).
Qed.

Lemma StronglySorted_short (l : list Z) : (length l < 2)%nat → StronglySorted Z.le l.
Proof. destruct l as [|x [|y l]]; simpl; [constructor|repeat constructor|lia]. Qed.

(** The border splits the array into two parts, the second shorter than the
    whole, or the threads are fewer. *)
Lemma border_split n tcnt :
  2 ≤ n → 0 < tcnt →
  let border := if 2 <? tcnt then n / tcnt else Z.shiftr n 1 in
  0 ≤ border < n ∧ (tcnt ≤ 2 → 0 < border).
Proof.
  intros Hn Ht border. subst border. rewrite Z.shiftr_div_pow2 by lia.
  destruct (Z.ltb_spec 2 tcnt).
  - assert (n / tcnt < n) by (apply Z.div_lt; lia).
    pose proof (Z.div_pos n tcnt). lia.
  - change (2 ^ 1) with 2. assert (n / 2 < n) by (apply Z.div_lt; lia).
    assert (1 ≤ n / 2) by (apply Z.div_le_lower_bound; lia). lia.
Qed.

(** [sort] leaves a sorted permutation, whatever the number of threads, and
    touches nothing else. *)
Lemma wpp_sort os fuel : sound os → ∀ a l mf tcnt k Q,
  0 < tcnt → (length l + Z.to_nat tcnt < fuel)%nat → Z.of_nat (length l) ≤ INT_MAX →
  map_seqZ a l ##ₘ mf →
  (∀ l', StronglySorted Z.le l' → l' ≡ₚ l → wpp k (at_ a l' mf) Q) →
  wpp (sort os fuel a (Z.of_nat (length l)) tcnt k) (at_ a l mf) Q.
Proof.
  intros (Hcpu & Hmem & Hcr). induction fuel as [|fuel IH]; intros a l mf tcnt k Q Ht Hfuel Hmax Hd HQ; [lia|].
  cbn [sort]. destruct (Z.ltb_spec (Z.of_nat (length l)) 2) as [Hlt|Hge].
  { apply HQ; [apply StronglySorted_short; lia|done]. }
  destruct (border_split (Z.of_nat (length l)) tcnt) as [Hb Hb1]; [lia|lia|].
  cbv zeta. set (border := if 2 <? tcnt then _ else _) in *.
  remember (if 2 <? tcnt then tcnt - 1 else 1) as tcnt' eqn:Htc.
  set (l1 := take (Z.to_nat border) l). set (l2 := drop (Z.to_nat border) l).
  assert (border = Z.of_nat (length l1)) as Hbl by (subst l1; rewrite length_take; lia).
  assert (length l2 = (length l - Z.to_nat border)%nat) as Hl2 by (subst l2; apply length_drop).
  assert (l = l1 ++ l2) as Hl by (subst l1 l2; by rewrite take_drop).
  clearbody l1 l2 border.
  assert (at_ a l mf = at_ a l1 (at_ (a + border) l2 mf)) as Hat
    by (by rewrite Hbl, <-at_app, <-Hl).
  assert (0 < tcnt' ∧ (length l2 + Z.to_nat tcnt' < fuel)%nat) as [Ht' Hf2].
  { rewrite Htc. destruct (Z.ltb_spec 2 tcnt); lia. }
  assert (map_seqZ a l1 ##ₘ mf ∧ map_seqZ (a + border) l2 ##ₘ mf) as [Hd1 Hd2].
  { rewrite Hl, map_seqZ_app in Hd. rewrite Hbl. by apply map_disjoint_union_l. }
  assert (map_seqZ (M:=memory) a l1 ##ₘ map_seqZ (a + border) l2) as Hd12.
  { rewrite Hbl. apply map_seqZ_app_disjoint. }
  assert (∀ l1' l2', StronglySorted Z.le l1' → l1' ≡ₚ l1 → StronglySorted Z.le l2' → l2' ≡ₚ l2 →
    wpp (merge os a (Z.of_nat (length l)) border k) (at_ a (l1' ++ l2') mf) Q) as Hmerge.
  { intros l1' l2' Hs1 Hp1 Hs2 Hp2. rewrite Hl, Hbl, length_app, <-Hp1, <-Hp2, <-length_app.
    apply wpp_merge; [done|]. apply HQ; [apply mrg_sorted; [intros x y; destruct (Z.ltb_spec y x); simpl; lia|done..]|]. by rewrite mrg_perm, Hp1, Hp2, <-Hl. }
  replace (Z.of_nat (length l) - border) with (Z.of_nat (length l2)) by lia.
  destruct (1 <? tcnt).
  - rewrite Hmem, Hcr, (proj2 (Z.eqb_neq _ 0)) by lia. simpl ctx_arr. simpl ctx_n. unfold INT_MAX in *.
    rewrite i32_small, u64_small by (unfold INT_MIN, INT_MAX; lia). rewrite Hbl at 1.
    exists (map_seqZ a l1), (map_seqZ (a + border) l2), mf,
      (λ _ m, ∃ l', StronglySorted Z.le l' ∧ l' ≡ₚ l1 ∧ m = map_seqZ a l'),
      (λ _ m, ∃ l', StronglySorted Z.le l' ∧ l' ≡ₚ l2 ∧ m = map_seqZ (a + border) l').
    split; [done|]. do 3 (split; [done|]).
    split; [|split].
    + rewrite <-(at_empty a l1). apply IH; [lia|lia|unfold INT_MAX; lia|apply map_disjoint_empty_r|].
      intros l' Hs Hp. simpl. rewrite at_empty. eauto.
    + rewrite <-(at_empty _ l2). apply IH; [lia|lia|unfold INT_MAX; lia|apply map_disjoint_empty_r|].
      intros l' Hs Hp. simpl. rewrite at_empty. eauto.
    + intros _ _ m1 m2 (l1' & Hs1 & Hp1 & ->) (l2' & Hs2 & Hp2 & ->) _ _ _.
      replace (_ ∪ (_ ∪ mf)) with (at_ a (l1' ++ l2') mf); [by apply Hmerge|].
      rewrite at_app, (Permutation_length Hp1), <-Hbl. done.
  - rewrite Hat. rewrite Hbl at 1.
    apply IH; [lia|lia|lia| |].
    { unfold at_. by apply map_disjoint_union_r. }
    intros l1' Hs1 Hp1. pose proof (Permutation_length Hp1) as Hl1'.
    assert (border = Z.of_nat (length l1')) as Hbl' by congruence.
    rewrite Hbl', <-at_app, at_app_r, <-Hbl'.
    apply IH; [lia|lia|lia| |].
    { unfold at_. apply map_disjoint_union_r. split; [|done].
      apply map_disjoint_sym, (map_seqZ_disjoint_length _ l1); done. }
    intros l2' Hs2 Hp2. rewrite Hbl', <-at_app_r, <-Hbl'. by apply Hmerge.
Qed.

Lemma fill_merge_back rands a k : ∀ i, fill rands a i k = merge_back a i rands k.
Proof. induction rands as [|v rands IH]; intros i; simpl; [done|]. by rewrite IH. Qed.

(** The final check passes on a sorted array. *)
Lemma wpp_check a l mf Q cnt : ∀ i,
  StronglySorted Z.le l → (cnt = Nat.pred (length l) - i)%nat → Q 0 (at_ a l mf) →
  wpp (check cnt a (Z.of_nat i)) (at_ a l mf) Q.
Proof.
  induction cnt as [|cnt IH]; intros i Hs Hcnt HQ; cbn [check]; [done|].
  destruct (lookup_lt_is_Some_2 l i ltac:(lia)) as [x Hx].
  destruct (lookup_lt_is_Some_2 l (S i) ltac:(lia)) as [y Hy].
  eapply wpp_load; [done|]. rewrite Z.add_1_r, <-Nat2Z.inj_succ.
  eapply wpp_load; [done|].
  assert (x ≤ y) by (by eapply (StronglySorted_lookup_le Z.le l i (S i)); try done; lia).
  rewrite (proj2 (Z.ltb_ge _ _)) by done. apply IH; [done|lia|done].
Qed.

Lemma wpp_check_asserts a l mf Q cnt : ∀ i,
  StronglySorted Z.le l → (cnt = Nat.pred (length l) - i)%nat → Q 0 (at_ a l mf) →
  wpp (check_asserts cnt a (Z.of_nat (S i))) (at_ a l mf) Q.
Proof.
  induction cnt as [|cnt IH]; intros i Hs Hcnt HQ; cbn [check_asserts]; [done|].
  destruct (lookup_lt_is_Some_2 l i ltac:(lia)) as [x Hx].
  destruct (lookup_lt_is_Some_2 l (S i) ltac:(lia)) as [y Hy].
  replace (Z.of_nat (S i) - 1) with (Z.of_nat i) by lia.
  eapply wpp_load; [done|]. eapply wpp_load; [done|].
  assert (x ≤ y) by (by eapply (StronglySorted_lookup_le Z.le l i (S i)); try done; lia).
  rewrite (proj2 (Z.leb_le _ _)) by done. rewrite Z.add_1_r, <-Nat2Z.inj_succ.
  apply IH; [done|lia|done].
Qed.

(** [main] up to its check, for either version. *)
Lemma wpp_fill_sort os a rands junk tcnt k Q :
  sound os → 0 < tcnt → length junk = length rands → Z.of_nat (length rands) ≤ INT_MAX →
  (∀ l, StronglySorted Z.le l → length l = length rands → wpp k (map_seqZ a l) Q) →
  wpp (fill rands a 0 (sort os (sort_fuel (Z.of_nat (length rands)) tcnt) a
                         (Z.of_nat (length rands)) tcnt k)) (map_seqZ a junk) Q.
Proof.
  intros Hos Ht Hlen Hmax HQ. rewrite <-(at_empty a junk).
  rewrite fill_merge_back. apply (wpp_merge_back a ∅ _ _ rands []); [done|]. rewrite app_nil_l.
  apply wpp_sort; [done|done|unfold sort_fuel; lia|done|apply map_disjoint_empty_r|].
  intros l' Hs Hp. rewrite at_empty. apply HQ; [done|]. by rewrite (Permutation_length Hp).
Qed.

(** The loop that picks a processor. *)
Lemma pick_cpu_far set : ∀ c m,
  Z.of_nat (length set) ≤ m < 2 ^ 64 → pick_cpu set c m = c + Z.of_nat (length set).
Proof.
  induction set as [|b set IH]; intros c m Hm; cbn [pick_cpu length] in *; [lia|].
  rewrite (proj2 (Z.eqb_neq m 0)), andb_false_r, u64_small by lia. rewrite IH by lia. lia.
Qed.

Lemma pick_cpu_near set : ∀ c j,
  Z.of_nat (length set) < 2 ^ 64 → Z.of_nat j < 2 ^ 64 →
  pick_cpu set c (Z.of_nat j) =
    if decide (set !! j = Some true) then c + Z.of_nat j else c + Z.of_nat (length set).
Proof.
  induction set as [|b set IH]; intros c [|j] Hlen Hj; cbn [pick_cpu length lookup] in *;
    try (rewrite decide_False by done; lia).
  - change (Z.of_nat 0) with 0. simpl. destruct b; cbn [andb]; [rewrite decide_True by done; lia|].
    rewrite decide_False by done. rewrite pick_cpu_far by (unfold u64; dlia). lia.
  - rewrite (proj2 (Z.eqb_neq _ 0)), andb_false_r, u64_small by lia.
    replace (Z.of_nat (S j) - 1) with (Z.of_nat j) by lia. rewrite IH by lia. simpl.
    case_decide; lia.
Qed.

(** ** The properties *)

(** C19: the multi-threaded [sort], with any number of threads and in any
    interleaving of them: it ends, no access goes outside the array, the array
    is left sorted, a permutation of what it held, and nothing else in memory
    changes. *)
Theorem sort_any_interleaving os a l mf tcnt :
  sound os → 0 < tcnt → Z.of_nat (length l) ≤ INT_MAX → map_seqZ a l ##ₘ mf →
  always_ends (sort os (sort_fuel (Z.of_nat (length l)) tcnt) a (Z.of_nat (length l)) tcnt
                 (Done 0))
    (map_seqZ a l ∪ mf)
    (λ _ m, ∃ l', StronglySorted Z.le l' ∧ l' ≡ₚ l ∧ m = map_seqZ a l' ∪ mf).
Proof.
  intros Hcpu Ht Hmax Hd. apply wpp_sound.
  apply wpp_sort; [done|done|unfold sort_fuel; lia|done|done|].
  intros l' Hs Hp. simpl. by exists l'.
Qed.

Lemma sort_any_interleaving_witness :
  always_ends (sort (processors [true; true]) (sort_fuel 5 3) 100 5 3 (Done 0))
    (map_seqZ 100 [5; 3; 9; 1; 3] ∪ {[7 := 8]})
    (λ _ m, ∃ l', StronglySorted Z.le l' ∧ l' ≡ₚ [5; 3; 9; 1; 3] ∧
      m = map_seqZ 100 l' ∪ {[7 := 8]}).
Proof.
  apply (sort_any_interleaving (processors [true; true]) 100 [5; 3; 9; 1; 3] {[7 := 8]} 3); [done|lia|by vm_compute|].
  apply map_disjoint_singleton_r_2. by vm_compute.
Defined.

(** [main] of mergesort.c, on an array of any size below 2 to the 31 and
    any numbers from [rand]: in every interleaving it ends and returns 0, so
    its check of the order never reports an error. *)
Theorem main_returns_0 os a rands junk :
  sound os → length junk = length rands → Z.of_nat (length rands) ≤ INT_MAX →
  always_ends (main os a rands) (map_seqZ a junk) (λ r _, r = 0).
Proof.
  intros Hos Hlen Hmax. apply wpp_sound. unfold main. rewrite (proj1 (proj2 Hos)).
  apply wpp_fill_sort; [done..|]. intros l Hs Hl. rewrite <-(at_empty a l).
  apply (wpp_check a l ∅ _ _ 0); [done| |done]. by rewrite Hl, Nat.sub_0_r.
Qed.

Lemma main_returns_0_witness :
  always_ends (main (processors [true]) 0 [5; 3; 9; 1]) (map_seqZ 0 [0; 0; 0; 0]) (λ r _, r = 0).
Proof. by apply (main_returns_0 (processors [true]) 0 [5; 3; 9; 1] [0; 0; 0; 0]). Defined.

(** The processor that [mt_sort] picks is the one of number [tcnt] modulo
    their count if it is in the set; otherwise the count goes below zero,
    wraps around and the loop finds none. *)
Theorem pick_cpu_picks set tcnt :
  Z.of_nat (length set) < 2 ^ 64 → 0 < cpu_count set →
  let m := tcnt mod cpu_count set in
  pick_cpu set 0 m = if decide (set !! Z.to_nat m = Some true) then m else Z.of_nat (length set).
Proof.
  intros Hlen Hc m. pose proof (Z.mod_pos_bound tcnt (cpu_count set) Hc) as Hm. fold m in Hm.
  assert (cpu_count set ≤ Z.of_nat (length set)) as Hle
    by (unfold cpu_count; pose proof (length_filter Is_true set); lia).
  pose proof (pick_cpu_near set 0 (Z.to_nat m) Hlen ltac:(lia)) as Hp.
  by rewrite Z2Nat.id, !Z.add_0_l in Hp by lia.
Qed.

Lemma pick_cpu_picks_witness :
  pick_cpu [true; false; true] 0 (5 mod 2) = 3 ∧ pick_cpu [true; true; true] 0 (5 mod 3) = 2.
Proof.
  split; [apply (pick_cpu_picks [true; false; true] 5)|apply (pick_cpu_picks [true; true; true] 5)];
    by vm_compute.
Defined.

(** [main] of the earlier version: its assertions hold in every interleaving. *)
Theorem main_multi_asserts_hold os a rands :
  sound os → Z.of_nat (length rands) ≤ INT_MAX →
  always_ends (main_multi os a rands) (map_seqZ a (replicate (length rands) 0)) (λ r _, r = 0).
Proof.
  intros Hos Hmax. apply wpp_sound. unfold main_multi. rewrite (proj1 (proj2 Hos)).
  apply wpp_fill_sort; [done|done|apply length_replicate|done|].
  intros l Hs Hl. rewrite <-(at_empty a l).
  apply (wpp_check_asserts a l ∅ _ _ 0); [done| |done]. by rewrite Hl, Nat.sub_0_r.
Qed.

(** Its number of integers is in that range. *)
Lemma LEN_range : 0 < LEN ≤ INT_MAX.
Proof. by vm_compute. Qed.
