(* ===== verification/FizzBuzz.v ===== *)
(** Three threads that print fizz buzz in turn (03-threads-concurrency-and-
    scheduling/03-multi-threaded-fizzbuzz/fizzbuzz.c), with one mutex and three
    condition variables.  A thread runs the list of atomic instructions of its
    loop; a thread in [pthread_cond_wait] has released the mutex and is waiting,
    or was woken, by a signal or spuriously, and will take the mutex again and
    test its condition again. *)
From S2P Require Import Prelude.
From Stdlib Require Znumtheory.
#[local] Open Scope Z_scope.

(** ** The program *)

(** What is printed: the number, [fizz] or [buzz]. *)
Inductive token := Num (n : Z) | Fizz | Buzz.

Record vars := Vars {
  new_numb : bool;
  fizz_done : bool;
  buzz_done : bool;
  n : Z;
  out : list token
}.

Inductive cond := cond_new_numb | cond_fizz_done | cond_buzz_done.

#[export] Instance cond_eq_dec : EqDecision cond.
Proof. solve_decision. Defined.

(** [Wait c] is the loop [while (!ready) pthread_cond_wait(&c, &mutex)]; [Do f]
    changes the variables, given what [rand] returns if called. *)
Inductive instr :=
  | Lock
  | Wait (c : cond)
  | Do (f : Z → vars → vars)
  | Signal (c : cond)
  | Unlock
  | Sleep.

Inductive tid := TFizz | TBuzz | TMain.

#[export] Instance tid_eq_dec : EqDecision tid.
Proof. solve_decision. Defined.

Definition ready (c : cond) (v : vars) : bool :=
  match c with
  | cond_new_numb => new_numb v
  | cond_fizz_done => fizz_done v
  | cond_buzz_done => negb (negb (-1 =? n v) && negb (buzz_done v))
  end.

Definition set_new_numb (b : bool) (_ : Z) (v : vars) : vars :=
  Vars b (fizz_done v) (buzz_done v) (n v) (out v).
Definition set_fizz_done (b : bool) (_ : Z) (v : vars) : vars :=
  Vars (new_numb v) b (buzz_done v) (n v) (out v).
Definition set_buzz_done (b : bool) (_ : Z) (v : vars) : vars :=
  Vars (new_numb v) (fizz_done v) b (n v) (out v).
Definition set_n (r : Z) (v : vars) : vars :=
  Vars (new_numb v) (fizz_done v) (buzz_done v) (Z.land r 0xf) (out v).
Definition print (ts : vars → list token) (_ : Z) (v : vars) : vars :=
  Vars (new_numb v) (fizz_done v) (buzz_done v) (n v) (out v ++ ts v).

Definition fizz_tokens (n : Z) : list token := if Z.rem n 3 =? 0 then [Fizz] else [].
Definition buzz_tokens (n : Z) : list token := if Z.rem n 5 =? 0 then [Buzz] else [].

Definition fizz : list instr :=
  [Lock; Wait cond_new_numb; Do (set_new_numb false);
   Do (print (λ v, fizz_tokens (n v))); Do (set_fizz_done true);
   Signal cond_fizz_done; Unlock].

Definition buzz : list instr :=
  [Lock; Wait cond_fizz_done; Do (set_fizz_done false);
   Do (print (λ v, buzz_tokens (n v))); Do (set_buzz_done true);
   Signal cond_buzz_done; Unlock].

Definition main : list instr :=
  [Lock; Wait cond_buzz_done; Do (set_buzz_done false); Do set_n;
   Do (print (λ v, [Num (n v)])); Do (set_new_numb true);
   Signal cond_new_numb; Unlock; Sleep].

Definition code (t : tid) : list instr :=
  match t with TFizz => fizz | TBuzz => buzz | TMain => main end.

(** ** Execution *)

(** [Waiting] and [Woken] threads are inside [pthread_cond_wait]. *)
Inductive status := Run | Waiting | Woken.

Record thread := Thread { pc : nat; st : status }.

Record state := State {
  v : vars;
  mutex : option tid;
  th_fizz : thread;
  th_buzz : thread;
  th_main : thread
}.

Definition th (t : tid) (s : state) : thread :=
  match t with TFizz => th_fizz s | TBuzz => th_buzz s | TMain => th_main s end.

Definition set_th (t : tid) (x : thread) (s : state) : state :=
  match t with
  | TFizz => State (v s) (mutex s) x (th_buzz s) (th_main s)
  | TBuzz => State (v s) (mutex s) (th_fizz s) x (th_main s)
  | TMain => State (v s) (mutex s) (th_fizz s) (th_buzz s) x
  end.

Definition set_mutex (m : option tid) (s : state) : state :=
  State (v s) m (th_fizz s) (th_buzz s) (th_main s).
Definition set_vars (x : vars) (s : state) : state :=
  State x (mutex s) (th_fizz s) (th_buzz s) (th_main s).

(** The next instruction of the loop. *)
Definition next (t : tid) (s : state) : state :=
  let k := S (pc (th t s)) in
  set_th t (Thread (if (k <? length (code t))%nat then k else 0%nat) Run) s.

(** Whether a thread waits on the condition. *)
Definition waits (c : cond) (s : state) (t : tid) : bool :=
  match st (th t s), code t !! pc (th t s) with
  | Waiting, Some (Wait c') => bool_decide (c = c')
  | _, _ => false
  end.

(** [pthread_cond_signal] wakes a waiting thread, if there is one. *)
Definition signal (c : cond) (s : state) : state :=
  match filter (λ t, waits c s t) [TFizz; TBuzz; TMain] with
  | [] => s
  | t :: _ => set_th t (Thread (pc (th t s)) Woken) s
  end.

(** A step of thread [t], where [r] is what [rand] returns if it is called;
    [None] if the thread is blocked. *)
Definition exec (t : tid) (r : Z) (s : state) : option state :=
  match st (th t s) with
  | Waiting => None
  | Woken => match mutex s with
             | None => Some (set_mutex (Some t) (set_th t (Thread (pc (th t s)) Run) s))
             | Some _ => None
             end
  | Run =>
      match code t !! pc (th t s) with
      | Some Lock => match mutex s with
                     | None => Some (set_mutex (Some t) (next t s))
                     | Some _ => None
                     end
      | Some (Wait c) =>
          if ready c (v s) then Some (next t s)
          else Some (set_mutex None (set_th t (Thread (pc (th t s)) Waiting) s))
      | Some (Do f) => Some (next t (set_vars (f r (v s)) s))
      | Some (Signal c) => Some (next t (signal c s))
      | Some Unlock => Some (next t (set_mutex None s))
      | Some Sleep => Some (next t s)
      | None => None
      end
  end.

Inductive step : state → state → Prop :=
  | step_exec t r s s' : exec t r s = Some s' → step s s'
  | step_spurious t s : st (th t s) = Waiting →
      step s (set_th t (Thread (pc (th t s)) Woken) s).

Definition start : state :=
  State (Vars false false false (-1) []) None (Thread 0 Run) (Thread 0 Run) (Thread 0 Run).

(** ** Specification *)

#[export] Instance divide_dec (d n : Z) : Decision (d | n) := Znumtheory.Zdivide_dec d n.

(** What should be printed for a number. *)
Definition block (n : Z) : list token :=
  Num n :: (if decide (3 | n) then [Fizz] else []) ++ (if decide (5 | n) then [Buzz] else []).

(** What is printed for it. *)
Definition tokens (n : Z) : list token := Num n :: fizz_tokens n ++ buzz_tokens n.

(** The number 15, printed and completed by [fizz], from the start. *)
Definition schedule : list tid :=
  [TFizz; TFizz; TBuzz; TBuzz] ++ replicate 8 TMain ++ replicate 7 TFizz ++ replicate 3 TBuzz.

Fixpoint run (ts : list tid) (r : Z) (s : state) : option state :=
  match ts with
  | [] => Some s
  | t :: ts => match exec t r s with Some s' => run ts r s' | None => None end
  end.

(** ** The invariant *)

(** Where the turn is: with the main thread (which has not yet set
    [new_numb] for its next number), in a flag, or with the thread that took
    the flag and has not yet set the next one. *)
Inductive phase := PMain | PNew | PFizz | PFizzDone | PBuzz | PBuzzDone.

#[export] Instance phase_eq_dec : EqDecision phase.
Proof. solve_decision. Defined.

(** The part of the current number's tokens that is printed. *)
Definition printed (ph : phase) (s : state) : list token :=
  let m := n (v s) in
  match ph with
  | PMain => if (pc (th_main s) =? 5)%nat then [Num m] else []
  | PNew => [Num m]
  | PFizz => Num m :: if (pc (th_fizz s) =? 4)%nat then fizz_tokens m else []
  | PFizzDone => Num m :: fizz_tokens m
  | PBuzz => Num m :: fizz_tokens m ++ if (pc (th_buzz s) =? 4)%nat then buzz_tokens m else []
  | PBuzzDone => tokens m
  end.

(** A thread in its critical section. *)
Definition inside (x : thread) (last : nat) : Prop := st x = Run ∧ (1 ≤ pc x ≤ last)%nat.

Record Inv (ph : phase) (s : state) : Prop := {
  inv_pc_fizz : (pc (th_fizz s) ≤ 6)%nat;
  inv_pc_buzz : (pc (th_buzz s) ≤ 6)%nat;
  inv_pc_main : (pc (th_main s) ≤ 8)%nat;
  inv_st_fizz : st (th_fizz s) = Run ∨ pc (th_fizz s) = 1%nat;
  inv_st_buzz : st (th_buzz s) = Run ∨ pc (th_buzz s) = 1%nat;
  inv_st_main : st (th_main s) = Run ∨ pc (th_main s) = 1%nat;
  inv_in_fizz : inside (th_fizz s) 6 ↔ mutex s = Some TFizz;
  inv_in_buzz : inside (th_buzz s) 6 ↔ mutex s = Some TBuzz;
  inv_in_main : inside (th_main s) 7 ↔ mutex s = Some TMain;
  inv_new_numb : new_numb (v s) = bool_decide (ph = PNew);
  inv_fizz_done : fizz_done (v s) = bool_decide (ph = PFizzDone);
  inv_buzz_done : buzz_done (v s) = bool_decide (ph = PBuzzDone);
  inv_at_fizz : (3 ≤ pc (th_fizz s) ≤ 4)%nat ↔ ph = PFizz;
  inv_at_buzz : (3 ≤ pc (th_buzz s) ≤ 4)%nat ↔ ph = PBuzz;
  inv_at_main : (3 ≤ pc (th_main s) ≤ 5)%nat ∨ (n (v s) = -1 ∧ (pc (th_main s) ≤ 2)%nat) ↔ ph = PMain;
  inv_go_fizz : pc (th_fizz s) = 2%nat → ph = PNew;
  inv_go_buzz : pc (th_buzz s) = 2%nat → ph = PFizzDone;
  inv_go_main : pc (th_main s) = 2%nat → ph = PMain ∨ ph = PBuzzDone;
  inv_wait_fizz : st (th_fizz s) = Waiting → ph = PNew → pc (th_main s) = 6%nat;
  inv_wait_buzz : st (th_buzz s) = Waiting → ph = PFizzDone → pc (th_fizz s) = 5%nat;
  inv_wait_main : st (th_main s) = Waiting →
    n (v s) ≠ -1 ∧ (ph = PBuzzDone → pc (th_buzz s) = 5%nat);
  inv_n : -1 ≤ n (v s) < 16;
  inv_fresh : n (v s) = -1 → (pc (th_main s) ≤ 3)%nat;
  inv_out : ∃ done, Forall (λ m, 0 ≤ m < 16) done ∧ out (v s) = flat_map tokens done ++ printed ph s
}.

(** ** Proofs *)

Lemma inv_start : Inv PMain start.
Proof.
  constructor; simpl; unfold inside; simpl; try done; try lia; try (by left);
    try (split; [intros; lia|done]).
  - split; [done|]. intros _. right. lia.
  - by exists [].
Qed.

(** The phase after a step of thread [t] at instruction [k]. *)
Definition phase_after (t : tid) (k : nat) (ph : phase) : phase :=
  match t, k with
  | TFizz, 2 => PFizz
  | TFizz, 4 => PFizzDone
  | TBuzz, 2 => PBuzz
  | TBuzz, 4 => PBuzzDone
  | TMain, 2 => PMain
  | TMain, 5 => PNew
  | _, _ => ph
  end%nat.

#[local] Arguments fizz_tokens _ : simpl never.
#[local] Arguments buzz_tokens _ : simpl never.
#[local] Arguments Z.eqb _ _ : simpl never.
#[local] Arguments flat_map {_ _} _ _ : simpl never.

(** Who a signal wakes. *)
Lemma signal_spec c s ph :
  Inv ph s →
  signal c s =
    let t := match c with
             | cond_new_numb => TFizz | cond_fizz_done => TBuzz | cond_buzz_done => TMain
             end in
    match st (th t s) with
    | Waiting => set_th t (Thread (pc (th t s)) Woken) s
    | _ => s
    end.
Proof.
  intros []. destruct s as [vs mu [pf sf] [pb sb] [pm sm]]. simpl in *.
  unfold signal, waits. simpl.
  destruct sf, sb, sm; repeat match goal with
    | H : _ = Run ∨ _ = _ |- _ => (destruct H; [done|subst]) || clear H
    end; by destruct c.
Qed.

(** Proves the invariant of a state whose phase is known, from the invariant
    [Hinv] of the state before, taken apart and unfolded. *)
Ltac fb_out :=
  match goal with
  | H : ∃ _, Forall _ _ ∧ _ |- ∃ _, Forall _ _ ∧ _ =>
      let done := fresh "done" in
      destruct H as (done & ? & H); exists done; split; [assumption|];
      rewrite H; unfold tokens; simpl; rewrite <-?app_assoc, ?app_nil_r; reflexivity
  end.

(** [lia] on the atomic hypotheses only. *)
Ltac alia :=
  repeat match goal with
  | H : _ ↔ _ |- _ => clear H
  | H : _ → _ |- _ => clear H
  | H : _ ∨ _ |- _ => clear H
  | H : ∃ _, _ |- _ => clear H
  end; lia.

Ltac fb_imp :=
  intros;
  repeat match goal with
  | H : ?P → _, H' : ?P |- _ => specialize (H H')
  | H : _ ∧ _ |- _ => destruct H
  end;
  first [ discriminate | reflexivity | assumption | alia
        | match goal with H : _ ∨ _ |- _ => destruct H; first [discriminate|congruence|alia] end
        | congruence
        | split; [reflexivity|alia]
        | split; fb_imp ].

Ltac fb_iff :=
  match goal with
  | H : ?A ↔ _ |- ?A ↔ _ => rewrite H; split; first [discriminate|congruence]
  | H : _ ↔ ?B |- _ ↔ ?B => rewrite <-H; split; first [alia | intros [? ?]; discriminate]
  | |- _ ↔ _ => split; fb_imp
  end.

Ltac fb_solve :=
  constructor; simpl; unfold inside; simpl;
  first [ assumption | reflexivity | left; reflexivity | alia | fb_out | fb_iff | fb_imp
        | idtac ].

Lemma exec_fizz_inv r s s' ph :
  Inv ph s → exec TFizz r s = Some s' →
  Inv (match st (th_fizz s) with Run => phase_after TFizz (pc (th_fizz s)) ph | _ => ph end) s'.
Proof.
  intros Hinv Hex. unfold exec in Hex. pose proof (signal_spec cond_fizz_done s ph Hinv) as Hsig.
  destruct s as [[nn fd bd m o] mu [pf sf] [pb sb] [pm sm]].
  destruct Hinv. unfold inside in *. simpl in *.
  destruct sf; simpl in *; [|done|].
  2: { destruct mu; [done|]. destruct inv_st_fizz0 as [?| ->]; [done|].
       injection Hex as <-. fb_solve. }
  destruct pf as [|pf]; simpl in *.
  { destruct mu; [done|]. injection Hex as <-. fb_solve. }
  assert (mu = Some TFizz) as -> by (apply inv_in_fizz0; split; simpl; [done|lia]).
  destruct pf as [|[|[|[|[|[|pf]]]]]]; try lia; simpl in *.
  - destruct nn; injection Hex as <-.
    + symmetry in inv_new_numb0. apply bool_decide_eq_true in inv_new_numb0 as ->. fb_solve.
    + symmetry in inv_new_numb0. apply bool_decide_eq_false in inv_new_numb0. fb_solve.
      by rewrite bool_decide_eq_false_2.
  - rewrite (inv_go_fizz0 eq_refl) in *. injection Hex as <-. fb_solve.
  - rewrite (proj1 inv_at_fizz0) in * by lia. injection Hex as <-. fb_solve.
  - rewrite (proj1 inv_at_fizz0) in * by lia. injection Hex as <-. fb_solve.
  - rewrite Hsig in Hex. destruct sb; injection Hex as <-; fb_solve.
  - injection Hex as <-. fb_solve.
Qed.

Lemma exec_buzz_inv r s s' ph :
  Inv ph s → exec TBuzz r s = Some s' →
  Inv (match st (th_buzz s) with Run => phase_after TBuzz (pc (th_buzz s)) ph | _ => ph end) s'.
Proof.
  intros Hinv Hex. unfold exec in Hex. pose proof (signal_spec cond_buzz_done s ph Hinv) as Hsig.
  destruct s as [[nn fd bd m o] mu [pf sf] [pb sb] [pm sm]].
  destruct Hinv. unfold inside in *. simpl in *.
  destruct sb; simpl in *; [|done|].
  2: { destruct mu; [done|]. destruct inv_st_buzz0 as [?| ->]; [done|].
       injection Hex as <-. fb_solve. }
  destruct pb as [|pb]; simpl in *.
  { destruct mu; [done|]. injection Hex as <-. fb_solve. }
  assert (mu = Some TBuzz) as -> by (apply inv_in_buzz0; split; simpl; [done|lia]).
  destruct pb as [|[|[|[|[|[|pb]]]]]]; try lia; simpl in *.
  - destruct fd; injection Hex as <-.
    + symmetry in inv_fizz_done0. apply bool_decide_eq_true in inv_fizz_done0 as ->. fb_solve.
    + symmetry in inv_fizz_done0. apply bool_decide_eq_false in inv_fizz_done0. fb_solve.
      by rewrite bool_decide_eq_false_2.
  - rewrite (inv_go_buzz0 eq_refl) in *. injection Hex as <-. fb_solve.
  - rewrite (proj1 inv_at_buzz0) in * by lia. injection Hex as <-. fb_solve.
  - rewrite (proj1 inv_at_buzz0) in * by lia. injection Hex as <-. fb_solve.
  - rewrite Hsig in Hex. destruct sm; injection Hex as <-; fb_solve.
  - injection Hex as <-. fb_solve.
Qed.

Lemma land_15 r : 0 ≤ Z.land r 0xf < 16.
Proof. change 0xf with (Z.ones 4). rewrite Z.land_ones by lia. apply Z.mod_pos_bound. lia. Qed.

Lemma exec_main_inv r s s' ph :
  Inv ph s → exec TMain r s = Some s' →
  Inv (match st (th_main s) with Run => phase_after TMain (pc (th_main s)) ph | _ => ph end) s'.
Proof.
  intros Hinv Hex. unfold exec in Hex. pose proof (signal_spec cond_new_numb s ph Hinv) as Hsig.
  destruct s as [[nn fd bd m o] mu [pf sf] [pb sb] [pm sm]].
  destruct Hinv. unfold inside in *. simpl in *.
  destruct sm; simpl in *; [|done|].
  2: { destruct mu; [done|]. destruct inv_st_main0 as [?| ->]; [done|].
       injection Hex as <-. fb_solve. }
  destruct pm as [|pm]; simpl in *.
  { destruct mu; [done|]. injection Hex as <-. fb_solve. }
  destruct pm as [|[|[|[|[|[|[|[|pm]]]]]]]]; try lia; simpl in *;
    try (assert (mu = Some TMain) as -> by (apply inv_in_main0; split; simpl; [done|lia])).
  - destruct (Z.eqb_spec (-1) m) as [<-|Hm]; simpl in *.
    { injection Hex as <-. rewrite (proj1 inv_at_main0) in * by (right; split; lia). fb_solve. }
    destruct bd; injection Hex as <-.
    + symmetry in inv_buzz_done0. apply bool_decide_eq_true in inv_buzz_done0 as ->. fb_solve.
      by right.
    + symmetry in inv_buzz_done0. apply bool_decide_eq_false in inv_buzz_done0. fb_solve.
      by rewrite bool_decide_eq_false_2.
  - injection Hex as <-. destruct (inv_go_main0 eq_refl) as [->| ->].
    + fb_solve.
    + assert (m ≠ -1) as Hm.
      { intros ->. by assert (PBuzzDone = PMain) by (apply inv_at_main0; right; split; lia). }
      fb_solve. destruct inv_out0 as (done & Hd & Ho). exists (done ++ [m]).
      split; [apply Forall_app; split; [done|]; constructor; [lia|constructor]|].
      rewrite flat_map_app, app_nil_r, Ho. change (flat_map tokens [m]) with (tokens m ++ []).
      by rewrite app_nil_r.
  - rewrite (proj1 inv_at_main0) in * by lia. injection Hex as <-. pose proof (land_15 r).
    fb_solve.
  - rewrite (proj1 inv_at_main0) in * by lia. injection Hex as <-. fb_solve.
  - rewrite (proj1 inv_at_main0) in * by lia. injection Hex as <-. fb_solve.
  - rewrite Hsig in Hex. destruct sf; injection Hex as <-; fb_solve.
  - injection Hex as <-. fb_solve.
  - injection Hex as <-. fb_solve.
    rewrite <-inv_at_main0. split; [intros [?|[? _]]; [lia|]|intros [?|?]; lia].
    specialize (inv_fresh0 ltac:(done)). lia.
Qed.

(** A spurious wake-up. *)
Lemma spurious_inv t s ph :
  Inv ph s → st (th t s) = Waiting → Inv ph (set_th t (Thread (pc (th t s)) Woken) s).
Proof.
  intros Hinv Hw. destruct s as [[nn fd bd m o] mu [pf sf] [pb sb] [pm sm]].
  destruct Hinv. unfold inside in *. destruct t; simpl in *; subst.
  - destruct inv_st_fizz0 as [?| ->]; [done|]. fb_solve.
  - destruct inv_st_buzz0 as [?| ->]; [done|]. fb_solve.
  - destruct inv_st_main0 as [?| ->]; [done|]. fb_solve.
Qed.

Lemma fizzbuzz_reachable_inv s : reachable (λ s, s = start) step s → ∃ ph, Inv ph s.
Proof.
  apply (reachable_invariant _ _ (λ s, ∃ ph, Inv ph s)).
  - intros s' ->. exists PMain. apply inv_start.
  - intros s1 s2 [ph Hinv] Hst. destruct Hst as [t r s1 s2 Hex|t s1 Hw].
    + destruct t; eexists; [by eapply exec_fizz_inv|by eapply exec_buzz_inv|by eapply exec_main_inv].
    + exists ph. by apply spurious_inv.
Qed.

Lemma printed_prefix ph s : printed ph s `prefix_of` tokens (n (v s)).
Proof.
  unfold tokens. destruct ph; simpl; repeat case_match;
    first [ eexists; reflexivity | exists []; by rewrite app_nil_r
          | exists (buzz_tokens (n (v s))); by rewrite app_nil_r ].
Qed.

(** The remainders taken find the multiples of 3 and 5. *)
Lemma tokens_block n : tokens n = block n.
Proof.
  unfold tokens, block, fizz_tokens, buzz_tokens.
  assert (∀ d (t : token), 0 < d →
    (if Z.rem n d =? 0 then [t] else []) = if decide (d | n) then [t] else []) as Hd.
  { intros d t H0. pose proof (Z.rem_divide n d ltac:(lia)).
    destruct (Z.eqb_spec (Z.rem n d) 0); destruct (decide (d | n)); tauto. }
  by rewrite !Hd.
Qed.

(** ** The properties *)

(** C20: fizzbuzz.c prints what it should, in order: in every interleaving of
    its three threads, with signals and spurious wake-ups in any order, the
    output is at any time a prefix of whole blocks, each a number in [0, 16)
    followed by [fizz] if 3 divides it and then by [buzz] if 5 does. *)
Theorem fizzbuzz_output s :
  reachable (λ s, s = start) step s →
  ∃ nums, Forall (λ m, 0 ≤ m < 16) nums ∧ out (v s) `prefix_of` flat_map block nums.
Proof.
  intros Hr. enough (∃ nums, Forall (λ m, 0 ≤ m < 16) nums ∧
    out (v s) `prefix_of` flat_map tokens nums) as (nums & Hn & Hp).
  { exists nums. split; [done|]. by rewrite (flat_map_ext _ _ tokens_block) in Hp. }
  revert Hr. intros [ph Hinv]%fizzbuzz_reachable_inv. destruct (inv_out _ _ Hinv) as (done & Hd & ->).
  destruct (decide (n (v s) = -1)) as [Hn|Hn].
  - exists done. split; [done|]. assert (ph = PMain) as ->.
    { apply (inv_at_main _ _ Hinv). pose proof (inv_fresh _ _ Hinv Hn). lia. }
    simpl. pose proof (inv_fresh _ _ Hinv Hn).
    rewrite (proj2 (Nat.eqb_neq _ _)) by lia. by rewrite app_nil_r.
  - exists (done ++ [n (v s)]). split.
    + apply Forall_app. split; [done|]. constructor; [|constructor].
      pose proof (inv_n _ _ Hinv). lia.
    + rewrite flat_map_app. apply prefix_app.
      change (flat_map tokens [n (v s)]) with (tokens (n (v s)) ++ []).
      rewrite app_nil_r. apply printed_prefix.
Qed.

Lemma fizzbuzz_run_reachable ts r s s' :
  reachable (λ s, s = start) step s → run ts r s = Some s' →
  reachable (λ s, s = start) step s'.
Proof.
  revert s. induction ts as [|t ts IH]; intros s Hs Hr; simpl in Hr; [by simplify_eq|].
  destruct (exec t r s) as [s1|] eqn:E; [|done]. apply (IH s1); [|done].
  eapply reachable_step; [done|]. by econstructor.
Qed.

Lemma fizzbuzz_output_witness :
  ∃ s, run schedule 15 start = Some s ∧ out (v s) = [Num 15; Fizz] ∧
  ∃ nums, Forall (λ m, 0 ≤ m < 16) nums ∧ out (v s) `prefix_of` flat_map block nums.
Proof.
  eexists. split; [vm_compute; reflexivity|]. split; [reflexivity|].
  apply fizzbuzz_output. eapply (fizzbuzz_run_reachable schedule 15 start);
    [by apply reachable_init|vm_compute; reflexivity].
Defined.

(** C21: fizzbuzz.c never gets stuck and loses no signal: in every reachable
    state some thread can take a step without a spurious wake-up, whatever
    [rand] returns. *)
Theorem fizzbuzz_progress s r :
  reachable (λ s, s = start) step s → ∃ t s', exec t r s = Some s'.
Proof.
  intros [ph Hinv]%fizzbuzz_reachable_inv.
  destruct s as [[nn fd bd m o] mu [pf sf] [pb sb] [pm sm]].
  destruct Hinv. unfold inside in *. simpl in *.
  destruct mu as [[]|].
  - destruct (proj2 inv_in_fizz0 eq_refl) as [-> Hpf]. exists TFizz. unfold exec. simpl.
    destruct pf as [|[|[|[|[|[|[|pf]]]]]]]; try lia; simpl; try case_match; eauto.
  - destruct (proj2 inv_in_buzz0 eq_refl) as [-> Hpb]. exists TBuzz. unfold exec. simpl.
    destruct pb as [|[|[|[|[|[|[|pb]]]]]]]; try lia; simpl; try case_match; eauto.
  - destruct (proj2 inv_in_main0 eq_refl) as [-> Hpm]. exists TMain. unfold exec. simpl.
    destruct pm as [|[|[|[|[|[|[|[|pm]]]]]]]]; try lia; simpl; try case_match; eauto.
  - destruct sf; [exists TFizz| |exists TFizz; by eexists].
    { destruct pf as [|pf]; [by eexists|].
      assert (None = Some TFizz) by (apply inv_in_fizz0; split; [done|lia]). done. }
    destruct inv_st_fizz0 as [?| ->]; [done|].
    destruct sb; [exists TBuzz| |exists TBuzz; by eexists].
    { destruct pb as [|pb]; [by eexists|].
      assert (None = Some TBuzz) by (apply inv_in_buzz0; split; [done|lia]). done. }
    destruct inv_st_buzz0 as [?| ->]; [done|].
    destruct sm; [exists TMain| |exists TMain; by eexists].
    { destruct pm as [|[|[|[|[|[|[|[|[|pm]]]]]]]]]; try lia; try (by eexists);
        (assert (None = Some TMain) by (apply inv_in_main0; split; [done|lia])); done. }
    destruct inv_st_main0 as [?| ->]; [done|].
    destruct (inv_wait_main0 eq_refl) as [Hm Hbd].
    exfalso. destruct ph.
    + destruct (proj2 inv_at_main0 eq_refl) as [?|[? _]]; [lia|done].
    + specialize (inv_wait_fizz0 eq_refl eq_refl). lia.
    + pose proof (proj2 inv_at_fizz0 eq_refl). lia.
    + specialize (inv_wait_buzz0 eq_refl eq_refl). lia.
    + pose proof (proj2 inv_at_buzz0 eq_refl). lia.
    + specialize (Hbd eq_refl). lia.
Qed.

Lemma fizzbuzz_progress_witness :
  ∃ s, run schedule 15 start = Some s ∧ ∃ t s', exec t 7 s = Some s'.
Proof.
  eexists. split; [vm_compute; reflexivity|].
  apply fizzbuzz_progress. eapply (fizzbuzz_run_reachable schedule 15 start);
    [by apply reachable_init|vm_compute; reflexivity].
Defined.
