(* ===== verification/Counter.v ===== *)
(** The threaded counter (03-threads-concurrency-and-scheduling/
    01-threaded-counter/counter.c): threads that each increment a shared
    volatile [int] the same number of times, under a mutex.  An increment is a
    load and a store.  The file has two threads of [EACH_COUNT] increments;
    the model has any number of both. *)
From S2P Require Import Prelude.
#[local] Open Scope Z_scope.

(** ** The program *)

Definition EACH_COUNT : Z := 1000000000.

(** A thread of [routine]: at the test of the loop, at the lock, at the load
    or the store of [counter++], at the unlock, or returned; with its [i] and
    the value it loaded. *)
Inductive place := Test | Lock | LoadCounter | StoreCounter | Unlock | Returned.

#[export] Instance place_eq_dec : EqDecision place.
Proof. solve_decision. Defined.

Record thread := Thread { at_ : place; i : Z; loaded : Z }.

Record state := State {
  counter : Z;
  lock : option nat;
  threads : list thread
}.

(** A configuration, or the undefined behaviour that ended it. *)
Inductive config := Running (s : state) | Broken (f : fault).

(** A step of thread [t] of [routine], which counts to [each]; [None] when it
    is blocked or has returned. *)
Definition exec (each : Z) (t : nat) (s : state) : option config :=
  th ← threads s !! t;
  let go c m x := Some (Running (State c m (<[t := x]> (threads s)))) in
  match at_ th with
  | Test => if i th <? each then go (counter s) (lock s) (Thread Lock (i th) (loaded th))
            else go (counter s) (lock s) (Thread Returned (i th) (loaded th))
  | Lock => match lock s with
            | None => go (counter s) (Some t) (Thread LoadCounter (i th) (loaded th))
            | Some _ => None
            end
  | LoadCounter => go (counter s) (lock s) (Thread StoreCounter (i th) (counter s))
  | StoreCounter =>
      if loaded th =? INT_MAX then Some (Broken SignedOverflow)
      else go (loaded th + 1) (lock s) (Thread Unlock (i th) (loaded th))
  | Unlock => go (counter s) None (Thread Test (i th + 1) (loaded th))
  | Returned => None
  end.

Definition step (each : Z) (c c' : config) : Prop :=
  ∃ s t, c = Running s ∧ exec each t s = Some c'.

(** [main]: [n] threads are created at once. *)
Definition main (n : nat) (c : config) : Prop :=
  c = Running (State 0 None (replicate n (Thread Test 0 0))).

(** Runs a schedule. *)
Fixpoint run (each : Z) (ts : list nat) (s : state) : option config :=
  match ts with
  | [] => Some (Running s)
  | t :: ts => match exec each t s with Some (Running s') => run each ts s' | r => r end
  end.

(** Two threads of two increments, one waiting for the other at the lock. *)
Definition schedule : list nat :=
  ([0; 1; 0; 0; 0; 0; 0] ++ replicate 4 1 ++ replicate 5 0 ++ replicate 6 1)%nat.

(** ** The invariant *)

(** The increments a thread has made. *)
Definition made (th : thread) : nat :=
  Z.to_nat (i th) + if decide (at_ th = Unlock) then 1 else 0.

Definition inside (th : thread) : Prop :=
  match at_ th with LoadCounter | StoreCounter | Unlock => True | _ => False end.

Record Inv (each : Z) (n : nat) (s : state) : Prop := {
  inv_len : length (threads s) = n;
  inv_i : ∀ t th, threads s !! t = Some th → 0 ≤ i th ≤ each ∧
    (at_ th ≠ Test → at_ th ≠ Returned → i th < each) ∧ (at_ th = Returned → i th = each);
  inv_lock : ∀ t th, threads s !! t = Some th → (inside th ↔ lock s = Some t);
  inv_owner : ∀ t, lock s = Some t → (t < n)%nat;
  inv_loaded : ∀ t th, threads s !! t = Some th → at_ th = StoreCounter → loaded th = counter s;
  inv_counter : counter s = Z.of_nat (sum_list_with made (threads s))
}.

(** ** Proofs *)

Lemma sum_list_with_le_all {A} (f : A → nat) (k : nat) (l : list A) :
  (∀ i x, l !! i = Some x → (f x ≤ k)%nat) → (sum_list_with f l ≤ k * length l)%nat.
Proof.
  induction l as [|x l IH]; intros Hl; simpl; [lia|].
  specialize (IH (λ i, Hl (S i))). specialize (Hl 0%nat x eq_refl). lia.
Qed.

Lemma sum_list_with_eq_all {A} (f : A → nat) (k : nat) (l : list A) :
  (∀ x, x ∈ l → f x = k) → sum_list_with f l = (k * length l)%nat.
Proof.
  induction l as [|x l IH]; intros Hl; simpl; [lia|].
  rewrite (Hl x) by (by left). rewrite IH; [lia|]. intros y Hy. apply Hl. by right.
Qed.

Lemma inv_main each n : 0 ≤ each →
  Inv each n (State 0 None (replicate n (Thread Test 0 0))).
Proof.
  intros He. constructor; simpl.
  - apply length_replicate.
  - intros t th [-> _]%lookup_replicate. simpl. split; [lia|]. by split.
  - intros t th [-> _]%lookup_replicate. done.
  - done.
  - by intros t th [-> _]%lookup_replicate.
  - rewrite sum_list_with_zero; [done|]. by intros x [-> _]%elem_of_replicate.
Qed.

(** What a step of thread [t], from [th] to [th'], must satisfy. *)
Lemma counter_inv_update each n s t th th' c m :
  Inv each n s → threads s !! t = Some th →
  0 ≤ i th' ≤ each ∧ (at_ th' ≠ Test → at_ th' ≠ Returned → i th' < each) ∧
    (at_ th' = Returned → i th' = each) →
  (inside th' ↔ m = Some t) →
  (∀ t', t' ≠ t → (m = Some t' ↔ lock s = Some t')) →
  (at_ th' = StoreCounter → loaded th' = c) →
  (c = counter s ∨ lock s = Some t) →
  c + Z.of_nat (made th) = counter s + Z.of_nat (made th') →
  Inv each n (State c m (<[t := th']> (threads s))).
Proof.
  intros Hinv Ht Hi Hin Hm Hl Hc Hmade.
  pose proof (sum_list_with_insert made _ _ _ th' Ht) as Hsum.
  pose proof (inv_counter _ _ _ Hinv). pose proof (lookup_lt_Some _ _ _ Ht) as Hlt.
  rewrite (inv_len _ _ _ Hinv) in Hlt.
  constructor; simpl.
  - rewrite length_insert. apply Hinv.
  - intros t' x [(<- & <- & _)|[_ Hx]]%list_lookup_insert_Some; [done|].
    by apply (inv_i _ _ _ Hinv t').
  - intros t' x [(<- & <- & _)|[Hne Hx]]%list_lookup_insert_Some; [done|].
    rewrite (inv_lock _ _ _ Hinv t' x Hx). symmetry. by apply Hm.
  - intros t' Ho. destruct (decide (t' = t)) as [->|Hne]; [done|].
    by apply (inv_owner _ _ _ Hinv), Hm.
  - intros t' x [(<- & <- & _)|[Hne Hx]]%list_lookup_insert_Some Hat; [by apply Hl|].
    rewrite (inv_loaded _ _ _ Hinv t' x Hx Hat).
    destruct Hc as [->|Hown]; [done|].
    assert (inside x) as Hins by (unfold inside; by rewrite Hat).
    apply (inv_lock _ _ _ Hinv t' x Hx) in Hins. congruence.
  - lia.
Qed.

Lemma made_le each n s t x :
  Inv each n s → threads s !! t = Some x → (made x ≤ Z.to_nat each)%nat.
Proof.
  intros Hinv Hx. destruct (inv_i _ _ _ Hinv t x Hx) as (Hi & Hlt & _).
  unfold made. case_decide as E; [|lia]. rewrite E in Hlt. specialize (Hlt ltac:(done) ltac:(done)).
  lia.
Qed.

(** The counter never exceeds the increments asked for. *)
Lemma inv_counter_le each n s : 0 ≤ each → Inv each n s → 0 ≤ counter s ≤ each * Z.of_nat n.
Proof.
  intros He Hinv. rewrite (inv_counter _ _ _ Hinv).
  pose proof (sum_list_with_le_all made (Z.to_nat each) (threads s)
    (λ t x, made_le each n s t x Hinv)) as Hle.
  rewrite (inv_len _ _ _ Hinv) in Hle. nia.
Qed.

(** Before an increment it is below that. *)
Lemma inv_bound each n s t th :
  Inv each n s → threads s !! t = Some th → at_ th = StoreCounter →
  counter s < each * Z.of_nat n.
Proof.
  intros Hinv Ht Hat. pose proof (λ t x, made_le each n s t x Hinv) as Hmade.
  destruct (inv_i _ _ _ Hinv t th Ht) as (Hi & Hlt & _). rewrite Hat in Hlt.
  specialize (Hlt ltac:(done) ltac:(done)).
  set (th' := Thread Unlock (i th) 0).
  pose proof (sum_list_with_insert made _ _ _ th' Ht) as Hsum.
  assert (sum_list_with made (<[t := th']> (threads s)) ≤
    Z.to_nat each * length (<[t := th']> (threads s)))%nat as Hle.
  { apply sum_list_with_le_all.
    intros t' x [(<- & <- & _)|[_ Hx]]%list_lookup_insert_Some; [|by eapply Hmade].
    unfold made, th'. simpl. lia. }
  rewrite length_insert, (inv_len _ _ _ Hinv) in Hle.
  rewrite (inv_counter _ _ _ Hinv).
  assert (made th' = S (made th)) as Hm.
  { unfold made, th'. simpl. rewrite Hat. simpl. lia. }
  nia.
Qed.

Lemma counter_exec_inv each n s t c :
  Inv each n s → each * Z.of_nat n ≤ INT_MAX → exec each t s = Some c →
  ∃ s', c = Running s' ∧ Inv each n s'.
Proof.
  intros Hinv Hmax Hex. unfold exec in Hex.
  destruct (threads s !! t) as [[a k l]|] eqn:Ht; [|done]. simpl in Hex.
  destruct (inv_i _ _ _ Hinv t _ Ht) as (Hi & Hlt & Hret). simpl in Hi, Hlt, Hret.
  pose proof (inv_lock _ _ _ Hinv t _ Ht) as Hlock. unfold inside in Hlock. simpl in Hlock.
  destruct a.
  - destruct (Z.ltb_spec k each); injection Hex as <-; (eexists; split; [done|]);
      eapply counter_inv_update; try done; try (by left); simpl;
      try (split; [lia|by split]); try lia.
    all: try (split; [lia|]; split; [done|lia]).
  - destruct (lock s) eqn:E; [done|]. injection Hex as <-. eexists. split; [done|].
    specialize (Hlt ltac:(done) ltac:(done)).
    eapply counter_inv_update; try done; try (by left); simpl.
    intros t' Hne. rewrite E. split; congruence.
  - injection Hex as <-. eexists. split; [done|].
    specialize (Hlt ltac:(done) ltac:(done)).
    eapply counter_inv_update; try done; try (by left); simpl.
  - destruct (Z.eqb_spec l INT_MAX) as [->|Hne].
    { exfalso. pose proof (inv_bound _ _ _ _ _ Hinv Ht eq_refl).
      pose proof (inv_loaded _ _ _ Hinv t _ Ht eq_refl). simpl in *. lia. }
    injection Hex as <-. eexists. split; [done|].
    pose proof (inv_loaded _ _ _ Hinv t _ Ht eq_refl) as Hl. simpl in Hl. subst l.
    specialize (Hlt ltac:(done) ltac:(done)).
    eapply counter_inv_update; try done; simpl; [by right; apply Hlock|].
    unfold made. simpl. lia.
  - injection Hex as <-. eexists. split; [done|].
    specialize (Hlt ltac:(done) ltac:(done)).
    eapply counter_inv_update; try done; try (by left); simpl.
    + split; [lia|done].
    + intros t' Hne. split; [done|]. intros Ho. pose proof (proj1 Hlock Logic.I). congruence.
    + unfold made. simpl. lia.
  - done.
Qed.

Lemma counter_reachable_inv each n c :
  0 ≤ each → each * Z.of_nat n ≤ INT_MAX →
  reachable (main n) (step each) c → ∃ s, c = Running s ∧ Inv each n s.
Proof.
  intros He Hmax. apply (reachable_invariant _ _ (λ c, ∃ s, c = Running s ∧ Inv each n s)).
  - intros c' ->. eexists. split; [done|]. by apply inv_main.
  - intros c1 c2 (s & -> & Hinv) (s' & t & [= <-] & Hex). by eapply counter_exec_inv.
Qed.

Lemma counter_run_reachable each n ts s c :
  reachable (main n) (step each) (Running s) → run each ts s = Some c →
  reachable (main n) (step each) c.
Proof.
  revert s. induction ts as [|t ts IH]; intros s Hs Hr; simpl in Hr; [by simplify_eq|].
  destruct (exec each t s) as [c1|] eqn:E; [|done].
  assert (reachable (main n) (step each) c1) as H1.
  { eapply reachable_step; [done|]. by exists s, t. }
  destruct c1 as [s1|f]; [by eapply IH|by simplify_eq].
Qed.

(** The steps a thread has left. *)
Definition steps_left (each : Z) (th : thread) : nat :=
  let rest := Z.to_nat (5 * (each - i th)) in
  match at_ th with
  | Test => S rest
  | Lock => rest
  | LoadCounter => rest - 1
  | StoreCounter => rest - 2
  | Unlock => rest - 3
  | Returned => 0
  end.

Lemma steps_decrease each n s t s' :
  Inv each n s → exec each t s = Some (Running s') →
  (sum_list_with (steps_left each) (threads s') < sum_list_with (steps_left each) (threads s))%nat.
Proof.
  intros Hinv Hex. unfold exec in Hex.
  destruct (threads s !! t) as [[a k l]|] eqn:Ht; [|done]. simpl in Hex.
  destruct (inv_i _ _ _ Hinv t _ Ht) as (Hi & Hlt & _). simpl in Hi, Hlt.
  assert (∀ th', (steps_left each th' < steps_left each (Thread a k l))%nat →
    (sum_list_with (steps_left each) (<[t := th']> (threads s)) <
     sum_list_with (steps_left each) (threads s))%nat) as Hdec.
  { intros th' Hth. pose proof (sum_list_with_insert (steps_left each) _ _ _ th' Ht). lia. }
  destruct a; repeat (case_match; try done); simplify_eq/=; zcases; apply Hdec;
    unfold steps_left; simpl; try specialize (Hlt ltac:(done) ltac:(done)); lia.
Qed.

(** ** The properties *)

(** C22: counter.c counts right: with [n] threads of [each] increments whose
    product is an [int], in every interleaving, the counter never overflows
    and never exceeds [n * each], some thread can take a step until all have
    returned, and then the counter is [n * each]. *)
Theorem counter_final each n c :
  0 ≤ each → each * Z.of_nat n ≤ INT_MAX →
  reachable (main n) (step each) c →
  ∃ s, c = Running s ∧ 0 ≤ counter s ≤ each * Z.of_nat n ∧
    ((∃ t c', exec each t s = Some c') ∨
     ((∀ th, th ∈ threads s → at_ th = Returned) ∧ counter s = each * Z.of_nat n)).
Proof.
  intros He Hmax Hr. destruct (counter_reachable_inv each n c He Hmax Hr) as (s & -> & Hinv).
  exists s. split; [done|]. split; [by apply inv_counter_le|].
  destruct (decide (Exists (λ th, at_ th ≠ Returned) (threads s))) as [Hex|Hall].
  - left. destruct (lock s) as [o|] eqn:Hlock.
    + pose proof (inv_owner _ _ _ Hinv o Hlock) as Ho. rewrite <-(inv_len _ _ _ Hinv) in Ho.
      destruct (lookup_lt_is_Some_2 _ _ Ho) as [[a k l] Hth].
      pose proof (proj2 (inv_lock _ _ _ Hinv o _ Hth) Hlock) as Hin.
      exists o. unfold exec. rewrite Hth. simpl. unfold inside in Hin. simpl in Hin.
      destruct a; try done; repeat case_match; by eexists.
    + apply Exists_exists in Hex as (th & [t Hth]%list_elem_of_lookup & Hne).
      exists t. unfold exec. rewrite Hth. simpl. rewrite Hlock.
      destruct (at_ th); try done; repeat case_match; by eexists.
  - right.
    assert (∀ th, th ∈ threads s → at_ th = Returned) as Hret.
    { intros th Hth. destruct (decide (at_ th = Returned)) as [|Hne]; [done|].
      destruct Hall. apply Exists_exists. by exists th. }
    split; [done|]. rewrite (inv_counter _ _ _ Hinv).
    rewrite (sum_list_with_eq_all _ (Z.to_nat each)), (inv_len _ _ _ Hinv); [nia|].
    intros th Hth. pose proof (Hret th Hth) as Hat.
    apply list_elem_of_lookup in Hth as [t Ht].
    destruct (inv_i _ _ _ Hinv t th Ht) as (_ & _ & Hi). unfold made. rewrite Hat, Hi by done.
    simpl. lia.
Qed.

Lemma counter_final_witness :
  2 * 2 ≤ INT_MAX ∧
  ∃ s, run 2 schedule (State 0 None (replicate 2 (Thread Test 0 0))) = Some (Running s) ∧
  ∃ s', Running s = Running s' ∧ 0 ≤ counter s' ≤ 2 * Z.of_nat 2 ∧
    ((∃ t c', exec 2 t s' = Some c') ∨
     ((∀ th, th ∈ threads s' → at_ th = Returned) ∧ counter s' = 2 * Z.of_nat 2)).
Proof.
  split; [by vm_compute|]. eexists. split; [vm_compute; reflexivity|].
  apply counter_final; [done|by vm_compute|].
  eapply (counter_run_reachable 2 2 schedule); [by apply reachable_init|by vm_compute].
Defined.

(** Counter.c ends: from every reachable state, every execution is finite. *)
Theorem counter_terminates each n c :
  0 ≤ each → each * Z.of_nat n ≤ INT_MAX →
  reachable (main n) (step each) c → Acc (λ c' c, step each c c') c.
Proof.
  intros He Hmax Hr. destruct (counter_reachable_inv each n c He Hmax Hr) as (s & -> & Hinv). clear Hr.
  remember (sum_list_with (steps_left each) (threads s)) as k eqn:Hk.
  revert s Hinv Hk. induction (lt_wf k) as [k _ IH]. intros s Hinv ->.
  constructor. intros c' (s0 & t & [= <-] & Hex).
  destruct (counter_exec_inv each n s t c' Hinv Hmax Hex) as (s' & -> & Hinv').
  eapply IH; [|done|done]. by eapply steps_decrease.
Qed.

(** The two threads of the program, with all their increments. *)
Lemma counter_terminates_witness :
  Acc (λ c' c, step EACH_COUNT c c') (Running (State 0 None (replicate 2 (Thread Test 0 0)))).
Proof.
  apply (counter_terminates EACH_COUNT 2); [done|by vm_compute|by apply reachable_init].
Defined.
