(* ===== verification/ShoutServer.v ===== *)
(** The shout server ([shout_server.c]): the socket set-up, the sending of a
    buffer, the edge-triggered epoll loop that accepts connections and echoes
    what they send, and [main]; its FreeBSD half is in [ShoutKqueue.v].  The
    operating system is the parameter [os]: a function of the calls made so
    far, with their answers, and of the call now made.  The state is the heap
    of the process and that trace. *)
From S2P Require Import Prelude Mem.
#[local] Open Scope Z_scope.

(** ** The operating system's interface *)

(** A [struct kevent] that the kernel stores, less the field [data]. *)
Record kevent := Kevent { ident : Z; filter : Z; flags : Z; fflags : Z; udata : ptr }.

(** What a call returns, the [errno] it leaves, the bytes or addresses it
    stores, and the events that [epoll_wait] or [kevent] stores. *)
Record answer := Answer {
  ret : Z; errno : Z; bytes : list Z; ready : list (Z * ptr); kevents : list kevent
}.

Inductive syscall :=
  | Getaddrinfo
  | Socket (addr : Z)
  | Setsockopt (fd option : Z)
  | Bind (fd addr : Z)
  | Listen (fd backlog : Z)
  | GetFlags (fd : Z)
  | SetFlags (fd flags : Z)
  | Accept (fd : Z)
  | Send (fd : Z) (data : list Z)
  | Recv (fd len : Z)
  | Close (fd : Z)
  | EpollCreate
  | EpollAdd (epfd fd events : Z) (ud : ptr)
  | EpollDel (epfd fd : Z)
  | EpollWait (epfd max : Z)
  | Kqueue
  | KevChange (kq fd filter flags : Z) (ud : ptr)
  | KevWait (kq max : Z).

Abbreviation history := (list (syscall * answer)).

(** ** Constants *)

Definition MAX_LISTEN_SOCK_FDS : Z := 4.
Definition LISTEN_BACKLOG : Z := 10.
Definition MAX_EVENTS : Z := 100.
Definition BUF_CAPACITY : Z := 4096.
(** These five have the values of Linux; FreeBSD has others.  The two halves
    share the code that uses them, and no theorem on the kqueue half depends
    on the values. *)
Definition EAGAIN : Z := 11.
Definition EWOULDBLOCK : Z := 11.
Definition O_NONBLOCK : Z := 0x800.
Definition SO_REUSEADDR : Z := 2.
Definition SO_REUSEPORT : Z := 15.
Definition EPOLLIN : Z := 0x1.
Definition EPOLLOUT : Z := 0x4.
Definition EPOLLHUP : Z := 0x10.
Definition EPOLLRDHUP : Z := 0x2000.
Definition EPOLLET : Z := 0x80000000.
Definition EVFILT_READ : Z := -1.
Definition EVFILT_WRITE : Z := -2.
Definition EV_ADD : Z := 0x1.
Definition EV_DELETE : Z := 0x2.
Definition EV_ENABLE : Z := 0x4.
Definition EV_DISABLE : Z := 0x8.
Definition EV_KEEPUDATA : Z := 0x200.
Definition EV_EOF : Z := 0x8000.
Definition EV_ERROR : Z := 0x4000.

(** ** State *)

Record buffer := Buffer { size : Z; data : list Z }.
Record user_data := UserData { fd : Z; buf : ptr }.
Inductive obj := OBuf (b : buffer) | OPud (u : user_data).

Record world := World { mem : heap obj; trace : history }.

#[local] Abbreviation M := (comp world).

Definition in_heap {A} (m : comp (heap obj) A) : M A := λ w,
  match m (mem w) with
  | Ok (a, h) => Ok (a, World h (trace w))
  | Fault f => Fault f
  | OutOfFuel => OutOfFuel
  end.

Definition load_buf (p : ptr) : M buffer :=
  o ← in_heap (load p); match o with OBuf b => mret b | OPud _ => fail BadCast end.
Definition load_pud (p : ptr) : M user_data :=
  o ← in_heap (load p); match o with OPud u => mret u | OBuf _ => fail BadCast end.

(** [x & flag] as a condition. *)
Definition has (x flag : Z) : bool := negb (Z.land x flag =? 0).

(** [lfds[i] = v]. *)
Definition array_set (a : list Z) (i v : Z) : M (list Z) :=
  if (0 <=? i) && (i <? Z.of_nat (length a)) then mret (<[Z.to_nat i := v]> a)
  else fail OutOfBounds.

(** [memmove(data, data + from, n)]. *)
Definition memmove_down (d : list Z) (from n : Z) : list Z :=
  take (Z.to_nat n) (drop (Z.to_nat from) d) ++ drop (Z.to_nat n) d.

Section server.
Context (os : history → syscall → answer).

Definition sys (c : syscall) : M answer := λ w,
  let a := os (trace w) c in Ok (a, World (mem w) (trace w ++ [(c, a)])).

(** *** Set-up *)

(** The body of the loop of [init_listen_fds] up to the store: the
    descriptor for one address, if the calls succeed. *)
Definition listen_fd (rp : Z) : M (option Z) :=
  s ← sys (Socket rp);
  let lfd := ret s in
  if lfd <? 0 then mret None else
  a ← sys (Setsockopt lfd SO_REUSEADDR);
  if ret a <? 0 then sys (Close lfd);; mret None else
  a ← sys (Setsockopt lfd SO_REUSEPORT);
  if ret a <? 0 then sys (Close lfd);; mret None else
  a ← sys (Bind lfd rp);
  if ret a <? 0 then sys (Close lfd);; mret None else
  mret (Some lfd).

Fixpoint init_loop (rps : list Z) (lfds : list Z) (nlfd max_size : Z) : M (Z * list Z) :=
  match rps with
  | [] => mret (nlfd, lfds)
  | rp :: rps =>
      r ← listen_fd rp;
      match r with
      | None => init_loop rps lfds nlfd max_size
      | Some lfd =>
          lfds ← array_set lfds nlfd lfd;
          if max_size <=? nlfd + 1 then mret (nlfd + 1, lfds)
          else init_loop rps lfds (nlfd + 1) max_size
      end
  end.

(** Returns the count, or -1, and the array. *)
Definition init_listen_fds (lfds : list Z) (max_size : Z) : M (Z * list Z) :=
  a ← sys Getaddrinfo;
  if negb (ret a =? 0) then mret (-1, lfds)
  else init_loop (bytes a) lfds 0 max_size.

Definition set_nonblocking (fd : Z) : M Z :=
  a ← sys (GetFlags fd);
  if ret a <? 0 then mret (-1) else
  b ← sys (SetFlags fd (Z.lor (ret a) O_NONBLOCK));
  if ret b <? 0 then mret (-2) else mret 0.

Definition is_lsockfd (fd : Z) (lsockfds : list Z) (nlsockfd : Z) : bool :=
  existsb (Z.eqb fd) (take (Z.to_nat nlsockfd) lsockfds).

(** *** Sending *)

(** [d] are the bytes of the buffer; the loop's locals are [n] for [left],
    [total_sent] and [sent]. *)
Definition do_send_step (fd : Z) (d : list Z) (v : Z * Z * Z) : M ((Z * Z * Z) + Z) :=
  let '(n, total_sent, sent) := v in
  if 0 <? n then
    if Z.of_nat (length d) <? sent + n then fail OutOfBounds else
    a ← sys (Send fd (take (Z.to_nat n) (drop (Z.to_nat sent) d)));
    let sent := ret a in
    if sent <=? 0 then
      if (errno a =? EAGAIN) || (errno a =? EWOULDBLOCK) then mret (inr total_sent)
      else mret (inr (-1))
    else mret (inl (n - sent, total_sent + sent, sent))
  else mret (inr total_sent).

Definition do_send (fd : Z) (d : list Z) (n : Z) : M Z :=
  loop (S (Z.to_nat n)) (do_send_step fd d) (n, 0, 0).

(** [to_upper_case] does nothing. *)
Definition to_upper_case (d : list Z) (size : Z) : list Z := d.

(** *** The epoll loop *)

Definition ep_add (epfd fd evs : Z) (b : ptr) : M Z :=
  pud ← in_heap (calloc (OPud (UserData 0 Null)) 1 16);
  if is_null pud then mret (-1) else
  in_heap (store pud (OPud (UserData fd b)));;
  a ← sys (EpollAdd epfd fd evs pud);
  if ret a <? 0 then in_heap (free pud);; mret (-3) else mret 0.

Definition cleanup (epfd : Z) (pud : ptr) : M unit :=
  u ← load_pud pud;
  sys (EpollDel epfd (fd u));;
  sys (Close (fd u));;
  (if is_null (buf u) then mret tt else in_heap (free (buf u)));;
  in_heap (free pud).

Definition new_buffer : obj := OBuf (Buffer 0 (replicate (Z.to_nat BUF_CAPACITY) 0)).

Definition conn_events : Z :=
  Z.lor EPOLLET (Z.lor EPOLLIN (Z.lor EPOLLOUT (Z.lor EPOLLRDHUP EPOLLHUP))).

(** An iteration of the accept loop on the listening socket of [pud]. *)
Definition accept_step (epfd : Z) (pud : ptr) (_ : unit) : M (unit + unit) :=
  u ← load_pud pud;
  a ← sys (Accept (fd u));
  let conn_sockfd := ret a in
  if conn_sockfd <? 0 then mret (inr tt) else
  r ← set_nonblocking conn_sockfd;
  if r <? 0 then sys (Close conn_sockfd);; mret (inr tt) else
  b ← in_heap (calloc new_buffer 1 (8 + BUF_CAPACITY));
  if is_null b then sys (Close conn_sockfd);; mret (inr tt) else
  r ← ep_add epfd conn_sockfd conn_events b;
  if r <? 0 then in_heap (free b);; sys (Close conn_sockfd);; mret (inr tt)
  else mret (inl tt).

(** After [do_send] returned [sent > 0]: what is left moves to the front,
    or the buffer is empty; tells whether something is left. *)
Definition keep_rest (p : ptr) (sent : Z) : M bool :=
  b ← load_buf p;
  if sent <? size b then
    let rest := size b - sent in
    in_heap (store p (OBuf (Buffer rest (memmove_down (data b) sent rest))));; mret true
  else in_heap (store p (OBuf (Buffer 0 (data b))));; mret false.

(** The branch for [EPOLLOUT]: [true] if the connection was cleaned up. *)
Definition flush (epfd : Z) (pud : ptr) (u : user_data) : M bool :=
  b ← load_buf (buf u);
  sent ← do_send (fd u) (data b) (size b);
  if sent <=? 0 then cleanup epfd pud;; mret true
  else _ ← keep_rest (buf u) sent; mret false.

(** An iteration of the receive loop. *)
Definition recv_step (epfd : Z) (pud : ptr) (u : user_data) (_ : unit) : M (unit + unit) :=
  a ← sys (Recv (fd u) BUF_CAPACITY);
  let received := ret a in
  if received <? 0 then
    if negb (errno a =? EAGAIN) && negb (errno a =? EWOULDBLOCK)
    then cleanup epfd pud;; mret (inr tt) else mret (inr tt)
  else if received =? 0 then cleanup epfd pud;; mret (inr tt)
  else
    b ← load_buf (buf u);
    let d := bytes a ++ drop (length (bytes a)) (data b) in
    in_heap (store (buf u) (OBuf (Buffer received (to_upper_case d received))));;
    b ← load_buf (buf u);
    sent ← do_send (fd u) (data b) (size b);
    if sent <=? 0 then cleanup epfd pud;; mret (inr tt) else
    rest ← keep_rest (buf u) sent;
    mret (if (rest : bool) then inr tt else inl tt).

(** One event; [true] for [goto end]. *)
Definition handle_event (fuel : nat) (epfd : Z) (lsockfds : list Z) (nlsockfd : Z)
    (e : Z * ptr) : M bool :=
  let '(ev, pud) := e in
  u ← load_pud pud;
  if is_lsockfd (fd u) lsockfds nlsockfd then
    loop fuel (accept_step epfd pud) tt;; mret false
  else if has ev EPOLLRDHUP || has ev EPOLLHUP then
    cleanup epfd pud;; mret false
  else if has ev EPOLLIN || has ev EPOLLOUT then
    b ← load_buf (buf u);
    cleaned ← (if has ev EPOLLOUT && (0 <? size b) then flush epfd pud u else mret false);
    if (cleaned : bool) then mret false else
    b ← load_buf (buf u);
    (if has ev EPOLLIN && (size b =? 0) then loop fuel (recv_step epfd pud u) tt
     else mret tt);;
    mret false
  else cleanup epfd pud;; mret true.

Fixpoint handle_events (fuel : nat) (epfd : Z) (lsockfds : list Z) (nlsockfd : Z)
    (evs : list (Z * ptr)) : M bool :=
  match evs with
  | [] => mret false
  | e :: evs => stop ← handle_event fuel epfd lsockfds nlsockfd e;
                if (stop : bool) then mret true
                else handle_events fuel epfd lsockfds nlsockfd evs
  end.

(** [n] iterations at most of the event loop: what [poll] returns, or [None]
    while it is still running. *)
Fixpoint event_loop (n fuel : nat) (epfd : Z) (lsockfds : list Z) (nlsockfd : Z)
    : M (option Z) :=
  match n with
  | O => mret None
  | S n =>
      a ← sys (EpollWait epfd MAX_EVENTS);
      if ret a <? 0 then mret (Some 6) else
      stop ← handle_events fuel epfd lsockfds nlsockfd (take (Z.to_nat (ret a)) (ready a));
      if (stop : bool) then sys (Close epfd);; mret (Some 0)
      else event_loop n fuel epfd lsockfds nlsockfd
  end.

(** Registers the listening sockets, in order; [false] when one fails. *)
Fixpoint add_listeners (epfd : Z) (lfds : list Z) : M bool :=
  match lfds with
  | [] => mret true
  | lfd :: lfds => r ← ep_add epfd lfd (Z.lor EPOLLIN EPOLLET) Null;
                   if r <? 0 then mret false else add_listeners epfd lfds
  end.

Definition poll (n fuel : nat) (lsockfds : list Z) (nlsockfd : Z) : M (option Z) :=
  e ← sys EpollCreate;
  let epfd := ret e in
  if epfd <? 0 then mret (Some 4) else
  ok ← add_listeners epfd (take (Z.to_nat nlsockfd) lsockfds);
  if (ok : bool) then event_loop n fuel epfd lsockfds nlsockfd else mret (Some 5).

(** *** main *)

(** Applies [f] to the first descriptors until it fails. *)
Fixpoint each_fd (f : Z → M Z) (lfds : list Z) : M bool :=
  match lfds with
  | [] => mret true
  | lfd :: lfds => r ← f lfd; if r <? 0 then mret false else each_fd f lfds
  end.

Fixpoint close_all (lfds : list Z) : M unit :=
  match lfds with
  | [] => mret tt
  | lfd :: lfds => sys (Close lfd);; close_all lfds
  end.

(** [main] with the loop of the platform, [poll] or [queue]. *)
Definition main_with (serve : list Z → Z → M (option Z)) : M (option Z) :=
  i ← init_listen_fds (replicate (Z.to_nat MAX_LISTEN_SOCK_FDS) 0) MAX_LISTEN_SOCK_FDS;
  let '(nlsockfd, lsockfds) := i in
  if nlsockfd <=? 0 then mret (Some 1) else
  let fds := take (Z.to_nat nlsockfd) lsockfds in
  ok ← each_fd set_nonblocking fds;
  if negb ok then mret (Some 2) else
  ok ← each_fd (λ lfd, a ← sys (Listen lfd LISTEN_BACKLOG); mret (ret a)) fds;
  if negb ok then mret (Some 3) else
  r ← serve lsockfds nlsockfd;
  match r with
  | None => mret None
  | Some r => close_all fds;; mret (Some r)
  end.

Definition main (n fuel : nat) : M (option Z) := main_with (poll n fuel).
End server.
