(* ===== verification/ShoutIO.v ===== *)
(** What both halves of the shout server share: what a history of system
    calls says, what is asked of the operating system, and the theory of the
    parts they have in common: [do_send], the buffer of a connection, and the
    set-up of the listening sockets.  What a history registers with the
    event queue is the half's own: the class [Registry]. *)
From S2P Require Import Prelude Mem ShoutServer.
#[local] Open Scope Z_scope.

(** ** What a history says *)

(** What the connection on [fd] has received and sent since it was accepted. *)
Definition stream_step (fd : Z) (st : list Z * list Z) (e : syscall * answer)
    : list Z * list Z :=
  let '(c, a) := e in
  match c with
  | Accept _ => if (0 <=? ret a) && (ret a =? fd) then ([], []) else st
  | Recv fd' _ => if (fd' =? fd) && (0 <? ret a) then (st.1 ++ bytes a, st.2) else st
  | Send fd' d =>
      if (fd' =? fd) && (0 <? ret a) then (st.1, st.2 ++ take (Z.to_nat (ret a)) d) else st
  | _ => st
  end.

Definition stream (fd : Z) (tr : history) : list Z * list Z :=
  foldl (stream_step fd) ([], []) tr.

(** The connections and the chunks delivered to the program. *)
Definition delivery (e : syscall * answer) : nat :=
  let '(c, a) := e in
  match c with
  | Accept _ => if 0 <=? ret a then 1 else 0
  | Recv _ _ => if 0 <? ret a then 1 else 0
  | _ => 0
  end.

Definition deliveries (tr : history) : nat := sum_list_with delivery tr.

(** The descriptors that are open. *)
Definition open_step (m : gset Z) (e : syscall * answer) : gset Z :=
  let '(c, a) := e in
  match c with
  | Socket _ | Accept _ | EpollCreate | Kqueue => if ret a <? 0 then m else {[ret a]} ∪ m
  | Close fd => m ∖ {[fd]}
  | _ => m
  end.

Definition opened (tr : history) : gset Z := foldl open_step ∅ tr.

(** The calls that cannot change what is registered with an event queue. *)
Definition plain (c : syscall) : bool :=
  match c with
  | EpollAdd _ _ _ _ | EpollDel _ _ | KevChange _ _ _ _ _ | Close _ => false
  | _ => true
  end.

(** What is registered with the event queue, in a form of the queue's own. *)
Class Registry (R : Type) := {
  reg_of : history → R;
  reg_plain tr c a : plain c = true → reg_of (tr ++ [(c, a)]) = reg_of tr
}.

(** The calls of [main] before the event loop. *)
Definition setting_up (c : syscall) : bool :=
  match c with
  | Getaddrinfo | Socket _ | Setsockopt _ _ | Bind _ _ | Listen _ _
  | GetFlags _ | SetFlags _ _ | Close _ => true
  | _ => false
  end.

Section os.
Context (os : history → syscall → answer).

(** The histories in which every answer is the operating system's. *)
Inductive consistent : history → Prop :=
  | consistent_nil : consistent []
  | consistent_snoc tr c : consistent tr → consistent (tr ++ [(c, os tr c)]).

(** Documented behaviour: [socket] returns a descriptor not in use; [send] and
    [recv] transfer at most what they are given. *)
Class io_ok : Prop := {
  socket_fresh : ∀ tr rp, consistent tr → 0 ≤ ret (os tr (Socket rp)) →
    ret (os tr (Socket rp)) ∉ opened tr;
  send_bound : ∀ tr fd d, consistent tr → ret (os tr (Send fd d)) ≤ Z.of_nat (length d);
  recv_bound : ∀ tr fd len, consistent tr → 0 < ret (os tr (Recv fd len)) →
    ret (os tr (Recv fd len)) = Z.of_nat (length (bytes (os tr (Recv fd len)))) ∧
    ret (os tr (Recv fd len)) ≤ len
}.

(** The clients send a finite amount: [fuel] bounds what is delivered. *)
Definition bounded (fuel : nat) : Prop := ∀ tr, consistent tr → (deliveries tr < fuel)%nat.

(** After two short sends in a row on a descriptor, the next one fails (its
    socket's buffer is full). *)
Definition no_third_send : Prop := ∀ tr fd d1 a1 d2 a2 d3,
  consistent (tr ++ [(Send fd d1, a1); (Send fd d2, a2)]) →
  0 < ret a1 < Z.of_nat (length d1) → 0 < ret a2 < Z.of_nat (length d2) →
  ret (os (tr ++ [(Send fd d1, a1); (Send fd d2, a2)]) (Send fd d3)) ≤ 0.

(** At any time and for every connection, what was sent to it is a prefix of
    what was received from it. *)
Definition echoes (w : world) : Prop :=
  no_third_send → ∀ fd, (stream fd (trace w)).2 `prefix_of` (stream fd (trace w)).1.

(** Nothing is registered or transferred yet. *)
Definition fresh (w : world) : Prop :=
  consistent (trace w) ∧ Forall (λ e, setting_up e.1 = true) (trace w).
End os.

(** A buffer holds what was received and is still to be sent. *)
Record buf_ok (os : history → syscall → answer) (tr : history) (fd : Z) (b : buffer)
    : Prop := {
  buf_len : length (data b) = Z.to_nat BUF_CAPACITY;
  buf_size : 0 ≤ size b ≤ BUF_CAPACITY;
  buf_stream : no_third_send os →
    (stream fd tr).1 = (stream fd tr).2 ++ take (Z.to_nat (size b)) (data b)
}.

(** ** Lemmas on histories *)

Lemma stream_snoc fd tr e : stream fd (tr ++ [e]) = stream_step fd (stream fd tr) e.
Proof. unfold stream. by rewrite foldl_app. Qed.

Lemma deliveries_snoc tr e : deliveries (tr ++ [e]) = (deliveries tr + delivery e)%nat.
Proof. unfold deliveries. rewrite sum_list_with_app. simpl. lia. Qed.

Lemma opened_snoc tr e : opened (tr ++ [e]) = open_step (opened tr) e.
Proof. unfold opened. by rewrite foldl_app. Qed.

Lemma consistent_snoc_inv os tr c a :
  consistent os (tr ++ [(c, a)]) → consistent os tr ∧ a = os tr c.
Proof.
  intros Hc. inversion Hc as [Hn|tr' c' Hc' Heq].
  - by destruct tr.
  - apply app_inj_tail in Heq as [-> Heq]. by simplify_eq.
Qed.

Lemma is_lsockfd_spec fd lsockfds n :
  is_lsockfd fd lsockfds n = true ↔ fd ∈ take (Z.to_nat n) lsockfds.
Proof.
  unfold is_lsockfd. rewrite existsb_exists. split.
  - intros (x & Hx & ->%Z.eqb_eq). by apply list_elem_of_In.
  - intros Hin. exists fd. split; [by apply list_elem_of_In|by apply Z.eqb_refl].
Qed.

Lemma stream_setting_up fd tr :
  Forall (λ e, setting_up e.1 = true) tr → stream fd tr = ([], []).
Proof.
  induction tr as [|[c a] tr IH] using rev_ind; [done|]. intros [Htr Hc]%Forall_app.
  rewrite stream_snoc, IH by done. rewrite Forall_singleton in Hc. by destruct c.
Qed.

(** ** The calls of the server *)

Section io.
Context (os : history → syscall → answer) `{!io_ok os} `{Registry R}.
Implicit Types (w : world) (tr : history).

(** [tr'] extends [tr] by calls that register, deliver and send nothing. *)
Record same (tr tr' : history) : Prop := {
  same_cons : consistent os tr';
  same_reg : reg_of tr' = reg_of tr;
  same_stream : ∀ fd, stream fd tr' = stream fd tr;
  same_del : deliveries tr' = deliveries tr
}.

Lemma same_refl tr : consistent os tr → same tr tr.
Proof. by constructor. Qed.

Lemma same_trans tr1 tr2 tr3 : same tr1 tr2 → same tr2 tr3 → same tr1 tr3.
Proof. intros [] []. constructor; try congruence. Qed.

Lemma wp_sys c w (Q : answer → world → Prop) :
  Q (os (trace w) c) (World (mem w) (trace w ++ [(c, os (trace w) c)])) →
  wp (sys os c) w Q.
Proof. done. Qed.

Lemma wp_in_heap {A} (m : comp (heap obj) A) w (Q : A → world → Prop) :
  wp m (mem w) (λ a h, Q a (World h (trace w))) → wp (in_heap m) w Q.
Proof. unfold wp, in_heap. by destruct (m (mem w)) as [[a h]|f|]. Qed.

(** The calls that change nothing, when they do not register. *)
Lemma same_quiet tr c :
  consistent os tr →
  match c with
  | Recv _ _ | Send _ _ => ret (os tr c) ≤ 0
  | Accept _ => ret (os tr c) < 0
  | _ => True
  end → reg_of (tr ++ [(c, os tr c)]) = reg_of tr → same tr (tr ++ [(c, os tr c)]).
Proof.
  intros Hc Hq Hr. constructor; [by constructor|done|..].
  - intros fd'. rewrite stream_snoc. destruct c; simpl; try done.
    + by rewrite (proj2 (Z.leb_gt _ _)).
    + by rewrite (proj2 (Z.ltb_ge _ _)), andb_false_r.
    + by rewrite (proj2 (Z.ltb_ge _ _)), andb_false_r.
  - rewrite deliveries_snoc. destruct c; simpl; try lia; try done.
    + rewrite (proj2 (Z.leb_gt _ _)) by done. lia.
    + rewrite (proj2 (Z.ltb_ge _ _)) by done. lia.
Qed.

Lemma same_plain tr c :
  consistent os tr →
  match c with
  | Recv _ _ | Send _ _ => ret (os tr c) ≤ 0
  | Accept _ => ret (os tr c) < 0
  | _ => plain c = true
  end → same tr (tr ++ [(c, os tr c)]).
Proof.
  intros Hc Hq. apply same_quiet; [done|by destruct c|].
  apply reg_plain. by destruct c.
Qed.

Lemma wp_set_nonblocking fd w (Q : Z → world → Prop) :
  consistent os (trace w) →
  (∀ r tr, same (trace w) tr → Q r (World (mem w) tr)) → wp (set_nonblocking os fd) w Q.
Proof.
  intros Hc HQ. unfold set_nonblocking. wp_step. apply wp_sys.
  assert (same (trace w) (trace w ++ [(GetFlags fd, os (trace w) (GetFlags fd))])) as H1
    by (by apply same_plain).
  destruct (_ <? 0); [wp_step; by apply HQ|]. wp_step. apply wp_sys. simpl.
  destruct (_ <? 0); wp_step; apply HQ; (eapply same_trans; [done|]);
    apply same_plain; try done; apply H1.
Qed.

(** *** Sending *)

(** What [do_send] of [n] bytes of [d] does, when it returns [r]. *)
Record sends (fd : Z) (d : list Z) (n : Z) (tr : history) (r : Z) (tr' : history)
    : Prop := {
  sends_cons : consistent os tr';
  sends_reg : reg_of tr' = reg_of tr;
  sends_del : deliveries tr' = deliveries tr;
  sends_other : ∀ fd', fd' ≠ fd → stream fd' tr' = stream fd' tr;
  sends_recv : (stream fd tr').1 = (stream fd tr).1;
  sends_ret : r = -1 ∨ 0 ≤ r ≤ n;
  sends_data : no_third_send os → ∃ k, 0 ≤ k ≤ n ∧ (0 ≤ r → k = r) ∧
    (stream fd tr').2 = (stream fd tr).2 ++ take (Z.to_nat k) d
}.

(** The sends made so far in a call: none, one, or two or more. *)
Definition so_far (fd : Z) (tr0 tr : history) (n total sent : Z) : Prop :=
  (total = 0 ∧ sent = 0) ∨
  (0 < total ∧ sent = total ∧ ∃ tr1 d1 a1, tr = tr1 ++ [(Send fd d1, a1)] ∧
     0 < ret a1 ∧ (0 < n → ret a1 < Z.of_nat (length d1))) ∨
  (0 < sent < total ∧ ∃ tr1 d1 a1 d2 a2, tr = tr1 ++ [(Send fd d1, a1); (Send fd d2, a2)] ∧
     0 < ret a1 < Z.of_nat (length d1) ∧ 0 < ret a2 ∧
     (0 < n → ret a2 < Z.of_nat (length d2))).

Lemma send_snoc fd tr tr' d' :
  consistent os tr' → reg_of tr' = reg_of tr → deliveries tr' = deliveries tr →
  (∀ fd', fd' ≠ fd → stream fd' tr' = stream fd' tr) →
  (stream fd tr').1 = (stream fd tr).1 →
  let tr2 := tr' ++ [(Send fd d', os tr' (Send fd d'))] in
  consistent os tr2 ∧ reg_of tr2 = reg_of tr ∧ deliveries tr2 = deliveries tr ∧
  (∀ fd', fd' ≠ fd → stream fd' tr2 = stream fd' tr) ∧
  (stream fd tr2).1 = (stream fd tr).1.
Proof.
  intros Hc Hr Hd Ho Hs tr2. subst tr2. split; [by constructor|].
  rewrite reg_plain, deliveries_snoc by done. simpl. split; [done|]. split; [lia|].
  split.
  - intros fd' Hne. rewrite stream_snoc. simpl.
    rewrite (proj2 (Z.eqb_neq fd fd')) by done. by apply Ho.
  - rewrite stream_snoc. simpl. by case_match.
Qed.

(** One more send that succeeds: it continues where the last one ended, as
    long as it is the first or the second. *)
Lemma so_far_step fd d tr0 tr n total sent :
  no_third_send os → consistent os tr →
  let d' := take (Z.to_nat n) (drop (Z.to_nat sent) d) in
  let r := ret (os tr (Send fd d')) in
  0 < n → 0 ≤ sent → sent + n ≤ Z.of_nat (length d) → 0 < r ≤ n →
  so_far fd tr0 tr n total sent →
  (stream fd tr).2 = (stream fd tr0).2 ++ take (Z.to_nat total) d →
  so_far fd tr0 (tr ++ [(Send fd d', os tr (Send fd d'))]) (n - r) (total + r) r ∧
  (stream fd (tr ++ [(Send fd d', os tr (Send fd d'))])).2 =
    (stream fd tr0).2 ++ take (Z.to_nat (total + r)) d.
Proof.
  intros Hg Hc d' r Hn Hs Hlen Hr Hfar Hst.
  assert (Z.of_nat (length d') = n) as Hd'.
  { subst d'. rewrite length_take, length_drop. lia. }
  assert (0 ≤ total → sent = total →
    (stream fd (tr ++ [(Send fd d', os tr (Send fd d'))])).2 =
    (stream fd tr0).2 ++ take (Z.to_nat (total + r)) d) as Hdata.
  { intros Ht ->. rewrite stream_snoc. simpl. fold r.
    rewrite Z.eqb_refl, (proj2 (Z.ltb_lt 0 r)) by lia. simpl.
    rewrite Hst, <-app_assoc. f_equal. subst d'.
    rewrite take_take, (Nat.min_l (Z.to_nat r)) by lia.
    rewrite Z2Nat.inj_add by lia. apply take_take_drop. }
  destruct Hfar as [[-> ->]|[(Ht & -> & tr1 & d1 & a1 & -> & Ha1 & Hs1)|
    (Ht & tr1 & d1 & a1 & d2 & a2 & -> & Ha1 & Ha2 & Hs2)]].
  - split; [|by apply Hdata]. right. left. split; [lia|]. split; [lia|].
    exists tr, d', (os tr (Send fd d')). split; [done|]. fold r. lia.
  - split; [|by apply Hdata; [lia|]]. right. right. split; [lia|].
    exists tr1, d1, a1, d', (os (tr1 ++ [(Send fd d1, a1)]) (Send fd d')).
    rewrite <-app_assoc. split; [done|]. fold r. lia.
  - specialize (Hg tr1 fd d1 a1 d2 a2 d' Hc Ha1 ltac:(lia)). subst r. lia.
Qed.

Lemma wp_do_send fd d n w (Q : Z → world → Prop) :
  consistent os (trace w) → 0 ≤ n ≤ Z.of_nat (length d) →
  (∀ r tr, sends fd d n (trace w) r tr → Q r (World (mem w) tr)) →
  wp (do_send os fd d n) w Q.
Proof.
  intros Hc Hn HQ. unfold do_send. set (tr0 := trace w).
  apply (wp_loop (λ '(m, total, sent) w', mem w' = mem w ∧
    (consistent os (trace w') ∧ reg_of (trace w') = reg_of tr0 ∧
     deliveries (trace w') = deliveries tr0 ∧
     (∀ fd', fd' ≠ fd → stream fd' (trace w') = stream fd' tr0) ∧
     (stream fd (trace w')).1 = (stream fd tr0).1) ∧
    m + total = n ∧ 0 ≤ m ∧ 0 ≤ sent ≤ total ∧
    (no_third_send os → so_far fd tr0 (trace w') m total sent ∧
      (stream fd (trace w')).2 = (stream fd tr0).2 ++ take (Z.to_nat total) d))
    (λ '(m, _, _) _, Z.to_nat m)).
  - intros [[m total] sent] w' (Hm & Htr & Hsum & Hm0 & Hsent & Hg).
    assert (∀ tr r, (r = -1 ∨ r = total) →
      (consistent os tr ∧ reg_of tr = reg_of tr0 ∧ deliveries tr = deliveries tr0 ∧
       (∀ fd', fd' ≠ fd → stream fd' tr = stream fd' tr0) ∧
       (stream fd tr).1 = (stream fd tr0).1) →
      (stream fd tr).2 = (stream fd (trace w')).2 → Q r (World (mem w) tr)) as Hend.
    { intros tr r Hr (? & ? & ? & ? & ?) Hsame. apply HQ. constructor; try done; [lia|].
      intros Hg3. exists total. split; [lia|]. split; [lia|]. rewrite Hsame. by apply Hg. }
    unfold do_send_step. destruct (Z.ltb_spec 0 m) as [Hpos|Hz].
    2: { wp_step. destruct w' as [h tr]. simpl in *. subst h. apply Hend; auto. }
    rewrite (proj2 (Z.ltb_ge _ _)) by lia. wp_step. apply wp_sys.
    set (d' := take (Z.to_nat m) (drop (Z.to_nat sent) d)).
    pose proof (send_bound os (trace w') fd d' (proj1 Htr)) as Hb.
    assert (Z.of_nat (length d') = m) as Hd'
      by (subst d'; rewrite length_take, length_drop; lia).
    destruct Htr as (H1 & H2 & H3 & H4 & H5).
    pose proof (send_snoc fd tr0 (trace w') d' H1 H2 H3 H4 H5) as Htr2. cbv zeta in Htr2.
    destruct (Z.leb_spec (ret (os (trace w') (Send fd d'))) 0) as [Hle|Hgt].
    + assert ((stream fd (trace w' ++ [(Send fd d', os (trace w') (Send fd d'))])).2 =
        (stream fd (trace w')).2) as Hsame.
      { rewrite stream_snoc. simpl. by rewrite (proj2 (Z.ltb_ge _ _)), andb_false_r by lia. }
      rewrite Hm. case_match; wp_step; apply Hend; auto.
    + wp_step. simpl. split; [|lia]. split; [done|]. split; [done|].
      split; [lia|]. split; [lia|]. split; [lia|]. intros H3'.
      destruct (Hg H3') as [Hfar Hst].
      apply so_far_step; try done; try lia. fold d'. lia.
  - simpl. split; [done|]. split; [done|]. split; [lia|]. split; [lia|]. split; [lia|].
    intros _. split; [left; done|]. by rewrite take_0, app_nil_r.
  - simpl. lia.
Qed.

(** *** The buffer of a connection *)

Lemma wp_load_buf_at w bb b (Q : buffer → world → Prop) :
  blocks (mem w) !! bb = Some [Some (OBuf b)] → Q b w → wp (load_buf (Ptr bb 0)) w Q.
Proof.
  intros Hb HQ. unfold load_buf. wp_step. apply wp_in_heap.
  eapply wp_load; [done|done|done|]. simpl. wp_step. by destruct w.
Qed.

(** The heap with another value in a buffer's block. *)
Definition set_buf w (bb : positive) (b : buffer) : world :=
  World (set_blocks (mem w) (<[bb := [Some (OBuf b)]]> (blocks (mem w)))) (trace w).

Lemma wp_store_buf_at w bb b b' (Q : unit → world → Prop) :
  blocks (mem w) !! bb = Some [Some (OBuf b)] → Q tt (set_buf w bb b') →
  wp (in_heap (store (Ptr bb 0) (OBuf b'))) w Q.
Proof.
  intros Hb HQ. apply wp_in_heap. eapply wp_store; [done|simpl; lia|]. done.
Qed.

(** A buffer of which [sent > 0] bytes are gone. *)
Definition rest_of (b : buffer) (sent : Z) : buffer :=
  if sent <? size b
  then Buffer (size b - sent) (memmove_down (data b) sent (size b - sent))
  else Buffer 0 (data b).

Lemma wp_keep_rest_at w bb b sent (Q : bool → world → Prop) :
  blocks (mem w) !! bb = Some [Some (OBuf b)] →
  Q (0 <? size (rest_of b sent)) (set_buf w bb (rest_of b sent)) →
  wp (keep_rest (Ptr bb 0) sent) w Q.
Proof.
  intros Hb HQ. unfold keep_rest. wp_step. eapply wp_load_buf_at; [done|].
  unfold rest_of in HQ. destruct (Z.ltb_spec sent (size b)) as [Hlt|Hge].
  - wp_step. eapply wp_store_buf_at; [done|]. wp_step. simpl in HQ.
    by rewrite (proj2 (Z.ltb_lt _ _)) in HQ by lia.
  - wp_step. eapply wp_store_buf_at; [done|]. by wp_step.
Qed.

(** What is left after a [do_send] of the whole buffer. *)
Lemma buf_ok_rest tr0 tr fd b r :
  buf_ok os tr0 fd b → sends fd (data b) (size b) tr0 r tr → 0 < r →
  buf_ok os tr fd (rest_of b r).
Proof.
  intros [Hlen Hsz Hst] Hs Hr.
  destruct (sends_ret _ _ _ _ _ _ Hs) as [->|Hrn]; [lia|].
  assert (no_third_send os → (stream fd tr).1 =
    (stream fd tr).2 ++ take (Z.to_nat (size b - r)) (drop (Z.to_nat r) (data b))) as Hst'.
  { intros Hg. rewrite (sends_recv _ _ _ _ _ _ Hs), (Hst Hg).
    destruct (sends_data _ _ _ _ _ _ Hs Hg) as (k & Hk & -> & ->); [|lia].
    rewrite <-app_assoc, take_take_drop. do 2 f_equal. lia. }
  unfold BUF_CAPACITY in *. unfold rest_of. destruct (Z.ltb_spec r (size b)) as [Hlt|Hge].
  - unfold memmove_down. constructor; simpl.
    + rewrite length_app, length_take, !length_drop, Hlen. unfold BUF_CAPACITY. lia.
    + unfold BUF_CAPACITY. lia.
    + intros Hg. rewrite (Hst' Hg). f_equal.
      rewrite take_app_length'; [done|]. rewrite length_take, length_drop. lia.
  - constructor; simpl; [done|unfold BUF_CAPACITY; lia|].
    intros Hg. rewrite (Hst' Hg). f_equal. replace (size b - r) with 0 by lia. done.
Qed.

Lemma buf_ok_room tr fd b : buf_ok os tr fd b → 0 ≤ size b ≤ Z.of_nat (length (data b)).
Proof. intros [-> Hsz _]. unfold BUF_CAPACITY in *. lia. Qed.

Lemma buf_ok_stream tr tr' fd b :
  buf_ok os tr fd b → stream fd tr' = stream fd tr → buf_ok os tr' fd b.
Proof. intros [] Hs. constructor; [done..|]. by rewrite Hs. Qed.

(** Sending what is in a buffer keeps every stream an echo. *)
Lemma echoes_sends w w' fd b r :
  echoes os w → buf_ok os (trace w) fd b →
  sends fd (data b) (size b) (trace w) r (trace w') → echoes os w'.
Proof.
  intros He [Hlen Hsz Hst] [] Hg fd'.
  destruct (decide (fd' = fd)) as [->|Hne]; [|rewrite sends_other0 by done; by apply He].
  rewrite sends_recv0, (Hst Hg). destruct (sends_data0 Hg) as (k & Hk & _ & ->).
  apply prefix_app. exists (take (Z.to_nat (size b - k)) (drop (Z.to_nat k) (data b))).
  rewrite take_take_drop. f_equal. lia.
Qed.

Lemma echoes_stream w w' :
  echoes os w → (∀ fd, stream fd (trace w') = stream fd (trace w)) → echoes os w'.
Proof. intros He Hs Hg fd. rewrite Hs. by apply He. Qed.

(** A chunk that is received. *)
Definition received (a : answer) (b : buffer) : buffer :=
  Buffer (ret a) (bytes a ++ drop (length (bytes a)) (data b)).

Lemma recv_stream tr fd len :
  let c := Recv fd len in
  let a := os tr c in
  0 < ret a →
  stream fd (tr ++ [(c, a)]) = ((stream fd tr).1 ++ bytes a, (stream fd tr).2) ∧
  (∀ fd', fd' ≠ fd → stream fd' (tr ++ [(c, a)]) = stream fd' tr) ∧
  deliveries (tr ++ [(c, a)]) = S (deliveries tr).
Proof.
  intros c a Hpos. split; [|split].
  - rewrite stream_snoc. simpl. by rewrite Z.eqb_refl, (proj2 (Z.ltb_lt _ _)).
  - intros fd' Hne. rewrite stream_snoc. simpl. by rewrite (proj2 (Z.eqb_neq fd fd')).
  - rewrite deliveries_snoc. simpl. rewrite (proj2 (Z.ltb_lt _ _)) by done. lia.
Qed.

Lemma echoes_recv w h fd len :
  let c := Recv fd len in
  let a := os (trace w) c in
  0 < ret a → echoes os w → echoes os (World h (trace w ++ [(c, a)])).
Proof.
  intros c a Hpos He Hg fd'. simpl. pose proof (recv_stream (trace w) fd len Hpos) as (Hs & Ho & _).
  fold c a in Hs, Ho.
  destruct (decide (fd' = fd)) as [->|Hne]; [|rewrite Ho by done; by apply He].
  rewrite Hs. simpl. apply prefix_app_r. by apply He.
Qed.

Lemma buf_ok_recv tr fd b :
  let c := Recv fd BUF_CAPACITY in
  let a := os tr c in
  consistent os tr → 0 < ret a → size b = 0 → buf_ok os tr fd b →
  buf_ok os (tr ++ [(c, a)]) fd (received a b).
Proof.
  intros c a Hc Hpos Hsz [Hlen _ Hst].
  destruct (recv_bound os tr fd BUF_CAPACITY Hc Hpos) as [Hret Hle]. fold c a in Hret, Hle.
  constructor; simpl.
  - rewrite length_app, length_drop, Hlen. unfold BUF_CAPACITY in *. lia.
  - lia.
  - intros Hg. pose proof (recv_stream tr fd BUF_CAPACITY Hpos) as [Hs _]. fold c a in Hs.
    rewrite Hs. simpl.
    rewrite (Hst Hg), Hsz, take_0, app_nil_r. f_equal. rewrite take_app_length'; [done|lia].
Qed.

(** A connection that is accepted has an empty stream. *)
Lemma accept_stream tr l :
  let c := Accept l in
  let a := os tr c in
  0 ≤ ret a →
  stream (ret a) (tr ++ [(c, a)]) = ([], []) ∧
  (∀ fd, fd ≠ ret a → stream fd (tr ++ [(c, a)]) = stream fd tr) ∧
  deliveries (tr ++ [(c, a)]) = S (deliveries tr).
Proof.
  intros c a Ha. split; [|split].
  - rewrite stream_snoc. simpl. by rewrite (proj2 (Z.leb_le _ _) Ha), Z.eqb_refl.
  - intros fd Hne. rewrite stream_snoc. simpl.
    by rewrite (proj2 (Z.eqb_neq (ret a) fd)), andb_false_r by done.
  - rewrite deliveries_snoc. simpl. rewrite (proj2 (Z.leb_le _ _) Ha). lia.
Qed.

Lemma echoes_accept w h l :
  let c := Accept l in
  let a := os (trace w) c in
  0 ≤ ret a → echoes os w → echoes os (World h (trace w ++ [(c, a)])).
Proof.
  intros c a Ha He Hg fd. simpl. pose proof (accept_stream (trace w) l Ha) as (Hs & Ho & _).
  fold c a in Hs, Ho.
  destruct (decide (fd = ret a)) as [->|Hne]; [by rewrite Hs|]. rewrite Ho by done. by apply He.
Qed.

Lemma buf_ok_new tr fd :
  stream fd tr = ([], []) → buf_ok os tr fd (Buffer 0 (replicate (Z.to_nat BUF_CAPACITY) 0)).
Proof.
  intros Hs. constructor; simpl; [done|unfold BUF_CAPACITY; lia|]. by rewrite Hs.
Qed.

(** *** Setting up *)

Lemma fresh_call w c :
  fresh os w → setting_up c = true →
  fresh os (World (mem w) (trace w ++ [(c, os (trace w) c)])).
Proof.
  intros [Hc Hs] Hq. split; [by constructor|]. apply Forall_app. split; [done|].
  by apply Forall_singleton.
Qed.

Lemma fresh_echoes w : fresh os w → echoes os w.
Proof. intros [_ Hs] _ fd. by rewrite stream_setting_up. Qed.

(** One listening socket: it is new and stays open, or none does. *)
Lemma wp_listen_fd rp w (Q : option Z → world → Prop) :
  fresh os w →
  (∀ w', mem w' = mem w → fresh os w' → opened (trace w') = opened (trace w) → Q None w') →
  (∀ w' lfd, mem w' = mem w → fresh os w' → lfd ∉ opened (trace w) →
     opened (trace w') = {[lfd]} ∪ opened (trace w) → Q (Some lfd) w') →
  wp (listen_fd os rp) w Q.
Proof.
  intros Hf HQn HQs. unfold listen_fd. wp_step. apply wp_sys.
  pose proof (socket_fresh os (trace w) rp (proj1 Hf)) as Hnew.
  pose proof (fresh_call w (Socket rp) Hf eq_refl) as Hf1.
  set (lfd := ret (os (trace w) (Socket rp))) in *.
  set (w1 := World (mem w) _) in *.
  destruct (Z.ltb_spec lfd 0) as [Hneg|Hge].
  { wp_step. apply HQn; [done..|]. subst w1. simpl. rewrite opened_snoc. simpl. fold lfd.
    by rewrite (proj2 (Z.ltb_lt _ _)). }
  assert (opened (trace w1) = {[lfd]} ∪ opened (trace w)) as Ho1.
  { subst w1. simpl. rewrite opened_snoc. simpl. fold lfd.
    by rewrite (proj2 (Z.ltb_ge _ _)). }
  assert (∀ w', mem w' = mem w → fresh os w' → opened (trace w') = opened (trace w1) →
    wp (sys os (Close lfd);; mret None) w' Q) as Hclose.
  { intros w' Hm Hf' Ho. wp_step. apply wp_sys. wp_step.
    apply HQn; [done|by apply fresh_call|]. simpl. rewrite opened_snoc. simpl.
    rewrite Ho, Ho1. by apply difference_added, Hnew. }
  assert (∀ w' c, mem w' = mem w → fresh os w' → opened (trace w') = opened (trace w1) →
    match c with Setsockopt _ _ | Bind _ _ => True | _ => False end →
    let w2 := World (mem w') (trace w' ++ [(c, os (trace w') c)]) in
    mem w2 = mem w ∧ fresh os w2 ∧ opened (trace w2) = opened (trace w1)) as Hcall.
  { intros w' c Hm Hf' Ho Hc w2. subst w2. split; [done|]. split.
    - apply fresh_call; [done|by destruct c].
    - simpl. rewrite opened_snoc. by destruct c. }
  wp_step. apply wp_sys.
  destruct (Hcall w1 (Setsockopt lfd SO_REUSEADDR)) as (Hm2 & Hf2 & Ho2); [done..|].
  set (w2 := World (mem w1) _) in *.
  case_match; [by apply Hclose|]. wp_step. apply wp_sys.
  destruct (Hcall w2 (Setsockopt lfd SO_REUSEPORT)) as (Hm3 & Hf3 & Ho3); [done..|].
  set (w3 := World (mem w2) _) in *.
  case_match; [by apply Hclose|]. wp_step. apply wp_sys.
  destruct (Hcall w3 (Bind lfd rp)) as (Hm4 & Hf4 & Ho4); [done..|].
  set (w4 := World (mem w3) _) in *.
  case_match; [by apply Hclose|]. wp_step. apply HQs; [done|done|by apply Hnew|].
  by rewrite Ho4, Ho1.
Qed.

Lemma wp_init_loop rps : ∀ lfds nlfd w O max (Q : Z * list Z → world → Prop),
  fresh os w → 0 ≤ nlfd < max → max ≤ Z.of_nat (length lfds) →
  opened (trace w) = O ∪ list_to_set (take (Z.to_nat nlfd) lfds) →
  (∀ w' n l, mem w' = mem w → fresh os w' → 0 ≤ n ≤ max → length l = length lfds →
     opened (trace w') = O ∪ list_to_set (take (Z.to_nat n) l) → Q (n, l) w') →
  wp (init_loop os rps lfds nlfd max) w Q.
Proof.
  induction rps as [|rp rps IH]; intros lfds nlfd w O max Q Hf Hn Hmax Ho HQ; simpl.
  { wp_step. apply HQ; try done. lia. }
  wp_step. apply wp_listen_fd; [done|..].
  - intros w' Hm Hf' Ho'. apply (IH _ _ _ O); try done; [congruence|].
    intros w2 n l Hm2. rewrite Hm in Hm2. by apply HQ.
  - intros w' lfd Hm Hf' Hnew Ho'. wp_step. unfold array_set.
    rewrite (proj2 (Z.leb_le _ _)), (proj2 (Z.ltb_lt _ _)) by lia. simpl. wp_step.
    assert (opened (trace w') =
      O ∪ list_to_set (take (Z.to_nat (nlfd + 1)) (<[Z.to_nat nlfd := lfd]> lfds))) as Ho2.
    { rewrite Z2Nat.inj_add, Nat.add_1_r by lia.
      rewrite (take_S_r _ _ lfd) by (apply list_lookup_insert_eq; lia).
      rewrite take_insert_ge, list_to_set_app_L by lia. simpl.
      rewrite Ho', Ho. apply set_eq. intros x. rewrite !elem_of_union, elem_of_empty. tauto. }
    destruct (Z.leb_spec max (nlfd + 1)).
    + wp_step. apply HQ; try done; [lia|by rewrite length_insert].
    + apply (IH _ _ _ O); try done; [lia|by rewrite length_insert|].
      intros w2 n l Hm2 ? ? Hl. rewrite length_insert in Hl. rewrite Hm in Hm2. by apply HQ.
Qed.

Lemma wp_init_listen_fds lfds max w (Q : Z * list Z → world → Prop) :
  fresh os w → 0 < max ≤ Z.of_nat (length lfds) →
  (∀ w' n l, mem w' = mem w → fresh os w' → n = -1 ∨ 0 ≤ n ≤ max → length l = length lfds →
     opened (trace w') = opened (trace w) ∪ list_to_set (take (Z.to_nat n) l) →
     Q (n, l) w') →
  wp (init_listen_fds os lfds max) w Q.
Proof.
  intros Hf Hmax HQ. unfold init_listen_fds. wp_step. apply wp_sys.
  pose proof (fresh_call w Getaddrinfo Hf eq_refl) as Hf1. set (w1 := World (mem w) _) in *.
  assert (opened (trace w1) = opened (trace w)) as Ho1.
  { subst w1. simpl. by rewrite opened_snoc. }
  destruct (negb _).
  - wp_step. apply HQ; try done; [by left|]. simpl. by rewrite union_empty_r_L.
  - apply (wp_init_loop _ _ _ _ (opened (trace w))); [done|lia|lia|..].
    + simpl. by rewrite union_empty_r_L.
    + intros w' n l Hm Hf' Hn Hl Ho. apply HQ; try done. by right.
Qed.

Lemma wp_each_fd f fds w (Q : bool → world → Prop) :
  fresh os w →
  (∀ fd w' (Q' : Z → world → Prop), fresh os w' →
     (∀ r w2, mem w2 = mem w' → fresh os w2 → Q' r w2) → wp (f fd) w' Q') →
  (∀ b w', mem w' = mem w → fresh os w' → Q b w') →
  wp (each_fd f fds) w Q.
Proof.
  intros Hfr Hf. revert w Q Hfr. induction fds as [|fd fds IH]; intros w Q Hfr HQ; simpl.
  { wp_step. by apply HQ. }
  wp_step. apply Hf; [done|]. intros r w2 Hm Hf2. destruct (r <? 0).
  - wp_step. by apply HQ.
  - apply IH; [done|]. intros b w' Hm'. rewrite Hm in Hm'. by apply HQ.
Qed.

Lemma wp_close_all fds w (Q : unit → world → Prop) :
  echoes os w → (∀ w', echoes os w' → Q tt w') → wp (close_all os fds) w Q.
Proof.
  revert w. induction fds as [|fd fds IH]; intros w He HQ; simpl.
  { wp_step. by apply HQ. }
  wp_step. apply wp_sys. apply IH; [|done].
  intros Hg fd'. simpl. rewrite stream_snoc. by apply He.
Qed.


Lemma wp_fcntl_fresh fd w (Q : Z → world → Prop) :
  fresh os w → (∀ r w2, mem w2 = mem w → fresh os w2 → Q r w2) →
  wp (set_nonblocking os fd) w Q.
Proof.
  intros Hf HQ. unfold set_nonblocking. wp_step. apply wp_sys.
  pose proof (fresh_call w (GetFlags fd) Hf eq_refl) as Hf2.
  case_match; [wp_step; by apply HQ|]. wp_step. apply wp_sys.
  set (w2 := World (mem w) _) in *. set (c := SetFlags _ _).
  pose proof (fresh_call w2 c Hf2 eq_refl) as Hf3.
  case_match; wp_step; by apply HQ.
Qed.

(** [main]: what the loop of the platform is started from, and what is left
    to show of it. *)
Lemma wp_main_with serve w (Q : option Z → world → Prop) :
  fresh os w →
  (∀ r w', echoes os w' → 0 < r < 4 → Q (Some r) w') →
  (∀ n l w', mem w' = mem w → fresh os w' →
     wp (serve l n) w' (λ r w2,
       match r with
       | None => Q None w2
       | Some r => echoes os w2 ∧ ∀ w3, echoes os w3 → Q (Some r) w3
       end)) →
  wp (main_with os serve) w Q.
Proof.
  intros Hf HQ Hserve. unfold main_with. wp_step.
  apply wp_init_listen_fds; [done|by vm_compute|]. intros w1 n l Hm Hf1 _ _ _.
  destruct (n <=? 0); [wp_step; apply HQ; [by apply fresh_echoes|lia]|].
  wp_step. apply wp_each_fd; [done|by intros; apply wp_fcntl_fresh|].
  intros b1 w2 Hm2 Hf2. destruct b1; simpl;
    [|wp_step; apply HQ; [by apply fresh_echoes|lia]].
  wp_step. apply wp_each_fd; [done|..].
  { intros fd w' Q' Hf' HQ'. wp_step. apply wp_sys. wp_step.
    apply HQ'; [done|]. by apply fresh_call. }
  intros b2 w3 Hm3 Hf3. destruct b2; simpl;
    [|wp_step; apply HQ; [by apply fresh_echoes|lia]].
  wp_step. eapply wp_mono; [apply Hserve; [congruence|done]|].
  intros [r|] w4; [intros [He HQr]|intros HQr]; [|by wp_step].
  wp_step. apply wp_close_all; [done|]. intros w5 He5. wp_step. by apply HQr.
Qed.
End io.

Lemma fresh_start os oom : fresh os (World (heap_empty oom) []).
Proof. split; constructor. Qed.
