(* ===== verification/ShoutProofs.v ===== *)
(** The properties of the Linux half of the shout server.  A history of system
    calls determines what is registered with epoll, and what each connection
    has received and sent ([ShoutIO.v]); the invariant of the epoll loop ties the heap to that: one [user_data] per
    registered descriptor, one buffer per connection, nothing else allocated,
    and in each buffer what was received and is still to be sent. *)
From S2P Require Import Prelude Mem ShoutServer ShoutIO.
#[local] Open Scope Z_scope.

(** ** What a history says *)

(** The epoll registrations: the [user_data] of each descriptor. *)
Definition reg_step (m : gmap Z ptr) (e : syscall * answer) : gmap Z ptr :=
  let '(c, a) := e in
  match c with
  | EpollAdd _ fd _ ud => if ret a <? 0 then m else <[fd := ud]> m
  | EpollDel _ fd => if ret a <? 0 then m else delete fd m
  | Close fd => delete fd m
  | _ => m
  end.

Definition registered (tr : history) : gmap Z ptr := foldl reg_step ∅ tr.

Lemma registered_snoc tr e : registered (tr ++ [e]) = reg_step (registered tr) e.
Proof. unfold registered. by rewrite foldl_app. Qed.

#[export] Instance epoll_registry : Registry (gmap Z ptr).
Proof.
  refine {| reg_of := registered |}.
  intros tr c a Hc. rewrite registered_snoc. by destruct c.
Defined.

Section os.
Context (os : history → syscall → answer).

(** Documented behaviour: [accept] returns a descriptor not in use; [epoll_ctl]
    refuses a descriptor already registered; [epoll_wait] reports
    registrations, each once. *)
Record os_ok : Prop := {
  os_io : io_ok os;
  accept_fresh : ∀ tr l, consistent os tr → 0 ≤ ret (os tr (Accept l)) →
    registered tr !! ret (os tr (Accept l)) = None;
  add_exists : ∀ tr epfd fd evs ud, consistent os tr → is_Some (registered tr !! fd) →
    ret (os tr (EpollAdd epfd fd evs ud)) < 0;
  wait_registered : ∀ tr epfd max e p, consistent os tr →
    (e, p) ∈ ready (os tr (EpollWait epfd max)) → ∃ fd, registered tr !! fd = Some p;
  wait_nodup : ∀ tr epfd max, consistent os tr →
    NoDup ((ready (os tr (EpollWait epfd max))).*2)
}.
End os.

(** ** The state the heap represents *)

(** A registered descriptor: the block of its [user_data], and for a
    connection the block and the value of its buffer. *)
Record conn := Conn { pud : positive; cbuf : option (positive * buffer) }.

Definition buf_ptr (c : conn) : ptr :=
  match cbuf c with Some (bb, _) => Ptr bb 0 | None => Null end.

Definition conn_ptr (c : conn) : ptr := Ptr (pud c) 0.

(** The heap holds the [user_data] and the buffers of [conns], and nothing
    else. *)
Record rep (conns : gmap Z conn) (m : gmap positive (list (option obj))) : Prop := {
  rep_pud : ∀ fd c, conns !! fd = Some c →
    m !! pud c = Some [Some (OPud (UserData fd (buf_ptr c)))];
  rep_buf : ∀ fd c bb b, conns !! fd = Some c → cbuf c = Some (bb, b) →
    m !! bb = Some [Some (OBuf b)];
  rep_inj : ∀ fd fd' c c' bb b b', conns !! fd = Some c → conns !! fd' = Some c' →
    cbuf c = Some (bb, b) → cbuf c' = Some (bb, b') → fd = fd';
  rep_own : ∀ k, is_Some (m !! k) → ∃ fd c, conns !! fd = Some c ∧
    (k = pud c ∨ ∃ b, cbuf c = Some (k, b))
}.

(** The invariant of the event loop; the buffer of [x], which is being
    handled, is left out. *)
Record Inv (os : history → syscall → answer) (lfds : list Z) (x : option Z)
    (conns : gmap Z conn) (w : world) : Prop := {
  inv_cons : consistent os (trace w);
  inv_wf : heap_wf (mem w);
  inv_rep : rep conns (blocks (mem w));
  inv_reg : registered (trace w) = conn_ptr <$> conns;
  inv_lis : ∀ fd c, conns !! fd = Some c → (fd ∈ lfds ↔ cbuf c = None);
  inv_all : ∀ fd, fd ∈ lfds → is_Some (conns !! fd);
  inv_buf : ∀ fd c bb b, conns !! fd = Some c → cbuf c = Some (bb, b) → Some fd ≠ x →
    buf_ok os (trace w) fd b;
  inv_echo : echoes os w
}.

(** The other descriptors stay as they are. *)
Definition keeps (fd : Z) (conns conns' : gmap Z conn) : Prop :=
  ∀ fd' c, fd' ≠ fd → conns !! fd' = Some c → conns' !! fd' = Some c.

(** ** Lemmas on the representation *)

Lemma rep_pud_ne_buf conns m fd c fd' c' bb b :
  rep conns m → conns !! fd = Some c → conns !! fd' = Some c' →
  cbuf c' = Some (bb, b) → pud c ≠ bb.
Proof.
  intros Hr Hc Hc' Hb Heq. pose proof (rep_pud _ _ Hr _ _ Hc) as H1.
  pose proof (rep_buf _ _ Hr _ _ _ _ Hc' Hb) as H2. congruence.
Qed.

Lemma rep_pud_inj conns m fd c fd' c' :
  rep conns m → conns !! fd = Some c → conns !! fd' = Some c' → pud c = pud c' → fd = fd'.
Proof.
  intros Hr Hc Hc' Heq. pose proof (rep_pud _ _ Hr _ _ Hc) as H1.
  pose proof (rep_pud _ _ Hr _ _ Hc') as H2. congruence.
Qed.

Lemma rep_store conns m fd p bb b b' :
  rep conns m → conns !! fd = Some (Conn p (Some (bb, b))) →
  rep (<[fd := Conn p (Some (bb, b'))]> conns) (<[bb := [Some (OBuf b')]]> m).
Proof.
  intros Hr Hc. constructor.
  - intros fd' c [[<- <-]|[Hne Hc']]%lookup_insert_Some.
    + simpl. rewrite lookup_insert_ne; [by apply (rep_pud _ _ Hr _ _ Hc)|].
      intros ->. by eapply (rep_pud_ne_buf _ _ _ _ _ _ _ _ Hr Hc Hc).
    + rewrite lookup_insert_ne; [by apply (rep_pud _ _ Hr)|].
      intros ->. by eapply (rep_pud_ne_buf _ _ _ _ _ _ _ _ Hr Hc' Hc).
  - intros fd' c bb' b'' [[<- <-]|[Hne Hc']]%lookup_insert_Some Hb; simplify_eq/=.
    + by rewrite lookup_insert_eq.
    + rewrite lookup_insert_ne; [by eapply (rep_buf _ _ Hr)|].
      intros ->. by apply Hne, (rep_inj _ _ Hr _ _ _ _ bb' b b'' Hc Hc').
  - intros fd1 fd2 c1 c2 bb' b1 b2
      [[<- <-]|[? H1]]%lookup_insert_Some [[<- <-]|[? H2]]%lookup_insert_Some Hb1 Hb2;
      simplify_eq/=; try done; by eapply (rep_inj _ _ Hr).
  - intros k Hk. assert (is_Some (m !! k)) as Hk'.
    { destruct (decide (k = bb)) as [->|].
      - eexists. by eapply (rep_buf _ _ Hr).
      - by rewrite lookup_insert_ne in Hk. }
    destruct (rep_own _ _ Hr k Hk') as (fd' & c & Hc' & Hown).
    destruct (decide (fd' = fd)) as [->|Hne].
    + exists fd. eexists. rewrite lookup_insert_eq. split; [done|]. simplify_eq/=.
      destruct Hown as [?|[? ?]]; [by left|right]. simplify_eq. eauto.
    + exists fd', c. by rewrite lookup_insert_ne.
Qed.

Lemma rep_delete conns m fd p bb b :
  rep conns m → conns !! fd = Some (Conn p (Some (bb, b))) →
  rep (delete fd conns) (delete p (delete bb m)).
Proof.
  intros Hr Hc. constructor.
  - intros fd' c [Hne Hc']%lookup_delete_Some.
    rewrite !lookup_delete_ne; [by apply (rep_pud _ _ Hr)|..].
    + intros ->. by eapply (rep_pud_ne_buf _ _ _ _ _ _ _ _ Hr Hc' Hc).
    + intros ->. by apply Hne, (rep_pud_inj _ _ _ _ _ _ Hr Hc Hc').
  - intros fd' c bb' b' [Hne Hc']%lookup_delete_Some Hb.
    rewrite !lookup_delete_ne; [by eapply (rep_buf _ _ Hr)|..].
    + intros ->. by apply Hne, (rep_inj _ _ Hr _ _ _ _ bb' b b' Hc Hc').
    + intros ->. by eapply (rep_pud_ne_buf _ _ _ _ _ _ _ _ Hr Hc Hc').
  - intros fd1 fd2 c1 c2 bb' b1 b2 [_ H1]%lookup_delete_Some [_ H2]%lookup_delete_Some.
    by apply (rep_inj _ _ Hr).
  - intros k [l [Hk1 [Hk2 Hk]%lookup_delete_Some]%lookup_delete_Some].
    destruct (rep_own _ _ Hr k) as (fd' & c & Hc' & Hown); [by eexists|].
    exists fd', c. split; [|done]. apply lookup_delete_Some. split; [|done].
    intros <-. simplify_eq/=. destruct Hown as [?|[? ?]]; by simplify_eq/=.
Qed.

(** A new descriptor whose [user_data], and buffer if any, are fresh blocks. *)
Lemma rep_add conns m fd p ob :
  rep conns m → conns !! fd = None → m !! p = None →
  match ob with Some (bb, _) => m !! bb = None ∧ bb ≠ p | None => True end →
  rep (<[fd := Conn p ob]> conns)
      (<[p := [Some (OPud (UserData fd (buf_ptr (Conn p ob))))]]>
         (match ob with Some (bb, b) => <[bb := [Some (OBuf b)]]> m | None => m end)).
Proof.
  intros Hr Hfd Hp Hob.
  assert (∀ fd' c, conns !! fd' = Some c → pud c ≠ p ∧
    ∀ bb b, cbuf c = Some (bb, b) → bb ≠ p) as Hold.
  { intros fd' c Hc. split.
    - intros <-. pose proof (rep_pud _ _ Hr _ _ Hc). congruence.
    - intros bb b Hb <-. pose proof (rep_buf _ _ Hr _ _ _ _ Hc Hb). congruence. }
  assert (∀ fd' c bb b, conns !! fd' = Some c → ob = Some (bb, b) → pud c ≠ bb ∧
    ∀ bb' b', cbuf c = Some (bb', b') → bb' ≠ bb) as Hold'.
  { intros fd' c bb b Hc ->. destruct Hob as [Hbb _]. split.
    - intros <-. pose proof (rep_pud _ _ Hr _ _ Hc). congruence.
    - intros bb' b' Hb <-. pose proof (rep_buf _ _ Hr _ _ _ _ Hc Hb). congruence. }
  constructor.
  - intros fd' c [[<- <-]|[Hne Hc]]%lookup_insert_Some; [by rewrite lookup_insert_eq|].
    destruct (Hold _ _ Hc) as [Hnp _]. rewrite lookup_insert_ne by done.
    destruct ob as [[bb b]|]; [|by apply (rep_pud _ _ Hr)].
    destruct (Hold' _ _ _ _ Hc eq_refl) as [Hnb _].
    rewrite lookup_insert_ne by done. by apply (rep_pud _ _ Hr).
  - intros fd' c bb' b' [[<- <-]|[Hne Hc]]%lookup_insert_Some Hb; simpl in Hb.
    + subst ob. destruct Hob as [_ Hbp]. by rewrite lookup_insert_ne, lookup_insert_eq.
    + destruct (Hold _ _ Hc) as [_ Hnp]. rewrite lookup_insert_ne by (by eapply not_eq_sym, Hnp).
      destruct ob as [[bb b]|]; [|by eapply (rep_buf _ _ Hr)].
      destruct (Hold' _ _ _ _ Hc eq_refl) as [_ Hnb].
      rewrite lookup_insert_ne by (by eapply not_eq_sym, Hnb). by eapply (rep_buf _ _ Hr).
  - intros fd1 fd2 c1 c2 bb' b1 b2
      [[<- <-]|[? H1]]%lookup_insert_Some [[<- <-]|[? H2]]%lookup_insert_Some Hb1 Hb2;
      simpl in *; try done.
    + destruct (Hold' _ _ _ _ H2 Hb1) as [_ Hn]. by destruct (Hn _ _ Hb2).
    + destruct (Hold' _ _ _ _ H1 Hb2) as [_ Hn]. by destruct (Hn _ _ Hb1).
    + by eapply (rep_inj _ _ Hr).
  - intros k Hk. destruct (decide (k = p)) as [->|Hkp].
    { exists fd. eexists. rewrite lookup_insert_eq. split; [done|by left]. }
    rewrite lookup_insert_ne in Hk by done.
    assert ((∃ b, ob = Some (k, b)) ∨ is_Some (m !! k)) as [[b ->]|Hm].
    { destruct ob as [[bb b]|]; [|by right]. destruct (decide (k = bb)) as [->|]; [left; eauto|].
      rewrite lookup_insert_ne in Hk by done. by right. }
    { exists fd. eexists. rewrite lookup_insert_eq. split; [done|right; by eexists]. }
    destruct (rep_own _ _ Hr k Hm) as (fd' & c & Hc & Hown).
    exists fd', c. split; [|done]. rewrite lookup_insert_ne; [done|]. congruence.
Qed.

Section proofs.
Context (os : history → syscall → answer) (Hos : os_ok os).
Implicit Types (w : world) (tr : history) (conns : gmap Z conn).
#[local] Instance: io_ok os := os_io _ Hos.
#[local] Abbreviation same := (same os).
#[local] Abbreviation sends := (sends os).

Lemma inv_same lfds x conns w tr :
  Inv os lfds x conns w → same (trace w) tr → Inv os lfds x conns (World (mem w) tr).
Proof.
  intros [] []. constructor; simpl; try done.
  - by rewrite <-inv_reg0.
  - intros fd c bb b Hc Hb Hx. eapply buf_ok_stream; [by eapply inv_buf0|done].
  - by eapply echoes_stream.
Qed.

(** A call that changes nothing, not on the epoll descriptor. *)
Lemma inv_call lfds x conns w c :
  Inv os lfds x conns w →
  match c with
  | Recv _ _ | Send _ _ => ret (os (trace w) c) ≤ 0
  | Accept _ => ret (os (trace w) c) < 0
  | Close fd => conns !! fd = None
  | _ => plain c = true
  end → Inv os lfds x conns (World (mem w) (trace w ++ [(c, os (trace w) c)])).
Proof.
  intros Hinv Hc. apply inv_same; [done|]. apply same_quiet; [apply Hinv|by destruct c|].
  unfold reg_of. simpl. rewrite registered_snoc. destruct c; try done.
  simpl. apply delete_id. by rewrite (inv_reg _ _ _ _ _ Hinv), lookup_fmap, Hc.
Qed.

(** [ep_add]: either nothing changed, or there is one more block, the new
    [user_data], registered. *)
Lemma wp_ep_add epfd fd evs b w (Q : Z → world → Prop) :
  consistent os (trace w) → heap_wf (mem w) →
  (∀ r h tr, r < 0 → blocks h = blocks (mem w) → heap_wf h → same (trace w) tr →
     Q r (World h tr)) →
  (∀ p h, blocks (mem w) !! p = None →
     blocks h = <[p := [Some (OPud (UserData fd b))]]> (blocks (mem w)) → heap_wf h →
     let c := EpollAdd epfd fd evs (Ptr p 0) in
     registered (trace w) !! fd = None → 0 ≤ ret (os (trace w) c) →
     Q 0 (World h (trace w ++ [(c, os (trace w) c)]))) →
  wp (ep_add os epfd fd evs b) w Q.
Proof.
  intros Hc Hwf HN HQ. unfold ep_add, calloc. wp_step.
  apply wp_in_heap. simpl. apply wp_alloc_any; [done|..].
  - intros h Hh Hwf'. simpl. wp_step. apply HN; [lia|done..|by apply same_refl].
  - intros p h Hp Hh Hwf'. simpl. wp_step. apply wp_in_heap. simpl.
    eapply wp_store; [by rewrite Hh, lookup_insert_eq|simpl; lia|]. simpl.
    rewrite Hh, insert_insert_eq. wp_step. apply wp_sys. simpl.
    set (c := EpollAdd epfd fd evs (Ptr p 0)).
    assert (heap_wf (set_blocks h (<[p:=[Some (OPud (UserData fd b))]]> (blocks (mem w)))))
      as Hwf2.
    { intros k Hk. simpl in *. pose proof (Hwf' k Hk) as Hn. rewrite Hh in Hn.
      apply lookup_insert_None in Hn as [Hn Hne]. by rewrite lookup_insert_ne. }
    destruct (Z.ltb_spec (ret (os (trace w) c)) 0) as [Hlt|Hge].
    + wp_step. apply wp_in_heap. simpl. eapply wp_free; [simpl; by rewrite lookup_insert_eq|].
      simpl. wp_step. apply HN; [lia| | |].
      * simpl. by rewrite delete_insert_id.
      * by apply (heap_wf_delete _ p) in Hwf2.
      * apply same_quiet; [done..|]. unfold reg_of. simpl. rewrite registered_snoc. simpl.
        by rewrite (proj2 (Z.ltb_lt _ _)).
    + wp_step. apply HQ; try done.
      destruct (registered (trace w) !! fd) eqn:E; [|done].
      pose proof (add_exists _ Hos (trace w) epfd fd evs (Ptr p 0) Hc ltac:(eauto)).
      subst c. lia.
Qed.

(** [cleanup] of a connection. *)
Lemma wp_cleanup lfds x epfd conns w fd p bb b (Q : unit → world → Prop) :
  Inv os lfds x conns w → conns !! fd = Some (Conn p (Some (bb, b))) →
  x = None ∨ x = Some fd →
  (∀ w', Inv os lfds None (delete fd conns) w' →
     deliveries (trace w') = deliveries (trace w) → Q tt w') →
  wp (cleanup os epfd (Ptr p 0)) w Q.
Proof.
  intros Hinv Hc Hx HQ. pose proof (inv_rep _ _ _ _ _ Hinv) as Hrep.
  pose proof (rep_pud _ _ Hrep _ _ Hc) as Hp. simpl in Hp.
  pose proof (rep_buf _ _ Hrep _ _ _ _ Hc eq_refl) as Hb. simpl in Hb.
  pose proof (rep_pud_ne_buf _ _ _ _ _ _ _ _ Hrep Hc Hc eq_refl) as Hne. simpl in Hne.
  unfold cleanup, load_pud. do 2 wp_step. apply wp_in_heap.
  eapply wp_load; [done|done|done|]. simpl. wp_step. wp_step. apply wp_sys. simpl.
  wp_step. apply wp_sys. simpl. wp_step. apply wp_in_heap. simpl.
  eapply wp_free; [done|]. simpl. apply wp_in_heap. simpl.
  eapply wp_free; [simpl; by rewrite lookup_delete_ne|]. simpl.
  set (tr1 := trace w ++ _). set (tr2 := tr1 ++ _).
  assert (consistent os tr2) as Hcons by (do 2 constructor; apply Hinv).
  assert (∀ fd', stream fd' tr2 = stream fd' (trace w)) as Hst.
  { intros fd'. subst tr1 tr2. by rewrite !stream_snoc. }
  assert (registered tr2 = conn_ptr <$> delete fd conns) as Hreg.
  { subst tr1 tr2. rewrite !registered_snoc. simpl.
    rewrite (inv_reg _ _ _ _ _ Hinv), fmap_delete.
    destruct (_ <? 0); [done|]. by rewrite delete_delete_eq. }
  assert (deliveries tr2 = deliveries (trace w)) as Hdel.
  { subst tr1 tr2. rewrite !deliveries_snoc. simpl. lia. }
  apply HQ; [|done]. constructor; simpl; try done.
  - pose proof (inv_wf _ _ _ _ _ Hinv) as Hwf.
    apply (heap_wf_delete (mem w) bb), (heap_wf_delete _ p) in Hwf. done.
  - by apply rep_delete with (b:=b).
  - intros fd' c [_ Hc']%lookup_delete_Some. by apply (inv_lis _ _ _ _ _ Hinv).
  - intros fd' Hl. rewrite lookup_delete_ne; [by apply Hinv|]. intros <-.
    by apply (inv_lis _ _ _ _ _ Hinv fd _ Hc) in Hl.
  - intros fd' c bb' b' [Hne' Hc']%lookup_delete_Some Hb' _.
    destruct (inv_buf _ _ _ _ _ Hinv fd' c bb' b') as [? ? Hs]; try done.
    { destruct Hx as [->| ->]; congruence. }
    constructor; try done. by rewrite Hst.
  - eapply echoes_stream; [by apply Hinv|done].
Qed.

(** *** The buffer of a connection *)

Lemma wp_load_pud lfds x conns w fd c (Q : user_data → world → Prop) :
  Inv os lfds x conns w → conns !! fd = Some c →
  Q (UserData fd (buf_ptr c)) w → wp (load_pud (conn_ptr c)) w Q.
Proof.
  intros Hinv Hc HQ. unfold load_pud. wp_step. apply wp_in_heap.
  eapply wp_load; [by apply (rep_pud _ _ (inv_rep _ _ _ _ _ Hinv))|done|done|].
  simpl. wp_step. by destruct w.
Qed.

Lemma wp_load_buf lfds x conns w fd p bb b (Q : buffer → world → Prop) :
  Inv os lfds x conns w → conns !! fd = Some (Conn p (Some (bb, b))) →
  Q b w → wp (load_buf (Ptr bb 0)) w Q.
Proof.
  intros Hinv Hc. eapply wp_load_buf_at.
  by eapply (rep_buf _ _ (inv_rep _ _ _ _ _ Hinv) _ _ _ _ Hc).
Qed.

(** The invariant with another value of a connection's buffer. *)
Lemma inv_set_buf lfds x conns w fd p bb b b' :
  Inv os lfds x conns w → conns !! fd = Some (Conn p (Some (bb, b))) →
  x = None ∨ x = Some fd → buf_ok os (trace w) fd b' →
  Inv os lfds None (<[fd := Conn p (Some (bb, b'))]> conns) (set_buf w bb b').
Proof.
  intros Hinv Hc Hx Hok. pose proof (inv_rep _ _ _ _ _ Hinv) as Hrep.
  pose proof (rep_buf _ _ Hrep _ _ _ _ Hc eq_refl) as Hb. simpl in Hb.
  constructor; simpl; try apply Hinv.
  - apply heap_wf_insert; [apply Hinv|eauto].
  - by apply rep_store with (b:=b).
  - rewrite (inv_reg _ _ _ _ _ Hinv), fmap_insert. symmetry. apply insert_id.
    by rewrite lookup_fmap, Hc.
  - intros fd' c [[<- <-]|[Hne Hc']]%lookup_insert_Some; [|by apply (inv_lis _ _ _ _ _ Hinv)].
    rewrite (inv_lis _ _ _ _ _ Hinv fd _ Hc). done.
  - intros fd' Hl. destruct (decide (fd = fd')) as [->|Hne].
    + rewrite lookup_insert_eq. eauto.
    + rewrite lookup_insert_ne by done. by apply Hinv.
  - intros fd' c bb' b'' [[<- <-]|[Hne Hc']]%lookup_insert_Some Hb' _; [by simplify_eq/=|].
    apply (inv_buf _ _ _ _ _ Hinv fd' c bb' b''); try done.
    destruct Hx as [->| ->]; congruence.
Qed.

(** The invariant while the buffer of [fd] is being sent. *)
Lemma inv_sends lfds x conns w fd b r tr :
  Inv os lfds x conns w → x = None ∨ x = Some fd → buf_ok os (trace w) fd b →
  sends fd (data b) (size b) (trace w) r tr →
  Inv os lfds (Some fd) conns (World (mem w) tr).
Proof.
  intros Hinv Hx Hok Hs. pose proof Hs as []. destruct Hinv.
  constructor; simpl; try done.
  - unfold reg_of in sends_reg. simpl in sends_reg. congruence.
  - intros fd' c bb' b' Hc Hb Hne. eapply buf_ok_stream; [|apply sends_other; congruence].
    eapply inv_buf0; [done|done|]. destruct Hx as [->| ->]; [done|congruence].
  - by eapply (echoes_sends os).
Qed.

(** [keep_rest] after a [do_send] of the whole buffer that sent [r > 0]. *)
Lemma wp_keep_rest lfds conns w0 w fd p bb b r (Q : bool → world → Prop) :
  Inv os lfds (Some fd) conns w → conns !! fd = Some (Conn p (Some (bb, b))) →
  buf_ok os (trace w0) fd b → sends fd (data b) (size b) (trace w0) r (trace w) → 0 < r →
  (∀ w' b', trace w' = trace w →
    Inv os lfds None (<[fd := Conn p (Some (bb, b'))]> conns) w' →
    Q (0 <? size b') w') →
  wp (keep_rest (Ptr bb 0) r) w Q.
Proof.
  intros Hinv Hc Hok Hs Hr HQ. eapply wp_keep_rest_at.
  { exact (rep_buf _ _ (inv_rep _ _ _ _ _ Hinv) _ _ _ _ Hc eq_refl). }
  apply HQ; [done|]. eapply inv_set_buf; [done|done|by right|]. by eapply (buf_ok_rest os).
Qed.

(** *** Events on a connection *)

Lemma keeps_refl fd conns : keeps fd conns conns.
Proof. by intros fd' c _. Qed.

Lemma keeps_trans fd c1 c2 c3 : keeps fd c1 c2 → keeps fd c2 c3 → keeps fd c1 c3.
Proof. intros H1 H2 fd' c Hne Hc. by apply H2, H1. Qed.

Lemma keeps_insert fd c conns : keeps fd conns (<[fd := c]> conns).
Proof. intros fd' c' Hne Hc. by rewrite lookup_insert_ne. Qed.

Lemma keeps_delete fd conns : keeps fd conns (delete fd conns).
Proof. intros fd' c' Hne Hc. by rewrite lookup_delete_ne. Qed.

Lemma wp_flush lfds conns w epfd fd p bb b (Q : bool → world → Prop) :
  Inv os lfds None conns w → conns !! fd = Some (Conn p (Some (bb, b))) →
  (∀ w' conns', Inv os lfds None conns' w' → keeps fd conns conns' → Q true w') →
  (∀ w' b', Inv os lfds None (<[fd := Conn p (Some (bb, b'))]> conns) w' → Q false w') →
  wp (flush os epfd (Ptr p 0) (UserData fd (Ptr bb 0))) w Q.
Proof.
  intros Hinv Hc HQt HQf. pose proof (inv_buf _ _ _ _ _ Hinv fd _ bb b Hc eq_refl) as Hok.
  specialize (Hok ltac:(done)).
  unfold flush. wp_step. eapply wp_load_buf; [done|done|]. wp_step.
  eapply (wp_do_send os); [apply Hinv|by eapply buf_ok_room|]. intros r tr Hs.
  cbn [ShoutServer.fd ShoutServer.buf].
  assert (Inv os lfds (Some fd) conns (World (mem w) tr)) as Hinv'
    by (eapply inv_sends; [done|by left|done|done]).
  destruct (Z.leb_spec r 0); wp_step.
  - eapply wp_cleanup; [done|done|by right|]. intros w' Hw' _. wp_step.
    eapply HQt; [done|apply keeps_delete].
  - eapply wp_keep_rest; [done|done|done|done|done|].
    intros w' b' _ Hw'. wp_step. by eapply HQf.
Qed.

(** The invariant after a chunk is received and stored. *)
Lemma inv_recv lfds conns w fd p bb b :
  let c := Recv fd BUF_CAPACITY in
  let a := os (trace w) c in
  let w1 := World (mem w) (trace w ++ [(c, a)]) in
  Inv os lfds None conns w → conns !! fd = Some (Conn p (Some (bb, b))) → size b = 0 →
  0 < ret a →
  Inv os lfds None (<[fd := Conn p (Some (bb, received a b))]> conns)
    (set_buf w1 bb (received a b)).
Proof.
  intros c a w1 Hinv Hc Hsz Hpos.
  pose proof (inv_buf _ _ _ _ _ Hinv fd _ bb b Hc eq_refl ltac:(done)) as Hok.
  pose proof (recv_stream os (trace w) fd BUF_CAPACITY Hpos) as (Hs & Ho & _).
  fold c a in Hs, Ho.
  apply (inv_set_buf lfds (Some fd) conns w1 fd p bb b);
    [|done|by right|by apply (buf_ok_recv os); [apply Hinv|..]].
  pose proof (inv_echo _ _ _ _ _ Hinv) as He. destruct Hinv. constructor; simpl; try done.
  - by constructor.
  - by rewrite registered_snoc.
  - intros fd' c' bb' b' Hc' Hb' Hne. eapply buf_ok_stream; [by eapply inv_buf0|].
    apply Ho. congruence.
  - by apply echoes_recv.
Qed.

(** An iteration of the receive loop on an empty buffer: the connection is
    left to later events, or it is still open, its buffer is empty again and
    something was delivered. *)
Lemma wp_recv_step lfds conns w epfd fd p bb b (Q : unit + unit → world → Prop) :
  Inv os lfds None conns w → conns !! fd = Some (Conn p (Some (bb, b))) → size b = 0 →
  (∀ w' conns', Inv os lfds None conns' w' → keeps fd conns conns' → Q (inr tt) w') →
  (∀ w' b', Inv os lfds None (<[fd := Conn p (Some (bb, b'))]> conns) w' → size b' = 0 →
    (deliveries (trace w) < deliveries (trace w'))%nat → Q (inl tt) w') →
  wp (recv_step os epfd (Ptr p 0) (UserData fd (Ptr bb 0)) tt) w Q.
Proof.
  intros Hinv Hc Hsz HQr HQl. unfold recv_step. cbn [ShoutServer.fd ShoutServer.buf]. wp_step. apply wp_sys.
  set (c := Recv fd BUF_CAPACITY). set (a := os (trace w) c).
  assert (ret a ≤ 0 → Inv os lfds None conns (World (mem w) (trace w ++ [(c, a)]))) as Hquiet.
  { intros Hle. by apply inv_call. }
  assert (∀ w', Inv os lfds None conns w' →
    wp (cleanup os epfd (Ptr p 0);; mret (inr tt)) w' Q) as Hclean.
  { intros w' Hw'. wp_step. eapply wp_cleanup; [done|done|by left|].
    intros w2 Hw2 _. wp_step. eapply HQr; [done|apply keeps_delete]. }
  destruct (Z.ltb_spec (ret a) 0) as [Hneg|Hge].
  { specialize (Hquiet ltac:(lia)). destruct (negb _ && negb _); [by apply Hclean|].
    wp_step. eapply HQr; [done|apply keeps_refl]. }
  destruct (Z.eqb_spec (ret a) 0) as [Hz|Hnz]; [apply Hclean, Hquiet; lia|].
  wp_step. eapply wp_load_buf_at; [by apply (rep_buf _ _ (inv_rep _ _ _ _ _ Hinv) _ _ _ _ Hc)|].
  wp_step. eapply wp_store_buf_at;
    [by apply (rep_buf _ _ (inv_rep _ _ _ _ _ Hinv) _ _ _ _ Hc)|].
  pose proof (inv_recv lfds conns w fd p bb b Hinv Hc Hsz ltac:(fold c a; lia)) as Hinv1.
  pose proof (recv_stream os (trace w) fd BUF_CAPACITY ltac:(fold c a; lia)) as (_ & _ & Hdel).
  fold c a in Hinv1, Hdel. unfold to_upper_case, received in *.
  set (b1 := Buffer (ret a) _) in *. set (w1 := set_buf _ bb b1) in *.
  wp_step. eapply wp_load_buf; [done|by rewrite lookup_insert_eq|].
  wp_step.
  pose proof (inv_buf _ _ _ _ _ Hinv1 fd _ bb b1 (lookup_insert_eq _ _ _) eq_refl
    ltac:(done)) as Hok1.
  eapply (wp_do_send os fd (data b1) (size b1)); [apply Hinv1|by eapply buf_ok_room|].
  intros r tr Hs.
  assert (Inv os lfds (Some fd) (<[fd:=Conn p (Some (bb, b1))]> conns) (World (mem w1) tr))
    as Hinv2 by (eapply inv_sends; [done|by left|done|done]).
  destruct (Z.leb_spec r 0) as [Hr|Hr]; wp_step.
  - eapply wp_cleanup; [done|by rewrite lookup_insert_eq|by right|]. intros w' Hw' _. wp_step.
    eapply HQr; [done|]. eapply keeps_trans; [apply keeps_insert|apply keeps_delete].
  - eapply wp_keep_rest; [done|by rewrite lookup_insert_eq|done|done|done|].
    intros w' b' Htr' Hw'. rewrite insert_insert_eq in Hw'. wp_step.
    destruct (Z.ltb_spec 0 (size b')) as [Hb'|Hb'].
    + eapply HQr; [done|apply keeps_insert].
    + pose proof (inv_buf _ _ _ _ _ Hw' fd _ bb b' (lookup_insert_eq _ _ _) eq_refl
        ltac:(done)) as [_ Hsz' _].
      eapply HQl; [done|lia|]. rewrite Htr'. simpl.
      rewrite (sends_del _ _ _ _ _ _ _ Hs). subst w1. simpl. rewrite Hdel. lia.
Qed.

(** *** Accepting *)

Lemma inv_heap lfds x conns w h tr :
  Inv os lfds x conns w → blocks h = blocks (mem w) → heap_wf h → tr = trace w →
  Inv os lfds x conns (World h tr).
Proof. intros [] Hh Hwf ->. constructor; simpl; try done. by rewrite Hh. Qed.

(** A descriptor is accepted: nothing is registered for it yet. *)
Lemma inv_accept lfds conns w l :
  let c := Accept l in
  let a := os (trace w) c in
  Inv os lfds None conns w → 0 ≤ ret a →
  Inv os lfds None conns (World (mem w) (trace w ++ [(c, a)])) ∧ conns !! ret a = None ∧
  stream (ret a) (trace w ++ [(c, a)]) = ([], []) ∧
  deliveries (trace w ++ [(c, a)]) = S (deliveries (trace w)).
Proof.
  intros c a Hinv Ha. pose proof (accept_fresh _ Hos (trace w) l (inv_cons _ _ _ _ _ Hinv) Ha)
    as Hfresh. fold c a in Hfresh.
  assert (conns !! ret a = None) as Hnone.
  { rewrite (inv_reg _ _ _ _ _ Hinv), lookup_fmap in Hfresh. by destruct (conns !! ret a). }
  pose proof (accept_stream os (trace w) l Ha) as (Hs & Ho & Hdel). fold c a in Hs, Ho, Hdel.
  split; [|done]. pose proof (inv_echo _ _ _ _ _ Hinv) as He.
  destruct Hinv. constructor; simpl; try done.
  - by constructor.
  - by rewrite registered_snoc.
  - intros fd c' bb b Hc Hb Hx. eapply buf_ok_stream; [by eapply inv_buf0|].
    apply Ho. intros ->. congruence.
  - by apply echoes_accept.
Qed.

(** A new registration. *)
Lemma inv_add lfds conns w h p fd ob c m :
  Inv os lfds None conns w → conns !! fd = None → blocks (mem w) !! p = None →
  match ob with
  | Some (bb, b) => blocks (mem w) !! bb = None ∧ bb ≠ p ∧ (fd ∉ lfds) ∧ buf_ok os (trace w) fd b
  | None => True
  end →
  m = match ob with
      | Some (bb, b) => <[bb := [Some (OBuf b)]]> (blocks (mem w))
      | None => blocks (mem w)
      end →
  blocks h = <[p := [Some (OPud (UserData fd (buf_ptr (Conn p ob))))]]> m → heap_wf h →
  (∃ epfd evs, c = EpollAdd epfd fd evs (Ptr p 0)) → 0 ≤ ret (os (trace w) c) →
  Inv os (match ob with Some _ => lfds | None => fd :: lfds end) None
    (<[fd := Conn p ob]> conns) (World h (trace w ++ [(c, os (trace w) c)])).
Proof.
  intros [] Hfd Hp Hob -> Hh Hwf (epfd & evs & ->) Hret.
  constructor; simpl; try done.
  - by constructor.
  - rewrite Hh. apply rep_add; try done. destruct ob as [[bb b]|]; [|done]. by destruct Hob as (?&?&_).
  - rewrite registered_snoc. simpl. rewrite (proj2 (Z.ltb_ge _ _)) by done.
    by rewrite fmap_insert, inv_reg0.
  - intros fd' c [[<- <-]|[Hne Hc]]%lookup_insert_Some; simpl.
    + destruct ob as [[bb b]|]; [|split; [done|by left]].
      destruct Hob as (_ & _ & Hl & _). by split.
    + rewrite <-(inv_lis0 _ _ Hc). destruct ob; [done|].
      rewrite elem_of_cons. split; [by intros [?|?]|by right].
  - intros fd' Hl. destruct (decide (fd = fd')) as [->|Hne].
    + rewrite lookup_insert_eq. eauto.
    + rewrite lookup_insert_ne by done. apply inv_all0. destruct ob; [done|].
      by apply elem_of_cons in Hl as [?|?].
  - intros fd' c bb b [[<- <-]|[Hne Hc]]%lookup_insert_Some Hb _; simpl in Hb.
    + subst ob. destruct Hob as (_ & _ & _ & Hok). eapply buf_ok_stream; [done|].
      by rewrite stream_snoc.
    + eapply buf_ok_stream; [by eapply inv_buf0|]. by rewrite stream_snoc.
  - eapply echoes_stream; [done|]. intros fd'. simpl. by rewrite stream_snoc.
Qed.

Lemma wp_accept_step lfds conns w epfd l p (Q : unit + unit → world → Prop) :
  Inv os lfds None conns w → conns !! l = Some (Conn p None) →
  (∀ w', Inv os lfds None conns w' → Q (inr tt) w') →
  (∀ w' fd c, Inv os lfds None (<[fd := c]> conns) w' → conns !! fd = None →
    (deliveries (trace w) < deliveries (trace w'))%nat → Q (inl tt) w') →
  wp (accept_step os epfd (Ptr p 0) tt) w Q.
Proof.
  intros Hinv Hl HQr HQl. unfold accept_step. wp_step.
  apply (wp_load_pud _ _ _ _ l (Conn p None) _ Hinv Hl). wp_step. apply wp_sys.
  cbn [ShoutServer.fd]. set (c := Accept l). set (a := os (trace w) c).
  destruct (Z.ltb_spec (ret a) 0) as [Hneg|Hge].
  { wp_step. by apply HQr, inv_call. }
  destruct (inv_accept lfds conns w l Hinv Hge) as (Hinv1 & Hnone & Hs & Hdel).
  fold c a in Hinv1, Hnone, Hs, Hdel. set (tr1 := trace w ++ [(c, a)]) in *.
  assert (∀ w', Inv os lfds None conns w' →
    wp (sys os (Close (ret a));; mret (inr tt)) w' Q) as Hclose.
  { intros w' Hw'. wp_step. apply wp_sys. wp_step. by apply HQr, inv_call. }
  wp_step. apply (wp_set_nonblocking os); [apply Hinv1|]. simpl. intros r tr2 Hsame.
  pose proof (inv_same _ _ _ _ _ Hinv1 Hsame) as Hinv2. simpl in Hinv2.
  destruct (r <? 0); [by apply Hclose|].
  wp_step. apply wp_in_heap. simpl. unfold calloc.
  rewrite (proj2 (Z.ltb_lt _ _)) by (by vm_compute).
  apply wp_alloc_any; [apply Hinv2| |].
  { intros h Hh Hwf. simpl. apply Hclose. by eapply inv_heap. }
  intros bb h Hbb Hh Hwf. cbn [is_null]. change (replicate _ _) with [Some new_buffer] in Hh.
  simpl in Hbb, Hh. wp_step. apply wp_ep_add; [apply Hinv2|done|..].
  - intros r' h2 tr3 Hr' Hh2 Hwf2 Hsame3. simpl in Hh2, Hsame3.
    rewrite (proj2 (Z.ltb_lt _ _)) by done. wp_step. apply wp_in_heap. simpl.
    eapply wp_free; [by rewrite Hh2, Hh, lookup_insert_eq|].
    apply (Hclose (World _ tr3)).
    pose proof (inv_same _ _ _ _ _ Hinv2 Hsame3) as Hinv3. simpl in Hinv3.
    eapply inv_heap; [done| |by apply heap_wf_delete|done]. simpl.
    by rewrite Hh2, Hh, delete_insert_id.
  - simpl. intros pp h2 Hpp Hh2 Hwf2 Hreg Hret. rewrite Hh in Hpp, Hh2.
    apply lookup_insert_None in Hpp as [Hpp Hne].
    wp_step. eapply (HQl _ (ret a) (Conn pp (Some (bb, Buffer 0 (replicate 4096 0))))); [|done|].
    + eapply (inv_add lfds conns (World (mem w) tr2) h2 pp (ret a)
        (Some (bb, Buffer 0 (replicate (Z.to_nat BUF_CAPACITY) 0)))); try done; [|by rewrite Hh|eauto].
      split; [done|]. split; [done|]. split.
      * intros Hin. apply (inv_all _ _ _ _ _ Hinv) in Hin as [? ?]. congruence.
      * apply buf_ok_new. by rewrite (same_stream _ _ _ Hsame).
    + simpl. rewrite deliveries_snoc, (same_del _ _ _ Hsame), Hdel. simpl. lia.
Qed.

(** *** The event loop *)

Section event_loop.
Context (fuel : nat) (Hfin : bounded os fuel).

Lemma wp_accept_loop lfds conns w epfd l p (Q : unit → world → Prop) :
  Inv os lfds None conns w → conns !! l = Some (Conn p None) →
  (∀ w' conns', Inv os lfds None conns' w' → conns ⊆ conns' → Q tt w') →
  wp (loop fuel (accept_step os epfd (Ptr p 0)) tt) w Q.
Proof.
  intros Hinv Hl HQ.
  apply (wp_loop (λ _ w', ∃ conns', Inv os lfds None conns' w' ∧ conns ⊆ conns')
           (λ _ w', fuel - 1 - deliveries (trace w'))%nat).
  - intros [] w' (conns' & Hinv' & Hsub).
    apply (wp_accept_step lfds conns' w' epfd l p); [done|by eapply lookup_weaken|..].
    + intros w2 Hinv2. by eapply HQ.
    + intros w2 fd c Hinv2 Hnone Hlt. split.
      * eexists. split; [done|]. etrans; [done|]. by apply insert_subseteq.
      * pose proof (Hfin _ (inv_cons _ _ _ _ _ Hinv2)). lia.
  - by exists conns.
  - pose proof (Hfin _ (inv_cons _ _ _ _ _ Hinv)). lia.
Qed.

Lemma wp_recv_loop lfds conns w epfd fd p bb b (Q : unit → world → Prop) :
  Inv os lfds None conns w → conns !! fd = Some (Conn p (Some (bb, b))) → size b = 0 →
  (∀ w' conns', Inv os lfds None conns' w' → keeps fd conns conns' → Q tt w') →
  wp (loop fuel (recv_step os epfd (Ptr p 0) (UserData fd (Ptr bb 0))) tt) w Q.
Proof.
  intros Hinv Hc Hsz HQ.
  apply (wp_loop (λ _ w', ∃ conns' b', Inv os lfds None conns' w' ∧ keeps fd conns conns' ∧
             conns' !! fd = Some (Conn p (Some (bb, b'))) ∧ size b' = 0)
           (λ _ w', fuel - 1 - deliveries (trace w'))%nat).
  - intros [] w' (conns' & b' & Hinv' & Hk & Hc' & Hsz').
    apply (wp_recv_step lfds conns' w' epfd fd p bb b'); try done.
    + intros w2 c2 Hinv2 Hk2. eapply HQ; [done|]. by eapply keeps_trans.
    + intros w2 b2 Hinv2 Hsz2 Hlt. split.
      * do 2 eexists. split; [done|]. split; [|by rewrite lookup_insert_eq].
        eapply keeps_trans; [done|apply keeps_insert].
      * pose proof (Hfin _ (inv_cons _ _ _ _ _ Hinv2)). lia.
  - exists conns, b. split; [done|]. split; [apply keeps_refl|done].
  - pose proof (Hfin _ (inv_cons _ _ _ _ _ Hinv)). lia.
Qed.

Lemma wp_handle_event lsockfds n conns w epfd ev fd c (Q : bool → world → Prop) :
  let lfds := take (Z.to_nat n) lsockfds in
  Inv os lfds None conns w → conns !! fd = Some c →
  (∀ r w' conns', Inv os lfds None conns' w' → keeps fd conns conns' → Q r w') →
  wp (handle_event os fuel epfd lsockfds n (ev, conn_ptr c)) w Q.
Proof.
  intros lfds Hinv Hc HQ. unfold handle_event. wp_step.
  eapply wp_load_pud; [done|done|]. cbn [ShoutServer.fd].
  pose proof (inv_lis _ _ _ _ _ Hinv fd c Hc) as Hlis.
  destruct (is_lsockfd fd lsockfds n) eqn:Hl.
  { apply is_lsockfd_spec, Hlis in Hl. destruct c as [p ob]. simpl in Hl. subst ob.
    wp_step. eapply wp_accept_loop; [done|done|]. intros w' conns' Hinv' Hsub. wp_step.
    eapply HQ; [done|]. intros fd' c' _ Hc'. by eapply lookup_weaken. }
  destruct c as [p [[bb b]|]].
  2: { assert (fd ∈ lfds) as Hin by (by apply Hlis).
       apply is_lsockfd_spec in Hin. congruence. }
  unfold conn_ptr, buf_ptr. cbn [pud cbuf ShoutServer.buf].
  assert (∀ (r : bool), wp (cleanup os epfd (Ptr p 0);; mret r) w Q) as Hclean.
  { intros r. wp_step. eapply wp_cleanup; [done|done|by left|]. intros w' Hw' _. wp_step.
    eapply HQ; [done|apply keeps_delete]. }
  destruct (has ev EPOLLRDHUP || has ev EPOLLHUP); [by apply Hclean|].
  destruct (has ev EPOLLIN || has ev EPOLLOUT); [|by apply Hclean].
  wp_step. eapply wp_load_buf; [done|done|].
  assert (∀ w' b', Inv os lfds None (<[fd := Conn p (Some (bb, b'))]> conns) w' →
    wp (b ← load_buf (Ptr bb 0);
        (if has ev EPOLLIN && (size b =? 0)
         then loop fuel (recv_step os epfd (Ptr p 0) (UserData fd (Ptr bb 0))) tt
         else mret tt);; mret false) w' Q) as Hrecv.
  { intros w' b' Hinv'. wp_step. eapply wp_load_buf; [done|by rewrite lookup_insert_eq|].
    wp_step. destruct (has ev EPOLLIN && (size b' =? 0)) eqn:Hz.
    - apply andb_true_iff in Hz as [_ Hz%Z.eqb_eq].
      eapply wp_recv_loop; [done|by rewrite lookup_insert_eq|done|].
      intros w2 c2 Hinv2 Hk. wp_step. eapply HQ; [done|].
      eapply keeps_trans; [apply keeps_insert|done].
    - wp_step. wp_step. eapply HQ; [done|apply keeps_insert]. }
  wp_step. destruct (has ev EPOLLOUT && (0 <? size b)).
  - eapply wp_flush; [done|done|..].
    + intros w' c' Hinv' Hk. wp_step. by eapply HQ.
    + intros w' b' Hinv'. by eapply Hrecv.
  - wp_step. apply (Hrecv w b). by rewrite insert_id.
Qed.

Lemma wp_handle_events lsockfds n evs : ∀ conns w epfd (Q : bool → world → Prop),
  let lfds := take (Z.to_nat n) lsockfds in
  Inv os lfds None conns w → NoDup evs.*2 →
  (∀ e, e ∈ evs → ∃ fd c, conns !! fd = Some c ∧ e.2 = conn_ptr c) →
  (∀ r w' conns', Inv os lfds None conns' w' → Q r w') →
  wp (handle_events os fuel epfd lsockfds n evs) w Q.
Proof.
  induction evs as [|[ev p] evs IH]; intros conns w epfd Q lfds Hinv Hnd Hevs HQ; simpl.
  { wp_step. by eapply HQ. }
  destruct (Hevs (ev, p)) as (fd & c & Hc & Hp); [by left|]. simpl in Hp. subst p.
  rewrite fmap_cons in Hnd. apply NoDup_cons in Hnd as [Hnin Hnd].
  wp_step. eapply wp_handle_event; [done|done|]. intros [] w' conns' Hinv' Hk.
  { wp_step. by eapply HQ. }
  eapply IH; [done|done| |done].
  intros e He. destruct (Hevs e) as (fd' & c' & Hc' & Hp'); [by right|].
  exists fd', c'. split; [|done]. apply Hk; [|done]. intros ->.
  simplify_eq. apply Hnin. simpl. rewrite <-Hp'. by apply list_elem_of_fmap_2.
Qed.

Lemma wp_event_loop n lsockfds nlfd : ∀ conns w epfd (Q : option Z → world → Prop),
  let lfds := take (Z.to_nat nlfd) lsockfds in
  Inv os lfds None conns w →
  (∀ r w', echoes os w' → Q (Some r) w') →
  (∀ w' conns', Inv os lfds None conns' w' → Q None w') →
  wp (event_loop os n fuel epfd lsockfds nlfd) w Q.
Proof.
  induction n as [|n IH]; intros conns w epfd Q lfds Hinv HQs HQn; simpl.
  { wp_step. by eapply HQn. }
  wp_step. apply wp_sys. set (c := EpollWait epfd MAX_EVENTS). set (a := os (trace w) c).
  assert (Inv os lfds None conns (World (mem w) (trace w ++ [(c, a)]))) as Hinv1.
  { by apply inv_call. }
  destruct (ret a <? 0); [wp_step; apply HQs; exact (inv_echo _ _ _ _ _ Hinv1)|].
  wp_step. eapply wp_handle_events; [done|..].
  - rewrite fmap_take. pose proof (wait_nodup _ Hos (trace w) epfd MAX_EVENTS
      (inv_cons _ _ _ _ _ Hinv)) as Hnd. fold c a in Hnd.
    rewrite <-(take_drop (Z.to_nat (ret a)) ((ready a).*2)) in Hnd.
    by apply NoDup_app in Hnd as [? _].
  - intros [e p] He.
    assert ((e, p) ∈ ready a) as He'.
    { rewrite <-(take_drop (Z.to_nat (ret a)) (ready a)). apply elem_of_app. by left. }
    destruct (wait_registered _ Hos (trace w) epfd MAX_EVENTS e p
      (inv_cons _ _ _ _ _ Hinv) He') as [fd Hfd].
    rewrite (inv_reg _ _ _ _ _ Hinv), lookup_fmap in Hfd.
    destruct (conns !! fd) as [cn|] eqn:Hcn; [|done]. simpl in Hfd. simplify_eq. eauto.
  - intros [] w' conns' Hinv'.
    + wp_step. apply wp_sys. wp_step. apply HQs.
      eapply echoes_stream; [by apply Hinv'|]. intros fd. simpl. by rewrite stream_snoc.
    + by eapply IH.
Qed.

(** *** Registering the listening sockets *)

Lemma wp_add_listeners fds : ∀ lfds conns w epfd (Q : bool → world → Prop),
  Inv os lfds None conns w →
  (∀ w', echoes os w' → Q false w') →
  (∀ w' conns' lfds', (∀ x, x ∈ lfds' ↔ x ∈ lfds ∨ x ∈ fds) →
    Inv os lfds' None conns' w' → Q true w') →
  wp (add_listeners os epfd fds) w Q.
Proof.
  induction fds as [|fd fds IH]; intros lfds conns w epfd Q Hinv HQf HQt; simpl.
  { wp_step. eapply HQt; [|done]. intros x. rewrite elem_of_nil. tauto. }
  wp_step. apply wp_ep_add; [apply Hinv|apply Hinv|..].
  - intros r h tr Hr Hh Hwf Hsame. rewrite (proj2 (Z.ltb_lt _ _)) by done. wp_step.
    apply HQf. pose proof (inv_same _ _ _ _ _ Hinv Hsame) as Hinv'.
    exact (inv_echo _ _ _ _ _ Hinv').
  - intros p h Hp Hh Hwf c Hreg Hret. simpl.
    rewrite (inv_reg _ _ _ _ _ Hinv), lookup_fmap in Hreg.
    eapply IH; [eapply (inv_add lfds conns w h p fd None c); try done|done|].
    + by destruct (conns !! fd).
    + eauto.
    + intros w' conns' lfds' Hl Hinv'. eapply HQt; [|done].
      intros x. rewrite Hl, !elem_of_cons. tauto.
Qed.

Lemma inv_lfds lfds lfds' x conns w :
  (∀ fd, fd ∈ lfds ↔ fd ∈ lfds') → Inv os lfds x conns w → Inv os lfds' x conns w.
Proof.
  intros Hl []. constructor; try done.
  - intros fd c Hc. rewrite <-Hl. by apply inv_lis0.
  - intros fd Hfd. by apply inv_all0, Hl.
Qed.

Lemma wp_poll n conns w lsockfds nlfd (Q : option Z → world → Prop) :
  let lfds := take (Z.to_nat nlfd) lsockfds in
  Inv os [] None conns w →
  (∀ r w', echoes os w' → Q (Some r) w') →
  (∀ w' conns', Inv os lfds None conns' w' → Q None w') →
  wp (poll os n fuel lsockfds nlfd) w Q.
Proof.
  intros lfds Hinv HQs HQn. unfold poll. wp_step. apply wp_sys.
  set (c := EpollCreate). set (a := os (trace w) c).
  assert (Inv os [] None conns (World (mem w) (trace w ++ [(c, a)]))) as Hinv1.
  { by apply inv_call. }
  destruct (ret a <? 0); [wp_step; apply HQs; exact (inv_echo _ _ _ _ _ Hinv1)|].
  wp_step. eapply wp_add_listeners; [done|..].
  - intros w' He. wp_step. by apply HQs.
  - intros w' conns' lfds' Hl Hinv'. eapply wp_event_loop; [|done|done].
    eapply inv_lfds; [|done]. intros fd. rewrite Hl, elem_of_nil. tauto.
Qed.
End event_loop.

Lemma fresh_registered tr :
  Forall (λ e, setting_up e.1 = true) tr → registered tr = ∅.
Proof.
  induction tr as [|[c a] tr IH] using rev_ind; [done|]. intros [Htr Hc]%Forall_app.
  rewrite registered_snoc, IH by done. rewrite Forall_singleton in Hc.
  by destruct c.
Qed.

Lemma fresh_inv oom tr :
  fresh os (World (heap_empty oom) tr) → Inv os [] None ∅ (World (heap_empty oom) tr).
Proof.
  intros Hf. pose proof (fresh_echoes os _ Hf) as He. destruct Hf as [Hc Hs].
  constructor; simpl; try done.
  - constructor; try done. intros k [l Hl]. done.
  - by apply fresh_registered.
  - intros fd Hin. by apply elem_of_nil in Hin.
Qed.
End proofs.

(** The heap of a running server: the [user_data] of every registered
    descriptor and the buffers they point to, and nothing else. *)
Definition no_leak (w : world) : Prop :=
  ∀ k, is_Some (blocks (mem w) !! k) → ∃ fd p u,
    registered (trace w) !! fd = Some (Ptr p 0) ∧
    blocks (mem w) !! p = Some [Some (OPud u)] ∧ ShoutServer.fd u = fd ∧
    (k = p ∨ ShoutServer.buf u = Ptr k 0).

Lemma inv_no_leak os lfds x conns w : Inv os lfds x conns w → no_leak w.
Proof.
  intros Hinv k Hk. destruct (rep_own _ _ (inv_rep _ _ _ _ _ Hinv) k Hk)
    as (fd & c & Hc & Hown).
  exists fd, (pud c), (UserData fd (buf_ptr c)).
  rewrite (inv_reg _ _ _ _ _ Hinv), lookup_fmap, Hc. split; [done|].
  split; [by apply (rep_pud _ _ (inv_rep _ _ _ _ _ Hinv))|]. split; [done|].
  destruct Hown as [->|[b Hb]]; [by left|right]. simpl. unfold buf_ptr. by rewrite Hb.
Qed.

Lemma wp_main os fuel n oom :
  os_ok os → bounded os fuel →
  wp (main os n fuel) (World (heap_empty oom) []) (λ r w,
    echoes os w ∧ (r = None → no_leak w)).
Proof.
  intros Hos Hfin. pose proof (os_io _ Hos). unfold main.
  apply (wp_main_with os); [apply fresh_start|done|..].
  intros nl l [h tr] Hm Hf. simpl in Hm. subst h.
  apply (wp_poll os Hos fuel Hfin n ∅); [by apply fresh_inv|..].
  - intros r w' He. by split.
  - intros w' conns' Hinv. split; [by apply Hinv|]. intros _. by eapply inv_no_leak.
Qed.

(** ** A small operating system, for the concrete runs *)

Definition eagain : answer := Answer (-1) EAGAIN [] [] [].

(** One address; one client, on descriptor 7, which sends two bytes. *)
Definition sample_os (tr : history) (c : syscall) : answer :=
  match c with
  | Getaddrinfo => Answer 0 0 [1] [] []
  | Socket _ => if bool_decide (3 ∈ opened tr) then eagain else Answer 3 0 [] [] []
  | EpollCreate => Answer 5 0 [] [] []
  | Accept _ =>
      if (deliveries tr <? 2)%nat && bool_decide (registered tr !! 7 = None)
      then Answer 7 0 [] [] [] else eagain
  | Recv _ len =>
      if (deliveries tr <? 2)%nat && (2 <=? len) then Answer 2 0 [104; 105] [] [] else eagain
  | Send _ d => Answer (Z.of_nat (length d)) 0 [] [] []
  | EpollAdd _ fd _ _ =>
      if bool_decide (is_Some (registered tr !! fd)) then eagain else Answer 0 0 [] [] []
  | EpollWait _ _ =>
      match registered tr !! 7, registered tr !! 3 with
      | Some p, _ => Answer 1 0 [] [(EPOLLIN, p)] []
      | None, Some p => Answer 1 0 [] [(EPOLLIN, p)] []
      | None, None => Answer 0 0 [] [] []
      end
  | _ => Answer 0 0 [] [] []
  end.

Lemma sample_os_ok : os_ok sample_os.
Proof.
  constructor; [constructor|..]; intros tr; simpl.
  - intros _ _. case_bool_decide; simpl; [lia|done].
  - done.
  - intros _ len _. case_match eqn:E; simpl; [|lia]. intros _.
    apply andb_true_iff in E as [_ E]. zcases. lia.
  - intros _ _. case_match eqn:E; simpl; [|lia]. intros _.
    apply andb_true_iff in E as [_ E]. by apply bool_decide_eq_true in E.
  - intros _ fd _ _ _ Hs. rewrite bool_decide_eq_true_2 by done. simpl. lia.
  - intros _ _ e p _ He. destruct (registered tr !! 7) as [p'|] eqn:E7.
    + simpl in He. apply list_elem_of_singleton in He as [= -> ->]. eauto.
    + destruct (registered tr !! 3) as [p'|] eqn:E3; simpl in He.
      * apply list_elem_of_singleton in He as [= -> ->]. eauto.
      * by apply elem_of_nil in He.
  - intros _ _ _. repeat case_match; simpl; try apply NoDup_nil_2; apply NoDup_singleton.
Qed.

Lemma sample_bounded : bounded sample_os 3.
Proof.
  assert (∀ tr, consistent sample_os tr → (deliveries tr ≤ 2)%nat) as H2.
  { intros tr Hc. induction Hc as [|tr c Hc IH]; [simpl; lia|].
    rewrite deliveries_snoc. unfold delivery. destruct c; simpl; try lia;
      (destruct (Nat.ltb_spec (deliveries tr) 2); simpl; [repeat case_match; lia|lia]). }
  intros tr Hc. specialize (H2 tr Hc). lia.
Qed.

Lemma sample_no_third_send : no_third_send sample_os.
Proof.
  intros tr fd d1 a1 d2 a2 d3 Hc Ha1 Ha2.
  change [(Send fd d1, a1); (Send fd d2, a2)]
    with ([(Send fd d1, a1)] ++ [(Send fd d2, a2)]) in Hc.
  rewrite app_assoc in Hc. apply consistent_snoc_inv in Hc as [_ ->]. simpl in Ha2. lia.
Qed.

(** ** The properties *)

(** C2: the Linux server, [main] with its event loop run for any number of
    iterations, against clients that send a finite amount, whichever calls
    and allocations fail: it never accesses freed or unallocated memory or
    memory out of bounds, never frees twice, every loop inside an iteration
    ends, and while it runs the heap holds the [user_data] and the buffers of
    the registered descriptors and nothing else: no memory is leaked. *)
Theorem server_memory_safe os fuel n oom :
  os_ok os → bounded os fuel →
  wp (main os n fuel) (World (heap_empty oom) []) (λ r w, r = None → no_leak w).
Proof.
  intros Hos Hfin. eapply wp_mono; [by apply wp_main|]. by intros r w [_ ?].
Qed.

(** C3: the Linux server echoes: as long as no third send in a row succeeds
    after two short ones, at any time and for every connection, what was sent
    to it is a prefix of what was received from it. *)
Theorem server_echoes os fuel n oom :
  os_ok os → bounded os fuel → no_third_send os →
  wp (main os n fuel) (World (heap_empty oom) []) (λ _ w,
    ∀ fd, (stream fd (trace w)).2 `prefix_of` (stream fd (trace w)).1).
Proof.
  intros Hos Hfin Hg. eapply wp_mono; [by apply wp_main|]. intros r w [He _]. by apply He.
Qed.

Lemma server_memory_safe_witness :
  os_ok sample_os ∧ bounded sample_os 3 ∧
  wp (main sample_os 4 3) (World (heap_empty (λ _, false)) []) (λ r w, r = None → no_leak w).
Proof.
  split; [apply sample_os_ok|]. split; [apply sample_bounded|].
  apply server_memory_safe; [apply sample_os_ok|apply sample_bounded].
Defined.

Lemma server_echoes_witness :
  no_third_send sample_os ∧
  wp (main sample_os 4 3) (World (heap_empty (λ _, false)) []) (λ _ w,
    ∀ fd, (stream fd (trace w)).2 `prefix_of` (stream fd (trace w)).1).
Proof.
  split; [apply sample_no_third_send|].
  apply server_echoes; [apply sample_os_ok|apply sample_bounded|apply sample_no_third_send].
Defined.

(** The run of the witnesses: the client gets back what it sent. *)
Example sample_run :
  match main sample_os 4 3 (World (heap_empty (λ _, false)) []) with
  | Ok (r, w) => r = None ∧ stream 7 (trace w) = ([104; 105], [104; 105])
  | _ => False
  end.
Proof. by vm_compute. Qed.

(** C23: [do_send] after two partial sends goes on from the wrong place: with
    answers [a], [b] and [c] that add up to the whole, it reports that all was
    sent, but its third send starts at the length of the second one, not at
    the end of what was sent. *)
Theorem do_send_third_send_misplaced os w fd d a b c :
  let c1 := Send fd d in
  let tr1 := trace w ++ [(c1, os (trace w) c1)] in
  let c2 := Send fd (drop (Z.to_nat a) d) in
  let tr2 := tr1 ++ [(c2, os tr1 c2)] in
  let c3 := Send fd (take (Z.to_nat c) (drop (Z.to_nat b) d)) in
  let tr3 := tr2 ++ [(c3, os tr2 c3)] in
  0 < a → 0 < b → 0 < c → Z.of_nat (length d) = a + b + c →
  ret (os (trace w) c1) = a → ret (os tr1 c2) = b → ret (os tr2 c3) = c →
  do_send os fd d (a + b + c) w = Ok (a + b + c, World (mem w) tr3).
Proof.
  intros c1 tr1 c2 tr2 c3 tr3 Ha Hb Hc Hlen H1 H2 H3.
  assert (∀ n total sent w' k, 0 < n → sent + n ≤ Z.of_nat (length d) →
    let cc := Send fd (take (Z.to_nat n) (drop (Z.to_nat sent) d)) in
    ret (os (trace w') cc) = k → 0 < k →
    do_send_step os fd d (n, total, sent) w' =
      Ok (inl (n - k, total + k, k), World (mem w') (trace w' ++ [(cc, os (trace w') cc)])))
    as Hstep.
  { intros n total sent w' k Hn Hs cc Hk Hpos. unfold do_send_step.
    rewrite (proj2 (Z.ltb_lt 0 n)), (proj2 (Z.ltb_ge _ _)) by lia.
    unfold mbind, comp_bind, sys. fold cc. by rewrite Hk, (proj2 (Z.leb_gt _ _)). }
  unfold do_send. replace (Z.to_nat (a + b + c)) with (S (S (S (Z.to_nat (a + b + c - 3)))))
    by lia.
  assert (take (Z.to_nat (a + b + c)) (drop (Z.to_nat 0) d) = d) as E1
    by (apply take_ge; simpl; lia).
  assert (take (Z.to_nat (a + b + c - a)) (drop (Z.to_nat a) d) = drop (Z.to_nat a) d) as E2
    by (apply take_ge; rewrite length_drop; lia).
  cbn [loop]. unfold mbind, comp_bind.
  rewrite (Hstep _ _ _ _ a) by (rewrite ?E1; lia || done). rewrite E1.
  rewrite (Hstep _ _ _ _ b) by (rewrite ?E2; lia || done). rewrite E2.
  replace (a + b + c - a - b) with c by lia.
  rewrite (Hstep _ _ _ _ c) by (lia || done). simpl.
  unfold do_send_step. replace (c - c) with 0 by lia. simpl. unfold mret, comp_ret. simpl.
  by replace (0 + a + b + c) with (a + b + c) by lia.
Qed.

(** An operating system that takes one, two and three bytes. *)
Definition partial_os (tr : history) (c : syscall) : answer :=
  Answer (Z.of_nat (S (length tr))) 0 [] [] [].

(** Of 1 2 3 4 5 6, the peer gets 1, then 2 3, then 3 4 5. *)
Lemma do_send_third_send_misplaced_witness :
  do_send partial_os 7 [1; 2; 3; 4; 5; 6] 6 (World (heap_empty (λ _, false)) []) =
  Ok (6, World (heap_empty (λ _, false))
    [(Send 7 [1; 2; 3; 4; 5; 6], Answer 1 0 [] [] []); (Send 7 [2; 3; 4; 5; 6], Answer 2 0 [] [] []);
     (Send 7 [3; 4; 5], Answer 3 0 [] [] [])]).
Proof.
  apply (do_send_third_send_misplaced partial_os (World (heap_empty (λ _, false)) []) 7
           [1; 2; 3; 4; 5; 6] 1 2 3); done.
Defined.

(** [init_listen_fds] stays in its array, and leaks no descriptor: the
    sockets it opened and returns are open, and every other one it opened is
    closed again. *)
Theorem init_listen_fds_ok os w max lfds :
  os_ok os → fresh os w → 0 < max ≤ Z.of_nat (length lfds) →
  wp (init_listen_fds os lfds max) w (λ '(n, l) w',
    (n = -1 ∨ 0 ≤ n ≤ max) ∧ length l = length lfds ∧
    opened (trace w') = opened (trace w) ∪ list_to_set (take (Z.to_nat n) l)).
Proof.
  intros Hos Hf Hmax. pose proof (os_io _ Hos).
  apply (wp_init_listen_fds os); [done..|]. by intros w' n l _ _ Hn Hl Ho.
Qed.

Lemma init_listen_fds_ok_witness :
  wp (init_listen_fds sample_os [0; 0; 0; 0] 4) (World (heap_empty (λ _, false)) [])
    (λ '(n, l) w', (n = -1 ∨ 0 ≤ n ≤ 4) ∧ length l = 4%nat ∧
      opened (trace w') = ∅ ∪ list_to_set (take (Z.to_nat n) l)).
Proof.
  apply (init_listen_fds_ok sample_os (World (heap_empty (λ _, false)) []) 4 [0; 0; 0; 0]);
    [apply sample_os_ok|apply fresh_start|done].
Defined.
