(* ===== verification/ShoutKqueue.v ===== *)
(** The FreeBSD half of the shout server ([shout_server.c]): the event loop on
    a kqueue, which keeps the buffer of a connection in the [udata] of its
    events, and turns the events of a connection off and on so that it is
    told of data to read or of room to write, never of both.  The values of
    [EAGAIN], [O_NONBLOCK] and the socket options are those of [ShoutServer.v]
    (Linux's); no theorem depends on them. *)
From S2P Require Import Prelude Mem ShoutServer.
#[local] Open Scope Z_scope.

#[local] Abbreviation M := (comp world).

Section server.
Context (os : history → syscall → answer).

Definition kq_change (kq fd filter flags : Z) (ud : ptr) : M Z :=
  a ← sys os (KevChange kq fd filter flags ud);
  if ret a <? 0 then mret (-1) else mret 0.

Definition cleanup (kq fd : Z) (buf : ptr) : M unit :=
  sys os (KevChange kq fd EVFILT_READ EV_DELETE Null);;
  sys os (KevChange kq fd EVFILT_WRITE EV_DELETE Null);;
  sys os (Close fd);;
  if is_null buf then mret tt else in_heap (free buf).

(** An iteration of the accept loop on the listening socket [fd]. *)
Definition accept_step (kq fd : Z) (_ : unit) : M (unit + unit) :=
  a ← sys os (Accept fd);
  let conn_sockfd := ret a in
  if conn_sockfd <? 0 then mret (inr tt) else
  r ← set_nonblocking os conn_sockfd;
  if r <? 0 then sys os (Close conn_sockfd);; mret (inr tt) else
  new_buf ← in_heap (calloc new_buffer 1 (8 + BUF_CAPACITY));
  if is_null new_buf then mret (inr tt) else
  r ← kq_change kq conn_sockfd EVFILT_READ (Z.lor EV_ADD EV_ENABLE) new_buf;
  if r <? 0 then sys os (Close conn_sockfd);; in_heap (free new_buf);; mret (inr tt)
  else mret (inl tt).

(** The branch for [EVFILT_WRITE]. *)
Definition flush (kq fd : Z) (buf : ptr) : M unit :=
  b ← load_buf buf;
  sent ← do_send os fd (data b) (size b);
  if sent <=? 0 then cleanup kq fd buf else
  rest ← keep_rest buf sent;
  if (rest : bool) then mret tt else
  r ← kq_change kq fd EVFILT_WRITE (Z.lor EV_DISABLE EV_KEEPUDATA) Null;
  if r <? 0 then cleanup kq fd buf else
  r ← kq_change kq fd EVFILT_READ (Z.lor EV_ENABLE EV_KEEPUDATA) Null;
  if r <? 0 then cleanup kq fd buf else mret tt.

(** An iteration of the receive loop. *)
Definition recv_step (kq fd : Z) (buf : ptr) (_ : unit) : M (unit + unit) :=
  a ← sys os (Recv fd BUF_CAPACITY);
  let received := ret a in
  if received <? 0 then
    if negb (errno a =? EAGAIN) && negb (errno a =? EWOULDBLOCK)
    then cleanup kq fd buf;; mret (inr tt) else mret (inr tt)
  else if received =? 0 then cleanup kq fd buf;; mret (inr tt)
  else
    b ← load_buf buf;
    let d := bytes a ++ drop (length (bytes a)) (data b) in
    in_heap (store buf (OBuf (Buffer received (to_upper_case d received))));;
    b ← load_buf buf;
    sent ← do_send os fd (data b) (size b);
    if sent <=? 0 then cleanup kq fd buf;; mret (inr tt) else
    rest ← keep_rest buf sent;
    if (rest : bool) then
      r ← kq_change kq fd EVFILT_READ (Z.lor EV_DISABLE EV_KEEPUDATA) Null;
      if r <? 0 then cleanup kq fd buf;; mret (inr tt) else
      r ← kq_change kq fd EVFILT_WRITE (Z.lor EV_ADD EV_ENABLE) buf;
      (if r <? 0 then cleanup kq fd buf else mret tt);;
      mret (inr tt)
    else mret (inl tt).

(** [filter == which && test(buf->size)]: the buffer is read only if the
    filter is the one asked for. *)
Definition when_size (e : kevent) (which : Z) (test : Z → bool) : M bool :=
  if filter e =? which then b ← load_buf (udata e); mret (test (size b)) else mret false.

(** One event; [true] for [goto end]. *)
Definition handle_event (fuel : nat) (kq : Z) (lsockfds : list Z) (nlsockfd : Z)
    (e : kevent) : M bool :=
  let fd := i32 (ident e) in
  let buf := udata e in
  if has (fflags e) EV_EOF || has (fflags e) EV_ERROR then
    cleanup kq fd buf;; mret false
  else if is_lsockfd fd lsockfds nlsockfd then
    loop fuel (accept_step kq fd) tt;; mret false
  else
    w ← when_size e EVFILT_WRITE (λ size, 0 <? size);
    if (w : bool) then flush kq fd buf;; mret false else
    r ← when_size e EVFILT_READ (λ size, size =? 0);
    if (r : bool) then loop fuel (recv_step kq fd buf) tt;; mret false
    else cleanup kq fd buf;; mret true.

Fixpoint handle_events (fuel : nat) (kq : Z) (lsockfds : list Z) (nlsockfd : Z)
    (evs : list kevent) : M bool :=
  match evs with
  | [] => mret false
  | e :: evs => stop ← handle_event fuel kq lsockfds nlsockfd e;
                if (stop : bool) then mret true
                else handle_events fuel kq lsockfds nlsockfd evs
  end.

(** [n] iterations at most of the event loop: what [queue] returns, or
    [None] while it is still running. *)
Fixpoint event_loop (n fuel : nat) (kq : Z) (lsockfds : list Z) (nlsockfd : Z)
    : M (option Z) :=
  match n with
  | O => mret None
  | S n =>
      a ← sys os (KevWait kq MAX_EVENTS);
      if ret a <? 0 then mret (Some 6) else
      stop ← handle_events fuel kq lsockfds nlsockfd (take (Z.to_nat (ret a)) (kevents a));
      if (stop : bool) then sys os (Close kq);; mret (Some 0)
      else event_loop n fuel kq lsockfds nlsockfd
  end.

(** Registers the listening sockets, in order; [false] when one fails. *)
Fixpoint add_listeners (kq : Z) (lfds : list Z) : M bool :=
  match lfds with
  | [] => mret true
  | lfd :: lfds => r ← kq_change kq lfd EVFILT_READ (Z.lor EV_ADD EV_ENABLE) Null;
                   if r <? 0 then mret false else add_listeners kq lfds
  end.

Definition queue (n fuel : nat) (lsockfds : list Z) (nlsockfd : Z) : M (option Z) :=
  k ← sys os Kqueue;
  let kq := ret k in
  if kq <? 0 then mret (Some 4) else
  ok ← add_listeners kq (take (Z.to_nat nlsockfd) lsockfds);
  if (ok : bool) then event_loop n fuel kq lsockfds nlsockfd else mret (Some 5).

(** [main] on a system without epoll. *)
Definition main_kqueue (n fuel : nat) : M (option Z) := main_with os (queue n fuel).
End server.
