(* ===== verification/KqueueProofs.v ===== *)
(** The properties of the FreeBSD half of the shout server.  A history
    determines the kernel's list of events, with the [udata] and the state of
    each; the invariant says that each connection has one buffer, which its
    events point to, that nothing else is allocated, and that it is told of
    data while its buffer is empty and of room while it is not. *)
From S2P Require Import Prelude Mem ShoutServer ShoutIO ShoutKqueue.
#[local] Open Scope Z_scope.

(** ** What a history says *)

(** An event that the kernel watches. *)
Record knote := Knote { kn_udata : ptr; kn_enabled : bool }.

(** What [kevent] makes of the event for a descriptor and a filter. *)
Definition change_note (flags : Z) (ud : ptr) (o : option knote) : option knote :=
  let ud' := if has flags EV_KEEPUDATA then from_option kn_udata ud o else ud in
  if has flags EV_DELETE then None
  else if has flags EV_ADD then Some (Knote ud' (negb (has flags EV_DISABLE)))
  else k ← o; Some (Knote ud' (if has flags EV_DISABLE then false
                               else if has flags EV_ENABLE then true else kn_enabled k)).

(** The events by descriptor and filter; those of a descriptor go when it is
    closed. *)
Definition note_step (m : gmap (Z * Z) knote) (e : syscall * answer) : gmap (Z * Z) knote :=
  let '(c, a) := e in
  match c with
  | KevChange _ fd filt flags ud =>
      if ret a <? 0 then m else partial_alter (change_note flags ud) (fd, filt) m
  | Close fd => delete (fd, EVFILT_READ) (delete (fd, EVFILT_WRITE) m)
  | _ => m
  end.

Definition knotes (tr : history) : gmap (Z * Z) knote := foldl note_step ∅ tr.

Lemma knotes_snoc tr e : knotes (tr ++ [e]) = note_step (knotes tr) e.
Proof. unfold knotes. by rewrite foldl_app. Qed.

#[export] Instance kqueue_registry : Registry (gmap (Z * Z) knote).
Proof.
  refine {| reg_of := knotes |}.
  intros tr c a Hc. rewrite knotes_snoc. by destruct c.
Defined.

(** A call concerns one descriptor. *)
Lemma note_step_other m c a fd fd' filt :
  match c with KevChange _ f _ _ _ | Close f => f = fd | _ => True end → fd' ≠ fd →
  note_step m (c, a) !! (fd', filt) = m !! (fd', filt).
Proof.
  intros Hc Hne. destruct c; try done; simpl; subst.
  - rewrite !lookup_delete_ne; congruence.
  - case_match; [done|]. apply lookup_partial_alter_ne. congruence.
Qed.

Section os.
Context (os : history → syscall → answer).

(** Documented behaviour: nothing is watched for a descriptor that [accept]
    returns; [kevent] reports events that are watched and enabled, with their
    [udata], each once, for descriptors that are ints; the [fflags] of an
    event on a socket are an error number. *)
Record kq_ok : Prop := {
  kq_io : io_ok os;
  kq_accept_fresh : ∀ tr l filt, consistent os tr → 0 ≤ ret (os tr (Accept l)) →
    knotes tr !! (ret (os tr (Accept l)), filt) = None;
  kq_events : ∀ tr kq max e, consistent os tr → e ∈ kevents (os tr (KevWait kq max)) →
    INT_MIN ≤ ident e ≤ INT_MAX ∧
    knotes tr !! (ident e, filter e) = Some (Knote (udata e) true);
  kq_fflags : ∀ tr kq max e, consistent os tr → e ∈ kevents (os tr (KevWait kq max)) →
    0 ≤ fflags e < EV_ERROR;
  kq_nodup : ∀ tr kq max, consistent os tr →
    NoDup ((λ e, (ident e, filter e)) <$> kevents (os tr (KevWait kq max)))
}.
End os.

(** ** The state the heap and the kernel represent *)

(** A watched descriptor: a listening socket, or a connection with the block
    and the value of its buffer, whether it is told of data, and whether it
    is told of room, if it ever was. *)
Inductive kconn :=
  | KListener
  | KConn (bb : positive) (b : buffer) (rd : bool) (wr : option bool).

Definition knote_of (filt : Z) (c : kconn) : option knote :=
  match c with
  | KListener => if filt =? EVFILT_READ then Some (Knote Null true) else None
  | KConn bb _ rd wr =>
      if filt =? EVFILT_READ then Some (Knote (Ptr bb 0) rd)
      else if filt =? EVFILT_WRITE then Knote (Ptr bb 0) <$> wr else None
  end.

(** Data is waited for with an empty buffer, room with one that is not. *)
Definition waits (b : buffer) (rd : bool) (wr : option bool) : Prop :=
  (size b = 0 ∧ rd = true ∧ wr ≠ Some true) ∨ (0 < size b ∧ rd = false ∧ wr = Some true).

(** The heap holds the buffers of [conns], and nothing else. *)
Record krep (conns : gmap Z kconn) (m : gmap positive (list (option obj))) : Prop := {
  krep_buf : ∀ fd bb b rd wr, conns !! fd = Some (KConn bb b rd wr) →
    m !! bb = Some [Some (OBuf b)];
  krep_inj : ∀ fd fd' bb b b' rd rd' wr wr', conns !! fd = Some (KConn bb b rd wr) →
    conns !! fd' = Some (KConn bb b' rd' wr') → fd = fd';
  krep_own : ∀ k, is_Some (m !! k) → ∃ fd b rd wr, conns !! fd = Some (KConn k b rd wr)
}.

(** The invariant of the event loop; the buffer of [x], which is being
    handled, is left out. *)
Record KInv (os : history → syscall → answer) (lfds : list Z) (x : option Z)
    (conns : gmap Z kconn) (w : world) : Prop := {
  kinv_cons : consistent os (trace w);
  kinv_wf : heap_wf (mem w);
  kinv_rep : krep conns (blocks (mem w));
  kinv_notes : ∀ fd filt, knotes (trace w) !! (fd, filt) = conns !! fd ≫= knote_of filt;
  kinv_lis : ∀ fd, fd ∈ lfds ↔ conns !! fd = Some KListener;
  kinv_buf : ∀ fd bb b rd wr, conns !! fd = Some (KConn bb b rd wr) → Some fd ≠ x →
    buf_ok os (trace w) fd b ∧ waits b rd wr;
  kinv_echo : echoes os w
}.

(** The other descriptors stay as they are. *)
Definition keeps (fd : Z) (conns conns' : gmap Z kconn) : Prop :=
  ∀ fd', fd' ≠ fd → conns' !! fd' = conns !! fd'.

Lemma kq_keeps_trans fd c1 c2 c3 : keeps fd c1 c2 → keeps fd c2 c3 → keeps fd c1 c3.
Proof. intros H1 H2 fd' Hne. by rewrite H2, H1. Qed.

Lemma kq_keeps_insert fd c conns : keeps fd conns (<[fd := c]> conns).
Proof. intros fd' Hne. by rewrite lookup_insert_ne. Qed.

Lemma kq_keeps_delete fd conns : keeps fd conns (delete fd conns).
Proof. intros fd' Hne. by rewrite lookup_delete_ne. Qed.

(** ** Lemmas on the representation *)

Lemma krep_update conns m fd bb b rd wr b' rd' wr' :
  krep conns m → conns !! fd = Some (KConn bb b rd wr) →
  krep (<[fd := KConn bb b' rd' wr']> conns) (<[bb := [Some (OBuf b')]]> m).
Proof.
  intros Hr Hc. constructor.
  - intros fd' bb' b'' rd'' wr'' [[<- ?]|[Hne Hc']]%lookup_insert_Some; simplify_eq.
    + by rewrite lookup_insert_eq.
    + rewrite lookup_insert_ne; [by eapply (krep_buf _ _ Hr)|].
      intros <-. by eapply Hne, (krep_inj _ _ Hr).
  - intros fd1 fd2 bb' b1 b2 rd1 rd2 wr1 wr2
      [[<- ?]|[? H1]]%lookup_insert_Some [[<- ?]|[? H2]]%lookup_insert_Some;
      simplify_eq; try done; by eapply (krep_inj _ _ Hr).
  - intros k Hk. destruct (decide (k = bb)) as [->|Hne].
    { exists fd. do 3 eexists. apply lookup_insert_eq. }
    rewrite lookup_insert_ne in Hk by done.
    destruct (krep_own _ _ Hr k Hk) as (fd' & b1 & rd1 & wr1 & Hc').
    exists fd', b1, rd1, wr1. rewrite lookup_insert_ne; [done|]. intros <-. congruence.
Qed.

Lemma krep_delete conns m fd bb b rd wr :
  krep conns m → conns !! fd = Some (KConn bb b rd wr) →
  krep (delete fd conns) (delete bb m).
Proof.
  intros Hr Hc. constructor.
  - intros fd' bb' b' rd' wr' [Hne Hc']%lookup_delete_Some.
    rewrite lookup_delete_ne; [by eapply (krep_buf _ _ Hr)|].
    intros <-. by eapply Hne, (krep_inj _ _ Hr).
  - intros fd1 fd2 bb' b1 b2 rd1 rd2 wr1 wr2 [_ H1]%lookup_delete_Some
      [_ H2]%lookup_delete_Some. by eapply (krep_inj _ _ Hr).
  - intros k [l [Hne Hk]%lookup_delete_Some].
    destruct (krep_own _ _ Hr k) as (fd' & b' & rd' & wr' & Hc'); [by eexists|].
    exists fd', b', rd', wr'. apply lookup_delete_Some. split; [|done]. intros <-. congruence.
Qed.

Lemma krep_add conns m fd bb b rd wr :
  krep conns m → conns !! fd = None → m !! bb = None →
  krep (<[fd := KConn bb b rd wr]> conns) (<[bb := [Some (OBuf b)]]> m).
Proof.
  intros Hr Hfd Hbb.
  assert (∀ fd' bb' b' rd' wr', conns !! fd' = Some (KConn bb' b' rd' wr') → bb' ≠ bb) as Hold.
  { intros fd' bb' b' rd' wr' Hc <-. pose proof (krep_buf _ _ Hr _ _ _ _ _ Hc). congruence. }
  constructor.
  - intros fd' bb' b' rd' wr' [[<- ?]|[Hne Hc]]%lookup_insert_Some; simplify_eq.
    + by rewrite lookup_insert_eq.
    + rewrite lookup_insert_ne; [by eapply (krep_buf _ _ Hr)|]. by eapply not_eq_sym, Hold.
  - intros fd1 fd2 bb' b1 b2 rd1 rd2 wr1 wr2
      [[<- ?]|[? H1]]%lookup_insert_Some [[<- ?]|[? H2]]%lookup_insert_Some; simplify_eq;
      try done; [by destruct (Hold _ _ _ _ _ H2)|by destruct (Hold _ _ _ _ _ H1)|
      by eapply (krep_inj _ _ Hr)].
  - intros k Hk. destruct (decide (k = bb)) as [->|Hne].
    { exists fd. do 3 eexists. apply lookup_insert_eq. }
    rewrite lookup_insert_ne in Hk by done.
    destruct (krep_own _ _ Hr k Hk) as (fd' & b1 & rd1 & wr1 & Hc').
    exists fd', b1, rd1, wr1. rewrite lookup_insert_ne; [done|]. congruence.
Qed.

Section proofs.
Context (os : history → syscall → answer) (Hos : kq_ok os).
Implicit Types (w : world) (tr : history) (conns : gmap Z kconn).
#[local] Instance: io_ok os := kq_io _ Hos.
#[local] Abbreviation same := (same os).
#[local] Abbreviation sends := (sends os).

Lemma kinv_same lfds x conns w tr :
  KInv os lfds x conns w → same (trace w) tr → KInv os lfds x conns (World (mem w) tr).
Proof.
  intros [] []. constructor; simpl; try done.
  - intros fd filt. rewrite <-kinv_notes0. unfold reg_of in same_reg. simpl in same_reg.
    by rewrite same_reg.
  - intros fd bb b rd wr Hc Hx. destruct (kinv_buf0 fd bb b rd wr Hc Hx) as [Hok Hw].
    split; [|done]. by eapply buf_ok_stream.
  - by eapply echoes_stream.
Qed.

(** A call that changes nothing. *)
Lemma kinv_call lfds x conns w c :
  KInv os lfds x conns w →
  match c with
  | Recv _ _ | Send _ _ => ret (os (trace w) c) ≤ 0
  | Accept _ | KevChange _ _ _ _ _ => ret (os (trace w) c) < 0
  | Close fd => conns !! fd = None
  | _ => plain c = true
  end → KInv os lfds x conns (World (mem w) (trace w ++ [(c, os (trace w) c)])).
Proof.
  intros Hinv Hc. apply kinv_same; [done|]. apply same_quiet; [apply Hinv|by destruct c|].
  unfold reg_of. simpl. rewrite knotes_snoc. destruct c; try done; simpl.
  - assert (∀ filt, knotes (trace w) !! (fd, filt) = None) as Hn.
    { intros filt. by rewrite (kinv_notes _ _ _ _ _ Hinv), Hc. }
    rewrite (delete_id _ _ (Hn EVFILT_WRITE)). by apply delete_id.
  - by rewrite (proj2 (Z.ltb_lt _ _)).
Qed.

Lemma kinv_heap lfds x conns w h tr :
  KInv os lfds x conns w → blocks h = blocks (mem w) → heap_wf h → tr = trace w →
  KInv os lfds x conns (World h tr).
Proof. intros [] Hh Hwf ->. constructor; simpl; try done. by rewrite Hh. Qed.

(** With [x] left out, less is asked. *)
Lemma kinv_leave lfds conns w fd : KInv os lfds None conns w → KInv os lfds (Some fd) conns w.
Proof. intros []. constructor; try done. intros. by eapply kinv_buf0. Qed.

Lemma kinv_enter lfds conns w fd bb b rd wr :
  KInv os lfds (Some fd) conns w → conns !! fd = Some (KConn bb b rd wr) →
  buf_ok os (trace w) fd b → waits b rd wr → KInv os lfds None conns w.
Proof.
  intros [] Hc Hok Hw. constructor; try done. intros fd' bb' b' rd' wr' Hc' _.
  destruct (decide (fd' = fd)) as [->|Hne]; [by simplify_eq|].
  eapply kinv_buf0; [done|]. congruence.
Qed.

(** A descriptor's events change: [c'] is what they are now. *)
Lemma kinv_note lfds x conns w kq fd filt flags ud c' :
  let c := KevChange kq fd filt flags ud in
  let a := os (trace w) c in
  KInv os lfds x conns w → x = None ∨ x = Some fd → 0 ≤ ret a →
  (∀ f, knote_of f c' = if decide (f = filt)
     then change_note flags ud (conns !! fd ≫= knote_of f) else conns !! fd ≫= knote_of f) →
  (∀ f, (<[fd := c']> conns !! f = Some KListener ↔ f ∈ lfds)) →
  krep (<[fd := c']> conns) (blocks (mem w)) →
  KInv os lfds (Some fd) (<[fd := c']> conns) (World (mem w) (trace w ++ [(c, a)])).
Proof.
  intros c a Hinv Hx Hret Hnote Hlis Hrep. constructor; simpl; try done; try apply Hinv.
  - constructor. apply Hinv.
  - intros fd' f. rewrite knotes_snoc. destruct (decide (fd' = fd)) as [->|Hne].
    + rewrite lookup_insert_eq. simpl. rewrite (proj2 (Z.ltb_ge _ _)) by done.
      rewrite Hnote. case_decide as Hf.
      * subst f. rewrite lookup_partial_alter_eq. by rewrite (kinv_notes _ _ _ _ _ Hinv).
      * rewrite lookup_partial_alter_ne by congruence. apply Hinv.
    + rewrite (note_step_other _ _ _ fd) by done. rewrite lookup_insert_ne by done. apply Hinv.
  - intros fd' bb b rd wr [[<- ?]|[Hne Hc]]%lookup_insert_Some Hx'; [done|].
    destruct (kinv_buf _ _ _ _ _ Hinv fd' bb b rd wr Hc) as [Hok Hw].
    { destruct Hx as [->| ->]; congruence. }
    split; [|done]. eapply buf_ok_stream; [done|]. by rewrite stream_snoc.
  - eapply echoes_stream; [by apply Hinv|]. intros fd'. simpl. by rewrite stream_snoc.
Qed.

(** *** Changes of the events of a connection *)

Lemma lis_insert lfds x conns w fd bb b rd wr b' rd' wr' f :
  KInv os lfds x conns w → conns !! fd = Some (KConn bb b rd wr) →
  <[fd := KConn bb b' rd' wr']> conns !! f = Some KListener ↔ f ∈ lfds.
Proof.
  intros Hinv Hc. rewrite (kinv_lis _ _ _ _ _ Hinv). destruct (decide (f = fd)) as [->|Hne].
  - rewrite lookup_insert_eq, Hc. done.
  - by rewrite lookup_insert_ne.
Qed.

(** [kq_change] on a connection: it fails and nothing changes, or it does
    what [change_note] says. *)
Lemma wp_kq_change lfds x conns w kq fd filt flags ud bb b rd wr rd' wr'
    (Q : Z → world → Prop) :
  KInv os lfds x conns w → conns !! fd = Some (KConn bb b rd wr) → x = None ∨ x = Some fd →
  (∀ f, knote_of f (KConn bb b rd' wr') = if decide (f = filt)
     then change_note flags ud (knote_of f (KConn bb b rd wr))
     else knote_of f (KConn bb b rd wr)) →
  (∀ w', mem w' = mem w → (∀ fd, stream fd (trace w') = stream fd (trace w)) →
     deliveries (trace w') = deliveries (trace w) →
     KInv os lfds x conns w' → Q (-1) w') →
  (∀ w', mem w' = mem w → (∀ fd, stream fd (trace w') = stream fd (trace w)) →
     deliveries (trace w') = deliveries (trace w) →
     KInv os lfds (Some fd) (<[fd := KConn bb b rd' wr']> conns) w' → Q 0 w') →
  wp (kq_change os kq fd filt flags ud) w Q.
Proof.
  intros Hinv Hc Hx Hnote HQf HQs. unfold kq_change. wp_step. apply wp_sys.
  set (c := KevChange _ _ _ _ _).
  destruct (Z.ltb_spec (ret (os (trace w) c)) 0) as [Hlt|Hge]; wp_step.
  - apply HQf; [done|..|by apply kinv_call].
    + intros fd'. simpl. by rewrite stream_snoc.
    + simpl. rewrite deliveries_snoc. simpl. lia.
  - apply HQs; [done|..].
    + intros fd'. simpl. by rewrite stream_snoc.
    + simpl. rewrite deliveries_snoc. simpl. lia.
    + eapply kinv_note; [done|done|done|by rewrite Hc|..].
      * intros f. by eapply lis_insert.
      * pose proof (krep_buf _ _ (kinv_rep _ _ _ _ _ Hinv) _ _ _ _ _ Hc) as Hb.
        rewrite <-(insert_id _ _ _ Hb). eapply krep_update; [apply Hinv|done].
Qed.

(** [cleanup] of a connection. *)
Lemma wp_kq_cleanup lfds x conns w kq fd bb b rd wr (Q : unit → world → Prop) :
  KInv os lfds x conns w → conns !! fd = Some (KConn bb b rd wr) → x = None ∨ x = Some fd →
  (∀ w', KInv os lfds None (delete fd conns) w' → Q tt w') →
  wp (cleanup os kq fd (Ptr bb 0)) w Q.
Proof.
  intros Hinv Hc Hx HQ.
  pose proof (krep_buf _ _ (kinv_rep _ _ _ _ _ Hinv) _ _ _ _ _ Hc) as Hb.
  unfold cleanup. do 3 (wp_step; apply wp_sys; simpl). apply wp_in_heap. simpl.
  eapply wp_free; [done|]. apply HQ.
  set (c1 := KevChange kq fd EVFILT_READ EV_DELETE Null).
  set (c2 := KevChange kq fd EVFILT_WRITE EV_DELETE Null).
  set (tr1 := trace w ++ _). set (tr2 := tr1 ++ _). set (tr3 := tr2 ++ _).
  assert (∀ fd', stream fd' tr3 = stream fd' (trace w)) as Hst.
  { intros fd'. subst tr1 tr2 tr3. by rewrite !stream_snoc. }
  constructor; simpl.
  - do 3 constructor. apply Hinv.
  - apply heap_wf_delete, Hinv.
  - eapply krep_delete; [apply Hinv|done].
  - intros fd' f. subst tr3. rewrite knotes_snoc. destruct (decide (fd' = fd)) as [->|Hne].
    + rewrite lookup_delete_eq. simpl.
      destruct (decide (f = EVFILT_READ)) as [->|Hr]; [apply lookup_delete_eq|].
      rewrite lookup_delete_ne by congruence.
      destruct (decide (f = EVFILT_WRITE)) as [->|Hw]; [apply lookup_delete_eq|].
      rewrite lookup_delete_ne by congruence. subst tr2 tr1. rewrite !knotes_snoc.
      assert (knotes (trace w) !! (fd, f) = None) as Hn.
      { rewrite (kinv_notes _ _ _ _ _ Hinv), Hc. simpl.
        by rewrite (proj2 (Z.eqb_neq _ _) Hr), (proj2 (Z.eqb_neq _ _) Hw). }
      simpl. repeat case_match; rewrite ?lookup_partial_alter_ne by congruence; done.
    + rewrite (note_step_other _ _ _ fd) by done. subst tr2 tr1. rewrite !knotes_snoc.
      rewrite !(note_step_other _ _ _ fd) by done. rewrite lookup_delete_ne by done. apply Hinv.
  - intros fd'. rewrite (kinv_lis _ _ _ _ _ Hinv), lookup_delete_Some. split; [|by intros [_ ?]].
    intros Hl. split; [|done]. congruence.
  - intros fd' bb' b' rd' wr' [Hne Hc']%lookup_delete_Some _.
    destruct (kinv_buf _ _ _ _ _ Hinv fd' bb' b' rd' wr' Hc') as [Hok Hw].
    { destruct Hx as [->| ->]; congruence. }
    split; [|done]. by eapply buf_ok_stream.
  - eapply echoes_stream; [by apply Hinv|done].
Qed.

(** *** The buffer of a connection *)

Lemma kinv_block lfds x conns w fd bb b rd wr :
  KInv os lfds x conns w → conns !! fd = Some (KConn bb b rd wr) →
  blocks (mem w) !! bb = Some [Some (OBuf b)].
Proof. intros Hinv. apply (krep_buf _ _ (kinv_rep _ _ _ _ _ Hinv)). Qed.

(** Another value in the buffer that is being handled. *)
Lemma kinv_set_buf lfds conns w fd bb b rd wr b' :
  KInv os lfds (Some fd) conns w → conns !! fd = Some (KConn bb b rd wr) →
  KInv os lfds (Some fd) (<[fd := KConn bb b' rd wr]> conns) (set_buf w bb b').
Proof.
  intros Hinv Hc. constructor; simpl; try apply Hinv.
  - apply heap_wf_insert; [apply Hinv|]. eexists. by eapply kinv_block.
  - eapply krep_update; [apply Hinv|done].
  - intros fd' f. rewrite (kinv_notes _ _ _ _ _ Hinv). destruct (decide (fd' = fd)) as [->|Hne].
    + by rewrite lookup_insert_eq, Hc.
    + by rewrite lookup_insert_ne.
  - intros f. by rewrite lis_insert.
  - intros fd' bb' b'' rd' wr' [[<- ?]|[Hne Hc']]%lookup_insert_Some Hx; [done|].
    by eapply (kinv_buf _ _ _ _ _ Hinv).
Qed.

(** The invariant while the buffer of [fd] is being sent. *)
Lemma kinv_sends lfds conns w fd b r tr :
  KInv os lfds (Some fd) conns w → buf_ok os (trace w) fd b →
  sends fd (data b) (size b) (trace w) r tr →
  KInv os lfds (Some fd) conns (World (mem w) tr).
Proof.
  intros Hinv Hok Hs. pose proof Hs as []. destruct Hinv. constructor; simpl; try done.
  - intros fd' f. rewrite <-kinv_notes0. unfold reg_of in sends_reg. simpl in sends_reg.
    by rewrite sends_reg.
  - intros fd' bb' b' rd wr Hc Hne. destruct (kinv_buf0 fd' bb' b' rd wr Hc Hne) as [Hok' Hw].
    split; [|done]. eapply buf_ok_stream; [done|]. apply sends_other. congruence.
  - by eapply (echoes_sends os).
Qed.

(** The buffer is sent: the connection is closed, or the rest stays in it. *)
Lemma wp_send_rest {A} lfds conns w fd bb b rd wr (failed : comp world A)
    (k : bool → comp world A) (Q : A → world → Prop) :
  KInv os lfds (Some fd) conns w → conns !! fd = Some (KConn bb b rd wr) →
  buf_ok os (trace w) fd b →
  (∀ w', KInv os lfds (Some fd) conns w' → wp failed w' Q) →
  (∀ w' b', KInv os lfds (Some fd) (<[fd := KConn bb b' rd wr]> conns) w' →
     buf_ok os (trace w') fd b' → deliveries (trace w') = deliveries (trace w) →
     wp (k (0 <? size b')) w' Q) →
  wp (sent ← do_send os fd (data b) (size b);
      if sent <=? 0 then failed else rest ← keep_rest (Ptr bb 0) sent; k rest) w Q.
Proof.
  intros Hinv Hc Hok HQc HQk. wp_step.
  eapply (wp_do_send os); [apply Hinv|by eapply buf_ok_room|]. intros r tr Hs.
  pose proof (kinv_sends lfds conns w fd b r tr Hinv Hok Hs) as Hinv'.
  destruct (Z.leb_spec r 0) as [Hr|Hr]; [by apply HQc|].
  wp_step. eapply wp_keep_rest_at; [by eapply kinv_block|]. apply HQk.
  - by eapply kinv_set_buf.
  - by eapply (buf_ok_rest os).
  - simpl. exact (sends_del _ _ _ _ _ _ _ Hs).
Qed.

(** *** Events on a connection *)

Lemma note_wr bb b rd wr wr' flags ud :
  change_note flags ud (Knote (Ptr bb 0) <$> wr) = Knote (Ptr bb 0) <$> wr' →
  ∀ f, knote_of f (KConn bb b rd wr') = if decide (f = EVFILT_WRITE)
     then change_note flags ud (knote_of f (KConn bb b rd wr))
     else knote_of f (KConn bb b rd wr).
Proof.
  intros Hn f. unfold knote_of. case_decide as Hf; [by subst f|].
  by rewrite (proj2 (Z.eqb_neq f EVFILT_WRITE) Hf).
Qed.

Lemma note_rd bb b rd wr rd' flags ud :
  change_note flags ud (Some (Knote (Ptr bb 0) rd)) = Some (Knote (Ptr bb 0) rd') →
  ∀ f, knote_of f (KConn bb b rd' wr) = if decide (f = EVFILT_READ)
     then change_note flags ud (knote_of f (KConn bb b rd wr))
     else knote_of f (KConn bb b rd wr).
Proof.
  intros Hn f. unfold knote_of. case_decide as Hf; [by subst f|].
  by rewrite (proj2 (Z.eqb_neq f EVFILT_READ) Hf).
Qed.

Lemma wp_kq_flush lfds conns w kq fd bb b rd wr (Q : unit → world → Prop) :
  KInv os lfds None conns w → conns !! fd = Some (KConn bb b rd wr) → 0 < size b →
  (∀ w' conns', KInv os lfds None conns' w' → keeps fd conns conns' → Q tt w') →
  wp (flush os kq fd (Ptr bb 0)) w Q.
Proof.
  intros Hinv Hc Hsz HQ. destruct (kinv_buf _ _ _ _ _ Hinv _ _ _ _ _ Hc ltac:(done)) as [Hok Hw].
  assert (rd = false ∧ wr = Some true) as [-> ->] by (destruct Hw as [(?&_&_)|(_&?&?)]; [lia|done]).
  unfold flush. wp_step. eapply wp_load_buf_at; [by eapply kinv_block|].
  assert (∀ w' conns' b' rd' wr', KInv os lfds (Some fd) conns' w' → keeps fd conns conns' →
    conns' !! fd = Some (KConn bb b' rd' wr') → wp (cleanup os kq fd (Ptr bb 0)) w' Q) as Hclean.
  { intros w' conns' b' rd' wr' Hinv' Hk Hc'. eapply wp_kq_cleanup; [done|done|by right|].
    intros w2 Hinv2. eapply HQ; [done|]. eapply kq_keeps_trans; [done|apply kq_keeps_delete]. }
  eapply wp_send_rest; [by apply kinv_leave|done|done|..].
  { intros w' Hinv'. by eapply Hclean. }
  intros w' b' Hinv' Hok' _. destruct (Z.ltb_spec 0 (size b')) as [Hlt|Hge].
  { wp_step. eapply HQ; [|apply kq_keeps_insert].
    eapply kinv_enter; [done|apply lookup_insert_eq|done|by right]. }
  assert (size b' = 0) as Hz by (pose proof (buf_size _ _ _ _ Hok'); lia).
  wp_step. eapply wp_kq_change;
    [done|apply lookup_insert_eq|by right|by apply note_wr with (wr':=Some false)|..].
  - intros w2 _ _ _ Hinv2. eapply Hclean; [done|apply kq_keeps_insert|apply lookup_insert_eq].
  - intros w2 _ Hst2 _ Hinv2. rewrite insert_insert_eq in Hinv2.
    change (0 <? 0) with false. cbn iota. wp_step. eapply wp_kq_change;
      [done|apply lookup_insert_eq|by right|by apply note_rd with (rd':=true)|..].
    + intros w3 _ _ _ Hinv3. eapply Hclean; [done|apply kq_keeps_insert|apply lookup_insert_eq].
    + intros w3 _ Hst3 _ Hinv3. rewrite insert_insert_eq in Hinv3.
      apply wp_ret. eapply HQ; [|apply kq_keeps_insert].
      eapply kinv_enter; [done|apply lookup_insert_eq| |by left].
      eapply buf_ok_stream; [done|]. congruence.
Qed.

(** The invariant after a chunk is received and stored. *)
Lemma kinv_recv lfds conns w fd bb b rd wr :
  let c := Recv fd BUF_CAPACITY in
  let a := os (trace w) c in
  let w1 := World (mem w) (trace w ++ [(c, a)]) in
  KInv os lfds None conns w → conns !! fd = Some (KConn bb b rd wr) → size b = 0 →
  0 < ret a →
  KInv os lfds (Some fd) (<[fd := KConn bb (received a b) rd wr]> conns)
    (set_buf w1 bb (received a b)) ∧ buf_ok os (trace w1) fd (received a b).
Proof.
  intros c a w1 Hinv Hc Hsz Hpos.
  destruct (kinv_buf _ _ _ _ _ Hinv _ _ _ _ _ Hc ltac:(done)) as [Hok _].
  pose proof (recv_stream os (trace w) fd BUF_CAPACITY Hpos) as (Hs & Ho & _).
  fold c a in Hs, Ho.
  split; [|by apply (buf_ok_recv os); [apply Hinv|..]].
  eapply (kinv_set_buf lfds conns w1 fd bb b); [|done].
  pose proof (kinv_echo _ _ _ _ _ Hinv) as He. destruct Hinv. constructor; simpl; try done.
  - by constructor.
  - intros fd' f. rewrite knotes_snoc. apply kinv_notes0.
  - intros fd' bb' b' rd' wr' Hc' Hne.
    destruct (kinv_buf0 fd' bb' b' rd' wr' Hc') as [Hok' Hw]; [done|].
    split; [|done]. eapply buf_ok_stream; [done|]. apply Ho. congruence.
  - by apply echoes_recv.
Qed.

(** What is left in the buffer waits for room: the branch of [recv_step] that
    turns one event off and the other on. *)
Lemma wp_watch_room lfds conns w kq fd bb b wr (Q : unit + unit → world → Prop) :
  KInv os lfds (Some fd) (<[fd := KConn bb b true wr]> conns) w →
  buf_ok os (trace w) fd b → 0 < size b →
  (∀ w' conns', KInv os lfds None conns' w' → keeps fd conns conns' → Q (inr tt) w') →
  wp (r ← kq_change os kq fd EVFILT_READ (Z.lor EV_DISABLE EV_KEEPUDATA) Null;
      if r <? 0 then cleanup os kq fd (Ptr bb 0);; mret (inr tt) else
      r ← kq_change os kq fd EVFILT_WRITE (Z.lor EV_ADD EV_ENABLE) (Ptr bb 0);
      (if r <? 0 then cleanup os kq fd (Ptr bb 0) else mret tt);;
      mret (inr tt)) w Q.
Proof.
  intros Hinv Hok Hsz HQ.
  assert (∀ w' rd' wr' (Q' : unit → world → Prop),
    KInv os lfds (Some fd) (<[fd := KConn bb b rd' wr']> conns) w' →
    (∀ w2, Q (inr tt) w2 → Q' tt w2) → wp (cleanup os kq fd (Ptr bb 0)) w' Q') as Hclean.
  { intros w' rd' wr' Q' Hinv' HQ'. eapply wp_kq_cleanup; [done|apply lookup_insert_eq|by right|].
    intros w2 Hinv2. eapply HQ', HQ; [done|].
    eapply kq_keeps_trans; [apply kq_keeps_insert|apply kq_keeps_delete]. }
  wp_step. eapply wp_kq_change;
    [done|apply lookup_insert_eq|by right|by apply note_rd with (rd':=false)|..].
  { intros w' _ _ _ Hinv'. apply wp_bind. eapply Hclean; [done|]. intros. by wp_step. }
  intros w' _ Hst _ Hinv'. rewrite insert_insert_eq in Hinv'.
  change (0 <? 0) with false. cbn iota. wp_step. eapply wp_kq_change;
    [done|apply lookup_insert_eq|by right|apply note_wr with (wr':=Some true)|..].
  - by destruct wr.
  - intros w2 _ _ _ Hinv2. apply wp_bind. eapply Hclean; [done|]. intros. by wp_step.
  - intros w2 _ Hst2 _ Hinv2. rewrite insert_insert_eq in Hinv2. apply wp_bind, wp_ret, wp_ret.
    eapply HQ; [|apply kq_keeps_insert].
    eapply kinv_enter; [done|apply lookup_insert_eq| |by right].
    eapply buf_ok_stream; [done|]. congruence.
Qed.

(** An iteration of the receive loop on an empty buffer: the connection is
    left to later events, or it is still open, its buffer is empty again and
    something was delivered. *)
Lemma wp_kq_recv_step lfds conns w kq fd bb b rd wr (Q : unit + unit → world → Prop) :
  KInv os lfds None conns w → conns !! fd = Some (KConn bb b rd wr) → size b = 0 →
  (∀ w' conns', KInv os lfds None conns' w' → keeps fd conns conns' → Q (inr tt) w') →
  (∀ w' b', KInv os lfds None (<[fd := KConn bb b' rd wr]> conns) w' → size b' = 0 →
    (deliveries (trace w) < deliveries (trace w'))%nat → Q (inl tt) w') →
  wp (recv_step os kq fd (Ptr bb 0) tt) w Q.
Proof.
  intros Hinv Hc Hsz HQr HQl.
  destruct (kinv_buf _ _ _ _ _ Hinv _ _ _ _ _ Hc ltac:(done)) as [_ Hw].
  assert (rd = true ∧ wr ≠ Some true) as [-> Hwr] by (destruct Hw as [(_&?&?)|(?&_&_)]; [done|lia]).
  unfold recv_step. wp_step. apply wp_sys.
  set (c := Recv fd BUF_CAPACITY). set (a := os (trace w) c).
  assert (∀ w' conns' b' rd' wr', KInv os lfds (Some fd) conns' w' → keeps fd conns conns' →
    conns' !! fd = Some (KConn bb b' rd' wr') →
    wp (cleanup os kq fd (Ptr bb 0);; mret (inr tt)) w' Q) as Hclean.
  { intros w' conns' b' rd' wr' Hinv' Hk Hc'. wp_step.
    eapply wp_kq_cleanup; [done|done|by right|]. intros w2 Hinv2. wp_step.
    eapply HQr; [done|]. eapply kq_keeps_trans; [done|apply kq_keeps_delete]. }
  assert (ret a ≤ 0 → KInv os lfds None conns (World (mem w) (trace w ++ [(c, a)]))) as Hquiet
    by (intros Hle; by apply kinv_call).
  destruct (Z.ltb_spec (ret a) 0) as [Hneg|Hge].
  { specialize (Hquiet ltac:(lia)). destruct (negb _ && negb _).
    - by eapply Hclean; [apply kinv_leave|intros fd' _|].
    - wp_step. by eapply HQr; [|intros fd' _]. }
  destruct (Z.eqb_spec (ret a) 0) as [Hz|Hnz].
  { eapply Hclean; [by apply kinv_leave, Hquiet; lia|by intros fd' _|done]. }
  wp_step. eapply wp_load_buf_at; [by eapply (kinv_block _ _ _ w)|].
  wp_step. eapply wp_store_buf_at; [by eapply (kinv_block _ _ _ w)|].
  destruct (kinv_recv lfds conns w fd bb b true wr Hinv Hc Hsz ltac:(fold c a; lia))
    as [Hinv1 Hok1].
  pose proof (recv_stream os (trace w) fd BUF_CAPACITY ltac:(fold c a; lia)) as (_ & _ & Hdel).
  fold c a in Hinv1, Hok1, Hdel. unfold to_upper_case, received in *.
  set (b1 := Buffer (ret a) _) in *. set (w1 := set_buf _ bb b1) in *.
  wp_step. eapply wp_load_buf_at; [eapply kinv_block; [done|apply lookup_insert_eq]|].
  eapply wp_send_rest; [done|apply lookup_insert_eq|done|..].
  { intros w' Hinv'. eapply Hclean; [done|apply kq_keeps_insert|apply lookup_insert_eq]. }
  intros w' b' Hinv' Hok' Hdel'. rewrite insert_insert_eq in Hinv'.
  destruct (Z.ltb_spec 0 (size b')) as [Hlt|Hge'].
  - by eapply wp_watch_room.
  - assert (size b' = 0) as Hz by (pose proof (buf_size _ _ _ _ Hok'); lia).
    wp_step. eapply HQl; [|done|].
    + eapply kinv_enter; [done|apply lookup_insert_eq|done|by left].
    + rewrite Hdel'. subst w1. simpl. lia.
Qed.

(** *** Accepting *)

(** A descriptor is accepted: nothing is watched for it yet. *)
Lemma kinv_accept lfds conns w l :
  let c := Accept l in
  let a := os (trace w) c in
  KInv os lfds None conns w → 0 ≤ ret a →
  KInv os lfds None conns (World (mem w) (trace w ++ [(c, a)])) ∧ conns !! ret a = None.
Proof.
  intros c a Hinv Ha.
  assert (conns !! ret a = None) as Hnone.
  { pose proof (kq_accept_fresh _ Hos (trace w) l EVFILT_READ (kinv_cons _ _ _ _ _ Hinv) Ha)
      as Hfresh. fold c a in Hfresh. rewrite (kinv_notes _ _ _ _ _ Hinv) in Hfresh.
    destruct (conns !! ret a) as [[]|]; done. }
  pose proof (accept_stream os (trace w) l Ha) as (Hs & Ho & _). fold c a in Hs, Ho.
  split; [|done]. pose proof (kinv_echo _ _ _ _ _ Hinv) as He.
  destruct Hinv. constructor; simpl; try done.
  - by constructor.
  - intros fd' f. rewrite knotes_snoc. apply kinv_notes0.
  - intros fd bb b rd wr Hc Hx. destruct (kinv_buf0 fd bb b rd wr Hc Hx) as [Hok Hw].
    split; [|done]. eapply buf_ok_stream; [done|]. apply Ho. congruence.
  - by apply echoes_accept.
Qed.

(** The new connection's buffer, and its event. *)
Lemma kinv_add lfds conns w kq fd bb b h :
  let c := KevChange kq fd EVFILT_READ (Z.lor EV_ADD EV_ENABLE) (Ptr bb 0) in
  let a := os (trace w) c in
  KInv os lfds None conns w → conns !! fd = None → blocks (mem w) !! bb = None →
  blocks h = <[bb := [Some (OBuf b)]]> (blocks (mem w)) → heap_wf h →
  0 ≤ ret a → buf_ok os (trace w) fd b → size b = 0 →
  KInv os lfds None (<[fd := KConn bb b true None]> conns) (World h (trace w ++ [(c, a)])).
Proof.
  intros c a Hinv Hfd Hbb Hh Hwf Hret Hok Hsz.
  constructor; simpl; try done.
  - constructor. apply Hinv.
  - rewrite Hh. apply krep_add; [apply Hinv|done|done].
  - intros fd' f. rewrite knotes_snoc. destruct (decide (fd' = fd)) as [->|Hne].
    + rewrite lookup_insert_eq. simpl. rewrite (proj2 (Z.ltb_ge _ _)) by done.
      destruct (Z.eqb_spec f EVFILT_READ) as [->|Hf]; [by rewrite lookup_partial_alter_eq|].
      rewrite lookup_partial_alter_ne by congruence.
      rewrite (kinv_notes _ _ _ _ _ Hinv), Hfd. simpl. by case_match.
    + rewrite (note_step_other _ _ _ fd) by done. rewrite lookup_insert_ne by done. apply Hinv.
  - intros f. rewrite (kinv_lis _ _ _ _ _ Hinv). destruct (decide (f = fd)) as [->|Hne].
    + rewrite lookup_insert_eq, Hfd. done.
    + by rewrite lookup_insert_ne.
  - assert (∀ fd', stream fd' (trace w ++ [(c, a)]) = stream fd' (trace w)) as Hst
      by (intros fd'; by rewrite stream_snoc).
    intros fd' bb' b' rd wr [[<- ?]|[Hne Hc]]%lookup_insert_Some _; simplify_eq.
    + split; [by eapply buf_ok_stream|by left].
    + destruct (kinv_buf _ _ _ _ _ Hinv fd' bb' b' rd wr Hc ltac:(done)) as [Hok' Hw].
      split; [by eapply buf_ok_stream|done].
  - eapply echoes_stream; [by apply Hinv|]. intros fd'. simpl. by rewrite stream_snoc.
Qed.

Lemma wp_kq_accept_step lfds conns w kq l (Q : unit + unit → world → Prop) :
  KInv os lfds None conns w →
  (∀ w', KInv os lfds None conns w' → Q (inr tt) w') →
  (∀ w' fd c, KInv os lfds None (<[fd := c]> conns) w' → conns !! fd = None →
    (deliveries (trace w) < deliveries (trace w'))%nat → Q (inl tt) w') →
  wp (accept_step os kq l tt) w Q.
Proof.
  intros Hinv HQr HQl. unfold accept_step. wp_step. apply wp_sys.
  set (c := Accept l). set (a := os (trace w) c).
  destruct (Z.ltb_spec (ret a) 0) as [Hneg|Hge]; [wp_step; by apply HQr, kinv_call|].
  destruct (kinv_accept lfds conns w l Hinv Hge) as (Hinv1 & Hnone).
  pose proof (accept_stream os (trace w) l Hge) as (Hs & _ & Hdel).
  fold c a in Hinv1, Hnone, Hs, Hdel. set (tr1 := trace w ++ [(c, a)]) in *.
  wp_step. apply (wp_set_nonblocking os); [apply Hinv1|]. simpl. intros r tr2 Hsame.
  pose proof (kinv_same _ _ _ _ _ Hinv1 Hsame) as Hinv2. simpl in Hinv2.
  destruct (r <? 0).
  { wp_step. apply wp_sys. wp_step. by apply HQr, kinv_call. }
  wp_step. apply wp_in_heap. simpl. unfold calloc.
  rewrite (proj2 (Z.ltb_lt _ _)) by (by vm_compute).
  apply wp_alloc_any; [apply Hinv2| |].
  { intros h Hh Hwf. simpl. wp_step. apply HQr. by eapply kinv_heap. }
  intros bb h Hbb Hh Hwf. cbn [is_null]. change (replicate _ _) with [Some new_buffer] in Hh.
  simpl in Hbb, Hh. unfold kq_change. wp_step. wp_step. apply wp_sys. simpl.
  set (c2 := KevChange _ _ _ _ _).
  destruct (Z.ltb_spec (ret (os tr2 c2)) 0) as [Hlt|Hok].
  - wp_step. change (-1 <? 0) with true. cbn iota. wp_step. apply wp_sys. wp_step.
    apply wp_in_heap. simpl.
    eapply wp_free; [by rewrite Hh, lookup_insert_eq|]. wp_step. apply HQr.
    pose proof (kinv_call _ _ _ _ c2 Hinv2 Hlt) as Hinv3.
    apply (kinv_call _ _ _ _ (Close (ret a))) in Hinv3; [|done]. simpl in Hinv3.
    eapply kinv_heap; [done| |by apply heap_wf_delete|done]. simpl.
    by rewrite Hh, delete_insert_id.
  - wp_step. change (0 <? 0) with false. cbn iota. wp_step.
    eapply (HQl _ (ret a) (KConn bb (Buffer 0 (replicate (Z.to_nat BUF_CAPACITY) 0)) true None));
      [|done|].
    + apply (kinv_add lfds conns (World (mem w) tr2)); try done.
      apply buf_ok_new. by rewrite (same_stream _ _ _ Hsame).
    + simpl. rewrite deliveries_snoc, (same_del _ _ _ Hsame), Hdel. simpl. lia.
Qed.

(** *** The event loop *)

Section event_loop.
Context (fuel : nat) (Hfin : bounded os fuel).

Lemma wp_kq_accept_loop lfds conns w kq l (Q : unit → world → Prop) :
  KInv os lfds None conns w →
  (∀ w' conns', KInv os lfds None conns' w' → conns ⊆ conns' → Q tt w') →
  wp (loop fuel (accept_step os kq l) tt) w Q.
Proof.
  intros Hinv HQ.
  apply (wp_loop (λ _ w', ∃ conns', KInv os lfds None conns' w' ∧ conns ⊆ conns')
           (λ _ w', fuel - 1 - deliveries (trace w'))%nat).
  - intros [] w' (conns' & Hinv' & Hsub).
    apply (wp_kq_accept_step lfds conns' w' kq l); [done|..].
    + intros w2 Hinv2. by eapply HQ.
    + intros w2 fd c Hinv2 Hnone Hlt. split.
      * eexists. split; [done|]. etrans; [done|]. by apply insert_subseteq.
      * pose proof (Hfin _ (kinv_cons _ _ _ _ _ Hinv2)). lia.
  - by exists conns.
  - pose proof (Hfin _ (kinv_cons _ _ _ _ _ Hinv)). lia.
Qed.

Lemma wp_kq_recv_loop lfds conns w kq fd bb b rd wr (Q : unit → world → Prop) :
  KInv os lfds None conns w → conns !! fd = Some (KConn bb b rd wr) → size b = 0 →
  (∀ w' conns', KInv os lfds None conns' w' → keeps fd conns conns' → Q tt w') →
  wp (loop fuel (recv_step os kq fd (Ptr bb 0)) tt) w Q.
Proof.
  intros Hinv Hc Hsz HQ.
  apply (wp_loop (λ _ w', ∃ conns' b', KInv os lfds None conns' w' ∧ keeps fd conns conns' ∧
             conns' !! fd = Some (KConn bb b' rd wr) ∧ size b' = 0)
           (λ _ w', fuel - 1 - deliveries (trace w'))%nat).
  - intros [] w' (conns' & b' & Hinv' & Hk & Hc' & Hsz').
    eapply (wp_kq_recv_step lfds conns' w' kq fd bb b'); try done.
    + intros w2 c2 Hinv2 Hk2. eapply HQ; [done|]. by eapply kq_keeps_trans.
    + intros w2 b2 Hinv2 Hsz2 Hlt. split.
      * do 2 eexists. split; [done|]. split; [|by rewrite lookup_insert_eq].
        eapply kq_keeps_trans; [done|apply kq_keeps_insert].
      * pose proof (Hfin _ (kinv_cons _ _ _ _ _ Hinv2)). lia.
  - exists conns, b. split; [done|]. by split.
  - pose proof (Hfin _ (kinv_cons _ _ _ _ _ Hinv)). lia.
Qed.

(** An event that the kernel reported and that has not been handled. *)
Definition pending conns (e : kevent) : Prop :=
  INT_MIN ≤ ident e ≤ INT_MAX ∧ 0 ≤ fflags e < EV_ERROR ∧
  conns !! ident e ≫= knote_of (filter e) = Some (Knote (udata e) true).

Lemma no_error_flags z : 0 ≤ z < EV_ERROR → has z EV_EOF || has z EV_ERROR = false.
Proof.
  intros Hz. unfold has. change EV_EOF with (2 ^ 15). change EV_ERROR with (2 ^ 14) in *.
  by rewrite !(land_pow2_small z 14).
Qed.

(** What is pending for a connection fits its buffer: the branches of
    [handle_event] leave nothing out. *)
Lemma wp_when_size lfds conns w e bb b rd wr which test (Q : bool → world → Prop) :
  KInv os lfds None conns w → conns !! ident e = Some (KConn bb b rd wr) → pending conns e →
  Q ((filter e =? which) && test (size b)) w → wp (when_size e which test) w Q.
Proof.
  intros Hinv Hc (_ & _ & Hn) HQ. unfold when_size.
  destruct (filter e =? which); [|by wp_step]. rewrite Hc in Hn. simpl in Hn.
  assert (udata e = Ptr bb 0) as ->.
  { destruct (_ =? _); [congruence|]. destruct (_ =? _), wr; simpl in Hn; congruence. }
  wp_step. eapply wp_load_buf_at; [by eapply kinv_block|]. by wp_step.
Qed.

Lemma pending_conn lfds conns w e bb b rd wr :
  KInv os lfds None conns w → conns !! ident e = Some (KConn bb b rd wr) → pending conns e →
  udata e = Ptr bb 0 ∧ ((filter e = EVFILT_WRITE ∧ 0 < size b) ∨
                        (filter e = EVFILT_READ ∧ size b = 0)).
Proof.
  intros Hinv Hc (_ & _ & Hn). rewrite Hc in Hn. simpl in Hn.
  destruct (kinv_buf _ _ _ _ _ Hinv _ _ _ _ _ Hc ltac:(done)) as [_ Hw].
  destruct (Z.eqb_spec (filter e) EVFILT_READ) as [Hr|_].
  { simplify_eq. split; [done|right]. destruct Hw as [(?&_)|(_&?&_)]; done. }
  destruct (Z.eqb_spec (filter e) EVFILT_WRITE) as [Hr|_]; [|done].
  destruct wr as [wr|]; simpl in Hn; [|done]. simplify_eq. split; [done|left].
  destruct Hw as [(_&_&?)|(?&_)]; done.
Qed.

(** Every event is handled by one of the branches: never [goto end]. *)
Lemma wp_kq_handle_event lsockfds n conns w kq e (Q : bool → world → Prop) :
  let lfds := take (Z.to_nat n) lsockfds in
  KInv os lfds None conns w → pending conns e →
  (∀ w' conns', KInv os lfds None conns' w' →
    (∀ fd', fd' ≠ ident e → is_Some (conns !! fd') → conns' !! fd' = conns !! fd') →
    Q false w') →
  wp (handle_event os fuel kq lsockfds n e) w Q.
Proof.
  intros lfds Hinv Hp HQ. pose proof Hp as (Hint & Hff & Hn).
  unfold handle_event. rewrite i32_small, no_error_flags by done.
  destruct (is_lsockfd (ident e) lsockfds n) eqn:Hl.
  { wp_step. eapply wp_kq_accept_loop; [done|]. intros w' conns' Hinv' Hsub. wp_step.
    eapply HQ; [done|]. intros fd' _ [c' Hc']. rewrite Hc'. by eapply lookup_weaken. }
  destruct (conns !! ident e) as [[|bb b rd wr]|] eqn:Hc; [|clear Hn|done].
  { apply (kinv_lis _ _ _ _ _ Hinv), is_lsockfd_spec in Hc. congruence. }
  destruct (pending_conn _ _ _ _ _ _ _ _ Hinv Hc Hp) as [Hu Hf].
  assert (∀ w' conns', KInv os lfds None conns' w' → keeps (ident e) conns conns' →
    Q false w') as HQ'.
  { intros w' conns' Hinv' Hk. eapply HQ; [done|]. intros fd' Hne _. by apply Hk. }
  wp_step. eapply wp_when_size; [done..|]. rewrite Hu.
  destruct Hf as [[Hf Hsz]|[Hf Hsz]]; rewrite Hf.
  - rewrite Z.eqb_refl, (proj2 (Z.ltb_lt _ _)) by done. cbn [andb]. wp_step.
    eapply wp_kq_flush; [done..|]. intros w' conns' Hinv' Hk. apply wp_ret. by eapply HQ'.
  - change (EVFILT_READ =? EVFILT_WRITE) with false. cbn [andb]. wp_step.
    eapply wp_when_size; [done..|]. rewrite Hf, Hsz, !Z.eqb_refl. cbn [andb]. wp_step.
    eapply wp_kq_recv_loop; [done..|]. intros w' conns' Hinv' Hk. apply wp_ret. by eapply HQ'.
Qed.

Lemma wp_kq_handle_events lsockfds n evs : ∀ conns w kq (Q : bool → world → Prop),
  let lfds := take (Z.to_nat n) lsockfds in
  KInv os lfds None conns w → NoDup (ident <$> evs) → Forall (pending conns) evs →
  (∀ w' conns', KInv os lfds None conns' w' → Q false w') →
  wp (handle_events os fuel kq lsockfds n evs) w Q.
Proof.
  induction evs as [|e evs IH]; intros conns w kq Q lfds Hinv Hnd Hevs HQ; simpl.
  { wp_step. by eapply HQ. }
  rewrite fmap_cons in Hnd. apply NoDup_cons in Hnd as [Hnin Hnd].
  apply Forall_cons in Hevs as [He Hevs].
  wp_step. eapply wp_kq_handle_event; [done|done|]. intros w' conns' Hinv' Hk.
  eapply IH; [done|done| |done].
  rewrite Forall_forall in Hevs |- *. intros e' He'. destruct (Hevs e' He') as (? & ? & Hn).
  split; [done|]. split; [done|]. rewrite Hk; [done|..].
  - intros Heq. apply Hnin. rewrite <-Heq. by apply list_elem_of_fmap_2.
  - destruct (conns !! ident e'); [by eexists|done].
Qed.

(** The events of one batch are for different descriptors: a connection is
    told of data or of room. *)
Lemma pending_nodup lfds conns w evs :
  KInv os lfds None conns w → Forall (pending conns) evs →
  NoDup ((λ e, (ident e, filter e)) <$> evs) → NoDup (ident <$> evs).
Proof.
  intros Hinv. induction evs as [|e evs IH]; [intros; apply NoDup_nil_2|]. intros [He Hevs]%Forall_cons.
  rewrite !fmap_cons, !NoDup_cons. intros [Hnin Hnd]. split; [|by apply IH].
  intros (e' & Heq & He')%list_elem_of_fmap. apply Hnin, list_elem_of_fmap.
  exists e'. split; [|done]. rewrite Forall_forall in Hevs. specialize (Hevs e' He').
  rewrite <-Heq. f_equal. pose proof He as (_ & _ & Hn). pose proof Hevs as (_ & _ & Hn').
  rewrite <-Heq in Hn'.
  destruct (conns !! ident e) as [[|bb b rd wr]|] eqn:Hc; [|clear Hn Hn'|done].
  - simpl in Hn, Hn'. destruct (Z.eqb_spec (filter e) EVFILT_READ); [|done].
    destruct (Z.eqb_spec (filter e') EVFILT_READ); [congruence|done].
  - destruct (pending_conn _ _ _ _ _ _ _ _ Hinv Hc He) as [_ Hf].
    rewrite Heq in Hc. destruct (pending_conn _ _ _ _ _ _ _ _ Hinv Hc Hevs) as [_ Hf'].
    destruct Hf as [[-> ?]|[-> ?]], Hf' as [[-> ?]|[-> ?]]; done || lia.
Qed.

(** The loop only ends when waiting fails. *)
Lemma wp_kq_event_loop n lsockfds nlfd : ∀ conns w kq (Q : option Z → world → Prop),
  let lfds := take (Z.to_nat nlfd) lsockfds in
  KInv os lfds None conns w →
  (∀ w', echoes os w' → Q (Some 6) w') →
  (∀ w' conns', KInv os lfds None conns' w' → Q None w') →
  wp (event_loop os n fuel kq lsockfds nlfd) w Q.
Proof.
  induction n as [|n IH]; intros conns w kq Q lfds Hinv HQs HQn; simpl.
  { wp_step. by eapply HQn. }
  wp_step. apply wp_sys. set (c := KevWait kq MAX_EVENTS). set (a := os (trace w) c).
  assert (KInv os lfds None conns (World (mem w) (trace w ++ [(c, a)]))) as Hinv1
    by (by apply kinv_call).
  destruct (ret a <? 0); [wp_step; apply HQs; by apply Hinv1|].
  pose proof (kinv_cons _ _ _ _ _ Hinv) as Hcons.
  assert (Forall (pending conns) (kevents a)) as Hp.
  { apply Forall_forall. intros e He.
    destruct (kq_events _ Hos _ _ _ _ Hcons He) as [Hi Hk].
    pose proof (kq_fflags _ Hos _ _ _ _ Hcons He) as Hff.
    split; [done|]. split; [done|]. by rewrite <-(kinv_notes _ _ _ _ _ Hinv). }
  pose proof (pending_nodup _ _ _ _ Hinv Hp (kq_nodup _ Hos _ _ _ Hcons)) as Hnd.
  rewrite <-(take_drop (Z.to_nat (ret a)) (kevents a)) in Hp, Hnd.
  rewrite fmap_app in Hnd. apply NoDup_app in Hnd as [Hnd _]. apply Forall_app in Hp as [Hp _].
  wp_step. eapply wp_kq_handle_events; [done..|]. intros w' conns' Hinv'. by eapply IH.
Qed.

(** *** Watching the listening sockets *)

Lemma kinv_listen lfds conns w kq fd :
  let c := KevChange kq fd EVFILT_READ (Z.lor EV_ADD EV_ENABLE) Null in
  let a := os (trace w) c in
  KInv os lfds None conns w → 0 ≤ ret a → (∀ f c', conns !! f = Some c' → c' = KListener) →
  KInv os (fd :: lfds) None (<[fd := KListener]> conns) (World (mem w) (trace w ++ [(c, a)])).
Proof.
  intros c a Hinv Hret Hall. constructor; simpl; try apply Hinv.
  - constructor. apply Hinv.
  - pose proof (kinv_rep _ _ _ _ _ Hinv) as [_ _ Hown]. constructor.
    + intros fd' bb b rd wr [[_ ?]|[_ Hc]]%lookup_insert_Some; [done|]. by apply Hall in Hc.
    + intros fd' ? bb b ? rd ? wr ? [[_ ?]|[_ Hc]]%lookup_insert_Some; [done|].
      by apply Hall in Hc.
    + intros k (fd' & b & rd & wr & Hc)%Hown. by apply Hall in Hc.
  - intros fd' f. rewrite knotes_snoc. destruct (decide (fd' = fd)) as [->|Hne].
    + rewrite lookup_insert_eq. simpl. rewrite (proj2 (Z.ltb_ge _ _)) by done.
      destruct (Z.eqb_spec f EVFILT_READ) as [->|Hf]; [by rewrite lookup_partial_alter_eq|].
      rewrite lookup_partial_alter_ne by congruence.
      rewrite (kinv_notes _ _ _ _ _ Hinv). destruct (conns !! fd) as [c'|] eqn:Hc; [|done].
      apply Hall in Hc as ->. simpl. by rewrite (proj2 (Z.eqb_neq _ _) Hf).
    + rewrite (note_step_other _ _ _ fd) by done. rewrite lookup_insert_ne by done. apply Hinv.
  - intros f. rewrite elem_of_cons, (kinv_lis _ _ _ _ _ Hinv).
    destruct (decide (f = fd)) as [->|Hne]; [rewrite lookup_insert_eq; tauto|].
    rewrite lookup_insert_ne by done. tauto.
  - intros fd' bb b rd wr [[_ ?]|[_ Hc]]%lookup_insert_Some; [done|]. by apply Hall in Hc.
  - eapply echoes_stream; [by apply Hinv|]. intros fd'. simpl. by rewrite stream_snoc.
Qed.

Lemma wp_kq_add_listeners fds : ∀ lfds conns w kq (Q : bool → world → Prop),
  KInv os lfds None conns w → (∀ f c', conns !! f = Some c' → c' = KListener) →
  (∀ w', echoes os w' → Q false w') →
  (∀ w' conns' lfds', (∀ x, x ∈ lfds' ↔ x ∈ lfds ∨ x ∈ fds) →
    KInv os lfds' None conns' w' → Q true w') →
  wp (add_listeners os kq fds) w Q.
Proof.
  induction fds as [|fd fds IH]; intros lfds conns w kq Q Hinv Hall HQf HQt; simpl.
  { wp_step. eapply HQt; [|done]. intros x. rewrite elem_of_nil. tauto. }
  unfold kq_change. wp_step. wp_step. apply wp_sys. set (c := KevChange _ _ _ _ _).
  destruct (Z.ltb_spec (ret (os (trace w) c)) 0) as [Hlt|Hge]; wp_step.
  - apply wp_ret, HQf. pose proof (kinv_call _ _ _ _ c Hinv Hlt) as Hinv'. apply Hinv'.
  - change (0 <? 0) with false. cbn iota.
    eapply IH; [by eapply kinv_listen| |done|].
    + intros f c' [[_ <-]|[_ Hc]]%lookup_insert_Some; [done|]. by eapply Hall.
    + intros w' conns' lfds' Hl Hinv'. eapply HQt; [|done].
      intros x. rewrite Hl, !elem_of_cons. tauto.
Qed.

Lemma kinv_lfds lfds lfds' x conns w :
  (∀ fd, fd ∈ lfds ↔ fd ∈ lfds') → KInv os lfds x conns w → KInv os lfds' x conns w.
Proof. intros Hl []. constructor; try done. intros fd. by rewrite <-Hl. Qed.

Lemma wp_queue n w lsockfds nlfd (Q : option Z → world → Prop) :
  let lfds := take (Z.to_nat nlfd) lsockfds in
  KInv os [] None ∅ w →
  (∀ r w', echoes os w' → 4 ≤ r ≤ 6 → Q (Some r) w') →
  (∀ w' conns', KInv os lfds None conns' w' → Q None w') →
  wp (queue os n fuel lsockfds nlfd) w Q.
Proof.
  intros lfds Hinv HQs HQn. unfold queue. wp_step. apply wp_sys.
  set (c := Kqueue). set (a := os (trace w) c).
  assert (KInv os [] None ∅ (World (mem w) (trace w ++ [(c, a)]))) as Hinv1
    by (by apply kinv_call).
  destruct (ret a <? 0); [wp_step; apply HQs; [apply Hinv1|lia]|].
  wp_step. eapply wp_kq_add_listeners; [done|done|..].
  - intros w' He. wp_step. apply HQs; [done|lia].
  - intros w' conns' lfds' Hl Hinv'. eapply wp_kq_event_loop; [| |done].
    + eapply kinv_lfds; [|done]. intros fd. rewrite Hl, elem_of_nil. tauto.
    + intros w2 He. apply HQs; [done|lia].
Qed.
End event_loop.

Lemma fresh_knotes tr :
  Forall (λ e, setting_up e.1 = true) tr → knotes tr = ∅.
Proof.
  induction tr as [|[c a] tr IH] using rev_ind; [done|]. intros [Htr Hc]%Forall_app.
  rewrite knotes_snoc, IH by done. rewrite Forall_singleton in Hc. by destruct c.
Qed.

Lemma fresh_kinv oom tr :
  fresh os (World (heap_empty oom) tr) → KInv os [] None ∅ (World (heap_empty oom) tr).
Proof.
  intros Hf. pose proof (fresh_echoes os _ Hf) as He. destruct Hf as [Hc Hs].
  constructor; simpl; try done.
  - constructor; try done. intros k [l Hl]. done.
  - intros fd filt. by rewrite fresh_knotes.
  - intros fd. rewrite elem_of_nil. by split.
Qed.
End proofs.

(** ** The states of a running server *)

(** Every block of the heap is the buffer of a watched connection. *)
Definition kq_no_leak (w : world) : Prop :=
  ∀ k, is_Some (blocks (mem w) !! k) →
    ∃ fd en, knotes (trace w) !! (fd, EVFILT_READ) = Some (Knote (Ptr k 0) en).

(** Every watched connection has its buffer, with what was received and is
    still to be sent; it is told of data exactly while its buffer is empty,
    and of room exactly while it is not. *)
Definition kq_settled (os : history → syscall → answer) (w : world) : Prop :=
  ∀ fd bb en, knotes (trace w) !! (fd, EVFILT_READ) = Some (Knote (Ptr bb 0) en) →
    ∃ b, blocks (mem w) !! bb = Some [Some (OBuf b)] ∧
      (en = true ↔ size b = 0) ∧
      (knotes (trace w) !! (fd, EVFILT_WRITE) = Some (Knote (Ptr bb 0) true) ↔ 0 < size b) ∧
      (no_third_send os →
        (stream fd (trace w)).1 = (stream fd (trace w)).2 ++ take (Z.to_nat (size b)) (data b)).

Lemma kinv_no_leak os lfds x conns w : KInv os lfds x conns w → kq_no_leak w.
Proof.
  intros Hinv k Hk. destruct (krep_own _ _ (kinv_rep _ _ _ _ _ Hinv) k Hk)
    as (fd & b & rd & wr & Hc).
  exists fd, rd. by rewrite (kinv_notes _ _ _ _ _ Hinv), Hc.
Qed.

Lemma kinv_settled os lfds conns w : KInv os lfds None conns w → kq_settled os w.
Proof.
  intros Hinv fd bb en Hn. rewrite (kinv_notes _ _ _ _ _ Hinv) in Hn.
  destruct (conns !! fd) as [[|bb' b rd wr]|] eqn:Hc; try done. simpl in Hn. simplify_eq.
  exists b. destruct (kinv_buf _ _ _ _ _ Hinv _ _ _ _ _ Hc ltac:(done)) as [[_ _ Hst] Hw].
  split; [by eapply (krep_buf _ _ (kinv_rep _ _ _ _ _ Hinv))|].
  rewrite (kinv_notes _ _ _ _ _ Hinv), Hc. simpl.
  destruct Hw as [(Hz & -> & Hwr)|(Hz & -> & ->)].
  - split; [done|]. split; [|done]. split; [|lia]. destruct wr as [[]|]; done.
  - split; [split; [done|lia]|]. by split.
Qed.

Lemma wp_main_kqueue os fuel n oom :
  kq_ok os → bounded os fuel →
  wp (main_kqueue os n fuel) (World (heap_empty oom) []) (λ r w,
    echoes os w ∧ r ≠ Some 0 ∧ (r = None → kq_no_leak w ∧ kq_settled os w)).
Proof.
  intros Hos Hfin. pose proof (kq_io _ Hos). unfold main_kqueue.
  apply (wp_main_with os); [apply fresh_start|..].
  { intros r w He Hr. split; [done|]. split; [|done]. intros [= ->]. lia. }
  intros nl l [h tr] Hm Hf. simpl in Hm. subst h.
  apply (wp_queue os Hos fuel Hfin n); [by apply fresh_kinv|..].
  - intros r w' He Hr. split; [done|]. intros w3 He3. split; [done|].
    split; [|done]. intros [= ->]. lia.
  - intros w' conns' Hinv. split; [by apply Hinv|]. split; [done|]. intros _.
    split; [by eapply kinv_no_leak|by eapply kinv_settled].
Qed.

(** ** A small operating system, for the concrete runs *)

Definition kq_again : answer := Answer (-1) EAGAIN [] [] [].

(** Whether the last call was a [send]. *)
Definition just_sent (tr : history) : bool :=
  match last tr with Some (Send _ _, _) => true | _ => false end.

(** The event for [fd], if it is watched and enabled. *)
Definition report (tr : history) (fd filt : Z) : list kevent :=
  match knotes tr !! (fd, filt) with
  | Some (Knote p true) => [Kevent fd filt 0 0 p]
  | _ => []
  end.

(** One address; one client, on descriptor 7, which sends two bytes, and
    whose socket takes them one at a time. *)
Definition kq_sample (tr : history) (c : syscall) : answer :=
  match c with
  | Getaddrinfo => Answer 0 0 [1] [] []
  | Socket _ => if bool_decide (3 ∈ opened tr) then kq_again else Answer 3 0 [] [] []
  | Kqueue => Answer 5 0 [] [] []
  | Accept _ =>
      if (deliveries tr <? 2)%nat && bool_decide (map_Forall (λ k _, k.1 ≠ 7) (knotes tr))
      then Answer 7 0 [] [] [] else kq_again
  | Recv _ len =>
      if (deliveries tr <? 2)%nat && (2 <=? len)
      then Answer 2 0 [104; 105] [] [] else kq_again
  | Send _ d =>
      if negb (just_sent tr) && (0 <? Z.of_nat (length d))
      then Answer 1 0 [] [] [] else kq_again
  | KevWait _ _ =>
      let evs := report tr 7 EVFILT_WRITE ++ report tr 7 EVFILT_READ ++
                 report tr 3 EVFILT_READ in
      Answer (Z.of_nat (length evs)) 0 [] [] evs
  | _ => Answer 0 0 [] [] []
  end.

Lemma report_spec tr fd filt e :
  e ∈ report tr fd filt → ident e = fd ∧ filter e = filt ∧ fflags e = 0 ∧
    knotes tr !! (fd, filt) = Some (Knote (udata e) true).
Proof.
  unfold report. destruct (knotes tr !! (fd, filt)) as [[p []]|] eqn:E; intros He.
  - by apply list_elem_of_singleton in He as ->.
  - by apply elem_of_nil in He.
  - by apply elem_of_nil in He.
Qed.

Lemma kq_sample_events tr kq max e :
  e ∈ kevents (kq_sample tr (KevWait kq max)) →
  (ident e = 7 ∨ ident e = 3) ∧ fflags e = 0 ∧
  knotes tr !! (ident e, filter e) = Some (Knote (udata e) true).
Proof.
  simpl. rewrite !elem_of_app.
  intros [He|[He|He]]; apply report_spec in He as (-> & -> & -> & ->); auto.
Qed.

Lemma kq_sample_ok : kq_ok kq_sample.
Proof.
  constructor; [constructor|..]; intros tr.
  - intros rp _. simpl. case_bool_decide; simpl; [lia|done].
  - intros fd d _. simpl. case_match eqn:E; simpl; [|lia].
    apply andb_true_iff in E as [_ E]. zcases. lia.
  - intros fd len _. simpl. case_match eqn:E; simpl; [|lia]. intros _.
    apply andb_true_iff in E as [_ E]. zcases. lia.
  - intros l filt _. simpl. case_match eqn:E; simpl; [|lia]. intros _.
    apply andb_true_iff in E as [_ E]. apply bool_decide_eq_true in E.
    destruct (knotes tr !! (7, filt)) eqn:Hn; [|done]. by destruct (E _ _ Hn).
  - intros kq max e _ He. apply kq_sample_events in He as ([->| ->] & _ & ->);
      split; try done; unfold INT_MIN, INT_MAX; lia.
  - intros kq max e _ He. apply kq_sample_events in He as (_ & -> & _). unfold EV_ERROR. lia.
  - intros kq max _. simpl. unfold report.
    repeat case_match; simpl; apply (bool_decide_unpack _); by vm_compute.
Qed.

Lemma kq_sample_bounded : bounded kq_sample 3.
Proof.
  assert (∀ tr, consistent kq_sample tr → (deliveries tr ≤ 2)%nat) as H2.
  { intros tr Hc. induction Hc as [|tr c Hc IH]; [simpl; lia|].
    rewrite deliveries_snoc. unfold delivery. destruct c; simpl; try lia;
      (destruct (Nat.ltb_spec (deliveries tr) 2); simpl; [repeat case_match; lia|lia]). }
  intros tr Hc. specialize (H2 tr Hc). lia.
Qed.

Lemma kq_sample_no_third_send : no_third_send kq_sample.
Proof.
  intros tr fd d1 a1 d2 a2 d3 Hc Ha1 Ha2.
  change [(Send fd d1, a1); (Send fd d2, a2)]
    with ([(Send fd d1, a1)] ++ [(Send fd d2, a2)]) in Hc.
  rewrite app_assoc in Hc. apply consistent_snoc_inv in Hc as [_ Ha].
  rewrite Ha in Ha2. simpl in Ha2. unfold just_sent in Ha2. rewrite last_snoc in Ha2. simpl in Ha2. lia.
Qed.

(** ** The properties *)

(** C4: the FreeBSD server, [main] with its event loop run for any number of
    iterations, against clients that send a finite amount, whichever calls
    and allocations fail: it has no undefined behaviour, its loops end, it
    never comes to the branch for unknown events (so it does not return 0),
    and while it runs every block of its heap is the buffer of a watched
    connection. *)
Theorem kqueue_memory_safe os fuel n oom :
  kq_ok os → bounded os fuel →
  wp (main_kqueue os n fuel) (World (heap_empty oom) []) (λ r w,
    r ≠ Some 0 ∧ (r = None → kq_no_leak w)).
Proof.
  intros Hos Hfin. eapply wp_mono; [by apply wp_main_kqueue|].
  intros r w (_ & Hr & HN). split; [done|]. intros Hr'. by apply HN.
Qed.

(** C5: while the FreeBSD server runs, between two batches of events, each
    connection is told of data exactly while its buffer is empty and of room
    exactly while it is not, and no byte is lost: what was received from it
    is what was sent to it and then what is in its buffer, as long as no
    third send in a row succeeds after two short ones. *)
Theorem kqueue_connections_settled os fuel n oom :
  kq_ok os → bounded os fuel →
  wp (main_kqueue os n fuel) (World (heap_empty oom) []) (λ r w,
    r = None → kq_settled os w).
Proof.
  intros Hos Hfin. eapply wp_mono; [by apply wp_main_kqueue|].
  intros r w (_ & _ & HN) Hr. by apply HN.
Qed.

(** The FreeBSD server echoes: at any time, also after the end, what was
    sent on a connection is a prefix of what was received from it, as long as
    no third send in a row succeeds after two short ones. *)
Theorem kqueue_echoes os fuel n oom :
  kq_ok os → bounded os fuel → no_third_send os →
  wp (main_kqueue os n fuel) (World (heap_empty oom) []) (λ _ w,
    ∀ fd, (stream fd (trace w)).2 `prefix_of` (stream fd (trace w)).1).
Proof.
  intros Hos Hfin Hg. eapply wp_mono; [by apply wp_main_kqueue|].
  intros r w [He _]. by apply He.
Qed.

Lemma kqueue_memory_safe_witness :
  kq_ok kq_sample ∧ bounded kq_sample 3 ∧
  wp (main_kqueue kq_sample 4 3) (World (heap_empty (λ _, false)) []) (λ r w,
    r ≠ Some 0 ∧ (r = None → kq_no_leak w)).
Proof.
  split; [apply kq_sample_ok|]. split; [apply kq_sample_bounded|].
  apply kqueue_memory_safe; [apply kq_sample_ok|apply kq_sample_bounded].
Defined.

Lemma kqueue_connections_settled_witness :
  wp (main_kqueue kq_sample 2 3) (World (heap_empty (λ _, false)) []) (λ r w,
    r = None → kq_settled kq_sample w).
Proof.
  apply kqueue_connections_settled; [apply kq_sample_ok|apply kq_sample_bounded].
Defined.

Lemma kqueue_echoes_witness :
  no_third_send kq_sample ∧
  wp (main_kqueue kq_sample 4 3) (World (heap_empty (λ _, false)) []) (λ _ w,
    ∀ fd, (stream fd (trace w)).2 `prefix_of` (stream fd (trace w)).1).
Proof.
  split; [apply kq_sample_no_third_send|].
  apply kqueue_echoes;
    [apply kq_sample_ok|apply kq_sample_bounded|apply kq_sample_no_third_send].
Defined.

(** The run of the witnesses: after two batches one byte waits for room; after
    three the client has both back. *)
Example kq_sample_run :
  let run n := match main_kqueue kq_sample n 3 (World (heap_empty (λ _, false)) []) with
               | Ok (r, w) => Some (r, stream 7 (trace w),
                   knotes (trace w) !! (7, EVFILT_READ), knotes (trace w) !! (7, EVFILT_WRITE))
               | _ => None
               end in
  run 2%nat = Some (None, ([104; 105], [104]),
    Some (Knote (Ptr 1 0) false), Some (Knote (Ptr 1 0) true)) ∧
  run 3%nat = Some (None, ([104; 105], [104; 105]),
    Some (Knote (Ptr 1 0) true), Some (Knote (Ptr 1 0) false)).
Proof. by vm_compute. Qed.

(** C24: when there is no memory for the buffer of a connection, the FreeBSD
    server leaves its socket open and forgets it: the descriptor is not
    closed and nothing will be reported for it. *)
Theorem kqueue_calloc_failure_leaks_socket os w kq l :
  let c1 := Accept l in
  let fd := ret (os (trace w) c1) in
  let tr1 := trace w ++ [(c1, os (trace w) c1)] in
  let c2 := GetFlags fd in
  let tr2 := tr1 ++ [(c2, os tr1 c2)] in
  let c3 := SetFlags fd (Z.lor (ret (os tr1 c2)) O_NONBLOCK) in
  let tr3 := tr2 ++ [(c3, os tr2 c3)] in
  kq_ok os → consistent os (trace w) → oom (mem w) (next (mem w)) = true →
  0 ≤ fd → 0 ≤ ret (os tr1 c2) → 0 ≤ ret (os tr2 c3) →
  ∃ h, accept_step os kq l tt w = Ok (inr tt, World h tr3) ∧
    blocks h = blocks (mem w) ∧ fd ∈ opened tr3 ∧ ∀ filt, knotes tr3 !! (fd, filt) = None.
Proof.
  intros c1 fd tr1 c2 tr2 c3 tr3 Hos Hc Hoom Hfd H2 H3.
  exists (Heap (blocks (mem w)) (Pos.succ (next (mem w))) (oom (mem w))). split; [|split; [done|split]].
  - unfold accept_step, set_nonblocking, sys, in_heap, calloc, alloc, mbind, comp_bind, mret,
      comp_ret. simpl. fold c1 fd tr1. rewrite (proj2 (Z.ltb_ge fd 0)) by done.
    cbn [trace mem]. fold c2. rewrite (proj2 (Z.ltb_ge _ 0) H2).
    cbn [trace mem]. fold tr2 c3. rewrite (proj2 (Z.ltb_ge _ 0) H3).
    change (0 <? 0) with false. cbn [trace mem]. by rewrite Hoom.
  - subst tr3 tr2 tr1. rewrite !opened_snoc. simpl. fold fd.
    rewrite (proj2 (Z.ltb_ge fd 0)) by done. set_solver.
  - intros filt. subst tr3 tr2 tr1. rewrite !knotes_snoc.
    exact (kq_accept_fresh _ Hos (trace w) l filt Hc Hfd).
Qed.

Lemma kqueue_calloc_failure_leaks_socket_witness :
  let w := World (heap_empty (λ _, true)) [] in
  ∃ h, accept_step kq_sample 5 3 tt w =
      Ok (inr tt, World h [(Accept 3, Answer 7 0 [] [] []);
        (GetFlags 7, Answer 0 0 [] [] []); (SetFlags 7 O_NONBLOCK, Answer 0 0 [] [] [])]) ∧
    blocks h = ∅ ∧
    7 ∈ opened [(Accept 3, Answer 7 0 [] [] []);
      (GetFlags 7, Answer 0 0 [] [] []); (SetFlags 7 O_NONBLOCK, Answer 0 0 [] [] [])] ∧
    ∀ filt, knotes [(Accept 3, Answer 7 0 [] [] []);
      (GetFlags 7, Answer 0 0 [] [] []); (SetFlags 7 O_NONBLOCK, Answer 0 0 [] [] [])]
      !! (7, filt) = None.
Proof.
  apply (kqueue_calloc_failure_leaks_socket kq_sample (World (heap_empty (λ _, true)) []) 5 3);
    [apply kq_sample_ok|constructor|done..].
Defined.
