(* ===== verification/UdpEcho.v ===== *)
(** 04-computer-networks/01-introduction-to-network-programming/
    02-http-header-server/test.c: a UDP server that echoes each datagram from
    the handler of a real-time signal.  (Line 25 of the file is the word
    POLLIN by itself, for which it does not compile: the model is of the
    program without that line.)  The kernel is a part of the state: the status
    flags and the queue of the socket and the signals that wait.  An action is
    a call of [main] or of the handler, which the kernel grants or not, the
    arrival of a datagram, a signal that comes for another reason (the socket
    asks for signals of every kind, and gets one when it can send again), or
    the delivery of a signal.  A [printf] is one step: a signal that comes
    during that of [main], whose handler prints as well, is not modelled. *)
From S2P Require Import Prelude Pangram.
#[local] Open Scope Z_scope.

Definition BUFFER_SIZE : Z := 1024.
Definition O_NONBLOCK : Z := 2 ^ 11.
Definition O_ASYNC : Z := 2 ^ 13.
(** The flags of a new socket. *)
Definition O_RDWR : Z := 2.

(** ** State *)

(** A datagram: the address of its sender and its bytes. *)
Definition datagram : Type := Z * list Z.

(** The next call of [main]; [flags] is its local variable. *)
Inductive place :=
  | Socket | GetFlags | SetNonblock (flags : Z) | SetOwner (flags : Z) | SetSignal (flags : Z)
  | SetAsync (flags : Z) | Bind | Sigaction | Announce | Pause
  | Exit (status : Z) | Killed.

(** The next call of the handler. *)
Inductive hplace := Receive | Terminate (d : datagram) | Send (d : datagram).

Inductive output := Perror (s : string) | Running | Received (s : list Z) | Echoed (s : list Z).

(** [arrived] and [sent] are what the network has seen. *)
Record state := State {
  at_ : place; handler : option hplace; opened : bool;
  status : Z; owner : bool; setsig : bool; bound : bool; installed : bool;
  queue : list datagram; pending : nat;
  out : list output; arrived : list datagram; sent : list datagram
}.

Definition start : state :=
  State Socket None false O_RDWR false false false false [] 0 [] [] [].

Definition goto (p : place) (s : state) : state :=
  State p (handler s) (opened s) (status s) (owner s) (setsig s) (bound s) (installed s)
    (queue s) (pending s) (out s) (arrived s) (sent s).
Definition set_handler (h : option hplace) (s : state) : state :=
  State (at_ s) h (opened s) (status s) (owner s) (setsig s) (bound s) (installed s)
    (queue s) (pending s) (out s) (arrived s) (sent s).
Definition set_opened (b : bool) (s : state) : state :=
  State (at_ s) (handler s) b (status s) (owner s) (setsig s) (bound s) (installed s)
    (queue s) (pending s) (out s) (arrived s) (sent s).
Definition set_status (z : Z) (s : state) : state :=
  State (at_ s) (handler s) (opened s) z (owner s) (setsig s) (bound s) (installed s)
    (queue s) (pending s) (out s) (arrived s) (sent s).
Definition set_owner (s : state) : state :=
  State (at_ s) (handler s) (opened s) (status s) true (setsig s) (bound s) (installed s)
    (queue s) (pending s) (out s) (arrived s) (sent s).
Definition set_setsig (s : state) : state :=
  State (at_ s) (handler s) (opened s) (status s) (owner s) true (bound s) (installed s)
    (queue s) (pending s) (out s) (arrived s) (sent s).
Definition set_bound (s : state) : state :=
  State (at_ s) (handler s) (opened s) (status s) (owner s) (setsig s) true (installed s)
    (queue s) (pending s) (out s) (arrived s) (sent s).
Definition install (s : state) : state :=
  State (at_ s) (handler s) (opened s) (status s) (owner s) (setsig s) (bound s) true
    (queue s) (pending s) (out s) (arrived s) (sent s).
Definition set_queue (q : list datagram) (s : state) : state :=
  State (at_ s) (handler s) (opened s) (status s) (owner s) (setsig s) (bound s) (installed s)
    q (pending s) (out s) (arrived s) (sent s).
Definition set_pending (n : nat) (s : state) : state :=
  State (at_ s) (handler s) (opened s) (status s) (owner s) (setsig s) (bound s) (installed s)
    (queue s) n (out s) (arrived s) (sent s).
Definition print (o : output) (s : state) : state :=
  State (at_ s) (handler s) (opened s) (status s) (owner s) (setsig s) (bound s) (installed s)
    (queue s) (pending s) (out s ++ [o]) (arrived s) (sent s).
Definition arrive (d : datagram) (s : state) : state :=
  State (at_ s) (handler s) (opened s) (status s) (owner s) (setsig s) (bound s) (installed s)
    (queue s ++ [d]) (pending s) (out s) (arrived s ++ [d]) (sent s).
Definition send (d : datagram) (s : state) : state :=
  State (at_ s) (handler s) (opened s) (status s) (owner s) (setsig s) (bound s) (installed s)
    (queue s) (pending s) (out s) (arrived s) (sent s ++ [d]).

Definition nonblocking (s : state) : bool := Z.testbit (status s) 11.
Definition async (s : state) : bool := Z.testbit (status s) 13.

(** ** The program *)

(** [perror], [close] and [exit(EXIT_FAILURE)]. *)
Definition failed (what : string) (s : state) : state :=
  goto (Exit 1) (set_opened false (print (Perror what) s)).

(** A call of [main], which the kernel grants when [ok]. *)
Definition main (ok : bool) (s : state) : option state :=
  match at_ s with
  | Socket =>
      Some (if ok then goto GetFlags (set_opened true s)
            else goto (Exit 1) (print (Perror "socket") s))
  | GetFlags => Some (goto (SetNonblock (if ok then status s else -1)) s)
  | SetNonblock flags =>
      Some (if ok then goto (SetOwner flags) (set_status (Z.lor flags O_NONBLOCK) s)
            else failed "fcntl - non-blocking" s)
  | SetOwner flags =>
      Some (if ok then goto (SetSignal flags) (set_owner s) else failed "fcntl - setown" s)
  | SetSignal flags =>
      Some (if ok then goto (SetAsync flags) (set_setsig s) else failed "fcntl - setsig" s)
  | SetAsync flags =>
      Some (if ok then goto Bind (set_status (Z.lor flags O_ASYNC) s) else failed "fcntl - async" s)
  | Bind => Some (if ok then goto Sigaction (set_bound s) else failed "bind" s)
  | Sigaction =>
      Some (if ok then goto Announce (install s) else failed "sigaction" s)
  | Announce => Some (goto Pause (print Running s))
  | Pause | Exit _ | Killed => None
  end.

(** The handler: [None] when it waits in [recvfrom]. *)
Definition handle_rt_signal (ok : bool) (h : hplace) (s : state) : option (res state) :=
  match h with
  | Receive =>
      match queue s with
      | (from, bytes) :: q =>
          Some (Ok (if ok then
            set_handler (Some (Terminate (from, take (Z.to_nat BUFFER_SIZE) bytes))) (set_queue q s)
          else set_handler None (print (Perror "recvfrom") s)))
      | [] =>
          if nonblocking s || negb ok
          then Some (Ok (set_handler None (print (Perror "recvfrom") s))) else None
      end
  | Terminate (from, bytes) =>
      (* buffer[bytes_received] = '\0' *)
      Some (if Z.of_nat (length bytes) <? BUFFER_SIZE
            then Ok (set_handler (Some (Send (from, bytes))) (print (Received (c_str (bytes ++ [0]))) s))
            else Fault OutOfBounds)
  | Send (from, bytes) =>
      Some (Ok (if ok then set_handler None (print (Echoed (c_str (bytes ++ [0]))) (send (from, bytes) s))
                else set_handler None (print (Perror "sendto") s)))
  end.

(** ** The kernel *)

Definition alive (s : state) : bool := match at_ s with Exit _ | Killed => false | _ => true end.

(** A signal is sent if the socket asks for it and has an owner. *)
Definition signal (s : state) : state :=
  if async s && owner s && setsig s then set_pending (S (pending s)) s else s.

Inductive action := Main (ok : bool) | Handler (ok : bool) | Arrive (d : datagram) | Ready | Deliver.

Definition exec (a : action) (s : state) : option (res state) :=
  if negb (alive s) then None else
  match a with
  | Main ok => match handler s with None => Ok <$> main ok s | Some _ => None end
  | Handler ok => match handler s with Some h => handle_rt_signal ok h s | None => None end
  | Arrive d => if bound s then Some (Ok (signal (arrive d s))) else None
  | Ready => if bound s then Some (Ok (signal s)) else None
  | Deliver =>
      (* the signal is blocked while its handler runs *)
      match handler s, pending s with
      | None, S n =>
          let s := set_pending n s in
          Some (Ok (if installed s then set_handler (Some Receive) s else goto Killed s))
      | _, _ => None
      end
  end.

Fixpoint run (acts : list action) (s : state) : option (res state) :=
  match acts with
  | [] => Some (Ok s)
  | a :: acts => match exec a s with Some (Ok s) => run acts s | r => r end
  end.

(** ** Invariants *)

Definition short (d : datagram) : Prop := Z.of_nat (length d.2) < BUFFER_SIZE.

(** Steps in which the kernel grants every call, and datagrams are short and
    come, as other signals do, when the handler is installed. *)
Definition mild (a : action) (s : state) : Prop :=
  match a with
  | Main ok | Handler ok => ok = true
  | Arrive d => installed s = true ∧ short d
  | Ready => installed s = true
  | Deliver => True
  end.

Definition mild_step (s s' : state) : Prop := ∃ a, mild a s ∧ exec a s = Some (Ok s').
Definition mild_reachable : state → Prop := reachable (λ s, s = start) mild_step.

(** The datagram that the handler works on. *)
Definition held (s : state) : list datagram :=
  match handler s with Some (Terminate d) | Some (Send d) => [d] | _ => [] end.
Definition receiving (s : state) : nat := match handler s with Some Receive => 1 | _ => 0 end.

(** What [main] has set up when it comes to a call. *)
Definition set_up (s : state) : Prop :=
  match at_ s with
  | Socket => status s = O_RDWR
  | GetFlags => opened s = true ∧ status s = O_RDWR
  | SetNonblock f | SetOwner f => opened s = true ∧ f = O_RDWR
  | SetSignal f => opened s = true ∧ f = O_RDWR ∧ owner s = true
  | SetAsync f => opened s = true ∧ f = O_RDWR ∧ owner s = true ∧ setsig s = true
  | Bind => opened s = true ∧ status s = Z.lor O_RDWR O_ASYNC ∧ owner s = true ∧ setsig s = true
  | Sigaction | Announce | Pause =>
      opened s = true ∧ status s = Z.lor O_RDWR O_ASYNC ∧ owner s = true ∧ setsig s = true ∧
      bound s = true
  | Exit _ | Killed => False
  end.

Definition quiet (s : state) : Prop := handler s = None ∧ pending s = 0%nat ∧ queue s = [].

Record inv (s : state) : Prop := {
  inv_order : sent s ++ held s ++ queue s = arrived s;
  inv_short : Forall short (held s ++ queue s);
  inv_wake : (length (queue s) ≤ pending s + receiving s)%nat;
  inv_set_up : set_up s;
  inv_early : if installed s then at_ s = Announce ∨ at_ s = Pause
    else at_ s ≠ Announce ∧ at_ s ≠ Pause ∧ quiet s
}.

Lemma udp_inv_start : inv start.
Proof. constructor; try done. Qed.

Lemma udp_inv_main s s' : inv s → handler s = None → main true s = Some s' → inv s'.
Proof.
  intros [Ho Hs Hw Hu He] Hh Hm. unfold main in Hm. unfold set_up in Hu.
  destruct s as [p h op st ow sg bd ins q n o arr snt]; cbn [at_ handler installed] in *. subst h.
  destruct ins.
  { destruct He as [-> | ->]; [|done]. injection Hm as <-.
    constructor; [exact Ho|exact Hs|exact Hw|exact Hu|by right]. }
  destruct He as (HnA & _ & Hq).
  destruct p; try done; injection Hm as <-; (constructor; [exact Ho|exact Hs|exact Hw|..]);
    unfold set_up; simpl in Hu |- *; try (split_and!; [done|done|exact Hq]); try tauto.
  by destruct Hu as (? & -> & ?).
Qed.

Lemma signal_on s : at_ s = Announce ∨ at_ s = Pause → set_up s →
  signal s = set_pending (S (pending s)) s.
Proof.
  intros Hp Hu. unfold set_up in Hu. unfold signal, async.
  destruct Hp as [Hp|Hp]; rewrite Hp in Hu; destruct Hu as (_ & Hst & Hown & Hsig & _);
    by rewrite Hst, Hown, Hsig.
Qed.

Lemma inv_handler s s' h : inv s → handler s = Some h →
  handle_rt_signal true h s = Some (Ok s') → inv s'.
Proof.
  intros [Ho Hs Hw Hu He] Hh Hr.
  destruct s as [p h' op st ow sg bd ins q n o arr snt]; cbn [handler] in Hh. subst h'.
  unfold held, receiving in *. simpl in *.
  assert (ins = true) as -> by (destruct ins; [done|by destruct He as (_ & _ & ? & _)]).
  destruct h as [|[from bytes]|[from bytes]]; simpl in Hr.
  - destruct q as [|[from bytes] q].
    + destruct (nonblocking _ || _); [|done]. injection Hr as <-. constructor; simpl; try done; lia.
    + injection Hr as <-. apply Forall_cons in Hs as [Hd Hs].
      assert (take (Z.to_nat BUFFER_SIZE) bytes = bytes) as Ht.
      { apply take_ge. unfold short, BUFFER_SIZE in *. simpl in Hd. lia. }
      constructor; simpl in *; try done; unfold held, receiving; simpl; rewrite ?Ht; [done|by constructor|lia].
  - case_match; [|done]. injection Hr as <-. by constructor.
  - injection Hr as <-. apply Forall_cons in Hs as [_ Hs].
    constructor; simpl; try done. unfold held. simpl. by rewrite <-app_assoc.
Qed.

Lemma inv_step s s' : inv s → mild_step s s' → inv s'.
Proof.
  intros Hi (a & Ha & He). unfold exec in He. destruct (alive s); [|done]. simpl in He.
  destruct a as [ok|ok|d| |]; simpl in Ha.
  - subst ok. destruct (handler s) eqn:Hh; [done|]. destruct (main true s) eqn:Hm; [|done].
    injection He as <-. by eapply udp_inv_main.
  - subst ok. destruct (handler s) eqn:Hh; [|done]. by eapply inv_handler.
  - destruct Ha as [Hin Hd]. destruct Hi as [Ho Hs Hw Hu He']. rewrite Hin in He'.
    destruct (bound s); [|done]. injection He as <-.
    rewrite signal_on by done. constructor; simpl.
    + by rewrite <-Ho, !app_assoc.
    + rewrite app_assoc. apply Forall_app_2; [exact Hs|by apply Forall_singleton].
    + rewrite length_app. simpl. unfold receiving in *. simpl. lia.
    + exact Hu.
    + by rewrite Hin.
  - destruct Hi as [Ho Hs Hw Hu He']. rewrite Ha in He'. destruct (bound s); [|done]. injection He as <-.
    rewrite signal_on by done. constructor; simpl; try done.
    + unfold receiving in *. simpl. lia.
    + by rewrite Ha.
  - destruct Hi as [Ho Hs Hw Hu He']. destruct (handler s) eqn:Hh; [done|].
    destruct (pending s) as [|n] eqn:Hp; [done|].
    assert (installed s = true) as Hin by (destruct (installed s); [done|]; by destruct He' as (_ & _ & _ & ? & _); lia).
    simpl in He. rewrite Hin in He, He'. injection He as <-. unfold held, receiving in *. rewrite Hh in *.
    constructor; unfold held, receiving; simpl; try done; [lia|by rewrite Hin].
Qed.

Lemma mild_inv s : mild_reachable s → inv s.
Proof. apply reachable_invariant; [by intros ? ->; apply udp_inv_start|apply inv_step]. Qed.

(** A handler that waits for nothing can go on. *)
Lemma handler_steps s h : inv s → handler s = Some h → h ≠ Receive ∨ queue s ≠ [] →
  ∃ s', exec (Handler true) s = Some (Ok s').
Proof.
  intros [Ho Hs Hw Hu He] Hh Hq. unfold exec, alive. unfold set_up in Hu.
  assert (match at_ s with Exit _ | Killed => false | _ => true end = true) as -> by (by destruct (at_ s)).
  simpl. rewrite Hh. destruct h as [|[from bytes]|[from bytes]]; simpl.
  - destruct Hq as [Hq|Hq]; [done|]. destruct (queue s) as [|[from bytes] q]; [done|]. by eexists.
  - unfold held in Hs. rewrite Hh in Hs. apply Forall_cons in Hs as [Hd _]. unfold short in Hd. simpl in Hd.
    rewrite (proj2 (Z.ltb_lt _ _)) by done. by eexists.
  - by eexists.
Qed.

(** ** Properties *)

(** C38: the UDP echo server, when the kernel grants its calls and datagrams
    are below the size of the buffer and come after the handler is installed,
    with other signals at any moment: in every reachable state the datagrams
    sent, the one in the handler and those that wait are, in this order, those
    that arrived, each once and to its sender; nothing goes wrong; and no
    signal is lost: as long as a datagram is not sent back, a signal can be
    delivered or the handler can go on, so that a server at rest has echoed
    all of them. *)
Theorem udp_echoes (s : state) :
  mild_reachable s →
  sent s ++ held s ++ queue s = arrived s ∧
  (∀ a, mild a s → match exec a s with Some (Fault _) | Some OutOfFuel => False | _ => True end) ∧
  (sent s ≠ arrived s → ∃ a s', (a = Deliver ∨ a = Handler true) ∧ exec a s = Some (Ok s')).
Proof.
  intros Hr. pose proof (mild_inv s Hr) as Hi. split; [apply Hi|]. split.
  - intros a Ha. destruct a as [ok|ok|d| |]; simpl in Ha; unfold exec; destruct (alive s) eqn:Hal; try done; simpl.
    + destruct (handler s); [done|]. by destruct (main ok s).
    + subst ok. destruct (handler s) as [h|] eqn:Hh; [|done].
      assert (h = Receive ∧ queue s = [] ∨ (h ≠ Receive ∨ queue s ≠ [])) as [[-> Hq]|Hn]
        by (destruct h, (queue s); naive_solver).
      * simpl. rewrite Hq. by destruct (nonblocking s || _).
      * destruct (handler_steps s h Hi Hh Hn) as [s' Hs'].
        unfold exec in Hs'. rewrite Hal, Hh in Hs'. simpl in Hs'. by rewrite Hs'.
    + by destruct (bound s).
    + by destruct (bound s).
    + by destruct (handler s), (pending s).
  - intros Hne. destruct (handler s) as [h|] eqn:Hh.
    + destruct (handler_steps s h Hi Hh) as [s' Hs'].
      { destruct Hi as [Ho _ _ _ _]. unfold held in Ho. rewrite Hh in Ho.
        destruct h; [right|by left|by left]. intros Hq. rewrite Hq in Ho. by rewrite !app_nil_r in Ho. }
      eexists _, s'. split; [by right|done].
    + destruct Hi as [Ho _ Hw Hu _]. unfold held, receiving in *. rewrite Hh in *.
      destruct (pending s) as [|n] eqn:Hp.
      { destruct (queue s); simpl in Hw; [|lia]. by rewrite !app_nil_r in Ho. }
      unfold exec, alive. unfold set_up in Hu.
      exists Deliver. destruct (at_ s); simpl; rewrite ?Hh, ?Hp; try done; eexists; split; by eauto.
Qed.

Fixpoint mild_run (acts : list action) (s : state) : Prop :=
  match acts with
  | [] => True
  | a :: acts => mild a s ∧ match exec a s with Some (Ok s) => mild_run acts s | _ => False end
  end.

Lemma run_mild acts : ∀ s s', run acts s = Some (Ok s') → mild_reachable s →
  mild_run acts s → mild_reachable s'.
Proof.
  induction acts as [|a acts IH]; intros s s' Hr Hs Hm; simpl in Hr; [by injection Hr as <-|].
  destruct Hm as [Ha Hm]. destruct (exec a s) as [[s1|f|]|] eqn:He; try done.
  eapply (IH s1); [done| |done]. eapply reachable_step; [exact Hs|]. by exists a.
Qed.

(** Every call of [main] is granted. *)
Definition set_up_acts : list action := replicate 9 (Main true).

Lemma udp_echoes_witness :
  ∃ s, run (set_up_acts ++ [Arrive (1, [104; 105]); Arrive (2, [33]); Ready; Deliver;
              Handler true; Handler true; Handler true; Deliver; Handler true]) start = Some (Ok s) ∧
    sent s = [(1, [104; 105])] ∧ ∃ a s', (a = Deliver ∨ a = Handler true) ∧ exec a s = Some (Ok s').
Proof.
  eexists. split; [by vm_compute|]. split; [done|].
  apply udp_echoes; [|done].
  apply (run_mild (set_up_acts ++ [Arrive (1, [104; 105]); Arrive (2, [33]); Ready; Deliver;
    Handler true; Handler true; Handler true; Deliver; Handler true]) start);
    [by vm_compute|by apply reachable_init|].
  vm_compute. repeat split.
Defined.

(** The second F_SETFL starts from the flags read before the first one: the
    socket does not stay non-blocking. *)
Lemma socket_blocks s : mild_reachable s → at_ s = Pause → nonblocking s = false.
Proof.
  intros Hr Hp. destruct (mild_inv s Hr) as [_ _ _ Hu _]. unfold set_up in Hu. rewrite Hp in Hu.
  destruct Hu as (_ & Hst & _). unfold nonblocking. by rewrite Hst.
Qed.

(** So a signal that brings no datagram leaves the handler waiting in
    [recvfrom]. *)
Lemma ready_blocks s : mild_reachable s → at_ s = Pause → quiet s →
  ∃ s', run [Ready; Deliver] s = Some (Ok s') ∧ ∀ ok, ok = true → exec (Handler ok) s' = None.
Proof.
  intros Hr Hp (Hh & Hpend & Hq). pose proof (socket_blocks s Hr Hp) as Hnb.
  destruct (mild_inv s Hr) as [_ _ _ Hu He]. pose proof Hu as Hu'. unfold set_up in Hu'. rewrite Hp in Hu'.
  destruct Hu' as (_ & _ & _ & _ & Hb). destruct (installed s) eqn:Hin; [|by destruct He as (_ & ? & _)].
  eexists. split.
  - cbn [run]. unfold exec at 1, alive. rewrite Hp. simpl. rewrite Hb, signal_on by (done || by right).
    unfold exec, alive. simpl. rewrite Hp. simpl. rewrite Hh. simpl. rewrite Hin. reflexivity.
  - intros ok ->. unfold exec, alive. simpl. rewrite Hp. simpl. rewrite Hq.
    change (nonblocking _) with (nonblocking s). by rewrite Hnb.
Qed.

(** A datagram that comes between [bind] and [sigaction] kills the server:
    the signals are asked for before there is a handler. *)
Lemma early_datagram_kills d :
  ∃ s, run (replicate 7 (Main true) ++ [Arrive d; Deliver]) start = Some (Ok s) ∧ at_ s = Killed.
Proof. eexists. split; [vm_compute; reflexivity|reflexivity]. Qed.

(** A datagram of the size of the buffer or more is terminated past its
    end. *)
Lemma long_datagram_overflows s from bytes q :
  alive s = true → handler s = Some Receive → queue s = (from, bytes) :: q →
  BUFFER_SIZE ≤ Z.of_nat (length bytes) →
  run [Handler true; Handler true] s = Some (Fault OutOfBounds).
Proof.
  intros Ha Hh Hq Hl. set (b := take (Z.to_nat BUFFER_SIZE) bytes).
  assert ((Z.of_nat (length b) <? BUFFER_SIZE) = false) as Ht.
  { apply Z.ltb_ge. unfold b. rewrite length_take. unfold BUFFER_SIZE in *. lia. }
  assert (exec (Handler true) s =
    Some (Ok (set_handler (Some (Terminate (from, b))) (set_queue q s)))) as H1.
  { unfold exec. rewrite Ha, Hh. simpl. by rewrite Hq. }
  assert (exec (Handler true) (set_handler (Some (Terminate (from, b))) (set_queue q s)) =
    Some (Fault OutOfBounds)) as H2.
  { unfold exec. change (alive _) with (alive s). rewrite Ha. cbn [negb handler set_handler handle_rt_signal].
    by rewrite Ht. }
  cbn [run]. by rewrite H1, H2.
Qed.

(** A call of [main] that fails ends the server with status 1 and its socket
    closed; only a failure to read the flags goes unnoticed. *)
Lemma main_failure s s' : at_ s ≠ GetFlags → at_ s ≠ Announce → main false s = Some s' →
  at_ s' = Exit 1 ∧ (at_ s ≠ Socket → opened s' = false).
Proof. unfold main. intros Hg Ha Hm. destruct (at_ s); try done; injection Hm as <-; done. Qed.
