(* ===== verification/Hashmap.v ===== *)
(** The hash map of 02-introduction-to-c/06-basic-hashmap/hashmap.c: open
    addressing over an array of nodes that own copies of their keys.  The
    heap holds the [struct Hashmap], the nodes and the bytes of the keys;
    the hash function of a map is the parameter [hash], which reads the key
    in the heap.  [HashTable.v] describes the map as a table without
    pointers and [HashmapProofs.v] shows that these functions implement it. *)
From S2P Require Import Prelude Mem.
#[local] Open Scope Z_scope.

Definition STARTING_BUCKETS : Z := 8.
Definition NODE_EMPTY : Z := 0.
Definition NODE_OCCUPIED : Z := 1.
Definition NODE_DELETED : Z := -1.
Definition MAX_KEY_SIZE : Z := 10.

(** ** Data *)

Record Map_node := mkNode {
  key : ptr;
  key_len : Z;
  value : ptr;
  node_hash : Z;
  status : Z
}.

Record Hashmap := mkMap { cap : Z; arr : ptr; size : Z }.

(** What a cell of the heap holds; a byte is a plain [char], which is signed. *)
Inductive obj := OMap (m : Hashmap) | ONode (n : Map_node) | OByte (c : Z).

#[local] Abbreviation M := (comp (heap obj)).

Definition sizeof_Hashmap : Z := 32.
Definition sizeof_Map_node : Z := 40.

Definition load_map (p : ptr) : M Hashmap :=
  o ← load p; match o with OMap m => mret m | _ => fail BadCast end.
Definition load_node (p : ptr) : M Map_node :=
  o ← load p; match o with ONode n => mret n | _ => fail BadCast end.
Definition load_byte (p : ptr) : M Z :=
  o ← load p; match o with OByte c => mret c | _ => fail BadCast end.

(** [calloc]ed nodes: their status is [NODE_EMPTY]. *)
Definition zero_node : obj := ONode (mkNode Null 0 Null 0 0).

(** [memcmp] of the two keys; only whether it is 0 is used. *)
Fixpoint memcmp (n : nat) (p q : ptr) : M Z :=
  match n with
  | O => mret 0
  | S n => a ← load_byte p;
           b ← load_byte q;
           if a =? b then memcmp n (ptr_add p 1) (ptr_add q 1) else mret (a - b)
  end.

Definition next_power_of_2 (n : Z) : Z :=
  let n := u64 (n - 1) in
  let n := Z.lor n (Z.shiftr n 1) in
  let n := Z.lor n (Z.shiftr n 2) in
  let n := Z.lor n (Z.shiftr n 4) in
  let n := Z.lor n (Z.shiftr n 8) in
  let n := Z.lor n (Z.shiftr n 16) in
  let n := Z.lor n (Z.shiftr n 32) in
  u64 (n + 1).

Definition NEED_RESIZE : Z := -1.
Definition HAS_NEXT : Z := 0.
Definition FOUND : Z := 1.
Definition REPLACE : Z := 2.
Definition STOP : Z := -1.
Definition CONTINUE : Z := 0.

(** [t = (hv + (i + i * i) >> 1) % n]: [+] binds tighter than [>>]. *)
Definition probe_pos (hv i n : Z) : Z :=
  Z.shiftr (u64 (hv + u64 (i + u64 (i * i)))) 1 mod n.

(** ** Creation *)

Definition Hashmap_new : M ptr :=
  map ← malloc sizeof_Hashmap sizeof_Hashmap;
  a ← calloc zero_node STARTING_BUCKETS sizeof_Map_node;
  store map (OMap (mkMap STARTING_BUCKETS a 0));;
  mret map.

(** The loop of [Hashmap_free], at index [i] with [n] nodes left. *)
Fixpoint free_keys (a : ptr) (n : nat) (i : Z) : M unit :=
  match n with
  | O => mret tt
  | S n => nd ← load_node (ptr_add a i);
           (if status nd =? NODE_OCCUPIED then free (key nd) else mret tt);;
           free_keys a n (i + 1)
  end.

Definition Hashmap_free (map : ptr) : M unit :=
  if is_null map then mret tt else
  m ← load_map map;
  free_keys (arr m) (Z.to_nat (cap m)) 0;;
  free (arr m);;
  free map.

(** ** Insertion *)

Definition probing (map k : ptr) (klen pos hash : Z) : M Z :=
  m ← load_map map;
  nd ← load_node (ptr_add (arr m) pos);
  if status nd =? NODE_EMPTY then mret FOUND else
  if hash =? node_hash nd then
    if status nd =? NODE_DELETED then mret FOUND else
    if klen =? key_len nd then
      c ← memcmp (Z.to_nat klen) k (key nd);
      mret (if c =? 0 then REPLACE else HAS_NEXT)
    else mret HAS_NEXT
  else mret NEED_RESIZE.

Definition node_set (node k : ptr) (klen : Z) (v : ptr) (hash : Z) : M unit :=
  nd ← load_node node;
  (if status nd =? NODE_OCCUPIED then free (key nd) else mret tt);;
  k' ← malloc 1 klen;
  memcpy k' k klen;;
  store node (ONode (mkNode k' klen v hash NODE_OCCUPIED)).

(** What both successful branches of [Hashmap_set] do: [node_set] at [pos],
    and one more element if the node was not there. *)
Definition put_node (map k : ptr) (klen : Z) (v : ptr) (hv pos flg : Z) : M unit :=
  m ← load_map map;
  node_set (ptr_add (arr m) pos) k klen v hv;;
  if flg =? FOUND then
    m ← load_map map;
    store map (OMap (mkMap (cap m) (arr m) (u64 (size m + 1))))
  else mret tt.

(** An iteration of the probe loop, on [i] and [flg]: [true] once the key is
    set. *)
Definition set_step (map k : ptr) (klen : Z) (v : ptr) (hv n : Z) (l : Z * Z)
    : M ((Z * Z) + bool) :=
  let '(i, flg) := l in
  if (i <=? n) && (flg =? HAS_NEXT) then
    let t := probe_pos hv i n in
    m ← load_map map;
    if cap m <=? t then mret (inl (i + 1, flg)) else
    flg ← probing map k klen t hv;
    if FOUND <=? flg then put_node map k klen v hv t flg;; mret (inr true)
    else mret (inl (i + 1, flg))
  else mret (inr false).

Section hash.
(** [map->hash]. *)
Context (hash : ptr → M Z).

(** The loop that moves the old nodes, at index [i] with [n] left; [set] is
    the recursive call. *)
Fixpoint rehash (set : ptr → Z → ptr → M unit) (old_arr : ptr) (n : nat) (i : Z) : M unit :=
  match n with
  | O => mret tt
  | S n => nd ← load_node (ptr_add old_arr i);
           (if status nd =? NODE_OCCUPIED
            then set (key nd) (key_len nd) (value nd);; free (key nd) else mret tt);;
           rehash set old_arr n (i + 1)
  end.

(** [fuel] bounds the depth of the recursion, which doubles the capacity. *)
Fixpoint Hashmap_set (fuel : nat) (map k : ptr) (klen : Z) (v : ptr) : M unit :=
  match fuel with
  | O => out_of_fuel
  | S fuel =>
      h ← hash k;
      m ← load_map map;
      let hv := h mod cap m in
      flg ← probing map k klen hv hv;
      if FOUND <=? flg then put_node map k klen v hv hv flg else
      set ← (if flg =? HAS_NEXT then
               let n := next_power_of_2 (cap m) in
               loop (S (S (Z.to_nat n))) (set_step map k klen v hv n) (1, flg)
             else mret false);
      if (set : bool) then mret tt else
      m ← load_map map;
      let cap' := u64 (Z.shiftl (cap m) 1) in
      a ← calloc zero_node cap' sizeof_Map_node;
      store map (OMap (mkMap cap' a 0));;
      rehash (Hashmap_set fuel map) (arr m) (Z.to_nat (cap m)) 0;;
      free (arr m);;
      Hashmap_set fuel map k klen v
  end.

(** ** Lookup and deletion *)

Definition probing2 (map k : ptr) (klen pos hash : Z) : M Z :=
  m ← load_map map;
  nd ← load_node (ptr_add (arr m) pos);
  if status nd =? NODE_EMPTY then mret STOP else
  if negb (hash =? node_hash nd) then mret STOP else
  if (status nd =? NODE_DELETED) || negb (klen =? key_len nd) then mret CONTINUE else
  c ← memcmp (Z.to_nat klen) k (key nd);
  mret (if c =? 0 then FOUND else CONTINUE).

Definition node_get (node : ptr) : M ptr :=
  nd ← load_node node; mret (value nd).

Definition node_delete (node : ptr) : M ptr :=
  nd ← load_node node;
  free (key nd);;
  store node (ONode (mkNode (key nd) 0 (value nd) (node_hash nd) NODE_DELETED));;
  mret (value nd).

(** An iteration of the probe loop of [Hashmap_get] and [Hashmap_delete],
    which do [act] at the node found. *)
Definition find_step (act : ptr → M ptr) (map k : ptr) (klen hv n : Z) (l : Z * Z)
    : M ((Z * Z) + ptr) :=
  let '(i, ret) := l in
  if (i <=? n) && (ret =? CONTINUE) then
    let t := probe_pos hv i n in
    m ← load_map map;
    if cap m <=? t then mret (inl (i + 1, ret)) else
    ret ← probing2 map k klen t hv;
    if ret =? FOUND then
      m ← load_map map;
      p ← act (ptr_add (arr m) t);
      mret (inr p)
    else mret (inl (i + 1, ret))
  else mret (inr Null).

(** The common text of [Hashmap_get] and [Hashmap_delete]. *)
Definition find (act : ptr → M ptr) (map k : ptr) (klen : Z) : M ptr :=
  h ← hash k;
  m ← load_map map;
  let hv := h mod cap m in
  ret ← probing2 map k klen hv hv;
  if ret =? FOUND then act (ptr_add (arr m) hv) else
  if ret =? CONTINUE then
    let n := next_power_of_2 (cap m) in
    loop (S (S (Z.to_nat n))) (find_step act map k klen hv n) (1, ret)
  else mret Null.

Definition Hashmap_get (map k : ptr) (klen : Z) : M ptr := find node_get map k klen.

(** [map->size--] and [node_delete]. *)
Definition delete_at (map node : ptr) : M ptr :=
  m ← load_map map;
  store map (OMap (mkMap (cap m) (arr m) (u64 (size m - 1))));;
  node_delete node.

Definition Hashmap_delete (map k : ptr) (klen : Z) : M ptr :=
  find (delete_at map) map k klen.
End hash.

(** ** djb2 *)

(** [hash = ((hash << 5) + hash) + c] *)
Definition djb2_char (hash c : Z) : Z :=
  u64 (u64 (u64 (Z.shiftl hash 5) + hash) + u64 c).

Definition djb2_step (l : ptr * Z) : M ((ptr * Z) + Z) :=
  let '(p, hash) := l in
  c ← load_byte p;
  if c =? 0 then mret (inr hash) else mret (inl (ptr_add p 1, djb2_char hash c)).

(** The loop ends within the block of the key. *)
Definition djb2 (k : ptr) : M Z :=
  l ← block_of k;
  loop (S (length l)) djb2_step (k, 5381).

(** ** main *)

(** A string literal, with its NUL. *)
Definition chars (s : string) : list Z :=
  map (λ c, i8 (Z.of_N (Ascii.N_of_ascii c))) (String.list_ascii_of_string s) ++ [0].
Definition literal (s : string) : M ptr := alloc (map (Some ∘ OByte) (chars s)).

Fixpoint strlen_loop (fuel : nat) (p : ptr) (n : Z) : M Z :=
  match fuel with
  | O => out_of_fuel
  | S fuel => c ← load_byte p;
              if c =? 0 then mret n else strlen_loop fuel (ptr_add p 1) (n + 1)
  end.
Definition strlen (p : ptr) : M Z := l ← block_of p; strlen_loop (S (length l)) p 0.

(** The decimal digits of [n >= 0]. *)
Fixpoint decimal (fuel : nat) (n : Z) (acc : list Z) : list Z :=
  match fuel with
  | O => acc
  | S fuel => let acc := (48 + n mod 10) :: acc in
              if n <? 10 then acc else decimal fuel (n / 10) acc
  end.

Fixpoint store_chars (p : ptr) (l : list Z) : M unit :=
  match l with
  | [] => mret tt
  | c :: l => store p (OByte c);; store_chars (ptr_add p 1) l
  end.

(** The key [item i], and [sprintf(key, "item %d", i)]. *)
Definition item (i : Z) : list Z := removelast (chars "item ") ++ decimal 10 i [] ++ [0].
Definition sprintf_item (p : ptr) (i : Z) : M unit := store_chars p (item i).

Fixpoint for_up (n : nat) (i : Z) (body : Z → M unit) : M unit :=
  match n with
  | O => mret tt
  | S n => body i;; for_up n (i + 1) body
  end.

(** [main]'s calls [Hashmap_set(h, k, strlen(k) + 1, v)] and
    [assert(Hashmap_get(h, k, strlen(k) + 1) == v)]. *)
Definition test_set (fuel : nat) (h k v : ptr) : M unit :=
  n ← strlen k; Hashmap_set djb2 fuel h k (n + 1) v.
Definition test_get (h k v : ptr) : M unit :=
  r ← (n ← strlen k; Hashmap_get djb2 h k (n + 1)); c_assert (bool_decide (r = v)).

(** The part of [main] on the two named keys. *)
Definition test_names (fuel : nat) (h item_a item_b a b c : ptr) : M unit :=
  test_set fuel h item_a a;;
  test_set fuel h item_b b;;
  test_get h item_a a;;
  test_get h item_b b;;
  test_set fuel h item_a c;;
  test_get h item_a c;;
  n ← strlen item_a;
  _ ← Hashmap_delete djb2 h item_a (n + 1);
  test_get h item_a Null.

(** [main] on the addresses of its locals [a], [b], [c] and [ns], whose
    values are not read, with [count] items instead of [n]; [fuel] is that
    of [Hashmap_set]. *)
Definition main_with (fuel : nat) (count : Z) (a b c ns : ptr) : M unit :=
  item_a ← literal "item a";
  item_b ← literal "item b";
  h ← Hashmap_new;
  test_names fuel h item_a item_b a b c;;
  key ← alloc (replicate (Z.to_nat MAX_KEY_SIZE) None);
  for_up (Z.to_nat count) 0 (λ i, sprintf_item key i;; test_set fuel h key (ptr_add ns i));;
  for_up (Z.to_nat count) 0 (λ i, sprintf_item key i;; test_get h key (ptr_add ns i));;
  Hashmap_free h.

Definition main (fuel : nat) : ptr → ptr → ptr → ptr → M unit :=
  main_with fuel (STARTING_BUCKETS * 1000).
