(* ===== verification/HashTable.v ===== *)
(** The hash map without pointers: a list of slots, the probe sequence of a
    hash, and the insertion, lookup and deletion of hashmap.c on them.  The
    chain invariant [table_ok] is kept by every operation; on tables in which
    no key occurs twice ([unique]) the operations are those of a finite map,
    provided a key that is present is set only before the first deletion; and
    [t_set] ends when the hashes of the keys are distinct modulo some
    capacity. *)
From S2P Require Import Prelude Mem Hashmap.
#[local] Open Scope Z_scope.

(** ** The table *)

(** A node that was never used, one that was deleted and keeps the hash it
    had, or one that holds a key. *)
Inductive slot := Empty | Dead (h : Z) | Live (h : Z) (k : list Z) (v : ptr).

Abbreviation table := (list slot).

Definition slot_hash (s : slot) : option Z :=
  match s with Empty => None | Dead h | Live h _ _ => Some h end.

Definition t_probe (k : list Z) (hv : Z) (s : slot) : Z :=
  match s with
  | Empty => FOUND
  | Dead h => if hv =? h then FOUND else NEED_RESIZE
  | Live h k' _ => if hv =? h then if decide (k = k') then REPLACE else HAS_NEXT
                   else NEED_RESIZE
  end.

Definition t_probe2 (k : list Z) (hv : Z) (s : slot) : Z :=
  match s with
  | Empty => STOP
  | Dead h => if hv =? h then CONTINUE else STOP
  | Live h k' _ => if hv =? h then if decide (k = k') then FOUND else CONTINUE else STOP
  end.

(** The positions from the [i]-th iteration of the probe loop on. *)
Definition probes_from (cap hv i : Z) : list nat :=
  let n := next_power_of_2 cap in
  Z.to_nat <$> filter (λ t, t < cap) ((λ i, probe_pos hv i n) <$> seqZ i (n + 1 - i)).

Definition probes (cap hv : Z) : list nat := Z.to_nat hv :: probes_from cap hv 1.

(** Where a key is to be stored, with the flag of the probe. *)
Fixpoint slot_for (T : table) (k : list Z) (hv : Z) (ps : list nat) : option (nat * Z) :=
  match ps with
  | [] => None
  | p :: ps =>
      match T !! p with
      | None => None
      | Some s =>
          let flg := t_probe k hv s in
          if FOUND <=? flg then Some (p, flg) else
          if flg =? HAS_NEXT then slot_for T k hv ps else None
      end
  end.

(** Where a key is found. *)
Fixpoint search (T : table) (k : list Z) (hv : Z) (ps : list nat) : option nat :=
  match ps with
  | [] => None
  | p :: ps =>
      match T !! p with
      | None => None
      | Some s =>
          let ret := t_probe2 k hv s in
          if ret =? FOUND then Some p else
          if ret =? CONTINUE then search T k hv ps else None
      end
  end.

Section hash.
Context (H : list Z → Z).

Definition home (T : table) (k : list Z) : Z := H k mod Z.of_nat (length T).
Definition sequence (T : table) (k : list Z) : list nat :=
  probes (Z.of_nat (length T)) (home T k).

Fixpoint t_rehash (set : table → list Z → ptr → option table) (old T : table) : option table :=
  match old with
  | [] => Some T
  | Live _ k v :: old => T' ← set T k v; t_rehash set old T'
  | _ :: old => t_rehash set old T
  end.

Definition doubled (T : table) : table := replicate (2 * length T) Empty.

Fixpoint t_set (fuel : nat) (T : table) (k : list Z) (v : ptr) : option table :=
  match fuel with
  | O => None
  | S fuel =>
      match slot_for T k (home T k) (sequence T k) with
      | Some (p, _) => Some (<[p := Live (home T k) k v]> T)
      | None =>
          if 2 * Z.of_nat (length T) * sizeof_Map_node <? 2 ^ 64 then
            T' ← t_rehash (t_set fuel) T (doubled T);
            t_set fuel T' k v
          else None
      end
  end.

Definition t_find (T : table) (k : list Z) : option nat :=
  search T k (home T k) (sequence T k).

Definition t_get (T : table) (k : list Z) : option ptr :=
  p ← t_find T k;
  match T !! p with Some (Live _ _ v) => Some v | _ => None end.

Definition t_delete (T : table) (k : list Z) : table :=
  match t_find T k with
  | Some p => <[p := Dead (home T k)]> T
  | None => T
  end.
End hash.

Definition t_new : table := replicate (Z.to_nat STARTING_BUCKETS) Empty.

(** ** What a table holds *)

Definition live (s : slot) : option (list Z * ptr) :=
  match s with Live _ k v => Some (k, v) | _ => None end.
Definition lives (T : table) : list (list Z * ptr) := omap live T.
Definition contents (T : table) : gmap (list Z) ptr := list_to_map (lives T).

(** No key occurs twice. *)
Definition unique (T : table) : Prop := ∀ p q h h' k v v',
  T !! p = Some (Live h k v) → T !! q = Some (Live h' k v') → p = q.
(** Every key of the table is in [P]. *)
Definition keys_in (P : list Z → Prop) (T : table) : Prop :=
  ∀ p h k v, T !! p = Some (Live h k v) → P k.

Definition no_dead (T : table) : Prop := ∀ h, Dead h ∉ T.

(** A used slot lies on the probe sequence of its hash, after used slots of
    the same hash only; a key has the hash of its slot. *)
Record table_ok (H : list Z → Z) (T : table) : Prop := {
  ok_cap : ∃ e, (3 ≤ e ≤ 58)%nat ∧ length T = (2 ^ e)%nat;
  ok_chain : ∀ p s h, T !! p = Some s → slot_hash s = Some h →
    ∃ i, probes (Z.of_nat (length T)) h !! i = Some p ∧
      ∀ i', (i' < i)%nat → ∃ q s', probes (Z.of_nat (length T)) h !! i' = Some q ∧
        T !! q = Some s' ∧ slot_hash s' = Some h;
  ok_home : ∀ p h k v, T !! p = Some (Live h k v) → h = home H T k
}.

(** ** next_power_of_2 *)

(** The bits of [r] are those of [m] smeared over the [w] places below. *)
Definition smeared (m w r : Z) : Prop := ∀ i, 0 ≤ i →
  Z.testbit r i = true ↔ ∃ d, 0 ≤ d < w ∧ Z.testbit m (i + d) = true.

Lemma smeared_step m w r : 0 < w → smeared m w r → smeared m (2 * w) (Z.lor r (Z.shiftr r w)).
Proof.
  intros Hw Hr i Hi. rewrite Z.lor_spec, Z.shiftr_spec, orb_true_iff, (Hr i Hi), (Hr (i + w)) by lia. split.
  - intros [(d & Hd & Hb)|(d & Hd & Hb)].
    + exists d. split; [lia|done].
    + exists (d + w). split; [lia|]. by replace (i + (d + w)) with (i + w + d) by lia.
  - intros (d & Hd & Hb). destruct (decide (d < w)).
    + left. exists d. split; [lia|done].
    + right. exists (d - w). split; [lia|]. by replace (i + w + (d - w)) with (i + d) by lia.
Qed.

Lemma smeared_1 m : smeared m 1 m.
Proof.
  intros i Hi. split.
  - exists 0. split; [lia|]. by rewrite Z.add_0_r.
  - intros (d & Hd & Hb). replace (i + d) with i in Hb by lia. done.
Qed.

Lemma smeared_ones m r : 0 < m < 2 ^ 64 → smeared m 64 r → r = Z.ones (Z.log2 m + 1).
Proof.
  intros Hm Hs. pose proof (Z.log2_nonneg m).
  assert (Z.log2 m < 64) by (apply Z.log2_lt_pow2; lia).
  apply Z.bits_inj'. intros i Hi.
  destruct (decide (i ≤ Z.log2 m)) as [Hle|Hgt].
  - rewrite Z.ones_spec_low by lia. apply Hs; [done|].
    exists (Z.log2 m - i). split; [lia|].
    replace (i + (Z.log2 m - i)) with (Z.log2 m) by lia. apply Z.bit_log2. lia.
  - rewrite Z.ones_spec_high by lia. apply not_true_iff_false. intros Hb.
    apply Hs in Hb as (d & Hd & Hb); [|done].
    rewrite Z.bits_above_log2 in Hb by lia. done.
Qed.

Lemma next_power_of_2_up n : 1 ≤ n ≤ 2 ^ 63 → next_power_of_2 n = 2 ^ Z.log2_up n.
Proof.
  intros Hn. unfold next_power_of_2. rewrite (u64_small (n - 1)) by lia.
  destruct (decide (n = 1)) as [->|Hne]; [done|]. cbv zeta.
  set (r := Z.lor _ (Z.shiftr _ 32)).
  assert (smeared (n - 1) 64 r) as Hs.
  { subst r. apply (smeared_step _ 32), (smeared_step _ 16), (smeared_step _ 8),
      (smeared_step _ 4), (smeared_step _ 2), (smeared_step _ 1), smeared_1; lia. }
  rewrite (smeared_ones (n - 1) r ltac:(lia) Hs), Z.ones_equiv.
  assert (Z.log2 (n - 1) < 63) by (apply Z.log2_lt_pow2; lia).
  pose proof (Z.log2_nonneg (n - 1)).
  rewrite Z.log2_up_eqn by lia. replace (Z.pred n) with (n - 1) by lia.
  replace (Z.pred _ + 1) with (2 ^ (Z.log2 (n - 1) + 1)) by lia. rewrite Z.add_1_r.
  apply u64_small. split; [lia|]. apply Z.pow_lt_mono_r; lia.
Qed.

Lemma next_power_of_2_pow e : (e ≤ 63)%nat → next_power_of_2 (2 ^ Z.of_nat e) = 2 ^ Z.of_nat e.
Proof.
  intros He. assert (0 < 2 ^ Z.of_nat e) by (apply Z.pow_pos_nonneg; lia).
  assert (2 ^ Z.of_nat e ≤ 2 ^ 63) by (apply Z.pow_le_mono_r; lia).
  rewrite next_power_of_2_up, Z.log2_up_pow2; [done|lia|lia].
Qed.

(** From here on the positions of a sequence matter, not how they are computed. *)
#[local] Opaque next_power_of_2 probe_pos.

(** ** Probe sequences *)

Lemma probes_lt cap hv p : 0 < cap → 0 ≤ hv < cap → p ∈ probes cap hv → (p < Z.to_nat cap)%nat.
Proof.
  intros Hc Hv Hp. unfold probes in Hp. apply elem_of_cons in Hp as [->|Hp]; [lia|].
  unfold probes_from in Hp. apply list_elem_of_fmap in Hp as (t & -> & Ht).
  apply list_elem_of_filter in Ht as [? _]. lia.
Qed.

(** ** Scanning a probe sequence *)

(** The first [i] positions of [ps] hold other keys of the same hash. *)
Definition others (T : table) (k : list Z) (hv : Z) (ps : list nat) (i : nat) : Prop :=
  ∀ i', (i' < i)%nat → ∃ q k' v', ps !! i' = Some q ∧ T !! q = Some (Live hv k' v') ∧ k ≠ k'.

Lemma others_S T k hv p ps i k' v' :
  T !! p = Some (Live hv k' v') → k ≠ k' → others T k hv ps i →
  others T k hv (p :: ps) (S i).
Proof.
  intros Hp Hk Ho [|i'] Hi'; [by exists p, k', v'|]. apply Ho. lia.
Qed.

(** What [t_probe] and [t_probe2] answer at a used slot of the hash. *)
Lemma t_probe_hash k hv s : slot_hash s = Some hv →
  t_probe k hv s = match s with
                   | Live _ k' _ => if decide (k = k') then REPLACE else HAS_NEXT
                   | _ => FOUND
                   end.
Proof. destruct s; simpl; intros; simplify_eq; by rewrite ?Z.eqb_refl. Qed.

Lemma slot_for_Some T k hv ps p flg : slot_for T k hv ps = Some (p, flg) →
  ∃ i, ps !! i = Some p ∧ others T k hv ps i ∧
    ((flg = FOUND ∧ ∃ s, T !! p = Some s ∧ (s = Empty ∨ s = Dead hv)) ∨
     (flg = REPLACE ∧ ∃ v, T !! p = Some (Live hv k v))).
Proof.
  induction ps as [|q ps IH]; simpl; [done|].
  destruct (T !! q) as [s|] eqn:Hq; [|done].
  destruct s as [|h|h k' v']; simpl.
  - intros [= <- <-]. exists 0%nat. split; [done|]. split; [by intros ? ?%Nat.nlt_0_r|]. eauto 6.
  - destruct (Z.eqb_spec hv h) as [<-|]; [|done]. intros [= <- <-].
    exists 0%nat. split; [done|]. split; [by intros ? ?%Nat.nlt_0_r|]. eauto 6.
  - destruct (Z.eqb_spec hv h) as [<-|]; [|done].
    destruct (decide (k = k')) as [<-|Hne]; simpl.
    + intros [= <- <-]. exists 0%nat. split; [done|]. split; [by intros ? ?%Nat.nlt_0_r|]. eauto 6.
    + intros (i & Hi & Ho & Hs)%IH. exists (S i). split; [done|]. split; [|done].
      by eapply others_S.
Qed.

(** At a slot where the key may go, after other keys of its hash. *)
Lemma slot_for_at T k hv ps i p s :
  ps !! i = Some p → others T k hv ps i → T !! p = Some s → FOUND ≤ t_probe k hv s →
  slot_for T k hv ps = Some (p, t_probe k hv s).
Proof.
  revert ps. induction i as [|i IH]; intros [|q ps] Hi Ho Hp Hs; try done; simpl in Hi.
  - simplify_eq. simpl. by rewrite Hp, (proj2 (Z.leb_le _ _) Hs).
  - destruct (Ho 0%nat) as (? & k' & v' & [= <-] & Hq & Hne); [lia|]. simpl. rewrite Hq. simpl.
    rewrite Z.eqb_refl, decide_False by done. apply IH; try done.
    intros i' Hi'. apply (Ho (S i')). lia.
Qed.

Lemma search_Some T k hv ps p : search T k hv ps = Some p →
  (∃ v, T !! p = Some (Live hv k v)) ∧ ∃ i, ps !! i = Some p ∧
    ∀ i', (i' < i)%nat → ∃ q s, ps !! i' = Some q ∧ T !! q = Some s ∧ slot_hash s = Some hv.
Proof.
  induction ps as [|q ps IH]; simpl; [done|].
  destruct (T !! q) as [s|] eqn:Hq; [|done]. intros Hs.
  assert ((slot_hash s = Some hv ∧ search T k hv ps = Some p) ∨
          (q = p ∧ ∃ v, s = Live hv k v)) as [[Hh [Hv (i & Hi & Hc)]%IH]|[-> [v ->]]].
  - destruct s as [|h|h k' v']; simpl in *; [done|..];
      (destruct (Z.eqb_spec hv h) as [<-|]; [|done]); [by left|].
    destruct (decide (k = k')) as [<-|]; simplify_eq/=; [right; eauto|by left].
  - split; [done|]. exists (S i). split; [done|]. intros [|i'] Hi'; [eauto|]. apply Hc. lia.
  - split; [eauto|]. exists 0%nat. split; [done|]. by intros ? ?%Nat.nlt_0_r.
Qed.

(** A key that lies after used slots of its hash is found, there or before. *)
Lemma search_complete T k hv ps i p v :
  ps !! i = Some p → T !! p = Some (Live hv k v) →
  (∀ i', (i' < i)%nat → ∃ q s, ps !! i' = Some q ∧ T !! q = Some s ∧ slot_hash s = Some hv) →
  is_Some (search T k hv ps).
Proof.
  revert ps. induction i as [|i IH]; intros [|q ps] Hi Hp Hc; try done; simpl in Hi.
  - simplify_eq. simpl. rewrite Hp. simpl. rewrite Z.eqb_refl, decide_True by done. simpl. eauto.
  - destruct (Hc 0%nat) as (? & s & [= <-] & Hq & Hs); [lia|]. simpl. rewrite Hq.
    assert (is_Some (search T k hv ps)) as IH'.
    { apply IH; try done. intros i' Hi'. apply (Hc (S i')). lia. }
    destruct s as [|h|h k' v']; simplify_eq/=; rewrite Z.eqb_refl; [done|].
    case_decide; simpl; [eauto|done].
Qed.

(** After other keys of its hash only, it is found there. *)
Lemma search_first T k hv ps i p v :
  ps !! i = Some p → T !! p = Some (Live hv k v) → others T k hv ps i →
  search T k hv ps = Some p.
Proof.
  revert ps. induction i as [|i IH]; intros [|q ps] Hi Hp Ho; try done; simpl in Hi.
  - simplify_eq. simpl. rewrite Hp. simpl. by rewrite Z.eqb_refl, decide_True.
  - destruct (Ho 0%nat) as (? & k' & v' & [= <-] & Hq & Hne); [lia|]. simpl. rewrite Hq. simpl.
    rewrite Z.eqb_refl, decide_False by done. apply IH; try done.
    intros i' Hi'. apply (Ho (S i')). lia.
Qed.

(** ** What a table holds *)

Lemma elem_of_lives T k v : (k, v) ∈ lives T ↔ ∃ p h, T !! p = Some (Live h k v).
Proof.
  unfold lives. rewrite list_elem_of_omap. split.
  - intros (s & [p Hp]%list_elem_of_lookup & Hs). destruct s; simplify_eq/=. eauto.
  - intros (p & h & Hp). exists (Live h k v). split; [|done]. by eapply list_elem_of_lookup_2.
Qed.

Lemma unique_NoDup T : unique T → NoDup (lives T).*1.
Proof.
  induction T as [|s T IH]; intros Hu; [constructor|].
  assert (NoDup (lives T).*1) as IH'.
  { apply IH. intros p q h h' k v v' Hp Hq.
    by pose proof (Hu (S p) (S q) h h' k v v' Hp Hq) as [= ->]. }
  destruct s as [|h|h k v]; simpl; try done.
  constructor; [|done]. intros ([k' v'] & -> & Hin)%list_elem_of_fmap.
  apply elem_of_lives in Hin as (p & h' & Hp). simpl in Hu.
  by pose proof (Hu 0%nat (S p) h h' k' v v' eq_refl Hp).
Qed.

Lemma contents_spec T k v : unique T →
  contents T !! k = Some v ↔ ∃ p h, T !! p = Some (Live h k v).
Proof.
  intros Hu. unfold contents. rewrite <-elem_of_lives.
  symmetry. by apply elem_of_list_to_map, unique_NoDup.
Qed.

Lemma contents_None T k : contents T !! k = None ↔ ∀ p h v, T !! p ≠ Some (Live h k v).
Proof.
  unfold contents. rewrite <-not_elem_of_list_to_map. split.
  - intros Hn p h v Hp. apply Hn, list_elem_of_fmap. exists (k, v). split; [done|].
    apply elem_of_lives. eauto.
  - intros Hn ([k' v] & -> & (p & h & Hp)%elem_of_lives)%list_elem_of_fmap. by eapply Hn.
Qed.

(** Storing a key at the only place where it may already be. *)
Lemma contents_insert T p h k v :
  unique T → (p < length T)%nat →
  (∀ q h' v', T !! q = Some (Live h' k v') → q = p) →
  (∀ h' k' v', T !! p = Some (Live h' k' v') → k' = k) →
  unique (<[p := Live h k v]> T) ∧ contents (<[p := Live h k v]> T) = <[k := v]> (contents T).
Proof.
  intros Hu Hlt Hk Hp.
  assert (unique (<[p := Live h k v]> T)) as Hu'.
  { intros q q' h1 h2 k1 v1 v2 [(<- & Hq & _)|[Hne Hq]]%list_lookup_insert_Some
      [(<- & Hq' & _)|[Hne' Hq']]%list_lookup_insert_Some; simplify_eq; [done| | |by eapply Hu].
    - symmetry. by eapply Hk.
    - by eapply Hk. }
  split; [done|]. apply map_eq. intros k'. apply option_eq. intros x.
  rewrite contents_spec by done. destruct (decide (k' = k)) as [->|Hne].
  - rewrite lookup_insert_eq. split.
    + intros (q & h' & [(<- & Hq & _)|[Hne Hq]]%list_lookup_insert_Some); [by simplify_eq|].
      by apply Hk in Hq as ->.
    + intros [= <-]. exists p, h. by apply list_lookup_insert_eq.
  - rewrite lookup_insert_ne, contents_spec by done. split.
    + intros (q & h' & [(<- & Hq & _)|[_ Hq]]%list_lookup_insert_Some); [by simplify_eq|eauto].
    + intros (q & h' & Hq). exists q, h'. rewrite list_lookup_insert_ne; [done|].
      intros <-. by apply Hp in Hq.
Qed.

Lemma contents_remove T p h h' k v :
  unique T → T !! p = Some (Live h k v) →
  unique (<[p := Dead h']> T) ∧ contents (<[p := Dead h']> T) = delete k (contents T).
Proof.
  intros Hu Hp.
  assert (unique (<[p := Dead h']> T)) as Hu'.
  { intros q q' h1 h2 k1 v1 v2 [(<- & Hq & _)|[Hne Hq]]%list_lookup_insert_Some
      [(<- & Hq' & _)|[Hne' Hq']]%list_lookup_insert_Some; simplify_eq. by eapply Hu. }
  split; [done|]. apply map_eq. intros k'. apply option_eq. intros x.
  rewrite contents_spec, lookup_delete_Some, contents_spec by done. split.
  - intros (q & h1 & [(<- & Hq & _)|[Hne Hq]]%list_lookup_insert_Some); [by simplify_eq|].
    split; [|eauto]. intros ->. apply Hne. by eapply Hu.
  - intros [Hne (q & h1 & Hq)]. exists q, h1. rewrite list_lookup_insert_ne; [done|].
    intros <-. by simplify_eq.
Qed.

#[local] Arguments lives : simpl never.

Lemma lives_cons s T : lives (s :: T) = option_list (live s) ++ lives T.
Proof. by destruct s. Qed.

Lemma lives_length_insert T p s s' : T !! p = Some s →
  (length (lives (<[p := s']> T)) + length (option_list (live s)) =
   length (lives T) + length (option_list (live s')))%nat.
Proof.
  revert p. induction T as [|s0 T IH]; intros [|p] Hp; simplify_eq/=;
    rewrite !lives_cons, !length_app; [lia|]. specialize (IH p Hp). lia.
Qed.

Lemma lives_length_le T : (length (lives T) ≤ length T)%nat.
Proof.
  induction T as [|s T IH]; [done|]. rewrite lives_cons, length_app. destruct s; simpl; lia.
Qed.

Section hash_lemmas.
Context (H : list Z → Z).
#[local] Abbreviation table_ok := (table_ok H).
#[local] Abbreviation home := (home H).
#[local] Abbreviation sequence := (sequence H).

Lemma table_pos T : table_ok T → (0 < length T)%nat.
Proof.
  intros [(e & He & ->) _ _]. pose proof (Nat.pow_nonzero 2 e ltac:(lia)). lia.
Qed.

Lemma home_range T k : table_ok T → 0 ≤ home T k < Z.of_nat (length T).
Proof. intros Hok%table_pos. apply Z.mod_pos_bound. lia. Qed.

(** Every position of a probe sequence is a slot. *)
Lemma sequence_lookup T k i p : table_ok T → sequence T k !! i = Some p → is_Some (T !! p).
Proof.
  intros Hok Hi%list_elem_of_lookup_2. apply lookup_lt_is_Some.
  pose proof (table_pos T Hok).
  apply probes_lt in Hi; [|lia|by apply home_range]. by rewrite Nat2Z.id in Hi.
Qed.

Lemma home_insert T p s k : home (<[p := s]> T) k = home T k.
Proof. unfold HashTable.home. by rewrite length_insert. Qed.

Lemma sequence_insert T p s k : sequence (<[p := s]> T) k = sequence T k.
Proof. unfold HashTable.sequence. by rewrite home_insert, length_insert. Qed.

(** The chain that leads to a key. *)
Lemma live_chain T p h k v : table_ok T → T !! p = Some (Live h k v) →
  h = home T k ∧ ∃ i, sequence T k !! i = Some p ∧
    ∀ i', (i' < i)%nat → ∃ q s, sequence T k !! i' = Some q ∧ T !! q = Some s ∧
      slot_hash s = Some (home T k).
Proof.
  intros Hok Hp. pose proof (ok_home _ _ Hok _ _ _ _ Hp) as ->. split; [done|].
  exact (ok_chain _ _ Hok p _ _ Hp eq_refl).
Qed.

Lemma table_ok_insert T k i p s s' :
  table_ok T → sequence T k !! i = Some p →
  (∀ i', (i' < i)%nat → ∃ q s, sequence T k !! i' = Some q ∧ T !! q = Some s ∧
     slot_hash s = Some (home T k)) →
  T !! p = Some s → s = Empty ∨ slot_hash s = Some (home T k) →
  s' = Dead (home T k) ∨ (∃ v, s' = Live (home T k) k v) →
  table_ok (<[p := s']> T).
Proof.
  intros Hok Hi Hused Hp Hs Hs'.
  assert (slot_hash s' = Some (home T k)) as Hh by (by destruct Hs' as [->|[v ->]]).
  assert ((p < length T)%nat) as Hlt by by eapply lookup_lt_Some.
  constructor.
  - rewrite length_insert. apply Hok.
  - rewrite length_insert.
    intros q x h [(<- & -> & _)|[Hne Hq]]%list_lookup_insert_Some Hx.
    + simplify_eq. exists i. split; [done|]. intros i' Hi'.
      destruct (Hused i' Hi') as (q & s1 & Hq & HTq & Hs1).
      destruct (decide (p = q)) as [->|].
      * exists q, x. by rewrite list_lookup_insert_eq.
      * exists q, s1. by rewrite list_lookup_insert_ne.
    + destruct (ok_chain _ _ Hok q x h Hq Hx) as (j & Hj & Hbefore). exists j. split; [done|].
      intros i' Hi'. destruct (Hbefore i' Hi') as (q' & s1 & Hq' & HTq' & Hs1).
      destruct (decide (p = q')) as [->|].
      * exists q', s'. rewrite list_lookup_insert_eq by done. split; [done|]. split; [done|].
        rewrite Hp in HTq'. injection HTq' as ->.
        destruct Hs as [->|Hs]; [done|]. by rewrite Hs1 in Hs; injection Hs as ->.
      * exists q', s1. by rewrite list_lookup_insert_ne.
  - intros q h k' v [(<- & Hq & _)|[Hne Hq]]%list_lookup_insert_Some; rewrite home_insert.
    + destruct Hs' as [->|[v' ->]]; by simplify_eq.
    + by eapply ok_home.
Qed.

Lemma others_used T k i : others T k (home T k) (sequence T k) i →
  ∀ i', (i' < i)%nat → ∃ q s, sequence T k !! i' = Some q ∧ T !! q = Some s ∧
    slot_hash s = Some (home T k).
Proof. intros Ho i' Hi'. destruct (Ho i' Hi') as (q & k' & v' & ? & ? & _). eauto. Qed.

(** *** Lookup *)

Lemma find_Some T k p : t_find H T k = Some p → ∃ v, T !! p = Some (Live (home T k) k v).
Proof. by intros [? _]%search_Some. Qed.

Lemma get_contents T k : table_ok T → unique T → t_get H T k = contents T !! k.
Proof.
  intros Hok Hu. unfold t_get. destruct (t_find H T k) as [p|] eqn:Hf; simpl.
  - apply find_Some in Hf as [v Hp]. rewrite Hp. symmetry. apply contents_spec; eauto.
  - symmetry. apply contents_None. intros p h v Hp.
    destruct (live_chain T p h k v Hok Hp) as (-> & i & Hi & Hc).
    destruct (search_complete T k (home T k) (sequence T k) i p v Hi Hp Hc) as [q Hq].
    unfold t_find in Hf. congruence.
Qed.

Lemma slot_for_complete T k hv ps i p v :
  ps !! i = Some p → T !! p = Some (Live hv k v) →
  (∀ i', (i' < i)%nat → ∃ q s, ps !! i' = Some q ∧ T !! q = Some s ∧ slot_hash s = Some hv) →
  is_Some (slot_for T k hv ps).
Proof.
  revert ps. induction i as [|i IH]; intros [|q ps] Hi Hp Hc; try done; simpl in Hi.
  - simplify_eq. simpl. rewrite Hp. simpl. rewrite Z.eqb_refl, decide_True by done. simpl. eauto.
  - destruct (Hc 0%nat) as (? & s & [= <-] & Hq & Hs); [lia|]. simpl. rewrite Hq.
    rewrite (t_probe_hash k hv s Hs). destruct s as [|h|h k' v']; [done|simpl; eauto|].
    destruct (decide (k = k')); simpl; [eauto|].
    apply IH; try done. intros i' Hi'. apply (Hc (S i')). lia.
Qed.

(** *** Insertion without resizing *)

Section hit.
Context (T : table) (k : list Z) (v : ptr) (p : nat) (flg : Z).
Hypothesis Hok : table_ok T.
Hypothesis Hfor : slot_for T k (home T k) (sequence T k) = Some (p, flg).
#[local] Abbreviation T' := (<[p := Live (home T k) k v]> T).

Lemma hit_ok : table_ok T' ∧ t_get H T' k = Some v.
Proof.
  destruct (slot_for_Some _ _ _ _ _ _ Hfor) as (i & Hi & Ho & Hs).
  destruct (sequence_lookup T k i p Hok Hi) as [s Hp].
  assert (s = Empty ∨ slot_hash s = Some (home T k)) as Hhash.
  { destruct Hs as [(_ & s' & Hp' & [->| ->])|(_ & v' & Hp')]; simplify_eq/=; auto. }
  split; [by eapply table_ok_insert; eauto using others_used|].
  assert ((p < length T)%nat) by by eapply lookup_lt_Some.
  assert (t_find H T' k = Some p) as Hf.
  { unfold t_find. rewrite home_insert, sequence_insert.
    eapply (search_first _ _ _ _ i); [done|by apply list_lookup_insert_eq|].
    intros i' Hi'. destruct (Ho i' Hi') as (q & k' & v' & Hq & HTq & Hne).
    exists q, k', v'. rewrite list_lookup_insert_ne; [done|]. intros ->.
    destruct Hs as [(_ & s' & Hp' & [->| ->])|(_ & v2 & Hp')]; congruence. }
  unfold t_get. rewrite Hf. simpl. by rewrite list_lookup_insert_eq.
Qed.

Lemma hit_contents : unique T → contents T !! k = None ∨ no_dead T →
  unique T' ∧ contents T' = <[k := v]> (contents T).
Proof.
  intros Hu Hd. destruct (slot_for_Some _ _ _ _ _ _ Hfor) as (i & Hi & Ho & Hs).
  destruct (sequence_lookup T k i p Hok Hi) as [s Hp].
  apply contents_insert; [done|by eapply lookup_lt_Some| |].
  - intros q h v' Hq. destruct Hd as [Hd|Hd]; [by eapply contents_None in Hd|].
    destruct Hs as [(_ & s' & Hp' & [->| ->])|(_ & v2 & Hp')]; [|by destruct (Hd (home T k)); eapply list_elem_of_lookup_2|by eapply Hu].
    exfalso. destruct (live_chain T q h k v' Hok Hq) as (-> & j & Hj & Hc).
    destruct (lt_eq_lt_dec i j) as [[Hlt|<-]|Hlt]; [|congruence|].
    + destruct (Hc i Hlt) as (q' & s1 & Hq' & HTq' & Hs1). by simplify_eq.
    + destruct (Ho j Hlt) as (q' & k' & v2 & Hq' & HTq' & Hne). congruence.
  - intros h' k' v' Hp'.
    destruct Hs as [(_ & s' & Hps & [->| ->])|(_ & v2 & Hps)]; congruence.
Qed.

Lemma hit_no_dead : no_dead T → no_dead T'.
Proof.
  intros Hd h [q [(_ & Hq & _)|[_ Hq]]%list_lookup_insert_Some]%list_elem_of_lookup; [done|].
  apply (Hd h). by eapply list_elem_of_lookup_2.
Qed.
End hit.

(** A key that is present needs no resizing. *)
Lemma miss_absent T k : table_ok T → slot_for T k (home T k) (sequence T k) = None →
  contents T !! k = None.
Proof.
  intros Hok Hfor. apply contents_None. intros p h v Hp.
  destruct (live_chain T p h k v Hok Hp) as (-> & i & Hi & Hc).
  destruct (slot_for_complete T k _ _ i p v Hi Hp Hc) as [x Hx]. congruence.
Qed.

(** *** Insertion *)

Lemma empty_ok e : (3 ≤ e ≤ 58)%nat → table_ok (replicate (2 ^ e) Empty).
Proof.
  intros He. constructor.
  - exists e. by rewrite length_replicate.
  - by intros p s h [-> _]%lookup_replicate.
  - by intros p h k v [? _]%lookup_replicate.
Qed.

Lemma new_ok : table_ok t_new.
Proof. apply (empty_ok 3). lia. Qed.

Lemma empty_contents n : unique (replicate n Empty) ∧ no_dead (replicate n Empty) ∧
  contents (replicate n Empty) = ∅.
Proof.
  split; [by intros p q h h' k v v' [? _]%lookup_replicate|]. split.
  - by intros h [? _]%elem_of_replicate.
  - apply map_eq. intros k. rewrite lookup_empty. apply contents_None.
    by intros p h v [? _]%lookup_replicate.
Qed.

Lemma doubled_ok T : table_ok T → 2 * Z.of_nat (length T) * sizeof_Map_node < 2 ^ 64 →
  ∃ e, (3 ≤ e ≤ 57)%nat ∧ length T = (2 ^ e)%nat ∧ doubled T = replicate (2 ^ S e) Empty.
Proof.
  intros [(e & He & Hl) _ _] Hsz. exists e. unfold doubled. rewrite Hl in *.
  rewrite Nat.pow_succ_r'. split; [|done]. split; [lia|].
  destruct (decide (e = 58)%nat) as [->|]; [|lia].
  rewrite Nat2Z.inj_pow in Hsz. unfold sizeof_Map_node in Hsz. lia.
Qed.

Lemma rehash_inv (I : table → Prop) set old :
  (∀ T k v T', I T → set T k v = Some T' → I T') →
  ∀ T T', I T → t_rehash set old T = Some T' → I T'.
Proof.
  intros Hset. induction old as [|[|h|h k v] old IH]; intros T T' HI Hr; simplify_eq/=; eauto.
  destruct (set T k v) eqn:Hs; [|done]. eauto.
Qed.

Lemma set_ok fuel : ∀ T k v T', table_ok T → t_set H fuel T k v = Some T' →
  table_ok T' ∧ t_get H T' k = Some v.
Proof.
  induction fuel as [|fuel IH]; intros T k v T' Hok Hset; [done|]. cbn [t_set] in Hset.
  destruct (slot_for _ _ _ _) as [[p flg]|] eqn:Hfor; simplify_eq.
  - by eapply hit_ok.
  - destruct (Z.ltb_spec (2 * Z.of_nat (length T) * sizeof_Map_node) (2 ^ 64)) as [Hsz|]; [|done].
    destruct (t_rehash _ _ _) as [T1|] eqn:Hr; [|done]. simpl in Hset.
    destruct (doubled_ok T Hok Hsz) as (e & He & _ & Hdb). rewrite Hdb in Hr.
    eapply IH; [|done]. eapply (rehash_inv table_ok); [|apply (empty_ok (S e)); lia|exact Hr].
    intros T2 k2 v2 T3 HT2 Hs2. by destruct (IH _ _ _ _ HT2 Hs2).
Qed.

Lemma rehash_keys_in P set :
  (∀ T k v T', keys_in P T → P k → set T k v = Some T' → keys_in P T') →
  ∀ old T T', keys_in P old → keys_in P T → t_rehash set old T = Some T' → keys_in P T'.
Proof.
  intros Hset. induction old as [|s old IH]; intros T T' Hold HT Hr; [by simplify_eq/=|].
  pose proof (λ p, Hold (S p)) as Hold'. simpl in Hold'.
  destruct s as [|h|h k v]; simpl in Hr; [by eauto..|].
  destruct (set T k v) as [T1|] eqn:Hs; [|done]. simpl in Hr.
  eapply IH; [exact Hold'| |exact Hr]. eapply (Hset T k v); [exact HT| |exact Hs].
  by apply (Hold 0%nat h k v).
Qed.

(** Every key of the new table was in the old one or is the new key. *)
Lemma set_keys_in P fuel : ∀ T k v T', keys_in P T → P k →
  t_set H fuel T k v = Some T' → keys_in P T'.
Proof.
  assert (∀ T p h k v, keys_in P T → P k → keys_in P (<[p := Live h k v]> T)) as Hins.
  { intros T p h k v HT Hk q h' k' v' [(<- & Hq & _)|[_ Hq]]%list_lookup_insert_Some;
      [by simplify_eq|by eapply HT]. }
  induction fuel as [|fuel IH]; intros T k v T' HT Hk Hset; [done|]. cbn [t_set] in Hset.
  destruct (slot_for _ _ _ _) as [[p flg]|]; [simplify_eq; by apply Hins|].
  destruct (_ <? _); [|done].
  destruct (t_rehash _ _ _) as [T1|] eqn:Hr; [|done]. simpl in Hset. eapply IH; [|done..].
  eapply rehash_keys_in; [exact IH|exact HT| |exact Hr]. by intros p h k' v' [? _]%lookup_replicate.
Qed.

Lemma insert_all (l : list (list Z * ptr)) (m : gmap (list Z) ptr) : NoDup l.*1 →
  foldl (λ m kv, <[kv.1 := kv.2]> m) m l = list_to_map l ∪ m.
Proof.
  revert m. induction l as [|[k v] l IH]; intros m Hnd; simpl; [by rewrite (left_id_L ∅ (∪))|].
  apply NoDup_cons in Hnd as [Hk Hnd]. rewrite IH by done. simpl.
  rewrite <-insert_union_r by (by apply not_elem_of_list_to_map_1).
  by rewrite insert_union_l.
Qed.

Lemma set_contents fuel : ∀ T k v T', table_ok T → unique T →
  contents T !! k = None ∨ no_dead T → t_set H fuel T k v = Some T' →
  unique T' ∧ contents T' = <[k := v]> (contents T) ∧ (no_dead T → no_dead T').
Proof.
  induction fuel as [|fuel IH]; intros T k v T' Hok Hu Hd Hset; [done|]. cbn [t_set] in Hset.
  destruct (slot_for _ _ _ _) as [[p flg]|] eqn:Hfor; simplify_eq.
  { destruct (hit_contents T k v p flg Hok Hfor Hu Hd). eauto using hit_no_dead. }
  destruct (Z.ltb_spec (2 * Z.of_nat (length T) * sizeof_Map_node) (2 ^ 64)) as [Hsz|]; [|done].
  destruct (t_rehash _ _ _) as [T1|] eqn:Hr; [|done]. simpl in Hset.
  assert (∀ old T0 T1, table_ok T0 → unique T0 → no_dead T0 →
    t_rehash (t_set H fuel) old T0 = Some T1 →
    table_ok T1 ∧ unique T1 ∧ no_dead T1 ∧
    contents T1 = foldl (λ m kv, <[kv.1 := kv.2]> m) (contents T0) (lives old)) as Hall.
  { clear -IH. induction old as [|[|h|h k v] old IHold]; intros T0 T1 Hok Hu Hd Hr;
      [simplify_eq/=; eauto|by eauto..|]. simpl in Hr.
    destruct (t_set H fuel T0 k v) as [T2|] eqn:Hs; [|done].
    destruct (set_ok fuel _ _ _ _ Hok Hs) as [Hok2 _].
    destruct (IH _ _ _ _ Hok Hu (or_intror Hd) Hs) as (Hu2 & Hc2 & Hd2).
    destruct (IHold T2 T1 Hok2 Hu2 (Hd2 Hd) Hr) as (? & ? & ? & ->).
    rewrite lives_cons. simpl. by rewrite Hc2. }
  destruct (doubled_ok T Hok Hsz) as (e & He & _ & Hdb). rewrite Hdb in Hr.
  destruct (empty_contents (2 ^ S e)) as (Hue & Hde & Hce).
  destruct (Hall T _ T1 (empty_ok (S e) ltac:(lia)) Hue Hde Hr) as (Hok1 & Hu1 & Hd1 & Hc1).
  rewrite Hce, insert_all, (right_id_L ∅ (∪)) in Hc1 by by apply unique_NoDup.
  destruct (IH T1 k v T' Hok1 Hu1 (or_intror Hd1) Hset) as (Hu' & -> & Hd').
  rewrite Hc1. eauto.
Qed.

(** *** Deletion *)

Lemma delete_ok T k : table_ok T → table_ok (t_delete H T k).
Proof.
  intros Hok. unfold t_delete. destruct (t_find H T k) as [p|] eqn:Hf; [|done].
  apply search_Some in Hf as [[v Hp] (i & Hi & Hc)].
  eapply table_ok_insert; eauto.
Qed.

Lemma delete_contents T k : table_ok T → unique T →
  unique (t_delete H T k) ∧ contents (t_delete H T k) = delete k (contents T).
Proof.
  intros Hok Hu. unfold t_delete. pose proof (get_contents T k Hok Hu) as Hg. unfold t_get in Hg.
  destruct (t_find H T k) as [p|] eqn:Hf; simpl in Hg.
  - apply find_Some in Hf as [v Hp]. by eapply contents_remove.
  - split; [done|]. by rewrite delete_id.
Qed.

(** *** Termination *)

Section termination.
(** The keys in use have different hashes modulo [2 ^ e]. *)
Context (K : list Z → Prop) (e : nat).
Hypothesis He : (e ≤ 58)%nat.
Hypothesis Hinj : ∀ k k', K k → K k' → H k mod 2 ^ Z.of_nat e = H k' mod 2 ^ Z.of_nat e → k = k'.

(** The capacity is at most [2 ^ e], and at [2 ^ e] every used slot is the
    first of its hash. *)
Record settled (T : table) (i : nat) : Prop := {
  set_len : length T = (2 ^ i)%nat;
  set_le : (i ≤ e)%nat;
  set_keys : keys_in K T;
  set_home : i = e → ∀ p s h, T !! p = Some s → slot_hash s = Some h → h = Z.of_nat p
}.

(** Storing a key keeps the table settled. *)
Lemma settled_insert T i k v p flg : table_ok T → settled T i → K k →
  slot_for T k (home T k) (sequence T k) = Some (p, flg) →
  (i = e → home T k = Z.of_nat p) →
  settled (<[p := Live (home T k) k v]> T) i.
Proof.
  intros Hok [Hl Hle Hk Hh] HK Hfor Hp. constructor; [by rewrite length_insert|done| |].
  - intros q h k' v' [(<- & Hq & _)|[_ Hq]]%list_lookup_insert_Some; [by simplify_eq|by eapply Hk].
  - intros Hi q s h [(<- & <- & _)|[_ Hq]]%list_lookup_insert_Some Hs; [|by eapply Hh].
    simplify_eq/=. by apply Hp.
Qed.

Lemma settled_delete T i k : settled T i → settled (t_delete H T k) i.
Proof.
  intros [Hl Hle Hk Hh]. unfold t_delete. destruct (t_find H T k) as [p|] eqn:Hf; [|done].
  apply find_Some in Hf as [v Hp]. constructor; [by rewrite length_insert|done| |].
  - intros q h k' v' [(_ & Hq & _)|[_ Hq]]%list_lookup_insert_Some; [done|by eapply Hk].
  - intros Hi q s h [(<- & <- & _)|[_ Hq]]%list_lookup_insert_Some Hs; [|by eapply Hh].
    simplify_eq/=. by eapply (Hh eq_refl p).
Qed.

Lemma settled_new : (3 ≤ e)%nat → settled t_new 3.
Proof.
  intros He3. constructor; [done|done| |].
  - by intros p h k v [? _]%lookup_replicate.
  - by intros _ p s h [-> _]%lookup_replicate.
Qed.

(** At capacity [2 ^ e] a key goes to the first slot of its sequence. *)
Lemma settled_first T k : table_ok T → settled T e → K k →
  ∃ flg, slot_for T k (home T k) (sequence T k) = Some (Z.to_nat (home T k), flg).
Proof.
  intros Hok Hset HK. unfold HashTable.sequence, probes.
  destruct (sequence_lookup T k 0 (Z.to_nat (home T k)) Hok eq_refl) as [s Hs].
  pose proof (home_range T k Hok). simpl. rewrite Hs.
  destruct s as [|h|h k' v'] eqn:Es; simpl; [eauto|..];
    pose proof (set_home _ _ Hset eq_refl _ _ h Hs eq_refl) as ->; rewrite Z2Nat.id, Z.eqb_refl by lia;
    [simpl; eauto|].
  assert (k = k') as <-; [|rewrite decide_True by done; simpl; eauto].
  apply Hinj; [done|by eapply (set_keys _ _ Hset)|].
  pose proof (ok_home _ _ Hok _ _ _ _ Hs) as Hhome. rewrite Z2Nat.id in Hhome by lia.
  unfold HashTable.home in Hhome. rewrite (set_len _ _ Hset), Nat2Z.inj_pow in Hhome. done.
Qed.

Lemma set_total fuel : ∀ T i k v, table_ok T → settled T i → K k → (e - i < fuel)%nat →
  ∃ T' i', t_set H fuel T k v = Some T' ∧ settled T' i' ∧ (i ≤ i')%nat.
Proof.
  induction fuel as [|fuel IH]; intros T i k v Hok Hset HK Hfuel; [lia|]. cbn [t_set].
  destruct (slot_for T k (home T k) (sequence T k)) as [[p flg]|] eqn:Hfor.
  { eexists _, i. split; [done|]. split; [|done]. eapply settled_insert; try done.
    intros ->. destruct (settled_first T k Hok Hset HK) as [flg' Hf].
    pose proof (home_range T k Hok). simplify_eq. lia. }
  assert (i < e)%nat as Hlt.
  { pose proof (set_le _ _ Hset). destruct (decide (i = e)) as [->|]; [|lia].
    destruct (settled_first T k Hok Hset HK) as [flg' Hf]. congruence. }
  rewrite (proj2 (Z.ltb_lt _ _)).
  2:{ rewrite (set_len _ _ Hset), Nat2Z.inj_pow. unfold sizeof_Map_node.
      assert (Z.of_nat 2 ^ Z.of_nat i ≤ 2 ^ 57) by (apply Z.pow_le_mono_r; lia). lia. }
  assert (∀ old T0 i0, table_ok T0 → settled T0 i0 → (i < i0)%nat →
    (∀ p h k v, old !! p = Some (Live h k v) → K k) →
    ∃ T1 i1, t_rehash (t_set H fuel) old T0 = Some T1 ∧ table_ok T1 ∧ settled T1 i1 ∧
      (i < i1)%nat) as Hall.
  { clear -IH Hfuel Hlt. induction old as [|s old IHold]; intros T0 i0 Hok0 Hset0 Hi0 Hk; [simpl; eauto 6|].
    pose proof (λ p, Hk (S p)) as Hk'. simpl in Hk'.
    destruct s as [|h|h k v]; simpl; [by eauto..|].
    destruct (IH T0 i0 k v Hok0 Hset0 (Hk 0%nat _ _ _ eq_refl) ltac:(lia)) as (T1 & i1 & HT1 & Hset1 & Hi1).
    rewrite HT1. simpl. apply (IHold _ i1); [by eapply set_ok|done|lia|done]. }
  pose proof (table_pos T Hok) as Hpos.
  destruct (Hall T (doubled T) (S i)) as (T1 & i1 & -> & Hok1 & Hset1 & Hi1).
  - unfold doubled. rewrite (set_len _ _ Hset), <-Nat.pow_succ_r'. apply empty_ok.
    destruct (ok_cap _ _ Hok) as (e' & He' & Hl). rewrite (set_len _ _ Hset) in Hl.
    apply Nat.pow_inj_r in Hl; lia.
  - unfold doubled. constructor; [|lia|by intros p h k' v' [? _]%lookup_replicate|].
    + by rewrite length_replicate, (set_len _ _ Hset), Nat.pow_succ_r'.
    + by intros _ p s h [-> _]%lookup_replicate.
  - lia.
  - apply Hset.
  - simpl. destruct (IH T1 i1 k v Hok1 Hset1 HK) as (T' & i' & ? & ? & ?); [lia|].
    exists T', i'. split; [done|]. split; [done|lia].
Qed.
End termination.
End hash_lemmas.

(** ** Two keys of one hash *)

Lemma delete_keys_in H P T k : keys_in P T → keys_in P (t_delete H T k).
Proof.
  intros HT. unfold t_delete. destruct (t_find H T k); [|done].
  intros q h k' v' [(_ & Hq & _)|[_ Hq]]%list_lookup_insert_Some; [done|by eapply HT].
Qed.

(** A slot that a probe passes may come several times. *)
Lemma slot_for_skip T k hv q s n ps : T !! q = Some s → t_probe k hv s = HAS_NEXT →
  slot_for T k hv (replicate n q ++ ps) = slot_for T k hv ps.
Proof. intros Hq Hs. induction n as [|n IH]; [done|]. simpl. by rewrite Hq, Hs. Qed.

Lemma search_skip T k hv q s n ps : T !! q = Some s → t_probe2 k hv s = CONTINUE →
  search T k hv (replicate n q ++ ps) = search T k hv ps.
Proof. intros Hq Hs. induction n as [|n IH]; [done|]. simpl. by rewrite Hq, Hs. Qed.

(** In a new table every hash has a second slot. *)
Lemma second_slot hv : 0 ≤ hv < 8 → ∃ n p ps, let q := Z.to_nat hv in
  probes 8 hv = replicate (S n) q ++ p :: ps ∧ p ≠ q ∧ (p < 8)%nat ∧ (q < 8)%nat.
Proof.
  intros Hhv.
  assert (hv = 0 ∨ hv = 1 ∨ hv = 2 ∨ hv = 3 ∨ hv = 4 ∨ hv = 5 ∨ hv = 6 ∨ hv = 7) as Hc by lia.
  repeat destruct Hc as [->|Hc]; [..|subst hv]; cbv zeta.
  all: match goal with |- context [probes 8 ?h] =>
    let l := eval vm_compute in (probes 8 h) in change (probes 8 h) with l end.
  all: first [ by (exists 0%nat; eexists _, _; split; [reflexivity|]; vm_compute; lia)
             | by (exists 1%nat; eexists _, _; split; [reflexivity|]; vm_compute; lia)
             | by (exists 2%nat; eexists _, _; split; [reflexivity|]; vm_compute; lia) ].
Qed.

(** Two keys of the same hash in a new table: the first is deleted, and the
    second set again. *)
Lemma same_home_table H k1 k2 v1 v2 v3 : k1 ≠ k2 → H k1 mod 8 = H k2 mod 8 →
  ∃ T1 T2 T3, t_set H 1 t_new k1 v1 = Some T1 ∧ t_set H 1 T1 k2 v2 = Some T2 ∧
    t_get H T2 k1 = Some v1 ∧ t_set H 1 (t_delete H T2 k1) k2 v3 = Some T3 ∧
    t_get H T3 k2 = Some v3 ∧ t_get H (t_delete H T3 k2) k2 = Some v2.
Proof.
  intros Hne Hh. set (hv := H k1 mod 8) in *.
  destruct (second_slot hv) as (n & p & ps & Hps & Hpq & Hp & Hq); [subst hv; apply Z.mod_pos_bound; lia|].
  set (q := Z.to_nat hv) in *.
  assert (∀ T, length T = 8%nat → home H T k1 = hv ∧ home H T k2 = hv ∧
    sequence H T k1 = replicate (S n) q ++ p :: ps ∧ sequence H T k2 = replicate (S n) q ++ p :: ps) as Hs.
  { intros T HT. unfold sequence, home. rewrite HT. change (Z.of_nat 8) with 8. rewrite <-Hh.
    fold hv. by rewrite Hps. }
  clearbody hv q. set (T1 := <[q := Live hv k1 v1]> t_new). set (T2 := <[p := Live hv k2 v2]> T1).
  set (T2' := <[q := Dead hv]> T2). set (T3 := <[q := Live hv k2 v3]> T2').
  assert (length T1 = 8%nat ∧ length T2 = 8%nat ∧ length T2' = 8%nat ∧ length T3 = 8%nat) as (L1 & L2 & L2' & L3)
    by (unfold T3, T2', T2, T1; rewrite !length_insert; done).
  assert (T1 !! q = Some (Live hv k1 v1)) as G1 by (by apply list_lookup_insert_eq).
  assert (T1 !! p = Some Empty) as G1p.
  { unfold T1. rewrite list_lookup_insert_ne by done. by apply lookup_replicate. }
  assert (T2 !! q = Some (Live hv k1 v1)) as G2 by (unfold T2; by rewrite list_lookup_insert_ne).
  assert (T2' !! q = Some (Dead hv)) as G2'
    by (unfold T2'; apply list_lookup_insert_eq; lia).
  assert (T3 !! q = Some (Live hv k2 v3)) as G3 by (unfold T3; apply list_lookup_insert_eq; lia).
  assert (∀ s, (<[q := s]> T3) !! p = Some (Live hv k2 v2)) as G4.
  { intros s. unfold T3, T2'. rewrite !list_lookup_insert_ne by done. apply list_lookup_insert_eq. lia. }
  assert (∀ (k : list Z), decide (k = k) = left eq_refl) as Hdec
    by (intros k; apply decide_True_pi).
  assert (t_set H 1 t_new k1 v1 = Some T1) as S1.
  { cbn [t_set]. destruct (Hs t_new eq_refl) as (-> & _ & -> & _). cbn [replicate app slot_for].
    unfold t_new. rewrite lookup_replicate_2 by exact Hq. done. }
  assert (t_set H 1 T1 k2 v2 = Some T2) as S2.
  { cbn [t_set]. destruct (Hs T1 L1) as (_ & -> & _ & ->).
    rewrite (slot_for_skip _ _ _ _ _ _ _ G1) by (simpl; by rewrite Z.eqb_refl, decide_False).
    cbn [slot_for]. by rewrite G1p. }
  assert (t_find H T2 k1 = Some q) as F2.
  { unfold t_find. destruct (Hs T2 L2) as (-> & _ & -> & _). cbn [replicate app search]. rewrite G2.
    simpl. by rewrite Z.eqb_refl, decide_True. }
  assert (t_set H 1 T2' k2 v3 = Some T3) as S3.
  { cbn [t_set]. destruct (Hs T2' L2') as (_ & -> & _ & ->). cbn [replicate app slot_for]. rewrite G2'.
    simpl. by rewrite Z.eqb_refl. }
  assert (t_find H T3 k2 = Some q) as F3.
  { unfold t_find. destruct (Hs T3 L3) as (_ & -> & _ & ->). cbn [replicate app search]. rewrite G3.
    simpl. by rewrite Z.eqb_refl, decide_True. }
  assert (t_find H (<[q := Dead hv]> T3) k2 = Some p) as F4.
  { unfold t_find. destruct (Hs (<[q := Dead hv]> T3)) as (_ & -> & _ & ->); [by rewrite length_insert|].
    rewrite (search_skip _ _ _ q (Dead hv)); [|apply list_lookup_insert_eq; lia|simpl; by rewrite Z.eqb_refl].
    cbn [search]. rewrite G4. simpl. by rewrite Z.eqb_refl, decide_True. }
  assert (t_delete H T2 k1 = T2') as D2.
  { unfold t_delete. rewrite F2. by destruct (Hs T2 L2) as (-> & _). }
  assert (t_delete H T3 k2 = <[q := Dead hv]> T3) as D3.
  { unfold t_delete. rewrite F3. by destruct (Hs T3 L3) as (_ & -> & _). }
  exists T1, T2, T3. rewrite D2, D3. unfold t_get. rewrite F2, F3, F4. cbn [mbind option_bind].
  rewrite G2, G3, G4. done.
Qed.
