(* ===== verification/HashmapProofs.v ===== *)
(** hashmap.c implements the tables of HashTable.v: [owns h mp T R] says that
    in heap [h] the pointer [mp] owns a map whose nodes are the slots of [T],
    and that [R] is the rest of the heap; every function of the file is
    specified by what it does to [T], and leaves [R] alone.  The properties
    of the map follow from those of the tables. *)
From S2P Require Import Prelude Mem Hashmap HashTable.
#[local] Open Scope Z_scope.

Abbreviation hblocks := (gmap positive (list (option obj))).

(** ** Representation *)

Definition cells (k : list Z) : list (option obj) := (Some ∘ OByte) <$> k.
Definition node_cells (nds : list Map_node) : list (option obj) := (Some ∘ ONode) <$> nds.

(** The pointer [p] to memory in [R] that starts with the bytes [k]. *)
Definition holds (R : hblocks) (p : ptr) (k : list Z) : Prop :=
  ∃ b l, p = Ptr b 0 ∧ R !! b = Some l ∧ cells k `prefix_of` l.

(** A node and the block of its key. *)
Definition node_rep (nd : Map_node) (s : slot) (K : hblocks) : Prop :=
  match s with
  | Empty => status nd = NODE_EMPTY ∧ K = ∅
  | Dead h => status nd = NODE_DELETED ∧ node_hash nd = h ∧ K = ∅
  | Live h k v => ∃ b, nd = mkNode (Ptr b 0) (Z.of_nat (length k)) v h NODE_OCCUPIED ∧
                       K = {[b := cells k]}
  end.

Inductive nodes_rep : list Map_node → table → hblocks → Prop :=
  | nodes_nil : nodes_rep [] [] ∅
  | nodes_cons nd s Ks nds T K :
      node_rep nd s Ks → nodes_rep nds T K → Ks ##ₘ K →
      nodes_rep (nd :: nds) (s :: T) (Ks ∪ K).

(** The struct of the map at block [mb], its nodes at [ab], their keys [K]. *)
Record owned (h : heap obj) (mb ab : positive) (nds : list Map_node) (T : table)
    (K R : hblocks) : Prop := {
  own_heap : heap_ok h;
  own_nodes : nodes_rep nds T K;
  own_blocks : blocks h =
    <[mb := [Some (OMap (mkMap (Z.of_nat (length T)) (Ptr ab 0) (Z.of_nat (length (lives T)))))]]>
      (<[ab := node_cells nds]> (K ∪ R));
  own_disjoint : K ##ₘ R;
  own_ne : mb ≠ ab;
  own_mb : (K ∪ R) !! mb = None;
  own_ab : (K ∪ R) !! ab = None
}.

Definition owns (h : heap obj) (mp : ptr) (T : table) (R : hblocks) : Prop :=
  ∃ mb ab nds K, mp = Ptr mb 0 ∧ owned h mb ab nds T K R.

(** What the hash function of a map computes: a function of the bytes of the
    key, which it reads in the heap, for the keys it accepts. *)
Class HashSpec (hash : ptr → comp (heap obj) Z) (H : list Z → Z) (valid : list Z → Prop) : Prop :=
  hash_spec : ∀ h b l k, blocks h !! b = Some l → cells k `prefix_of` l → valid k →
    hash (Ptr b 0) h = Ok (H k, h).

(** ** Nodes *)

Lemma nodes_length nds T K : nodes_rep nds T K → length nds = length T.
Proof. induction 1; simpl; lia. Qed.

(** Takes a node and its key out, to be replaced. *)
Lemma nodes_focus nds T K i s : nodes_rep nds T K → T !! i = Some s →
  ∃ nd Ks K', nds !! i = Some nd ∧ node_rep nd s Ks ∧ K = Ks ∪ K' ∧ Ks ##ₘ K' ∧
    ∀ nd' s' Ks', node_rep nd' s' Ks' → Ks' ##ₘ K' →
      nodes_rep (<[i := nd']> nds) (<[i := s']> T) (Ks' ∪ K').
Proof.
  intros Hn. revert i. induction Hn as [|nd s0 Ks nds T K Hnd Hn IH Hd]; intros [|i] Hi; [done..| |].
  - simplify_eq/=. exists nd, Ks, K. split_and!; try done.
    intros nd' s' Ks' Hr Hd'. by constructor.
  - simpl in Hi. destruct (IH i Hi) as (nd1 & K1 & K2 & ? & ? & -> & Hd12 & Hput).
    apply map_disjoint_union_r in Hd as [Hd1 Hd2].
    exists nd1, K1, (Ks ∪ K2). split_and!; try done.
    + by rewrite !(assoc_L (∪)), (map_union_comm Ks K1).
    + apply map_disjoint_union_r. by split; [apply map_disjoint_sym|].
    + intros nd' s' Ks' Hr [Hd1' Hd2']%map_disjoint_union_r. simpl.
      rewrite (assoc_L (∪)), (map_union_comm Ks'), <-(assoc_L (∪)) by done.
      constructor; [done|by apply Hput|]. apply map_disjoint_union_r.
      by split; [apply map_disjoint_sym|].
Qed.

Lemma nodes_empty n : nodes_rep (replicate n (mkNode Null 0 Null 0 0)) (replicate n Empty) ∅.
Proof.
  induction n as [|n IH]; [constructor|]. simpl. rewrite <-(left_id_L ∅ (∪) ∅).
  constructor; [done|done|apply map_disjoint_empty_l].
Qed.

(** ** Reading a map *)

Section owned.
Context (h : heap obj) (mb ab : positive) (nds : list Map_node) (T : table) (K R : hblocks).
Hypothesis Hown : owned h mb ab nds T K R.

Lemma own_map : blocks h !! mb =
  Some [Some (OMap (mkMap (Z.of_nat (length T)) (Ptr ab 0) (Z.of_nat (length (lives T)))))].
Proof. by rewrite (own_blocks _ _ _ _ _ _ _ Hown), lookup_insert_eq. Qed.

Lemma own_arr : blocks h !! ab = Some (node_cells nds).
Proof.
  pose proof (own_ne _ _ _ _ _ _ _ Hown).
  by rewrite (own_blocks _ _ _ _ _ _ _ Hown), lookup_insert_ne, lookup_insert_eq.
Qed.

Lemma own_rest b l : (K ∪ R) !! b = Some l → blocks h !! b = Some l.
Proof.
  intros Hb. pose proof (own_mb _ _ _ _ _ _ _ Hown). pose proof (own_ab _ _ _ _ _ _ _ Hown).
  rewrite (own_blocks _ _ _ _ _ _ _ Hown), !lookup_insert_ne; congruence.
Qed.

Lemma own_frame b l : R !! b = Some l → blocks h !! b = Some l.
Proof.
  intros Hb. apply own_rest, lookup_union_Some_r, Hb. apply Hown.
Qed.

Lemma own_key b l : K !! b = Some l → blocks h !! b = Some l.
Proof. intros Hb. by apply own_rest, lookup_union_Some_l. Qed.

Lemma wp_load_map (Q : Hashmap → heap obj → Prop) :
  Q (mkMap (Z.of_nat (length T)) (Ptr ab 0) (Z.of_nat (length (lives T)))) h →
  wp (load_map (Ptr mb 0)) h Q.
Proof.
  intros HQ. unfold load_map. apply wp_bind.
  eapply wp_load; [exact own_map|lia|reflexivity|done].
Qed.

Lemma wp_load_node i nd (Q : Map_node → heap obj → Prop) :
  nds !! i = Some nd → Q nd h → wp (load_node (ptr_add (Ptr ab 0) (Z.of_nat i))) h Q.
Proof.
  intros Hi HQ. unfold load_node. apply wp_bind. simpl. rewrite Z.add_0_l.
  eapply (wp_load _ _ _ _ (ONode nd)); [exact own_arr|lia| |exact HQ].
  unfold node_cells. by rewrite Nat2Z.id, list_lookup_fmap, Hi.
Qed.
End owned.

(** [memcmp] of two runs of bytes tells whether they are equal. *)
Lemma wp_memcmp h b1 b2 l1 l2 : blocks h !! b1 = Some l1 → blocks h !! b2 = Some l2 →
  ∀ (k1 k2 : list Z) (i j : nat), length k1 = length k2 →
  cells k1 `prefix_of` drop i l1 → cells k2 `prefix_of` drop j l2 →
  wp (memcmp (length k1) (Ptr b1 (Z.of_nat i)) (Ptr b2 (Z.of_nat j))) h
    (λ c h', h' = h ∧ (c = 0 ↔ k1 = k2)).
Proof.
  intros H1 H2. induction k1 as [|c1 k1 IH]; intros [|c2 k2] i j Hlen Hp1 Hp2; try done.
  assert (∀ (b : positive) l (n : nat) c k (Q : Z → heap obj → Prop), blocks h !! b = Some l →
    cells (c :: k) `prefix_of` drop n l → Q c h →
    wp (load_byte (Ptr b (Z.of_nat n))) h Q) as Hload.
  { intros b l n c k Q Hb [r Hr] HQ. unfold load_byte. apply wp_bind.
    eapply (wp_load _ _ _ _ (OByte c)); [exact Hb|lia| |exact HQ].
    by rewrite Nat2Z.id, <-(Nat.add_0_r n), <-lookup_drop, Hr. }
  assert (∀ (l : list (option obj)) (n : nat) c k, cells (c :: k) `prefix_of` drop n l →
    cells k `prefix_of` drop (S n) l) as Htl.
  { intros l n c k [r Hr]. exists r. rewrite <-Nat.add_1_r, <-drop_drop, Hr. done. }
  cbn [memcmp length]. apply wp_bind. eapply Hload; [exact H1|exact Hp1|].
  apply wp_bind. eapply Hload; [exact H2|exact Hp2|].
  destruct (Z.eqb_spec c1 c2) as [<-|Hne].
  - simpl. rewrite !Z.add_1_r, <-!Nat2Z.inj_succ.
    eapply wp_mono; [apply (IH k2 (S i) (S j)); eauto|].
    intros c h' [-> Hc]. split; [done|]. rewrite Hc. split; congruence.
  - apply wp_ret. split; [done|]. split; [lia|congruence].
Qed.

Section keys.
Context (h : heap obj) (mb ab : positive) (nds : list Map_node) (T : table) (K R : hblocks).
Context (p : ptr) (k : list Z).
Hypothesis Hown : owned h mb ab nds T K R.
Hypothesis Hkey : holds R p k.

Lemma wp_key_cmp b k' : K !! b = Some (cells k') → length k = length k' →
  wp (memcmp (Z.to_nat (Z.of_nat (length k))) p (Ptr b 0)) h (λ c h', h' = h ∧ (c = 0 ↔ k = k')).
Proof.
  intros Hb Hlen. destruct Hkey as (b' & l & -> & Hb' & Hl). rewrite Nat2Z.id.
  apply (wp_memcmp h b' b l (cells k') (own_frame _ _ _ _ _ _ _ Hown _ _ Hb')
    (own_key _ _ _ _ _ _ _ Hown _ _ Hb) k k' 0 0); [done|by rewrite drop_0|by rewrite drop_0].
Qed.

Lemma wp_probing i s hv : T !! i = Some s →
  wp (probing (Ptr mb 0) p (Z.of_nat (length k)) (Z.of_nat i) hv) h
    (λ f h', h' = h ∧ f = t_probe k hv s).
Proof.
  intros Hi. destruct (nodes_focus _ _ _ _ _ (own_nodes _ _ _ _ _ _ _ Hown) Hi)
    as (nd & Ks & K' & Hnd & Hr & HK & _).
  unfold probing. apply wp_bind, (wp_load_map _ _ _ _ _ _ _ Hown), wp_bind.
  eapply wp_load_node; [done..|].
  destruct s as [|h0|h0 k' v']; simpl in Hr.
  - destruct Hr as [-> _]. by apply wp_ret.
  - destruct Hr as (-> & -> & _). simpl. destruct (hv =? h0); by apply wp_ret.
  - destruct Hr as (b & -> & ->). simpl.
    destruct (hv =? h0); [|by apply wp_ret].
    destruct (Z.eqb_spec (Z.of_nat (length k)) (Z.of_nat (length k'))) as [Hlen|Hlen].
    + apply wp_bind. eapply wp_mono; [apply (wp_key_cmp b k'); [|lia]|].
      { rewrite HK. by apply lookup_union_Some_l, lookup_singleton_Some. }
      intros c h' [-> Hc]. apply wp_ret. split; [done|].
      destruct (Z.eqb_spec c 0); [rewrite decide_True|rewrite decide_False]; tauto.
    + apply wp_ret. split; [done|]. rewrite decide_False; [done|]. by intros ->.
Qed.

Lemma wp_probing2 i s hv : T !! i = Some s →
  wp (probing2 (Ptr mb 0) p (Z.of_nat (length k)) (Z.of_nat i) hv) h
    (λ f h', h' = h ∧ f = t_probe2 k hv s).
Proof.
  intros Hi. destruct (nodes_focus _ _ _ _ _ (own_nodes _ _ _ _ _ _ _ Hown) Hi)
    as (nd & Ks & K' & Hnd & Hr & HK & _).
  unfold probing2. apply wp_bind, (wp_load_map _ _ _ _ _ _ _ Hown), wp_bind.
  eapply wp_load_node; [done..|].
  destruct s as [|h0|h0 k' v']; simpl in Hr.
  - destruct Hr as [-> _]. by apply wp_ret.
  - destruct Hr as (-> & -> & _). simpl. destruct (hv =? h0); by apply wp_ret.
  - destruct Hr as (b & -> & ->). simpl.
    destruct (hv =? h0); simpl; [|by apply wp_ret].
    destruct (Z.eqb_spec (Z.of_nat (length k)) (Z.of_nat (length k'))) as [Hlen|Hlen]; simpl.
    + apply wp_bind. eapply wp_mono; [apply (wp_key_cmp b k'); [|lia]|].
      { rewrite HK. by apply lookup_union_Some_l, lookup_singleton_Some. }
      intros c h' [-> Hc]. apply wp_ret. split; [done|].
      destruct (Z.eqb_spec c 0); [rewrite decide_True|rewrite decide_False]; tauto.
    + apply wp_ret. split; [done|]. rewrite decide_False; [done|]. by intros ->.
Qed.
End keys.

(** ** Writing a node *)

(** The map while the node at some index is being written: the keys left are
    [K'], and the nodes are those before. *)
Definition opened (h : heap obj) (m : Hashmap) (mb ab : positive) (nds : list Map_node)
    (F : hblocks) : Prop :=
  heap_ok h ∧ blocks h = <[mb := [Some (OMap m)]]> (<[ab := node_cells nds]> F) ∧
  mb ≠ ab ∧ F !! mb = None ∧ F !! ab = None.

Lemma opened_F h m mb ab nds F b l : opened h m mb ab nds F → F !! b = Some l →
  blocks h !! b = Some l.
Proof. intros (_ & -> & _ & ? & ?) Hb. rewrite !lookup_insert_ne; congruence. Qed.

Lemma wp_load_node_opened h m mb ab nds F i nd (Q : Map_node → heap obj → Prop) :
  opened h m mb ab nds F → nds !! i = Some nd → Q nd h →
  wp (load_node (ptr_add (Ptr ab 0) (Z.of_nat i))) h Q.
Proof.
  intros (_ & Hb & Hne & _) Hnd HQ. unfold load_node. apply wp_bind. simpl. rewrite Z.add_0_l.
  eapply (wp_load _ _ _ (node_cells nds) (ONode nd));
    [by rewrite Hb, lookup_insert_ne, lookup_insert_eq|lia| |exact HQ].
  unfold node_cells. by rewrite Nat2Z.id, list_lookup_fmap, Hnd.
Qed.

Lemma wp_store_node h m mb ab nds F i nd : opened h m mb ab nds F → (i < length nds)%nat →
  wp (store (ptr_add (Ptr ab 0) (Z.of_nat i)) (ONode nd)) h
    (λ _ h', opened h' m mb ab (<[i := nd]> nds) F).
Proof.
  intros (Hok & Hb & Hne & Hmb & Hab) Hi. simpl. rewrite Z.add_0_l.
  assert (blocks h !! ab = Some (node_cells nds)) as Hab'
    by by rewrite Hb, lookup_insert_ne, lookup_insert_eq.
  eapply wp_store; [exact Hab'|unfold node_cells; rewrite length_fmap; lia|].
  split_and!; try done.
  - apply heap_ok_insert; [done|]. rewrite Hab'. eauto.
  - simpl. rewrite Hb, Nat2Z.id. unfold node_cells. rewrite list_fmap_insert.
    by rewrite (insert_insert_ne _ ab mb), insert_insert_eq.
Qed.

(** Frees a block that is not of the map. *)
Lemma wp_free_opened h m mb ab nds F b l : opened h m mb ab nds F → F !! b = Some l →
  wp (free (Ptr b 0)) h (λ _ h', opened h' m mb ab nds (delete b F)).
Proof.
  intros Hop Hl. eapply wp_free; [by eapply opened_F|].
  destruct Hop as (Hok & Hb & Hne & Hmb & Hab).
  assert (b ≠ mb ∧ b ≠ ab) as [? ?] by (split; intros ->; congruence).
  split_and!; [by apply heap_ok_delete| |done|by rewrite lookup_delete_ne..].
  simpl. by rewrite Hb, !delete_insert_ne.
Qed.

Lemma wp_alloc_opened h m mb ab nds F c (Q : ptr → heap obj → Prop) :
  opened h m mb ab nds F →
  (∀ b h', F !! b = None → opened h' m mb ab nds (<[b := c]> F) → Q (Ptr b 0) h') →
  wp (alloc c) h Q.
Proof.
  intros (Hok & Hb & Hne & Hmb & Hab) HQ. apply wp_alloc; [done|].
  intros b h' _ Hnone Hb' Hok'. rewrite Hb in Hnone.
  apply lookup_insert_None in Hnone as [[??]%lookup_insert_None ?].
  apply HQ; [done|]. split_and!; [done| |done|by rewrite lookup_insert_ne..].
  by rewrite Hb', Hb, (insert_insert_ne _ b mb), (insert_insert_ne _ b ab).
Qed.

(** Copies a key into a new block of its length. *)
Lemma wp_memcpy_opened h m mb ab nds F b p k :
  opened h m mb ab nds (<[b := replicate (length k) None]> F) → F !! b = None → holds F p k →
  wp (memcpy (Ptr b 0) p (Z.of_nat (length k))) h
    (λ _ h', opened h' m mb ab nds (<[b := cells k]> F)).
Proof.
  intros Hop HbF (b' & l & -> & Hl & [r Hpre]).
  assert (b ≠ b') as Hne by congruence.
  assert (blocks h !! b = Some (replicate (length k) None)) as Hb
    by (eapply opened_F; [done|by rewrite lookup_insert_eq]).
  eapply (wp_memcpy _ b 0 b' 0 _ _ l).
  { exact Hb. }
  { eapply opened_F; [done|by rewrite lookup_insert_ne]. }
  { done. } { lia. } { lia. } { rewrite length_replicate. lia. } { lia. }
  { rewrite Hpre, length_app. unfold cells. rewrite length_fmap. lia. }
  destruct Hop as (Hok & Hbl & Hmab & Hmb & Hab).
  apply lookup_insert_None in Hmb as [??], Hab as [??].
  split_and!; [|simpl|done|by rewrite lookup_insert_ne..].
  - apply heap_ok_insert; [done|]. eauto.
  - change (Z.to_nat 0) with 0%nat. rewrite Nat2Z.id, Hpre, drop_0, take_app_le, take_ge, drop_ge,
      app_nil_r by (unfold cells; rewrite ?length_replicate, ?length_fmap; lia).
    by rewrite Hbl, (insert_insert_ne _ b mb), (insert_insert_ne _ b ab), insert_insert_eq.
Qed.

(** The key of a node is freed if it has one. *)
Lemma wp_free_key h m mb ab nds Ks F nd s :
  opened h m mb ab nds (Ks ∪ F) → node_rep nd s Ks → Ks ##ₘ F →
  wp (if status nd =? NODE_OCCUPIED then free (key nd) else mret tt) h
    (λ _ h', opened h' m mb ab nds F).
Proof.
  intros Hop Hr Hd. destruct s as [|h0|h0 k0 v0]; simpl in Hr.
  - destruct Hr as [-> ->]. apply wp_ret. by rewrite (left_id_L ∅ (∪)) in Hop.
  - destruct Hr as (-> & _ & ->). apply wp_ret. by rewrite (left_id_L ∅ (∪)) in Hop.
  - destruct Hr as (b & -> & ->). simpl. rewrite <-insert_union_singleton_l in Hop.
    apply map_disjoint_singleton_l in Hd. eapply wp_mono.
    { eapply wp_free_opened; [done|by rewrite lookup_insert_eq]. }
    intros ? h'. simpl. by rewrite delete_insert_id.
Qed.

Lemma wp_node_set h m mb ab nds Ks F p k i nd s v hv :
  opened h m mb ab nds (Ks ∪ F) → nds !! i = Some nd → node_rep nd s Ks → Ks ##ₘ F →
  holds F p k →
  wp (node_set (ptr_add (Ptr ab 0) (Z.of_nat i)) p (Z.of_nat (length k)) v hv) h (λ _ h',
    ∃ b, F !! b = None ∧
      opened h' m mb ab (<[i := mkNode (Ptr b 0) (Z.of_nat (length k)) v hv NODE_OCCUPIED]> nds)
        (<[b := cells k]> F)).
Proof.
  intros Hop Hnd Hr Hd Hk. unfold node_set.
  apply wp_bind. eapply wp_load_node_opened; [done..|].
  apply wp_bind. eapply wp_mono; [by eapply wp_free_key|]. intros ? h1 Hop1. simpl in Hop1.
  apply wp_bind. unfold malloc. rewrite Z.div_1_r, Nat2Z.id.
  eapply wp_alloc_opened; [done|]. intros b h2 Hb Hop2.
  apply wp_bind. eapply wp_mono; [by eapply wp_memcpy_opened|]. intros ? h3 Hop3. simpl in Hop3.
  eapply wp_mono; [eapply wp_store_node; [done|by eapply lookup_lt_Some]|].
  intros ? h4 Hop4. by exists b.
Qed.

(** ** Storing at a position *)

Abbreviation map_of T ab := (mkMap (Z.of_nat (length T)) (Ptr ab 0) (Z.of_nat (length (lives T)))).

Lemma owned_opened h mb ab nds T K R : owned h mb ab nds T K R ↔
  opened h (map_of T ab) mb ab nds (K ∪ R) ∧ nodes_rep nds T K ∧ K ##ₘ R.
Proof.
  split.
  - intros []. unfold opened. split_and!; done.
  - intros ((? & ? & ? & ? & ?) & ? & ?). by constructor.
Qed.

Lemma wp_store_map h m m' mb ab nds F : opened h m mb ab nds F →
  wp (store (Ptr mb 0) (OMap m')) h (λ _ h', opened h' m' mb ab nds F).
Proof.
  intros (Hok & Hb & Hne & Hmb & Hab).
  eapply (wp_store _ _ _ [Some (OMap m)]); [by rewrite Hb, lookup_insert_eq|simpl; lia|].
  split_and!; try done.
  - apply heap_ok_insert; [done|]. rewrite Hb, lookup_insert_eq. eauto.
  - simpl. by rewrite Hb, insert_insert_eq.
Qed.

Lemma wp_load_map_opened h m mb ab nds F (Q : Hashmap → heap obj → Prop) :
  opened h m mb ab nds F → Q m h → wp (load_map (Ptr mb 0)) h Q.
Proof.
  intros (Hok & Hb & _) HQ. unfold load_map. apply wp_bind.
  eapply (wp_load _ _ _ [Some (OMap m)] (OMap m)); [by rewrite Hb, lookup_insert_eq|lia|done|done].
Qed.

Lemma wp_put_node h mp T R p k v hv i s flg :
  owns h mp T R → holds R p k → T !! i = Some s → Z.of_nat (length T) < 2 ^ 63 →
  (flg = FOUND ∧ live s = None) ∨ (flg = REPLACE ∧ is_Some (live s)) →
  wp (put_node mp p (Z.of_nat (length k)) v hv (Z.of_nat i) flg) h
    (λ _ h', owns h' mp (<[i := Live hv k v]> T) R).
Proof.
  intros (mb & ab & nds & K & -> & Hown) Hk Hi Hlen Hflg.
  apply owned_opened in Hown as (Hop & Hn & Hd).
  destruct (nodes_focus _ _ _ _ _ Hn Hi) as (nd & Ks & K' & Hnd & Hr & -> & Hdk & Hput).
  apply map_disjoint_union_l in Hd as [Hd1 Hd2]. rewrite <-(assoc_L (∪)) in Hop.
  unfold put_node. apply wp_bind. eapply wp_load_map_opened; [done|].
  apply wp_bind. eapply wp_mono; [eapply wp_node_set; [done..| |]|].
  { by apply map_disjoint_union_r. }
  { destruct Hk as (b & l & -> & Hb & Hpre). exists b, l. split_and!; [done| |done].
    by apply lookup_union_Some_r. }
  intros _ h1 (b & [HbK HbR]%lookup_union_None & Hop1).
  assert ({[b := cells k]} ##ₘ K') as Hdb by by apply map_disjoint_singleton_l_2.
  pose proof (Hput (mkNode (Ptr b 0) (Z.of_nat (length k)) v hv NODE_OCCUPIED) (Live hv k v)
    {[b := cells k]} (ex_intro _ b (conj eq_refl eq_refl)) Hdb) as Hn1.
  rewrite insert_union_l, insert_union_singleton_l in Hop1.
  pose proof (lives_length_insert T i s (Live hv k v) Hi) as Hcount. simpl in Hcount.
  assert (∀ h2 c, c = Z.of_nat (length (lives (<[i := Live hv k v]> T))) →
    opened h2 (mkMap (Z.of_nat (length T)) (Ptr ab 0) c) mb ab
      (<[i := mkNode (Ptr b 0) (Z.of_nat (length k)) v hv NODE_OCCUPIED]> nds)
      (({[b := cells k]} ∪ K') ∪ R) →
    owns h2 (Ptr mb 0) (<[i := Live hv k v]> T) R) as Hdone.
  { intros h2 c -> Hop2. exists mb, ab. eexists _, _. split; [done|]. apply owned_opened.
    rewrite length_insert. split_and!; [exact Hop2|done|].
    apply map_disjoint_union_l. split; [by apply map_disjoint_singleton_l_2|done]. }
  destruct Hflg as [[-> Hs]|[-> [x Hs]]]; rewrite Hs in Hcount; simpl in Hcount; simpl.
  - apply wp_bind. eapply wp_load_map_opened; [done|].
    eapply wp_mono; [exact (wp_store_map _ _ _ _ _ _ _ Hop1)|]. intros ? h2 Hop2. simpl in Hop2.
    eapply Hdone; [|exact Hop2]. pose proof (lives_length_le T). rewrite u64_small; lia.
  - apply wp_ret. eapply Hdone; [|exact Hop1]. lia.
Qed.

(** ** The probe loops *)

Lemma t_probe_store k hv s : FOUND ≤ t_probe k hv s →
  (t_probe k hv s = FOUND ∧ live s = None) ∨ (t_probe k hv s = REPLACE ∧ is_Some (live s)).
Proof.
  unfold FOUND, REPLACE, HAS_NEXT, NEED_RESIZE.
  destruct s as [|h|h k' v']; simpl; intros Hf; [by left|..]; destruct (hv =? h);
    try (unfold NEED_RESIZE in Hf; lia); [by left|].
  destruct (decide (k = k')); [|unfold HAS_NEXT in Hf; lia]. right. split; [done|eauto].
Qed.

#[local] Opaque next_power_of_2.

Section loops.
Context (T : table) (k : list Z) (hv : Z).
#[local] Abbreviation cap := (Z.of_nat (length T)).
#[local] Abbreviation n := (next_power_of_2 cap).
Hypothesis Hn : 0 < n < 2 ^ 63.
Hypothesis Hcap : cap < 2 ^ 63.

Lemma probes_from_end i : n < i → probes_from cap hv i = [].
Proof. intros Hi. unfold probes_from. by rewrite seqZ_nil by lia. Qed.

Lemma probes_from_step i : i ≤ n → probes_from cap hv i =
  (if cap <=? probe_pos hv i n then [] else [Z.to_nat (probe_pos hv i n)])
  ++ probes_from cap hv (i + 1).
Proof.
  intros Hi. unfold probes_from. rewrite (seqZ_cons i) by lia. simpl.
  replace (Z.succ i) with (i + 1) by lia.
  replace (Z.pred (n + 1 - i)) with (n + 1 - (i + 1)) by lia.
  rewrite filter_cons.
  destruct (Z.leb_spec cap (probe_pos hv i n)); [by rewrite decide_False by lia|].
  by rewrite decide_True by lia.
Qed.

Lemma probe_pos_nonneg i : 0 ≤ probe_pos hv i n.
Proof. unfold probe_pos. destruct Hn as [Hpos _]. by apply Z.mod_pos_bound. Qed.

Context (h : heap obj) (mb ab : positive) (nds : list Map_node) (K R : hblocks) (p : ptr).
Hypothesis Ho : owned h mb ab nds T K R.
Hypothesis Hk : holds R p k.

Lemma wp_set_loop v fuel : ∀ i, 0 < i → (Z.to_nat (n + 1 - i) + 1 < fuel)%nat →
  wp (loop fuel (set_step (Ptr mb 0) p (Z.of_nat (length k)) v hv n) (i, HAS_NEXT)) h (λ r h',
    match slot_for T k hv (probes_from cap hv i) with
    | Some (q, _) => r = true ∧ owns h' (Ptr mb 0) (<[q := Live hv k v]> T) R
    | None => r = false ∧ h' = h
    end).
Proof.
  induction fuel as [|fuel IH]; intros i Hi Hfuel; [lia|].
  cbn [loop]. apply wp_bind. unfold set_step at 1; cbn beta iota. destruct (Z.leb_spec i n) as [Hle|Hgt]; simpl.
  2:{ rewrite probes_from_end by done. apply wp_ret; simpl. apply wp_ret. by split. }
  pose proof (probe_pos_nonneg i) as Hpos. rewrite (probes_from_step i) by done.
  apply wp_bind, (wp_load_map _ _ _ _ _ _ _ Ho). simpl.
  destruct (Z.leb_spec cap (probe_pos hv i n)) as [Hout|Hin].
  { apply wp_ret. apply IH; [lia|lia]. }
  destruct (lookup_lt_is_Some_2 T (Z.to_nat (probe_pos hv i n))) as [s Hs]; [lia|].
  apply wp_bind. rewrite <-(Z2Nat.id (probe_pos hv i n)) at 1 by done.
  eapply wp_mono; [by eapply wp_probing|]. intros f h' [-> ->]. simpl. rewrite Hs.
  destruct (Z.leb_spec FOUND (t_probe k hv s)) as [Hf|Hf].
  - apply wp_bind. rewrite <-(Z2Nat.id (probe_pos hv i n)) at 1 by done.
    eapply wp_mono; [eapply wp_put_node; [by eexists _, _, _, _|done|done|lia|by apply t_probe_store]|].
    intros ? h' Hown'. apply wp_ret, wp_ret. done.
  - apply wp_ret. destruct (Z.eqb_spec (t_probe k hv s) HAS_NEXT) as [->|Hne].
    + apply IH; lia.
    + destruct fuel as [|fuel]; [lia|]. cbn [loop]. apply wp_bind. unfold set_step at 1; cbn beta iota.
      rewrite (proj2 (Z.eqb_neq _ HAS_NEXT)), andb_false_r by done.
      apply wp_ret; simpl. apply wp_ret. by split.
Qed.

(** The loop of [find], on the position of the key. *)
Lemma wp_find_loop act fuel Q : ∀ i, 0 < i → (Z.to_nat (n + 1 - i) + 1 < fuel)%nat →
  match search T k hv (probes_from cap hv i) with
  | Some q => wp (act (ptr_add (Ptr ab 0) (Z.of_nat q))) h Q
  | None => Q Null h
  end →
  wp (loop fuel (find_step act (Ptr mb 0) p (Z.of_nat (length k)) hv n) (i, CONTINUE)) h Q.
Proof.
  induction fuel as [|fuel IH]; intros i Hi Hfuel HQ; [lia|].
  cbn [loop]. apply wp_bind. unfold find_step at 1; cbn beta iota. destruct (Z.leb_spec i n) as [Hle|Hgt]; simpl.
  2:{ rewrite probes_from_end in HQ by done. apply wp_ret; simpl. by apply wp_ret. }
  pose proof (probe_pos_nonneg i) as Hpos. rewrite (probes_from_step i) in HQ by done.
  apply wp_bind, (wp_load_map _ _ _ _ _ _ _ Ho). simpl.
  destruct (Z.leb_spec cap (probe_pos hv i n)) as [Hout|Hin].
  { apply wp_ret. apply IH; [lia|lia|done]. }
  destruct (lookup_lt_is_Some_2 T (Z.to_nat (probe_pos hv i n))) as [s Hs]; [lia|].
  simpl in HQ. rewrite Hs in HQ.
  apply wp_bind. rewrite <-(Z2Nat.id (probe_pos hv i n)) at 1 by done.
  eapply wp_mono; [by eapply wp_probing2|]. intros f h' [-> ->].
  destruct (Z.eqb_spec (t_probe2 k hv s) FOUND) as [Hf|Hf].
  - apply wp_bind, (wp_load_map _ _ _ _ _ _ _ Ho), wp_bind.
    rewrite Z2Nat.id in HQ by done. eapply wp_mono; [exact HQ|].
    intros r h' Hr. by apply wp_ret, wp_ret.
  - apply wp_ret. destruct (Z.eqb_spec (t_probe2 k hv s) CONTINUE) as [->|Hne].
    + apply IH; [lia|lia|done].
    + destruct fuel as [|fuel]; [lia|]. cbn [loop]. apply wp_bind. unfold find_step at 1; cbn beta iota.
      rewrite (proj2 (Z.eqb_neq _ CONTINUE)), andb_false_r by done.
      apply wp_ret; simpl. by apply wp_ret.
Qed.
End loops.

(** ** Insertion *)

Lemma owns_lookup h mp T F b l : owns h mp T F → F !! b = Some l → blocks h !! b = Some l.
Proof. intros (mb & ab & nds & K & _ & Ho) Hb. by eapply own_frame. Qed.

(** Freeing a block that is not of the map. *)
Lemma wp_free_frame h mp T F b l : owns h mp T F → F !! b = Some l →
  wp (free (Ptr b 0)) h (λ _ h', owns h' mp T (delete b F)).
Proof.
  intros (mb & ab & nds & K & -> & (Hop & Hn & Hd)%owned_opened) Hb.
  pose proof (map_disjoint_Some_r _ _ _ _ Hd Hb) as HbK.
  eapply wp_mono; [eapply wp_free_opened; [done|by apply lookup_union_Some_r]|].
  intros ? h' Hop'. simpl in Hop'. exists mb, ab, nds, K. split; [done|]. apply owned_opened.
  rewrite delete_union, (delete_id K) in Hop' by done.
  split_and!; [done|done|by apply map_disjoint_delete_r].
Qed.

Lemma wp_load_frame_node h mp T F b nds i nd (Q : Map_node → heap obj → Prop) :
  owns h mp T F → F !! b = Some (node_cells nds) → nds !! i = Some nd → Q nd h →
  wp (load_node (ptr_add (Ptr b 0) (Z.of_nat i))) h Q.
Proof.
  intros Ho Hb Hi HQ. unfold load_node. apply wp_bind. simpl. rewrite Z.add_0_l.
  eapply (wp_load _ _ _ (node_cells nds) (ONode nd)); [by eapply owns_lookup|lia| |exact HQ].
  unfold node_cells. by rewrite Nat2Z.id, list_lookup_fmap, Hi.
Qed.

(** A new, empty array of twice the capacity takes the place of the old one. *)
Lemma wp_double h mb ab nds T K R : owned h mb ab nds T K R →
  2 * Z.of_nat (length T) * sizeof_Map_node < 2 ^ 64 →
  wp (let cap' := u64 (Z.shiftl (Z.of_nat (length T)) 1) in
      a ← calloc zero_node cap' sizeof_Map_node;
      store (Ptr mb 0) (OMap (mkMap cap' a 0))) h
    (λ _ h', owns h' (Ptr mb 0) (doubled T) (<[ab := node_cells nds]> (K ∪ R))).
Proof.
  intros Ho Hsz. unfold sizeof_Map_node in *. rewrite Z.shiftl_mul_pow2 by lia.
  change (2 ^ 1) with 2. rewrite u64_small by lia. cbv zeta.
  apply wp_bind. unfold calloc. rewrite (proj2 (Z.ltb_lt _ _)) by lia.
  pose proof (own_map _ _ _ _ _ _ _ Ho) as Hm. pose proof (own_arr _ _ _ _ _ _ _ Ho) as Ha.
  apply wp_alloc; [apply Ho|]. intros nb h1 _ Hnb Hb1 Hok1.
  assert (nb ≠ mb ∧ nb ≠ ab) as [? ?] by (split; intros ->; congruence).
  assert ((K ∪ R) !! nb = None) as HnbF.
  { destruct ((K ∪ R) !! nb) eqn:E; [|done]. eapply own_rest in E; [|done]. congruence. }
  eapply (wp_store _ _ _ [Some (OMap (map_of T ab))]);
    [by rewrite Hb1, lookup_insert_ne|simpl; lia|].
  exists mb, nb, (replicate (2 * length T) (mkNode Null 0 Null 0 0)), ∅. split; [done|].
  pose proof (own_ne _ _ _ _ _ _ _ Ho). pose proof (own_mb _ _ _ _ _ _ _ Ho).
  constructor; try done.
  - apply heap_ok_insert; [done|]. rewrite Hb1, lookup_insert_ne by done. eauto.
  - apply nodes_empty.
  - simpl. rewrite Hb1, (own_blocks _ _ _ _ _ _ _ Ho), (left_id_L ∅ (∪)).
    rewrite (insert_insert_ne _ nb mb), insert_insert_eq by done.
    unfold doubled. rewrite length_replicate. unfold node_cells. rewrite fmap_replicate.
    replace (lives (replicate (2 * length T) Empty)) with (@nil (list Z * ptr)).
    2:{ symmetry. induction (2 * length T)%nat; [done|by rewrite replicate_S, lives_cons]. }
    replace (Z.to_nat (Z.of_nat (length T) * 2)) with (2 * length T)%nat by lia.
    replace (Z.of_nat (2 * length T)) with (Z.of_nat (length T) * 2) by lia. done.
  - apply map_disjoint_empty_l.
  - by rewrite (left_id_L ∅ (∪)), lookup_insert_ne.
  - by rewrite (left_id_L ∅ (∪)), lookup_insert_ne.
Qed.

Lemma next_power_of_2_cap H T : table_ok H T →
  next_power_of_2 (Z.of_nat (length T)) = Z.of_nat (length T) ∧
  0 < Z.of_nat (length T) < 2 ^ 63.
Proof.
  intros Hok. pose proof (table_pos H T Hok). destruct (ok_cap _ _ Hok) as (e & He & Hl).
  assert (Z.of_nat (length T) = 2 ^ Z.of_nat e) as -> by (by rewrite Hl, Nat2Z.inj_pow).
  split; [apply next_power_of_2_pow; lia|].
  split; [apply Z.pow_pos_nonneg; lia|apply Z.pow_lt_mono_r; lia].
Qed.

Lemma wp_bind_assoc {S A B C} (m : comp S A) (k : A → comp S B) (r : B → comp S C) s Q :
  wp (m ≫= k) s (λ b s', wp (r b) s' Q) → wp (m ≫= λ a, k a ≫= r) s Q.
Proof.
  unfold wp, mbind, comp_bind. destruct (m s) as [[a s']|f|]; [|done..].
  by destruct (k a s') as [[b s'']|f|].
Qed.

Section hash.
Context (hash : ptr → comp (heap obj) Z) (H : list Z → Z) (valid : list Z → Prop).
Context {Hspec : HashSpec hash H valid}.

Lemma wp_hash h mp T R p k (Q : Z → heap obj → Prop) :
  owns h mp T R → holds R p k → valid k → Q (H k) h → wp (hash p) h Q.
Proof.
  intros Ho (b & l & -> & Hb & Hpre) Hv HQ. unfold wp.
  by rewrite (hash_spec h b l k) by (done || by eapply owns_lookup).
Qed.

(** The specification of [Hashmap_set] with some fuel. *)
Definition set_spec (fuel : nat) (mp : ptr) : Prop := ∀ h T R p k v T',
  owns h mp T R → table_ok H T → keys_in valid T → holds R p k → valid k →
  t_set H fuel T k v = Some T' →
  wp (Hashmap_set hash fuel mp p (Z.of_nat (length k)) v) h (λ _ h', owns h' mp T' R).

Lemma wp_rehash fuel mp ab nds R : set_spec fuel mp → R !! ab = None →
  ∀ i nds' T' K', drop i nds = nds' → nodes_rep nds' T' K' → keys_in valid T' →
  K' ##ₘ R → K' !! ab = None →
  ∀ h T0 T1, owns h mp T0 (<[ab := node_cells nds]> (K' ∪ R)) →
  table_ok H T0 → keys_in valid T0 → t_rehash (t_set H fuel) T' T0 = Some T1 →
  wp (rehash (Hashmap_set hash fuel mp) (Ptr ab 0) (length nds') (Z.of_nat i)) h
    (λ _ h', owns h' mp T1 (<[ab := node_cells nds]> R)).
Proof.
  intros Hset HRab i nds' T' K' Hdrop Hn. revert i Hdrop.
  induction Hn as [|nd s Ks nds' T' K' Hnd Hn IH Hd]; intros i Hdrop Hv HdR Hab h T0 T1 Ho Hok Hv0 Hr.
  { simplify_eq/=. rewrite (left_id_L ∅ (∪)) in Ho. by apply wp_ret. }
  apply map_disjoint_union_l in HdR as [HdR1 HdR2].
  apply lookup_union_None in Hab as [HabK HabK'].
  cbn [rehash length]. apply wp_bind.
  eapply (wp_load_frame_node _ _ _ _ _ nds i nd); [done|by rewrite lookup_insert_eq| |].
  { rewrite <-(Nat.add_0_r i), <-lookup_drop, Hdrop. done. }
  assert (drop (S i) nds = nds') as Hdrop'.
  { rewrite <-Nat.add_1_r, <-drop_drop, Hdrop. done. }
  pose proof (λ p, Hv (S p)) as Hv'. simpl in Hv'.
  specialize (IH (S i) Hdrop' Hv' HdR2 HabK').
  replace (Z.of_nat i + 1) with (Z.of_nat (S i)) by lia.
  destruct s as [|h0|h0 k v]; simpl in Hnd, Hr.
  - destruct Hnd as [-> ->]. rewrite (left_id_L ∅ (∪)) in Ho.
    apply wp_bind, wp_ret. by eapply IH.
  - destruct Hnd as (-> & _ & ->). rewrite (left_id_L ∅ (∪)) in Ho.
    apply wp_bind, wp_ret. by eapply IH.
  - destruct Hnd as (b & -> & ->). simpl.
    assert (b ≠ ab) as Hbab by (intros ->; by rewrite lookup_singleton_eq in HabK).
    assert (K' !! b = None ∧ R !! b = None) as [HbK HbR]
      by exact (conj (map_disjoint_Some_l _ _ _ _ Hd (lookup_singleton_eq _ _))
        (map_disjoint_Some_l _ _ _ _ HdR1 (lookup_singleton_eq _ _))).
    assert (valid k) as Hvk by by apply (Hv 0%nat h0 k v).
    destruct (t_set H fuel T0 k v) as [T2|] eqn:Hs; [|done]. simpl in Hr.
    set (F := <[ab := node_cells nds]> (({[b := cells k]} ∪ K') ∪ R)) in *.
    assert (F !! b = Some (cells k)) as HFb.
    { subst F. rewrite lookup_insert_ne by done.
      by apply lookup_union_Some_l, lookup_union_Some_l, lookup_singleton_eq. }
    assert (delete b F = <[ab := node_cells nds]> (K' ∪ R)) as HdF.
    { subst F. rewrite delete_insert_ne, <-(assoc_L (∪)), <-insert_union_singleton_l by done.
      rewrite delete_insert_id; [done|]. by apply lookup_union_None. }
    apply wp_bind, wp_bind. eapply wp_mono.
    { eapply (Hset h T0 F (Ptr b 0) k v T2); try done. by exists b, (cells k). }
    intros ? h1 Ho1. eapply wp_mono; [exact (wp_free_frame _ _ _ _ _ _ Ho1 HFb)|].
    intros ? h2 Ho2. simpl in Ho2.
    rewrite HdF in Ho2. apply (IH h2 T2 T1 Ho2); [|by apply (set_keys_in H valid fuel T0 k v)|done].
    by apply (set_ok H fuel T0 k v).
Qed.

Lemma wp_Hashmap_set fuel mp : set_spec fuel mp.
Proof.
  induction fuel as [|fuel IH]; intros h T R p k v T' Ho Hok Hv Hk Hvk Hset; [done|].
  cbn [t_set] in Hset. cbn [Hashmap_set].
  apply wp_bind. eapply wp_hash; [done..|].
  pose proof Ho as (mb & ab & nds & K & -> & Hown).
  apply wp_bind, (wp_load_map _ _ _ _ _ _ _ Hown). simpl Hashmap.cap. cbv zeta.
  destruct (next_power_of_2_cap H T Hok) as [Hnp Hcap].
  change (H k mod Z.of_nat (length T)) with (home H T k).
  pose proof (home_range H T k Hok) as Hhome.
  destruct (sequence_lookup H T k 0 (Z.to_nat (home H T k)) Hok eq_refl) as [s Hs].
  unfold sequence, probes in Hset. cbn [slot_for] in Hset. rewrite Hs in Hset.
  apply wp_bind. rewrite <-(Z2Nat.id (home H T k)) at 1 by lia.
  eapply wp_mono; [by eapply wp_probing|]. intros f h' [-> ->].
  destruct (Z.leb_spec FOUND (t_probe k (home H T k) s)) as [Hf|Hf].
  { simplify_eq. rewrite <-(Z2Nat.id (home H T k)) at 2 by lia.
    eapply wp_put_node; [done|done|done|lia|by apply t_probe_store]. }
  (* the loop leaves the map alone, or sets the key *)
  apply wp_bind.
  eapply (wp_mono _ _ (λ r h', if r : bool then owns h' (Ptr mb 0) T' R else
    h' = h ∧ (if 2 * Z.of_nat (length T) * sizeof_Map_node <? 2 ^ 64 then
       T1 ← t_rehash (t_set H fuel) T (doubled T); t_set H fuel T1 k v else None) = Some T')).
  { destruct (Z.eqb_spec (t_probe k (home H T k) s) HAS_NEXT) as [->|Hne].
    - eapply wp_mono; [eapply wp_set_loop; [lia|lia|done|done|lia|rewrite Hnp; lia]|].
      intros r h' Hr. simpl in Hr. destruct (slot_for T k _ _) as [[q flg]|].
      + destruct Hr as [-> Hr]. by simplify_eq.
      + by destruct Hr as [-> ->].
    - apply wp_ret. by split. }
  clear Hset. intros [|] h' Hr; [by apply wp_ret|]. destruct Hr as [-> Hset].
  destruct (Z.ltb_spec (2 * Z.of_nat (length T) * sizeof_Map_node) (2 ^ 64)) as [Hsz|]; [|done].
  destruct (t_rehash _ _ _) as [T1|] eqn:Hr; [|done]. simpl in Hset.
  apply wp_bind, (wp_load_map _ _ _ _ _ _ _ Hown). simpl Hashmap.cap. simpl arr.
  apply wp_bind_assoc. eapply wp_mono; [by eapply wp_double|]. intros ? h1 Ho1. simpl in Ho1.
  pose proof (own_ab _ _ _ _ _ _ _ Hown) as [HabK HabR]%lookup_union_None.
  pose proof (own_nodes _ _ _ _ _ _ _ Hown) as Hn.
  destruct (doubled_ok H T Hok Hsz) as (e & He & _ & Hdb).
  assert (table_ok H (doubled T)) as Hokd by (rewrite Hdb; apply empty_ok; lia).
  assert (keys_in valid (doubled T)) as Hvd by by intros q h0 k0 v0 [? _]%lookup_replicate.
  apply wp_bind. rewrite Nat2Z.id, <-(nodes_length _ _ _ Hn). eapply wp_mono.
  { eapply (wp_rehash fuel (Ptr mb 0) ab nds R IH HabR 0 nds T K); try done. apply Hown. }
  intros ? h2 Ho2. simpl in Ho2. apply wp_bind.
  eapply wp_mono; [eapply wp_free_frame; [done|by rewrite lookup_insert_eq]|].
  intros ? h3 Ho3. simpl in Ho3. rewrite delete_insert_id in Ho3 by done.
  eapply (IH h3 T1 R p k v T'); try done.
  - eapply (rehash_inv (table_ok H)); [|exact Hokd|exact Hr].
    intros T2 k2 v2 T3 HT2 Hs2. by eapply set_ok.
  - eapply rehash_keys_in; [|exact Hv|exact Hvd|exact Hr]. by apply set_keys_in.
Qed.

(** ** Lookup and deletion *)

Lemma wp_find h mp T R p k act Q :
  owns h mp T R → table_ok H T → holds R p k → valid k →
  match t_find H T k with
  | Some q => ∀ mb ab nds K, mp = Ptr mb 0 → owned h mb ab nds T K R →
                wp (act (ptr_add (Ptr ab 0) (Z.of_nat q))) h Q
  | None => Q Null h
  end →
  wp (find hash act mp p (Z.of_nat (length k))) h Q.
Proof.
  intros Ho Hok Hk Hvk HQ. unfold find.
  apply wp_bind. eapply wp_hash; [done..|].
  pose proof Ho as (mb & ab & nds & K & -> & Hown).
  apply wp_bind, (wp_load_map _ _ _ _ _ _ _ Hown). simpl Hashmap.cap. simpl arr. cbv zeta.
  destruct (next_power_of_2_cap H T Hok) as [Hnp Hcap].
  change (H k mod Z.of_nat (length T)) with (home H T k).
  pose proof (home_range H T k Hok) as Hhome.
  destruct (sequence_lookup H T k 0 (Z.to_nat (home H T k)) Hok eq_refl) as [s Hs].
  unfold t_find, sequence, probes in HQ. cbn [search] in HQ. rewrite Hs in HQ.
  apply wp_bind. rewrite <-(Z2Nat.id (home H T k)) at 1 by lia.
  eapply wp_mono; [by eapply wp_probing2|]. intros f h' [-> ->].
  destruct (t_probe2 k (home H T k) s =? FOUND) eqn:Hf.
  { rewrite Z2Nat.id in HQ by lia. by eapply HQ. }
  destruct (Z.eqb_spec (t_probe2 k (home H T k) s) CONTINUE) as [->|Hne]; [|by apply wp_ret].
  eapply wp_find_loop; [rewrite Hnp; lia|done|done|lia|rewrite Hnp; lia|].
  destruct (search _ _ _ _); [by eapply HQ|done].
Qed.

Lemma wp_Hashmap_get h mp T R p k :
  owns h mp T R → table_ok H T → holds R p k → valid k →
  wp (Hashmap_get hash mp p (Z.of_nat (length k))) h
    (λ r h', h' = h ∧ r = default Null (t_get H T k)).
Proof.
  intros Ho Hok Hk Hvk. eapply wp_find; [done..|]. unfold t_get.
  destruct (t_find H T k) as [q|] eqn:Hf; [|done]. intros mb ab nds K -> Hown.
  apply find_Some in Hf as [v Hq]. simpl. rewrite Hq.
  destruct (nodes_focus _ _ _ _ _ (own_nodes _ _ _ _ _ _ _ Hown) Hq)
    as (nd & Ks & K' & Hnd & (b & -> & _) & _).
  unfold node_get. apply wp_bind. eapply wp_load_node; [done..|]. by apply wp_ret.
Qed.

Lemma wp_Hashmap_delete h mp T R p k :
  owns h mp T R → table_ok H T → holds R p k → valid k →
  wp (Hashmap_delete hash mp p (Z.of_nat (length k))) h
    (λ r h', owns h' mp (t_delete H T k) R ∧ r = default Null (t_get H T k)).
Proof.
  intros Ho Hok Hk Hvk. eapply wp_find; [done..|]. unfold t_get, t_delete.
  destruct (t_find H T k) as [q|] eqn:Hf; [|done]. intros mb ab nds K -> Hown.
  apply find_Some in Hf as [v Hq]. simpl. rewrite Hq.
  apply owned_opened in Hown as (Hop & Hn & Hd).
  destruct (nodes_focus _ _ _ _ _ Hn Hq)
    as (nd & Ks & K' & Hnd & (b & -> & ->) & -> & Hdk & Hput).
  apply map_disjoint_union_l in Hd as [Hd1 Hd2].
  rewrite <-(assoc_L (∪)), <-insert_union_singleton_l in Hop.
  unfold delete_at. apply wp_bind. eapply wp_load_map_opened; [done|].
  apply wp_bind. eapply wp_mono; [exact (wp_store_map _ _ _ _ _ _ _ Hop)|].
  intros ? h1 Hop1. simpl in Hop1. unfold node_delete.
  apply wp_bind. eapply wp_load_node_opened; [done..|].
  apply wp_bind. eapply wp_mono; [eapply wp_free_opened; [done|by rewrite lookup_insert_eq]|].
  intros ? h2 Hop2. simpl in Hop2. rewrite delete_insert_id in Hop2.
  2:{ apply map_disjoint_singleton_l in Hdk, Hd1. by apply lookup_union_None. }
  apply wp_bind. eapply wp_mono; [eapply wp_store_node; [done|by eapply lookup_lt_Some]|].
  intros ? h3 Hop3. simpl in Hop3. apply wp_ret. split; [|done].
  pose proof (lives_length_insert T q _ (Dead (home H T k)) Hq) as Hcount. simpl in Hcount.
  pose proof (lives_length_le T). destruct (next_power_of_2_cap H T Hok) as [_ Hcap].
  rewrite u64_small in Hop3 by lia.
  exists mb, ab. eexists _, K'. split; [done|]. apply owned_opened.
  rewrite length_insert. split_and!; [|rewrite <-(left_id_L ∅ (∪) K'); apply Hput|done].
  - replace (Z.of_nat (length (lives (<[q := Dead (home H T k)]> T))))
      with (Z.of_nat (length (lives T)) - 1) by lia. exact Hop3.
  - by repeat split.
  - apply map_disjoint_empty_l.
Qed.
End hash.

(** ** Creation and destruction *)

Lemma wp_Hashmap_new h : heap_ok h →
  wp Hashmap_new h (λ mp h', owns h' mp t_new (blocks h)).
Proof.
  intros Hok. unfold Hashmap_new, malloc, calloc, sizeof_Hashmap, sizeof_Map_node, STARTING_BUCKETS.
  change (32 / 32) with 1. apply wp_bind, wp_alloc; [done|]. intros mb h1 _ Hmb Hb1 Hok1.
  simpl (8 * 40 <? 2 ^ 64). apply wp_bind. change (8 * 40 <? 2 ^ 64) with true. cbv iota.
  apply wp_alloc; [done|]. intros ab h2 _ Hab Hb2 Hok2.
  assert (ab ≠ mb) as Hne by (intros ->; by rewrite Hb1, lookup_insert_eq in Hab).
  apply wp_bind. eapply wp_store; [by rewrite Hb2, lookup_insert_ne, Hb1, lookup_insert_eq|simpl; lia|].
  apply wp_ret. exists mb, ab, (replicate 8 (mkNode Null 0 Null 0 0)), ∅. split; [done|].
  rewrite Hb1, lookup_insert_ne in Hab by done.
  constructor; [|apply nodes_empty| |apply map_disjoint_empty_l|done|
    by rewrite (left_id_L ∅ (∪))|by rewrite (left_id_L ∅ (∪))].
  - apply heap_ok_insert; [done|]. rewrite Hb2, lookup_insert_ne, Hb1, lookup_insert_eq by done. eauto.
  - simpl. rewrite Hb2, Hb1, (left_id_L ∅ (∪)).
    by rewrite (insert_insert_ne _ ab mb), insert_insert_eq.
Qed.

Lemma wp_free_keys m mb ab nds R : ∀ i nds' T' K', drop i nds = nds' → nodes_rep nds' T' K' →
  K' ##ₘ R → ∀ h, opened h m mb ab nds (K' ∪ R) →
  wp (free_keys (Ptr ab 0) (length nds') (Z.of_nat i)) h (λ _ h', opened h' m mb ab nds R).
Proof.
  intros i nds' T' K' Hdrop Hn. revert i Hdrop.
  induction Hn as [|nd s Ks nds' T' K' Hnd Hn IH Hd]; intros i Hdrop HdR h Hop.
  { rewrite (left_id_L ∅ (∪)) in Hop. by apply wp_ret. }
  apply map_disjoint_union_l in HdR as [HdR1 HdR2]. rewrite <-(assoc_L (∪)) in Hop.
  cbn [free_keys length]. apply wp_bind. eapply wp_load_node_opened; [done| |].
  { rewrite <-(Nat.add_0_r i), <-lookup_drop, Hdrop. done. }
  apply wp_bind. eapply wp_mono.
  { eapply wp_free_key; [done|done|]. by apply map_disjoint_union_r. }
  intros ? h1 Hop1. simpl in Hop1. replace (Z.of_nat i + 1) with (Z.of_nat (S i)) by lia.
  apply IH; [|done|done]. rewrite <-Nat.add_1_r, <-drop_drop, Hdrop. done.
Qed.

Lemma wp_Hashmap_free h mp T R : owns h mp T R →
  wp (Hashmap_free mp) h (λ _ h', heap_ok h' ∧ blocks h' = R).
Proof.
  intros (mb & ab & nds & K & -> & (Hop & Hn & Hd)%owned_opened).
  unfold Hashmap_free. simpl. apply wp_bind. eapply wp_load_map_opened; [done|].
  simpl Hashmap.cap. simpl arr. apply wp_bind.
  rewrite Nat2Z.id, <-(nodes_length _ _ _ Hn).
  eapply wp_mono; [exact (wp_free_keys _ mb ab nds R 0 nds T K eq_refl Hn Hd _ Hop)|].
  intros ? h1 (Hok & Hb & Hne & Hmb & Hab). apply wp_bind.
  eapply wp_free; [by rewrite Hb, lookup_insert_ne, lookup_insert_eq|].
  eapply wp_free; [by simpl; rewrite Hb, lookup_delete_ne, lookup_insert_eq|].
  split; [by do 2 apply heap_ok_delete|]. simpl.
  rewrite Hb, delete_insert_ne, (delete_insert_id R ab) by done. by rewrite delete_insert_id.
Qed.

(** ** djb2 *)

(** What [djb2] computes on bytes that have a NUL. *)
Fixpoint djb2_bytes (hash : Z) (k : list Z) : Z :=
  match k with
  | [] => hash
  | c :: k => if c =? 0 then hash else djb2_bytes (djb2_char hash c) k
  end.

Lemma djb2_loop h b l : blocks h !! b = Some l → ∀ k fuel (i : nat) hash,
  cells k `prefix_of` drop i l → 0 ∈ k → (length k ≤ fuel)%nat →
  loop fuel djb2_step (Ptr b (Z.of_nat i), hash) h = Ok (djb2_bytes hash k, h).
Proof.
  intros Hb. induction k as [|c k IH]; intros fuel i hash [r Hr] H0 Hf.
  { by apply not_elem_of_nil in H0. }
  destruct fuel as [|fuel]; [simpl in Hf; lia|].
  assert (load_byte (Ptr b (Z.of_nat i)) h = Ok (c, h)) as Hl.
  { unfold load_byte, mbind, comp_bind, load. rewrite Hb, (proj2 (Z.ltb_ge _ _)) by lia.
    by rewrite Nat2Z.id, <-(Nat.add_0_r i), <-lookup_drop, Hr. }
  assert (djb2_step (Ptr b (Z.of_nat i), hash) h =
    Ok (if c =? 0 then inr hash else inl (Ptr b (Z.of_nat i + 1), djb2_char hash c), h)) as Hs.
  { unfold djb2_step, mbind, comp_bind. rewrite Hl. by destruct (c =? 0). }
  cbn [loop djb2_bytes]. unfold mbind, comp_bind. rewrite Hs.
  destruct (Z.eqb_spec c 0) as [->|Hc]; [done|].
  rewrite Z.add_1_r, <-Nat2Z.inj_succ. apply IH.
  - exists r. rewrite <-Nat.add_1_r, <-drop_drop, Hr. done.
  - by apply elem_of_cons in H0 as [<-|?].
  - simpl in Hf. lia.
Qed.

#[export] Instance djb2_spec : HashSpec djb2 (djb2_bytes 5381) (λ k, 0 ∈ k).
Proof.
  intros h b l k Hb Hpre H0. unfold djb2, mbind, comp_bind, block_of. rewrite Hb.
  apply (djb2_loop h b l Hb k _ 0); [by rewrite drop_0|done|].
  destruct Hpre as [r ->]. rewrite length_app. unfold cells. rewrite length_fmap. lia.
Qed.
