(* ===== verification/HashmapSpec.v ===== *)
(** What the hash map promises: a run of [Hashmap_set], [Hashmap_get] and
    [Hashmap_delete] between [Hashmap_new] and [Hashmap_free] answers as a
    finite map does, when no key that is present is set after a deletion and
    the hashes of the keys are distinct modulo a capacity; a key just set is
    found, for such keys; and what a set after a deletion does to two keys of
    one hash. *)
From S2P Require Import Prelude Mem Hashmap HashTable HashmapProofs.
#[local] Open Scope Z_scope.

(** ** Sessions *)

(** An operation on the key [k], whose bytes are at [p]. *)
Inductive op :=
  | OSet (p : ptr) (k : list Z) (v : ptr)
  | OGet (p : ptr) (k : list Z)
  | ODelete (p : ptr) (k : list Z).

Definition op_ptr (o : op) : ptr := match o with OSet p _ _ | OGet p _ | ODelete p _ => p end.
Definition op_key (o : op) : list Z := match o with OSet _ k _ | OGet _ k | ODelete _ k => k end.

Section sessions.
Context (hash : ptr → comp (heap obj) Z) (fuel : nat).

Definition run_op (mp : ptr) (o : op) : comp (heap obj) ptr :=
  match o with
  | OSet p k v => Hashmap_set hash fuel mp p (Z.of_nat (length k)) v;; mret Null
  | OGet p k => Hashmap_get hash mp p (Z.of_nat (length k))
  | ODelete p k => Hashmap_delete hash mp p (Z.of_nat (length k))
  end.

Fixpoint run_ops (mp : ptr) (os : list op) : comp (heap obj) (list ptr) :=
  match os with
  | [] => mret []
  | o :: os => r ← run_op mp o; rs ← run_ops mp os; mret (r :: rs)
  end.

(** A map is made, used and freed; the answers, in order. *)
Definition session (os : list op) : comp (heap obj) (list ptr) :=
  mp ← Hashmap_new; rs ← run_ops mp os; Hashmap_free mp;; mret rs.
End sessions.

(** ** The finite map *)

Definition spec_op (m : gmap (list Z) ptr) (o : op) : ptr * gmap (list Z) ptr :=
  match o with
  | OSet _ k v => (Null, <[k := v]> m)
  | OGet _ k => (default Null (m !! k), m)
  | ODelete _ k => (default Null (m !! k), delete k m)
  end.

Fixpoint spec_ops (m : gmap (list Z) ptr) (os : list op) : list ptr :=
  match os with
  | [] => []
  | o :: os => (spec_op m o).1 :: spec_ops (spec_op m o).2 os
  end.

(** A key that is present is set only while nothing was deleted ([clean]). *)
Fixpoint no_update_after_delete (clean : bool) (m : gmap (list Z) ptr) (os : list op) : bool :=
  match os with
  | [] => true
  | o :: os =>
      match o with
      | OSet _ k _ => clean || bool_decide (m !! k = None)
      | _ => true
      end &&
      no_update_after_delete
        (match o with ODelete _ k => clean && bool_decide (m !! k = None) | _ => clean end)
        (spec_op m o).2 os
  end.

(** ** Sessions refine the finite map *)

Lemma Forall_pairs {A} (R : A → A → Prop) (l : list A) :
  Forall (λ x, Forall (R x) l) l → ∀ x y, x ∈ l → y ∈ l → R x y.
Proof.
  rewrite Forall_forall. intros Hl x y Hx Hy. specialize (Hl x Hx).
  rewrite Forall_forall in Hl. by apply Hl.
Qed.

Section refinement.
Context (hash : ptr → comp (heap obj) Z) (H : list Z → Z) (valid : list Z → Prop).
Context {Hspec : HashSpec hash H valid}.
(** The keys in use, with different hashes modulo [2 ^ e]. *)
Context (P : list Z → Prop) (e fuel : nat) (R : hblocks).
Hypothesis Hvalid : ∀ k, P k → valid k.
Hypothesis Hinj : ∀ k k', P k → P k' → H k mod 2 ^ Z.of_nat e = H k' mod 2 ^ Z.of_nat e → k = k'.
Hypothesis He : (3 ≤ e ≤ 58)%nat.
Hypothesis Hfuel : (e - 3 < fuel)%nat.

Definition usable (o : op) : Prop := P (op_key o) ∧ holds R (op_ptr o) (op_key o).

(** A map in use. *)
Record in_use (h : heap obj) (mp : ptr) (T : table) : Prop := {
  use_owns : owns h mp T R;
  use_ok : table_ok H T;
  use_settled : ∃ i, (3 ≤ i)%nat ∧ settled P e T i
}.

Lemma in_use_new h : heap_ok h → blocks h = R →
  wp Hashmap_new h (λ mp h', in_use h' mp t_new).
Proof.
  intros Hok Hb. eapply wp_mono; [by apply wp_Hashmap_new|]. intros mp h' Ho. rewrite Hb in Ho.
  constructor; [done|apply new_ok|]. exists 3%nat. split; [done|]. apply settled_new. lia.
Qed.

Lemma in_use_keys h mp T : in_use h mp T → keys_in valid T.
Proof. intros [_ _ (i & _ & Hs)] p h0 k v Hp. by eapply Hvalid, (set_keys _ _ _ _ Hs). Qed.

(** An operation leaves the map in use, whatever was done before. *)
Lemma wp_set_in_use h mp T p k v : in_use h mp T → P k → holds R p k →
  wp (Hashmap_set hash fuel mp p (Z.of_nat (length k)) v) h (λ _ h', ∃ T',
    in_use h' mp T' ∧ t_set H fuel T k v = Some T').
Proof.
  intros Hu HP Hh. pose proof (in_use_keys _ _ _ Hu) as Hv. destruct Hu as [Ho Hok (i & Hi & Hs)].
  destruct (set_total H P e ltac:(lia) Hinj fuel T i k v Hok Hs HP ltac:(lia))
    as (T' & i' & HT' & Hs' & Hi').
  eapply wp_mono; [eapply (wp_Hashmap_set hash H valid); try done; by apply Hvalid|].
  intros ? h' Ho'. simpl in Ho'. exists T'. split; [|done]. constructor; [done|by eapply set_ok|].
  exists i'. split; [lia|done].
Qed.

Lemma wp_get_in_use h mp T p k : in_use h mp T → P k → holds R p k →
  wp (Hashmap_get hash mp p (Z.of_nat (length k))) h
    (λ r h', h' = h ∧ r = default Null (t_get H T k)).
Proof.
  intros [Ho Hok _] HP Hh. eapply (wp_Hashmap_get hash H valid); try done. by apply Hvalid.
Qed.

Lemma wp_delete_in_use h mp T p k : in_use h mp T → P k → holds R p k →
  wp (Hashmap_delete hash mp p (Z.of_nat (length k))) h
    (λ r h', in_use h' mp (t_delete H T k) ∧ r = default Null (t_get H T k)).
Proof.
  intros [Ho Hok (i & Hi & Hs)] HP Hh.
  eapply wp_mono; [eapply (wp_Hashmap_delete hash H valid); try done; by apply Hvalid|].
  intros r h' [Ho' Hr]. split; [|done]. constructor; [done|by apply delete_ok|].
  exists i. split; [done|by apply settled_delete].
Qed.

Lemma wp_op_in_use h mp T o : in_use h mp T → usable o →
  wp (run_op hash fuel mp o) h (λ _ h', ∃ T', in_use h' mp T').
Proof.
  intros Hu [HP Hh]. destruct o as [p k v|p k|p k]; simpl in *.
  - apply wp_bind. eapply wp_mono; [by eapply wp_set_in_use|].
    intros ? h' (T' & Hu' & _). apply wp_ret. eauto.
  - eapply wp_mono; [by eapply wp_get_in_use|]. intros r h' [-> _]. eauto.
  - eapply wp_mono; [by eapply wp_delete_in_use|]. intros r h' [Hu' _]. eauto.
Qed.

(** The map in use holds [m]. *)
Record agrees (h : heap obj) (mp : ptr) (m : gmap (list Z) ptr) (clean : bool) (T : table)
    : Prop := {
  agr_use : in_use h mp T;
  agr_unique : unique T;
  agr_contents : contents T = m;
  agr_clean : clean = true → no_dead T
}.

Lemma delete_absent T k : table_ok H T → unique T → contents T !! k = None → t_delete H T k = T.
Proof.
  intros Hok Hu Hk. rewrite <-(get_contents H T k Hok Hu) in Hk. unfold t_get, t_delete in *.
  destruct (t_find H T k) as [q|] eqn:Hf; [|done].
  apply find_Some in Hf as [v Hq]. simpl in Hk. by rewrite Hq in Hk.
Qed.

Lemma wp_set_agrees h mp m clean T p k v : agrees h mp m clean T → P k → holds R p k →
  clean = true ∨ m !! k = None →
  wp (Hashmap_set hash fuel mp p (Z.of_nat (length k)) v) h
    (λ _ h', ∃ T', agrees h' mp (<[k := v]> m) clean T').
Proof.
  intros [Hu Hun Hc Hcl] HP Hh Hset. pose proof (use_ok _ _ _ Hu) as Hok.
  eapply wp_mono; [by eapply wp_set_in_use|]. intros ? h' (T' & Hu' & HT'). exists T'.
  assert (contents T !! k = None ∨ no_dead T) as Hd.
  { destruct Hset as [->|Hset]; [right; by apply Hcl|left; by rewrite Hc]. }
  destruct (set_contents H fuel T k v T' Hok Hun Hd HT') as (? & Hc' & ?).
  constructor; [done|done|by rewrite Hc', Hc|auto].
Qed.

Lemma wp_get_agrees h mp m clean T p k : agrees h mp m clean T → P k → holds R p k →
  wp (Hashmap_get hash mp p (Z.of_nat (length k))) h (λ r h', h' = h ∧ r = default Null (m !! k)).
Proof.
  intros [Hu Hun Hc _] HP Hh. eapply wp_mono; [by eapply wp_get_in_use|]. intros r h' [-> ->].
  by rewrite (get_contents H T k (use_ok _ _ _ Hu) Hun), Hc.
Qed.

Lemma wp_delete_agrees h mp m clean T p k : agrees h mp m clean T → P k → holds R p k →
  wp (Hashmap_delete hash mp p (Z.of_nat (length k))) h (λ r h', r = default Null (m !! k) ∧
    ∃ T', agrees h' mp (delete k m) (clean && bool_decide (m !! k = None)) T').
Proof.
  intros [Hu Hun Hc Hcl] HP Hh. pose proof (use_ok _ _ _ Hu) as Hok.
  eapply wp_mono; [by eapply wp_delete_in_use|]. intros r h' [Hu' ->].
  rewrite (get_contents H T k Hok Hun), Hc. split; [done|]. eexists.
  destruct (delete_contents H T k Hok Hun) as [? Hc'].
  constructor; [done|done|by rewrite Hc', Hc|].
  intros [Hcl' Hk%bool_decide_eq_true]%andb_true_iff. rewrite delete_absent; [auto|done..|by rewrite Hc].
Qed.

Lemma wp_op_agrees h mp m clean T o os : agrees h mp m clean T → usable o →
  no_update_after_delete clean m (o :: os) = true →
  wp (run_op hash fuel mp o) h (λ r h', r = (spec_op m o).1 ∧ ∃ clean' T',
    agrees h' mp (spec_op m o).2 clean' T' ∧
    no_update_after_delete clean' (spec_op m o).2 os = true).
Proof.
  intros Ha [HP Hh] [Hset Hrest]%andb_true_iff.
  destruct o as [p k v|p k|p k]; simpl in *.
  - apply wp_bind. eapply wp_mono; [eapply wp_set_agrees; [done..|]|].
    { by apply orb_true_iff in Hset as [->|Hset%bool_decide_eq_true]; [left|right]. }
    intros ? h' (T' & HT'). apply wp_ret. split; [done|]. by exists clean, T'.
  - eapply wp_mono; [by eapply wp_get_agrees|]. intros r h' [-> ->]. split; [done|].
    by exists clean, T.
  - eapply wp_mono; [by eapply wp_delete_agrees|]. intros r h' [-> (T' & HT')]. split; [done|].
    by eexists _, T'.
Qed.

Lemma wp_ops_agree os : ∀ h mp m clean T, agrees h mp m clean T → Forall usable os →
  no_update_after_delete clean m os = true →
  wp (run_ops hash fuel mp os) h (λ rs h', rs = spec_ops m os ∧ ∃ T', in_use h' mp T').
Proof.
  induction os as [|o os IH]; intros h mp m clean T Ha Hus Hnu.
  { apply wp_ret. split; [done|]. exists T. apply Ha. }
  apply Forall_cons in Hus as [Ho Hus]. cbn [run_ops]. apply wp_bind.
  eapply wp_mono; [by eapply wp_op_agrees|]. intros r h1 (-> & clean' & T1 & Ha1 & Hnu1).
  apply wp_bind. eapply wp_mono; [by eapply IH|]. intros rs h2 [-> HT]. by apply wp_ret.
Qed.

Lemma agrees_new h mp : in_use h mp t_new → agrees h mp ∅ true t_new.
Proof.
  intros Hu. destruct (empty_contents (Z.to_nat STARTING_BUCKETS)) as (? & ? & ?).
  by constructor.
Qed.

Lemma wp_ops_in_use os : ∀ h mp T, in_use h mp T → Forall usable os →
  wp (run_ops hash fuel mp os) h (λ rs h', length rs = length os ∧ ∃ T', in_use h' mp T').
Proof.
  induction os as [|o os IH]; intros h mp T Hu Hus; [apply wp_ret; eauto|].
  apply Forall_cons in Hus as [Ho Hus]. cbn [run_ops]. apply wp_bind.
  eapply wp_mono; [by eapply wp_op_in_use|]. intros r h1 (T1 & Hu1).
  apply wp_bind. eapply wp_mono; [by eapply IH|]. intros rs h2 [Hl HT].
  apply wp_ret. split; [simpl; by rewrite Hl|done].
Qed.
End refinement.

(** ** The properties *)

(** C7: the hash map is a finite map.  A run of sets, gets and deletes
    between [Hashmap_new] and [Hashmap_free], with any hash function, on keys
    whose hashes differ modulo [2 ^ e], ends without undefined behaviour and
    answers as a finite map does (NULL for an absent key), provided a key
    that is present is set only before the first deletion; and it leaves
    the rest of the heap as it was, nothing leaked. *)
Theorem map_session_refines hash H valid `{!HashSpec hash H valid} (e fuel : nat) h os :
  (3 ≤ e ≤ 58)%nat → (e - 3 < fuel)%nat → heap_ok h →
  (∀ o, o ∈ os → valid (op_key o) ∧ holds (blocks h) (op_ptr o) (op_key o)) →
  (∀ o o', o ∈ os → o' ∈ os →
     H (op_key o) mod 2 ^ Z.of_nat e = H (op_key o') mod 2 ^ Z.of_nat e → op_key o = op_key o') →
  no_update_after_delete true ∅ os = true →
  wp (session hash fuel os) h (λ rs h',
    rs = spec_ops ∅ os ∧ heap_ok h' ∧ blocks h' = blocks h).
Proof.
  intros He Hfuel Hok Hos Hinj Hnu.
  set (P k := ∃ o, o ∈ os ∧ op_key o = k).
  assert (∀ k, P k → valid k) as Hvalid by (intros k (o & Ho & <-); by apply Hos).
  assert (∀ k k', P k → P k' → H k mod 2 ^ Z.of_nat e = H k' mod 2 ^ Z.of_nat e → k = k') as Hinj'
    by (intros k k' (o & Ho & <-) (o' & Ho' & <-); by apply Hinj).
  assert (Forall (usable P (blocks h)) os) as Hus.
  { apply Forall_forall. intros o Ho. split; [by exists o|by apply Hos]. }
  unfold session. apply wp_bind. eapply wp_mono; [by eapply (in_use_new H P e)|].
  intros mp h1 Hu. apply wp_bind. eapply wp_mono.
  { eapply (wp_ops_agree hash H valid P e fuel (blocks h) Hvalid Hinj' He Hfuel);
      [by apply agrees_new|done|done]. }
  intros rs h2 [-> (T & [Ho _ _])]. apply wp_bind.
  eapply wp_mono; [by eapply wp_Hashmap_free|]. intros ? h3 [? ?]. by apply wp_ret.
Qed.

Definition sample_heap : heap obj :=
  Heap {[1%positive := cells (chars "ab"); 2%positive := cells (chars "xyz")]} 3%positive (λ _, false).
Definition sample_ops : list op :=
  [OSet (Ptr 1 0) (chars "ab") (Ptr 9 0); OSet (Ptr 2 0) (chars "xyz") (Ptr 9 1);
   OSet (Ptr 1 0) (chars "ab") (Ptr 9 2); OGet (Ptr 1 0) (chars "ab");
   ODelete (Ptr 1 0) (chars "ab"); OGet (Ptr 1 0) (chars "ab"); OGet (Ptr 2 0) (chars "xyz")].

Lemma sample_heap_ok : heap_ok sample_heap.
Proof.
  constructor; [|done]. intros b Hb. simpl in *. by rewrite lookup_insert_ne, lookup_singleton_ne by lia.
Qed.

Lemma sample_ops_usable o : o ∈ sample_ops →
  0 ∈ op_key o ∧ holds (blocks sample_heap) (op_ptr o) (op_key o).
Proof.
  revert o. apply Forall_forall.
  repeat constructor; try (by apply (bool_decide_unpack _); vm_compute);
    eexists _, _; (split; [done|split; [done|by exists []]]).
Qed.

Lemma map_session_refines_witness :
  wp (session djb2 8 sample_ops) sample_heap (λ rs h',
    rs = spec_ops ∅ sample_ops ∧ heap_ok h' ∧ blocks h' = blocks sample_heap) ∧
  spec_ops ∅ sample_ops = [Null; Null; Null; Ptr 9 2; Ptr 9 2; Null; Ptr 9 1].
Proof.
  split; [|by vm_compute].
  apply (map_session_refines djb2 (djb2_bytes 5381) (λ k, 0 ∈ k) 10).
  - lia.
  - lia.
  - apply sample_heap_ok.
  - apply sample_ops_usable.
  - refine (Forall_pairs _ _ _). repeat constructor; by vm_compute.
  - by vm_compute.
Defined.

(** C8: a key that was just set is found, with its new value, whatever sets,
    gets and deletes of keys came before, deleted keys set again included,
    provided the hashes of all the keys differ modulo a capacity [2 ^ e]
    that the map can reach, with [3 <= e <= 58].  Keys whose hashes agree
    there are not covered: a third key can make [Hashmap_set] loop for ever
    on them. *)
Theorem map_get_after_set hash H valid `{!HashSpec hash H valid} (e fuel : nat) h os p k v :
  (3 ≤ e ≤ 58)%nat → (e - 3 < fuel)%nat → heap_ok h →
  (∀ o, o ∈ os ++ [OSet p k v; OGet p k] →
     valid (op_key o) ∧ holds (blocks h) (op_ptr o) (op_key o)) →
  (∀ o o', o ∈ os ++ [OSet p k v; OGet p k] → o' ∈ os ++ [OSet p k v; OGet p k] →
     H (op_key o) mod 2 ^ Z.of_nat e = H (op_key o') mod 2 ^ Z.of_nat e → op_key o = op_key o') →
  wp (mp ← Hashmap_new; _ ← run_ops hash fuel mp os; run_ops hash fuel mp [OSet p k v; OGet p k])
    h (λ rs _, rs = [Null; v]).
Proof.
  intros He Hfuel Hok Hos Hinj.
  set (P k' := ∃ o, o ∈ os ++ [OSet p k v; OGet p k] ∧ op_key o = k').
  assert (∀ k, P k → valid k) as Hvalid by (intros k' (o & Ho & <-); by apply Hos).
  assert (∀ k k', P k → P k' → H k mod 2 ^ Z.of_nat e = H k' mod 2 ^ Z.of_nat e → k = k') as Hinj'
    by (intros k1 k2 (o & Ho & <-) (o' & Ho' & <-); by apply Hinj).
  assert (Forall (usable P (blocks h)) (os ++ [OSet p k v; OGet p k])) as Hus.
  { apply Forall_forall. intros o Ho. split; [by exists o|by apply Hos]. }
  apply Forall_app in Hus as [Hus [[HP Hh] _]%Forall_cons].
  apply wp_bind. eapply wp_mono; [by eapply (in_use_new H P e)|].
  intros mp h1 Hu. simpl in Hu. apply wp_bind.
  eapply wp_mono; [by eapply (wp_ops_in_use hash H valid P e fuel (blocks h))|].
  intros rs h2 [_ [T Hu2]]. cbn [run_ops run_op]. apply wp_bind, wp_bind.
  eapply wp_mono; [by eapply (wp_set_in_use hash H valid P e fuel (blocks h))|].
  intros ? h3 (T' & Hu3 & HT'). apply wp_ret, wp_bind, wp_bind.
  eapply wp_mono; [by eapply (wp_get_in_use hash H valid P e (blocks h))|].
  intros r h4 [-> ->]. apply wp_bind, wp_ret, wp_ret, wp_ret.
  destruct (set_ok H fuel T k v T' (use_ok _ _ _ _ _ _ _ Hu2) HT') as [_ ->]. done.
Qed.

(** The old value of "ab" is deleted before it is set again. *)
Lemma map_get_after_set_witness :
  wp (mp ← Hashmap_new; _ ← run_ops djb2 8 mp sample_ops;
      run_ops djb2 8 mp [OSet (Ptr 1 0) (chars "ab") (Ptr 9 3); OGet (Ptr 1 0) (chars "ab")])
    sample_heap (λ rs _, rs = [Null; Ptr 9 3]).
Proof.
  apply (map_get_after_set djb2 (djb2_bytes 5381) (λ k, 0 ∈ k) 10).
  - lia.
  - lia.
  - apply sample_heap_ok.
  - intros o [Ho|Ho]%elem_of_app; [by apply sample_ops_usable|].
    assert (OGet (Ptr 1 0) (chars "ab") ∈ sample_ops) as Hin
      by (unfold sample_ops; rewrite !elem_of_cons; auto 10).
    apply sample_ops_usable in Hin.
    apply elem_of_cons in Ho as [->|[->|[]%not_elem_of_nil]%elem_of_cons]; exact Hin.
  - refine (Forall_pairs _ _ _). repeat constructor; by vm_compute.
Defined.

(** ** Sessions on tables *)

(** What an operation does to the table of a map. *)
Definition t_op (H : list Z → Z) (fuel : nat) (T : table) (o : op) : option (ptr * table) :=
  match o with
  | OSet _ k v => T' ← t_set H fuel T k v; Some (Null, T')
  | OGet _ k => Some (default Null (t_get H T k), T)
  | ODelete _ k => Some (default Null (t_get H T k), t_delete H T k)
  end.

Fixpoint t_ops (H : list Z → Z) (fuel : nat) (T : table) (os : list op) : option (list ptr) :=
  match os with
  | [] => Some []
  | o :: os => '(r, T') ← t_op H fuel T o; rs ← t_ops H fuel T' os; Some (r :: rs)
  end.

Section tables.
Context (hash : ptr → comp (heap obj) Z) (H : list Z → Z) (valid : list Z → Prop).
Context {Hspec : HashSpec hash H valid}.
Context (fuel : nat) (R : hblocks) (mp : ptr).

Record at_table (h : heap obj) (T : table) : Prop := {
  at_owns : owns h mp T R;
  at_ok : table_ok H T;
  at_keys : keys_in valid T
}.

Lemma wp_op_table h T o r T' : at_table h T → valid (op_key o) → holds R (op_ptr o) (op_key o) →
  t_op H fuel T o = Some (r, T') →
  wp (run_op hash fuel mp o) h (λ r' h', r' = r ∧ at_table h' T').
Proof.
  intros [Ho Hok Hv] Hk Hp Hop. destruct o as [p k v|p k|p k]; simpl in *.
  - destruct (t_set H fuel T k v) as [T1|] eqn:Hs; simplify_eq/=. apply wp_bind.
    eapply wp_mono; [by eapply (wp_Hashmap_set hash H valid)|]. intros ? h1 Ho1. simpl in Ho1.
    apply wp_ret. split; [done|]. constructor; [done|by eapply set_ok|by eapply set_keys_in].
  - simplify_eq. eapply wp_mono; [by eapply (wp_Hashmap_get hash H valid)|]. by intros r' h1 [-> ->].
  - simplify_eq. eapply wp_mono; [by eapply (wp_Hashmap_delete hash H valid)|]. intros r' h1 [Ho1 ->].
    split; [done|]. constructor; [done|by apply delete_ok|by apply delete_keys_in].
Qed.

Lemma wp_ops_table os : ∀ h T rs, at_table h T →
  Forall (λ o, valid (op_key o) ∧ holds R (op_ptr o) (op_key o)) os → t_ops H fuel T os = Some rs →
  wp (run_ops hash fuel mp os) h (λ rs' h', rs' = rs ∧ ∃ T', owns h' mp T' R).
Proof.
  induction os as [|o os IH]; intros h T rs Ha Hus Hos; simpl in Hos.
  { simplify_eq. apply wp_ret. split; [done|]. exists T. apply Ha. }
  apply Forall_cons in Hus as [[Hk Hp] Hus].
  destruct (t_op H fuel T o) as [[r T1]|] eqn:Hop; [|done]. simpl in Hos.
  destruct (t_ops H fuel T1 os) as [rs1|] eqn:Hos1; simplify_eq/=.
  apply wp_bind. eapply wp_mono; [by eapply wp_op_table|]. intros ? h1 [-> Ha1].
  apply wp_bind. eapply wp_mono; [by eapply IH|]. intros ? h2 [-> HT]. by apply wp_ret.
Qed.
End tables.

(** The two keys of the session below: the second is set again after the
    first, of the same hash, was deleted. *)
Definition reset_ops (p1 : ptr) (k1 : list Z) (v1 : ptr) (p2 : ptr) (k2 : list Z) (v2 v3 : ptr)
    : list op :=
  [OSet p1 k1 v1; OSet p2 k2 v2; ODelete p1 k1; OSet p2 k2 v3; OGet p2 k2; ODelete p2 k2; OGet p2 k2].

(** C29: a deleted value comes back.  For any two keys whose hashes agree
    modulo 8, the capacity of a new map: after both are set and the first is
    deleted, setting the second again takes the slot of the first and leaves
    the second's own slot as it was; so deleting the second uncovers its old
    value, where the finite map has nothing. *)
Theorem map_set_after_delete_duplicates hash H valid `{!HashSpec hash H valid} h p1 k1 v1 p2 k2 v2 v3 :
  heap_ok h → valid k1 → valid k2 → holds (blocks h) p1 k1 → holds (blocks h) p2 k2 →
  k1 ≠ k2 → H k1 mod STARTING_BUCKETS = H k2 mod STARTING_BUCKETS →
  let os := reset_ops p1 k1 v1 p2 k2 v2 v3 in
  wp (session hash 1 os) h (λ rs h',
    rs = [Null; Null; v1; Null; v3; v3; v2] ∧ blocks h' = blocks h) ∧
  spec_ops ∅ os = [Null; Null; v1; Null; v3; v3; Null].
Proof.
  intros Hok Hv1 Hv2 Hp1 Hp2 Hne Hh os. split.
  2:{ simpl. by rewrite lookup_insert_ne, !lookup_insert_eq, lookup_delete_eq by done. }
  destruct (same_home_table H k1 k2 v1 v2 v3 Hne Hh) as (T1 & T2 & T3 & S1 & S2 & G2 & S3 & G3 & G4).
  unfold session. apply wp_bind. eapply wp_mono; [by apply wp_Hashmap_new|].
  intros mp h1 Ho. simpl in Ho. apply wp_bind. eapply wp_mono.
  { eapply (wp_ops_table hash H valid 1 (blocks h) mp os h1 t_new).
    - constructor; [done|apply new_ok|]. by intros q h0 k v [? _]%lookup_replicate.
    - by repeat constructor.
    - subst os. unfold reset_ops. cbn [t_ops t_op].
      rewrite S1. cbn [mbind option_bind]. rewrite S2. cbn [mbind option_bind]. rewrite S3.
      cbn [mbind option_bind]. by rewrite G2, G3, G4. }
  intros ? h2 [-> (T & HT)]. apply wp_bind.
  eapply wp_mono; [by eapply wp_Hashmap_free|]. intros ? h3 [_ ?]. by apply wp_ret.
Qed.

Definition twins_heap : heap obj :=
  Heap {[1%positive := cells (chars "Ez"); 2%positive := cells (chars "FY")]} 3%positive (λ _, false).

Lemma map_set_after_delete_duplicates_witness :
  let os := reset_ops (Ptr 1 0) (chars "Ez") (Ptr 9 1) (Ptr 2 0) (chars "FY") (Ptr 9 2) (Ptr 9 3) in
  wp (session djb2 1 os) twins_heap (λ rs h',
    rs = [Null; Null; Ptr 9 1; Null; Ptr 9 3; Ptr 9 3; Ptr 9 2] ∧ blocks h' = blocks twins_heap) ∧
  spec_ops ∅ os = [Null; Null; Ptr 9 1; Null; Ptr 9 3; Ptr 9 3; Null].
Proof.
  apply (map_set_after_delete_duplicates djb2 (djb2_bytes 5381) (λ k, 0 ∈ k)).
  - constructor; [|done]. intros b Hb. simpl in *.
    by rewrite lookup_insert_ne, lookup_singleton_ne by lia.
  - apply (bool_decide_unpack _). by vm_compute.
  - apply (bool_decide_unpack _). by vm_compute.
  - eexists _, _. split; [done|split; [done|by exists []]].
  - eexists _, _. split; [done|split; [done|by exists []]].
  - done.
  - by vm_compute.
Defined.

(** [next_power_of_2] is the least power of two not below its argument. *)
Theorem next_power_of_2_least n : 1 ≤ n ≤ 2 ^ 63 →
  ∃ e, 0 ≤ e ∧ next_power_of_2 n = 2 ^ e ∧ n ≤ next_power_of_2 n ∧
    ∀ e', 0 ≤ e' → n ≤ 2 ^ e' → next_power_of_2 n ≤ 2 ^ e'.
Proof.
  intros Hn. rewrite next_power_of_2_up by done. exists (Z.log2_up n).
  split; [apply Z.log2_up_nonneg|]. split; [done|]. split.
  - destruct (decide (n = 1)) as [->|]; [done|]. apply Z.log2_up_spec. lia.
  - intros e' He' Hle. apply Z.pow_le_mono_r; [lia|]. apply Z.log2_up_le_pow2; lia.
Qed.

Lemma next_power_of_2_least_witness : next_power_of_2 9 = 16 ∧ ∃ e, 0 ≤ e ∧ next_power_of_2 9 = 2 ^ e ∧
  9 ≤ next_power_of_2 9 ∧ ∀ e', 0 ≤ e' → 9 ≤ 2 ^ e' → next_power_of_2 9 ≤ 2 ^ e'.
Proof. split; [done|]. apply (next_power_of_2_least 9). lia. Defined.
