(* ===== verification/HashmapMain.v ===== *)
(** The test program of hashmap.c: the decimal keys it prints, their djb2
    hashes, and that all its assertions hold. *)
From S2P Require Import Prelude Mem Hashmap HashTable HashmapProofs HashmapSpec.
#[local] Open Scope Z_scope.

(** ** Decimal numbers *)

Definition digit (c : Z) : Prop := 48 ≤ c ≤ 57.

(** The number that decimal digits denote. *)
Definition of_decimal (ds : list Z) : Z := foldl (λ a c, 10 * a + (c - 48)) 0 ds.

Lemma decimal_spec f : ∀ fuel n acc, (f < fuel)%nat → 0 ≤ n < 10 ^ Z.of_nat (S f) →
  ∃ ds, decimal fuel n acc = ds ++ acc ∧ (1 ≤ length ds ≤ S f)%nat ∧ Forall digit ds ∧
    of_decimal ds = n.
Proof.
  induction f as [|f IH]; intros [|fuel] n acc Hf Hn; try lia; cbn [decimal]; cbv zeta;
    pose proof (Z.mod_pos_bound n 10 ltac:(lia)) as Hmod.
  - rewrite (proj2 (Z.ltb_lt n 10)) by lia. exists [48 + n mod 10].
    split; [done|]. split; [simpl; lia|]. split; [constructor; [unfold digit; lia|done]|].
    unfold of_decimal. simpl. rewrite Z.mod_small by lia. lia.
  - destruct (Z.ltb_spec n 10).
    { exists [48 + n mod 10]. split; [done|]. split; [simpl; lia|].
      split; [constructor; [unfold digit; lia|done]|].
      unfold of_decimal. simpl. rewrite Z.mod_small by lia. lia. }
    destruct (IH fuel (n / 10) ((48 + n mod 10) :: acc)) as (ds & -> & Hl & Hd & Hv); [lia| |].
    { rewrite (Nat2Z.inj_succ (S f)), Z.pow_succ_r in Hn by lia.
      split; [apply Z.div_pos; lia|]. apply Z.div_lt_upper_bound; lia. }
    exists (ds ++ [48 + n mod 10]). split; [by rewrite <-(assoc_L (++))|].
    split; [rewrite length_app; simpl; lia|]. split.
    { apply Forall_app. split; [done|]. constructor; [unfold digit; lia|done]. }
    unfold of_decimal in *. rewrite foldl_app, Hv. simpl. dlia.
Qed.

(** ** Hashes of the keys *)

(** [djb2] without wrapping around. *)
Definition djb2_exact (ds : list Z) (h : Z) : Z := foldl (λ h c, 33 * h + c) h ds.

Lemma djb2_exact_bound ds h : Forall digit ds → 0 < h →
  h ≤ djb2_exact ds h ∧ djb2_exact ds h + 2 ≤ (h + 2) * 33 ^ Z.of_nat (length ds).
Proof.
  intros Hd Hh. revert h Hh. induction Hd as [|c ds Hc Hd IH]; intros h Hh; simpl; [lia|].
  unfold digit in Hc. destruct (IH (33 * h + c)) as [H1 H2]; [lia|].
  unfold djb2_exact in *. split; [lia|]. rewrite Nat2Z.inj_succ, Z.pow_succ_r by lia. nia.
Qed.

(** The last digit and the rest can be read off a hash. *)
Lemma djb2_exact_inj h : 0 < h → ∀ ds ds', Forall digit ds → Forall digit ds' →
  djb2_exact ds h = djb2_exact ds' h → ds = ds'.
Proof.
  intros Hh ds. induction ds as [|c ds IH] using rev_ind; intros ds' Hd Hd' Heq.
  - destruct ds' as [|c' ds' _] using rev_ind; [done|].
    apply Forall_app in Hd' as [Hd' [Hc' _]%Forall_cons].
    unfold djb2_exact in Heq. rewrite foldl_app in Heq. simpl in Heq.
    pose proof (proj1 (djb2_exact_bound ds' h Hd' Hh)). unfold djb2_exact, digit in *. lia.
  - apply Forall_app in Hd as [Hd [Hc _]%Forall_cons].
    destruct ds' as [|c' ds' _] using rev_ind.
    + unfold djb2_exact in Heq. rewrite foldl_app in Heq. simpl in Heq.
      pose proof (proj1 (djb2_exact_bound ds h Hd Hh)). unfold djb2_exact, digit in *. lia.
    + apply Forall_app in Hd' as [Hd' [Hc' _]%Forall_cons].
      unfold djb2_exact in Heq. rewrite !foldl_app in Heq. simpl in Heq.
      unfold digit in *. assert (c = c') as -> by dlia.
      f_equal. apply IH; [done|done|]. unfold djb2_exact. lia.
Qed.

(** The hash after "item ". *)
Definition item_hash : Z := Eval vm_compute in djb2_bytes 5381 (removelast (chars "item ")).

Lemma djb2_char_exact h c : 0 ≤ h → 0 ≤ c → 33 * h + c < 2 ^ 58 → djb2_char h c = 33 * h + c.
Proof.
  intros Hh Hc Hlt. unfold djb2_char. rewrite Z.shiftl_mul_pow2 by lia.
  change (2 ^ 5) with 32.
  rewrite (u64_small (h * 32)), (u64_small (h * 32 + h)), (u64_small c), u64_small by lia. lia.
Qed.

Lemma djb2_bytes_digits ds : ∀ h, Forall digit ds → 0 < h →
  (h + 2) * 33 ^ Z.of_nat (length ds) < 2 ^ 58 →
  djb2_bytes h (ds ++ [0]) = djb2_exact ds h.
Proof.
  induction ds as [|c ds IH]; intros h Hd Hh Hlt; [done|].
  apply Forall_cons in Hd as [Hc Hd]. unfold digit in Hc. simpl.
  rewrite (proj2 (Z.eqb_neq c 0)) by lia.
  simpl length in Hlt. rewrite Nat2Z.inj_succ, Z.pow_succ_r in Hlt by lia.
  pose proof (Z.pow_pos_nonneg 33 (Z.of_nat (length ds)) ltac:(lia) ltac:(lia)) as Hpow.
  rewrite djb2_char_exact by nia. apply IH; [done|lia|nia].
Qed.

Lemma djb2_bytes_app h k1 k2 : 0 ∉ k1 →
  djb2_bytes h (k1 ++ k2) = djb2_bytes (foldl djb2_char h k1) k2.
Proof.
  revert h. induction k1 as [|c k1 IH]; intros h H0; simpl; [done|].
  apply not_elem_of_cons in H0 as [Hc H0].
  rewrite (proj2 (Z.eqb_neq c 0)) by congruence. by apply IH.
Qed.

(** What the keys of the items are. *)
Lemma item_spec i : 0 ≤ i < 10000 → ∃ ds, item i = removelast (chars "item ") ++ ds ++ [0] ∧
  (1 ≤ length ds ≤ 4)%nat ∧ Forall digit ds ∧ of_decimal ds = i ∧
  djb2_bytes 5381 (item i) = djb2_exact ds item_hash ∧ 0 ≤ djb2_exact ds item_hash < 2 ^ 58.
Proof.
  intros Hi. destruct (decimal_spec 3 10 i [] ltac:(lia) Hi) as (ds & Hds & Hl & Hd & Hv).
  rewrite app_nil_r in Hds. exists ds. unfold item. rewrite Hds. do 4 (split; [done|]).
  assert ((item_hash + 2) * 33 ^ Z.of_nat (length ds) < 2 ^ 58) as Hlt.
  { assert (33 ^ Z.of_nat (length ds) ≤ 33 ^ 4) by (apply Z.pow_le_mono_r; lia).
    unfold item_hash. lia. }
  destruct (djb2_exact_bound ds item_hash Hd ltac:(done)). split; [|unfold item_hash in *; lia].
  rewrite djb2_bytes_app by (apply (bool_decide_unpack _); by vm_compute).
  change (foldl djb2_char 5381 (removelast (chars "item "))) with item_hash.
  by apply djb2_bytes_digits.
Qed.

(** The keys of the test: two names and the items. *)
Definition test_key (count : Z) (k : list Z) : Prop :=
  k = chars "item a" ∨ k = chars "item b" ∨ ∃ i, 0 ≤ i < count ∧ k = item i.

Lemma name_hash : djb2_bytes 5381 (chars "item a") = 33 * item_hash + 97 ∧
  djb2_bytes 5381 (chars "item b") = 33 * item_hash + 98.
Proof. by vm_compute. Qed.

(** The hash of an item ends in a digit, in base 33. *)
Lemma item_hash_mod i : 0 ≤ i < 10000 → ∃ q c, djb2_bytes 5381 (item i) = 33 * q + c ∧ digit c.
Proof.
  intros Hi. destruct (item_spec i Hi) as (ds & _ & Hl & Hd & _ & -> & _).
  destruct ds as [|c ds _] using rev_ind; [simpl in Hl; lia|].
  apply Forall_app in Hd as [_ [Hc _]%Forall_cons].
  exists (djb2_exact ds item_hash), c. split; [|done]. unfold djb2_exact. by rewrite foldl_app.
Qed.

Lemma item_inj i j : 0 ≤ i < 10000 → 0 ≤ j < 10000 →
  djb2_bytes 5381 (item i) = djb2_bytes 5381 (item j) → i = j.
Proof.
  intros Hi Hj Heq. destruct (item_spec i Hi) as (ds & _ & _ & Hd & <- & Hi' & _).
  destruct (item_spec j Hj) as (ds' & _ & _ & Hd' & <- & Hj' & _).
  f_equal. apply (djb2_exact_inj item_hash); [done..|]. congruence.
Qed.

Lemma test_key_range count k : count ≤ 10000 → test_key count k →
  0 ≤ djb2_bytes 5381 k < 2 ^ 58.
Proof.
  intros Hc [->|[->|(i & Hi & ->)]]; [by vm_compute..|].
  destruct (item_spec i ltac:(lia)) as (ds & _ & _ & _ & _ & -> & ?). done.
Qed.

(** No item has the hash of a name. *)
Lemma item_not_name i x : 0 ≤ i < 10000 → x = 97 ∨ x = 98 →
  djb2_bytes 5381 (item i) ≠ 33 * item_hash + x.
Proof.
  intros Hi Hx. destruct (item_hash_mod i Hi) as (q & c & -> & Hc).
  generalize item_hash. unfold digit in Hc. clear Hi. intros y. lia.
Qed.

Lemma test_keys_distinct count k k' : count ≤ 10000 → test_key count k → test_key count k' →
  djb2_bytes 5381 k mod 2 ^ Z.of_nat 58 = djb2_bytes 5381 k' mod 2 ^ Z.of_nat 58 → k = k'.
Proof.
  intros Hc Hk Hk'. change (Z.of_nat 58) with 58.
  rewrite !Z.mod_small by by eapply test_key_range. destruct name_hash as [Ha Hb].
  assert (∀ i, 0 ≤ i < count → djb2_bytes 5381 (item i) ≠ djb2_bytes 5381 (chars "item a") ∧
    djb2_bytes 5381 (item i) ≠ djb2_bytes 5381 (chars "item b")) as Hne.
  { intros i Hi. rewrite Ha, Hb. split; apply item_not_name; lia. }
  assert (djb2_bytes 5381 (chars "item a") ≠ djb2_bytes 5381 (chars "item b")) as Hab
    by (rewrite Ha, Hb; generalize item_hash; intros; lia).
  clear Ha Hb.
  destruct Hk as [->|[->|(i & Hi & ->)]], Hk' as [->|[->|(j & Hj & ->)]]; intros Heq.
  - reflexivity.
  - destruct (Hab Heq).
  - destruct (proj1 (Hne j Hj) (eq_sym Heq)).
  - destruct (Hab (eq_sym Heq)).
  - reflexivity.
  - destruct (proj2 (Hne j Hj) (eq_sym Heq)).
  - destruct (proj1 (Hne i Hi) Heq).
  - destruct (proj2 (Hne i Hi) Heq).
  - f_equal. apply item_inj; [lia|lia|exact Heq].
Qed.

(** ** The memory of the test *)

Lemma owns_alloc h mp T F c (Q : ptr → heap obj → Prop) : owns h mp T F →
  (∀ b h', F !! b = None → owns h' mp T (<[b := c]> F) → Q (Ptr b 0) h') → wp (alloc c) h Q.
Proof.
  intros (mb & ab & nds & K & -> & (Hop & Hn & Hd)%owned_opened) HQ.
  eapply wp_alloc_opened; [done|]. intros b h' [HbK HbR]%lookup_union_None Hop'.
  apply HQ; [done|]. exists mb, ab, nds, K. split; [done|]. apply owned_opened.
  rewrite insert_union_r in Hop' by done. split_and!; [done|done|].
  by apply map_disjoint_insert_r_2.
Qed.

Lemma owns_store h mp T F b l (i : nat) v : owns h mp T F → F !! b = Some l → (i < length l)%nat →
  wp (store (Ptr b (Z.of_nat i)) v) h (λ _ h', owns h' mp T (<[b := <[i := Some v]> l]> F)).
Proof.
  intros (mb & ab & nds & K & -> & (Hop & Hn & Hd)%owned_opened) Hb Hi.
  pose proof (map_disjoint_Some_r _ _ _ _ Hd Hb) as HbK.
  assert ((K ∪ F) !! b = Some l) as HbF by by apply lookup_union_Some_r.
  eapply wp_store; [by eapply opened_F|lia|]. rewrite Nat2Z.id.
  exists mb, ab, nds, K. split; [done|]. apply owned_opened.
  destruct Hop as (Hok & Hbl & Hne & Hmb & Hab).
  assert (b ≠ mb ∧ b ≠ ab) as [? ?] by (split; intros ->; congruence).
  split_and!; [|done|by apply map_disjoint_insert_r_2].
  rewrite <-insert_union_r by done. split_and!; [|simpl|done|by rewrite lookup_insert_ne..].
  - apply heap_ok_insert; [done|]. rewrite Hbl, !lookup_insert_ne by done. eauto.
  - by rewrite Hbl, (insert_insert_ne _ b mb), (insert_insert_ne _ b ab).
Qed.

Lemma owns_store_chars mp T b cs : ∀ h F l (i : nat), owns h mp T F → F !! b = Some l →
  (i + length cs ≤ length l)%nat →
  wp (store_chars (Ptr b (Z.of_nat i)) cs) h (λ _ h', ∃ l', length l' = length l ∧
    take i l' = take i l ∧ cells cs `prefix_of` drop i l' ∧ owns h' mp T (<[b := l']> F)).
Proof.
  induction cs as [|c cs IH]; intros h F l i Ho Hb Hl; cbn [store_chars].
  { apply wp_ret. exists l. rewrite insert_id by done. split_and!; try done. apply prefix_nil. }
  simpl in Hl. apply wp_bind. eapply wp_mono; [eapply owns_store; [done|done|lia]|].
  intros ? h1 Ho1. simpl in Ho1. cbn [ptr_add]. rewrite Z.add_1_r, <-Nat2Z.inj_succ.
  eapply wp_mono; [eapply (IH _ _ _ (S i)); [done|by rewrite lookup_insert_eq|]|].
  { rewrite length_insert. lia. }
  intros ? h2 (l' & Hlen & Htake & Hpre & Ho2).
  rewrite length_insert in Hlen. rewrite insert_insert_eq in Ho2.
  assert (l' !! i = Some (Some (OByte c))) as Hi.
  { rewrite <-(lookup_take_lt l' (S i)), Htake, lookup_take_lt by lia.
    apply list_lookup_insert_eq. lia. }
  exists l'. split; [done|]. split; [|split; [|done]].
  - apply (f_equal (take i)) in Htake. rewrite !take_take, !Nat.min_l in Htake by lia.
    rewrite Htake. apply take_insert_ge. lia.
  - rewrite (drop_S _ _ _ Hi). by apply prefix_cons.
Qed.

(** A C string. *)
Definition c_string (k : list Z) : Prop := ∃ s, k = s ++ [0] ∧ 0 ∉ s.

Lemma strlen_loop_spec h b l : blocks h !! b = Some l → ∀ s fuel (i : nat) n,
  cells (s ++ [0]) `prefix_of` drop i l → 0 ∉ s → (length s < fuel)%nat →
  strlen_loop fuel (Ptr b (Z.of_nat i)) n h = Ok (n + Z.of_nat (length s), h).
Proof.
  intros Hb. induction s as [|c s IH]; intros [|fuel] i n [r Hr] H0 Hf; try (simpl in Hf; lia).
  - assert (load_byte (Ptr b (Z.of_nat i)) h = Ok (0, h)) as Hl.
    { unfold load_byte, mbind, comp_bind, load. rewrite Hb, (proj2 (Z.ltb_ge _ _)) by lia.
      by rewrite Nat2Z.id, <-(Nat.add_0_r i), <-lookup_drop, Hr. }
    cbn [strlen_loop]. unfold mbind, comp_bind. rewrite Hl. simpl. by rewrite Z.add_0_r.
  - assert (load_byte (Ptr b (Z.of_nat i)) h = Ok (c, h)) as Hl.
    { unfold load_byte, mbind, comp_bind, load. rewrite Hb, (proj2 (Z.ltb_ge _ _)) by lia.
      by rewrite Nat2Z.id, <-(Nat.add_0_r i), <-lookup_drop, Hr. }
    apply not_elem_of_cons in H0 as [Hc H0].
    cbn [strlen_loop]. unfold mbind, comp_bind. rewrite Hl, (proj2 (Z.eqb_neq c 0)) by congruence.
    cbn [ptr_add]. rewrite Z.add_1_r, <-Nat2Z.inj_succ, IH; [f_equal; f_equal; simpl; lia| |done|].
    + exists r. rewrite <-Nat.add_1_r, <-drop_drop, Hr. done.
    + simpl in Hf. lia.
Qed.

Lemma wp_strlen h mp T F p k (Q : Z → heap obj → Prop) : owns h mp T F → holds F p k →
  c_string k → Q (Z.of_nat (length k) - 1) h → wp (strlen p) h Q.
Proof.
  intros Ho (b & l & -> & Hb & Hpre) (s & -> & H0) HQ.
  pose proof (owns_lookup _ _ _ _ _ _ Ho Hb) as Hbl.
  unfold wp, strlen, mbind, comp_bind, block_of. rewrite Hbl.
  rewrite (strlen_loop_spec h b l Hbl s _ 0); [|by rewrite drop_0|done|].
  - rewrite length_app in HQ. simpl in HQ.
    by replace (0 + Z.of_nat (length s)) with (Z.of_nat (length s + 1) - 1) by lia.
  - destruct Hpre as [r ->]. unfold cells. rewrite length_app, length_fmap, length_app. simpl. lia.
Qed.

Lemma wp_for_up (I : Z → heap obj → Prop) body n : ∀ i h,
  (∀ j h, i ≤ j < i + Z.of_nat n → I j h → wp (body j) h (λ _ h', I (j + 1) h')) →
  I i h → wp (for_up n i body) h (λ _ h', I (i + Z.of_nat n) h').
Proof.
  induction n as [|n IH]; intros i h Hbody HI; cbn [for_up].
  { apply wp_ret. by rewrite Z.add_0_r. }
  apply wp_bind. eapply wp_mono; [apply Hbody; [lia|done]|]. intros ? h1 HI1.
  replace (i + Z.of_nat (S n)) with (i + 1 + Z.of_nat n) by lia.
  apply IH; [|done]. intros j h' Hj. apply Hbody. lia.
Qed.

(** ** The test *)

Lemma c_string_check k : bool_decide (k = removelast k ++ [0] ∧ 0 ∉ removelast k) = true → c_string k.
Proof. intros [? ?]%bool_decide_eq_true. by exists (removelast k). Qed.

Lemma item_string i : 0 ≤ i < 10000 → c_string (item i) ∧ (length (item i) ≤ 10)%nat.
Proof.
  intros Hi. destruct (item_spec i Hi) as (ds & -> & Hl & Hd & _). split.
  - exists (removelast (chars "item ") ++ ds). rewrite (assoc_L (++)). split; [done|].
    rewrite not_elem_of_app. split; [by apply (bool_decide_unpack _); vm_compute|].
    intros H0. eapply Forall_forall in Hd; [|done]. unfold digit in Hd. lia.
  - rewrite !length_app. change (length (removelast (chars "item "))) with 5%nat. simpl. lia.
Qed.

Section test.
Context (fuel : nat) (count : Z).
Hypothesis Hfuel : (55 < fuel)%nat.
Hypothesis Hcount : 0 ≤ count ≤ 10000.

#[local] Abbreviation P := (test_key count).
#[local] Abbreviation agrees := (agrees (djb2_bytes 5381) P 58).

Lemma test_key_string k : P k → c_string k.
Proof.
  intros [->|[->|(i & Hi & ->)]]; [by apply c_string_check; vm_compute..|].
  apply item_string. lia.
Qed.

Lemma test_key_valid k : P k → 0 ∈ k.
Proof.
  intros (s & -> & _)%test_key_string. apply elem_of_app. right. by left.
Qed.

Lemma agrees_frame R h mp m clean T h' R' : agrees R h mp m clean T → owns h' mp T R' →
  agrees R' h' mp m clean T.
Proof. intros [[Ho Hok Hs] Hu Hc Hcl] Ho'. by constructor. Qed.

Lemma agrees_owns R h mp m clean T : agrees R h mp m clean T → owns h mp T R.
Proof. intros [[Ho _ _] _ _ _]. done. Qed.

Lemma wp_test_set R h mp m clean T p k v : agrees R h mp m clean T → P k → holds R p k →
  clean = true ∨ m !! k = None →
  wp (test_set fuel mp p v) h
    (λ _ h', ∃ T', agrees R h' mp (<[k := v]> m) clean T').
Proof.
  intros Ha HP Hh Hset. unfold test_set. apply wp_bind.
  eapply wp_strlen; [by eapply agrees_owns|done|by apply test_key_string|]. rewrite Z.sub_add.
  eapply (wp_set_agrees djb2 (djb2_bytes 5381) (λ k, 0 ∈ k) P 58 fuel R test_key_valid);
    try done; try lia.
  intros k1 k2. apply test_keys_distinct. lia.
Qed.

Lemma wp_test_expect R h mp m clean T p k v : agrees R h mp m clean T → P k → holds R p k →
  default Null (m !! k) = v →
  wp (test_get mp p v) h (λ _ h', h' = h).
Proof.
  intros Ha HP Hh Hv. unfold test_get. apply wp_bind, wp_bind.
  eapply wp_strlen; [by eapply agrees_owns|done|by apply test_key_string|]. rewrite Z.sub_add.
  eapply wp_mono; [eapply (wp_get_agrees djb2 (djb2_bytes 5381) (λ k, 0 ∈ k) P 58 R test_key_valid);
    done|].
  intros r h' [-> ->]. by apply wp_assert; [apply bool_decide_eq_true|].
Qed.
Lemma P_name_a : P (chars "item a").
Proof. by left. Qed.

Lemma P_name_b : P (chars "item b").
Proof. by right; left. Qed.

Lemma P_item i : 0 ≤ i < count → P (item i).
Proof. intros Hi. right. right. by exists i. Qed.

Lemma item_ne_names i : 0 ≤ i < count → item i ≠ chars "item a" ∧ item i ≠ chars "item b".
Proof.
  intros Hi. destruct name_hash as [Ha Hb].
  split; intros Heq; apply (f_equal (djb2_bytes 5381)) in Heq; revert Heq; rewrite ?Ha, ?Hb;
    apply item_not_name; lia.
Qed.

(** [sprintf] prints the key of an item into the buffer. *)
Lemma wp_sprintf R h mp m clean T b l i : agrees (<[b := l]> R) h mp m clean T →
  length l = 10%nat → 0 ≤ i < count →
  wp (sprintf_item (Ptr b 0) i) h (λ _ h', ∃ l', length l' = 10%nat ∧
    holds (<[b := l']> R) (Ptr b 0) (item i) ∧ agrees (<[b := l']> R) h' mp m clean T).
Proof.
  intros Ha Hl Hi. destruct (item_string i) as [_ Hlen]; [lia|].
  eapply wp_mono.
  { eapply (owns_store_chars mp T b (item i) h _ l 0); [by eapply agrees_owns| |lia].
    by rewrite lookup_insert_eq. }
  intros ? h' (l' & Hl' & _ & Hpre & Ho). rewrite insert_insert_eq in Ho. rewrite drop_0 in Hpre.
  exists l'. split; [congruence|]. split; [|by eapply agrees_frame].
  exists b, l'. by rewrite lookup_insert_eq.
Qed.

(** The loop that sets the items. *)
Lemma wp_set_items R h mp m clean T b l ns : agrees (<[b := l]> R) h mp m clean T →
  length l = 10%nat → (∀ i, 0 ≤ i < count → m !! item i = None) →
  wp (for_up (Z.to_nat count) 0 (λ i, sprintf_item (Ptr b 0) i;;
        test_set fuel mp (Ptr b 0) (ptr_add ns i))) h
    (λ _ h', ∃ m' T' l', agrees (<[b := l']> R) h' mp m' clean T' ∧ length l' = 10%nat ∧
       ∀ i, 0 ≤ i < count → m' !! item i = Some (ptr_add ns i)).
Proof.
  intros Ha Hl Hm.
  set (I j (h : heap obj) := ∃ m T l, agrees (<[b := l]> R) h mp m clean T ∧ length l = 10%nat ∧
    (∀ i, 0 ≤ i < j → m !! item i = Some (ptr_add ns i)) ∧
    (∀ i, j ≤ i < count → m !! item i = None)).
  eapply wp_mono; [apply (wp_for_up I)|].
  - clear h m T l Ha Hl Hm. intros j h Hj (m & T & l & Ha & Hl & Hlow & Hhigh).
    assert (0 ≤ j < count) as Hjc by lia.
    apply wp_bind. eapply wp_mono; [exact (wp_sprintf _ _ _ _ _ _ _ _ _ Ha Hl Hjc)|].
    intros ? h1 (l1 & Hl1 & Hh1 & Ha1).
    eapply wp_mono; [eapply wp_test_set; [exact Ha1|by apply P_item|done|]|].
    { right. apply Hhigh. lia. }
    intros ? h2 (T' & Ha2). exists (<[item j := ptr_add ns j]> m), T', l1.
    split; [done|]. split; [done|]. split; intros i Hi.
    + destruct (decide (i = j)) as [->|Hne]; [by rewrite lookup_insert_eq|].
      rewrite lookup_insert_ne; [apply Hlow; lia|]. intros Heq. apply Hne.
      apply item_inj; [lia|lia|by rewrite Heq].
    + rewrite lookup_insert_ne; [apply Hhigh; lia|]. intros Heq.
      assert (j = i) by (apply item_inj; [lia|lia|by rewrite Heq]). lia.
  - exists m, T, l. split; [done|]. split; [done|]. split; [intros i Hi; lia|exact Hm].
  - intros ? h' (m' & T' & l' & Ha' & Hl' & Hlow & _). exists m', T', l'. split; [done|].
    split; [done|]. intros i Hi. apply Hlow. lia.
Qed.

(** The loop that looks them up. *)
Lemma wp_expect_items R h mp m clean T b l ns : agrees (<[b := l]> R) h mp m clean T →
  length l = 10%nat → (∀ i, 0 ≤ i < count → m !! item i = Some (ptr_add ns i)) →
  wp (for_up (Z.to_nat count) 0 (λ i, sprintf_item (Ptr b 0) i;;
        test_get mp (Ptr b 0) (ptr_add ns i))) h
    (λ _ h', ∃ T' l', agrees (<[b := l']> R) h' mp m clean T').
Proof.
  intros Ha Hl Hm.
  set (I (j : Z) (h : heap obj) := ∃ l, agrees (<[b := l]> R) h mp m clean T ∧ length l = 10%nat).
  eapply wp_mono; [apply (wp_for_up I)|].
  - clear h l Ha Hl. intros j h Hj (l & Ha & Hl). assert (0 ≤ j < count) as Hjc by lia.
    apply wp_bind. eapply wp_mono; [exact (wp_sprintf _ _ _ _ _ _ _ _ _ Ha Hl Hjc)|].
    intros ? h1 (l1 & Hl1 & Hh1 & Ha1).
    eapply wp_mono; [eapply wp_test_expect; [exact Ha1|by apply P_item|done|]|].
    { by rewrite Hm. }
    intros ? h2 ->. by exists l1.
  - by exists l.
  - intros ? h' (l' & Ha' & _). by exists T, l'.
Qed.

(** The part of [main] before the items. *)
Lemma wp_test_names R h mp pa pb a b c :
  in_use (djb2_bytes 5381) P 58 R h mp t_new →
  holds R pa (chars "item a") → holds R pb (chars "item b") →
  wp (test_names fuel mp pa pb a b c) h
    (λ _ h', ∃ m clean T, agrees R h' mp m clean T ∧ ∀ i, 0 ≤ i < count → m !! item i = None).
Proof.
  intros Hu Ha Hb. unfold test_names. pose proof (agrees_new _ _ _ _ _ _ Hu) as Hag.
  pose proof (P_name_a) as Pa. pose proof (P_name_b) as Pb.
  assert (chars "item a" ≠ chars "item b") as Hne by done.
  apply wp_bind. eapply wp_mono; [eapply wp_test_set; [exact Hag|exact Pa|done|by left]|].
  clear Hag Hu h. intros ? h (T1 & Hag).
  apply wp_bind. eapply wp_mono; [eapply wp_test_set; [exact Hag|exact Pb|done|by left]|].
  clear Hag h. intros ? h (T2 & Hag).
  apply wp_bind. eapply wp_mono; [eapply wp_test_expect; [exact Hag|exact Pa|done|]|].
  { by rewrite lookup_insert_ne, lookup_insert_eq. }
  intros ? ? ->.
  apply wp_bind. eapply wp_mono; [eapply wp_test_expect; [exact Hag|exact Pb|done|]|].
  { by rewrite lookup_insert_eq. }
  intros ? ? ->.
  apply wp_bind. eapply wp_mono; [eapply wp_test_set; [exact Hag|exact Pa|done|by left]|].
  clear Hag h. intros ? h (T3 & Hag).
  apply wp_bind. eapply wp_mono; [eapply wp_test_expect; [exact Hag|exact Pa|done|]|].
  { by rewrite lookup_insert_eq. }
  intros ? ? ->.
  apply wp_bind. eapply wp_strlen; [by eapply agrees_owns|exact Ha|by apply test_key_string|].
  rewrite Z.sub_add. apply wp_bind. eapply wp_mono.
  { eapply (wp_delete_agrees djb2 (djb2_bytes 5381) (λ k, 0 ∈ k) P 58 R test_key_valid); done. }
  clear Hag h. intros ? h (_ & T4 & Hag).
  eapply wp_mono; [eapply wp_test_expect; [exact Hag|exact Pa|done|]|].
  { by rewrite lookup_delete_eq. }
  intros ? ? ->. eexists _, _, T4. split; [exact Hag|]. intros i Hi.
  destruct (item_ne_names i Hi) as [Hia Hib].
  by rewrite lookup_delete_ne, !lookup_insert_ne by congruence.
Qed.
End test.

(** ** The properties *)

(** C9: the test program of hashmap.c passes: with any allocator that does
    not fail, all its assertions hold, for its 8000 items and for any number
    up to the 10000 whose keys fit the buffer, and the memory it allocated for
    the map is freed: what is left are its two literals and its buffer. *)
Theorem hashmap_main_passes fuel count a b c ns h :
  (55 < fuel)%nat → 0 ≤ count ≤ 10000 → heap_ok h →
  wp (main_with fuel count a b c ns) h (λ _ h', heap_ok h' ∧
    ∃ b1 b2 b3 l, blocks h' = <[b3 := l]> (<[b2 := cells (chars "item b")]>
      (<[b1 := cells (chars "item a")]> (blocks h)))).
Proof.
  intros Hfuel Hcount Hok. unfold main_with.
  apply wp_bind. unfold literal at 1. apply wp_alloc; [done|]. intros b1 h1 _ Hb1 Hbl1 Hok1.
  apply wp_bind. unfold literal at 1. apply wp_alloc; [done|]. intros b2 h2 _ Hb2 Hbl2 Hok2.
  assert (b1 ≠ b2) as Hne by (intros ->; by rewrite Hbl1, lookup_insert_eq in Hb2).
  set (R := blocks h2).
  assert (holds R (Ptr b1 0) (chars "item a")) as Ha.
  { exists b1, (cells (chars "item a")). subst R. by rewrite Hbl2, lookup_insert_ne, Hbl1, lookup_insert_eq. }
  assert (holds R (Ptr b2 0) (chars "item b")) as Hb.
  { exists b2, (cells (chars "item b")). subst R. by rewrite Hbl2, lookup_insert_eq. }
  apply wp_bind. eapply wp_mono.
  { apply (in_use_new (djb2_bytes 5381) (test_key count) 58 fuel R ltac:(lia) Hfuel h2 Hok2 eq_refl). }
  intros mp h3 Hu. simpl in Hu. apply wp_bind.
  eapply wp_mono; [exact (wp_test_names fuel count Hfuel Hcount R h3 mp _ _ a b c Hu Ha Hb)|].
  intros ? h4 (m & clean & T & Hag & Hm). apply wp_bind.
  eapply owns_alloc; [by eapply agrees_owns|]. intros b3 h5 Hb3 Ho5.
  assert (agrees (djb2_bytes 5381) (test_key count) 58
    (<[b3 := replicate (Z.to_nat MAX_KEY_SIZE) None]> R) h5 mp m clean T) as Hag5
    by by eapply agrees_frame.
  apply wp_bind. eapply wp_mono.
  { exact (wp_set_items fuel count Hfuel Hcount R h5 mp m clean T b3 _ ns Hag5 eq_refl Hm). }
  intros ? h6 (m' & T' & l' & Hag6 & Hl' & Hm'). apply wp_bind. eapply wp_mono.
  { exact (wp_expect_items fuel count Hfuel Hcount R h6 mp m' clean T' b3 l' ns Hag6 Hl' Hm'). }
  intros ? h7 (T2 & l2 & Hag7). eapply wp_mono.
  { eapply wp_Hashmap_free, agrees_owns, Hag7. }
  intros ? h8 [Hok8 Hb8]. split; [done|]. exists b1, b2, b3, l2.
  rewrite Hb8. subst R. by rewrite Hbl2, Hbl1.
Qed.

(** The program itself, in an empty heap. *)
Lemma hashmap_main_passes_witness :
  wp (main 56 (Ptr 100 0) (Ptr 101 0) (Ptr 102 0) (Ptr 103 0)) (heap_empty (λ _, false))
    (λ _ h', heap_ok h' ∧
      ∃ b1 b2 b3 l, blocks h' = <[b3 := l]> (<[b2 := cells (chars "item b")]>
        (<[b1 := cells (chars "item a")]> ∅))).
Proof.
  apply (hashmap_main_passes 56 (STARTING_BUCKETS * 1000)); [lia|done|apply heap_empty_ok].
Defined.

(** ** What the hash function computes *)

(** The value in base 33 of the characters [s], the first one highest. *)
Fixpoint base33 (s : list Z) : Z :=
  match s with
  | [] => 0
  | c :: s => c * 33 ^ Z.of_nat (length s) + base33 s
  end.

Lemma djb2_char_mod h c : djb2_char h c = (33 * h + c) mod 2 ^ 64.
Proof.
  unfold djb2_char, u64. rewrite Z.shiftl_mul_pow2 by lia. change (2 ^ 5) with 32.
  rewrite <-Zplus_mod, <-Z.add_assoc, Zplus_mod_idemp_l. f_equal. lia.
Qed.

Lemma djb2_bytes_base33 s : ∀ x, 0 ∉ s →
  djb2_bytes (x mod 2 ^ 64) (s ++ [0]) = (x * 33 ^ Z.of_nat (length s) + base33 s) mod 2 ^ 64.
Proof.
  induction s as [|c s IH]; intros x H0; [simpl; f_equal; lia|].
  apply not_elem_of_cons in H0 as [Hc H0]. cbn [app djb2_bytes].
  rewrite (proj2 (Z.eqb_neq c 0)) by congruence. rewrite djb2_char_mod.
  replace ((33 * (x mod 2 ^ 64) + c) mod 2 ^ 64) with ((33 * x + c) mod 2 ^ 64)
    by (by rewrite <-(Zplus_mod_idemp_l (33 * (x mod _))), Zmult_mod_idemp_r, Zplus_mod_idemp_l).
  rewrite IH by done. f_equal. cbn [base33 length]. rewrite Nat2Z.inj_succ, Z.pow_succ_r by lia. ring.
Qed.

(** C34: the hash function.  On every NUL-terminated string in the heap
    [djb2], with its shifts and sums of 64 bits, ends, reads no further than
    the NUL, changes nothing, and returns modulo [2 ^ 64] the number whose
    digits in base 33 are 5381 and then the (signed) characters. *)
Theorem djb2_is_base33 h p s :
  holds (blocks h) p (s ++ [0]) → 0 ∉ s →
  djb2 p h = Ok ((5381 * 33 ^ Z.of_nat (length s) + base33 s) mod 2 ^ 64, h).
Proof.
  intros (b & l & -> & Hb & Hpre) H0.
  rewrite (djb2_spec h b l (s ++ [0]) Hb Hpre) by (apply elem_of_app; right; by left).
  by rewrite <-djb2_bytes_base33.
Qed.

(** "ab", of the hash 5381 * 33 * 33 + 97 * 33 + 98. *)
Lemma djb2_is_base33_witness : djb2 (Ptr 1 0) sample_heap = Ok (5863208, sample_heap).
Proof.
  rewrite (djb2_is_base33 sample_heap (Ptr 1 0) [97; 98]).
  - by vm_compute.
  - eexists _, _. split; [done|split; [done|by exists []]].
  - apply (bool_decide_unpack _). by vm_compute.
Defined.
