(* ===== verification/CString.v ===== *)
(** C strings in the heap, for the two shells: [strcmp], [strtok] and
    [strsep] of <string.h>, which cut a line up in place, and the reading of
    the argument vector that [execvp] is given.  [words] is what cutting a
    line at its delimiters gives. *)
From S2P Require Import Prelude Mem.
#[local] Open Scope Z_scope.

(** A cell holds a [char] or a [char *]. *)
Inductive cell := CChar (c : Z) | CPtr (p : ptr).

#[local] Abbreviation M := (comp (heap cell)).

Definition load_char (p : ptr) : M Z :=
  c ← load p; match c with CChar c => mret c | CPtr _ => fail BadCast end.
Definition load_ptr (p : ptr) : M ptr :=
  c ← load p; match c with CPtr p => mret p | CChar _ => fail BadCast end.

(** The cells a string takes, with its NUL. *)
Definition str (s : list Z) : list (option cell) := (Some ∘ CChar) <$> (s ++ [0]).

(** ** <string.h> *)

(** The loops below stop at the NUL of the string, within its block; [room]
    is the length of the block, which bounds them. *)
Definition room (p : ptr) : M nat := l ← block_of p; mret (S (length l)).

(** [strcmp(p, s)] for a literal [s]; only whether it is 0 is used. *)
Fixpoint strcmp_lit (p : ptr) (s : list Z) : M Z :=
  match s with
  | [] => load_char p
  | x :: s => c ← load_char p;
              if c =? x then strcmp_lit (ptr_add p 1) s else mret (c - x)
  end.

(** The first position from [p] on whose character is not, or is, a
    delimiter; the NUL ends both. *)
Definition skip_step (delims : list Z) (p : ptr) : M (ptr + ptr) :=
  c ← load_char p;
  mret (if bool_decide (c ∈ delims) then inl (ptr_add p 1) else inr p).
Definition scan_step (delims : list Z) (p : ptr) : M (ptr + ptr) :=
  c ← load_char p;
  mret (if (c =? 0) || bool_decide (c ∈ delims) then inr p else inl (ptr_add p 1)).

(** [strtok(s, delims)]; [save] is its hidden state, returned updated. *)
Definition strtok (delims : list Z) (save s : ptr) : M (ptr * ptr) :=
  let p := if is_null s then save else s in
  n ← room p;
  tok ← loop n (skip_step delims) p;
  c ← load_char tok;
  if c =? 0 then mret (Null, tok) else
  e ← loop n (scan_step delims) tok;
  c ← load_char e;
  if c =? 0 then mret (tok, e)
  else store e (CChar 0);; mret (tok, ptr_add e 1).

(** [strsep(&s, delims)]: the token and the new [s]. *)
Definition strsep (delims : list Z) (s : ptr) : M (ptr * ptr) :=
  if is_null s then mret (Null, Null) else
  n ← room s;
  e ← loop n (scan_step delims) s;
  c ← load_char e;
  if c =? 0 then mret (s, Null)
  else store e (CChar 0);; mret (s, ptr_add e 1).

(** The string at a pointer. *)
Definition read_step (l : ptr * list Z) : M ((ptr * list Z) + list Z) :=
  let '(p, s) := l in
  c ← load_char p;
  mret (if c =? 0 then inr s else inl (ptr_add p 1, s ++ [c])).
Definition read_string (p : ptr) : M (list Z) := n ← room p; loop n read_step (p, []).

(** The strings of an argument vector, up to its NULL. *)
Definition argv_step (l : ptr * list (list Z)) : M ((ptr * list (list Z)) + list (list Z)) :=
  let '(p, ss) := l in
  q ← load_ptr p;
  if is_null q then mret (inr ss) else
  s ← read_string q;
  mret (inl (ptr_add p 1, ss ++ [s])).
Definition read_argv (argv : ptr) : M (list (list Z)) :=
  n ← room argv; loop n argv_step (argv, []).

(** Storing characters from [p] on. *)
Fixpoint store_chars (p : ptr) (cs : list Z) : M unit :=
  match cs with
  | [] => mret tt
  | c :: cs => store p (CChar c);; store_chars (ptr_add p 1) cs
  end.

(** ** Words *)

Definition word_of (w : list Z) : list (list Z) := if decide (w = []) then [] else [w].

(** The words of [s] after the letters [w] of one. *)
Fixpoint words_after (delims w s : list Z) : list (list Z) :=
  match s with
  | [] => word_of w
  | c :: s => if decide (c ∈ delims) then word_of w ++ words_after delims [] s
              else words_after delims (w ++ [c]) s
  end.
Definition words (delims s : list Z) : list (list Z) := words_after delims [] s.

(** ** Strings in a block *)

(** The string [w] is at offset [o] of the cells [l]. *)
Definition string_at (l : list (option cell)) (o : nat) (w : list Z) : Prop :=
  str w `prefix_of` drop o l.

(** ** Lemmas on words *)

Section words.
Context (delims : list Z).

Lemma words_skip ds s : Forall (λ c, c ∈ delims) ds → words delims (ds ++ s) = words delims s.
Proof.
  induction 1 as [|c ds Hc Hds IH]; [done|]. unfold words in *. simpl. by rewrite decide_True.
Qed.

Lemma words_letters ds : ∀ w s, Forall (λ c, c ∉ delims) ds →
  words_after delims w (ds ++ s) = words_after delims (w ++ ds) s.
Proof.
  induction ds as [|c ds IH]; intros w s Hds; [by rewrite app_nil_r|].
  apply Forall_cons in Hds as [Hc Hds]. simpl. rewrite decide_False, IH by done.
  by rewrite <-(assoc_L (++)).
Qed.

(** The first word, up to the delimiter that ends it or to the end. *)
Lemma words_first w : w ≠ [] → Forall (λ c, c ∉ delims) w → words delims w = [w].
Proof.
  intros Hne Hw. unfold words. rewrite <-(app_nil_r w) at 1.
  rewrite words_letters by done. simpl. unfold word_of. by rewrite decide_False.
Qed.

Lemma words_first_delim w d s : w ≠ [] → Forall (λ c, c ∉ delims) w → d ∈ delims →
  words delims (w ++ d :: s) = w :: words delims s.
Proof.
  intros Hne Hw Hd. unfold words. rewrite words_letters by done. simpl.
  rewrite decide_True by done. unfold word_of. by rewrite decide_False.
Qed.

(** A line is delimiters, a word, and what follows. *)
Lemma split_delims (P : Z → Prop) `{!∀ c, Decision (P c)} s :
  ∃ ds r, s = ds ++ r ∧ Forall P ds ∧ (r = [] ∨ ∃ c r', r = c :: r' ∧ ¬ P c).
Proof.
  induction s as [|c s (ds & r & -> & Hds & Hr)]; [exists [], []; auto|].
  destruct (decide (P c)).
  - exists (c :: ds), r. eauto.
  - exists [], (c :: ds ++ r). split; [done|]. split; [done|]. right. eauto.
Qed.
End words.

(** ** Reading a block *)

Section reading.
Context (h : heap cell) (b : positive) (l : list (option cell)).
Hypothesis Hb : blocks h !! b = Some l.

Lemma wp_load_char_at (o : nat) c (Q : Z → heap cell → Prop) :
  l !! o = Some (Some (CChar c)) → Q c h → wp (load_char (Ptr b (Z.of_nat o))) h Q.
Proof.
  intros Ho HQ. unfold load_char. apply wp_bind.
  eapply (wp_load _ _ _ l (CChar c)); [exact Hb|lia|by rewrite Nat2Z.id|done].
Qed.

Lemma wp_load_ptr_at (o : nat) p (Q : ptr → heap cell → Prop) :
  l !! o = Some (Some (CPtr p)) → Q p h → wp (load_ptr (Ptr b (Z.of_nat o))) h Q.
Proof.
  intros Ho HQ. unfold load_ptr. apply wp_bind.
  eapply (wp_load _ _ _ l (CPtr p)); [exact Hb|lia|by rewrite Nat2Z.id|done].
Qed.

Lemma wp_room (o : Z) (Q : nat → heap cell → Prop) :
  Q (S (length l)) h → wp (room (Ptr b o)) h Q.
Proof. intros HQ. unfold room, wp, mbind, comp_bind, block_of. by rewrite Hb. Qed.

(** The characters of a string, its NUL, and what is after its first ones. *)
Lemma string_at_cons o c w : string_at l o (c :: w) →
  l !! o = Some (Some (CChar c)) ∧ string_at l (S o) w.
Proof.
  intros [r Hr]. split.
  - by rewrite <-(Nat.add_0_r o), <-lookup_drop, Hr.
  - exists r. by rewrite <-Nat.add_1_r, <-drop_drop, Hr.
Qed.

Lemma string_at_nil o : string_at l o [] → l !! o = Some (Some (CChar 0)).
Proof. intros [r Hr]. by rewrite <-(Nat.add_0_r o), <-lookup_drop, Hr. Qed.

Lemma string_at_app o w1 w2 : string_at l o (w1 ++ w2) → string_at l (o + length w1) w2.
Proof.
  revert o. induction w1 as [|c w1 IH]; intros o Hs; [by rewrite Nat.add_0_r|].
  apply string_at_cons in Hs as [_ Hs]. simpl. rewrite <-Nat.add_succ_comm. by apply IH.
Qed.

Lemma string_at_length o w : string_at l o w → (o + length w < length l)%nat.
Proof.
  intros Hs. rewrite <-(app_nil_r w) in Hs. apply string_at_app, string_at_nil, lookup_lt_Some in Hs.
  done.
Qed.

(** Skipping the characters [ds] of a string. *)
Lemma wp_skip delims ds r : ∀ o fuel, string_at l o (ds ++ r) → 0 ∉ delims →
  Forall (λ c, c ∈ delims) ds → (r = [] ∨ ∃ c r', r = c :: r' ∧ c ∉ delims) →
  (length ds < fuel)%nat →
  wp (loop fuel (skip_step delims) (Ptr b (Z.of_nat o))) h
    (λ p h', h' = h ∧ p = Ptr b (Z.of_nat (o + length ds))).
Proof.
  induction ds as [|c ds IH]; intros o [|fuel] Hs H0 Hds Hr Hf; try (simpl in Hf; lia);
    cbn [loop]; apply wp_bind; unfold skip_step at 1; apply wp_bind.
  - rewrite Nat.add_0_r.
    assert (∃ c, l !! o = Some (Some (CChar c)) ∧ c ∉ delims) as (c & Hc & Hnc).
    { destruct Hr as [->|(c & r' & -> & Hc)].
      - exists 0. by rewrite (string_at_nil o).
      - exists c. apply string_at_cons in Hs as [Hs _]. done. }
    eapply wp_load_char_at; [done|]. rewrite bool_decide_eq_false_2 by done.
    apply wp_ret. by apply wp_ret.
  - apply string_at_cons in Hs as [Hc Hs]. apply Forall_cons in Hds as [Hd Hds].
    eapply wp_load_char_at; [done|]. rewrite bool_decide_eq_true_2 by done. apply wp_ret.
    cbn [ptr_add]. rewrite Z.add_1_r, <-Nat2Z.inj_succ. simpl in Hf.
    eapply wp_mono; [by apply IH; [..|lia]|]. intros p h' [-> ->]. split; [done|].
    f_equal. simpl. lia.
Qed.

(** Scanning a word [w]. *)
Lemma wp_scan delims w r : ∀ o fuel, string_at l o (w ++ r) →
  0 ∉ w → Forall (λ c, c ∉ delims) w → (r = [] ∨ ∃ c r', r = c :: r' ∧ c ∈ delims) →
  (length w < fuel)%nat →
  wp (loop fuel (scan_step delims) (Ptr b (Z.of_nat o))) h
    (λ p h', h' = h ∧ p = Ptr b (Z.of_nat (o + length w))).
Proof.
  induction w as [|c w IH]; intros o [|fuel] Hs H0 Hw Hr Hf; try (simpl in Hf; lia);
    cbn [loop]; apply wp_bind; unfold scan_step at 1; apply wp_bind.
  - rewrite Nat.add_0_r.
    assert (∃ c, l !! o = Some (Some (CChar c)) ∧
      (c =? 0) || bool_decide (c ∈ delims) = true) as (c & Hc & Hstop).
    { destruct Hr as [->|(c & r' & -> & Hc)].
      - exists 0. by rewrite (string_at_nil o).
      - exists c. apply string_at_cons in Hs as [Hs _]. rewrite bool_decide_eq_true_2 by done.
        by rewrite orb_true_r. }
    eapply wp_load_char_at; [done|]. rewrite Hstop. apply wp_ret. by apply wp_ret.
  - apply string_at_cons in Hs as [Hc Hs]. apply Forall_cons in Hw as [Hd Hw].
    apply not_elem_of_cons in H0 as [Hc0 H0].
    eapply wp_load_char_at; [done|]. rewrite bool_decide_eq_false_2 by done.
    rewrite (proj2 (Z.eqb_neq c 0)) by congruence. apply wp_ret.
    cbn [ptr_add]. rewrite Z.add_1_r, <-Nat2Z.inj_succ. simpl in Hf.
    eapply wp_mono; [by apply IH; [..|lia]|]. intros p h' [-> ->]. split; [done|].
    f_equal. simpl. lia.
Qed.

(** Comparing a string with a literal. *)
Lemma wp_strcmp_lit s : ∀ w o, string_at l o w → 0 ∉ w → 0 ∉ s →
  wp (strcmp_lit (Ptr b (Z.of_nat o)) s) h (λ r h', h' = h ∧ (r = 0 ↔ w = s)).
Proof.
  induction s as [|x s IH]; intros w o Hs H0 Hx; cbn [strcmp_lit].
  - destruct w as [|c w].
    + eapply wp_load_char_at; [by apply string_at_nil|done].
    + apply string_at_cons in Hs as [Hc _]. apply not_elem_of_cons in H0 as [H0 _].
      eapply wp_load_char_at; [done|]. split; [done|]. split; [congruence|done].
  - apply wp_bind. apply not_elem_of_cons in Hx as [Hx0 Hx]. destruct w as [|c w].
    + eapply wp_load_char_at; [by apply string_at_nil|].
      rewrite (proj2 (Z.eqb_neq 0 x)) by done. apply wp_ret. split; [done|]. split; [lia|done].
    + apply string_at_cons in Hs as [Hc Hs]. apply not_elem_of_cons in H0 as [_ H0].
      eapply wp_load_char_at; [done|]. destruct (Z.eqb_spec c x) as [->|Hne].
      * cbn [ptr_add]. rewrite Z.add_1_r, <-Nat2Z.inj_succ.
        eapply wp_mono; [by apply IH|]. intros r h' [-> Hr]. split; [done|]. rewrite Hr.
        split; congruence.
      * apply wp_ret. split; [done|]. split; [lia|congruence].
Qed.

Lemma wp_read_string w o : string_at l o w → 0 ∉ w →
  wp (read_string (Ptr b (Z.of_nat o))) h (λ s h', h' = h ∧ s = w).
Proof.
  intros Hs H0. unfold read_string. apply wp_bind, wp_room.
  pose proof (string_at_length _ _ Hs) as Hlen.
  assert (∀ w acc o fuel, string_at l o w → 0 ∉ w → (length w < fuel)%nat →
    wp (loop fuel read_step (Ptr b (Z.of_nat o), acc)) h (λ s h', h' = h ∧ s = acc ++ w)) as Hloop.
  { clear w o Hs H0 Hlen. induction w as [|c w IH]; intros acc o [|fuel] Hs H0 Hf; try (simpl in Hf; lia);
      cbn [loop]; apply wp_bind; unfold read_step at 1; apply wp_bind.
    - eapply wp_load_char_at; [by apply string_at_nil|]. apply wp_ret. simpl.
      rewrite app_nil_r. by apply wp_ret.
    - apply string_at_cons in Hs as [Hc Hs]. apply not_elem_of_cons in H0 as [Hc0 H0].
      eapply wp_load_char_at; [done|]. rewrite (proj2 (Z.eqb_neq c 0)) by congruence.
      apply wp_ret. cbn [ptr_add]. rewrite Z.add_1_r, <-Nat2Z.inj_succ. simpl in Hf.
      eapply wp_mono; [by apply IH; [..|lia]|]. intros s h' [-> ->]. split; [done|].
      by rewrite <-(assoc_L (++)). }
  eapply wp_mono; [by apply (Hloop w [] o); [..|lia]|]. done.
Qed.
End reading.

(** ** Cutting up a line *)

Lemma string_at_prefix l o w : string_at l o w ↔ take (S (length w)) (drop o l) = str w.
Proof.
  unfold string_at. split.
  - intros [r ->]. rewrite take_app_le, take_ge; [done|..];
      unfold str; rewrite length_fmap, length_app; simpl; lia.
  - intros <-. exists (drop (S (length w)) (drop o l)). by rewrite take_drop.
Qed.

(** A string is not changed by what happens after its end. *)
Lemma string_at_take l l' n o w : take n l' = take n l → (o + length w < n)%nat →
  string_at l o w → string_at l' o w.
Proof.
  intros Ht Hn. rewrite !string_at_prefix, !take_drop_commute. intros <-.
  f_equal. apply (f_equal (take (o + S (length w)))) in Ht.
  by rewrite !take_take, !Nat.min_l in Ht by lia.
Qed.

(** A NUL over a delimiter ends the string before it. *)
Lemma string_at_cut l o w d s : string_at l o (w ++ d :: s) →
  string_at (<[(o + length w)%nat := Some (CChar 0)]> l) o w ∧
  string_at (<[(o + length w)%nat := Some (CChar 0)]> l) (S (o + length w)) s.
Proof.
  intros Hs. pose proof (string_at_length _ _ _ Hs) as Hlen. rewrite length_app in Hlen. simpl in Hlen.
  split.
  - apply string_at_prefix. revert l o Hs Hlen. induction w as [|c w IH]; intros l o Hs Hlen.
    + rewrite Nat.add_0_r, drop_insert_ge, Nat.sub_diag by lia. simpl in Hlen.
      destruct (drop o l) as [|x r] eqn:Hd; [|done].
      apply (f_equal length) in Hd. rewrite length_drop in Hd. simpl in Hd. lia.
    + simpl in Hs, Hlen. apply string_at_cons in Hs as [Hc Hs].
      assert (<[(o + length (c :: w))%nat := Some (CChar 0)]> l !! o = Some (Some (CChar c))) as Hc'
        by (rewrite list_lookup_insert_ne; [done|simpl; lia]).
      rewrite (drop_S _ _ _ Hc'). cbn [take length]. unfold str. simpl. f_equal.
      specialize (IH l (S o) Hs ltac:(lia)). simpl in IH |- *.
      by rewrite Nat.add_succ_r.
  - apply string_at_app, string_at_cons in Hs as [_ [r Hr]]. exists r.
    by rewrite drop_insert_lt by lia.
Qed.

Section strtok.
Context (delims : list Z) (h : heap cell) (b : positive) (l : list (option cell)) (o : nat) (s : list Z).
Hypothesis Hb : blocks h !! b = Some l.
Hypothesis Hs : string_at l o s.
Hypothesis Hs0 : 0 ∉ s.
Hypothesis Hd0 : 0 ∉ delims.

(** What one call of [strtok] does to the string at [o]: the block is left
    as it was before [o] and after the string; the token is its first word;
    the next call goes on from [o'], where the remaining words are. *)
Definition cut_word (tok : ptr) (o' : nat) (l' : list (option cell)) (s' : list Z) : Prop :=
  ((o ≤ o')%nat ∧ (o' + length s' ≤ o + length s)%nat ∧
   drop (o + length s) l' = drop (o + length s) l) ∧
  length l' = length l ∧ take o l' = take o l ∧ (s = [] → l' = l) ∧
  string_at l' o' s' ∧ (0 ∉ s') ∧
  match words delims s with
  | [] => tok = Null ∧ s' = []
  | w :: ws => ∃ ot, (o ≤ ot)%nat ∧ tok = Ptr b (Z.of_nat ot) ∧ string_at l' ot w ∧ (0 ∉ w) ∧
                 words delims s' = ws ∧ ((ot + length w < o')%nat ∨ s' = [])
  end.

Lemma wp_strtok save sp : (if is_null sp then save else sp) = Ptr b (Z.of_nat o) →
  wp (strtok delims save sp) h (λ r h', ∃ o' l' s', r.2 = Ptr b (Z.of_nat o') ∧
    blocks h' = (<[b := l']> (blocks h)) ∧ (heap_ok h → heap_ok h') ∧ cut_word r.1 o' l' s').
Proof.
  intros Hp. unfold strtok. rewrite Hp. cbv zeta. apply wp_bind. eapply wp_room; [done|].
  pose proof (string_at_length _ _ _ Hs) as Hlen.
  destruct (split_delims (λ c, c ∈ delims) s) as (ds & r & Es & Hds & Hr).
  rewrite Es in Hs, Hs0, Hlen. rewrite length_app in Hlen. apply not_elem_of_app in Hs0 as [_ Hr0].
  apply wp_bind. eapply wp_mono; [by eapply (wp_skip _ _ _ Hb delims ds r); [..|lia]|]. intros p h' [-> ->].
  pose proof (string_at_app _ _ _ _ Hs) as Hr1. apply wp_bind.
  destruct Hr as [->|(c & r' & -> & Hc)].
  { eapply wp_load_char_at; [done|by apply string_at_nil|]. apply wp_ret.
    exists (o + length ds)%nat, l, []. split; [done|]. split; [by rewrite insert_id|].
    split; [done|]. unfold cut_word. rewrite Es. rewrite length_app. simpl.
    split_and!; try done; [lia..|]. by rewrite words_skip. }
  pose proof (string_at_cons _ _ _ _ Hr1) as [Hc1 _].
  pose proof Hr0 as [Hc0 _]%not_elem_of_cons.
  eapply wp_load_char_at; [done..|]. rewrite (proj2 (Z.eqb_neq c 0)) by congruence.
  destruct (split_delims (λ c, c ∉ delims) (c :: r')) as (w & t & Er & Hw & Ht).
  rewrite Er in Hs, Hr1, Hr0. apply not_elem_of_app in Hr0 as [Hw0 Ht0].
  assert (w ≠ []) as Hwne.
  { intros ->. destruct Ht as [->|(x & t' & -> & Hx)]; [done|]. simpl in Er. by simplify_eq. }
  assert (t = [] ∨ ∃ c r', t = c :: r' ∧ c ∈ delims) as Ht'.
  { destruct Ht as [->|(x & t' & -> & Hx)]; [by left|]. right. exists x, t'. split; [done|].
    by apply dec_stable. }
  apply (f_equal length) in Er as Hlr. rewrite length_app in Hlr.
  apply wp_bind. eapply wp_mono; [by eapply (wp_scan _ _ _ Hb delims w t); [..|lia]|]. intros p h' [-> ->].
  pose proof (string_at_app _ _ _ _ Hr1) as Hr2. apply wp_bind.
  destruct Ht' as [->|(d & t' & -> & Hd)].
  - eapply wp_load_char_at; [done|by apply string_at_nil|]. apply wp_ret.
    rewrite app_nil_r in *. exists (o + length ds + length w)%nat, l, [].
    split; [done|]. split; [by rewrite insert_id|]. split; [done|].
    unfold cut_word. rewrite Es, Er. rewrite !length_app. simpl. split_and!; try done; [lia..|].
    rewrite words_skip, words_first by done. exists (o + length ds)%nat.
    split_and!; try done; [lia|by right].
  - pose proof (string_at_cons _ _ _ _ Hr2) as [Hd2 _].
    pose proof Ht0 as [Hdz Ht0']%not_elem_of_cons.
    eapply wp_load_char_at; [done..|]. rewrite (proj2 (Z.eqb_neq d 0)) by congruence.
    apply wp_bind. simpl in Hlen, Hlr. eapply wp_store; [done|lia|]. apply wp_ret.
    rewrite Nat2Z.id. destruct (string_at_cut _ _ _ _ _ Hr1) as [Hw1 Ht1].
    exists (S (o + length ds + length w)), (<[(o + length ds + length w)%nat := Some (CChar 0)]> l), t'.
    split; [cbn [ptr_add snd]; f_equal; lia|]. split; [done|].
    split; [intros Hok; apply heap_ok_insert; eauto|].
    unfold cut_word. rewrite Es, Er. rewrite !length_app. simpl. split_and!; try done.
    + lia.
    + lia.
    + by rewrite drop_insert_lt by lia.
    + by rewrite length_insert.
    + rewrite take_insert_ge by lia. done.
    + intros [-> ?]%app_eq_nil. by destruct w.
    + rewrite words_skip, words_first_delim by done. exists (o + length ds)%nat.
      split_and!; try done; [lia|left; lia].
Qed.
End strtok.

(** ** Argument vectors *)

(** The cells point to the words [ws], each of which lies in the block [b]
    of cells [l] before the offset [o] where the rest [s] of the line is
    still to be cut. *)
Definition words_at (b : positive) (l : list (option cell)) (o : nat) (s : list Z)
    (cells : list (option cell)) (ws : list (list Z)) : Prop :=
  ∀ i w, ws !! i = Some w → ∃ ot, cells !! i = Some (Some (CPtr (Ptr b (Z.of_nat ot)))) ∧
    string_at l ot w ∧ (0 ∉ w) ∧ ((ot + length w < o)%nat ∨ s = []).

Lemma words_at_nil b l o s cells : words_at b l o s cells [].
Proof. by intros i w Hi. Qed.

(** Cutting the next word keeps those already cut. *)
Lemma words_at_cut delims b l o s tok o' l' s' cells ws :
  cut_word delims b l o s tok o' l' s' → words_at b l o s cells ws →
  words_at b l' o' s' cells ws.
Proof.
  intros ((Hle & _) & _ & Ht & Hid & _ & _ & Htok) Hws i w Hi.
  destruct (Hws _ _ Hi) as (ot & Hc & Hw & H0 & Hend). exists ot.
  split; [done|]. destruct Hend as [Hend| ->].
  - split; [|split; [done|left; lia]]. by eapply string_at_take.
  - rewrite (Hid eq_refl). destruct Htok as [_ ->]. auto.
Qed.

(** The pointer to the next word is stored after those to the others. *)
Lemma words_at_snoc b l o s cells ws ot w :
  words_at b l o s cells ws → (length ws < length cells)%nat → string_at l ot w → 0 ∉ w →
  (ot + length w < o)%nat ∨ s = [] →
  words_at b l o s (<[length ws := Some (CPtr (Ptr b (Z.of_nat ot)))]> cells) (ws ++ [w]).
Proof.
  intros Hws Hlen Hw H0 Hend i w' Hi.
  apply lookup_app_Some in Hi as [Hi|[Hi1 Hi2]].
  - destruct (Hws _ _ Hi) as (ot' & Hc & ?). exists ot'.
    split; [|done]. apply lookup_lt_Some in Hi. rewrite list_lookup_insert_ne by lia. done.
  - apply list_lookup_singleton_Some in Hi2 as [Hi2 Ew]. subst w'. replace i with (length ws) by lia.
    exists ot. split; [by rewrite list_lookup_insert_eq|auto].
Qed.

Lemma words_at_mono b l o s cells cells' ws :
  words_at b l o s cells ws → (∀ i, (i < length ws)%nat → cells' !! i = cells !! i) →
  words_at b l o s cells' ws.
Proof.
  intros Hws Heq i w Hi. destruct (Hws _ _ Hi) as (ot & Hc & ?). exists ot.
  split; [|done]. rewrite Heq; [done|]. by apply lookup_lt_Some in Hi.
Qed.

Lemma wp_read_argv h b l o s bc cells ws :
  blocks h !! b = Some l → blocks h !! bc = Some cells → words_at b l o s cells ws →
  cells !! length ws = Some (Some (CPtr Null)) →
  wp (read_argv (Ptr bc 0)) h (λ r h', h' = h ∧ r = ws).
Proof.
  intros Hb Hbc Hws Hnull. unfold read_argv. eapply wp_bind, wp_room; [done|].
  assert (∀ ws2 ws1 fuel, ws = ws1 ++ ws2 → (length ws2 < fuel)%nat →
    wp (loop fuel argv_step (Ptr bc (Z.of_nat (length ws1)), ws1)) h
      (λ r h', h' = h ∧ r = ws)) as Hloop.
  { induction ws2 as [|w ws2 IH]; intros ws1 [|fuel] Ews Hf; try (simpl in Hf; lia);
      cbn [loop]; apply wp_bind; unfold argv_step at 1; apply wp_bind.
    - rewrite app_nil_r in Ews. subst ws1.
      eapply wp_load_ptr_at; [done..|]. simpl. apply wp_ret. by apply wp_ret.
    - destruct (Hws (length ws1) w) as (ot & Hc & Hw & H0 & _); [by rewrite Ews, list_lookup_middle|].
      eapply wp_load_ptr_at; [done..|]. simpl is_null. cbn iota. apply wp_bind.
      eapply wp_mono; [by eapply (wp_read_string _ _ _ Hb w)|]. intros ? h' [-> ->].
      apply wp_ret. cbn [ptr_add]. rewrite Z.add_1_r, <-Nat2Z.inj_succ.
      replace (S (length ws1)) with (length (ws1 ++ [w])) by (rewrite length_app; simpl; lia).
      apply IH; [by rewrite <-(assoc_L (++))|simpl in Hf; lia]. }
  apply (Hloop ws []); [done|]. apply lookup_lt_Some in Hnull. lia.
Qed.

(** The characters of a buffer up to its first NUL. *)
Fixpoint until_nul (s : list Z) : list Z :=
  match s with [] => [] | c :: s => if c =? 0 then [] else c :: until_nul s end.

Lemma until_nul_no_nul s : 0 ∉ until_nul s.
Proof.
  induction s as [|c s IH]; simpl; [by intros ?%elem_of_nil|].
  destruct (Z.eqb_spec c 0); [by intros ?%elem_of_nil|].
  rewrite not_elem_of_cons. done.
Qed.

Lemma until_nul_length s : (length (until_nul s) ≤ length s)%nat.
Proof. induction s as [|c s IH]; simpl; [done|]. destruct (c =? 0); simpl; lia. Qed.

Lemma until_nul_id s : 0 ∉ s → until_nul s = s.
Proof.
  induction s as [|c s IH]; simpl; [done|]. rewrite not_elem_of_cons. intros [Hc Hs].
  rewrite (proj2 (Z.eqb_neq c 0)) by congruence. by rewrite IH.
Qed.

Lemma string_at_until_nul s r : string_at (str s ++ r) 0 (until_nul s).
Proof.
  unfold string_at, str. rewrite drop_0. induction s as [|c s IH]; simpl.
  - by exists r.
  - destruct (Z.eqb_spec c 0) as [->|Hc]; simpl.
    + eexists. done.
    + by apply prefix_cons.
Qed.

(** No more words than characters. *)
Lemma words_length delims s : (length (words delims s) ≤ length s)%nat.
Proof.
  enough (∀ w, (length (words_after delims w s) ≤ length s + length (word_of w))%nat) as H
    by (specialize (H []); simpl in H; unfold words; lia).
  induction s as [|c s IH]; intros w; simpl; [lia|]. destruct (decide (c ∈ delims)).
  - rewrite length_app. specialize (IH []). simpl in IH. lia.
  - specialize (IH (w ++ [c])). unfold word_of in IH at 1. rewrite decide_False in IH; [|by destruct w].
    simpl in IH. lia.
Qed.

(** ** Cutting a line into a vector *)

Section vector.
Context (delims : list Z) (B : gmap positive (list (option cell))) (b : positive).
(** Where the line ends, and what the block holds from there on. *)
Context (e : nat) (after : list (option cell)).
Hypothesis delims_nul : 0 ∉ delims.

(** The words [ws] are stored in the vector of [cells], in the block [bc]
    of [h]; the rest [s] of the line is at [o] in its block, of cells [l]. *)
Record stored (bc : positive) (cells l : list (option cell)) (o : nat) (s : list Z)
    (ws : list (list Z)) (h : heap cell) : Prop := {
  st_ok : heap_ok h;
  st_ne : bc ≠ b;
  st_fresh : B !! bc = None;
  st_blocks : blocks h = <[bc := cells]> (<[b := l]> B);
  st_words : words_at b l o s cells ws;
  st_rest : string_at l o s;
  st_nul : 0 ∉ s;
  st_end : (o + length s ≤ e)%nat;
  st_after : drop e l = after
}.

(** The token just cut is the first of the words [todo] to come. *)
Definition next_token (l : list (option cell)) (o : nat) (s : list Z) (tok : ptr)
    (todo : list (list Z)) : Prop :=
  match todo with
  | [] => tok = Null
  | w :: ws => ∃ ot, tok = Ptr b (Z.of_nat ot) ∧ string_at l ot w ∧ (0 ∉ w) ∧
                 words delims s = ws ∧ ((ot + length w < o)%nat ∨ s = [])
  end.

Lemma st_line bc cells l o s ws h : stored bc cells l o s ws h → blocks h !! b = Some l.
Proof. intros []. by rewrite st_blocks0, lookup_insert_ne, lookup_insert_eq. Qed.

Lemma st_vector bc cells l o s ws h : stored bc cells l o s ws h → blocks h !! bc = Some cells.
Proof. intros []. by rewrite st_blocks0, lookup_insert_eq. Qed.

Lemma wp_strtok_stored save sp bc cells l o s ws h :
  (if is_null sp then save else sp) = Ptr b (Z.of_nat o) → stored bc cells l o s ws h →
  wp (strtok delims save sp) h (λ r h', ∃ o' l' s', r.2 = Ptr b (Z.of_nat o') ∧
    stored bc cells l' o' s' ws h' ∧ next_token l' o' s' r.1 (words delims s)).
Proof.
  intros Hp Hst. eapply wp_mono.
  { eapply wp_strtok; [by eapply st_line|by apply Hst|by apply Hst|done|exact Hp]. }
  intros [tok p] h' (o' & l' & s' & Ep & Hblk & Hok & Hcut). simpl in Ep, Hcut.
  exists o', l', s'. split; [done|].
  pose proof Hcut as ((_ & Hend & Hdrop) & _ & _ & _ & Hrest & Hnul & Htok). split.
  - destruct Hst as [Hok0 Hne Hfr Hblk0 Hws Hs H0 He Ha]. constructor; try done; [by apply Hok|..].
    + rewrite Hblk, Hblk0, insert_insert_ne, insert_insert_eq by done. done.
    + by eapply words_at_cut.
    + lia.
    + apply (f_equal (drop (e - (o + length s)))) in Hdrop. rewrite !drop_drop in Hdrop.
      rewrite <-Ha. by replace e with (o + length s + (e - (o + length s)))%nat by lia.
  - unfold next_token. destruct (words delims s) as [|w ws']; [by destruct Htok|].
    destruct Htok as (ot & _ & -> & ? & ? & ? & ?). eauto 10.
Qed.

(** Storing in the next cell, first whatever it is, then a word. *)
Lemma stored_store bc cells l o s ws h c :
  stored bc cells l o s ws h → (length ws < length cells)%nat →
  stored bc (<[length ws := c]> cells) l o s ws
    (set_blocks h (<[bc := <[length ws := c]> cells]> (blocks h))).
Proof.
  intros [Hok Hne Hfr Hblk Hws Hs H0] Hlen. constructor; try done.
  - apply heap_ok_insert; [done|]. by rewrite Hblk, lookup_insert_eq.
  - simpl. by rewrite Hblk, insert_insert_eq.
  - eapply words_at_mono; [done|]. intros i Hi. by rewrite list_lookup_insert_ne by lia.
Qed.

Lemma stored_snoc bc cells l o s ws h w ot todo :
  stored bc cells l o s ws h → (length ws < length cells)%nat →
  next_token l o s (Ptr b (Z.of_nat ot)) (w :: todo) →
  stored bc (<[length ws := Some (CPtr (Ptr b (Z.of_nat ot)))]> cells) l o s (ws ++ [w])
    (set_blocks h (<[bc := <[length ws := Some (CPtr (Ptr b (Z.of_nat ot)))]> cells]> (blocks h))).
Proof.
  intros Hst Hlen (ot' & [= Hot] & Hw & Hw0 & _ & Hend). apply Nat2Z.inj in Hot. subst ot'.
  pose proof (st_words _ _ _ _ _ _ _ Hst) as Hws.
  apply (stored_store _ _ _ _ _ _ _ (Some (CPtr (Ptr b (Z.of_nat ot))))) in Hst as []; [|done].
  constructor; try done. by apply words_at_snoc.
Qed.

(** [execvp] reads the words stored. *)
Lemma wp_read_stored bc cells l o s ws h :
  stored bc cells l o s ws h → cells !! length ws = Some (Some (CPtr Null)) →
  wp (read_argv (Ptr bc 0)) h (λ argv h', h' = h ∧ argv = ws).
Proof.
  intros Hst. eapply wp_read_argv; [by eapply st_line|by eapply st_vector|by apply Hst].
Qed.
End vector.

(** ** Cutting at every delimiter *)

(** The pieces of [s] between delimiters, empty ones included. *)
Fixpoint split_at (delims s : list Z) : list (list Z) :=
  match s with
  | [] => [[]]
  | c :: s => if decide (c ∈ delims) then [] :: split_at delims s
              else match split_at delims s with
                   | [] => [[c]]
                   | p :: ps => (c :: p) :: ps
                   end
  end.

Lemma split_at_last delims w : Forall (λ c, c ∉ delims) w → split_at delims w = [w].
Proof.
  induction 1 as [|c w Hc Hw IH]; [done|]. simpl. by rewrite decide_False, IH.
Qed.

Lemma split_at_delim delims w d s : Forall (λ c, c ∉ delims) w → d ∈ delims →
  split_at delims (w ++ d :: s) = w :: split_at delims s.
Proof.
  intros Hw Hd. induction Hw as [|c w Hc Hw IH]; simpl; [by rewrite decide_True|].
  by rewrite decide_False, IH.
Qed.

(** [strsep] cuts off the first piece. *)
Lemma wp_strsep delims h b l o s (Q : ptr * ptr → heap cell → Prop) :
  blocks h !! b = Some l → string_at l o s → 0 ∉ s → 0 ∉ delims → heap_ok h →
  (split_at delims s = [s] → Q (Ptr b (Z.of_nat o), Null) h) →
  (∀ w s' l' h', split_at delims s = w :: split_at delims s' → (0 ∉ w) → (0 ∉ s') →
     length s = S (length w + length s') →
     string_at l' o w → string_at l' (S (o + length w)) s' → length l' = length l →
     heap_ok h' → blocks h' = <[b := l']> (blocks h) →
     Q (Ptr b (Z.of_nat o), Ptr b (Z.of_nat (S (o + length w)))) h') →
  wp (strsep delims (Ptr b (Z.of_nat o))) h Q.
Proof.
  intros Hb Hs H0 Hd0 Hok Hlast Hnext. unfold strsep. simpl is_null. cbn iota.
  apply wp_bind. eapply wp_room; [done|].
  pose proof (string_at_length _ _ _ Hs) as Hlen.
  destruct (split_delims (λ c, c ∉ delims) s) as (w & r & -> & Hw & Hr).
  assert (r = [] ∨ ∃ c r', r = c :: r' ∧ c ∈ delims) as Hr'.
  { destruct Hr as [->|(x & t' & -> & Hx)]; [by left|]. right. exists x, t'. split; [done|].
    by apply dec_stable. }
  pose proof H0 as [Hw0 Hr0]%not_elem_of_app. rewrite length_app in Hlen.
  apply wp_bind. eapply wp_mono; [by eapply (wp_scan _ _ _ Hb delims w r); [..|lia]|].
  intros p h' [-> ->]. pose proof (string_at_app _ _ _ _ Hs) as Hs1. apply wp_bind.
  destruct Hr' as [->|(d & t & -> & Hd)].
  - eapply wp_load_char_at; [done|by apply string_at_nil|]. apply wp_ret, Hlast.
    rewrite app_nil_r. by apply split_at_last.
  - pose proof (string_at_cons _ _ _ _ Hs1) as [Hd1 _]. apply not_elem_of_cons in Hr0 as [Hdz Ht0].
    eapply wp_load_char_at; [done..|]. rewrite (proj2 (Z.eqb_neq d 0)) by congruence.
    simpl in Hlen. apply wp_bind. eapply wp_store; [done|lia|]. apply wp_ret.
    rewrite Nat2Z.id. destruct (string_at_cut _ _ _ _ _ Hs) as [Hw1 Ht1].
    cbn [ptr_add]. replace (Z.of_nat (o + length w) + 1) with (Z.of_nat (S (o + length w))) by lia.
    eapply Hnext; [by apply split_at_delim|done|done|rewrite length_app; simpl; lia|exact Hw1|exact Ht1|..].
    + by rewrite length_insert.
    + apply heap_ok_insert; eauto.
    + done.
Qed.

(** Storing a line with its NUL at the start of a block. *)
Lemma wp_store_chars cs : ∀ o h b l (Q : unit → heap cell → Prop),
  blocks h !! b = Some l → (o + length cs ≤ length l)%nat → heap_ok h →
  (∀ h', heap_ok h' →
     blocks h' = <[b := take o l ++ (Some ∘ CChar <$> cs) ++ drop (o + length cs) l]> (blocks h) →
     Q tt h') →
  wp (store_chars (Ptr b (Z.of_nat o)) cs) h Q.
Proof.
  induction cs as [|c cs IH]; intros o h b l Q Hb Hlen Hok HQ; cbn [store_chars].
  - apply wp_ret, HQ; [done|]. simpl. rewrite Nat.add_0_r, take_drop. by rewrite insert_id.
  - simpl in Hlen. apply wp_bind. eapply wp_store; [done|lia|]. rewrite Nat2Z.id.
    cbn [ptr_add]. rewrite Z.add_1_r, <-Nat2Z.inj_succ.
    eapply IH; [by simpl; rewrite lookup_insert_eq|rewrite length_insert; lia|apply heap_ok_insert; eauto|].
    intros h' Hok' Hblk'. apply HQ; [done|]. rewrite Hblk'. simpl. rewrite insert_insert_eq. f_equal.
    rewrite (take_S_r _ _ (Some (CChar c))) by (apply list_lookup_insert_eq; lia).
    rewrite take_insert_ge by lia. rewrite <-(assoc_L (++)). f_equal. simpl. f_equal. f_equal.
    rewrite drop_insert_lt by lia. by rewrite Nat.add_succ_r.
Qed.
