(* ===== verification/ShellBasic.v ===== *)
(** The shell with long jumps ([shell_basic.c]): reading a line, with SIGINT
    jumping out of [getline]; cutting it into an argument vector; the built-in
    commands; running a command, with SIGINT forwarded to it; the main loop.
    What the shell cannot choose is in its state: the reads of its standard
    input and the outcomes of its forks, in the order in which they come. *)
From S2P Require Import Prelude Mem CString.
#[local] Open Scope Z_scope.

(** ** The outside *)

(** A call of [getline] reads a line (with its newline, but for the last),
    or a SIGINT comes before SIGINT is blocked again; [getline] may have
    stored a buffer of some contents by then.  The handler then jumps out of
    [getline], which POSIX leaves undefined, to the frame of a variable that
    has changed since [sigsetjmp] and is not [volatile] (what it points to
    is), which C leaves indeterminate.  [kept] says that the implementation
    gives both a meaning: the stream can be used, and the variable has the
    value last stored.  When no read is left [getline] meets the end of the
    file. *)
Inductive read := Line (s : list Z) | Sigint (buf : option (list Z)) (kept : bool).

(** A child: its process number; how many SIGINTs the shell gets before it
    has waited for the child; whether it gets one between that and the
    blocking of SIGINT, and then what the second [waitid], which fails, leaves
    in [child_info] (POSIX does not say; Linux clears it); how the child
    ended. *)
Record child := Child {
  cpid : Z; sigints : nat; late : option (Z * Z); code : Z; status : Z
}.

(** What others see: text printed, programs run, signals sent. *)
Inductive event := Put (s : string) | Exec (argv : list (list Z)) | Kill (pid sig : Z).

(** ** Constants *)

Definition INIT_ARG_CNT : Z := 10.
Definition EXIT_FAILURE : Z := 1.
Definition EXIT_SUCCESS : Z := 0.
Definition CLD_EXITED : Z := 1.
Definition CLD_KILLED : Z := 2.
Definition SIGINT : Z := 2.

(** The delimiters " \t\n". *)
Definition delim : list Z := [32; 9; 10].

Definition newline : string := String (Ascii.ascii_of_nat 10) EmptyString.
Definition CLOWN : string := "🤡".
Definition MONKEY : string := newline +:+ "🙉".
Definition KNIFE : string := newline +:+ "🔪".
Definition POO : string := "💩".
Definition HELP : string := "🤪" +:+ newline.
Definition SKULL : string := "💀" +:+ newline.
Definition EOF_SKULL : string := newline +:+ "💀" +:+ newline.

(** ** State *)

(** [blocked] is the signal mask and [pending] whether a SIGINT waits for it;
    [env_input] and [env_run] are the masks saved in the two jump buffers;
    [save] is the state of [strtok]. *)
Record shell := Shell {
  mem : heap cell; save : ptr;
  blocked : bool; pending : bool; env_input : bool; env_run : bool;
  pid : Z;
  reads : list read; forks : list (option child); out : list event
}.

#[local] Abbreviation M := (comp shell).

Definition set_mem (h : heap cell) (s : shell) : shell :=
  Shell h (save s) (blocked s) (pending s) (env_input s) (env_run s) (pid s) (reads s) (forks s) (out s).
Definition in_mem {A} (m : comp (heap cell) A) : M A := λ s,
  match m (mem s) with
  | Ok (a, h) => Ok (a, set_mem h s)
  | Fault f => Fault f
  | OutOfFuel => OutOfFuel
  end.

Definition set_save (p : ptr) (s : shell) : shell :=
  Shell (mem s) p (blocked s) (pending s) (env_input s) (env_run s) (pid s) (reads s) (forks s) (out s).
Definition set_signals (b p ei er : bool) (s : shell) : shell :=
  Shell (mem s) (save s) b p ei er (pid s) (reads s) (forks s) (out s).
Definition set_pid (n : Z) (s : shell) : shell :=
  Shell (mem s) (save s) (blocked s) (pending s) (env_input s) (env_run s) n (reads s) (forks s) (out s).
Definition set_outside (rs : list read) (fs : list (option child)) (es : list event) (s : shell) : shell :=
  Shell (mem s) (save s) (blocked s) (pending s) (env_input s) (env_run s) (pid s) rs fs es.

Definition modify (f : shell → shell) : M unit := s ← get; put (f s).
Definition emit (e : event) : M unit :=
  modify (λ s, set_outside (reads s) (forks s) (out s ++ [e]) s).

(** A message on standard error and [exit(EXIT_FAILURE)]. *)
Definition error {A} : M A := fail (Exited EXIT_FAILURE).

(** ** Signals *)

Definition block_sigint : M unit :=
  modify (λ s, set_signals true (pending s) (env_input s) (env_run s) s).

(** A pending SIGINT is delivered before the call returns: the result says
    whether one is. *)
Definition unblock_sigint : M bool :=
  s ← get; put (set_signals false false (env_input s) (env_run s) s);; mret (pending s).

(** [sigsetjmp] with the mask saved, and the part of [siglongjmp] that
    restores it; the jump itself is the value of type [jump] returned. *)
Inductive jump := ToHandleInput | ToRunCmd.

Definition sigsetjmp (j : jump) : M unit :=
  modify (λ s, match j with
               | ToHandleInput => set_signals (blocked s) (pending s) (blocked s) (env_run s) s
               | ToRunCmd => set_signals (blocked s) (pending s) (env_input s) (blocked s) s
               end).
Definition siglongjmp (j : jump) : M jump :=
  modify (λ s, set_signals (match j with ToHandleInput => env_input s | ToRunCmd => env_run s end)
                 (pending s) (env_input s) (env_run s) s);;
  mret j.

Definition handler (sig : Z) : M jump :=
  s ← get;
  if pid s <=? 0 then siglongjmp ToHandleInput
  else emit (Kill (pid s) sig);; siglongjmp ToRunCmd.

(** A SIGINT comes: while blocked it stays pending. *)
Definition sigint : M (option jump) :=
  s ← get;
  if blocked s
  then put (set_signals true true (env_input s) (env_run s) s);; mret None
  else j ← handler SIGINT; mret (Some j).

(** ** Reading a line *)

(** After a jump, with the variable [in] as it was last stored if [kept]. *)
Definition handle_sigint_input (j : jump) (inp : ptr) (kept : bool) : M ((ptr * string) + ptr) :=
  match j with
  | ToHandleInput => if kept then mret (inl (inp, MONKEY)) else fail Indeterminate
  | ToRunCmd => fail DeadFrame
  end.

(** [getline] stores the line in a new block, or nothing at the end of the
    file; there and when memory is exhausted it returns -1. *)
Definition getline : M (Z * ptr + ptr * bool) :=
  s ← get;
  match reads s with
  | [] => p ← in_mem (alloc []); mret (inl (-1, p))
  | Line l :: rs =>
      put (set_outside rs (forks s) (out s) s);;
      p ← in_mem (alloc (str l));
      mret (inl (if is_null p then -1 else Z.of_nat (length l), p))
  | Sigint buf kept :: rs =>
      put (set_outside rs (forks s) (out s) s);;
      match buf with
      | None => mret (inr (Null, kept))
      | Some l => p ← in_mem (alloc (str l)); mret (inr (p, kept))
      end
  end.

(** One turn of the loop of [handle_input], or of what follows a long jump
    to it, which starts over with another prompt.  A SIGINT that was pending
    is delivered before [getline] is called, in the first turn, when [in] has
    the value it had at [sigsetjmp]. *)
Definition input_step (l : ptr * string) : M ((ptr * string) + ptr) :=
  let '(inp, prompt) := l in
  in_mem (free inp);;
  emit (Put prompt);;
  d ← unblock_sigint;
  if d : bool then j ← handler SIGINT; handle_sigint_input j Null true else
  r ← getline;
  match r with
  | inr (inp, kept) =>
      d ← sigint;
      match d with Some j => handle_sigint_input j inp kept | None => fail DeadFrame end
  | inl (eof_flg, inp) =>
      block_sigint;;
      if eof_flg =? -1 then
        emit (Put EOF_SKULL);; in_mem (free inp);; mret (inr Null)
      else
        c ← in_mem (strcmp_lit inp [10]);
        if negb (c =? 0) then mret (inr inp) else mret (inl (inp, CLOWN))
  end.

(** [child_info] is the pair of its [si_code] and [si_status]. *)
Definition child_prompt (child_info : Z * Z) : string :=
  if child_info.1 =? CLD_KILLED then KNIFE
  else if negb (child_info.2 =? 0) then POO else CLOWN.

(** A turn uses up a read or the pending SIGINT, or is the last. *)
Definition handle_input (child_info : Z * Z) : M ptr :=
  sigsetjmp ToHandleInput;;
  s ← get;
  loop (S (S (length (reads s)))) input_step (Null, child_prompt child_info).

(** ** Cutting it up *)

Definition strtok_line (line : ptr) : M ptr :=
  s ← get;
  r ← in_mem (strtok delim (save s) line);
  let '(token, p) := r in
  modify (set_save p);; mret token.

(** The vector is doubled when it is full. *)
Definition grow (cmd : ptr) (sz n : Z) : M (ptr * Z) :=
  if n =? sz then
    let sz := Z.shiftl sz 1 in
    if INT_MAX <? sz then fail SignedOverflow else
    p ← in_mem (realloc cmd 8 (sz * 8));
    if is_null p then error else mret (p, sz)
  else mret (cmd, sz).

Definition parse_step (l : ptr * ptr * Z * Z) : M ((ptr * ptr * Z * Z) + ptr) :=
  let '(token, cmd, sz, n) := l in
  in_mem (store (ptr_add cmd n) (CPtr token));;
  let n := n + 1 in
  if is_null token then mret (inr cmd) else
  r ← grow cmd sz n;
  let '(cmd, sz) := r in
  token ← strtok_line Null;
  mret (inl (token, cmd, sz, n)).

(** Each turn cuts a word off the line. *)
Definition parse_cmd (line : ptr) : M ptr :=
  cmd ← in_mem (calloc (CPtr Null) INIT_ARG_CNT 8);
  if is_null cmd then error else
  fuel ← in_mem (room line);
  token ← strtok_line line;
  loop fuel parse_step (token, cmd, INIT_ARG_CNT, 0).

(** ** Commands *)

(** [inl] is an exit with that status. *)
Definition handle_builtin (cmd : ptr) : M (Z + Z) :=
  p ← in_mem (load_ptr cmd);
  c ← in_mem (strcmp_lit p (bytes_of "help"));
  if c =? 0 then emit (Put HELP);; mret (inr 1) else
  p ← in_mem (load_ptr cmd);
  c ← in_mem (strcmp_lit p (bytes_of "quit"));
  if c =? 0 then emit (Put SKULL);; mret (inl EXIT_SUCCESS) else
  mret (inr 0).

(** [k] SIGINTs come while [run_cmd] waits.  After a jump it waits again,
    without unblocking SIGINT. *)
Fixpoint sigints_come (k : nat) : M unit :=
  match k with
  | O => mret tt
  | S k =>
      d ← sigint;
      match d with
      | Some ToHandleInput => fail DeadFrame
      | _ => sigints_come k
      end
  end.

Definition fork : M child :=
  s ← get;
  match forks s with
  | Some c :: fs => put (set_outside (reads s) fs (out s) s);; modify (set_pid (cpid c));; mret c
  | _ => error
  end.

(** A SIGINT after the child has been waited for: if it is not blocked, the
    parent waits again, and there is no such child. *)
Definition wait_again (c : child) : M (Z * Z) :=
  match late c with
  | None => mret (code c, status c)
  | Some failed =>
      d ← sigint;
      match d with
      | None => mret (code c, status c)
      | Some ToRunCmd => mret failed
      | Some ToHandleInput => fail DeadFrame
      end
  end.

(** The child has a copy of the memory, from which it runs the command; the
    parent waits for it, and has what [waitid] leaves in [child_info]. *)
Definition run_cmd (cmd : ptr) (child_info : Z * Z) : M (Z * Z) :=
  c ← fork;
  argv ← in_mem (read_argv cmd);
  emit (Exec argv);;
  sigsetjmp ToRunCmd;;
  d ← unblock_sigint;
  (if d : bool then
     j ← handler SIGINT;
     match j with ToHandleInput => fail DeadFrame | ToRunCmd => mret tt end
   else mret tt);;
  sigints_come (sigints c);;
  info ← wait_again c;
  block_sigint;;
  modify (set_pid (-1));;
  mret info.

(** ** main *)

(** [parse] is [parse_cmd], which differs in the earlier version. *)
Definition main_step_with (parse : ptr → M ptr) (child_info : Z * Z) : M ((Z * Z) + Z) :=
  input ← handle_input child_info;
  if is_null input then mret (inr 0) else
  let child_info := (CLD_EXITED, 0) in
  cmd ← parse input;
  b ← handle_builtin cmd;
  match b with
  | inl st => mret (inr st)
  | inr b =>
      child_info ← (if b =? 0 then run_cmd cmd child_info else mret child_info);
      in_mem (free cmd);;
      in_mem (free input);;
      mret (inl child_info)
  end.

(** A turn uses up a line. *)
Definition main_with (parse : ptr → M ptr) : M Z :=
  block_sigint;;
  s ← get;
  loop (S (length (reads s))) (main_step_with parse) (0, 0).

Definition main_step : Z * Z → M ((Z * Z) + Z) := main_step_with parse_cmd.
Definition main : M Z := main_with parse_cmd.

(** The shell as it is started. *)
Definition start (h : heap cell) (rs : list read) (fs : list (option child)) : shell :=
  Shell h Null false false false false (-1) rs fs [].

(** ** What the shell promises *)

(** How a session ends: at the end of its input, by [quit], because a
    process cannot be created, by dereferencing NULL, or with a jump out of
    [getline] to which the implementation gives no meaning. *)
Inductive ending := EndOfInput | Quit | NoFork | Crash | Undefined.

Definition sent (c : child) : nat := sigints c + (if late c is Some _ then 1 else 0).

(** What the shell takes for the end of the child: what the failed [waitid]
    leaves, if the only SIGINT comes after it has waited. *)
Definition report (c : child) : Z * Z :=
  match late c with
  | Some failed => if decide (sigints c = 0%nat) then failed else (code c, status c)
  | None => (code c, status c)
  end.

(** The first SIGINT is forwarded; a second stays pending until the shell
    reads its next line, where it has the effect of a SIGINT at the prompt. *)
Definition run_events (argv : list (list Z)) (c : child) : list event :=
  Exec argv :: (if (0 <? sent c)%nat then [Kill (cpid c) SIGINT] else [])
  ++ (if (1 <? sent c)%nat then [Put (child_prompt (report c))] else []).
Definition next_prompt (c : child) : string :=
  if (1 <? sent c)%nat then MONKEY else child_prompt (report c).

Definition prepend (es : list event) (r : list event * ending) : list event * ending :=
  (es ++ r.1, r.2).

Fixpoint session (prompt : string) (rs : list read) (fs : list (option child))
    : list event * ending :=
  match rs with
  | [] => ([Put prompt; Put EOF_SKULL], EndOfInput)
  | Sigint _ kept :: rs =>
      if kept then prepend [Put prompt] (session MONKEY rs fs) else ([Put prompt], Undefined)
  | Line s :: rs =>
      if decide (until_nul s = [10]) then prepend [Put prompt] (session CLOWN rs fs) else
      match words delim (until_nul s) with
      | [] => ([Put prompt], Crash)
      | w :: ws =>
          if decide (w = bytes_of "help") then
            prepend [Put prompt; Put HELP] (session CLOWN rs fs)
          else if decide (w = bytes_of "quit") then ([Put prompt; Put SKULL], Quit)
          else match fs with
          | Some c :: fs =>
              prepend (Put prompt :: run_events (w :: ws) c) (session (next_prompt c) rs fs)
          | _ => ([Put prompt], NoFork)
          end
      end
  end.
