(* ===== verification/ShellBasicProofs.v ===== *)
(** The properties of the basic shell: what [parse_cmd] builds, that [main]
    implements the abstract session, and the line that crashes it. *)
From S2P Require Import Prelude Mem CString ShellBasic.
#[local] Open Scope Z_scope.

(** ** Cutting a line *)

Lemma wp_in_mem {A} (m : comp (heap cell) A) s Q :
  wp m (mem s) (λ a h, Q a (set_mem h s)) → wp (in_mem m) s Q.
Proof. unfold wp, in_mem. by destruct (m (mem s)) as [[a h]|f|]. Qed.

Lemma wp_modify f s (Q : unit → shell → Prop) : Q tt (f s) → wp (modify f) s Q.
Proof. done. Qed.

Section parse_cmd.
Context (B : gmap positive (list (option cell))) (b : positive) (e : nat) (after : list (option cell)).
#[local] Abbreviation stored := (stored B b e after).
#[local] Abbreviation next_token := (next_token delim b).

Lemma delim_nul : 0 ∉ delim.
Proof. by apply (bool_decide_unpack _). Qed.

Lemma wp_strtok_line s0 sp bc cells l o s ws :
  (if is_null sp then save s0 else sp) = Ptr b (Z.of_nat o) →
  stored bc cells l o s ws (mem s0) →
  wp (strtok_line sp) s0 (λ tok s1, ∃ h' o' l' s', s1 = set_save (Ptr b (Z.of_nat o')) (set_mem h' s0) ∧
    stored bc cells l' o' s' ws h' ∧ next_token l' o' s' tok (words delim s)).
Proof.
  intros Hp Hst. unfold strtok_line. apply wp_bind, wp_get, wp_bind, wp_in_mem.
  eapply wp_mono; [eapply wp_strtok_stored; [apply delim_nul|done|done]|].
  intros [tok p] h' (o' & l' & s' & Ep & Hst' & Htok). simpl in Ep, Htok. subst p.
  apply wp_bind, wp_modify, wp_ret. eauto 10.
Qed.

Lemma wp_grow s0 bc cells l o s ws :
  stored bc cells l o s ws (mem s0) → (length ws ≤ length cells)%nat → (0 < length cells)%nat →
  Z.of_nat (length ws) < 2 ^ 30 →
  wp (grow (Ptr bc 0) (Z.of_nat (length cells)) (Z.of_nat (length ws))) s0 (λ r s1,
    ∃ bc cells' h, s1 = set_mem h s0 ∧ r = (Ptr bc 0, Z.of_nat (length cells')) ∧
      stored bc cells' l o s ws h ∧ (length ws < length cells')%nat ∧
      length cells' = if decide (length ws = length cells) then (2 * length cells)%nat
                      else length cells).
Proof.
  intros Hst Hlen Hpos Hmax. unfold grow. destruct (Z.eqb_spec (Z.of_nat (length ws)) (Z.of_nat (length cells))) as [Heq|Hneq].
  - rewrite Z.shiftl_mul_pow2 by lia. cbv zeta.
    rewrite (proj2 (Z.ltb_ge INT_MAX _)) by (unfold INT_MAX; lia). apply wp_bind, wp_in_mem.
    destruct Hst as [Hok Hne Hfr Hblk Hws Hs H0 He Ha].
    eapply wp_realloc; [done|by rewrite Hblk, lookup_insert_eq|].
    intros bc' h' Hbc' Hnone Hblk' Hok'. simpl is_null. cbn iota. apply wp_ret.
    rewrite Z.div_mul in Hblk' by lia.
    set (cells' := take _ _ ++ _) in Hblk'.
    assert (Z.of_nat (length cells') = Z.of_nat (length cells) * 2 ^ 1) as Hlen'.
    { unfold cells'. rewrite length_app, length_take, length_replicate. lia. }
    rewrite Hblk, lookup_insert_ne in Hnone by done. apply lookup_insert_None in Hnone as [Hnone Hbne].
    exists bc', cells', h'. split; [done|]. split; [by rewrite Hlen'|].
    split; [|rewrite decide_True by lia; lia]. constructor; try done.
    + rewrite Hblk', Hblk, delete_insert_id; [done|]. by rewrite lookup_insert_ne.
    + eapply words_at_mono; [done|]. intros i Hi. unfold cells'.
      rewrite lookup_app_l by (rewrite length_take; lia). by rewrite lookup_take_lt by lia.
  - apply wp_ret. exists bc, cells, (mem s0). split; [by destruct s0|]. split; [done|]. split; [done|].
    rewrite decide_False by lia. lia.
Qed.

Lemma wp_parse_loop todo : ∀ fuel s0 tok bc done cells l o s,
  stored bc cells l o s done (mem s0) → save s0 = Ptr b (Z.of_nat o) → next_token l o s tok todo →
  (length done < length cells)%nat → Z.of_nat (length (done ++ todo)) < 2 ^ 30 →
  (length todo < fuel)%nat →
  wp (loop fuel parse_step (tok, Ptr bc 0, Z.of_nat (length cells), Z.of_nat (length done))) s0
    (λ cmd s1, ∃ bc cells l o s h p, s1 = set_save p (set_mem h s0) ∧ cmd = Ptr bc 0 ∧
      stored bc cells l o s (done ++ todo) h ∧
      cells !! length (done ++ todo) = Some (Some (CPtr Null))).
Proof.
  induction todo as [|w todo IH]; intros [|fuel] s0 tok bc done cells l o s Hst Hsave Htok Hn Hmax Hf;
    try (simpl in Hf; lia); cbn [loop]; apply wp_bind; unfold parse_step at 1; apply wp_bind, wp_in_mem;
    (eapply wp_store; [by rewrite (st_blocks _ _ _ _ _ _ _ _ _ _ _ Hst), lookup_insert_eq|lia|]);
    rewrite Z.add_0_l, Nat2Z.id; pose proof (stored_store _ _ _ _ _ _ _ _ _ _ _ (Some (CPtr tok)) Hst Hn) as Hst1;
    simpl next_token in Htok.
  - subst tok. simpl is_null. cbn iota. apply wp_ret, wp_ret. rewrite app_nil_r.
    eexists bc, _, l, o, s, _, (save s0). split; [done|]. split; [done|]. split; [exact Hst1|].
    by apply list_lookup_insert_eq.
  - pose proof Htok as (ot & -> & _ & _ & Hwords & _). simpl is_null. cbn iota. apply wp_bind.
    pose proof (stored_snoc _ _ _ _ _ _ _ _ _ _ _ _ _ _ _ Hst Hn Htok) as Hst2.
    rewrite length_app in Hmax. simpl in Hmax, Hf.
    replace (Z.of_nat (length done) + 1) with (Z.of_nat (length (done ++ [w])))
      by (rewrite length_app; simpl; lia).
    rewrite <-(length_insert cells (length done) (Some (CPtr (Ptr b (Z.of_nat ot))))).
    eapply wp_mono.
    { eapply wp_grow; [exact Hst2|..]; rewrite ?length_app, ?length_insert; simpl; lia. }
    intros ? ? (bc2 & cells2 & h2 & -> & -> & Hst3 & Hlen3 & _). cbn iota. apply wp_bind.
    eapply wp_mono; [eapply wp_strtok_line; [exact Hsave|exact Hst3]|].
    intros tok ? (h3 & o3 & l3 & s3 & -> & Hst4 & Htok4). apply wp_ret.
    rewrite Hwords in Htok4.
    eapply wp_mono; [eapply (IH _ _ _ _ (done ++ [w])); [exact Hst4|done|exact Htok4|done|..]|].
    + rewrite !length_app. simpl. lia.
    + lia.
    + intros cmd ? (bc5 & cells5 & l5 & o5 & s5 & h5 & p5 & -> & -> & H5). rewrite <-(assoc_L (++)) in H5.
      exists bc5, cells5, l5, o5, s5, h5, p5. split; [done|]. split; [done|]. exact H5.
Qed.

End parse_cmd.

(** The vector and the first word, before the loop. *)
Lemma wpf_parse_start step B b s0 line (Q : ptr → shell → Prop) F :
  heap_ok (mem s0) → blocks (mem s0) = B → B !! b = Some (str line) →
  (∀ tok bc l o s h,
     stored B b (length line) [Some (CChar 0)] bc (replicate 10 (Some (CPtr Null))) l o s [] h →
     next_token delim b l o s tok (words delim (until_nul line)) →
     wpf (loop (S (length (str line))) step (tok, Ptr bc 0, INIT_ARG_CNT, 0))
       (set_save (Ptr b (Z.of_nat o)) (set_mem h s0)) Q F) →
  wpf (cmd ← in_mem (calloc (CPtr Null) INIT_ARG_CNT 8);
       if is_null cmd then error else
       fuel ← in_mem (room (Ptr b 0));
       token ← strtok_line (Ptr b 0);
       loop fuel step (token, cmd, INIT_ARG_CNT, 0)) s0 Q F.
Proof.
  intros Hok HB Hb HQ. change (calloc _ _ _) with
    (alloc (V:=cell) (replicate 10 (Some (CPtr Null)))). apply wpf_bind.
  apply wpf_wp, wp_in_mem, wp_alloc; [done|]. intros bc h -> Hnone Hblk Hok1. simpl is_null. cbn iota.
  set (bc := next (mem s0)) in *. clearbody bc.
  assert (bc ≠ b) as Hne by (intros ->; congruence).
  apply wpf_bind, wpf_wp, wp_in_mem, wp_room with (l := str line).
  { simpl. rewrite Hblk, lookup_insert_ne by done. by rewrite HB. }
  apply wpf_bind. eapply wpf_mono, (λ f H, H); [apply wpf_wp|].
  { eapply (wp_strtok_line _ b (length line) [Some (CChar 0)] _ (Ptr b 0) bc _ (str line) 0 (until_nul line) []); [done|].
    rewrite HB in *. constructor; try done.
    - simpl. rewrite Hblk, (insert_id B b) by done. done.
    - rewrite <-(app_nil_r (str line)). apply string_at_until_nul.
    - apply until_nul_no_nul.
    - apply until_nul_length.
    - unfold str. rewrite <-fmap_drop, drop_app_length. done. }
  intros tok ? (h3 & o3 & l3 & s3 & -> & Hst & Htok). by eapply HQ.
Qed.

Lemma words_of_line_length line :
  (length (words delim (until_nul line)) < S (length (str line)))%nat ∧
  (length (words delim (until_nul line)) ≤ length line)%nat.
Proof.
  pose proof (words_length delim (until_nul line)). pose proof (until_nul_length line).
  unfold str. rewrite length_fmap, length_app. simpl. lia.
Qed.

(** A [parse_cmd] makes a vector of the words of [line]. *)
Definition parses (parse : ptr → comp shell ptr) (line : list Z) : Prop := ∀ s0 B b,
  heap_ok (mem s0) → blocks (mem s0) = B → B !! b = Some (str line) →
  wp (parse (Ptr b 0)) s0 (λ cmd s1, ∃ bc cells l o s h p,
    s1 = set_save p (set_mem h s0) ∧ cmd = Ptr bc 0 ∧
    stored B b (length line) [Some (CChar 0)] bc cells l o s (words delim (until_nul line)) h ∧
    cells !! length (words delim (until_nul line)) = Some (Some (CPtr Null))).

Lemma parse_cmd_parses line : Z.of_nat (length line) < 2 ^ 30 → parses parse_cmd line.
Proof.
  intros Hmax s0 B b Hok HB Hb. apply wpf_no_fault, wpf_parse_start with (line := line) (B := B); [done..|].
  intros tok bc l o s h Hst Htok. pose proof (words_of_line_length line).
  apply wpf_wp. eapply wp_mono;
    [eapply (wp_parse_loop _ _ _ _ _ _ _ _ _ [] (replicate 10 _)); [exact Hst|done|exact Htok|..]|].
  - simpl. lia.
  - simpl. lia.
  - lia.
  - intros cmd ? (bc5 & cells5 & l5 & o5 & s5 & h5 & p5 & -> & -> & H5).
    exists bc5, cells5, l5, o5, s5, h5, p5. split; [done|]. split; [done|]. exact H5.
Qed.

(** ** Signals while a command runs *)

(** The shell in [s] after [n] SIGINTs. *)
Definition sigint_state (n : nat) (s : shell) : shell :=
  set_outside (reads s) (forks s)
    (out s ++ (if (0 <? n)%nat then [Kill (pid s) SIGINT] else []))
    (set_signals (0 <? n)%nat (1 <? n)%nat (env_input s) (env_run s) s).

Lemma wp_sigint_running n s : env_run s = true → 0 < pid s →
  wp sigint (sigint_state n s) (λ d s',
    d = (if decide (n = 0%nat) then Some ToRunCmd else None) ∧ s' = sigint_state (S n) s).
Proof.
  intros He Hp. unfold sigint. apply wp_bind, wp_get. destruct n as [|n]; simpl blocked; cbn iota.
  - apply wp_bind. unfold handler. apply wp_bind, wp_get. simpl pid.
    rewrite (proj2 (Z.leb_gt (pid s) 0)) by done.
    apply wp_bind. unfold emit. apply wp_modify, wp_bind, wp_modify, wp_ret, wp_ret.
    split; [done|]. unfold sigint_state, set_outside, set_signals. simpl.
    by rewrite app_nil_r, He.
  - apply wp_bind, wp_put, wp_ret. split; [done|].
    unfold sigint_state, set_outside, set_signals. simpl. done.
Qed.

Lemma wp_sigints_come k : ∀ n s, env_run s = true → 0 < pid s →
  wp (sigints_come k) (sigint_state n s) (λ _ s', s' = sigint_state (n + k) s).
Proof.
  induction k as [|k IH]; intros n s He Hp; cbn [sigints_come].
  { apply wp_ret. by rewrite Nat.add_0_r. }
  apply wp_bind. eapply wp_mono; [by apply wp_sigint_running|]. intros d ? [-> ->].
  rewrite <-Nat.add_succ_comm. destruct (decide _); by apply IH.
Qed.

Lemma wp_wait_again c s : env_run s = true → 0 < pid s →
  wp (wait_again c) (sigint_state (0 + sigints c) s)
    (λ r s', r = report c ∧ s' = sigint_state (0 + sent c) s).
Proof.
  intros He Hp. unfold wait_again, report, sent. destruct (late c) as [failed|].
  - apply wp_bind. eapply wp_mono; [by apply wp_sigint_running|]. intros d ? [-> ->].
    rewrite Nat.add_1_r. simpl. destruct (decide _); by apply wp_ret.
  - apply wp_ret. by rewrite Nat.add_0_r.
Qed.

(** Between commands: SIGINT is blocked and no child is there. *)
Definition at_rest (rs : list read) (fs : list (option child)) (es : list event) (p : bool)
    (s : shell) : Prop :=
  blocked s = true ∧ pid s = -1 ∧ pending s = p ∧ reads s = rs ∧ forks s = fs ∧ out s = es.

Lemma wp_run_cmd s rs c fs es cmd ws info :
  at_rest rs (Some c :: fs) es false s → 0 < cpid c →
  wp (read_argv cmd) (mem s) (λ r h, h = mem s ∧ r = ws) →
  wp (run_cmd cmd info) s (λ r s', r = report c ∧ mem s' = mem s ∧
    at_rest rs fs (es ++ Exec ws :: (if (0 <? sent c)%nat then [Kill (cpid c) SIGINT] else []))
      (1 <? sent c)%nat s').
Proof.
  intros (Hb & Hpid & Hpend & Hr & Hf & Ho) Hc Hargv.
  unfold run_cmd. apply wp_bind. unfold fork at 1. apply wp_bind, wp_get. rewrite Hf. cbn iota.
  apply wp_bind, wp_put, wp_bind, wp_modify, wp_ret, wp_bind, wp_in_mem.
  eapply wp_mono; [exact Hargv|]. intros ? ? [-> ->].
  unfold emit. apply wp_bind, wp_modify, wp_bind, wp_modify, wp_bind.
  unfold unblock_sigint. apply wp_bind, wp_get, wp_bind, wp_put, wp_ret. simpl pending.
  rewrite Hpend. apply wp_bind, wp_ret, wp_bind.
  lazymatch goal with |- wp _ ?s1 _ =>
    assert (s1 = sigint_state 0 s1) as -> end.
  { unfold sigint_state, set_outside, set_signals. simpl. by rewrite app_nil_r. }
  eapply wp_mono; [apply wp_sigints_come; simpl; [done|lia]|]. intros ? ? ->. apply wp_bind.
  eapply wp_mono; [apply wp_wait_again; simpl; [done|lia]|]. intros ? ? [-> ->].
  unfold block_sigint. apply wp_bind, wp_modify, wp_bind, wp_modify, wp_ret.
  split; [done|]. split; [done|]. unfold at_rest, sent. simpl. rewrite Ho.
  by rewrite <-(assoc_L (++)).
Qed.

(** ** Reading a line *)

(** What [handle_input] prints, and the line it returns with the reads left,
    unless it meets the end of the file or a jump loses its variable. *)
Inductive got := Eof | Lost | Got (line : list Z) (rs : list read).

Fixpoint read_line (prompt : string) (rs : list read) : list event * got :=
  match rs with
  | [] => ([Put prompt; Put EOF_SKULL], Eof)
  | Sigint _ kept :: rs =>
      if kept then let '(es, r) := read_line MONKEY rs in (Put prompt :: es, r)
      else ([Put prompt], Lost)
  | Line s :: rs =>
      if decide (until_nul s = [10]) then
        let '(es, r) := read_line CLOWN rs in (Put prompt :: es, r)
      else ([Put prompt], Got s rs)
  end.

(** A session begins by reading a line. *)
Lemma session_read_line rs : ∀ prompt fs,
  match read_line prompt rs with
  | (es, Eof) => session prompt rs fs = (es, EndOfInput)
  | (es, Lost) => session prompt rs fs = (es, Undefined)
  | (es, Got s rs') => ∃ es0 p, es = es0 ++ [Put p] ∧
      session prompt rs fs = prepend es0 (session p (Line s :: rs') fs) ∧
      Line s ∈ rs ∧ (∀ s, Line s ∈ rs' → Line s ∈ rs) ∧ until_nul s ≠ [10] ∧
      (length rs' < length rs)%nat
  end.
Proof.
  induction rs as [|r rs IH]; intros prompt fs; [done|].
  assert (∀ p, match (let '(es, r) := read_line p rs in (Put prompt :: es, r)) with
    | (es, Eof) => prepend [Put prompt] (session p rs fs) = (es, EndOfInput)
    | (es, Lost) => prepend [Put prompt] (session p rs fs) = (es, Undefined)
    | (es, Got s rs') => ∃ es0 q, es = es0 ++ [Put q] ∧
        prepend [Put prompt] (session p rs fs) = prepend es0 (session q (Line s :: rs') fs) ∧
        Line s ∈ r :: rs ∧ (∀ s, Line s ∈ rs' → Line s ∈ r :: rs) ∧ until_nul s ≠ [10] ∧
        (length rs' < length (r :: rs))%nat
    end) as Hnext.
  { intros p. specialize (IH p fs). destruct (read_line p rs) as [es [| |s rs']].
    - by rewrite IH.
    - by rewrite IH.
    - destruct IH as (es0 & q & -> & -> & Hin & Hsub & Hs & Hlen). exists (Put prompt :: es0), q.
      split; [done|]. split; [done|]. simpl. set_solver by lia. }
  destruct r as [s|buf []]; [|by apply Hnext|done]. cbn [read_line].
  destruct (decide (until_nul s = [10])) as [Hs|Hs].
  - cbn [session]. rewrite decide_True by done. apply Hnext.
  - exists [], prompt. split; [done|]. split; [by destruct (session _ _ _)|].
    split; [set_solver|]. split; [set_solver|]. split; [done|]. simpl. lia.
Qed.

(** [inp] is NULL or a buffer beside the blocks [B]. *)
Definition holds (inp : ptr) (B : gmap positive (list (option cell))) (h : heap cell) : Prop :=
  match inp with
  | Null => blocks h = B
  | Ptr b o => o = 0 ∧ ∃ l, B !! b = None ∧ blocks h = <[b := l]> B
  end.

Lemma wp_free_holds inp B h (Q : unit → heap cell → Prop) :
  heap_ok h → holds inp B h → (∀ h', heap_ok h' → blocks h' = B → Q tt h') → wp (free inp) h Q.
Proof.
  intros Hok Hh HQ. destruct inp as [|b o]; [by apply HQ|]. destruct Hh as (-> & l & Hb & Hblk).
  eapply wp_free; [by rewrite Hblk, lookup_insert_eq|].
  apply HQ; [by apply heap_ok_delete|]. simpl. by rewrite Hblk, delete_insert_id.
Qed.

Lemma wp_alloc_holds cells B h (Q : ptr → heap cell → Prop) :
  heap_ok h → blocks h = B →
  (∀ b h', B !! b = None → blocks h' = <[b := cells]> B → heap_ok h' → Q (Ptr b 0) h') →
  wp (alloc cells) h Q.
Proof.
  intros Hok <- HQ. apply wp_alloc; [done|]. intros b h' _. apply HQ.
Qed.

(** A SIGINT at the prompt: the shell jumps, with SIGINT blocked again. *)
Lemma wp_handler_at_prompt s :
  pid s = -1 → env_input s = true →
  wp (handler SIGINT) s (λ j s', j = ToHandleInput ∧
    s' = set_signals true (pending s) true (env_run s) s).
Proof.
  intros Hp He. unfold handler. apply wp_bind, wp_get. rewrite Hp. simpl.
  apply wp_bind, wp_modify, wp_ret. by rewrite He.
Qed.

Lemma wp_sigint_at_prompt s :
  blocked s = false → pid s = -1 → env_input s = true →
  wp sigint s (λ d s', d = Some ToHandleInput ∧
    s' = set_signals true (pending s) true (env_run s) s).
Proof.
  intros Hb Hp He. unfold sigint. apply wp_bind, wp_get. rewrite Hb. apply wp_bind.
  eapply wp_mono; [by apply wp_handler_at_prompt|]. intros j s' [-> ->]. by apply wp_ret.
Qed.

(** How [handle_input] leaves the shell, given what it has read. *)
Definition input_post (B : gmap positive (list (option cell))) (fs : list (option child))
    (es0 : list event) (got : list event * got) (p : ptr) (s : shell) : Prop :=
  heap_ok (mem s) ∧
  match got with
  | (es, Eof) => p = Null ∧ out s = es0 ++ es ∧ blocks (mem s) = B
  | (es, Lost) => False
  | (es, Got line rs) => ∃ b, p = Ptr b 0 ∧ at_rest rs fs (es0 ++ es) false s ∧ B !! b = None ∧
      blocks (mem s) = <[b := str line]> B
  end.

Definition input_lost (got : list event * got) (f : fault) : Prop :=
  got.2 = Lost ∧ f = Indeterminate.

Lemma wpf_input_loop rs B fs : ∀ fuel s inp prompt es,
  at_rest rs fs es false s → env_input s = true → heap_ok (mem s) → holds inp B (mem s) →
  (length rs < fuel)%nat →
  wpf (loop fuel input_step (inp, prompt)) s (input_post B fs es (read_line prompt rs))
    (input_lost (read_line prompt rs)).
Proof.
  induction rs as [|r rs IH]; intros [|fuel] s inp prompt es (Hb & Hpid & Hpend & Hr & Hf & Ho) He Hok Hh Hfu;
    try (simpl in Hfu; lia); cbn [loop]; apply wpf_bind; unfold input_step at 1;
    apply wpf_bind, wpf_wp, wp_in_mem;
    (apply (wp_free_holds _ B); [done..|]); intros h1 Hok1 Hblk1; unfold emit at 1;
    apply wpf_bind, wpf_wp, wp_modify, wpf_bind, wpf_wp; unfold unblock_sigint;
    apply wp_bind, wp_get, wp_bind, wp_put, wp_ret;
    simpl pending; rewrite Hpend; cbn iota; apply wpf_bind, wpf_wp; unfold getline; apply wp_bind, wp_get;
    simpl reads; rewrite Hr; cbn iota.
  - apply wp_bind, wp_in_mem, (wp_alloc_holds _ B); [done..|]. intros b h2 Hfr Hblk2 Hok2.
    apply wp_ret, wpf_wp. unfold block_sigint. apply wp_bind, wp_modify. simpl Z.eqb. cbn iota. unfold emit.
    apply wp_bind, wp_modify, wp_bind, wp_in_mem, (wp_free_holds _ B); [done|simpl; eauto|].
    intros h3 Hok3 Hblk3. apply wp_ret, wpf_wp, wp_ret. split; [done|]. simpl. rewrite Ho.
    by rewrite <-!(assoc_L (++)).
  - assert (∀ s' inp' prompt' , at_rest rs fs (es ++ [Put prompt]) false s' → env_input s' = true →
      heap_ok (mem s') → holds inp' B (mem s') →
      let g := let '(es', r) := read_line prompt' rs in (Put prompt :: es', r) in
      wpf (loop fuel input_step (inp', prompt')) s' (input_post B fs es g) (input_lost g)) as Hnext.
    { intros s' inp' prompt' Hs' He' Hok' Hh'. simpl in Hfu.
      eapply wpf_mono; [apply (IH _ _ _ prompt' _ Hs'); [done..|lia]|..].
      - intros p s2. unfold input_post. destruct (read_line prompt' rs) as [es' [| |line rs']];
          by rewrite <-?(assoc_L (++)).
      - intros f. by destruct (read_line prompt' rs). }
    destruct r as [line|buf kept].
    + apply wp_bind, wp_put, wp_bind, wp_in_mem, (wp_alloc_holds _ B); [done..|].
      intros b h2 Hfr Hblk2 Hok2. apply wp_ret. simpl is_null. cbn iota.
      unfold block_sigint. apply wpf_bind, wpf_wp, wp_modify.
      rewrite (proj2 (Z.eqb_neq (Z.of_nat (length line)) (-1))) by lia.
      apply wpf_bind, wpf_wp, wp_in_mem. simpl mem.
      eapply wp_mono.
      { apply (wp_strcmp_lit _ b (str line) ltac:(by rewrite Hblk2, lookup_insert_eq) [10]
          (until_nul line) 0); [|apply until_nul_no_nul|by apply (bool_decide_unpack _)].
        rewrite <-(app_nil_r (str line)). apply string_at_until_nul. }
      intros c h3 [-> Hc]. cbn [read_line]. destruct (Z.eqb_spec c 0) as [Hc0|Hc0]; simpl negb; cbn iota.
      * apply wpf_wp, wp_ret. rewrite decide_True by tauto. apply Hnext; try done.
        -- unfold at_rest. simpl. by rewrite Ho.
        -- simpl. eauto.
      * apply wpf_wp, wp_ret, wpf_wp, wp_ret. rewrite decide_False by tauto. split; [done|]. exists b.
        split; [done|]. unfold at_rest. simpl. by rewrite Ho.
    + apply wp_bind, wp_put. cbn [read_line].
      assert (∀ inp' s', at_rest rs fs (es ++ [Put prompt]) false (set_signals true (pending s') true (env_run s') s') →
        blocked s' = false → env_input s' = true → heap_ok (mem s') → holds inp' B (mem s') →
        let g := if kept then let '(es', r) := read_line MONKEY rs in (Put prompt :: es', r)
                 else ([Put prompt], Lost) in
        wpf (d ← sigint; match d with Some j => handle_sigint_input j inp' kept | None => fail DeadFrame end) s'
          (λ r s2, wpf (match r with inl l => loop fuel input_step l | inr p => mret p end) s2
            (input_post B fs es g) (input_lost g)) (input_lost g)) as Hsig.
      { intros inp' s' Hs' Hb' He' Hok' Hh' g. apply wpf_bind, wpf_wp.
        eapply wp_mono; [apply wp_sigint_at_prompt; [done|apply Hs'|done]|].
        intros d s2 [-> ->]. subst g. destruct kept; [|done]. by apply wpf_wp, wp_ret, Hnext. }
      destruct buf as [l|].
      * apply wp_bind, wp_in_mem, (wp_alloc_holds _ B); [done..|].
        intros b h2 Hfr Hblk2 Hok2. apply wp_ret. apply Hsig; try done.
        -- unfold at_rest. simpl. by rewrite Ho.
        -- simpl. eauto.
      * apply wp_ret. apply Hsig; try done. unfold at_rest. simpl. by rewrite Ho.
Qed.

Lemma wpf_handle_input rs B fs s es pend info :
  at_rest rs fs es pend s → heap_ok (mem s) → blocks (mem s) = B →
  let g := read_line (if pend then MONKEY else child_prompt info) rs in
  wpf (handle_input info) s (input_post B fs
    (es ++ if pend then [Put (child_prompt info)] else []) g) (input_lost g).
Proof.
  intros Hs Hok HB. pose proof Hs as (Hb & Hpid & Hpend & Hr & Hf & Ho).
  unfold handle_input. apply wpf_bind, wpf_wp, wp_modify, wpf_bind, wpf_wp, wp_get. simpl reads. rewrite Hr.
  destruct pend.
  - cbn [loop]. apply wpf_bind, wpf_wp. unfold input_step at 1. apply wp_bind, wp_in_mem, wp_ret.
    unfold emit. apply wp_bind, wp_modify, wp_bind. unfold unblock_sigint.
    apply wp_bind, wp_get, wp_bind, wp_put, wp_ret. simpl pending. rewrite Hpend. cbn iota.
    apply wp_bind. eapply wp_mono; [apply wp_handler_at_prompt; simpl; done|].
    intros j ? [-> ->]. apply wp_ret.
    apply (wpf_input_loop rs B fs (S (length rs)) _ Null MONKEY); try done; [|lia].
    unfold at_rest. simpl. by rewrite Ho.
  - rewrite app_nil_r. apply wpf_input_loop; try done. lia.
Qed.

(** ** Commands *)

(** The first word decides; a line without words is dereferenced as NULL. *)
Lemma wpf_handle_builtin B b e after bc cells l o t ws s :
  stored B b e after bc cells l o t ws (mem s) → cells !! length ws = Some (Some (CPtr Null)) →
  wpf (handle_builtin (Ptr bc 0)) s (λ r s', ∃ w ws', ws = w :: ws' ∧
      ((w = bytes_of "help" ∧ r = inr 1 ∧ s' = set_outside (reads s) (forks s) (out s ++ [Put HELP]) s) ∨
       (w ≠ bytes_of "help" ∧ w = bytes_of "quit" ∧ r = inl 0 ∧
          s' = set_outside (reads s) (forks s) (out s ++ [Put SKULL]) s) ∨
       (w ≠ bytes_of "help" ∧ w ≠ bytes_of "quit" ∧ r = inr 0 ∧ s' = s)))
    (λ f, ws = [] ∧ f = NullDeref).
Proof.
  intros Hst Hnull. pose proof (st_words _ _ _ _ _ _ _ _ _ _ _ Hst) as Hws.
  assert (blocks (mem s) !! bc = Some cells) as Hbc by by eapply st_vector.
  assert (blocks (mem s) !! b = Some l) as Hb by by eapply st_line.
  assert (∀ p, cells !! 0%nat = Some (Some (CPtr p)) →
    wp (in_mem (load_ptr (Ptr bc 0))) s (λ r s', r = p ∧ s' = s)) as Hload.
  { intros p Hp. apply wp_in_mem. eapply (wp_load_ptr_at _ _ _ Hbc 0); [done|]. by destruct s. }
  unfold handle_builtin. apply wpf_bind. destruct ws as [|w ws].
  - eapply wpf_mono, (λ f H, H); [apply wpf_wp, Hload, Hnull|]. intros ? ? [-> ->].
    unfold in_mem, wpf, mbind, comp_bind. simpl. done.
  - destruct (Hws 0%nat w eq_refl) as (ot & Hc & Hw & Hw0 & _).
    assert (∀ lit, 0 ∉ bytes_of lit →
      wp (in_mem (strcmp_lit (Ptr b (Z.of_nat ot)) (bytes_of lit))) s
        (λ c s', s' = s ∧ (c = 0 ↔ w = bytes_of lit))) as Hcmp.
    { intros lit Hlit. apply wp_in_mem. eapply wp_mono; [by eapply wp_strcmp_lit|].
      intros c h' [-> Hc']. simpl. split; [by destruct s|done]. }
    apply wpf_wp. eapply wp_mono; [by apply Hload|]. intros ? ? [-> ->]. apply wpf_wp, wp_bind.
    eapply wp_mono; [apply Hcmp; by apply (bool_decide_unpack _)|]. intros c ? [-> Hhelp].
    destruct (Z.eqb_spec c 0) as [Hc0|Hc0].
    { apply wp_bind, wp_modify, wp_ret. exists w, ws. split; [done|]. left. split; [tauto|done]. }
    apply wp_bind. eapply wp_mono; [by apply Hload|]. intros ? ? [-> ->]. apply wp_bind.
    eapply wp_mono; [apply Hcmp; by apply (bool_decide_unpack _)|]. intros c' ? [-> Hquit].
    destruct (Z.eqb_spec c' 0) as [Hc0'|Hc0'].
    { apply wp_bind, wp_modify, wp_ret. exists w, ws. split; [done|]. right; left. tauto. }
    apply wp_ret. exists w, ws. split; [done|]. right; right. tauto.
Qed.

(** The vector and the line are freed. *)
Lemma wp_free_command B b e after bc cells l o t ws s info :
  stored B b e after bc cells l o t ws (mem s) →
  wp (in_mem (free (Ptr bc 0));; in_mem (free (Ptr b 0));; mret (inl info : (Z * Z) + Z)) s
    (λ r s', ∃ h, r = inl info ∧ s' = set_mem h s ∧ heap_ok h ∧ blocks h = delete b B).
Proof.
  intros [Hok Hne Hfr Hblk _ _ _ _ _]. apply wp_bind, wp_in_mem.
  eapply wp_free; [by rewrite Hblk, lookup_insert_eq|]. apply wp_bind, wp_in_mem.
  assert (delete bc (blocks (mem s)) = <[b := l]> B) as Hdel.
  { rewrite Hblk, delete_insert_id; [done|]. by rewrite lookup_insert_ne. }
  eapply wp_free; [simpl; by rewrite Hdel, lookup_insert_eq|]. apply wp_ret.
  eexists. split; [done|]. split; [done|]. split; [by do 2 apply heap_ok_delete|].
  simpl. by rewrite Hdel, delete_insert_eq.
Qed.

(** ** The session *)

Section session.
Context (rs0 : list read) (fs0 : list (option child)).
Hypothesis pids_positive : ∀ c, Some c ∈ fs0 → 0 < cpid c.
(** The version of [parse_cmd], correct on the lines that come. *)
Context (parse : ptr → comp shell ptr).
Hypothesis parse_correct : ∀ line, Line line ∈ rs0 → parses parse line.

(** What has been seen and what is to come make the session. *)
Definition session_inv (info : Z * Z) (s : shell) : Prop :=
  ∃ rs fs es pend, at_rest rs fs es pend s ∧ heap_ok (mem s) ∧ blocks (mem s) = ∅ ∧
    (∀ l, Line l ∈ rs → Line l ∈ rs0) ∧ (∀ c, Some c ∈ fs → Some c ∈ fs0) ∧
    prepend (es ++ if pend then [Put (child_prompt info)] else [])
      (session (if pend then MONKEY else child_prompt info) rs fs) = session CLOWN rs0 fs0.

(** How the whole session ends. *)
Definition session_end (r : Z) (s : shell) : Prop :=
  r = 0 ∧ out s = (session CLOWN rs0 fs0).1 ∧
  match (session CLOWN rs0 fs0).2 with
  | EndOfInput => blocks (mem s) = ∅
  | Quit => size (blocks (mem s)) = 2%nat
  | _ => False
  end.
Definition session_fault (f : fault) : Prop :=
  match (session CLOWN rs0 fs0).2 with
  | Crash => f = NullDeref
  | NoFork => f = Exited EXIT_FAILURE
  | Undefined => f = Indeterminate
  | _ => False
  end.

Lemma prepend_prepend es1 es2 r : prepend es1 (prepend es2 r) = prepend (es1 ++ es2) r.
Proof. unfold prepend. simpl. by rewrite (assoc_L (++)). Qed.

(** The words of a line are run. *)
Lemma wpf_line line rs fs es p b s0 :
  at_rest rs fs (es ++ [Put p]) false s0 → heap_ok (mem s0) →
  blocks (mem s0) = {[b := str line]} → Line line ∈ rs0 → until_nul line ≠ [10] →
  (∀ l, Line l ∈ rs → Line l ∈ rs0) → (∀ c, Some c ∈ fs → Some c ∈ fs0) →
  prepend es (session p (Line line :: rs) fs) = session CLOWN rs0 fs0 →
  wpf (cmd ← parse (Ptr b 0);
       r ← handle_builtin cmd;
       match r with
       | inl st => mret (inr st)
       | inr r =>
           child_info ← (if r =? 0 then run_cmd cmd (CLD_EXITED, 0) else mret (CLD_EXITED, 0));
           in_mem (free cmd);; in_mem (free (Ptr b 0));; mret (inl child_info)
       end) s0
    (λ r s, match r with
            | inl info => session_inv info s ∧ reads s = rs
            | inr st => session_end st s
            end) session_fault.
Proof.
  intros Hs Hok Hblk Hline Hnl Hrs Hfs Hses. cbn [session] in Hses.
  rewrite decide_False in Hses by done.
  apply wpf_bind, wpf_wp. eapply wp_mono.
  { by eapply (parse_correct line Hline _ {[b := str line]});
      [|..|by rewrite lookup_singleton_eq]. }
  intros cmd ? (bc & cells & l & o & t & h & q & -> & -> & Hst & Hnull).
  set (s1 := set_save q (set_mem h s0)).
  assert (at_rest rs fs (es ++ [Put p]) false s1) as Hs1 by done.
  change h with (mem s1) in Hst. clearbody s1. clear s0 h q Hs Hok Hblk.
  apply wpf_bind. eapply wpf_mono; [by eapply (wpf_handle_builtin _ b _ _ _ _ l o t _ s1)|..].
  2: { intros f [Hws ->]. rewrite Hws in Hses. unfold session_fault. by rewrite <-Hses. }
  assert (∀ info fs' es' pend s2, at_rest rs fs' es' pend s2 → mem s2 = mem s1 →
    (∀ c, Some c ∈ fs' → Some c ∈ fs0) →
    prepend (es' ++ if pend then [Put (child_prompt info)] else [])
      (session (if pend then MONKEY else child_prompt info) rs fs') = session CLOWN rs0 fs0 →
    wpf (in_mem (free (Ptr bc 0));; in_mem (free (Ptr b 0));; mret (inl info)) s2
      (λ r s, match r with
            | inl info => session_inv info s ∧ reads s = rs
            | inr st => session_end st s
            end) session_fault) as Hnext.
  { intros info fs' es' pend s2 Hs2 Hmem Hfs' Hses'. apply wpf_wp.
    eapply wp_mono; [eapply wp_free_command; rewrite Hmem; exact Hst|].
    intros ? ? (h' & -> & -> & Hok' & Hblk'). rewrite delete_singleton_eq in Hblk'.
    split; [|by apply Hs2]. exists rs, fs', es', pend. done. }
  intros r s2 (w & ws & Hws & Hr). rewrite Hws in Hses, Hst. destruct Hs1 as (Hb & Hpid & Hpend & Hrd & Hf & Ho).
  destruct Hr as [(Hw & -> & ->)|[(Hw & Hw' & -> & ->)|(Hw & Hw' & -> & ->)]].
  - simpl Z.eqb. cbn iota. rewrite decide_True in Hses by done.
    apply wpf_bind, wpf_wp, wp_ret. apply (Hnext _ fs (es ++ [Put p; Put HELP]) false); try done.
    + unfold at_rest. simpl. rewrite Ho, Hf. by rewrite <-(assoc_L (++)).
    + rewrite <-Hses, prepend_prepend, app_nil_r. done.
  - rewrite decide_False, decide_True in Hses by done. apply wpf_wp, wp_ret.
    unfold session_end. rewrite <-Hses. simpl. rewrite Ho, <-(assoc_L (++)). split_and!; try done.
    destruct Hst as [_ Hne Hfr Hblk _ _ _ _ _].
    rewrite Hblk, insert_singleton_eq, map_size_insert_None, map_size_singleton; [done|].
    by rewrite lookup_singleton_ne.
  - simpl Z.eqb. cbn iota. rewrite !decide_False in Hses by done. apply wpf_bind.
    destruct fs as [|[c|] fs].
    1, 3: unfold wpf, run_cmd, fork, mbind, comp_bind, get; rewrite Hf; simpl; unfold session_fault;
      by rewrite <-Hses.
    eapply wpf_mono, (λ f H, H); [apply wpf_wp, (wp_run_cmd _ rs c fs (es ++ [Put p]) _ (w :: ws))|].
    + unfold at_rest. rewrite Ho, Hf. done.
    + apply pids_positive, Hfs. set_solver.
    + eapply wp_read_stored; [exact Hst|]. by rewrite <-Hws.
    + intros ? s2 (-> & Hmem & Hs2). eapply Hnext; [exact Hs2|done|set_solver|].
      rewrite <-Hses, prepend_prepend. unfold run_events, next_prompt. f_equal.
      by rewrite <-!(assoc_L (++)).
Qed.

Lemma wpf_main_step info s : session_inv info s →
  wpf (main_step_with parse info) s
    (λ r s', match r with
             | inl info' => session_inv info' s' ∧ (length (reads s') < length (reads s))%nat
             | inr st => session_end st s'
             end) session_fault.
Proof.
  intros (rs & fs & es & pend & Hs & Hok & Hblk & Hrs & Hfs & Hses).
  pose proof Hs as (_ & _ & _ & Hr & _). unfold main_step_with.
  pose proof (session_read_line rs (if pend then MONKEY else child_prompt info) fs) as Hread.
  apply wpf_bind. eapply wpf_mono; [by apply (wpf_handle_input rs ∅ fs s es pend info)|..].
  2: { intros f [Hl ->]. destruct (read_line _ rs) as [es1 g]. simpl in Hl. subst g.
       unfold session_fault. by rewrite <-Hses, Hread. }
  intros inp s1 [Hok1 Hgot].
  destruct (read_line _ rs) as [es1 [| |line rs']]; [|done|].
  { destruct Hgot as (-> & Ho & Hblk1). simpl is_null. cbn iota. apply wpf_wp, wp_ret.
    unfold session_end. rewrite <-Hses, Hread. by rewrite Ho. }
  destruct Hgot as (b & -> & Hs1 & _ & Hblk1). destruct Hread as (es0 & p & -> & Hread & Hin & Hsub & Hnl & Hlen).
  simpl is_null. cbn iota. eapply wpf_mono; [|intros r s' H; exact H|done].
  eapply wpf_mono, (λ f H, H).
  - eapply (wpf_line line rs' fs ((es ++ if pend then [Put (child_prompt info)] else []) ++ es0) p b s1);
        try done; [by rewrite <-(assoc_L (++))|by apply Hrs|auto|].
      by rewrite <-prepend_prepend, <-Hread.
  - intros [info'|st] s'; [|done]. intros [Hinv Hr']. split; [done|]. by rewrite Hr', Hr.
Qed.
End session.

Lemma wpf_main_with parse h rs fs :
  heap_ok h → blocks h = ∅ →
  (∀ line, Line line ∈ rs → parses parse line) → (∀ c, Some c ∈ fs → 0 < cpid c) →
  wpf (main_with parse) (start h rs fs) (session_end rs fs) (session_fault rs fs).
Proof.
  intros Hok Hblk Hl Hc. unfold main_with. apply wpf_bind, wpf_wp, wp_modify, wpf_bind, wpf_wp, wp_get.
  apply (wpf_loop (session_inv rs fs) (λ _ s, length (reads s))); [|..|simpl; lia].
  - intros info s Hinv. by apply wpf_main_step.
  - exists rs, fs, [], false. split_and!; try done. change (child_prompt _) with CLOWN.
    unfold prepend. simpl. by destruct (session CLOWN rs fs).
Qed.

(** What [session] says of a shell. *)
Definition follows_session (main : comp shell Z) (h : heap cell) (rs : list read)
    (fs : list (option child)) : Prop :=
  match session CLOWN rs fs with
  | (es, EndOfInput) => ∃ s, main (start h rs fs) = Ok (0, s) ∧ out s = es ∧ blocks (mem s) = ∅
  | (es, Quit) => ∃ s, main (start h rs fs) = Ok (0, s) ∧ out s = es ∧ size (blocks (mem s)) = 2%nat
  | (_, NoFork) => main (start h rs fs) = Fault (Exited EXIT_FAILURE)
  | (_, Crash) => main (start h rs fs) = Fault NullDeref
  | (_, Undefined) => main (start h rs fs) = Fault Indeterminate
  end.

Lemma main_with_session parse h rs fs :
  heap_ok h → blocks h = ∅ →
  (∀ line, Line line ∈ rs → parses parse line) → (∀ c, Some c ∈ fs → 0 < cpid c) →
  follows_session (main_with parse) h rs fs.
Proof.
  intros Hok Hblk Hl Hc. pose proof (wpf_main_with parse h rs fs Hok Hblk Hl Hc) as H.
  unfold wpf, session_end, session_fault in H. unfold follows_session.
  destruct (session CLOWN rs fs) as [es e], e, (main_with parse (start h rs fs)) as [[r s]|f|];
    simpl in H; destruct_and?; subst; eauto; done.
Qed.

(** ** Properties *)

(** C1: the whole shell.  Whatever is typed, whenever SIGINTs come and
    however the commands end, the shell prints the prompts, runs the commands
    with the words of their lines and forwards the first SIGINT to each, as
    [session] says.  At the end of its input it returns 0 and has freed what
    it has allocated; on "quit" it exits with 0, with only the line and its
    vector still allocated.  It fails only when a process cannot be created,
    on a line that has no word, and where a SIGINT makes it jump out of
    [getline] and the implementation gives that no meaning. *)
Theorem shell_session h rs fs :
  heap_ok h → blocks h = ∅ →
  (∀ l, Line l ∈ rs → Z.of_nat (length l) < 2 ^ 30) → (∀ c, Some c ∈ fs → 0 < cpid c) →
  match session CLOWN rs fs with
  | (es, EndOfInput) => ∃ s, main (start h rs fs) = Ok (0, s) ∧ out s = es ∧ blocks (mem s) = ∅
  | (es, Quit) => ∃ s, main (start h rs fs) = Ok (0, s) ∧ out s = es ∧ size (blocks (mem s)) = 2%nat
  | (_, NoFork) => main (start h rs fs) = Fault (Exited EXIT_FAILURE)
  | (_, Crash) => main (start h rs fs) = Fault NullDeref
  | (_, Undefined) => main (start h rs fs) = Fault Indeterminate
  end.
Proof.
  intros Hok Hblk Hl Hc. apply (main_with_session parse_cmd); try done.
  intros line Hin. by apply parse_cmd_parses, Hl.
Qed.

(** A command that gets two SIGINTs: one is forwarded to it, the other is
    met at the next prompt; then "help" and the end of the input. *)
Lemma shell_session_witness : ∃ s,
  main (start (heap_empty (λ _, false))
          [Line (bytes_of "sleep 9" ++ [10]); Line (bytes_of " help" ++ [10])]
          [Some (Child 42 2 None CLD_KILLED 2)]) = Ok (0, s) ∧
  out s = [Put CLOWN; Exec [bytes_of "sleep"; bytes_of "9"]; Kill 42 SIGINT; Put KNIFE;
           Put MONKEY; Put HELP; Put CLOWN; Put EOF_SKULL] ∧ blocks (mem s) = ∅.
Proof.
  apply (shell_session (heap_empty (λ _, false))
           [Line (bytes_of "sleep 9" ++ [10]); Line (bytes_of " help" ++ [10])]
           [Some (Child 42 2 None CLD_KILLED 2)]).
  - apply heap_empty_ok.
  - done.
  - intros l. rewrite !elem_of_cons, elem_of_nil. intros [[= ->]|[[= ->]|[]]]; simpl; lia.
  - intros c. rewrite elem_of_cons, elem_of_nil. intros [[= ->]|[]]; simpl; lia.
Defined.

(** A SIGINT that comes after the shell has waited for a child hides how it
    ended, where the [waitid] that fails clears [child_info]. *)
Lemma late_sigint_hides_end c : sigints c = 0%nat → late c = Some (0, 0) → next_prompt c = CLOWN.
Proof. intros Hs Hl. unfold next_prompt, sent, report. by rewrite Hs, Hl. Qed.

(** C32: [parse_cmd] turns a line of any number of words into a vector of
    pointers to them, ended by NULL, growing it as often as needed; what
    [execvp] reads there are the words of the line. *)
Theorem parse_cmd_words s b line :
  heap_ok (mem s) → blocks (mem s) !! b = Some (str line) → Z.of_nat (length line) < 2 ^ 30 →
  wp (parse_cmd (Ptr b 0)) s (λ cmd s1,
    wp (read_argv cmd) (mem s1) (λ argv h, h = mem s1 ∧ argv = words delim (until_nul line))).
Proof.
  intros Hok Hb Hl. eapply wp_mono; [by eapply parse_cmd_parses|].
  intros cmd ? (bc & cells & l & o & t & h & p & -> & -> & Hst & Hnull). simpl mem.
  by eapply wp_read_stored.
Qed.

(** Eleven words, one more than the vector has room for at first. *)
Definition eleven_words : list Z := bytes_of "a b c d e f g h i j k" ++ [10].
Definition eleven_heap : heap cell :=
  Heap {[1%positive := str eleven_words]} 2%positive (λ _, false).

Lemma parse_cmd_words_witness :
  wp (parse_cmd (Ptr 1 0)) (start eleven_heap [] []) (λ cmd s1,
    wp (read_argv cmd) (mem s1) (λ argv h, h = mem s1 ∧
      argv = map bytes_of ["a"; "b"; "c"; "d"; "e"; "f"; "g"; "h"; "i"; "j"; "k"])).
Proof.
  apply (parse_cmd_words (start eleven_heap [] []) 1 eleven_words).
  - constructor; [|done]. intros b Hb. simpl in *. apply lookup_singleton_ne. lia.
  - done.
  - simpl. lia.
Defined.

(** A line without words ends a session in a crash. *)
Lemma session_crash s rs pre : ∀ p fs,
  Forall (λ c, c ∈ delim) s → s ≠ [10] → (session p pre fs).2 = EndOfInput →
  (session p (pre ++ Line s :: rs) fs).2 = Crash.
Proof.
  induction pre as [|[l|buf []] pre IH]; intros p fs Hd Hne Hend; cbn [session app] in *; [..|done].
  - assert (0 ∉ s) as H0.
    { intros Hin. rewrite Forall_forall in Hd. apply Hd in Hin. revert Hin.
      by apply (bool_decide_unpack _). }
    rewrite until_nul_id, decide_False by done.
    rewrite <-(app_nil_r s) at 1. by rewrite (words_skip _ s []) by done.
  - destruct (decide (until_nul l = [10])); [by apply IH|].
    destruct (words delim (until_nul l)) as [|w ws]; [done|].
    destruct (decide (w = bytes_of "help")); [by apply IH|].
    destruct (decide (w = bytes_of "quit")); [done|].
    destruct fs as [|[c|] fs]; try done. by apply IH.
  - by apply IH.
Qed.

(** C33: a line of blanks alone, which is not the empty line the shell looks
    for, makes it dereference NULL, after any session [pre] that has not
    ended. *)
Theorem blank_line_crashes h pre rs fs s :
  heap_ok h → blocks h = ∅ →
  (∀ l, Line l ∈ pre ++ Line s :: rs → Z.of_nat (length l) < 2 ^ 30) →
  (∀ c, Some c ∈ fs → 0 < cpid c) →
  Forall (λ c, c ∈ delim) s → s ≠ [10] → (session CLOWN pre fs).2 = EndOfInput →
  main (start h (pre ++ Line s :: rs) fs) = Fault NullDeref.
Proof.
  intros Hok Hblk Hl Hc Hd Hne Hend.
  assert (follows_session main h (pre ++ Line s :: rs) fs) as H.
  { apply (main_with_session parse_cmd); try done. intros line Hin. by apply parse_cmd_parses, Hl. }
  pose proof (session_crash s rs pre CLOWN fs Hd Hne Hend) as Hcrash. unfold follows_session in H.
  destruct (session CLOWN (pre ++ Line s :: rs) fs) as [es e]. simpl in Hcrash. by subst e.
Qed.

Lemma blank_line_crashes_witness :
  main (start (heap_empty (λ _, false)) [Line (bytes_of "ls" ++ [10]); Line [32; 10]]
          [Some (Child 42 0 None CLD_EXITED 0)]) = Fault NullDeref.
Proof.
  apply (blank_line_crashes (heap_empty (λ _, false)) [Line (bytes_of "ls" ++ [10])] []
           [Some (Child 42 0 None CLD_EXITED 0)] [32; 10]).
  - apply heap_empty_ok.
  - done.
  - intros l. simpl. rewrite !elem_of_cons, elem_of_nil. intros [[= ->]|[[= ->]|[]]]; simpl; lia.
  - intros c. rewrite elem_of_cons, elem_of_nil. intros [[= ->]|[]]; simpl; lia.
  - by apply (bool_decide_unpack _).
  - done.
  - done.
Defined.
