(* ===== verification/HeadacheShell.v ===== *)
(** The earlier version of the basic shell ([old/headache_shell.c]).  It
    differs from [shell_basic.c] in its loop over the words of a line, which
    stores the NULL that ends the vector after the loop and without making
    room for it.  The rest of the program is that of ShellBasic. *)
From S2P Require Import Prelude Mem CString ShellBasic ShellBasicProofs.
#[local] Open Scope Z_scope.

#[local] Abbreviation M := (comp shell).

(** ** The program *)

(** The vector is grown before a word is stored, when it is full. *)
Definition parse_step (l : ptr * ptr * Z * Z) : M ((ptr * ptr * Z * Z) + ptr) :=
  let '(token, cmd, sz, n) := l in
  if is_null token then in_mem (store (ptr_add cmd n) (CPtr Null));; mret (inr cmd) else
  r ← grow cmd sz n;
  let '(cmd, sz) := r in
  in_mem (store (ptr_add cmd n) (CPtr token));;
  let n := n + 1 in
  token ← strtok_line Null;
  mret (inl (token, cmd, sz, n)).

Definition parse_cmd (line : ptr) : M ptr :=
  cmd ← in_mem (calloc (CPtr Null) INIT_ARG_CNT 8);
  if is_null cmd then error else
  fuel ← in_mem (room line);
  token ← strtok_line line;
  loop fuel parse_step (token, cmd, INIT_ARG_CNT, 0).

(** [main] is that of the later version, with this [parse_cmd]. *)
Definition main : M Z := main_with parse_cmd.

(** ** The vector *)

(** As many words as a vector holds that has been doubled some times. *)
Definition fills (n : nat) : Prop := ∃ k, n = (10 * 2 ^ k)%nat.

(** A vector grown for [n] words: no more than was needed. *)
Definition grown (sz n : nat) : Prop :=
  ∃ k, sz = (10 * 2 ^ k)%nat ∧ (n ≤ sz)%nat ∧ (k = 0%nat ∨ (sz < 2 * n)%nat).

Lemma grown_snoc sz n :
  grown sz n → grown (if decide (n = sz) then 2 * sz else sz) (S n).
Proof.
  intros (k & -> & Hle & Hk). pose proof (Nat.pow_nonzero 2 k ltac:(lia)).
  case_decide.
  - exists (S k). rewrite Nat.pow_succ_r'. split; [lia|]. split; [lia|]. right. lia.
  - exists k. split; [done|]. split; [lia|]. destruct Hk; [by left|right; lia].
Qed.

(** Such a vector is full just when the number of words is one of those. *)
Lemma grown_full sz n : grown sz n → fills n ↔ n = sz.
Proof.
  intros (k & -> & Hle & Hk). split; [|by exists k].
  intros (j & ->). f_equal. f_equal.
  assert (2 ^ j ≤ 2 ^ k)%nat as Hp by lia. apply Nat.pow_le_mono_r_iff in Hp; [|lia].
  destruct Hk as [->|Hk]; [lia|].
  assert (2 ^ k < 2 ^ S j)%nat as Hp' by (rewrite Nat.pow_succ_r'; lia).
  apply Nat.pow_lt_mono_r_iff in Hp'; lia.
Qed.

(** ** The loop *)

Lemma wpf_in_mem_store b n l v s (Q : unit → shell → Prop) F :
  blocks (mem s) !! b = Some l → (n ≤ length l)%nat →
  ((n < length l)%nat →
     Q tt (set_mem (set_blocks (mem s) (<[b := <[n := Some v]> l]> (blocks (mem s)))) s)) →
  (n = length l → F OutOfBounds) →
  wpf (in_mem (store (ptr_add (Ptr b 0) (Z.of_nat n)) v)) s Q F.
Proof.
  intros Hb Hn HQ HF. unfold wpf, in_mem, store, store_cell. cbn [ptr_add]. rewrite Z.add_0_l, Hb.
  rewrite (proj2 (Z.leb_le 0 _)) by lia. destruct (Z.ltb_spec (Z.of_nat n) (Z.of_nat (length l))).
  - simpl. rewrite Nat2Z.id. apply HQ. lia.
  - apply HF. lia.
Qed.

Section parse_cmd.
Context (B : gmap positive (list (option cell))) (b : positive) (e : nat) (after : list (option cell)).
#[local] Abbreviation stored := (stored B b e after).
#[local] Abbreviation next_token := (next_token delim b).

Lemma wpf_parse_loop todo : ∀ fuel s0 tok bc done cells l o s,
  stored bc cells l o s done (mem s0) → save s0 = Ptr b (Z.of_nat o) → next_token l o s tok todo →
  grown (length cells) (length done) → Z.of_nat (length (done ++ todo)) < 2 ^ 30 →
  (length todo < fuel)%nat →
  wpf (loop fuel parse_step (tok, Ptr bc 0, Z.of_nat (length cells), Z.of_nat (length done))) s0
    (λ cmd s1, ¬ fills (length (done ++ todo)) ∧
       ∃ bc cells l o s h p, s1 = set_save p (set_mem h s0) ∧ cmd = Ptr bc 0 ∧
      stored bc cells l o s (done ++ todo) h ∧
      cells !! length (done ++ todo) = Some (Some (CPtr Null)))
    (λ f, fills (length (done ++ todo)) ∧ f = OutOfBounds).
Proof.
  induction todo as [|w todo IH]; intros [|fuel] s0 tok bc done cells l o s Hst Hsave Htok Hn Hmax Hf;
    try (simpl in Hf; lia); cbn [loop]; apply wpf_bind; unfold parse_step at 1;
    pose proof Hn as (k & Hk & Hle & _); simpl next_token in Htok.
  - subst tok. simpl is_null. cbn iota. rewrite app_nil_r. apply wpf_bind.
    eapply wpf_in_mem_store; [by eapply st_vector|done|..]; intros Hlen.
    + apply wpf_wp, wp_ret, wp_ret. split; [rewrite (grown_full _ _ Hn); lia|].
      eexists bc, _, l, o, s, _, (save s0). split; [done|]. split; [done|].
      split; [by apply stored_store|]. by apply list_lookup_insert_eq.
    + split; [by apply (grown_full _ _ Hn)|done].
  - pose proof Htok as (ot & -> & _ & _ & Hwords & _). simpl is_null. cbn iota. apply wpf_bind.
    rewrite length_app in Hmax. simpl in Hmax, Hf.
    pose proof (Nat.pow_nonzero 2 k ltac:(lia)).
    eapply wpf_mono, (λ f H, H); [apply wpf_wp; eapply wp_grow; [exact Hst|lia..]|].
    intros ? ? (bc2 & cells2 & h2 & -> & -> & Hst2 & Hlen2 & Hgr). cbn iota. apply wpf_bind.
    eapply wpf_in_mem_store; [by eapply st_vector|simpl; lia| |lia]. intros _.
    pose proof (stored_snoc _ _ _ _ _ _ _ _ _ _ _ _ _ _ _ Hst2 Hlen2 Htok) as Hst3.
    replace (Z.of_nat (length done) + 1) with (Z.of_nat (length (done ++ [w])))
      by (rewrite length_app; simpl; lia).
    rewrite <-(length_insert cells2 (length done) (Some (CPtr (Ptr b (Z.of_nat ot))))).
    apply wpf_bind. eapply wpf_mono, (λ f H, H);
      [apply wpf_wp; eapply wp_strtok_line; [exact Hsave|exact Hst3]|].
    intros tok ? (h3 & o3 & l3 & s3 & -> & Hst4 & Htok4). apply wpf_wp, wp_ret.
    rewrite Hwords in Htok4. change (w :: todo) with ([w] ++ todo). rewrite (assoc_L (++)).
    eapply wpf_mono; [eapply (IH _ _ _ _ (done ++ [w])); [exact Hst4|done|exact Htok4|..]|..].
    + rewrite length_insert, Hgr, length_app, Nat.add_1_r. by apply grown_snoc.
    + rewrite !length_app. simpl. lia.
    + lia.
    + intros cmd ? (Hfit & bc5 & cells5 & l5 & o5 & s5 & h5 & p5 & -> & -> & H5).
      split; [done|]. exists bc5, cells5, l5, o5, s5, h5, p5. split; [done|]. split; [done|]. exact H5.
    + done.
Qed.
End parse_cmd.

Lemma wpf_parse_cmd B b s0 line :
  heap_ok (mem s0) → blocks (mem s0) = B → B !! b = Some (str line) → Z.of_nat (length line) < 2 ^ 30 →
  let ws := words delim (until_nul line) in
  wpf (parse_cmd (Ptr b 0)) s0
    (λ cmd s1, ¬ fills (length ws) ∧ ∃ bc cells l o s h p,
       s1 = set_save p (set_mem h s0) ∧ cmd = Ptr bc 0 ∧
       stored B b (length line) [Some (CChar 0)] bc cells l o s ws h ∧
       cells !! length ws = Some (Some (CPtr Null)))
    (λ f, fills (length ws) ∧ f = OutOfBounds).
Proof.
  intros Hok HB Hb Hmax ws. apply wpf_parse_start with (line := line) (B := B); [done..|].
  intros tok bc l o s h Hst Htok. pose proof (words_of_line_length line).
  eapply wpf_mono;
    [eapply (wpf_parse_loop _ _ _ _ _ _ _ _ _ [] (replicate 10 _)); [exact Hst|done|exact Htok|..]|..].
  - exists 0%nat. simpl. split; [done|]. split; [lia|by left].
  - simpl. lia.
  - lia.
  - intros cmd ? (Hfit & bc5 & cells5 & l5 & o5 & s5 & h5 & p5 & -> & -> & H5). split; [done|].
    exists bc5, cells5, l5, o5, s5, h5, p5. split; [done|]. split; [done|]. exact H5.
  - done.
Qed.

(** ** Properties *)

(** C35: the earlier [parse_cmd]: it stores the NULL out of bounds just on the
    lines of [10 * 2 ^ k] words for some [k]; from any other line it makes
    what the current [parse_cmd] makes: a vector in which [execvp] reads the
    words of the line. *)
Theorem parse_cmd_overflow s b line :
  heap_ok (mem s) → blocks (mem s) !! b = Some (str line) → Z.of_nat (length line) < 2 ^ 30 →
  let ws := words delim (until_nul line) in
  (fills (length ws) → parse_cmd (Ptr b 0) s = Fault OutOfBounds) ∧
  (¬ fills (length ws) →
     wp (parse_cmd (Ptr b 0)) s (λ cmd s1,
       wp (read_argv cmd) (mem s1) (λ argv h, h = mem s1 ∧ argv = ws))).
Proof.
  intros Hok Hb Hl ws. pose proof (wpf_parse_cmd _ b s line Hok eq_refl Hb Hl) as H.
  unfold wpf, wp in *. destruct (parse_cmd (Ptr b 0) s) as [[cmd s1]|f|]; [|by destruct H as [? ->]|done].
  destruct H as (Hfit & bc & cells & l & o & t & h & p & -> & -> & Hst & Hnull). split; [done|].
  intros _. simpl mem. by eapply wp_read_stored.
Qed.

(** Ten words overflow the vector, eleven do not. *)
Definition ten_words : list Z := bytes_of "a b c d e f g h i j" ++ [10].

Lemma parse_cmd_overflow_witness :
  let s line := start (Heap {[1%positive := str line]} 2%positive (λ _, false)) [] [] in
  parse_cmd (Ptr 1 0) (s ten_words) = Fault OutOfBounds ∧
  wp (parse_cmd (Ptr 1 0)) (s eleven_words) (λ cmd s1,
    wp (read_argv cmd) (mem s1) (λ argv h, h = mem s1 ∧
      argv = map bytes_of ["a"; "b"; "c"; "d"; "e"; "f"; "g"; "h"; "i"; "j"; "k"])).
Proof.
  intros s. assert (∀ line, heap_ok (mem (s line))) as Hok.
  { intros line. constructor; [|done]. intros b Hb. simpl in *. apply lookup_singleton_ne. lia. }
  split.
  - refine (proj1 (parse_cmd_overflow (s ten_words) 1 ten_words (Hok _) eq_refl _) _).
    + by vm_compute.
    + by exists 0%nat.
  - refine (proj2 (parse_cmd_overflow (s eleven_words) 1 eleven_words (Hok _) eq_refl _) _).
    + by vm_compute.
    + intros Hk. apply (grown_full 20 11) in Hk; [done|]. exists 1%nat. simpl. lia.
Defined.

(** C37: the whole of the earlier shell: on an input without a line of
    [10 * 2 ^ k] words it prints, runs, forwards and returns what the abstract
    session of the current shell says. *)
Theorem headache_session h rs fs :
  heap_ok h → blocks h = ∅ →
  (∀ l, Line l ∈ rs → Z.of_nat (length l) < 2 ^ 30 ∧
     ¬ fills (length (words delim (until_nul l)))) →
  (∀ c, Some c ∈ fs → 0 < cpid c) →
  follows_session main h rs fs.
Proof.
  intros Hok Hblk Hl Hc. apply (main_with_session parse_cmd); try done.
  intros l [Hlen Hfit]%Hl s0 B b Hok0 HB Hb.
  pose proof (wpf_parse_cmd B b s0 l Hok0 HB Hb Hlen) as H. unfold wpf, wp in *.
  destruct (parse_cmd (Ptr b 0) s0) as [[cmd s1]|f|]; by destruct H.
Qed.

Lemma headache_session_witness : ∃ s,
  main (start (heap_empty (λ _, false)) [Line (bytes_of "ls -l" ++ [10])]
          [Some (Child 42 0 None CLD_EXITED 1)]) = Ok (0, s) ∧
  out s = [Put CLOWN; Exec [bytes_of "ls"; bytes_of "-l"]; Put POO; Put EOF_SKULL] ∧
  blocks (mem s) = ∅.
Proof.
  apply (headache_session (heap_empty (λ _, false)) [Line (bytes_of "ls -l" ++ [10])]
           [Some (Child 42 0 None CLD_EXITED 1)]).
  - apply heap_empty_ok.
  - done.
  - intros l. rewrite elem_of_cons, elem_of_nil. intros [[= ->]|[]]. split; [simpl; lia|].
    intros Hk. apply (grown_full 10 2) in Hk; [done|]. exists 0%nat. simpl. lia.
  - intros c. rewrite elem_of_cons, elem_of_nil. intros [[= ->]|[]]; simpl; lia.
Defined.
