(* ===== verification/ShellPipes.v ===== *)
(** The shell with pipes ([shell_pipes.c]): a line is cut at its bars and
    each piece into words; a process is created per piece, connected to its
    neighbours by pipes, in one process group that gets the SIGINTs of the
    shell.  The table of descriptors, the processes and their groups are
    modelled as the kernel keeps them. *)
From S2P Require Import Prelude Mem CString.
#[local] Open Scope Z_scope.

(** ** The outside *)

(** A call of [fgets] gets a line, at the end of the file or not, or fails;
    [Intr] is a SIGINT while it waits, after which it is restarted. *)
Inductive read := Line (s : list Z) (eof : bool) | ReadError | Intr.

(** Moments between the creation of a process and the next call of [fork]
    or [waitpid]: it is created, its group is recorded in [pgid], it is in
    its group. *)
Inductive moment := Created | Recorded | Grouped.

(** A process created: its number; whether it has run its program before it
    is put in its group; how many SIGINTs the shell gets at those moments, and
    while it waits for the end of the process.  (A SIGINT between [fgets] and
    the first [fork] has the effect of one while [fgets] waits.) *)
Record proc := Proc { cpid : Z; raced : bool; early : moment → nat; sigints : nat }.

(** What a descriptor designates: pipes are numbered as they are made. *)
Inductive file := Stdin | Stdout | Stderr | PipeR (n : nat) | PipeW (n : nat).

#[export] Instance file_eq_dec : EqDecision file.
Proof. solve_decision. Defined.

(** Programs run with their descriptors, processes put in groups, and signals
    sent to groups. *)
Inductive event :=
  | Put (s : string)
  | Exec (argv : list (list Z)) (fds : gmap Z file)
  | Join (pid pg : Z)
  | KillGroup (pg : Z).

(** ** Constants *)

Definition MAX_PROMPT : Z := 4096.
Definition MAX_ARGV : Z := 256.
Definition PROMPT : string := "🐚 ".
Definition PIPE : list Z := bytes_of "|".
(** The delimiters " \t\n". *)
Definition SEP : list Z := [32; 9; 10].

(** [fileno(stdin)] and [fileno(stdout)]. *)
Definition stdin_fd : Z := 0.
Definition stdout_fd : Z := 1.

(** ** State *)

(** [save] is the state of [strtok], [fds] the descriptors, [groups] the
    group of each child that has not been waited for. *)
Record shell := Shell {
  mem : heap cell; save : ptr; pgid : Z;
  fds : gmap Z file; groups : gmap Z Z; pipes : nat; forks : nat;
  reads : list read; out : list event
}.

#[local] Abbreviation M := (comp shell).

Definition set_mem (h : heap cell) (s : shell) : shell :=
  Shell h (save s) (pgid s) (fds s) (groups s) (pipes s) (forks s) (reads s) (out s).
Definition set_save (p : ptr) (s : shell) : shell :=
  Shell (mem s) p (pgid s) (fds s) (groups s) (pipes s) (forks s) (reads s) (out s).
Definition set_pgid (g : Z) (s : shell) : shell :=
  Shell (mem s) (save s) g (fds s) (groups s) (pipes s) (forks s) (reads s) (out s).
Definition set_fds (t : gmap Z file) (n : nat) (s : shell) : shell :=
  Shell (mem s) (save s) (pgid s) t (groups s) n (forks s) (reads s) (out s).
Definition set_groups (g : gmap Z Z) (n : nat) (s : shell) : shell :=
  Shell (mem s) (save s) (pgid s) (fds s) g (pipes s) n (reads s) (out s).
Definition set_reads (rs : list read) (s : shell) : shell :=
  Shell (mem s) (save s) (pgid s) (fds s) (groups s) (pipes s) (forks s) rs (out s).
Definition set_out (es : list event) (s : shell) : shell :=
  Shell (mem s) (save s) (pgid s) (fds s) (groups s) (pipes s) (forks s) (reads s) es.

Definition in_mem {A} (m : comp (heap cell) A) : M A := λ s,
  match m (mem s) with
  | Ok (a, h) => Ok (a, set_mem h s)
  | Fault f => Fault f
  | OutOfFuel => OutOfFuel
  end.
Definition modify (f : shell → shell) : M unit := s ← get; put (f s).
Definition emit (e : event) : M unit := modify (λ s, set_out (out s ++ [e]) s).

(** A message on standard error and [exit(status)]. *)
Definition error {A} (status : Z) : M A := fail (Exited status).

(** ** Signals *)

(** A child that has not been waited for is in the group [g]. *)
Definition child_in (g : Z) (s : shell) : bool :=
  bool_decide (g ∈ (map_to_list (groups s)).*2).

Section signals.
(** Whether a process that a command has left behind, which is not a child
    of the shell, is in a group, as long as so many forks have been made. *)
Context (lingers : nat → Z → bool).

Definition group_exists (g : Z) (s : shell) : bool := child_in g s || lingers (forks s) g.

Definition sigint_handler : M unit :=
  s ← get;
  if pgid s =? 0 then fail (Exited 0) else
  if negb (group_exists (pgid s) s) then error 1 else
  emit (KillGroup (pgid s));;
  modify (set_pgid 0).

Fixpoint sigints_come (k : nat) : M unit :=
  match k with O => mret tt | S k => sigint_handler;; sigints_come k end.
End signals.

(** ** Words *)

Definition strtok_piece (p : ptr) : M ptr :=
  s ← get;
  r ← in_mem (strtok SEP (save s) p);
  let '(tok, p) := r in
  modify (set_save p);; mret tok.

(** One turn of the loop that fills [argv]. *)
Definition argv_fill (argv : ptr) (l : ptr * Z) : M ((ptr * Z) + Z) :=
  let '(subtok, argc) := l in
  in_mem (store (ptr_add argv argc) (CPtr subtok));;
  if is_null subtok then mret (inr argc) else
  subtok ← strtok_piece Null;
  mret (inl (subtok, argc + 1)).

(** [argv] is a local array of [run]; the result is its address and the
    number of words in it. *)
Definition fill_argv (tok : ptr) : M (ptr * Z) :=
  argv ← in_mem (alloc (replicate (Z.to_nat MAX_ARGV) None));
  n ← in_mem (room tok);
  subtok ← strtok_piece tok;
  argc ← loop n (argv_fill argv) (subtok, 0);
  mret (argv, argc).

(** The next piece of the line, in a new vector, and the rest. *)
Definition cut_piece (prompt : ptr) : M (ptr * Z * ptr) :=
  r ← in_mem (strsep PIPE prompt);
  let '(tok, prompt) := (r : ptr * ptr) in
  r ← fill_argv tok;
  mret (r, prompt).

(** ** The child *)

(** [close] and [dup2] on a table of descriptors fail on a number that is
    not open; [inl] is then the status of the child. *)
Definition close_in (status fd : Z) (t : gmap Z file) : Z + gmap Z file :=
  match t !! fd with Some _ => inr (delete fd t) | None => inl status end.
Definition dup2_in (status old new : Z) (t : gmap Z file) : Z + gmap Z file :=
  match t !! old with Some f => inr (<[new := f]> t) | None => inl status end.
Definition and_then (r : Z + gmap Z file) (k : gmap Z file → Z + gmap Z file) : Z + gmap Z file :=
  match r with inl status => inl status | inr t => k t end.

Definition child_fds (infd : Z) (fd : Z * Z) (t : gmap Z file) : Z + gmap Z file :=
  and_then
    (if negb (stdin_fd =? infd) then
       and_then (dup2_in 4 infd stdin_fd t) (close_in 5 infd)
     else inr t)
    (λ t,
     if negb (stdout_fd =? fd.2) then
       and_then (dup2_in 6 fd.2 stdout_fd t) (λ t,
       and_then (close_in 7 fd.1 t) (close_in 8 fd.2))
     else inr t).

(** The child has copies of the memory and of the descriptors; whether its
    program can be run concerns it alone. *)
Definition child (argv : ptr) (infd : Z) (fd : Z * Z) : M unit :=
  s ← get;
  match child_fds infd fd (fds s) with
  | inl _ => mret tt
  | inr t => ws ← in_mem (read_argv argv); emit (Exec ws t)
  end.

(** ** The parent *)

(** The first of the [k] numbers from [fd] on that is not a descriptor. *)
Fixpoint lowest_from (fd : Z) (k : nat) (t : gmap Z file) : option Z :=
  match k with
  | O => None
  | S k => match t !! fd with None => Some fd | Some _ => lowest_from (fd + 1) k t end
  end.

Section system.
(** The number of descriptors a process may have, what each [fork] makes: a
    process, or nothing; and the groups that processes not the shell's own
    are in. *)
Context (open_max : nat) (forked : nat → option proc) (lingers : nat → Z → bool).

(** The lowest descriptor not in use. *)
Definition lowest (t : gmap Z file) : option Z := lowest_from 0 open_max t.

Definition pipe : M (option (Z * Z)) :=
  s ← get;
  match lowest (fds s) with
  | None => mret None
  | Some r =>
      let t := <[r := PipeR (pipes s)]> (fds s) in
      match lowest t with
      | None => mret None
      | Some w => put (set_fds (<[w := PipeW (pipes s)]> t) (S (pipes s)) s);; mret (Some (r, w))
      end
  end.

Definition close (status fd : Z) : M unit :=
  s ← get;
  match fds s !! fd with
  | Some _ => put (set_fds (delete fd (fds s)) (pipes s) s)
  | None => error status
  end.

(** A new process is in the group of the shell, numbered 0 here. *)
Definition fork : M proc :=
  s ← get;
  match forked (forks s) with
  | Some c => put (set_groups (<[cpid c := 0]> (groups s)) (S (forks s)) s);; mret c
  | None => error 3
  end.

(** [setpgid] fails on a child that has run its program, and on a group
    that does not exist unless it is that of the process itself, which 0
    stands for. *)
Definition setpgid (c : proc) (g : Z) : M unit :=
  s ← get;
  let g := if g =? 0 then cpid c else g in
  if raced c || negb ((g =? cpid c) || group_exists lingers g s) then error 11
  else put (set_groups (<[cpid c := g]> (groups s)) (forks s) s);; emit (Join (cpid c) g).

Definition waitpid (c : proc) : M unit :=
  sigints_come lingers (sigints c);;
  s ← get;
  put (set_groups (delete (cpid c) (groups s)) (forks s) s).

(** A process for the command in [argv], put in the group of the line. *)
Definition start_process (argv : ptr) (infd : Z) (fd : Z * Z) : M proc :=
  c ← fork;
  sigints_come lingers (early c Created);;
  child argv infd fd;;
  modify (λ s, set_pgid (if 0 =? pgid s then cpid c else pgid s) s);;
  sigints_come lingers (early c Recorded);;
  s ← get;
  setpgid c (pgid s);;
  sigints_come lingers (early c Grouped);;
  mret c.

(** A piece without words ends the line.  The array [argv] is freed where
    [run] returns. *)
Fixpoint run (fuel : nat) (prompt : ptr) (infd : Z) : M unit :=
  match fuel with
  | O => out_of_fuel
  | S fuel =>
      r ← cut_piece prompt;
      let '(argv, argc, prompt) := (r : ptr * Z * ptr) in
      if argc =? 0 then in_mem (free argv) else
      fd ← (if negb (is_null prompt) then
              r ← pipe; match r with Some fd => mret fd | None => error 2 end
            else mret (stdin_fd, stdout_fd));
      c ← start_process argv infd fd;
      (if negb (stdout_fd =? fd.2) then
         close 12 fd.2;;
         run fuel prompt fd.1;;
         close 13 fd.1
       else mret tt);;
      waitpid c;;
      in_mem (free argv)
  end.

(** ** main *)

(** [fgets] into the block of [prompt]: [inl true] at the end of the file
    without a line, [inl false] on an error, and [inr eof] on a line. *)
Fixpoint fgets (prompt : ptr) (rs : list read) : M (bool + bool) :=
  match rs with
  | [] => mret (inl true)
  | ReadError :: rs => modify (set_reads rs);; mret (inl false)
  | Intr :: rs => modify (set_reads rs);; sigint_handler lingers;; fgets prompt rs
  | Line s eof :: rs =>
      modify (set_reads rs);; in_mem (store_chars prompt (s ++ [0]));; mret (inr eof)
  end.

(** The loop has no end but an error or a SIGINT.  A piece of a line takes
    a character, so that a block of [MAX_PROMPT] has as many at most. *)
Definition main_step (prompt : ptr) (_ : unit) : M (unit + Z) :=
  emit (Put PROMPT);;
  s ← get;
  r ← fgets prompt (reads s);
  match r with
  | inl false => error 14
  | inl true | inr true => error 15
  | inr false => run (Z.to_nat MAX_PROMPT) prompt stdin_fd;; mret (inl tt)
  end.

Definition main : M Z :=
  prompt ← in_mem (alloc (replicate (Z.to_nat MAX_PROMPT) None));
  s ← get;
  loop (S (length (reads s))) (main_step prompt) tt.
End system.

(** The shell as it is started. *)
Definition start (h : heap cell) (rs : list read) : shell :=
  Shell h Null 0 (map_seqZ 0 [Stdin; Stdout; Stderr]) ∅ 0 0 rs [].

(** ** What the shell promises *)

(** The commands of a line, up to the first piece without words. *)
Fixpoint commands (ps : list (list Z)) : list (list (list Z)) :=
  match ps with
  | [] => []
  | p :: ps => match words SEP p with [] => [] | ws => ws :: commands ps end
  end.

(** The descriptors of the shell when it creates the [i]th process of a
    line, [k] pipes having been made before the line, and those with which
    that process runs its command: it reads from the pipe before it and
    writes to the pipe after it, and also keeps the reading ends of the pipes
    before those. *)
Definition parent_table (k i : nat) : gmap Z file :=
  map_seqZ 0 ([Stdin; Stdout; Stderr] ++ (PipeR <$> seq k i)).
Definition child_table (k i : nat) (last : bool) : gmap Z file :=
  map_seqZ 0 ([match i with O => Stdin | S i => PipeR (k + i) end;
               if last then Stdout else PipeW (k + i); Stderr] ++ (PipeR <$> seq k (pred i))).
Definition input_fd (i : nat) : Z := match i with O => stdin_fd | S _ => Z.of_nat (2 + i) end.

(** The group that the processes [cs] of a line are put in, [g] being the
    group recorded before it. *)
Definition line_group (g : Z) (cs : list proc) : Z :=
  match cs with [] => g | c :: _ => if 0 =? g then cpid c else g end.

(** What the shell does for the pieces [ps] of a line, of which the [i]th is
    next, with the processes [cs], all in the group [g]. *)
Fixpoint line_events (g : Z) (k i : nat) (cs : list proc) (ps : list (list Z)) : list event :=
  match ps, cs with
  | p :: ps, c :: cs =>
      match words SEP p with
      | [] => []
      | ws => Exec ws (child_table k i (bool_decide (ps = []))) :: Join (cpid c) g ::
              line_events g k (S i) cs ps
      end
  | _, _ => []
  end.
