(* ===== verification/ShellPipesProofs.v ===== *)
(** The properties of the shell with pipes: which processes a line becomes
    and how they are connected, and how a second line or a long command ends
    the shell. *)
From S2P Require Import Prelude Mem CString ShellPipes.
#[local] Open Scope Z_scope.

(** ** Tables of descriptors *)

Lemma map_seqZ_lookup {A} (l : list A) (i : nat) :
  (map_seqZ 0 l : gmap Z A) !! Z.of_nat i = l !! i.
Proof. rewrite lookup_map_seqZ_0 by lia. by rewrite Nat2Z.id. Qed.

Lemma map_seqZ_snoc_insert {A} (l : list A) x :
  <[Z.of_nat (length l) := x]> (map_seqZ 0 l : gmap Z A) = map_seqZ 0 (l ++ [x]).
Proof. rewrite map_seqZ_snoc. by rewrite Z.add_0_l. Qed.

Lemma map_seqZ_snoc_delete {A} (l : list A) x :
  delete (Z.of_nat (length l)) (map_seqZ 0 (l ++ [x]) : gmap Z A) = map_seqZ 0 l.
Proof.
  rewrite <-map_seqZ_snoc_insert. apply delete_insert_id.
  rewrite map_seqZ_lookup. by apply lookup_ge_None.
Qed.

(** The lowest free descriptor of a table without holes. *)
Lemma lowest_map_seqZ open_max (l : list file) : (length l < open_max)%nat →
  lowest open_max (map_seqZ 0 l) = Some (Z.of_nat (length l)).
Proof.
  intros Hlt. unfold lowest. change 0 with (Z.of_nat 0) at 1.
  assert (∀ k i, (i ≤ length l < i + k)%nat →
    lowest_from (Z.of_nat i) k (map_seqZ 0 l) = Some (Z.of_nat (length l))) as H.
  { induction k as [|k IH]; intros i Hi; [lia|]. simpl. rewrite map_seqZ_lookup.
    destruct (decide (i = length l)) as [->|Hne].
    - by rewrite (proj2 (lookup_ge_None _ _)).
    - destruct (lookup_lt_is_Some_2 l i) as [f ->]; [lia|]. rewrite Z.add_1_r, <-Nat2Z.inj_succ.
      apply IH. lia. }
  apply H. lia.
Qed.

Definition base_files (k i : nat) : list file := [Stdin; Stdout; Stderr] ++ (PipeR <$> seq k i).

Lemma base_files_length k i : length (base_files k i) = (3 + i)%nat.
Proof. unfold base_files. by rewrite length_app, length_fmap, length_seq. Qed.

Lemma base_files_S k i : base_files k (S i) = base_files k i ++ [PipeR (k + i)].
Proof.
  unfold base_files. rewrite seq_S, fmap_app. by rewrite (assoc_L (++)).
Qed.

(** The descriptors of the shell once the pipe of the [i]th process is made. *)
Definition piped_table (k i : nat) : gmap Z file :=
  <[Z.of_nat (4 + i) := PipeW (k + i)]> (<[Z.of_nat (3 + i) := PipeR (k + i)]> (parent_table k i)).

Lemma parent_table_free k i z : Z.of_nat (3 + i) ≤ z → parent_table k i !! z = None.
Proof.
  intros Hz. unfold parent_table. rewrite lookup_map_seqZ_0 by lia. apply lookup_ge_None.
  fold (base_files k i). rewrite base_files_length. lia.
Qed.

(** The first half of the redirections, on a table with more in it. *)
Lemma child_input k i t : parent_table k i ⊆ t →
  (if negb (stdin_fd =? input_fd i) then
     and_then (dup2_in 4 (input_fd i) stdin_fd t) (close_in 5 (input_fd i))
   else inr t) =
  inr (match i with
       | O => t
       | S j => delete (Z.of_nat (3 + j)) (<[0 := PipeR (k + j)]> t)
       end).
Proof.
  intros Ht. destruct i as [|j]; [done|]. unfold input_fd, stdin_fd.
  replace (0 =? Z.of_nat (2 + S j)) with false by (symmetry; apply Z.eqb_neq; lia).
  simpl negb. cbn iota. replace (2 + S j)%nat with (3 + j)%nat by lia.
  assert (t !! Z.of_nat (3 + j) = Some (PipeR (k + j))) as Hl.
  { eapply lookup_weaken; [|exact Ht]. unfold parent_table. rewrite map_seqZ_lookup.
    fold (base_files k (S j)). rewrite base_files_S, <-(base_files_length k j).
    by apply list_lookup_middle. }
  unfold and_then, dup2_in, close_in. rewrite Hl. rewrite lookup_insert_ne by lia. by rewrite Hl.
Qed.

(** What closing the pipe before it leaves of the shell's table. *)
Lemma child_table_last k i :
  match i with
  | O => parent_table k i
  | S j => delete (Z.of_nat (3 + j)) (<[0 := PipeR (k + j)]> (parent_table k i))
  end = child_table k i true.
Proof.
  destruct i as [|j]; [done|]. rewrite delete_insert_ne by lia.
  unfold parent_table. fold (base_files k (S j)). rewrite base_files_S, <-(base_files_length k j).
  rewrite map_seqZ_snoc_delete. unfold base_files, child_table.
  by rewrite insert_map_seqZ_0 by (rewrite length_app; simpl; lia).
Qed.

Lemma child_fds_last k i :
  child_fds (input_fd i) (stdin_fd, stdout_fd) (parent_table k i) = inr (child_table k i true).
Proof.
  unfold child_fds. rewrite (child_input k) by done. unfold and_then at 1. simpl.
  by rewrite <-child_table_last.
Qed.

Lemma child_table_first k i : child_table k i false = <[1 := PipeW (k + i)]> (child_table k i true).
Proof. unfold child_table. by rewrite insert_map_seqZ_0 by (simpl; lia). Qed.

Lemma child_fds_piped k i :
  child_fds (input_fd i) (Z.of_nat (3 + i), Z.of_nat (4 + i)) (piped_table k i) =
  inr (child_table k i false).
Proof.
  assert (parent_table k i ⊆ piped_table k i) as Hsub.
  { unfold piped_table. etrans; [apply (insert_subseteq _ (Z.of_nat (3 + i)))|apply insert_subseteq].
    - apply parent_table_free. lia.
    - rewrite lookup_insert_ne by lia. apply parent_table_free. lia. }
  unfold child_fds. rewrite (child_input k) by done. unfold and_then at 1. cbn [fst snd].
  unfold stdout_fd. replace (1 =? Z.of_nat (4 + i)) with false by (symmetry; apply Z.eqb_neq; lia).
  simpl negb. cbn iota. rewrite child_table_first, <-child_table_last.
  set (X := match i with O => piped_table k i | S j => _ end).
  assert (X !! Z.of_nat (4 + i) = Some (PipeW (k + i)) ∧ X !! Z.of_nat (3 + i) = Some (PipeR (k + i)) ∧
    delete (Z.of_nat (4 + i)) (delete (Z.of_nat (3 + i)) X) =
    match i with
    | O => parent_table k i
    | S j => delete (Z.of_nat (3 + j)) (<[0 := PipeR (k + j)]> (parent_table k i))
    end) as (HW & HR & Hdel).
  { assert (delete (Z.of_nat (4 + i)) (delete (Z.of_nat (3 + i)) (piped_table k i)) = parent_table k i) as Hp.
    { unfold piped_table. rewrite delete_insert_ne, delete_insert_eq by lia.
      rewrite delete_insert_eq. rewrite !delete_id; [done|apply parent_table_free; lia|].
      rewrite lookup_delete_ne by lia. apply parent_table_free; lia. }
    unfold X. destruct i as [|j].
    - unfold piped_table in *. split; [by rewrite lookup_insert_eq|].
      split; [by rewrite lookup_insert_ne, lookup_insert_eq by lia|done].
    - split_and!.
      + unfold piped_table. by rewrite lookup_delete_ne, lookup_insert_ne, lookup_insert_eq by lia.
      + unfold piped_table. by rewrite lookup_delete_ne, !lookup_insert_ne, lookup_insert_eq by lia.
      + rewrite <-Hp. rewrite !(delete_delete _ _ (Z.of_nat (3 + j))).
        by rewrite !(delete_insert_ne _ _ 0) by lia. }
  unfold and_then, dup2_in, close_in. rewrite HW. rewrite lookup_insert_ne by lia. rewrite HR.
  rewrite lookup_delete_ne, lookup_insert_ne by lia. rewrite HW. f_equal.
  rewrite !(delete_insert_ne _ _ 1) by lia. by rewrite Hdel.
Qed.

(** ** Pieces of the run of a command *)

Lemma wp_pipes_mem {A} (m : comp (heap cell) A) s Q :
  wp m (mem s) (λ a h, Q a (set_mem h s)) → wp (in_mem m) s Q.
Proof. unfold wp, in_mem. by destruct (m (mem s)) as [[a h]|f|]. Qed.

Lemma wp_pipes_modify f s (Q : unit → shell → Prop) : Q tt (f s) → wp (modify f) s Q.
Proof. done. Qed.

Lemma SEP_nul : 0 ∉ SEP.
Proof. by apply (bool_decide_unpack _). Qed.

Lemma PIPE_nul : 0 ∉ PIPE.
Proof. by apply (bool_decide_unpack _). Qed.

Lemma wpf_store_beyond p i l v s (Q : unit → shell → Prop) (F : fault → Prop) :
  blocks (mem s) !! p = Some l → Z.of_nat (length l) ≤ i → F OutOfBounds →
  wpf (in_mem (store (ptr_add (Ptr p 0) i) v)) s Q F.
Proof.
  intros Hb Hi HF. unfold wpf, in_mem, store, store_cell. simpl. rewrite Hb.
  by rewrite (proj2 (Z.ltb_ge i _)), andb_false_r.
Qed.

Section argv.
Context (B : gmap positive (list (option cell))) (b : positive) (e : nat) (after : list (option cell)).
#[local] Abbreviation stored := (stored B b e after).
#[local] Abbreviation next_token := (next_token SEP b).

Lemma wp_strtok_piece s0 sp bc cells l o s ws :
  (if is_null sp then save s0 else sp) = Ptr b (Z.of_nat o) →
  stored bc cells l o s ws (mem s0) →
  wp (strtok_piece sp) s0 (λ tok s1, ∃ h' o' l' s', s1 = set_save (Ptr b (Z.of_nat o')) (set_mem h' s0) ∧
    stored bc cells l' o' s' ws h' ∧ next_token l' o' s' tok (words SEP s)).
Proof.
  intros Hp Hst. unfold strtok_piece. apply wp_bind, wp_get, wp_bind, wp_pipes_mem.
  eapply wp_mono; [eapply wp_strtok_stored; [apply SEP_nul|done|done]|].
  intros [tok p] h' (o' & l' & s' & Ep & Hst' & Htok). simpl in Ep, Htok. subst p.
  apply wp_bind, wp_pipes_modify, wp_ret. eauto 10.
Qed.

(** The words are stored with a NULL after them when there is room for it;
    otherwise one is stored beyond the end of [argv]. *)
Lemma wpf_argv_fill todo : ∀ fuel s0 tok bc done cells l o s,
  stored bc cells l o s done (mem s0) → save s0 = Ptr b (Z.of_nat o) → next_token l o s tok todo →
  (length done ≤ length cells)%nat → (length todo < fuel)%nat →
  wpf (loop fuel (argv_fill (Ptr bc 0)) (tok, Z.of_nat (length done))) s0
    (λ argc s1, (length (done ++ todo) < length cells)%nat ∧ argc = Z.of_nat (length (done ++ todo)) ∧
      ∃ cells l o s h p, s1 = set_save p (set_mem h s0) ∧ stored bc cells l o s (done ++ todo) h ∧
        cells !! length (done ++ todo) = Some (Some (CPtr Null)))
    (λ f, f = OutOfBounds ∧ (length cells ≤ length (done ++ todo))%nat).
Proof.
  induction todo as [|w todo IH]; intros [|fuel] s0 tok bc done cells l o s Hst Hsave Htok Hn Hf;
    try (simpl in Hf; lia); cbn [loop]; apply wpf_bind; unfold argv_fill at 1; apply wpf_bind.
  all: destruct (decide (length done = length cells)) as [Heq|Hneq];
    [eapply wpf_store_beyond; [by eapply st_vector|lia|split; [done|rewrite length_app; lia]]|].
  all: apply wpf_wp, wp_pipes_mem; (eapply wp_store; [by eapply st_vector|lia|]);
    rewrite Z.add_0_l, Nat2Z.id; assert (length done < length cells)%nat as Hlt by lia.
  - simpl in Htok. subst tok. simpl is_null. cbn iota. rewrite app_nil_r. apply wpf_wp, wp_ret, wp_ret. split; [done|].
    split; [done|]. eexists _, l, o, s, _, (save s0). split; [done|].
    split; [by apply stored_store|by apply list_lookup_insert_eq].
  - pose proof Htok as (ot & -> & _ & _ & Hwords & _). simpl is_null. cbn iota.
    pose proof (stored_snoc _ _ _ _ _ _ _ _ _ _ _ _ _ _ _ Hst Hlt Htok) as Hst2.
    apply wpf_bind, wpf_wp. eapply wp_mono; [eapply wp_strtok_piece; [exact Hsave|exact Hst2]|].
    intros tok ? (h3 & o3 & l3 & s3 & -> & Hst4 & Htok4). apply wpf_wp, wp_ret. rewrite Hwords in Htok4.
    replace (Z.of_nat (length done) + 1) with (Z.of_nat (length (done ++ [w])))
      by (rewrite length_app; simpl; lia). simpl in Hf.
    eapply wpf_mono; [eapply (IH _ _ _ _ (done ++ [w])); [exact Hst4|done|exact Htok4|..]|..].
    + rewrite length_app, length_insert. simpl. lia.
    + lia.
    + intros argc s5. rewrite <-(assoc_L (++)), length_insert. simpl. intros (H1 & H2 & H3).
      split; [done|]. split; [done|].
      destruct H3 as (cells5 & l5 & o5 & s5' & h5 & p5 & -> & H5). by exists cells5, l5, o5, s5', h5, p5.
    + intros f. by rewrite <-(assoc_L (++)), length_insert.
Qed.
End argv.

Section system.
Context (open_max : nat) (forked : nat → option proc).

Lemma wp_pipe k i s (Q : option (Z * Z) → shell → Prop) :
  fds s = parent_table k i → pipes s = (k + i)%nat → (5 + i ≤ open_max)%nat →
  Q (Some (Z.of_nat (3 + i), Z.of_nat (4 + i))) (set_fds (piped_table k i) (S (k + i)) s) →
  wp (pipe open_max) s Q.
Proof.
  intros Hf Hp Hmax HQ. unfold pipe. apply wp_bind, wp_get. rewrite Hf, Hp.
  unfold parent_table. fold (base_files k i).
  rewrite lowest_map_seqZ by (rewrite base_files_length; lia). cbv zeta.
  rewrite map_seqZ_snoc_insert, lowest_map_seqZ by (rewrite length_app, base_files_length; simpl; lia).
  apply wp_bind, wp_put, wp_ret. rewrite length_app, base_files_length. simpl length.
  replace (3 + i + 1)%nat with (4 + i)%nat by lia.
  rewrite <-map_seqZ_snoc_insert, base_files_length. exact HQ.
Qed.

Lemma wp_close status fd f s (Q : unit → shell → Prop) :
  fds s !! fd = Some f → Q tt (set_fds (delete fd (fds s)) (pipes s) s) → wp (close status fd) s Q.
Proof. intros Hf HQ. unfold close. apply wp_bind, wp_get. rewrite Hf. by apply wp_put. Qed.

(** Closing the writing end leaves the table of the next process. *)
Lemma piped_table_close k i : delete (Z.of_nat (4 + i)) (piped_table k i) = parent_table k (S i).
Proof.
  unfold piped_table. rewrite delete_insert_id.
  - unfold parent_table. fold (base_files k i) (base_files k (S i)).
    rewrite base_files_S, <-map_seqZ_snoc_insert. by rewrite base_files_length.
  - rewrite lookup_insert_ne by lia. apply parent_table_free. lia.
Qed.

(** Closing the reading end after it gives the table back. *)
Lemma parent_table_close k i : delete (Z.of_nat (3 + i)) (parent_table k (S i)) = parent_table k i.
Proof.
  unfold parent_table. fold (base_files k i) (base_files k (S i)).
  by rewrite base_files_S, <-(base_files_length k i), map_seqZ_snoc_delete.
Qed.

Lemma parent_table_reading k i : parent_table k (S i) !! Z.of_nat (3 + i) = Some (PipeR (k + i)).
Proof.
  unfold parent_table. rewrite map_seqZ_lookup. fold (base_files k (S i)).
  rewrite base_files_S, <-(base_files_length k i). by apply list_lookup_middle.
Qed.
End system.

Lemma st_length B b e after bc cells l o s ws h :
  stored B b e after bc cells l o s ws h → after ≠ [] → length l = (e + length after)%nat.
Proof.
  intros Hst Hne. destruct Hst as [_ _ _ _ _ _ _ _ Ha]. subst after. rewrite length_drop.
  destruct (decide (length l ≤ e)%nat) as [Hle|]; [|lia]. by rewrite drop_ge in Hne.
Qed.

(** The words of the piece [w] at [o] are put in a new vector. *)
Lemma wpf_fill_argv s b l o w :
  heap_ok (mem s) → blocks (mem s) !! b = Some l → string_at l o w → 0 ∉ w →
  wpf (fill_argv (Ptr b (Z.of_nat o))) s
    (λ r s1, r.2 = Z.of_nat (length (words SEP w)) ∧ (length (words SEP w) < 256)%nat ∧ ∃ bc cells l' o' t h p,
       r.1 = Ptr bc 0 ∧ s1 = set_save p (set_mem h s) ∧
       stored (blocks (mem s)) b (o + length w) (drop (o + length w) l) bc cells l' o' t (words SEP w) h ∧
       cells !! length (words SEP w) = Some (Some (CPtr Null)))
    (λ f, f = OutOfBounds ∧ (256 ≤ length (words SEP w))%nat).
Proof.
  intros Hok Hb Hw H0. unfold fill_argv. apply wpf_bind, wpf_wp, wp_pipes_mem, wp_alloc; [done|].
  intros bc h -> Hnone Hblk Hok1. set (bc := next (mem s)) in *. clearbody bc.
  assert (bc ≠ b) as Hne by (intros ->; congruence).
  change (Z.to_nat MAX_ARGV) with 256%nat in *.
  apply wpf_bind, wpf_wp, wp_pipes_mem, wp_room with (l := l).
  { simpl. by rewrite Hblk, lookup_insert_ne. }
  apply wpf_bind, wpf_wp. eapply wp_mono.
  { eapply (wp_strtok_piece (blocks (mem s)) b (o + length w) (drop (o + length w) l) _
      (Ptr b (Z.of_nat o)) bc _ l o w []); [done|].
    constructor; try done. rewrite (insert_id (blocks (mem s)) b) by done. done. }
  intros tok ? (h3 & o3 & l3 & s3 & -> & Hst & Htok).
  pose proof (words_length SEP w). pose proof (string_at_length _ _ _ Hw).
  apply wpf_bind. change 0 with (Z.of_nat (length (@nil (list Z)))) at 2.
  eapply wpf_mono; [eapply (wpf_argv_fill _ _ _ _ _ _ _ _ _ []);
    [exact Hst|done|exact Htok|simpl; lia|lia]|..].
  - intros argc ? (Hlt & -> & cells5 & l5 & o5 & s5 & h5 & p5 & -> & Hst5 & Hnull).
    apply wpf_wp, wp_ret. rewrite length_replicate in Hlt. split; [done|]. split; [done|].
    by exists bc, cells5, l5, o5, s5, h5, p5.
  - intros f. rewrite length_replicate. done.
Qed.

(** A string after the end of the piece is not touched by its cutting. *)
Lemma string_at_after B b e bc cells l1 l o t ws h s :
  stored B b e (drop e l1) bc cells l o t ws h → string_at l1 (S e) s → string_at l (S e) s.
Proof.
  intros [_ _ _ _ _ _ _ _ Ha]. unfold string_at.
  rewrite <-Nat.add_1_r, <-!drop_drop. by rewrite Ha.
Qed.

(** What cutting the first piece off [text] leaves: its words in the vector
    [bc], and the rest of the line at [rest]. *)
Record piece_cut (s : shell) (b : positive) (l : list (option cell)) (text w : list Z)
    (ps : list (list Z)) (bc : positive) (rest : ptr) (cells l' : list (option cell)) (h : heap cell) : Prop := {
  pc_split : split_at PIPE text = w :: ps;
  pc_ok : heap_ok h;
  pc_ne : bc ≠ b;
  pc_fresh : blocks (mem s) !! bc = None;
  pc_blocks : blocks h = <[bc := cells]> (<[b := l']> (blocks (mem s)));
  pc_length : length l' = length l;
  pc_argv : wp (read_argv (Ptr bc 0)) h (λ r h', h' = h ∧ r = words SEP w);
  pc_rest : (rest = Null ∧ ps = []) ∨
    ∃ o t, rest = Ptr b (Z.of_nat o) ∧ string_at l' o t ∧ (0 ∉ t) ∧ ps = split_at PIPE t ∧
      (length t < length text)%nat
}.

Lemma wpf_cut_piece s b l o text :
  heap_ok (mem s) → blocks (mem s) !! b = Some l → string_at l o text → 0 ∉ text →
  wpf (cut_piece (Ptr b (Z.of_nat o))) s
    (λ r s', ∃ w ps bc rest cells l' h q, piece_cut s b l text w ps bc rest cells l' h ∧
       r = (Ptr bc 0, Z.of_nat (length (words SEP w)), rest) ∧ s' = set_save q (set_mem h s) ∧
       (length (words SEP w) < 256)%nat)
    (λ f, f = OutOfBounds ∧ ∃ w ps, split_at PIPE text = w :: ps ∧ (256 ≤ length (words SEP w))%nat).
Proof.
  intros Hok Hb Htext H0. unfold cut_piece.
  assert (∀ w ps l1 h1 rest, split_at PIPE text = w :: ps → string_at l1 o w → 0 ∉ w →
    length l1 = length l → heap_ok h1 → blocks h1 = <[b := l1]> (blocks (mem s)) →
    (rest = Null ∧ ps = [] ∨ ∃ t, rest = Ptr b (Z.of_nat (S (o + length w))) ∧
       string_at l1 (S (o + length w)) t ∧ (0 ∉ t) ∧ ps = split_at PIPE t ∧ (length t < length text)%nat) →
    wpf (r ← fill_argv (Ptr b (Z.of_nat o)); mret (r, rest)) (set_mem h1 s)
      (λ r s', ∃ w ps bc rest cells l' h q, piece_cut s b l text w ps bc rest cells l' h ∧
         r = (Ptr bc 0, Z.of_nat (length (words SEP w)), rest) ∧ s' = set_save q (set_mem h s) ∧
         (length (words SEP w) < 256)%nat)
      (λ f, f = OutOfBounds ∧ ∃ w ps, split_at PIPE text = w :: ps ∧
         (256 ≤ length (words SEP w))%nat)) as Hfill.
  { intros w ps l1 h1 rest Hsplit Hw Hw0 Hl1 Hok1 Hblk1 Hrest. apply wpf_bind. eapply wpf_mono.
    { eapply (wpf_fill_argv (set_mem h1 s) b l1); try done. by simpl; rewrite Hblk1, lookup_insert_eq. }
    - intros [? argc] ? (Eargc & Hmax & bc & cells & l' & o' & t & h & q & Eargv & -> & Hst & Hnull).
      simpl in Eargv, Eargc, Hst. subst. apply wpf_wp, wp_ret.
      pose proof (string_at_length _ _ _ Hw) as Hwlen.
      exists w, ps, bc, rest, cells, l', h, q. split; [|done].
      pose proof Hst as [Hok' Hne Hfr Hblk _ _ _ _ _].
      rewrite Hblk1, insert_insert_eq in Hblk. rewrite Hblk1, lookup_insert_ne in Hfr by done.
      constructor; try done.
      + rewrite (st_length _ _ _ _ _ _ _ _ _ _ _ Hst); rewrite ?length_drop; [lia|].
        intros Hd. apply (f_equal length) in Hd. rewrite length_drop in Hd. simpl in Hd. lia.
      + by eapply wp_read_stored.
      + destruct Hrest as [?|(t' & -> & Ht & ? & ? & ?)]; [by left|right].
        exists (S (o + length w)), t'. split_and!; try done. by eapply string_at_after.
    - intros f [-> Hlen]. eauto. }
  apply wpf_bind, wpf_wp, wp_pipes_mem.
  eapply wp_strsep; [done..|apply PIPE_nul|done| |].
  - intros Hsplit. eapply Hfill; try done; [by rewrite insert_id|by left].
  - intros w s' l1 h1 Hsplit Hw0 Hs0 Hlen Hw Hs' Hl1 Hok1 Hblk1. eapply Hfill; try done.
    right. exists s'. split_and!; try done. lia.
Qed.

Section system.
Context (open_max : nat) (forked : nat → option proc) (lingers : nat → Z → bool).

#[local] Arguments Z.eqb : simpl never.

Lemma child_in_lookup g s : child_in g s = true ↔ ∃ c, groups s !! c = Some g.
Proof.
  unfold child_in. rewrite bool_decide_eq_true, list_elem_of_fmap. split.
  - intros ([c g'] & -> & Hin). apply elem_of_map_to_list in Hin. by exists c.
  - intros [c Hc]. exists (c, g). split; [done|]. by apply elem_of_map_to_list.
Qed.

Lemma child_in_insert c g s : groups s !! c = Some g → child_in g s = true.
Proof. intros Hc. apply child_in_lookup. by exists c. Qed.

(** No SIGINT but while the shell waits. *)
Definition quiet (c : proc) : Prop := ∀ m, early c m = 0%nat.

(** What a process is started with, and where it leaves the shell. *)
Lemma wp_start_process s argv ws infd fd t c :
  wp (read_argv argv) (mem s) (λ r h, h = mem s ∧ r = ws) →
  child_fds infd fd (fds s) = inr t → forked (forks s) = Some c → raced c = false → quiet c →
  cpid c ≠ 0 → groups s !! cpid c = None →
  pgid s = 0 ∨ child_in (pgid s) s = true →
  wp (start_process forked lingers argv infd fd) s (λ r s', r = c ∧
    let g := if 0 =? pgid s then cpid c else pgid s in
    s' = Shell (mem s) (save s) g (fds s) (<[cpid c := g]> (groups s)) (pipes s) (S (forks s))
           (reads s) (out s ++ [Exec ws t; Join (cpid c) g])).
Proof.
  intros Hargv Ht Hc Hr Hq Hc0 Hfr Hg. unfold start_process.
  apply wp_bind. unfold fork. apply wp_bind, wp_get.
  rewrite Hc. apply wp_bind, wp_put, wp_ret. rewrite !Hq. cbn [sigints_come].
  apply wp_bind, wp_ret, wp_bind. unfold child. apply wp_bind, wp_get. simpl fds.
  rewrite Ht. apply wp_bind, wp_pipes_mem. eapply wp_mono; [exact Hargv|]. intros ? ? [-> ->].
  apply wp_pipes_modify, wp_bind, wp_pipes_modify, wp_bind, wp_ret, wp_bind, wp_get, wp_bind.
  unfold setpgid. apply wp_bind, wp_get.
  simpl pgid. rewrite Hr. set (g := if 0 =? pgid s then cpid c else pgid s).
  assert (g ≠ 0) as Hg0 by (unfold g; destruct (Z.eqb_spec 0 (pgid s)); congruence).
  rewrite (proj2 (Z.eqb_neq g 0)) by done.
  match goal with |- context [group_exists lingers g ?s1] =>
    assert ((g =? cpid c) || group_exists lingers g s1 = true) as -> end.
  { unfold g. destruct (Z.eqb_spec 0 (pgid s)) as [H0|H0].
    - by rewrite Z.eqb_refl.
    - destruct Hg as [Hg|Hg]; [by rewrite Hg in H0|]. apply orb_true_iff. right.
      apply orb_true_iff. left. apply child_in_lookup in Hg as [c' Hc'].
      apply child_in_lookup. exists c'. simpl. rewrite lookup_insert_ne; [done|]. intros <-. congruence. }
  simpl. apply wp_bind, wp_put, wp_pipes_modify, wp_bind, wp_ret, wp_ret. split; [done|].
  unfold set_groups, set_out. simpl. by rewrite insert_insert_eq, <-(assoc_L (++)).
Qed.

(** Waiting for a process, with one SIGINT at most. *)
Lemma wp_waitpid s c :
  (sigints c ≤ 1)%nat → (sigints c = 1%nat → pgid s ≠ 0 ∧ child_in (pgid s) s = true) →
  wp (waitpid lingers c) s (λ _ s', s' =
    Shell (mem s) (save s) (if (sigints c =? 0)%nat then pgid s else 0) (fds s)
      (delete (cpid c) (groups s)) (pipes s) (forks s) (reads s)
      (out s ++ if (sigints c =? 0)%nat then [] else [KillGroup (pgid s)])).
Proof.
  intros Hle Hg. unfold waitpid. destruct (sigints c) as [|[|]] eqn:Hc; [..|lia].
  - apply wp_bind, wp_ret, wp_bind, wp_get, wp_put. simpl. by rewrite app_nil_r.
  - destruct Hg as [Hg0 Hg]; [done|]. apply wp_bind. cbn [sigints_come]. apply wp_bind.
    unfold sigint_handler. apply wp_bind, wp_get. unfold group_exists. rewrite (proj2 (Z.eqb_neq _ _) Hg0), Hg. simpl negb.
    cbn iota. apply wp_bind, wp_pipes_modify, wp_pipes_modify, wp_ret, wp_bind, wp_get, wp_put. done.
Qed.

(** The processes made for a line. *)
Record line_procs (cs : list proc) (n : nat) (live : gmap Z Z) : Prop := {
  lp_forked : ∀ j c, cs !! j = Some c → forked (n + j) = Some c;
  lp_ok : Forall (λ c, raced c = false ∧ quiet c ∧ cpid c ≠ 0 ∧ live !! cpid c = None) cs;
  lp_nodup : NoDup (cpid <$> cs);
  lp_sigints : (sum_list_with sigints cs ≤ 1)%nat
}.

(** What [run] does to the shell when it is given a line. *)
Definition run_post (b : positive) (l : list (option cell)) (evs : list event) (cs : list proc)
    (s s' : shell) : Prop :=
  heap_ok (mem s') ∧
  (∃ l', length l' = length l ∧ blocks (mem s') = <[b := l']> (blocks (mem s))) ∧
  fds s' = fds s ∧ groups s' = groups s ∧ forks s' = (forks s + length cs)%nat ∧ reads s' = reads s ∧
  pgid s' = (if (sum_list_with sigints cs =? 0)%nat then line_group (pgid s) cs else 0) ∧
  out s' = out s ++ evs ++
    (if (sum_list_with sigints cs =? 0)%nat then [] else [KillGroup (line_group (pgid s) cs)]).

Lemma wp_wpf {S A} (m : comp S A) s Q F : wpf m s Q F → (∀ f, ¬ F f) → wp m s Q.
Proof. unfold wp, wpf. destruct (m s) as [[a s']|f|]; naive_solver. Qed.

(** The processes that come after the first one of a line. *)
Lemma line_procs_tail c cs n live g : line_procs (c :: cs) n live →
  forked n = Some c ∧ raced c = false ∧ quiet c ∧ cpid c ≠ 0 ∧ live !! cpid c = None ∧
  line_procs cs (S n) (<[cpid c := g]> live) ∧ (sigints c + sum_list_with sigints cs ≤ 1)%nat.
Proof.
  intros [Hf Hok Hnd Hs]. apply Forall_cons in Hok as [(Hr & Hq & H0 & Hl) Hok].
  apply NoDup_cons in Hnd as [Hni Hnd]. split_and!; try done.
  - rewrite <-(Nat.add_0_r n). by apply Hf.
  - constructor; [|..|done|simpl in Hs; lia].
    + intros j c' Hj. rewrite Nat.add_succ_comm. by apply Hf.
    + rewrite Forall_forall in Hok |- *. intros c' Hc'. destruct (Hok _ Hc') as (? & ? & ? & Hl').
      split_and!; try done. rewrite lookup_insert_ne; [done|]. intros Heq. apply Hni. rewrite Heq.
      by apply list_elem_of_fmap_2.
Qed.

(** The end of a call of [run]. *)
Lemma wp_finish s c bc cells B :
  blocks (mem s) = <[bc := cells]> B → B !! bc = None → heap_ok (mem s) → (sigints c ≤ 1)%nat →
  (sigints c = 1%nat → pgid s ≠ 0 ∧ child_in (pgid s) s = true) →
  wp (waitpid lingers c;; in_mem (free (Ptr bc 0))) s (λ _ s', ∃ h, heap_ok h ∧ blocks h = B ∧ s' =
    Shell h (save s) (if (sigints c =? 0)%nat then pgid s else 0) (fds s)
      (delete (cpid c) (groups s)) (pipes s) (forks s) (reads s)
      (out s ++ if (sigints c =? 0)%nat then [] else [KillGroup (pgid s)])).
Proof.
  intros Hblk HB Hok Hle Hg. apply wp_bind. eapply wp_mono; [by apply wp_waitpid|].
  intros ? ? ->. apply wp_pipes_mem. eapply wp_free; [simpl; by rewrite Hblk, lookup_insert_eq|].
  eexists. split; [by apply heap_ok_delete|]. split; [|done]. simpl. by rewrite Hblk, delete_insert_id.
Qed.

(** The group a process is put in is there as long as it is. *)
Lemma group_of_process g c p : let g' := if 0 =? g then cpid c else g in
  cpid c ≠ 0 → groups p !! cpid c = Some g' → pgid p = g' → pgid p ≠ 0 ∧ child_in (pgid p) p = true.
Proof.
  intros g' H0 Hc ->. split; [|by eapply child_in_insert].
  unfold g'. destruct (Z.eqb_spec 0 g); congruence.
Qed.

Lemma line_group_nonzero g cs : g ≠ 0 → line_group g cs = g.
Proof. intros Hg. destruct cs; [done|]. simpl. by rewrite (proj2 (Z.eqb_neq 0 g)). Qed.

Lemma split_at_nonempty delims s : split_at delims s ≠ [].
Proof.
  destruct s as [|c s]; simpl; [done|]. destruct (decide (c ∈ delims)); [done|].
  by destruct (split_at delims s).
Qed.

(** A call of [run] on a piece without words. *)
Lemma wp_run_empty s b l text w ps bc rest cells l' h q :
  piece_cut s b l text w ps bc rest cells l' h →
  wp (in_mem (free (Ptr bc 0))) (set_save q (set_mem h s)) (λ _, run_post b l [] [] s).
Proof.
  intros [_ Hok Hne Hfr Hblk Hl _ _]. apply wp_pipes_mem.
  eapply wp_free; [simpl; by rewrite Hblk, lookup_insert_eq|]. unfold run_post. simpl.
  split; [by apply heap_ok_delete|]. split.
  - exists l'. split; [done|]. rewrite Hblk, delete_insert_id; [done|]. by rewrite lookup_insert_ne.
  - split_and!; try done; by rewrite ?app_nil_r, ?Nat.add_0_r.
Qed.

(** The shell after the [i]th process of a line has been started. *)
Definition started (k i : nat) (ev : list event) (c : proc) (t : gmap Z file) (h : heap cell) (q : ptr)
    (n : nat) (s : shell) : shell :=
  let g := if 0 =? pgid s then cpid c else pgid s in
  Shell h q g t (<[cpid c := g]> (groups s)) n (S (forks s)) (reads s) (out s ++ ev).

Lemma started_group k i ev c t h q n s : cpid c ≠ 0 →
  pgid (started k i ev c t h q n s) ≠ 0 ∧
  child_in (pgid (started k i ev c t h q n s)) (started k i ev c t h q n s) = true.
Proof.
  intros H0. eapply (group_of_process (pgid s) c); [done|simpl; by rewrite lookup_insert_eq|done].
Qed.

(** The end of a call of [run] that has started [c], after the rest of the
    line has been run. *)
Lemma wp_run_end s b l l' evs ev c cs k i t h q n s4 m bc cells :
  cpid c ≠ 0 → groups s !! cpid c = None → (sigints c + sum_list_with sigints cs ≤ 1)%nat →
  length l' = length l → bc ≠ b → blocks (mem s) !! bc = None →
  blocks h = <[bc := cells]> (<[b := l']> (blocks (mem s))) →
  run_post b l' evs cs (started k i ev c t h q n s) s4 →
  wp (waitpid lingers c;; in_mem (free (Ptr bc 0))) (set_fds (fds s) m s4)
    (λ _, run_post b l (ev ++ evs) (c :: cs) s).
Proof.
  intros Hc0 Hfree Hs1 Hl' Hne Hfr Hblk (Hok4 & (l5 & Hl5 & Hblk4) & Hfds4 & Hgr4 & Hfk4 & Hrd4 & Hpg4 & Ho4).
  destruct (started_group k i ev c t h q n s Hc0) as [Hg0 _].
  set (g := if 0 =? pgid s then cpid c else pgid s) in *. simpl in *.
  rewrite line_group_nonzero in Hpg4, Ho4 by done.
  eapply wp_mono.
  { eapply (wp_finish _ c bc cells (<[b := l5]> (blocks (mem s)))); simpl.
    - by rewrite Hblk4, Hblk, insert_insert_ne, insert_insert_eq by done.
    - by rewrite lookup_insert_ne.
    - done.
    - lia.
    - intros Hc1. rewrite Hpg4. replace (sum_list_with sigints cs) with 0%nat by lia. simpl.
      split; [done|]. eapply child_in_insert. simpl. rewrite Hgr4. apply lookup_insert_eq. }
  intros [] s5 (h5 & Hok5 & Hblk5 & ->). unfold run_post. simpl.
  split; [done|]. split; [exists l5; split; [congruence|done]|]. split_and!; try done.
  - by rewrite Hgr4, delete_insert_id.
  - lia.
  - rewrite Hpg4. fold g. destruct (sigints c) as [|[|]], (sum_list_with sigints cs); try done; lia.
  - rewrite Ho4, Hpg4. fold g. destruct (sigints c) as [|[|]], (sum_list_with sigints cs); try lia;
      simpl; rewrite ?app_nil_r, <-!(assoc_L (++)); done.
Qed.

Lemma run_post_refl b l s : heap_ok (mem s) → blocks (mem s) !! b = Some l → run_post b l [] [] s s.
Proof.
  intros Hok Hb. unfold run_post. simpl. rewrite app_nil_r, Nat.add_0_r.
  split; [done|]. split; [exists l; by rewrite insert_id|done].
Qed.

Lemma wp_run fuel : ∀ s i k o b l text cs,
  (length text < fuel)%nat → heap_ok (mem s) → blocks (mem s) !! b = Some l → string_at l o text →
  0 ∉ text → Forall (λ p, (length (words SEP p) < 256)%nat) (split_at PIPE text) →
  (4 + i + length (split_at PIPE text) ≤ open_max)%nat →
  fds s = parent_table k i → pipes s = (k + i)%nat →
  length cs = length (commands (split_at PIPE text)) → line_procs cs (forks s) (groups s) →
  pgid s = 0 ∨ child_in (pgid s) s = true →
  wp (run open_max forked lingers fuel (Ptr b (Z.of_nat o)) (input_fd i)) s
    (λ _, run_post b l (line_events (line_group (pgid s) cs) k i cs (split_at PIPE text)) cs s).
Proof.
  induction fuel as [|fuel IH]; intros s i k o b l text cs Hfu Hok Hb Htext H0 Hshort Hmax Hfds Hpipes
    Hlen Hcs Hg; [lia|]. cbn [run]. apply wp_bind. eapply wp_mono.
  { eapply wp_wpf; [by apply wpf_cut_piece|]. intros f (_ & w & ps & Hsplit & Hw).
    rewrite Hsplit in Hshort. apply Forall_cons in Hshort as [? _]. lia. }
  intros ? ? (w & ps & bc & rest & cells & l' & h & q & Hcut & -> & -> & _). cbn iota.
  pose proof Hcut as [Hsplit Hok' Hne Hfr Hblk Hl' Hargv Hrest].
  assert (blocks h !! b = Some l') as Hbl by by rewrite Hblk, lookup_insert_ne, lookup_insert_eq.
  rewrite Hsplit in Hlen, Hmax, Hshort |- *. cbn [commands line_events] in *.
  destruct (words SEP w) as [|w0 ws] eqn:Hws.
  { destruct cs; [|done]. cbn [line_events]. by eapply wp_run_empty. }
  destruct cs as [|c cs]; [done|]. simpl length in Hlen, Hmax. cbn [line_events]. rewrite Hws.
  replace (Z.of_nat (length (w0 :: ws)) =? 0) with false by (symmetry; apply Z.eqb_neq; simpl; lia).
  set (g := if 0 =? pgid s then cpid c else pgid s).
  destruct (line_procs_tail _ _ _ _ g Hcs) as (Hf & Hr & Hq & Hc0 & Hfree & Hcs' & Hs1).
  change (line_group (pgid s) (c :: cs)) with g.
  destruct Hrest as [[-> ->]|(o' & t & -> & Ht & Ht0 & -> & Hlt)].
  - destruct cs; [|done]. simpl is_null. cbn [negb bool_decide]. cbn iota. apply wp_bind, wp_ret, wp_bind.
    eapply wp_mono.
    { eapply (wp_start_process _ _ (w0 :: ws)); simpl; [exact Hargv|rewrite Hfds; apply child_fds_last|done..]. }
    intros ? s2 [-> Es2]. simpl in Es2. fold g in Es2. apply wp_bind, wp_ret.
    assert (s2 = set_fds (fds s) (pipes s2)
      (started k i [Exec (w0 :: ws) (child_table k i true); Join (cpid c) g] c (fds s) h q (pipes s) s)) as ->.
    { by rewrite Es2. }
    eapply (wp_run_end _ _ _ _ [] [_; _]); try done. by apply run_post_refl.
  - simpl is_null. simpl negb. cbn iota. rewrite bool_decide_eq_false_2 by apply split_at_nonempty.
    apply wp_bind, wp_bind. assert (5 + i ≤ open_max)%nat.
    { pose proof (split_at_nonempty PIPE t). destruct (split_at PIPE t); [done|]. simpl in Hmax. lia. }
    eapply wp_pipe; [done|done|done|]. apply wp_ret, wp_bind. eapply wp_mono.
    { eapply (wp_start_process _ _ (w0 :: ws)); simpl; [exact Hargv|apply child_fds_piped|done..]. }
    intros ? s2 [-> Es2]. simpl in Es2. fold g in Es2. cbn [fst snd]. unfold stdout_fd.
    replace (1 =? Z.of_nat (4 + i)) with false by (symmetry; apply Z.eqb_neq; lia).
    simpl negb. cbn iota. apply wp_bind, wp_bind.
    eapply wp_close; [by rewrite Es2; simpl; unfold piped_table; rewrite lookup_insert_eq|].
    set (ev := [Exec (w0 :: ws) (child_table k i false); Join (cpid c) g]) in *.
    assert (set_fds (delete (Z.of_nat (4 + i)) (fds s2)) (pipes s2) s2 =
      started k i ev c (parent_table k (S i)) h q (k + S i) s) as ->.
    { rewrite Es2. unfold set_fds. cbn [mem save pgid fds groups pipes forks reads out].
      by rewrite piped_table_close, Nat.add_succ_r. }
    clear s2 Es2. apply wp_bind. eapply wp_mono.
    { apply (IH _ (S i) k o' b l' t cs); simpl; try done; [lia|by apply Forall_cons in Hshort as [_ ?]|lia|lia|].
      right. by eapply (started_group k i ev c). }
    cbn [pgid started]. fold g. rewrite line_group_nonzero
      by (unfold g; destruct (Z.eqb_spec 0 (pgid s)); congruence).
    intros [] s4 Hpost. pose proof Hpost as (_ & _ & Hfds4 & _).
    eapply wp_close; [rewrite Hfds4; apply parent_table_reading|]. rewrite Hfds4.
    cbn [fds started]. change (Z.of_nat (3 + i)) with (Z.of_nat (3 + i)%nat).
    rewrite parent_table_close, <-Hfds. by eapply (wp_run_end _ _ _ _ _ ev).
Qed.
End system.

(** ** A second line *)

Section second_line.
Context (open_max : nat) (forked : nat → option proc) (lingers : nat → Z → bool).

#[local] Arguments Z.eqb : simpl never.

(** A process cannot be put in a group that is gone. *)
Lemma wpf_start_process_dead s argv ws infd fd c (Q : proc → shell → Prop) :
  wp (read_argv argv) (mem s) (λ r h, h = mem s ∧ r = ws) →
  forked (forks s) = Some c → quiet c → lingers (S (forks s)) (pgid s) = false →
  pgid s ≠ 0 → pgid s ≠ cpid c → groups s = ∅ →
  wpf (start_process forked lingers argv infd fd) s Q (λ f, f = Exited 11).
Proof.
  intros Hargv Hc Hq Hling H0 Hne Hgr. unfold start_process. apply wpf_bind, wpf_wp. unfold fork.
  apply wp_bind, wp_get. rewrite Hc. apply wp_bind, wp_put, wp_ret. rewrite !Hq. cbn [sigints_come].
  apply wpf_bind, wpf_wp, wp_ret, wpf_bind, wpf_wp.
  unfold child. apply wp_bind, wp_get. simpl fds.
  apply (wp_mono _ _ (λ _ s', pgid s' = pgid s ∧ groups s' = <[cpid c := 0]> ∅ ∧ forks s' = S (forks s))).
  { destruct (child_fds infd fd (fds s)) as [n|t]; [apply wp_ret; simpl; by rewrite Hgr|].
    apply wp_bind, wp_pipes_mem. eapply wp_mono; [exact Hargv|]. intros ? ? [-> ->].
    apply wp_pipes_modify. simpl. by rewrite Hgr. }
  intros ? s2 (Hpg & Hgr2 & Hfk). apply wpf_bind, wpf_wp, wp_pipes_modify, wpf_bind, wpf_wp, wp_ret.
  apply wpf_bind, wpf_wp, wp_get, wpf_bind.
  unfold setpgid. apply wpf_bind, wpf_wp, wp_get. simpl pgid. rewrite Hpg.
  rewrite (proj2 (Z.eqb_neq 0 (pgid s))) by done. cbn iota.
  rewrite (proj2 (Z.eqb_neq (pgid s) 0)), (proj2 (Z.eqb_neq (pgid s) (cpid c))) by done.
  assert (group_exists lingers (pgid s) (set_pgid (pgid s) s2) = false) as ->.
  { unfold group_exists. simpl. rewrite Hfk, Hling, orb_false_r.
    apply not_true_is_false. intros [c' Hc']%child_in_lookup. simpl in Hc'. rewrite Hgr2 in Hc'.
    apply lookup_insert_Some in Hc' as [[_ ?]|[_ ?]]; [congruence|]. by rewrite lookup_empty in H. }
  by rewrite orb_true_r.
Qed.

Lemma wpf_run_dead fuel s k b l text c (Q : unit → shell → Prop) :
  heap_ok (mem s) → blocks (mem s) !! b = Some l → string_at l 0 text → 0 ∉ text →
  (∃ w ps, split_at PIPE text = w :: ps ∧ words SEP w ≠ [] ∧ (length (words SEP w) < 256)%nat) →
  fds s = parent_table k 0 → (5 ≤ open_max)%nat →
  forked (forks s) = Some c → quiet c → lingers (S (forks s)) (pgid s) = false →
  pgid s ≠ 0 → pgid s ≠ cpid c → groups s = ∅ →
  wpf (run open_max forked lingers (S fuel) (Ptr b 0) stdin_fd) s Q (λ f, f = Exited 11).
Proof.
  intros Hok Hb Htext H0 (w & ps & Hsplit & Hw & Hshort) Hfds Hmax Hc Hq Hling Hpg Hne Hgr. cbn [run].
  apply wpf_bind. eapply wpf_mono; [by apply (wpf_cut_piece s b l 0)|..].
  2: { intros f (_ & w' & ps' & Hsplit' & Hw'). rewrite Hsplit in Hsplit'. simplify_eq. lia. }
  intros ? ? (w' & ps' & bc & rest & cells & l' & h & q & Hcut & -> & -> & _). cbn iota.
  pose proof (pc_split _ _ _ _ _ _ _ _ _ _ _ Hcut) as Hs. rewrite Hsplit in Hs. simplify_eq.
  replace (Z.of_nat (length (words SEP w')) =? 0) with false
    by (symmetry; apply Z.eqb_neq; destruct (words SEP w'); [done|simpl; lia]).
  assert (∀ fd s2 (K : proc → comp shell unit), mem s2 = h → pgid s2 = pgid s → groups s2 = ∅ → forks s2 = forks s →
    wpf (c ← start_process forked lingers (Ptr bc 0) stdin_fd fd; K c) s2 Q (λ f, f = Exited 11)) as Hstart.
  { intros fd s2 K Hm Hp Hg Hf. apply wpf_bind.
    eapply (wpf_start_process_dead s2 _ (words SEP w') _ _ c); [|congruence..].
    rewrite Hm. apply Hcut. }
  apply wpf_bind, wpf_wp. destruct (is_null rest); simpl negb; cbn iota.
  - apply wp_ret. by apply Hstart.
  - apply wp_bind. unfold pipe. apply wp_bind, wp_get. simpl fds. rewrite Hfds.
    unfold parent_table. fold (base_files k 0).
    rewrite lowest_map_seqZ by (rewrite base_files_length; lia). cbv zeta.
    rewrite map_seqZ_snoc_insert, lowest_map_seqZ by (rewrite length_app, base_files_length; simpl; lia).
    apply wp_bind, wp_put, wp_ret, wp_ret. by apply Hstart.
Qed.

Lemma wpf_run_overflow fuel s b l text w ps (Q : unit → shell → Prop) :
  heap_ok (mem s) → blocks (mem s) !! b = Some l → string_at l 0 text → 0 ∉ text →
  split_at PIPE text = w :: ps → (256 ≤ length (words SEP w))%nat →
  wpf (run open_max forked lingers (S fuel) (Ptr b 0) stdin_fd) s Q (λ f, f = OutOfBounds).
Proof.
  intros Hok Hb Htext H0 Hsplit Hw. cbn [run]. apply wpf_bind.
  eapply wpf_mono; [by apply (wpf_cut_piece s b l 0 text)|..].
  - intros r s' (w' & ps' & bc & rest & cells & l' & h' & q & Hcut & _ & _ & Hlt).
    pose proof (pc_split _ _ _ _ _ _ _ _ _ _ _ Hcut) as Hs. rewrite Hsplit in Hs. simplify_eq. lia.
  - by intros f [-> _].
Qed.
End second_line.

(** A line is read into the block of the prompt. *)
Lemma wp_fgets lingers s b l t eof rs :
  heap_ok (mem s) → blocks (mem s) !! b = Some l → 0 ∉ t → (length t < length l)%nat →
  wp (fgets lingers (Ptr b 0) (Line t eof :: rs)) s (λ r s', r = inr eof ∧ ∃ h l', s' = set_mem h (set_reads rs s) ∧
    heap_ok h ∧ blocks h = <[b := l']> (blocks (mem s)) ∧ length l' = length l ∧ string_at l' 0 t).
Proof.
  intros Hok Hb H0 Hlen. cbn [fgets]. apply wp_bind, wp_pipes_modify, wp_bind, wp_pipes_mem.
  eapply (wp_store_chars _ 0); [done|rewrite length_app; simpl; lia|done|].
  intros h Hok' Hblk. apply wp_ret. split; [done|]. eexists h, _. split; [done|]. split; [done|].
  split; [exact Hblk|]. split.
  - simpl. rewrite length_app, length_fmap, length_drop, !length_app. simpl. lia.
  - pose proof (string_at_until_nul t (drop (0 + length (t ++ [0])) l)) as Ht.
    by rewrite until_nul_id in Ht.
Qed.

(** A turn of the main loop that reads a line runs it. *)
Lemma wpf_main_step_line open_max forked lingers s b l t rs (Q : unit + Z → shell → Prop) F :
  heap_ok (mem s) → blocks (mem s) !! b = Some l → 0 ∉ t → (length t < length l)%nat →
  reads s = Line t false :: rs →
  (∀ h l', heap_ok h → blocks h = <[b := l']> (blocks (mem s)) → length l' = length l →
     string_at l' 0 t →
     wpf (run open_max forked lingers (Z.to_nat MAX_PROMPT) (Ptr b 0) stdin_fd)
       (set_mem h (set_reads rs (set_out (out s ++ [Put PROMPT]) s))) (λ _, Q (inl tt)) F) →
  wpf (main_step open_max forked lingers (Ptr b 0) tt) s Q F.
Proof.
  intros Hok Hb H0 Hlen Hr HQ. unfold main_step, emit.
  apply wpf_bind, wpf_wp, wp_pipes_modify, wpf_bind, wpf_wp, wp_get, wpf_bind, wpf_wp. simpl reads. rewrite Hr.
  eapply wp_mono; [by apply (wp_fgets lingers _ b l)|].
  intros ? ? (-> & h & l' & -> & Hok' & Hblk & Hl' & Ht). cbn iota. apply wpf_bind.
  by eapply HQ.
Qed.

(** ** Properties *)


(** C31: unless a SIGINT comes while the first line runs, or one of its
    commands leaves a process behind in the group, the second line ends the
    shell with status 11: the group of the first line is still recorded, and
    no longer there. *)
Theorem second_line_fails open_max forked lingers h t1 t2 rs cs c :
  heap_ok h → blocks h = ∅ → 0 ∉ t1 → 0 ∉ t2 →
  Z.of_nat (length t1) < MAX_PROMPT → Z.of_nat (length t2) < MAX_PROMPT →
  Forall (λ p, (length (words SEP p) < 256)%nat) (split_at PIPE t1) →
  (4 + length (split_at PIPE t1) ≤ open_max)%nat →
  length cs = length (commands (split_at PIPE t1)) → line_procs forked cs 0 ∅ →
  cs ≠ [] → sum_list_with sigints cs = 0%nat →
  (∃ w ps, split_at PIPE t2 = w :: ps ∧ words SEP w ≠ [] ∧ (length (words SEP w) < 256)%nat) →
  forked (length cs) = Some c → quiet c → cpid c ≠ line_group 0 cs →
  lingers (S (length cs)) (line_group 0 cs) = false →
  main open_max forked lingers (start h (Line t1 false :: Line t2 false :: rs)) = Fault (Exited 11).
Proof.
  intros Hok Hblk H01 H02 Hm1 Hm2 Hs1 Hopen Hlen Hcs Hne Hsum Hw2 Hc Hq Hcne Hling. unfold MAX_PROMPT in *.
  assert (5 ≤ open_max)%nat as Hfive.
  { pose proof (split_at_nonempty PIPE t1). destruct (split_at PIPE t1); [done|]. simpl in Hopen. lia. }
  assert (wpf (main open_max forked lingers) (start h (Line t1 false :: Line t2 false :: rs)) (λ _ _, False)
    (λ f, f = Exited 11)) as H.
  { unfold main. apply wpf_bind, wpf_wp, wp_pipes_mem, wp_alloc; [done|].
    intros b h1 _ Hfr Hblk1 Hok1. simpl in Hblk1. apply wpf_bind, wpf_wp, wp_get. simpl reads.
    cbn [loop length]. apply wpf_bind.
    assert (blocks h1 !! b = Some (replicate 4096 None)) as Hb1 by by rewrite Hblk1, lookup_insert_eq.
    eapply (wpf_main_step_line _ _ _ _ _ _ t1); [done|exact Hb1|done|rewrite length_replicate; lia|done|].
    intros h2 l2 Hok2 Hblk2 Hl2 Ht1. eapply wpf_mono; [apply wpf_wp|..|intros f Hf; exact Hf].
    { apply (wp_run open_max forked lingers _ _ 0 0 0 b l2 t1 cs); simpl; auto; try lia.
      - unfold MAX_PROMPT. lia.
      - by rewrite Hblk2, lookup_insert_eq. }
    intros [] s3 (Hok3 & (l3 & Hl3 & Hblk3) & Hfds3 & Hgr3 & Hfk3 & Hrd3 & Hpg3 & _).
    simpl in Hblk3, Hfds3, Hgr3, Hfk3, Hrd3, Hpg3. rewrite Hsum in Hpg3. simpl in Hpg3.
    apply wpf_bind. eapply (wpf_main_step_line _ _ _ _ _ l3 t2); [done|by rewrite Hblk3, lookup_insert_eq|done|
      rewrite Hl3, Hl2, length_replicate; lia|done|].
    intros h4 l4 Hok4 Hblk4 Hl4 Ht2. eapply (wpf_run_dead open_max forked lingers _ _ 0 b l4 t2 c); simpl;
      try done; [by rewrite Hblk4, lookup_insert_eq|by rewrite Hfk3|by rewrite Hfk3, Hpg3|..].
    - rewrite Hpg3. destruct cs as [|c1 cs]; [done|]. simpl.
      destruct Hcs as [_ Hc1 _ _]. by apply Forall_cons in Hc1 as [(_ & _ & ? & _) _].
    - by rewrite Hpg3. }
  unfold wpf in H. destruct (main _ _ _ _) as [[? ?]|f|]; [done|by subst|done].
Qed.

(** A first piece of 256 words or more overflows [argv]. *)
Theorem long_command_overflows open_max forked lingers h t rs w ps :
  heap_ok h → 0 ∉ t → Z.of_nat (length t) < MAX_PROMPT →
  split_at PIPE t = w :: ps → (256 ≤ length (words SEP w))%nat →
  main open_max forked lingers (start h (Line t false :: rs)) = Fault OutOfBounds.
Proof.
  intros Hok H0 Hm Hsplit Hw. unfold MAX_PROMPT in *.
  assert (wpf (main open_max forked lingers) (start h (Line t false :: rs)) (λ _ _, False)
    (λ f, f = OutOfBounds)) as H.
  { unfold main. apply wpf_bind, wpf_wp, wp_pipes_mem, wp_alloc; [done|].
    intros b h1 _ Hfr Hblk1 Hok1. simpl in Hblk1. apply wpf_bind, wpf_wp, wp_get. simpl reads.
    cbn [loop length]. apply wpf_bind.
    assert (blocks h1 !! b = Some (replicate 4096 None)) as Hb1 by by rewrite Hblk1, lookup_insert_eq.
    eapply (wpf_main_step_line _ _ _ _ _ _ t); [done|exact Hb1|done|rewrite length_replicate; lia|done|].
    intros h2 l2 Hok2 Hblk2 Hl2 Ht1. eapply (wpf_run_overflow open_max forked lingers _ _ b l2 t); try done.
    by simpl; rewrite Hblk2, lookup_insert_eq. }
  unfold wpf in H. destruct (main _ _ _ _) as [[? ?]|f|]; [done|by subst|done].
Qed.

(** A heap of one block that holds a line. *)
Definition line_heap (t : list Z) : heap cell := Heap {[1%positive := str t]} 2%positive (λ _, false).


(** Two processes, then one. *)
Definition no_sigint (_ : moment) : nat := 0.
Definition no_others (_ : nat) (_ : Z) : bool := false.
Definition three_procs (n : nat) : option proc :=
  Some (Proc (Z.of_nat (100 + n)) false no_sigint 0).
Definition two_procs : list proc := [Proc 100 false no_sigint 0; Proc 101 false no_sigint 0].

Lemma two_procs_ok : line_procs three_procs two_procs 0 ∅.
Proof.
  constructor.
  - by intros [|[|j]] c Hj; simplify_eq/=.
  - repeat constructor; done.
  - by apply (bool_decide_unpack _).
  - simpl. lia.
Qed.


(** After "ls | wc", "ls" ends the shell. *)
Lemma second_line_fails_witness :
  main 1024 three_procs no_others (start (heap_empty (λ _, false))
    [Line (bytes_of "ls | wc" ++ [10]) false; Line (bytes_of "ls" ++ [10]) false]) = Fault (Exited 11).
Proof.
  apply (second_line_fails 1024 three_procs no_others (heap_empty (λ _, false)) (bytes_of "ls | wc" ++ [10])
    (bytes_of "ls" ++ [10]) [] two_procs (Proc 102 false no_sigint 0)).
  - apply heap_empty_ok.
  - done.
  - by apply (bool_decide_unpack _).
  - by apply (bool_decide_unpack _).
  - done.
  - done.
  - repeat constructor; simpl; lia.
  - simpl. lia.
  - done.
  - apply two_procs_ok.
  - done.
  - done.
  - exists (bytes_of "ls" ++ [10]), []. split; [done|]. split; [done|]. simpl. lia.
  - done.
  - done.
  - done.
  - done.
Defined.

(** A command of 256 words. *)
Definition long_command : list Z := concat (replicate 256 (bytes_of "a ")) ++ [10].

Lemma long_command_overflows_witness :
  main 1024 three_procs no_others (start (heap_empty (λ _, false)) [Line long_command false]) = Fault OutOfBounds.
Proof.
  apply (long_command_overflows 1024 three_procs no_others (heap_empty (λ _, false)) long_command [] long_command []).
  - apply heap_empty_ok.
  - by apply (bool_decide_unpack _).
  - by vm_compute.
  - by vm_compute.
  - apply Nat.leb_le. by vm_compute.
Defined.

(** ** SIGINTs before the group is complete *)

(** A SIGINT before the first process of a line is recorded ends the shell
    with status 0, and one before it is in its group with status 1. *)
Lemma early_sigint_exits forked lingers s argv infd fd c :
  forked (forks s) = Some c → pgid s = 0 → wp (read_argv argv) (mem s) (λ _ h, h = mem s) →
  (early c Created ≠ 0%nat → start_process forked lingers argv infd fd s = Fault (Exited 0)) ∧
  (early c Created = 0%nat → early c Recorded ≠ 0%nat → cpid c ≠ 0 →
     child_in (cpid c) (set_groups (<[cpid c := 0]> (groups s)) (S (forks s)) s) = false →
     lingers (S (forks s)) (cpid c) = false →
     start_process forked lingers argv infd fd s = Fault (Exited 1)).
Proof.
  intros Hc Hpg Hargv. split.
  - intros He. unfold start_process, fork, mbind, comp_bind, get. rewrite Hc. simpl.
    destruct (early c Created); [done|]. cbn [sigints_come].
    unfold sigint_handler, mbind, comp_bind, get. simpl. by rewrite Hpg.
  - intros H0 He Hc0 Hin Hling.
    enough (wpf (start_process forked lingers argv infd fd) s (λ _ _, False) (λ f, f = Exited 1)) as H.
    { unfold wpf in H. destruct (start_process _ _ _ _ _ s) as [[? ?]|f|]; [done|by subst|done]. }
    unfold start_process. apply wpf_bind, wpf_wp. unfold fork. apply wp_bind, wp_get. rewrite Hc.
    apply wp_bind, wp_put, wp_ret. rewrite H0. cbn [sigints_come].
    apply wpf_bind, wpf_wp, wp_ret, wpf_bind, wpf_wp. unfold child. apply wp_bind, wp_get.
    apply (wp_mono _ _ (λ _ s', pgid s' = 0 ∧ groups s' = <[cpid c := 0]> (groups s) ∧ forks s' = S (forks s))).
    { destruct (child_fds _ _ _); [by apply wp_ret|]. apply wp_bind, wp_pipes_mem.
      eapply wp_mono; [exact Hargv|]. intros ? ? ->. by apply wp_pipes_modify. }
    intros ? s2 (Hp2 & Hg2 & Hf2). apply wpf_bind, wpf_wp, wp_pipes_modify, wpf_bind.
    destruct (early c Recorded); [done|]. cbn [sigints_come]. apply wpf_bind.
    unfold sigint_handler. apply wpf_bind, wpf_wp, wp_get. simpl pgid. rewrite Hp2. cbn iota.
    change (0 =? 0) with true. cbn iota. rewrite (proj2 (Z.eqb_neq (cpid c) 0)) by done.
    unfold group_exists, child_in in *. simpl in *. by rewrite Hg2, Hf2, Hin, Hling.
Qed.

(** One that comes when the first process is in its group, and before the
    second, splits the line: it is sent to the first, and the second is put in
    a group of its own. *)
Definition split_procs (n : nat) : option proc :=
  Some (Proc (Z.of_nat (100 + n)) false (λ m, match m, n with Grouped, O => 1%nat | _, _ => 0%nat end) 0).

Example early_sigint_splits :
  match run 1024 split_procs no_others 4 (Ptr 1 0) stdin_fd
    (Shell (line_heap (bytes_of "ls | wc" ++ [10])) Null 0
       (map_seqZ 0 [Stdin; Stdout; Stderr]) ∅ 0 0 [] []) with
  | Ok (_, s) => out s =
      [Exec [bytes_of "ls"] (map_seqZ 0 [Stdin; PipeW 0; Stderr]); Join 100 100; KillGroup 100;
       Exec [bytes_of "wc"] (map_seqZ 0 [PipeR 0; Stdout; Stderr]); Join 101 101]
  | _ => False
  end.
Proof. by vm_compute. Qed.
